(* ===== verification/_CoqProject ===== *)
-Q . S2P
Prelude.v
Model.v
MetricPkg.v
Storage.v
Ewma.v
Iterator.v
Fanin.v
FaninRace.v
FaninQuery.v
Relabel.v
Queue.v
Shards.v
QueueSpec.v
Target.v
Json.v
ApiParse.v
Types.v
Answer.v
Client.v
ClientRace.v
Read.v
Write.v
Querier.v
QuerySystem.v
Appender.v
TargetManager.v
Httputil.v
Proxy.v
Api.v
Federation.v
Engine.v
Cascade.v
Flags.v
Web.v
Server.v
Service.v
Process.v
