(* ===== verification/Prelude.v ===== *)
(** * A verification library for promeproxy

    promeproxy is a fork of the Prometheus server that answers queries by asking
    other Prometheus servers and merging their answers, and that can forward
    samples to remote storage. This library models the implementation under
    [src/cmd], [src/web], [src/retrieval] and [src/storage], and the parts of the
    vendored packages that it relies on as data or algorithms. It has no axiom
    and no admitted proof.

    ** The program, its parts and the files that model them

    A configuration file is loaded at the start and at every hang-up and handed to
    four components: the remote writer, the remote reader, the target manager and
    the web handler. The web server passes requests to the API, which runs PromQL
    queries over the fan-in querier (the local storage, which keeps nothing, and
    one querier for each remote of the reader), or passes the request on to the
    Prometheus servers among the targets. The writer owns a queue for each
    endpoint, with goroutines that batch, send and reshard.

    - [Prelude]: 64-bit integers with their wrap-around, the outcome monad of code
      that may panic, IEEE binary64 as the code uses it, binary search, sorted
      lists, ranges of maps; tactics and the hint database [promeproxy].
    - [Model]: times, label sets, samples, fingerprints (vendored
      [common/model]).
    - [MetricPkg] ([storage/metric]): [Module Matcher], the label matchers of
      [matcher.go]; [Module CopyOnWrite], the wrapper of [metric.go] over an
      explicit store of maps.
    - [Storage] ([storage/storage.go]): appenders and their fan-out.
    - [Ewma] ([storage/remote/ewma.go]): the rate, and [tick] as the atomic steps
      that [incr] interleaves with.
    - [Iterator] ([storage/remote/iterator.go]): the class of series iterators
      with the laws of those backed by sorted samples, and the instance for a
      fetched stream.
    - [Fanin], [FaninRace], [FaninQuery] ([storage/fanin/fanin.go]): merging of
      samples and iterators; the goroutines of the query as accesses to the map
      that they share without a lock; the query, for any interleaving of them.
    - [Relabel]: relabelling (vendored [prometheus/relabel]).
    - [Queue], [Shards] ([storage/remote/queue_manager.go]): the sequential
      operations of a queue, and the system of its goroutines; [QueueSpec] is the
      abstract queue per series that this system implements.
    - [Json]: the part of [encoding/json] that the program uses, from the bytes
      to the values and back.
    - [Answer] ([storage/remote/types.go] and the JSON methods of the vendored
      [common/model]): the answer of a remote to a range query.
    - [Client], [Read], [Write] ([client.go], [read.go], [write.go] of
      [storage/remote]): the client of one endpoint, the reader and its queriers,
      the writer and its queues; [ClientRace]: concurrent reads of one client.
    - [Querier]: the fan-in over the queriers that [Main] puts together, and the
      slice of matchers that the goroutines of a query share; [QuerySystem]: the
      goroutines of a query as one system.
    - [Target], [Appender] ([retrieval/target.go]): targets and their labels, the
      appenders of a scrape.
    - [TargetManager] ([retrieval/scrape.go], [retrieval/targetmanager.go]): pools
      and the manager.
    - [ApiParse], [Types], [Httputil], [Proxy], [Api] ([web/api/v1],
      [utils/httputil.go]): times and durations, the structs of the answers, the
      client with a deadline, the request to every target, the handlers and their
      replies; [Federation]: what one API answers and another decodes.
    - [Engine] (vendored [promql/engine.go] and [promql/ast.go]): the parts of the
      query engine that the API and the fan-in meet, as an instance of the class
      [APILib] of [Api]; [Cascade]: a proxy that asks a proxy.
    - [Flags] ([cmd/config.go]), [Web] ([web/web.go]): flags and the help text;
      the web handler with its routes, its status state and [Run].
    - [Server] ([cmd/main.go], the channels of [web/web.go]): reloading, the start,
      and the process as a system of steps; [Service]: the API in a process, and
      the queries of a process; [Process]: the process together with the goroutines
      of any number of queries and of requests that are passed on.

    A record has the name of the Go struct that it models, and an operation the
    name of the function or method, prefixed with the type's name where two
    types have the same method.

    ** How the code is modelled

    - A Go [int], [int64] or [time.Duration] is a [Z] followed by [int64] where
      the operation may leave the range; [uint64] likewise. A float is a
      [spec_float] in binary64; converting a float out of range to an integer is
      a parameter ([oob]), because Go leaves it open.
    - A panic is a value of [outcome]; an error is an [option error] or the left
      of a sum. A goroutine that blocks is [None] of a step function, or has no
      step of a step relation.
    - A map is a [gmap]. Where the code ranges over a map, the order is a parameter
      ([MapOrder], [ParamsOrder], [TargetsOrder]) that lists the map in any order,
      or a hypothesis [map_range]. Maps that are aliased are in an explicit store
      ([CopyOnWrite]); slices that goroutines share are arrays of a store
      ([Proxy]) or a shared array ([Querier]).
    - Goroutines are systems of atomic steps under any schedule: a step is an
      access to the state they share, or an exchange with the outside world.
      Sending a batch with all its retries is one step of its shard, a call of a
      locked method one step of its caller. Each queue, and each remote of a
      query, has its own part of the outside world.
    - Code that is not in the repository is the operation of a class, with what
      the program relies on as its laws: [RegexpLib], [StrconvLib], [RelabelLib]
      (templates and md5), [HTTPLib] (HTTP, URLs, protobuf, snappy),
      [URLLib], [ScrapeLib] (service discovery), [TimeLib], [ProxyLib], [NetLib], [APILib]
      (the PromQL engine and the JSON of its values, so that the handlers are
      proved for any engine; [engine_api] is the vendored one), [FlagLib], and the
      parameters [LoadFile] and [fs_Parse]. Each class has a concrete instance with
      which the witnesses evaluate the theorems.
    - The engine has as parameters ([engine_params]) the parser, the operators,
      functions and aggregations, when a query is interrupted, and how many
      evaluations a range query has before its context ends. That budget is also
      the fuel of [range_loop]: a loop that ends by itself does so in as many
      rounds as it has points ([range_query_points]), and one that does not is
      ended by its context.
    - Loops that are not structural carry fuel: the merge of two lists the sum of
      their lengths ([mergeSamples_loop]), the retries of a batch [MaxRetries],
      the trimming and the removal of duplicates the length of their input. That
      the fuel is enough is part of the theorems about these functions.
    - Logging, histograms and metrics that nothing reads are left out.

    ** What is proved

    - The write path: whatever the interleaving, samples of one series are sent in
      order, nothing that was accepted is lost or sent twice, Stop terminates, and
      the only panics are named ([Shards]); the whole system refines a queue per
      series ([QueueSpec]); what one Append queues, how a batch is
      retried, how the number of shards is computed ([Queue]); the rates lose no
      event ([Ewma]); a reconfiguration of the writer flushes the old queues
      ([Write]); requests and external labels round-trip ([Client], [Read]).
    - The read path: merging is the sorted union in which the first list wins, the
      merged iterator meets its specification on ranges and instants ([Fanin]);
      a stream's iterator meets the interface ([Iterator]); the request and the
      answer of a remote ([Client], [Read]), and that the body a server writes is
      read back ([Answer]); however its goroutines interleave in the map, a query
      of the program returns one iterator per fingerprint, with samples that some
      remote returned, and with all the instants the remotes have where only one
      remote returned the fingerprint or the goroutines follow each other
      ([FaninQuery], [Querier]); what the races lose otherwise ([FaninRace],
      [FaninQuery], [Querier]); all the goroutines of a query, with their matchers
      and requests, do what the remotes do one after the other, when they share no
      fingerprint ([QuerySystem]). From the request to the samples, an instant
      query in any reachable state of the process returns, under the same
      conditions, the latest sample of each series of the endpoints configured
      last ([query_of_process]); the preparation of a
      query asks each selector once, for the window it needs
      ([populateIterators_correct]); a range query has the points it is asked for,
      and with a step below a millisecond never ends by itself
      ([range_query_points]).
    - Proxies over proxies: the matrix that a proxy answers is what the proxy that
      asked decodes ([range_reply_roundtrip]), and a range of more than 22000
      seconds gets no answer from another proxy ([long_range_unanswered]).
    - Matchers and relabelling have their specifications ([MetricPkg],
      [Relabel]); the copy-on-write wrapper refines a map with value semantics
      ([CopyOnWrite]).
    - Targets: labels and their precedence, the targets of a group, the pools'
      and the manager's invariants over any life ([Target], [TargetManager]).
    - The API: parsing with its bounds, the parameters of queries, errors and
      their codes, the shape of every reply, the fan-out of requests ([ApiParse],
      [Proxy], [Api]); an answer is decoded to what was answered, through any
      number of proxies ([Json], [Federation]); the client leaks no connection
      ([Httputil]); the routes are unique, so that the router takes all of them,
      and how [Run] ends ([Web]); the normalised paths, and the help text that
      lists every flag ([Flags]).
    - The process: reloading keeps the components that refuse a configuration,
      the start ends with a code or serves, and the state is a function of the
      events ([Server]); a request of the API asks the targets of the configuration
      in force ([Service]); every way to end ends the process, and every panic that
      ends it is named, those of the goroutines of its requests included
      ([Process]).

    Some theorems say that the code does less than it means to: the shared map and
    slices of [FaninRace], [Proxy] and [Querier], the requests that concurrent reads
    take from each other ([concurrent_reads]), the null series that ends the
    process ([null_stream_panics]), the number of shards that can be
    zero ([reshard_not_positive]), the last second of a range ([Read_window]),
    [offset_correct], [rule_labels_order_dependent], [count_deleted_doubles],
    [range_limit_overflows] with [range_overflow_panics], the steps and ranges
    above, the errors that are all taken for errors of the storage
    ([query_handlers_correct]), the reload request that nobody answers
    ([server_trace]) and the exit before the run ([process_exits]).

    ** Bounds of the model

    - The capacity of a queue is positive, as in the configuration the program
      uses, and Start is called before Stop.
    - [FaninQuery.query], and with it [fanin_QueryRange], the engine and [Service],
      interleave the accesses of a query's goroutines to the map, but make the
      requests before, each goroutine with its own matchers; [QuerySystem] and
      [Process] interleave the appending of matchers and the requests too. There
      each remote of a query has a client of its own; [ClientRace] has the clients
      that queries share. [queryMap] of [Fanin] runs the remotes one after the
      other: it is the reference that the interleavings are compared with.
    - A memory access is atomic and [append] is a read, a write of the element and
      a write of the slice; the Go memory model allows worse, and the runtime may
      abort on concurrent map writes.
    - [Server] takes the limit on connections not to be negative, with which [Run]
      would panic ([Handler_Run_correct]); [Process] has that panic.
    - A tick of a queue may be taken any number of times after Stop was called, as
      select chooses among what is ready at random; [shards_stop_terminates] counts
      the ticks apart from the other steps.
    - A panic of the goroutine that serves a request is recovered by the HTTP
      server; every other one ends the process.

    ** Not modelled

    The parsing of the configuration file and of PromQL, the operators, functions
    and aggregations of the engine, service discovery, the router and the HTTP
    server are vendored or standard code and appear as parameters. So does the
    decoding of the answers of [/targets]: whether it goes on after an error of
    [LabelSet.UnmarshalJSON], which the handler only logs, depends on the release
    of Go. [encoding/json] limits the depth of nesting in some releases; [Json]
    does not. [remote.pb.go] is generated, and only its messages are modelled.

    What is left of the files under [src/cmd], [src/web], [src/retrieval],
    [src/storage] and [src/utils] has nothing to prove: imports, methods that the
    sort package wants ([Len] and [Swap]), types of [cmd/main.go] that nothing
    uses, code in comments, logging and metrics. This fork does not scrape: the
    appender that the target manager keeps is not used, so the queues of the
    process of [Server] have no new samples; [Write] has the operations of the
    writer. *)
From stdpp Require Export gmap strings list fin_maps sorting relations.
From Stdlib Require Export ZArith Lia Ascii.
From Stdlib Require Export SpecFloat.

#[export] Set Default Goal Selector "!".

(** ** The hint database and the tactics of the development *)

Create HintDb promeproxy.

(** [split_ands] splits every conjunction of the goal. *)
Ltac split_ands := repeat match goal with |- _ /\ _ => split end.

(** [zcases] analyses every boolean integer test of the goal. *)
Ltac zcases :=
  repeat match goal with
  | |- context [ Z.ltb ?a ?b ] => destruct (Z.ltb_spec a b)
  | |- context [ Z.leb ?a ?b ] => destruct (Z.leb_spec a b)
  | |- context [ Z.gtb ?a ?b ] => rewrite (Z.gtb_ltb a b)
  | |- context [ Z.geb ?a ?b ] => rewrite (Z.geb_leb a b)
  | |- context [ Z.eqb ?a ?b ] => destruct (Z.eqb_spec a b)
  end.

(** ** Machine integers

    Go's [int], [int64] and [time.Duration] are 64-bit two's complement, its
    [uint64] is 64-bit unsigned; arithmetic wraps around silently. A value is
    a [Z]; an operation that may leave the range is followed by the wrap. *)

Section integers.
Open Scope Z_scope.

Definition two63 : Z := 9223372036854775808.
Definition two64 : Z := 18446744073709551616.
Definition MaxInt64 : Z := 9223372036854775807.
Definition MinInt64 : Z := -9223372036854775808.

(** Wrap-around of a signed and of an unsigned 64-bit result. *)
Definition int64 (z : Z) : Z := (z + two63) mod two64 - two63.
Definition uint64 (z : Z) : Z := z mod two64.

Definition in_int64 (z : Z) : Prop := MinInt64 <= z <= MaxInt64.
Definition in_uint64 (z : Z) : Prop := 0 <= z < two64.

Lemma int64_id z : in_int64 z -> int64 z = z.
Proof.
  unfold in_int64, int64, two63, two64, MinInt64, MaxInt64. intros H.
  rewrite Z.mod_small; lia.
Qed.

Lemma int64_range z : in_int64 (int64 z).
Proof.
  unfold in_int64, int64, two63, two64, MinInt64, MaxInt64.
  pose proof (Z.mod_pos_bound (z + 9223372036854775808) 18446744073709551616). lia.
Qed.

Lemma uint64_range z : in_uint64 (uint64 z).
Proof. unfold in_uint64, uint64, two64. apply Z.mod_pos_bound. lia. Qed.

Lemma uint64_id z : in_uint64 z -> uint64 z = z.
Proof. apply Z.mod_small. Qed.

(** Two representations of the same 64-bit word. *)
Lemma int64_congr a b : a mod two64 = b mod two64 -> int64 a = int64 b.
Proof.
  unfold int64. intros H. f_equal.
  rewrite (Z.add_mod a), (Z.add_mod b), H by (unfold two64; lia). done.
Qed.

Lemma int64_mod z : int64 z mod two64 = z mod two64.
Proof.
  unfold int64. rewrite Zminus_mod_idemp_l.
  f_equal. lia.
Qed.

Lemma int64_add_l a b : int64 (int64 a + b) = int64 (a + b).
Proof.
  apply int64_congr. rewrite Z.add_mod by done.
  rewrite int64_mod, <- Z.add_mod by done. done.
Qed.

Lemma int64_add_r a b : int64 (a + int64 b) = int64 (a + b).
Proof. rewrite Z.add_comm, int64_add_l, Z.add_comm. done. Qed.

End integers.

#[export] Hint Resolve int64_range uint64_range : promeproxy.

(** ** IEEE 754 binary64

    Go's [float64] is the executable specification of the format in
    [SpecFloat], with 53 bits of precision and round-to-nearest-even. *)

Section floats.
Open Scope Z_scope.

Definition float64 : Type := spec_float.
Definition f64_add : float64 -> float64 -> float64 := SFadd 53 1024.
Definition f64_sub : float64 -> float64 -> float64 := SFsub 53 1024.
Definition f64_mul : float64 -> float64 -> float64 := SFmul 53 1024.
Definition f64_div : float64 -> float64 -> float64 := SFdiv 53 1024.
Definition f64_ltb : float64 -> float64 -> bool := SFltb.
Definition f64_leb : float64 -> float64 -> bool := SFleb.
Definition f64_eqb : float64 -> float64 -> bool := SFeqb.

(** Conversion of an integer, correctly rounded: Go's [float64(n)]. *)
Definition f64_of_Z (z : Z) : float64 := binary_normalize 53 1024 z 0 false.

(** An untyped decimal constant [num/den]; [num] and [den] are exact doubles,
    so the quotient is the double nearest to the constant. *)
Definition f64_const (num den : Z) : float64 := f64_div (f64_of_Z num) (f64_of_Z den).

(** The integer part of a finite double; [None] for NaN and infinities. *)
Definition f64_trunc (x : float64) : option Z :=
  match x with
  | S754_zero _ => Some 0
  | S754_finite s m e =>
      let a := if 0 <=? e then Z.shiftl (Zpos m) e else Z.shiftr (Zpos m) (- e) in
      Some (if s then - a else a)
  | _ => None
  end.

(** Go's [int64(x)]: truncation. Out of the range of int64, and for NaN, the
    language leaves the value to the implementation: [oob] is that value. *)
Definition f64_to_int64 (oob : float64 -> Z) (x : float64) : Z :=
  match f64_trunc x with
  | Some z => if (MinInt64 <=? z) && (z <=? MaxInt64) then z else oob x
  | None => oob x
  end.

(** [math.Ceil]. *)
Definition f64_ceil (x : float64) : float64 :=
  match x with
  | S754_finite s m e =>
      if 0 <=? e then x
      else
        let sm := if s then Zneg m else Zpos m in
        let c := - Z.shiftr (- sm) (- e) in
        if c =? 0 then S754_zero s else f64_of_Z c
  | _ => x
  end.

Definition f64_zero : float64 := S754_zero false.

Definition f64_is_finite (x : float64) : bool :=
  match x with
  | S754_zero _ | S754_finite _ _ _ => true
  | _ => false
  end.

#[export] Instance float64_eq_dec : EqDecision float64.
Proof. unfold float64. solve_decision. Defined.

Lemma f64_eqb_refl x : x <> S754_nan -> f64_eqb x x = true.
Proof.
  unfold f64_eqb, SFeqb. destruct x as [s|s| |s m e]; simpl; intros H;
    try destruct s; try done;
    rewrite Z.compare_refl; fold (Pos.compare m m); rewrite ?Pos.compare_refl; done.
Qed.

End floats.

(** ** Outcomes

    A Go call returns or panics; an error value is an ordinary result. *)

Inductive go_panic :=
  | PanicIndex | PanicSlice | PanicDivide | PanicNilDeref | PanicNilMap
  | PanicMakeLen | PanicSendClosed | PanicCloseClosed
  | PanicMsg (msg : string).

Inductive outcome (A : Type) :=
  | Ret (x : A)
  | Panic (p : go_panic).
Arguments Ret {A} x.
Arguments Panic {A} p.

#[export] Instance go_panic_eq_dec : EqDecision go_panic.
Proof. solve_decision. Defined.
#[export] Instance outcome_ret : MRet outcome := fun _ x => Ret x.
#[export] Instance outcome_bind : MBind outcome := fun _ _ f x =>
  match x with Ret a => f a | Panic p => Panic p end.

(** An error value of Go: its message. *)
Abbreviation error := string.

Lemma outcome_bind_Ret {A B} (f : A -> outcome B) (x : outcome A) b :
  x ≫= f = Ret b <-> exists a, x = Ret a /\ f a = Ret b.
Proof. destruct x; simpl; naive_solver. Qed.

(** [mapM]-like traversal of a list with a function that may panic. *)
Fixpoint outcome_map {A B} (f : A -> outcome B) (l : list A) : outcome (list B) :=
  match l with
  | [] => Ret []
  | x :: l => y ← f x; ys ← outcome_map f l; Ret (y :: ys)
  end.

Lemma outcome_map_Ret {A B} (f : A -> B) l :
  outcome_map (fun x => Ret (f x)) l = Ret (f <$> l).
Proof. induction l as [|x l IH]; simpl; [done|]. by rewrite IH. Qed.

Lemma outcome_map_ext {A B} (f g : A -> outcome B) l :
  (forall x, x ∈ l -> f x = g x) -> outcome_map f l = outcome_map g l.
Proof.
  induction l as [|x l IH]; intros H; simpl; [done|].
  rewrite H by set_solver. rewrite IH by set_solver. done.
Qed.

Lemma outcome_map_total {A B} (f : A -> outcome B) l :
  Forall (fun x => exists y, f x = Ret y) l -> exists k, outcome_map f l = Ret k.
Proof.
  induction 1 as [|x l [y Hy] Hl [k Hk]]; simpl; [by eexists|].
  rewrite Hy. simpl. rewrite Hk. by eexists.
Qed.

(** The first panic of a traversal is its outcome, when all are the same. *)
Lemma outcome_map_panics {A B} (f : A -> outcome B) l p :
  Forall (fun x => (exists y, f x = Ret y) \/ f x = Panic p) l ->
  Exists (fun x => f x = Panic p) l -> outcome_map f l = Panic p.
Proof.
  induction 1 as [|x l Hx Hl IH]; intros He; simpl; [by inversion He|].
  destruct Hx as [[y Hy]|Hy]; rewrite Hy; simpl; [|done].
  inversion He as [? ? Hp|? ? Hp]; subst; [congruence|]. by rewrite IH.
Qed.

Lemma outcome_map_Forall2 {A B} (f : A -> outcome B) l k :
  outcome_map f l = Ret k <-> Forall2 (fun x y => f x = Ret y) l k.
Proof.
  revert k. induction l as [|x l IH]; intros k; simpl.
  { split; [by intros [= <-]|by inversion 1]. }
  rewrite outcome_bind_Ret. setoid_rewrite outcome_bind_Ret.
  split.
  - intros (y & Hy & ys & Hys & [= <-]). constructor; [done|]. by apply IH.
  - inversion 1 as [|? y ? ys Hy Hys]; subst. exists y. split; [done|].
    exists ys. split; [|done]. by apply IH.
Qed.

(** ** [sort.Search]

    The binary search of Go's standard library: the least index in [[0,n)] at
    which [f] holds, or [n]. The loop halves [[i,j)], so [n] units of fuel are
    enough ([sort_search_loop_spec]). *)

Fixpoint sort_search_loop (fuel : nat) (f : nat -> bool) (i j : nat) : nat :=
  match fuel with
  | O => i
  | S fuel =>
      if Nat.ltb i j then
        let h := (i + (j - i) / 2)%nat in
        if negb (f h) then sort_search_loop fuel f (S h) j
        else sort_search_loop fuel f i h
      else i
  end.

Definition sort_search (n : nat) (f : nat -> bool) : nat := sort_search_loop n f 0 n.

Section sort_search.
Open Scope nat_scope.
Variable f : nat -> bool.

(** [f] switches at most once, from false to true, below [n]. *)
Definition search_monotone (n : nat) : Prop :=
  forall k l, k <= l -> l < n -> f k = true -> f l = true.

Lemma sort_search_loop_spec fuel n i j :
  j - i <= fuel -> i <= j <= n -> search_monotone n ->
  (forall k, k < i -> f k = false) -> (forall k, j <= k < n -> f k = true) ->
  i <= sort_search_loop fuel f i j <= j /\
  (forall k, k < sort_search_loop fuel f i j -> f k = false) /\
  (forall k, sort_search_loop fuel f i j <= k < n -> f k = true).
Proof.
  intros Hf Hij Hm. revert i j Hf Hij.
  induction fuel as [|fuel IH]; intros i j Hf Hij Hlo Hhi;
    cbn [sort_search_loop]; cbv zeta.
  { replace j with i in * by lia. auto with lia. }
  destruct (Nat.ltb_spec i j) as [Hlt|Hge].
  2: { replace j with i in * by lia. auto with lia. }
  pose proof (Nat.div_lt (j - i) 2 ltac:(lia) ltac:(lia)) as Hh.
  assert (i <= i + (j - i) / 2 < j) as Hih by lia.
  set (h := i + (j - i) / 2) in *. clearbody h.
  destruct (f h) eqn:Hfh; simpl.
  - assert (forall k, h <= k < n -> f k = true) as Hhi'.
    { intros k Hk. eapply (Hm h); [lia|lia|done]. }
    destruct (IH i h) as (?&?&?); [lia|lia|done|done|]. split_ands; auto; lia.
  - assert (forall k, k < S h -> f k = false) as Hlo'.
    { intros k Hk. destruct (f k) eqn:Hfk; [|done].
      assert (f h = true) as Hh' by (eapply (Hm k); [lia|lia|done]). congruence. }
    destruct (IH (S h) j) as (?&?&?); [lia|lia|done|done|]. split_ands; auto; lia.
Qed.

Lemma sort_search_spec n :
  search_monotone n ->
  sort_search n f <= n /\ (forall k, k < sort_search n f -> f k = false) /\
  (forall k, sort_search n f <= k < n -> f k = true).
Proof.
  intros Hm. destruct (sort_search_loop_spec n n 0 n) as (?&?&?); try lia; [done|].
  split_ands; auto; unfold sort_search; lia.
Qed.

Lemma sort_search_loop_le fuel i j : i <= j -> i <= sort_search_loop fuel f i j <= j.
Proof.
  revert i j. induction fuel as [|fuel IH]; intros i j Hij; cbn [sort_search_loop]; cbv zeta; [lia|].
  destruct (Nat.ltb_spec i j) as [Hlt|Hge]; [|lia].
  pose proof (Nat.div_lt (j - i) 2 ltac:(lia) ltac:(lia)) as Hh.
  assert (i <= i + (j - i) / 2 < j) as Hih by lia.
  set (h := i + (j - i) / 2) in *. clearbody h.
  destruct (f h); cbn [negb].
  - destruct (IH i h); lia.
  - destruct (IH (S h) j); lia.
Qed.

Lemma sort_search_le n : sort_search n f <= n.
Proof. apply sort_search_loop_le. lia. Qed.

End sort_search.

(** Searching a slice with a predicate on its elements. *)
Definition search_list {A} (p : A -> bool) (l : list A) : nat :=
  sort_search (length l) (fun i => match l !! i with Some x => p x | None => false end).

(** [p] holds of a suffix of [l]. *)
Definition switches_once {A} (p : A -> bool) (l : list A) : Prop :=
  StronglySorted (fun x y => p x = true -> p y = true) l.

Lemma StronglySorted_lookup_rel {A} (R : A -> A -> Prop) l i j x y :
  StronglySorted R l -> i < j -> l !! i = Some x -> l !! j = Some y -> R x y.
Proof.
  intros Hs. revert i j. induction Hs as [|z l Hs IH Hz]; intros i j Hij Hi Hj; [done|].
  destruct j as [|j]; [lia|]. destruct i as [|i]; simplify_eq/=.
  - rewrite Forall_forall in Hz. apply Hz. by eapply list_elem_of_lookup_2.
  - eapply (IH i j); [lia|done..].
Qed.

Lemma search_list_le {A} (p : A -> bool) l : search_list p l <= length l.
Proof. apply sort_search_le. Qed.

Lemma search_list_spec {A} (p : A -> bool) l :
  switches_once p l ->
  Forall (fun x => p x = false) (take (search_list p l) l) /\
  Forall (fun x => p x = true) (drop (search_list p l) l).
Proof.
  intros Hs. set (f := fun i => match l !! i with Some x => p x | None => false end).
  assert (search_monotone f (length l)) as Hm.
  { intros i j Hij Hj. unfold f.
    destruct (lookup_lt_is_Some_2 l j Hj) as [y Hy].
    destruct (l !! i) as [x|] eqn:Hx; [|done]. rewrite Hy.
    destruct (decide (i = j)) as [->|]; [congruence|].
    eapply (StronglySorted_lookup_rel _ l i j x y Hs); [lia|done..]. }
  destruct (sort_search_spec f _ Hm) as (Hle&Hlo&Hhi).
  fold (search_list p l) in Hle. split; apply Forall_lookup; intros i x Hi.
  - apply lookup_take_Some in Hi as [Hi Hlt]. specialize (Hlo i Hlt).
    unfold f in Hlo. by rewrite Hi in Hlo.
  - rewrite lookup_drop in Hi. pose proof (lookup_lt_Some _ _ _ Hi) as Hlt.
    specialize (Hhi (search_list p l + i)). unfold f in Hhi.
    rewrite Hi in Hhi. apply Hhi. unfold search_list. fold f. unfold search_list in Hlt.
    fold f in Hlt. lia.
Qed.

Lemma filter_all {A} (P : A -> Prop) `{!forall x, Decision (P x)} l :
  Forall P l -> filter P l = l.
Proof.
  induction 1 as [|x l Hx Hl IH]; [done|]. by rewrite filter_cons_True, IH.
Qed.

Lemma filter_none {A} (P : A -> Prop) `{!forall x, Decision (P x)} l :
  Forall (fun x => ~ P x) l -> filter P l = [].
Proof.
  induction 1 as [|x l Hx Hl IH]; [done|]. by rewrite filter_cons_False, IH.
Qed.

(** The two halves of the search are the two filters of the slice. *)
Lemma search_list_take {A} (p : A -> bool) l :
  switches_once p l -> take (search_list p l) l = filter (fun x => p x = false) l.
Proof.
  intros Hs. destruct (search_list_spec p l Hs) as [Ht Hd].
  rewrite <- (take_drop (search_list p l) l) at 3.
  rewrite filter_app, (filter_all _ (take _ _)), (filter_none _ (drop _ _)), app_nil_r;
    [done| |done].
  eapply Forall_impl; [exact Hd|]. simpl. congruence.
Qed.

Lemma search_list_drop {A} (p : A -> bool) l :
  switches_once p l -> drop (search_list p l) l = filter (fun x => p x = true) l.
Proof.
  intros Hs. destruct (search_list_spec p l Hs) as [Ht Hd].
  rewrite <- (take_drop (search_list p l) l) at 3.
  rewrite filter_app, (filter_none _ (take _ _)), (filter_all _ (drop _ _)); [done|done|].
  eapply Forall_impl; [exact Ht|]. simpl. congruence.
Qed.

Lemma search_list_all_false {A} (p : A -> bool) l :
  switches_once p l -> search_list p l = length l -> Forall (fun x => p x = false) l.
Proof.
  intros Hs Hr. destruct (search_list_spec p l Hs) as [Ht _].
  by rewrite Hr, firstn_all in Ht.
Qed.

(** ** Ranging over a map

    [for k, v := range m] visits the entries of [m] once each, in an order the
    language leaves open and the runtime randomises. A loop is a function of
    the list of entries it visits; [map_range m l] says that [l] is one of the
    orders of [m], and a property of the loop quantifies over them. *)

Section map_range.
Context {K A : Type} `{Countable K}.
Implicit Types (m : gmap K A) (l : list (K * A)).

Definition map_range m l : Prop := l ≡ₚ map_to_list m.

(** The loop [for k, v := range ext { if _, ok := m[k]; !ok { m[k] = v } }]. *)
Definition add_missing l m : gmap K A :=
  foldl (fun acc '(k, v) =>
    match acc !! k with Some _ => acc | None => <[k:=v]> acc end) m l.

Lemma map_range_refl m : map_range m (map_to_list m).
Proof. by unfold map_range. Qed.

Lemma map_range_NoDup_fst m l : map_range m l -> NoDup l.*1.
Proof. unfold map_range. intros ->. apply NoDup_fst_map_to_list. Qed.

Lemma map_range_elem_of m l k v : map_range m l -> (k, v) ∈ l <-> m !! k = Some v.
Proof. unfold map_range. intros ->. apply elem_of_map_to_list. Qed.

Lemma map_range_list_to_map m l : map_range m l -> list_to_map l = m.
Proof.
  intros Hl. rewrite <- (list_to_map_to_list m).
  apply list_to_map_proper; [by eapply map_range_NoDup_fst|done].
Qed.

Lemma map_range_of_list l : NoDup l.*1 -> map_range (list_to_map l) l.
Proof. intros Hl. unfold map_range. by rewrite map_to_list_to_map. Qed.

Lemma add_missing_lookup l m k :
  add_missing l m !! k =
    match m !! k with Some v => Some v | None => (list_to_map l : gmap K A) !! k end.
Proof.
  revert m. induction l as [|[k' v'] l IH]; intros m; simpl.
  { rewrite lookup_empty. by destruct (m !! k). }
  change (foldl _ _ l) with (add_missing l
    (match m !! k' with Some _ => m | None => <[k':=v']> m end)).
  rewrite IH. destruct (decide (k' = k)) as [->|Hne].
  - destruct (m !! k) eqn:Hk; rewrite ?Hk; simplify_map_eq; done.
  - rewrite lookup_insert_ne by done.
    destruct (m !! k') eqn:Hk'; [done|]. by rewrite lookup_insert_ne.
Qed.

(** Whatever the order, the loop is the left-biased union. *)
Lemma add_missing_union m ext l : map_range ext l -> add_missing l m = m ∪ ext.
Proof.
  intros Hl. apply map_eq. intros k.
  rewrite add_missing_lookup, (map_range_list_to_map ext l Hl), lookup_union.
  by destruct (m !! k), (ext !! k).
Qed.

(** The loop [for k, v := range m { out[k] = v }] from an empty map is a copy. *)
Lemma foldl_insert_list_to_map l (acc : gmap K A) :
  NoDup l.*1 -> foldl (fun out '(k, v) => <[k:=v]> out) acc l = list_to_map l ∪ acc.
Proof.
  revert acc. induction l as [|[k v] l IH]; intros acc Hl; simpl.
  { by rewrite map_empty_union. }
  inversion_clear Hl as [|?? Hk Hl']. rewrite IH by done.
  rewrite <- insert_union_l, insert_union_r; [done|].
  by apply not_elem_of_list_to_map_1.
Qed.

End map_range.

#[export] Hint Resolve map_range_refl map_range_NoDup_fst : promeproxy.

(** ** Lists sorted by an integer key *)

Section sorted_by.
Context {A : Type} (key : A -> Z).
Implicit Types (l : list A).

Definition sorted_by l : Prop := StronglySorted (fun x y => (key x < key y)%Z) l.

Lemma sorted_by_nil : sorted_by [].
Proof. constructor. Qed.

Lemma sorted_by_cons x l :
  sorted_by (x :: l) <-> Forall (fun y => (key x < key y)%Z) l /\ sorted_by l.
Proof. unfold sorted_by. split; [by inversion 1|intros []; by constructor]. Qed.

Lemma sorted_by_app l k :
  sorted_by (l ++ k) <->
    sorted_by l /\ sorted_by k /\ (forall x y, x ∈ l -> y ∈ k -> (key x < key y)%Z).
Proof.
  induction l as [|x l IH]; simpl.
  - split; [|naive_solver]. intros Hk. split_ands; [constructor|done|set_solver].
  - rewrite !sorted_by_cons, Forall_app, IH, !Forall_forall.
    setoid_rewrite elem_of_cons. split.
    + intros ([H1 H2]&H3&H4&H5). split_ands; [done..|]. intros y z [->|Hy] Hz; eauto.
    + intros ([H1 H2]&H3&H4). split_ands; eauto.
Qed.

Lemma sorted_by_filter (P : A -> Prop) `{!forall x, Decision (P x)} l :
  sorted_by l -> sorted_by (filter P l).
Proof.
  induction l as [|x l IH]; [done|]. rewrite sorted_by_cons. intros [Hx Hl].
  rewrite filter_cons. case_decide; [|by apply IH].
  rewrite sorted_by_cons. split; [|by apply IH].
  rewrite Forall_forall in *. intros y [_ Hy]%list_elem_of_filter. by apply Hx.
Qed.

Lemma sorted_by_NoDup_key l : sorted_by l -> NoDup (key <$> l).
Proof.
  induction l as [|x l IH]; simpl; [constructor|]. rewrite sorted_by_cons.
  intros [Hx Hl]. constructor; [|by apply IH].
  rewrite list_elem_of_fmap. intros (y&Hxy&Hy).
  rewrite Forall_forall in Hx. specialize (Hx y Hy). lia.
Qed.

Lemma sorted_by_key_inj l x y : sorted_by l -> x ∈ l -> y ∈ l -> key x = key y -> x = y.
Proof.
  intros Hl Hx Hy Hxy. induction l as [|z l IH]; [set_solver|].
  apply sorted_by_cons in Hl as [Hz Hl]. rewrite Forall_forall in Hz.
  apply elem_of_cons in Hx as [->|Hx]; apply elem_of_cons in Hy as [->|Hy].
  - done.
  - specialize (Hz _ Hy). lia.
  - specialize (Hz _ Hx). lia.
  - by apply IH.
Qed.

(** A sorted list is determined by its elements. *)
Lemma sorted_by_ext l k :
  sorted_by l -> sorted_by k -> (forall x, x ∈ l <-> x ∈ k) -> l = k.
Proof.
  revert k. induction l as [|x l IH]; intros k Hl Hk Hlk.
  - destruct k as [|y k]; [done|]. exfalso. specialize (Hlk y). set_solver.
  - destruct k as [|y k]; [specialize (Hlk x); set_solver|].
    apply sorted_by_cons in Hl as [Hx Hl]. apply sorted_by_cons in Hk as [Hy Hk].
    rewrite Forall_forall in Hx, Hy.
    assert (x = y) as <-.
    { assert (x ∈ y :: k) as [?|Hxk]%elem_of_cons by (apply Hlk; set_solver); [done|].
      assert (y ∈ x :: l) as [?|Hyl]%elem_of_cons by (apply Hlk; set_solver); [done|].
      specialize (Hx y Hyl). specialize (Hy x Hxk). lia. }
    f_equal. apply IH; [done..|]. intros z. split; intros Hz.
    + assert (z ∈ x :: k) as [->|?]%elem_of_cons by (apply Hlk; set_solver); [|done].
      specialize (Hx _ Hz). lia.
    + assert (z ∈ x :: l) as [->|?]%elem_of_cons by (apply Hlk; set_solver); [|done].
      specialize (Hy _ Hz). lia.
Qed.

(** A test that is monotone in the key switches once along a sorted list. *)
Lemma sorted_by_switches_once (p : Z -> bool) l :
  (forall a b, (a < b)%Z -> p a = true -> p b = true) ->
  sorted_by l -> switches_once (fun x => p (key x)) l.
Proof.
  intros Hp. unfold switches_once. induction 1 as [|x l Hl IH Hx]; constructor; [done|].
  eapply Forall_impl; [exact Hx|]. simpl. intros y Hxy. by apply Hp.
Qed.

End sorted_by.

#[export] Hint Resolve sorted_by_nil sorted_by_filter : promeproxy.

(** Filtering a concatenation of lists. *)
Lemma filter_concat {A} (P : A -> Prop) `{!forall x, Decision (P x)} (ls : list (list A)) :
  filter P (concat ls) = concat (filter P <$> ls).
Proof. induction ls as [|l ls IH]; [done|]. simpl. by rewrite filter_app, IH. Qed.

(** Lists whose restrictions to every key agree have the same elements. *)
Lemma filter_key_Permutation {A} (key : A -> Z) (l k : list A) :
  (forall z, filter (fun x => key x = z) l = filter (fun x => key x = z) k) -> l ≡ₚ k.
Proof.
  revert k. induction l as [|x l IH]; intros k Hlk.
  - destruct k as [|y k]; [done|]. specialize (Hlk (key y)).
    rewrite filter_cons_True in Hlk by done. done.
  - assert (x ∈ k) as Hx.
    { assert (x ∈ filter (fun y => key y = key x) k) as Hin.
      { rewrite <- Hlk. rewrite filter_cons_True by done. set_solver. }
      by apply list_elem_of_filter in Hin as [_ ?]. }
    pose proof (Hlk (key x)) as Hkx. rewrite filter_cons_True in Hkx by done.
    clear Hx. symmetry in Hkx.
    assert (exists k1 k2, k = k1 ++ x :: k2 /\ filter (fun y => key y = key x) k1 = [])
      as (k1&k2&->&Hk1).
    { clear IH Hlk. induction k as [|y k IHk]; [done|]. rewrite filter_cons in Hkx.
      case_decide as Hy.
      - injection Hkx as -> _. exists [], k. done.
      - destruct (IHk Hkx) as (k1&k2&->&Hk1). exists (y :: k1), k2. split; [done|].
        by rewrite filter_cons_False. }
    rewrite <- Permutation_middle. constructor. apply IH. intros z.
    specialize (Hlk z). rewrite filter_app, !filter_cons in Hlk. rewrite filter_app.
    case_decide as Hz; [|done]. subst z. rewrite Hk1 in *. by injection Hlk as ->.
Qed.

(** ** Splitting strings *)

Section strings.
Open Scope string_scope.
#[local] Arguments String.append : simpl nomatch.

(** [strings.Split] by one byte, never empty. *)
Fixpoint Split (sep : ascii) (s : string) : list string :=
  match s with
  | EmptyString => [EmptyString]
  | String.String b s =>
      if Ascii.eqb b sep then EmptyString :: Split sep s
      else
        match Split sep s with
        | [] => [String.String b EmptyString]
        | x :: l => String.String b x :: l
        end
  end.

(** [strings.Repeat]. *)
Fixpoint Repeat (s : string) (n : nat) : string :=
  match n with O => EmptyString | S n => s +:+ Repeat s n end.

Definition has_byte (c : ascii) (s : string) : Prop := c ∈ String.list_ascii_of_string s.

Lemma Split_pieces c s x : x ∈ Split c s -> ~ has_byte c x.
Proof.
  unfold has_byte. revert x. induction s as [|b s IH]; intros x; cbn [Split].
  { intros ->%list_elem_of_singleton. cbn. by intros ?%elem_of_nil. }
  destruct (Ascii.eqb_spec b c) as [->|Hb].
  - intros [->|Hx]%elem_of_cons; [cbn; by intros ?%elem_of_nil|by apply IH].
  - destruct (Split c s) as [|y l].
    + intros ->%list_elem_of_singleton. cbn. set_solver.
    + intros [->|Hx]%elem_of_cons; [|apply IH; set_solver]. cbn. intros [->|Hc]%elem_of_cons; [done|].
      by apply (IH y); [set_solver|].
Qed.

Lemma Split_no_sep c s : ~ has_byte c s -> Split c s = [s].
Proof.
  unfold has_byte. induction s as [|b s IH]; intros Hn; cbn [Split]; [done|].
  cbn in Hn. destruct (Ascii.eqb_spec b c) as [->|Hb]; [set_solver|]. by rewrite IH by set_solver.
Qed.

Lemma Split_sep c s t : ~ has_byte c s -> Split c (s +:+ String.String c EmptyString +:+ t) = s :: Split c t.
Proof.
  unfold has_byte. induction s as [|b s IH]; intros Hn; cbn [String.append Split].
  - by rewrite Ascii.eqb_refl.
  - cbn in Hn. destruct (Ascii.eqb_spec b c) as [->|Hb]; [set_solver|].
    cbn [String.append] in IH. by rewrite IH by set_solver.
Qed.

End strings.
