(* ===== verification/Model.v ===== *)
(** * The data model

    The types of [prometheus/common/model] that the program passes around
    (vendored under [src/vendor/github.com/prometheus/common/model]): times in
    milliseconds, label sets and metrics as finite maps from label names to
    label values, samples, sample streams, and the two FNV-1a fingerprints of a
    label set. A label name or value is a byte string. *)
From S2P Require Import Prelude.

Open Scope Z_scope.

(** ** Time (model/time.go) *)

(** Milliseconds since the epoch, an [int64]. *)
Abbreviation Time := Z (only parsing).
(** Nanoseconds, an [int64]. *)
Abbreviation Duration := Z (only parsing).

Definition Nanosecond : Duration := 1.
Definition Microsecond : Duration := 1000.
Definition Millisecond : Duration := 1000000.
Definition Second : Duration := 1000000000.

Definition Earliest : Time := MinInt64.
Definition Latest : Time := MaxInt64.

Definition minimumTick : Duration := Millisecond.
Definition nanosPerTick : Z := Z.quot minimumTick Nanosecond.

Definition Before (t o : Time) : bool := t <? o.
Definition After (t o : Time) : bool := t >? o.
Definition Add (t : Time) (d : Duration) : Time := int64 (t + Z.quot d minimumTick).
Definition Sub (t o : Time) : Duration := int64 (int64 (t - o) * minimumTick).
Definition TimeFromUnixNano (t : Z) : Time := Z.quot t nanosPerTick.

(** ** Samples (model/value.go) *)

Abbreviation SampleValue := float64 (only parsing).

Record SamplePair := mkSamplePair {
  Timestamp : Time;
  Value : SampleValue
}.

#[export] Instance SamplePair_eq_dec : EqDecision SamplePair.
Proof. solve_decision. Defined.

(** [model.ZeroSamplePair]: the marker of a non-existing sample. *)
Definition ZeroSamplePair : SamplePair := mkSamplePair Earliest f64_zero.

(** Go's [==] on the struct: the values are compared as floats. *)
Definition SamplePair_eqb (a b : SamplePair) : bool :=
  (Timestamp a =? Timestamp b) && f64_eqb (Value a) (Value b).

(** ** Label sets and metrics (model/labelset.go, model/metric.go) *)

Abbreviation LabelName := string (only parsing).
Abbreviation LabelValue := string (only parsing).
Abbreviation LabelSet := (gmap string string) (only parsing).
Abbreviation Metric := (gmap string string).

Record Sample := mkSample {
  SMetric : Metric;
  SValue : SampleValue;
  STimestamp : Time
}.

Record SampleStream := mkSampleStream {
  SSMetric : Metric;
  SSValues : list SamplePair
}.

#[export] Instance Sample_eq_dec : EqDecision Sample.
Proof. solve_decision. Defined.

#[export] Instance SampleStream_eq_dec : EqDecision SampleStream.
Proof. solve_decision. Defined.

Abbreviation Matrix := (list SampleStream).

(** [Clone]: a fresh map with the entries of [m], copied in some order. *)
Definition Clone (order : list (LabelName * LabelValue)) : LabelSet :=
  foldl (fun clone '(k, v) => <[k:=v]> clone) ∅ order.

(** Well-known label names (model/labels.go). *)
Definition MetricNameLabel : LabelName := "__name__".
Definition SchemeLabel : LabelName := "__scheme__".
Definition AddressLabel : LabelName := "__address__".
Definition MetricsPathLabel : LabelName := "__metrics_path__".
Definition ReservedLabelPrefix : string := "__".
Definition MetaLabelPrefix : string := "__meta_".
Definition ParamLabelPrefix : string := "__param_".
Definition ExportedLabelPrefix : string := "exported_".
Definition JobLabel : LabelName := "job".
Definition InstanceLabel : LabelName := "instance".
Definition BucketLabel : LabelName := "le".
Definition QuantileLabel : LabelName := "quantile".

(** ** Fingerprints (model/fnv.go, model/signature.go) *)

Definition offset64 : Z := 14695981039346656037.
Definition prime64 : Z := 1099511628211.
Definition SeparatorByte : Z := 255.

Definition hashNew : Z := offset64.

Definition hashAddByte (h : Z) (b : Z) : Z := uint64 (Z.lxor h b * prime64).

Fixpoint hashAdd (h : Z) (s : string) : Z :=
  match s with
  | EmptyString => h
  | String c s => hashAdd (hashAddByte h (Z.of_N (Ascii.N_of_ascii c))) s
  end.

(** Byte-wise order of strings, and sorting by it. *)
Definition string_le (a b : string) : Prop := String.leb a b = true.
#[export] Instance string_le_dec a b : Decision (string_le a b) :=
  bool_eq_dec (String.leb a b) true.
Definition sort_strings (l : list string) : list string := merge_sort string_le l.

Definition labelSetToFingerprint (ls : LabelSet) : Z :=
  if decide (ls = ∅) then offset64
  else
    foldl (fun sum ln =>
      let sum := hashAdd sum ln in
      let sum := hashAddByte sum SeparatorByte in
      let sum := hashAdd sum (default EmptyString (ls !! ln)) in
      hashAddByte sum SeparatorByte)
    hashNew (sort_strings (map_to_list ls).*1).

Definition label_hash (kv : LabelName * LabelValue) : Z :=
  hashAdd (hashAddByte (hashAdd hashNew kv.1) SeparatorByte) kv.2.

(** The loop of [labelSetToFastFingerprint] over the entries in [order]. *)
Definition fastFingerprint_loop (order : list (LabelName * LabelValue)) : Z :=
  foldl (fun result kv => Z.lxor result (label_hash kv)) 0 order.

Definition labelSetToFastFingerprint (ls : LabelSet) : Z :=
  if decide (ls = ∅) then offset64 else fastFingerprint_loop (map_to_list ls).

Definition Fingerprint (m : Metric) : Z := labelSetToFingerprint m.
Definition FastFingerprint (m : Metric) : Z := labelSetToFastFingerprint m.

(** ** Lemmas *)

Lemma Clone_range m order : map_range m order -> Clone order = m.
Proof.
  intros Hm. unfold Clone. rewrite foldl_insert_list_to_map.
  - by rewrite map_union_empty, (map_range_list_to_map m order).
  - by eapply map_range_NoDup_fst.
Qed.

Lemma lxor_foldl_Permutation {A} (f : A -> Z) l k acc :
  l ≡ₚ k -> foldl (fun r x => Z.lxor r (f x)) acc l = foldl (fun r x => Z.lxor r (f x)) acc k.
Proof.
  intros Hp. revert acc. induction Hp as [|x l k Hp IH|x y l|l k m Hl IHl Hk IHk]; intros acc; simpl.
  - done.
  - apply IH.
  - rewrite !Z.lxor_assoc, (Z.lxor_comm (f x) (f y)). done.
  - by rewrite IHl.
Qed.

(** The fast fingerprint does not depend on the iteration order. *)
Lemma fastFingerprint_order ls order :
  ls <> ∅ -> map_range ls order -> fastFingerprint_loop order = FastFingerprint ls.
Proof.
  intros Hls Ho. unfold FastFingerprint, labelSetToFastFingerprint.
  rewrite decide_False by done. by apply lxor_foldl_Permutation.
Qed.

Lemma log2_uint64 a : in_uint64 a -> Z.log2 a < 64.
Proof.
  unfold in_uint64, two64. intros Ha. destruct (decide (a = 0)) as [->|Hne]; [done|].
  apply Z.log2_lt_pow2; lia.
Qed.

Lemma uint64_lxor a b : in_uint64 a -> in_uint64 b -> in_uint64 (Z.lxor a b).
Proof.
  intros Ha Hb. pose proof (log2_uint64 a Ha). pose proof (log2_uint64 b Hb).
  unfold in_uint64 in *.
  assert (0 <= Z.lxor a b) as Hge by (apply Z.lxor_nonneg; lia).
  split; [done|]. change two64 with (2 ^ 64).
  destruct (decide (Z.lxor a b = 0)) as [->|Hne]; [lia|].
  apply Z.log2_lt_pow2; [lia|].
  eapply Z.le_lt_trans; [apply Z.log2_lxor; lia|]. by apply Z.max_lub_lt.
Qed.

Lemma hashAddByte_range h b : in_uint64 (hashAddByte h b).
Proof. apply uint64_range. Qed.

Lemma hashAdd_range h s : in_uint64 h -> in_uint64 (hashAdd h s).
Proof. revert h. induction s as [|c s IH]; intros h Hh; simpl; [done|]. apply IH, hashAddByte_range. Qed.

Lemma fastFingerprint_loop_range order acc :
  in_uint64 acc -> in_uint64 (foldl (fun r kv => Z.lxor r (label_hash kv)) acc order).
Proof.
  revert acc. induction order as [|kv order IH]; intros acc Hacc; simpl; [done|].
  apply IH, uint64_lxor; [done|]. apply hashAdd_range, hashAddByte_range.
Qed.

(** Fingerprints are 64-bit words. *)
Lemma FastFingerprint_range m : in_uint64 (FastFingerprint m).
Proof.
  unfold FastFingerprint, labelSetToFastFingerprint. case_decide.
  - unfold in_uint64, offset64, two64. lia.
  - apply fastFingerprint_loop_range. unfold in_uint64, two64. lia.
Qed.

#[export] Hint Resolve FastFingerprint_range : promeproxy.

Lemma SamplePair_eqb_Timestamp a b : SamplePair_eqb a b = true -> Timestamp a = Timestamp b.
Proof. unfold SamplePair_eqb. intros [H%Z.eqb_eq _]%andb_true_iff. done. Qed.

Lemma Before_spec t o : Before t o = true <-> t < o.
Proof. apply Z.ltb_lt. Qed.
Lemma After_spec t o : After t o = true <-> o < t.
Proof. unfold After. rewrite Z.gtb_lt. done. Qed.
Lemma Before_false t o : Before t o = false <-> o <= t.
Proof. apply Z.ltb_ge. Qed.
Lemma After_false t o : After t o = false <-> t <= o.
Proof. unfold After. rewrite Z.gtb_ltb. apply Z.ltb_ge. Qed.

(** Timestamps along a sorted slice of samples. *)
Abbreviation sorted_samples := (sorted_by Timestamp).
