(* ===== verification/MetricPkg.v ===== *)
(** * Package [storage/metric]

    [Module Matcher]: the label matchers of [matcher.go]; regular expressions
    and quoting belong to Go's [regexp] and [strconv], and are the operations
    of the classes [RegexpLib] and [StrconvLib]. [Module CopyOnWrite]: the
    metric wrapper of [metric.go] over an explicit store of maps, because what
    it promises is about aliasing. [Interval] is [sample.go]. *)
From S2P Require Import Prelude Model.

Open Scope Z_scope.

(** The operations of [regexp] the program calls. *)
Class RegexpLib := {
  Regexp : Type;
  Compile : string -> error + Regexp;
  MatchString : Regexp -> string -> bool
}.

(** The operations of [strconv] the program calls; [ParseFloat] of 64 bits, with
    no value when it returns an error. *)
Class StrconvLib := {
  Quote : string -> string;
  ParseFloat : string -> option float64
}.

(** sample.go *)
Record Interval := mkInterval {
  OldestInclusive : Time;
  NewestInclusive : Time
}.

Definition in_interval (iv : Interval) (t : Time) : Prop :=
  OldestInclusive iv <= t <= NewestInclusive iv.

#[export] Instance in_interval_dec iv t : Decision (in_interval iv t) := and_dec _ _.

(** An instance of the two classes, for concrete evaluations: the anchored
    expressions the program builds, over alternations of literals ([a|b|c]),
    and quoting of strings that need no escapes. *)
Module LiteralRegexp.

Fixpoint split_bar (acc s : string) : list string :=
  match s with
  | EmptyString => [acc]
  | String.String "|"%char s => acc :: split_bar EmptyString s
  | String.String c s => split_bar (acc +:+ String.String c EmptyString) s
  end.

Definition has_paren (s : string) : bool :=
  match String.index 0 "(" s with Some _ => true | None => false end.

Definition quotation_mark : string :=
  String.String (Ascii.ascii_of_nat 34) EmptyString.

#[export] Instance literal_regexp : RegexpLib := {|
  Regexp := list string;
  Compile p :=
    let body := String.substring 4 (String.length p - 6) p in
    if has_paren body then inl "missing closing )"%string
    else inr (split_bar EmptyString body);
  MatchString alternatives v := bool_decide (v ∈ alternatives)
|}.

(** Numbers are the decimal integers and NaN. *)
Fixpoint parse_decimal (s : string) (n : Z) : option Z :=
  match s with
  | EmptyString => Some n
  | String.String c s =>
      let d := (Z.of_nat (Ascii.nat_of_ascii c) - 48)%Z in
      if ((0 <=? d) && (d <=? 9))%Z then parse_decimal s (10 * n + d)%Z else None
  end.
Definition parse_literal (s : string) : option float64 :=
  match s with
  | EmptyString => None
  | String.String "-"%char (String.String _ _ as s) => (fun n => f64_of_Z (- n)%Z) <$> parse_decimal s 0
  | _ => if String.eqb s "NaN" then Some S754_nan else f64_of_Z <$> parse_decimal s 0
  end.

#[export] Instance plain_quote : StrconvLib := {|
  Quote s := quotation_mark +:+ s +:+ quotation_mark;
  ParseFloat := parse_literal
|}.

End LiteralRegexp.

Module Matcher.

(** The enum is an [int] in Go: other values can be written, and reach the
    panics of the switches. *)
Inductive MatchType :=
  | Equal | NotEqual | RegexMatch | RegexNoMatch
  | OtherMatchType (n : Z).

#[export] Instance MatchType_eq_dec : EqDecision MatchType.
Proof. solve_decision. Defined.

Definition MatchType_String (m : MatchType) : outcome string :=
  match m with
  | Equal => Ret "="
  | NotEqual => Ret "!="
  | RegexMatch => Ret "=~"
  | RegexNoMatch => Ret "!~"
  | OtherMatchType _ => Panic (PanicMsg "unknown match type")
  end%string.

Section matcher.
Context `{RegexpLib, StrconvLib}.

Record LabelMatcher := mkLabelMatcher {
  MType : MatchType;
  MName : LabelName;
  MValue : LabelValue;
  re : option Regexp;
  score : float64
}.

Abbreviation LabelMatchers := (list LabelMatcher).

(** A call of [MatchString] on a nil [*Regexp] dereferences it. *)
Definition re_MatchString (r : option Regexp) (v : string) : outcome bool :=
  match r with
  | Some r => Ret (MatchString r v)
  | None => Panic PanicNilDeref
  end.

Definition Match (m : LabelMatcher) (v : LabelValue) : outcome bool :=
  match MType m with
  | Equal => Ret (bool_decide (MValue m = v))
  | NotEqual => Ret (bool_decide (MValue m <> v))
  | RegexMatch => re_MatchString (re m) v
  | RegexNoMatch => b ← re_MatchString (re m) v; Ret (negb b)
  | OtherMatchType _ => Panic (PanicMsg "invalid match type")
  end.

Definition set_score (m : LabelMatcher) (s : float64) : LabelMatcher :=
  mkLabelMatcher (MType m) (MName m) (MValue m) (re m) s.

Definition strings_Contains (s sub : string) : bool :=
  match String.index 0 sub s with Some _ => true | None => false end.

Definition lengthCorrection (m : LabelMatcher) : float64 :=
  f64_mul (f64_const 1 10)
    (f64_sub (f64_of_Z 1)
       (f64_div (f64_of_Z 1)
          (f64_of_Z (Z.of_nat (String.length (MName m)) +
                     Z.of_nat (String.length (MValue m)) + 1)))).

(** The adjustments for "magic" names, for a matcher of type [Equal]. *)
Definition magic_score (m : LabelMatcher) (s : float64) : float64 :=
  if decide (MName m = InstanceLabel) then f64_sub s (f64_const 2 10)
  else if decide (MName m = JobLabel) then f64_add s (f64_const 1 10)
  else if decide (MName m = BucketLabel \/ MName m = QuantileLabel) then
    f64_add s (f64_const 2 10)
  else if decide (MName m = MetricNameLabel) then
    if strings_Contains (MValue m) ":" then f64_sub s (f64_const 1 10)
    else if decide (MValue m = "up"%string \/ MValue m = "scrape_duration_seconds"%string)
    then f64_sub s (f64_const 5 100)
    else s
  else s.

Definition calculateScore (m : LabelMatcher) : outcome LabelMatcher :=
  b ← Match m EmptyString;
  if b : bool then Ret (set_score m (f64_of_Z 1))
  else
    let lc := lengthCorrection m in
    let s :=
      match MType m with
      | Equal => f64_sub (f64_const 3 10) lc
      | RegexMatch => f64_sub (f64_const 6 10) lc
      | RegexNoMatch => f64_add (f64_const 8 10) lc
      | NotEqual => f64_add (f64_const 9 10) lc
      | OtherMatchType _ => score m
      end in
    match MType m with
    | Equal => Ret (set_score m (magic_score m s))
    | _ => Ret (set_score m s)
    end.

(** The first component of the result is Go's error. *)
Definition NewLabelMatcher (matchType : MatchType) (name : LabelName) (value : LabelValue)
    : outcome (error + LabelMatcher) :=
  let m := mkLabelMatcher matchType name value None f64_zero in
  if decide (matchType = RegexMatch \/ matchType = RegexNoMatch) then
    match Compile ("^(?:" +:+ value +:+ ")$") with
    | inl err => Ret (inl err)
    | inr r =>
        m ← calculateScore (mkLabelMatcher matchType name value (Some r) f64_zero);
        Ret (inr m)
    end
  else m ← calculateScore m; Ret (inr m).

Definition MatchesEmptyString (m : LabelMatcher) : bool :=
  f64_leb (f64_of_Z 1) (score m).

(** The loop of [Filter] over the rest of the input. *)
Fixpoint Filter_loop (m : LabelMatcher) (l out : list LabelValue) : outcome (list LabelValue) :=
  match l with
  | [] => Ret out
  | v :: l =>
      b ← Match m v;
      Filter_loop m l (if b : bool then out ++ [v] else out)
  end.

Definition Filter (m : LabelMatcher) (l : list LabelValue) : outcome (list LabelValue) :=
  Filter_loop m l [].

Definition LabelMatcher_String (m : LabelMatcher) : outcome string :=
  t ← MatchType_String (MType m);
  Ret (MName m +:+ t +:+ Quote (MValue m)).

Fixpoint strings_Join (l : list string) (sep : string) : string :=
  match l with
  | [] => ""
  | [x] => x
  | x :: l => x +:+ sep +:+ strings_Join l sep
  end.

Definition LabelMatchers_String (lms : LabelMatchers) : outcome string :=
  l ← outcome_map LabelMatcher_String lms;
  Ret (strings_Join l ",").

(** [sort.Interface]. *)
Definition Less (a b : LabelMatcher) : bool := f64_ltb (score a) (score b).

(** ** The semantics of a matcher *)

(** What a matcher of a known type matches, given the compiled expression. *)
Definition matches (t : MatchType) (value : LabelValue) (r : option Regexp) (v : LabelValue)
    : bool :=
  match t with
  | Equal => bool_decide (value = v)
  | NotEqual => bool_decide (value <> v)
  | RegexMatch => match r with Some r => MatchString r v | None => false end
  | RegexNoMatch => match r with Some r => negb (MatchString r v) | None => false end
  | OtherMatchType _ => false
  end.

(** What the constructor establishes: a known type, an expression exactly for
    the regular-expression types. *)
Definition wf_matcher (m : LabelMatcher) : Prop :=
  match MType m with
  | Equal | NotEqual => re m = None
  | RegexMatch | RegexNoMatch =>
      exists r, re m = Some r /\ Compile ("^(?:" +:+ MValue m +:+ ")$") = inr r
  | OtherMatchType _ => False
  end.

Lemma Match_wf m v :
  wf_matcher m -> Match m v = Ret (matches (MType m) (MValue m) (re m) v).
Proof.
  unfold wf_matcher, Match, matches. destruct (MType m); try done.
  - intros (r&->&_). done.
  - intros (r&->&_). done.
Qed.

Lemma calculateScore_wf m :
  wf_matcher m -> exists s, calculateScore m = Ret (set_score m s).
Proof.
  intros Hm. unfold calculateScore. rewrite Match_wf by done. cbn [mbind outcome_bind].
  destruct (matches _ _ _ _); [by eexists|]. destruct (MType m); by eexists.
Qed.

Lemma set_score_wf m s : wf_matcher m -> wf_matcher (set_score m s).
Proof. by destruct m. Qed.

Lemma Filter_loop_wf m l out :
  wf_matcher m ->
  Filter_loop m l out =
    Ret (out ++ filter (fun v => matches (MType m) (MValue m) (re m) v = true) l).
Proof.
  intros Hm. revert out. induction l as [|v l IH]; intros out; simpl.
  - by rewrite app_nil_r.
  - rewrite Match_wf by done. simpl. rewrite IH, filter_cons.
    destruct (matches _ _ _ v); [rewrite decide_True by done|rewrite decide_False by done];
      by rewrite <- ?app_assoc.
Qed.

Lemma NewLabelMatcher_cases t name value :
  (forall n, t <> OtherMatchType n) ->
  (exists err, NewLabelMatcher t name value = Ret (inl err) /\
    (t = RegexMatch \/ t = RegexNoMatch) /\ Compile ("^(?:" +:+ value +:+ ")$") = inl err) \/
  (exists m, NewLabelMatcher t name value = Ret (inr m) /\
    wf_matcher m /\ MType m = t /\ MName m = name /\ MValue m = value).
Proof.
  intros Ht. unfold NewLabelMatcher. case_decide as Hr.
  - destruct (Compile _) as [err|r] eqn:Hc; [left; by exists err|right].
    set (m := mkLabelMatcher t name value (Some r) f64_zero).
    assert (wf_matcher m) as Hm.
    { unfold wf_matcher. simpl. destruct Hr as [-> | ->]; by exists r. }
    destruct (calculateScore_wf m Hm) as [s ->]. simpl.
    eexists; split; [done|]. split; [by apply set_score_wf|]. done.
  - right. set (m := mkLabelMatcher t name value None f64_zero).
    assert (wf_matcher m) as Hm.
    { unfold wf_matcher. simpl. destruct t as [| | | |n]; try done; [naive_solver..|].
      by eapply Ht. }
    destruct (calculateScore_wf m Hm) as [s ->]. simpl.
    eexists; split; [done|]. split; [by apply set_score_wf|]. done.
Qed.

(** [Equal] matchers can always be built: their constructor neither fails nor
    panics. *)
Lemma NewLabelMatcher_Equal name value :
  exists m, NewLabelMatcher Equal name value = Ret (inr m) /\
    wf_matcher m /\ MType m = Equal /\ MName m = name /\ MValue m = value.
Proof.
  destruct (NewLabelMatcher_cases Equal name value) as [(err&_&[?|?]&_)|?]; done.
Qed.

(** C23: the matcher constructor. For each of the four match types NewLabelMatcher
    never panics; it fails only when a regular expression does not compile, and
    otherwise builds a matcher with the given type, name and value whose Match
    decides, for every label value and without panicking, the relation of its
    type (NotEqual and RegexNoMatch being the negations), and whose Filter keeps
    exactly the matching values, in order. *)
Theorem NewLabelMatcher_correct t name value :
  (forall n, t <> OtherMatchType n) ->
  (exists err, NewLabelMatcher t name value = Ret (inl err) /\
    (t = RegexMatch \/ t = RegexNoMatch) /\ Compile ("^(?:" +:+ value +:+ ")$") = inl err) \/
  (exists m, NewLabelMatcher t name value = Ret (inr m) /\
    MType m = t /\ MName m = name /\ MValue m = value /\
    (forall v, Match m v = Ret (matches t value (re m) v)) /\
    (forall r, re m = Some r -> Compile ("^(?:" +:+ value +:+ ")$") = inr r) /\
    (forall l, Filter m l = Ret (filter (fun v => matches t value (re m) v = true) l))).
Proof.
  intros Ht. destruct (NewLabelMatcher_cases t name value Ht) as [?|(m&Hm&Hw&<-&<-&<-)];
    [by left|right].
  exists m. split_ands; try done.
  - intros v. by apply Match_wf.
  - intros r Hr. unfold wf_matcher in Hw. destruct (MType m); naive_solver.
  - intros l. unfold Filter. by rewrite Filter_loop_wf.
Qed.

End matcher.

(** The anchored expression of [TestAnchoredMatcher]. *)
Lemma NewLabelMatcher_correct_witness :
  exists m, NewLabelMatcher (H := LiteralRegexp.literal_regexp) RegexMatch "" "foo|bar|baz" = Ret (inr m) /\
    Match m "foo" = Ret true /\ Match m "fooo" = Ret false /\
    Filter m ["baz"; "x"; "foo"] = Ret ["baz"; "foo"].
Proof.
  destruct (NewLabelMatcher_correct (H := LiteralRegexp.literal_regexp) RegexMatch "" "foo|bar|baz")
    as [(err&Herr&_)|(m&Hm&_&_&_&Hmatch&Hre&Hfilter)].
  - intros n. discriminate.
  - vm_compute in Herr. discriminate.
  - exists m. split; [exact Hm|]. rewrite !Hmatch, Hfilter.
    destruct (re m) as [r|] eqn:Hr.
    + specialize (Hre r eq_refl). vm_compute in Hre. injection Hre as <-.
      split_ands; reflexivity.
    + exfalso. vm_compute in Hm. injection Hm as <-. discriminate Hr.
Defined.

(** The matchers of [TestLabelMatchersSort], in the expected order: the score
    strictly grows along the list. *)
Example calculateScore_order :
  let mk t n v := match NewLabelMatcher (H := LiteralRegexp.literal_regexp) t n v with
    Ret (inr m) => Some (score m) | _ => None end in
  let scores := [mk Equal "instance" "not empty"; mk Equal "__name__" "a:recording:rule";
    mk Equal "__name__" "up"; mk Equal "nothing_special but much longer" "not empty";
    mk Equal "nothing_special" "not empty but longer"; mk Equal "nothing_special" "not empty";
    mk Equal "job" "not empty"; mk Equal "le" "not empty";
    mk RegexMatch "irrelevant" "does not match empty string and is longer";
    mk RegexMatch "irrelevant" "does not match empty string";
    mk NotEqual "irrelevant" ""; mk Equal "irrelevant" ""]%string in
  forallb (fun '(a, b) => match a, b with Some a, Some b => f64_ltb a b | _, _ => false end)
    (zip scores (drop 1 scores)) = true.
Proof. vm_compute. reflexivity. Qed.

End Matcher.

Module CopyOnWrite.

(** A Go map is a reference; [metric.Metric] holds one together with the flag
    that says whether the wrapper owns it. The store maps the addresses of the
    allocated maps to their contents; [None] is the nil map. *)
Abbreviation loc := nat (only parsing).
Abbreviation store := (gmap nat (gmap string string)).

Record Metric := mkMetric {
  Copied : bool;
  MRef : option loc
}.

Definition deref (h : store) (r : option loc) : gmap string string :=
  match r with Some l => default ∅ (h !! l) | None => ∅ end.

(** [Copy]. The clone ranges over the old map in the order [order h l]. *)
Definition Copy (h : store) (m : Metric) : store * Metric :=
  if negb (Copied m) then
    let l := fresh (dom h) in
    (<[l := Clone (map_to_list (deref h (MRef m)))]> h, mkMetric true (Some l))
  else (h, m).

(** Assignment to an entry of a nil map panics, deletion from one does not. *)
Definition Set_ (h : store) (m : Metric) (ln : LabelName) (lv : LabelValue)
    : outcome (store * Metric) :=
  let '(h, m) := Copy h m in
  match MRef m with
  | Some l => Ret (<[l := <[ln := lv]> (deref h (Some l))]> h, m)
  | None => Panic PanicNilMap
  end.

Definition Del (h : store) (m : Metric) (ln : LabelName) : outcome (store * Metric) :=
  let '(h, m) := Copy h m in
  match MRef m with
  | Some l => Ret (<[l := delete ln (deref h (Some l))]> h, m)
  | None => Ret (h, m)
  end.

Definition Gets (h : store) (m : Metric) (ln : LabelName) : LabelValue * bool :=
  match deref h (MRef m) !! ln with
  | Some lv => (lv, true)
  | None => (EmptyString, false)
  end.

Definition Get (h : store) (m : Metric) (ln : LabelName) : LabelValue :=
  default EmptyString (deref h (MRef m) !! ln).

(** [String] of the vendored [model.Metric], when it visits the map in the order
    [l]. *)
Definition model_Metric_String `{StrconvLib} (m : gmap string string) (l : list (LabelName * LabelValue)) : string :=
  let labelStrings := omap (fun kv =>
    if String.eqb kv.1 MetricNameLabel then None else Some (kv.1 +:+ "=" +:+ Quote kv.2)) l in
  match m !! MetricNameLabel, labelStrings with
  | Some metricName, [] => metricName
  | None, [] => "{}"
  | o, _ => default EmptyString o +:+ "{" +:+ Matcher.strings_Join (merge_sort String.le labelStrings) ", " +:+ "}"
  end.
Definition String_ `{StrconvLib} (h : store) (m : Metric) (l : list (LabelName * LabelValue)) : string :=
  model_Metric_String (deref h (MRef m)) l.

(** The text does not depend on the order. *)
Lemma String_order `{StrconvLib} (h : store) (m : Metric) l l' :
  map_range (deref h (MRef m)) l -> map_range (deref h (MRef m)) l' -> String_ h m l = String_ h m l'.
Proof.
  intros Hl Hl'. assert (l ≡ₚ l') as Hp by (etransitivity; [exact Hl|by symmetry]). unfold String_, model_Metric_String.
  set (f kv := if String.eqb kv.1 MetricNameLabel then None else Some (kv.1 +:+ "=" +:+ Quote kv.2)).
  assert (omap f l ≡ₚ omap f l') as Hf by by rewrite Hp.
  assert (merge_sort String.le (omap f l) = merge_sort String.le (omap f l')) as Hs.
  { apply (StronglySorted_unique String.le); [apply Sorted_StronglySorted, Sorted_merge_sort; apply _..|].
    by rewrite !merge_sort_Permutation. }
  destruct (omap f l) as [|x k].
  - apply Permutation_nil_l in Hf. by rewrite <- Hf.
  - destruct (omap f l') as [|x' k']; [by apply Permutation_nil_r in Hf|]. by rewrite Hs.
Qed.

(** A client's sequence of updates through one wrapper. *)
Inductive update :=
  | USet (ln : LabelName) (lv : LabelValue)
  | UDel (ln : LabelName)
  | UCopy.

Definition step (h : store) (m : Metric) (u : update) : outcome (store * Metric) :=
  match u with
  | USet ln lv => Set_ h m ln lv
  | UDel ln => Del h m ln
  | UCopy => Ret (Copy h m)
  end.

Fixpoint run (h : store) (m : Metric) (us : list update) : outcome (store * Metric) :=
  match us with
  | [] => Ret (h, m)
  | u :: us => hm ← step h m u; run hm.1 hm.2 us
  end.

(** The specification: updates of a value. *)
Definition apply_update (v : gmap string string) (u : update) : gmap string string :=
  match u with
  | USet ln lv => <[ln := lv]> v
  | UDel ln => delete ln v
  | UCopy => v
  end.

(** An owned wrapper has a map; a wrapper's map is allocated. *)
Definition wf (h : store) (m : Metric) : Prop :=
  match MRef m with Some l => l ∈ dom h | None => Copied m = false end.

Lemma Copy_spec h m :
  wf h m ->
  exists l h', Copy h m = (h', mkMetric true (Some l)) /\
    wf h' (mkMetric true (Some l)) /\
    deref h' (Some l) = deref h (MRef m) /\
    (forall k, k ∈ dom h -> h' !! k = h !! k) /\
    dom h ⊆ dom h' /\
    (if Copied m then MRef m = Some l /\ h' = h else l ∉ dom h).
Proof.
  unfold Copy, wf. destruct m as [[] r]; simpl.
  - destruct r as [l|]; [|done]. intros Hl. exists l, h. split_ands; done.
  - intros Hr. pose proof (is_fresh (dom h)) as Hf.
    set (l := fresh (dom h)) in *. clearbody l.
    eexists l, _. split; [done|]. simpl. split_ands.
    + set_solver.
    + rewrite lookup_insert_eq. simpl. by apply Clone_range, map_range_refl.
    + intros k Hk. apply lookup_insert_ne. set_solver.
    + set_solver.
    + done.
Qed.

(** One update: never a panic, the specified value, and no change to any map
    allocated before, except the one an owning wrapper holds. *)
Lemma step_spec h m u :
  wf h m ->
  exists h' m', step h m u = Ret (h', m') /\ wf h' m' /\ Copied m' = true /\
    deref h' (MRef m') = apply_update (deref h (MRef m)) u /\
    dom h ⊆ dom h' /\
    (forall k, k ∈ dom h -> (Copied m = true -> MRef m <> Some k) -> h' !! k = h !! k) /\
    (if Copied m then MRef m' = MRef m else forall k, MRef m' = Some k -> k ∉ dom h).
Proof.
  intros Hm. destruct (Copy_spec h m Hm) as (l&h1&Hc&Hw&Hd&Hk&Hs&Hl).
  destruct u as [ln lv|ln|]; simpl; unfold Set_, Del; rewrite Hc; simpl;
    (eexists _, _; split; [done|]); simpl; unfold wf in *; simpl in *.
  1, 2: split_ands; [set_solver|done|by rewrite lookup_insert_eq; simpl; rewrite <- Hd|set_solver|..].
  1, 3: intros k Hk1 Hk2; rewrite lookup_insert_ne; [by apply Hk|];
      intros ->; destruct (Copied m); naive_solver.
  1, 2: destruct (Copied m); naive_solver.
  split_ands; [done|done|done|done| |].
  - intros k Hk1 _. by apply Hk.
  - destruct (Copied m); naive_solver.
Qed.

(** Once the wrapper owns a map outside [prot], it never touches [prot]. *)
Lemma run_owned h m us (prot : gset nat) :
  wf h m -> Copied m = true -> (forall k, MRef m = Some k -> k ∉ prot) -> prot ⊆ dom h ->
  exists h' m', run h m us = Ret (h', m') /\ wf h' m' /\
    deref h' (MRef m') = foldl apply_update (deref h (MRef m)) us /\
    (forall k, k ∈ prot -> h' !! k = h !! k).
Proof.
  revert h m. induction us as [|u us IH]; intros h m Hw Hc Hr Hp; simpl.
  { exists h, m. done. }
  destruct (step_spec h m u Hw) as (h1&m1&->&Hw1&Hc1&Hd1&Hs1&Hk1&Hr1). simpl.
  rewrite Hc in Hr1. destruct (IH h1 m1) as (h2&m2&Hrun&Hw2&Hd2&Hk2);
    [done|done|by rewrite Hr1|set_solver|].
  exists h2, m2. split_ands; [done|done|by rewrite Hd2, Hd1|].
  intros k Hk. rewrite Hk2 by done. apply Hk1; [set_solver|].
  intros _ Heq. by apply (Hr k).
Qed.

(** C22: copy on write. A wrapper that does not own its map (Copied is false)
    can be updated by any sequence of Set, Del and Copy: no update panics, the
    wrapper ends with the value the same updates give on a plain map, and every
    map that was allocated before, the wrapped one included, is unchanged. *)
Theorem copy_on_write_protects h m us :
  wf h m -> Copied m = false ->
  exists h' m', run h m us = Ret (h', m') /\
    deref h' (MRef m') = foldl apply_update (deref h (MRef m)) us /\
    (forall k, k ∈ dom h -> h' !! k = h !! k).
Proof.
  intros Hw Hc. destruct us as [|u us]; simpl; [by exists h, m|].
  destruct (step_spec h m u Hw) as (h1&m1&->&Hw1&Hc1&Hd1&Hs1&Hk1&Hr1). simpl.
  rewrite Hc in Hr1. destruct (run_owned h1 m1 us (dom h)) as (h2&m2&Hrun&_&Hd2&Hk2);
    [done..|].
  exists h2, m2. split_ands; [done|by rewrite Hd2, Hd1|].
  intros k Hk. rewrite Hk2 by done. apply Hk1; [done|]. by rewrite Hc.
Qed.

(** The scenario of [TestMetric]: two wrappers of the same map. *)
Lemma copy_on_write_protects_witness :
  let orig := list_to_map [("to_delete", "test1"); ("to_change", "test2")]%string in
  exists h' m', run {[0%nat := orig]} (mkMetric false (Some 0%nat))
      [USet "to_change" "changed"; UDel "to_delete"]%string = Ret (h', m') /\
    deref h' (MRef m') =
      foldl apply_update (deref {[0%nat := orig]} (Some 0%nat))
        [USet "to_change" "changed"; UDel "to_delete"]%string /\
    (forall k, k ∈ dom ({[0%nat := orig]} : store) -> h' !! k = ({[0%nat := orig]} : store) !! k).
Proof.
  intros orig. apply (copy_on_write_protects {[0%nat := orig]} (mkMetric false (Some 0%nat))).
  - unfold wf. simpl. set_solver.
  - reflexivity.
Defined.

End CopyOnWrite.
