(* ===== verification/Storage.v ===== *)
(** * Package [storage]: sample appenders and their fan-out ([storage.go])

    A [SampleAppender] is an interface value of Go: two methods over whatever
    state lies behind it. The state behind all the appenders of a program is
    one type [W], so that appenders may share state. The sample is passed by
    pointer, so an appender also returns what the sample has become. *)
From S2P Require Import Prelude Model.

Section appender.
Context {W : Type}.

Record SampleAppender := mkSampleAppender {
  Append : W -> Sample -> outcome (W * Sample * option error);
  NeedsThrottling : W -> bool
}.

Abbreviation Fanout := (list SampleAppender).

(** The body of the loop keeps the first error in [err]. *)
Fixpoint Fanout_Append_loop (f : Fanout) (w : W) (s : Sample) (err : option error)
    : outcome (W * Sample * option error) :=
  match f with
  | [] => Ret (w, s, err)
  | a :: f =>
      r ← Append a w s;
      let '(w, s, e) := r in
      let err :=
        match e, err with
        | Some e, None => Some e
        | _, _ => err
        end in
      Fanout_Append_loop f w s err
  end.

Definition Fanout_Append (f : Fanout) (w : W) (s : Sample)
    : outcome (W * Sample * option error) :=
  Fanout_Append_loop f w s None.

Fixpoint Fanout_NeedsThrottling (f : Fanout) (w : W) : bool :=
  match f with
  | [] => false
  | a :: f => if NeedsThrottling a w then true else Fanout_NeedsThrottling f w
  end.

(** A fan-out is an appender again. *)
Definition Fanout_appender (f : Fanout) : SampleAppender :=
  mkSampleAppender (Fanout_Append f) (Fanout_NeedsThrottling f).

(** ** Specification *)

(** The appenders of [f] run one after the other, each once, with results [es]. *)
Inductive appends : Fanout -> W -> Sample -> list (option error) -> W -> Sample -> Prop :=
  | appends_nil w s : appends [] w s [] w s
  | appends_cons a f w s e w1 s1 es w2 s2 :
      Append a w s = Ret (w1, s1, e) -> appends f w1 s1 es w2 s2 ->
      appends (a :: f) w s (e :: es) w2 s2.

Definition first_error (es : list (option error)) : option error := head (omap id es).

Lemma Fanout_Append_loop_spec f w s err w' s' err' :
  Fanout_Append_loop f w s err = Ret (w', s', err') <->
  exists es, appends f w s es w' s' /\
    err' = match err with Some e => Some e | None => first_error es end.
Proof.
  revert w s err. induction f as [|a f IH]; intros w s err; simpl.
  - split.
    + intros [= -> -> ->]. exists []. split; [constructor|]. by destruct err'.
    + intros (es&Hes&->). inv Hes. by destruct err.
  - rewrite outcome_bind_Ret. split.
    + intros ([[w1 s1] e]&Ha&Hf). apply IH in Hf as (es&Hes&->).
      exists (e :: es). split; [by econstructor|].
      by destruct e, err.
    + intros (es&Hes&->). inversion Hes as [|??????? es' ?? Ha Hf]; subst.
      eexists (_, _, _). split; [done|]. apply IH. exists es'. split; [done|].
      by destruct e, err.
Qed.

Lemma appends_app f g w s es w' s' :
  appends (f ++ g) w s es w' s' <->
  exists es1 es2 w1 s1, es = es1 ++ es2 /\ appends f w s es1 w1 s1 /\ appends g w1 s1 es2 w' s'.
Proof.
  revert w s es. induction f as [|a f IH]; intros w s es; simpl.
  - split.
    + intros Hg. exists [], es, w, s. split_ands; [done|constructor|done].
    + intros (es1&es2&w1&s1&->&Hf&Hg). inv Hf. done.
  - split.
    + inversion 1 as [|????? w1 s1 es' ?? Ha Hf]; subst.
      apply IH in Hf as (es1&es2&w2&s2&->&Hf&Hg).
      exists (e :: es1), es2, w2, s2. split_ands; [done|by econstructor|done].
    + intros (es1&es2&w1&s1&->&Hf&Hg). inversion Hf as [|????? w2 s2 es' ?? Ha Hf']; subst.
      simpl. econstructor; [done|]. apply IH. naive_solver.
Qed.

Lemma first_error_app es1 es2 :
  first_error (es1 ++ es2) =
    match first_error es1 with Some e => Some e | None => first_error es2 end.
Proof. unfold first_error. rewrite omap_app. by destruct (omap id es1). Qed.

Lemma first_error_cons e es :
  first_error (e :: es) = match e with Some x => Some x | None => first_error es end.
Proof. unfold first_error. simpl. by destruct e. Qed.

Lemma appends_length f w s es w' s' : appends f w s es w' s' -> length es = length f.
Proof. induction 1; simpl; congruence. Qed.

Lemma Fanout_Append_spec f w s w' s' err :
  Fanout_Append f w s = Ret (w', s', err) <->
  exists es, appends f w s es w' s' /\ err = first_error es.
Proof. apply Fanout_Append_loop_spec. Qed.

Lemma Fanout_NeedsThrottling_spec f w :
  Fanout_NeedsThrottling f w = existsb (fun a => NeedsThrottling a w) f.
Proof. induction f as [|a f IH]; simpl; [done|]. by destruct (NeedsThrottling a w). Qed.

(** Fanout.Append hands the sample to every appender, in order and exactly
    once, whatever errors the earlier ones return (each sees the state and the
    sample its predecessors left), and returns the first error, if any;
    NeedsThrottling is the disjunction. In particular it is associative: a
    Fanout inside a Fanout behaves like the flattened list. *)
Theorem Fanout_correct (f g h : Fanout) w s :
  (forall w' s' err, Fanout_Append f w s = Ret (w', s', err) <->
    exists es, appends f w s es w' s' /\ length es = length f /\ err = first_error es) /\
  Fanout_NeedsThrottling f w = existsb (fun a => NeedsThrottling a w) f /\
  (forall r, Fanout_Append (f ++ Fanout_appender g :: h) w s = Ret r <->
    Fanout_Append (f ++ g ++ h) w s = Ret r) /\
  Fanout_NeedsThrottling (f ++ Fanout_appender g :: h) w =
    Fanout_NeedsThrottling (f ++ g ++ h) w.
Proof.
  split_ands.
  - intros w' s' err. rewrite Fanout_Append_spec. split.
    + intros (es&Hes&->). exists es. eauto using appends_length.
    + intros (es&Hes&_&->). eauto.
  - apply Fanout_NeedsThrottling_spec.
  - intros [[w' s'] err]. rewrite !Fanout_Append_spec. split.
    + intros (es&Hes&->). apply appends_app in Hes as (es1&es2&w1&s1&->&Hf&Hg).
      inversion Hg as [|????? w2 s2 es3 ?? Hg1 Hh]; subst.
      apply Fanout_Append_spec in Hg1 as (es4&Hg1&->).
      exists (es1 ++ es4 ++ es3). split.
      * apply appends_app. exists es1, (es4 ++ es3), w1, s1. split_ands; [done..|].
        apply appends_app. naive_solver.
      * rewrite !first_error_app, first_error_cons.
        by destruct (first_error es1), (first_error es4).
    + intros (es&Hes&->). apply appends_app in Hes as (es1&es2&w1&s1&->&Hf&Hg).
      apply appends_app in Hg as (es3&es4&w2&s2&->&Hg&Hh).
      exists (es1 ++ first_error es3 :: es4). split.
      * apply appends_app. exists es1, (first_error es3 :: es4), w1, s1.
        split_ands; [done..|]. econstructor; [|done]. apply Fanout_Append_spec. eauto.
      * rewrite !first_error_app, first_error_cons.
        by destruct (first_error es1), (first_error es3).
  - rewrite !Fanout_NeedsThrottling_spec, !existsb_app. simpl.
    by rewrite Fanout_NeedsThrottling_spec.
Qed.

End appender.
Arguments SampleAppender W : clear implicits.
