(* ===== verification/Ewma.v ===== *)
(** * The exponentially weighted moving average ([storage/remote/ewma.go])

    The counter is incremented by the queues' goroutines with atomic additions
    while a single goroutine ticks. [tick] is therefore also given as the three
    steps other goroutines can interleave with. *)
From S2P Require Import Prelude Model.

Open Scope Z_scope.

Record ewmaRate := mkEwmaRate {
  newEvents : Z;
  alpha : float64;
  interval : Duration;
  lastRate : float64;
  init : bool
}.

Definition newEWMARate (alpha : float64) (interval : Duration) : ewmaRate :=
  mkEwmaRate 0 alpha interval f64_zero false.

Definition rate (r : ewmaRate) : float64 := lastRate r.

(** [time.Duration.Seconds]. *)
Definition Seconds (d : Duration) : float64 :=
  f64_add (f64_of_Z (Z.quot d Second))
          (f64_div (f64_of_Z (Z.rem d Second)) (f64_of_Z 1000000000)).

(** [atomic.AddInt64(&r.newEvents, n)]. *)
Definition incr (r : ewmaRate) (n : Z) : ewmaRate :=
  mkEwmaRate (int64 (newEvents r + n)) (alpha r) (interval r) (lastRate r) (init r).

Definition instantRate (r : ewmaRate) (n : Z) : float64 :=
  f64_div (f64_of_Z n) (Seconds (interval r)).

(** The part of [tick] under the mutex. *)
Definition tick_update (r : ewmaRate) (n : Z) : ewmaRate :=
  let inst := instantRate r n in
  if init r then
    mkEwmaRate (newEvents r) (alpha r) (interval r)
      (f64_add (lastRate r) (f64_mul (alpha r) (f64_sub inst (lastRate r)))) true
  else mkEwmaRate (newEvents r) (alpha r) (interval r) inst true.

Definition tick (r : ewmaRate) : ewmaRate :=
  let n := newEvents r in
  tick_update (incr r (int64 (- n))) n.

(** ** Interleaving *)

(** Where the ticking goroutine is: between ticks, after the load of the
    counter, after the atomic subtraction. *)
Inductive ticker := TIdle | TLoaded (n : Z) | TSubtracted (n : Z).

Inductive event := EIncr (n : Z) | ELoad | ESubtract | EUpdate (n : Z).

Inductive ewma_step : ewmaRate * ticker -> event -> ewmaRate * ticker -> Prop :=
  | step_incr r t n : ewma_step (r, t) (EIncr n) (incr r n, t)
  | step_load r : ewma_step (r, TIdle) ELoad (r, TLoaded (newEvents r))
  | step_subtract r n :
      ewma_step (r, TLoaded n) ESubtract (incr r (int64 (- n)), TSubtracted n)
  | step_update r n : ewma_step (r, TSubtracted n) (EUpdate n) (tick_update r n, TIdle).

Inductive ewma_steps : ewmaRate * ticker -> list event -> ewmaRate * ticker -> Prop :=
  | steps_nil s : ewma_steps s [] s
  | steps_cons s e s' tr s'' :
      ewma_step s e s' -> ewma_steps s' tr s'' -> ewma_steps s (e :: tr) s''.

(** Events counted by callers, and events that entered a rate. *)
Definition counted (tr : list event) : Z :=
  foldr (fun e acc => match e with EIncr n => n | _ => 0 end + acc) 0 tr.
Definition rated (tr : list event) : Z :=
  foldr (fun e acc => match e with EUpdate n => n | _ => 0 end + acc) 0 tr.

(** Events subtracted from the counter and not yet in a rate. *)
Definition in_flight (t : ticker) : Z :=
  match t with TSubtracted n => n | _ => 0 end.

Lemma newEvents_tick_update r n : newEvents (tick_update r n) = newEvents r.
Proof. unfold tick_update. by destruct (init r). Qed.

(** The events a state holds: in the counter or in a tick in progress. *)
Definition held (s : ewmaRate * ticker) : Z := newEvents s.1 + in_flight s.2.

Lemma ewma_step_conserve s e s' :
  ewma_step s e s' -> in_int64 (newEvents s.1) ->
  in_int64 (newEvents s'.1) /\
  int64 (held s' + rated [e]) = int64 (held s + counted [e]).
Proof.
  unfold held. inversion 1; subst; simpl; intros Hr; rewrite ?newEvents_tick_update;
    (split; [auto using int64_range|]); rewrite ?Z.add_0_r.
  - rewrite <- Z.add_assoc, int64_add_l. f_equal. lia.
  - done.
  - rewrite int64_add_l. replace (newEvents r + int64 (- n) + n)
      with (int64 (- n) + (newEvents r + n)) by lia.
    rewrite int64_add_l. f_equal. lia.
  - done.
Qed.

Lemma ewma_steps_conserve s tr s' :
  ewma_steps s tr s' -> in_int64 (newEvents s.1) ->
  in_int64 (newEvents s'.1) /\
  int64 (held s' + rated tr) = int64 (held s + counted tr).
Proof.
  induction 1 as [s|s e s1 tr s2 He Hs IH]; intros Hr; [by rewrite !Z.add_0_r|].
  destruct (ewma_step_conserve _ _ _ He Hr) as [Hr1 He1].
  destruct (IH Hr1) as [Hr2 Hs2]. split; [done|].
  simpl in *. rewrite Z.add_0_r in *.
  replace (held s2 + (_ + rated tr)) with
    (held s2 + rated tr + match e with EUpdate n => n | _ => 0 end) by lia.
  rewrite <- int64_add_l, Hs2, int64_add_l.
  replace (held s1 + counted tr + match e with EUpdate n => n | _ => 0 end) with
    (held s1 + match e with EUpdate n => n | _ => 0 end + counted tr) by lia.
  rewrite <- int64_add_l, He1, int64_add_l. f_equal. lia.
Qed.

Lemma f64_sub_diag x : f64_is_finite x = true -> f64_sub x x = f64_zero.
Proof.
  unfold f64_sub. destruct x as [[]|s| |s m e]; intros Hx; try done. simpl.
  by rewrite Z.sub_diag.
Qed.

Lemma f64_mul_zero x : f64_is_finite x = true -> exists s, f64_mul x f64_zero = S754_zero s.
Proof. destruct x as [s|s| |s m e]; intros Hx; try done; by eexists. Qed.

Lemma f64_add_zero_r x s : f64_is_finite x = true -> f64_eqb (f64_add x (S754_zero s)) x = true.
Proof.
  destruct x as [s'|s'| |s' m e]; intros Hx; try done.
  - by destruct s, s'.
  - by apply f64_eqb_refl.
Qed.

(** C24: no event is lost or counted twice. Whatever the interleaving of incr
    calls with the three steps of tick, the events still in the counter, those a
    tick in progress has taken out, and those that entered a rate add up to the
    events counted by the callers, modulo 2^64; when no tick is in progress and
    the totals fit in an int64 the counter is exactly what was counted since. A
    call of tick that nothing interrupts is these three steps. *)
Theorem ewma_conserves_events a i tr r t :
  ewma_steps (newEWMARate a i, TIdle) tr (r, t) ->
  int64 (newEvents r + in_flight t + rated tr) = int64 (counted tr) /\
  (in_flight t = 0 -> in_int64 (counted tr - rated tr) -> newEvents r = counted tr - rated tr) /\
  (forall r0, ewma_steps (r0, TIdle) [ELoad; ESubtract; EUpdate (newEvents r0)] (tick r0, TIdle)).
Proof.
  intros Hs. split_ands; [| |intros r0; repeat econstructor];
    (destruct (ewma_steps_conserve _ _ _ Hs) as [Hr Heq]; [done|]);
    unfold held in Heq; simpl in Hr, Heq; [done|]. intros Ht Hc. rewrite Ht, Z.add_0_r in Heq.
  rewrite <- (int64_id (newEvents r)), <- (int64_id (counted tr - rated tr)) by done.
  replace (newEvents r) with (newEvents r + rated tr + - rated tr) by lia.
  rewrite <- int64_add_l, Heq, int64_add_l. done.
Qed.

(** An increment of 5 slips in between the load and the subtraction. *)
Lemma ewma_conserves_events_witness :
  exists r, ewma_steps (newEWMARate (f64_const 2 10) (10 * Second), TIdle)
    [EIncr 7; ELoad; EIncr 5; ESubtract; EUpdate 7] (r, TIdle) /\
  newEvents r = 5 /\
  int64 (newEvents r + 0 + 7) = int64 12.
Proof.
  eexists. split; [repeat econstructor|]. split; [reflexivity|].
  apply (ewma_conserves_events (f64_const 2 10) (10 * Second)
    [EIncr 7; ELoad; EIncr 5; ESubtract; EUpdate 7] _ TIdle).
  repeat econstructor.
Defined.

(** Tick empties the counter and folds the rate of the interval into the
    average: the first tick takes the rate itself, a later one moves the average
    by alpha times the difference; a finite average that equals the interval's
    rate is left where it is (in floating point, exactly), so a constant load
    keeps a constant rate. *)
Theorem tick_correct r :
  newEvents (tick r) = 0 /\ init (tick r) = true /\
  alpha (tick r) = alpha r /\ interval (tick r) = interval r /\
  (init r = false -> rate (tick r) = instantRate r (newEvents r)) /\
  (init r = true ->
    rate (tick r) = f64_add (lastRate r)
      (f64_mul (alpha r) (f64_sub (instantRate r (newEvents r)) (lastRate r)))) /\
  (init r = true -> f64_is_finite (alpha r) = true -> f64_is_finite (lastRate r) = true ->
    instantRate r (newEvents r) = lastRate r -> f64_eqb (rate (tick r)) (rate r) = true).
Proof.
  unfold tick, rate. rewrite newEvents_tick_update. split_ands;
    try (unfold tick_update; by destruct (init _)).
  - simpl. rewrite int64_add_r, Z.add_opp_diag_r. reflexivity.
  - unfold tick_update. by destruct (init (incr _ _)).
  - intros Hi Ha Hl He. unfold tick_update. simpl. rewrite Hi.
    unfold instantRate in *. simpl. rewrite He, f64_sub_diag by done.
    destruct (f64_mul_zero (alpha r) Ha) as [s ->]. by apply f64_add_zero_r.
Qed.

(** 100 events in 10 s: a rate of 10, twice. *)
Example tick_twice :
  let r := tick (incr (newEWMARate (f64_const 2 10) (10 * Second)) 100) in
  rate r = f64_of_Z 10 /\ rate (tick (incr r 100)) = f64_of_Z 10 /\
  rate (tick (incr r 200)) = f64_of_Z 12.
Proof. vm_compute. split_ands; reflexivity. Qed.
