(* ===== verification/Iterator.v ===== *)
(** * Series iterators over a fetched stream ([storage/remote/iterator.go])

    [Class SeriesIterator] is the interface [local.SeriesIterator]: any
    implementation gives the value at or before a time, the values of an
    interval and the metric. [Class SeriesIteratorLaws] is what an
    implementation backed by a sorted series of samples promises; the client
    ([Fanin]) is verified against it. [sampleStreamIterator] implements it. *)
From S2P Require Import Prelude Model MetricPkg.

Open Scope Z_scope.

Class SeriesIterator (I : Type) := {
  ValueAtOrBeforeTime : I -> Time -> outcome SamplePair;
  RangeValues : I -> Interval -> outcome (list SamplePair);
  IMetric : I -> Metric
}.

(** ** The specification of an iterator over a series *)

(** The latest sample at or before [t], or the zero sample pair. *)
Definition value_at_or_before (l : list SamplePair) (t : Time) : SamplePair :=
  default ZeroSamplePair (last (filter (fun p => Timestamp p <= t) l)).

Definition range_values (l : list SamplePair) (iv : Interval) : list SamplePair :=
  filter (fun p => in_interval iv (Timestamp p)) l.

Lemma value_at_or_before_elem l t :
  value_at_or_before l t = ZeroSamplePair \/
  value_at_or_before l t ∈ l /\ Timestamp (value_at_or_before l t) <= t.
Proof.
  unfold value_at_or_before. destruct (last _) as [p|] eqn:Hl; [right|by left].
  rewrite last_lookup in Hl. apply list_elem_of_lookup_2, list_elem_of_filter in Hl. cbn. tauto.
Qed.

Lemma value_at_or_before_max l t p :
  sorted_samples l -> p ∈ l -> Timestamp p <= t -> Timestamp p <= Timestamp (value_at_or_before l t).
Proof.
  intros Hl Hp Ht. unfold value_at_or_before.
  assert (p ∈ filter (fun p => Timestamp p <= t) l) as Hf by by apply list_elem_of_filter.
  pose proof (sorted_by_filter Timestamp (fun p => Timestamp p <= t) l Hl) as Hs.
  destruct (last (filter _ l)) as [q|] eqn:Hq; [|apply last_None in Hq; rewrite Hq in Hf; by apply elem_of_nil in Hf].
  apply last_Some in Hq as [k Hk]. rewrite Hk in Hf, Hs. cbn.
  apply elem_of_app in Hf as [Hf| ->%list_elem_of_singleton]; [|lia].
  apply sorted_by_app in Hs as (_&_&Hlt). specialize (Hlt p q Hf). set_solver by lia.
Qed.

Class SeriesIteratorLaws (I : Type) `{SeriesIterator I} := {
  samples : I -> list SamplePair;
  samples_wf : I -> Prop;
  samples_sorted it : samples_wf it -> sorted_samples (samples it);
  ValueAtOrBeforeTime_ok it t :
    samples_wf it -> ValueAtOrBeforeTime it t = Ret (value_at_or_before (samples it) t);
  RangeValues_ok it iv :
    samples_wf it -> OldestInclusive iv <= NewestInclusive iv ->
    RangeValues it iv = Ret (range_values (samples it) iv)
}.

(** ** The implementation *)

Record sampleStreamIterator := mkSampleStreamIterator { ss : SampleStream }.

Definition sampleStream_Metric (it : sampleStreamIterator) : Metric := SSMetric (ss it).

Definition sampleStream_ValueAtOrBeforeTime (it : sampleStreamIterator) (ts : Time)
    : outcome SamplePair :=
  let values := SSValues (ss it) in
  let i := search_list (fun v => After (Timestamp v) ts) values in
  if Nat.eqb i 0 then Ret (mkSamplePair Earliest f64_zero)
  else
    match values !! (i - 1)%nat with
    | Some v => Ret v
    | None => Panic PanicIndex
    end.

(** The slice expression [values[start:end]] panics when [end < start]; a nil
    slice and an empty one are not told apart by the callers. *)
Definition sampleStream_RangeValues (it : sampleStreamIterator) (iv : Interval)
    : outcome (list SamplePair) :=
  let values := SSValues (ss it) in
  let start := search_list (fun v => negb (Before (Timestamp v) (OldestInclusive iv))) values in
  let end_ := search_list (fun v => After (Timestamp v) (NewestInclusive iv)) values in
  if Nat.eqb start (length values) then Ret []
  else if Nat.ltb end_ start then Panic PanicSlice
  else Ret (take (end_ - start) (drop start values)).

#[export] Instance sampleStream_iterator : SeriesIterator sampleStreamIterator := {
  ValueAtOrBeforeTime := sampleStream_ValueAtOrBeforeTime;
  RangeValues := sampleStream_RangeValues;
  IMetric := sampleStream_Metric
}.

(** ** Lemmas *)

Lemma switches_After l ts :
  sorted_samples l -> switches_once (fun v => After (Timestamp v) ts) l.
Proof.
  apply (sorted_by_switches_once Timestamp (fun t => After t ts)).
  intros a b Hab. rewrite !After_spec. lia.
Qed.

Lemma switches_not_Before l ts :
  sorted_samples l -> switches_once (fun v => negb (Before (Timestamp v) ts)) l.
Proof.
  apply (sorted_by_switches_once Timestamp (fun t => negb (Before t ts))).
  intros a b Hab. rewrite !negb_true_iff, !Before_false. lia.
Qed.

Lemma filter_iff_list {A} (P Q : A -> Prop) `{!forall x, Decision (P x)}
    `{!forall x, Decision (Q x)} (l : list A) :
  (forall x, P x <-> Q x) -> filter P l = filter Q l.
Proof. intros HPQ. by apply list_filter_iff. Qed.

Lemma take_After l ts :
  sorted_samples l ->
  take (search_list (fun v => After (Timestamp v) ts) l) l =
    filter (fun p => Timestamp p <= ts) l.
Proof.
  intros Hl. rewrite search_list_take by by apply switches_After.
  apply filter_iff_list. intros p. apply After_false.
Qed.

Lemma sampleStream_value_at_or_before it ts :
  sorted_samples (SSValues (ss it)) ->
  sampleStream_ValueAtOrBeforeTime it ts = Ret (value_at_or_before (SSValues (ss it)) ts).
Proof.
  intros Hl. unfold sampleStream_ValueAtOrBeforeTime, value_at_or_before.
  rewrite <- take_After by done.
  set (i := search_list _ _).
  pose proof (search_list_le (fun v => After (Timestamp v) ts) (SSValues (ss it))) as Hi.
  fold i in Hi. destruct (Nat.eqb_spec i 0) as [->|Hne]; [by rewrite take_0|].
  rewrite last_lookup, length_take, Nat.min_l by done.
  rewrite lookup_take_lt by lia. replace (pred i) with (i - 1)%nat by lia.
  destruct (lookup_lt_is_Some_2 (SSValues (ss it)) (i - 1)) as [v Hv]; [lia|].
  by rewrite Hv.
Qed.

(** The two searches of [RangeValues]. *)
#[local] Notation start_of iv := (search_list (fun v => negb (Before (Timestamp v) (OldestInclusive iv)))).
#[local] Notation end_of iv := (search_list (fun v => After (Timestamp v) (NewestInclusive iv))).

Lemma start_bounds l iv :
  sorted_samples l ->
  Forall (fun v => Timestamp v < OldestInclusive iv) (take (start_of iv l) l) /\
  Forall (fun v => OldestInclusive iv <= Timestamp v) (drop (start_of iv l) l).
Proof.
  intros Hl. destruct (search_list_spec _ l (switches_not_Before l (OldestInclusive iv) Hl)) as [Hs1 Hs2].
  split; [eapply Forall_impl; [exact Hs1|]|eapply Forall_impl; [exact Hs2|]]; intros v Hv; simpl in Hv.
  - by apply negb_false_iff, Before_spec in Hv.
  - by apply negb_true_iff, Before_false in Hv.
Qed.

Lemma end_bounds l iv :
  sorted_samples l ->
  Forall (fun v => Timestamp v <= NewestInclusive iv) (take (end_of iv l) l) /\
  Forall (fun v => NewestInclusive iv < Timestamp v) (drop (end_of iv l) l).
Proof.
  intros Hl. destruct (search_list_spec _ l (switches_After l (NewestInclusive iv) Hl)) as [He1 He2].
  split; [eapply Forall_impl; [exact He1|]|eapply Forall_impl; [exact He2|]]; intros v Hv; simpl in Hv.
  - by apply After_false in Hv.
  - by apply After_spec in Hv.
Qed.

(** Some sample is not before the start. *)
Lemma start_length l iv :
  sorted_samples l ->
  Nat.eqb (start_of iv l) (length l) = negb (existsb (fun v => OldestInclusive iv <=? Timestamp v) l).
Proof.
  intros Hl. destruct (start_bounds l iv Hl) as [Hs1 Hs2].
  destruct (Nat.eqb_spec (start_of iv l) (length l)) as [Heq|Hne]; symmetry.
  - apply negb_true_iff, not_true_iff_false. rewrite existsb_exists. intros (v&Hin&Hv).
    rewrite Heq, firstn_all, Forall_forall in Hs1. apply list_elem_of_In in Hin.
    specialize (Hs1 v Hin). lia.
  - pose proof (search_list_le (fun v => negb (Before (Timestamp v) (OldestInclusive iv))) l).
    destruct (lookup_lt_is_Some_2 l (start_of iv l)) as [v Hv]; [lia|].
    rewrite Forall_lookup in Hs2. apply negb_false_iff, existsb_exists. exists v.
    split; [by eapply list_elem_of_In, list_elem_of_lookup_2|]. apply Z.leb_le, (Hs2 0%nat).
    by rewrite lookup_drop, Nat.add_0_r.
Qed.

(** Some sample is after the end and before the start. *)
Lemma end_before_start l iv :
  sorted_samples l ->
  Nat.ltb (end_of iv l) (start_of iv l) =
    existsb (fun v => (NewestInclusive iv <? Timestamp v) && (Timestamp v <? OldestInclusive iv)) l.
Proof.
  intros Hl. destruct (start_bounds l iv Hl) as [Hs1 Hs2]. destruct (end_bounds l iv Hl) as [He1 He2].
  pose proof (search_list_le (fun v => negb (Before (Timestamp v) (OldestInclusive iv))) l).
  destruct (Nat.ltb_spec (end_of iv l) (start_of iv l)) as [Hlt|Hge]; symmetry.
  - destruct (lookup_lt_is_Some_2 l (end_of iv l)) as [v Hv]; [lia|].
    rewrite Forall_lookup in Hs1, He2. apply existsb_exists. exists v.
    split; [by eapply list_elem_of_In, list_elem_of_lookup_2|]. apply andb_true_iff. split; apply Z.ltb_lt.
    + apply (He2 0%nat). by rewrite lookup_drop, Nat.add_0_r.
    + apply (Hs1 (end_of iv l)). by rewrite lookup_take_lt.
  - apply not_true_iff_false. rewrite existsb_exists. intros (v&Hin&Hv).
    apply list_elem_of_In, list_elem_of_lookup in Hin as [i Hi].
    rewrite Forall_lookup in Hs2, He1. destruct (decide (i < end_of iv l)%nat) as [Hlt|Hni].
    + assert (Timestamp v <= NewestInclusive iv) by (apply (He1 i); by rewrite lookup_take_lt). lia.
    + assert (OldestInclusive iv <= Timestamp v); [|lia].
      apply (Hs2 (i - start_of iv l)%nat). rewrite lookup_drop. by replace (_ + _)%nat with i by lia.
Qed.

Lemma filter_take_drop_range l iv :
  sorted_samples l -> (start_of iv l <= end_of iv l)%nat ->
  take (end_of iv l - start_of iv l) (drop (start_of iv l) l) = range_values l iv.
Proof.
  intros Hl Hle. destruct (start_bounds l iv Hl) as [Hs1 Hs2]. destruct (end_bounds l iv Hl) as [He1 He2].
  set (start := start_of iv l) in *. set (end_ := end_of iv l) in *. unfold range_values.
  rewrite <- (take_drop start l) at 2. rewrite <- (take_drop (end_ - start) (drop start l)) at 2.
  rewrite !filter_app, (filter_none _ (take start l)), (filter_all _ (take (end_ - start) _)),
    (filter_none _ (drop (end_ - start) _)), app_nil_r; [done|..].
  - rewrite drop_drop. replace (start + (end_ - start))%nat with end_ by lia.
    eapply Forall_impl; [exact He2|]. intros v Hv. simpl in Hv. unfold in_interval. lia.
  - apply Forall_and. split; [by apply Forall_take|].
    rewrite take_drop_commute. replace (start + (end_ - start))%nat with end_ by lia.
    by apply Forall_drop.
  - eapply Forall_impl; [exact Hs1|]. intros v Hv. simpl in Hv. unfold in_interval. lia.
Qed.

(** Some sample is in the gap of an inverted interval, and some sample is not
    before its start. *)
Definition gap_hit (l : list SamplePair) (iv : Interval) : bool :=
  existsb (fun v => (NewestInclusive iv <? Timestamp v) && (Timestamp v <? OldestInclusive iv)) l &&
  existsb (fun v => OldestInclusive iv <=? Timestamp v) l.

Lemma sampleStream_RangeValues_spec it iv :
  sorted_samples (SSValues (ss it)) ->
  sampleStream_RangeValues it iv =
    if gap_hit (SSValues (ss it)) iv then Panic PanicSlice else Ret (range_values (SSValues (ss it)) iv).
Proof.
  intros Hl. unfold sampleStream_RangeValues, gap_hit. cbv zeta.
  pose proof (start_length _ iv Hl) as Hs. rewrite <- (end_before_start _ iv Hl). rewrite Hs.
  destruct (existsb (fun v => OldestInclusive iv <=? Timestamp v) _); simpl.
  - rewrite andb_true_r. destruct (Nat.ltb_spec (end_of iv (SSValues (ss it)))
      (start_of iv (SSValues (ss it)))); [done|]. by rewrite filter_take_drop_range.
  - rewrite andb_false_r. simpl in Hs. apply Nat.eqb_eq in Hs.
    destruct (start_bounds _ iv Hl) as [Hs1 _]. rewrite Hs, firstn_all in Hs1.
    unfold range_values. rewrite filter_none; [done|].
    eapply Forall_impl; [exact Hs1|]. intros v Hv. simpl in Hv. unfold in_interval. lia.
Qed.

Lemma gap_hit_false l iv : OldestInclusive iv <= NewestInclusive iv -> gap_hit l iv = false.
Proof.
  intros Hiv. unfold gap_hit. apply andb_false_iff. left. apply not_true_iff_false.
  rewrite existsb_exists. intros (v&_&Hv). lia.
Qed.

Lemma sampleStream_range_values it iv :
  sorted_samples (SSValues (ss it)) -> OldestInclusive iv <= NewestInclusive iv ->
  sampleStream_RangeValues it iv = Ret (range_values (SSValues (ss it)) iv).
Proof. intros Hl Hiv. by rewrite sampleStream_RangeValues_spec, gap_hit_false. Qed.

(** The stream iterator keeps the promise of the interface. *)
#[export] Instance sampleStream_laws : SeriesIteratorLaws sampleStreamIterator := {
  samples it := SSValues (ss it);
  samples_wf it := sorted_samples (SSValues (ss it));
  samples_sorted it Hit := Hit;
  ValueAtOrBeforeTime_ok := sampleStream_value_at_or_before;
  RangeValues_ok := sampleStream_range_values
}.

(** C28: on a stream sorted by time the two binary searches of the iterator
    compute their specification, for every time and every interval.
    ValueAtOrBeforeTime is the last sample not after the given time, or the zero
    sample pair when there is none; it never panics. RangeValues are exactly the
    samples of the interval, in order, except that it panics, slicing with the
    end before the start, exactly when some sample is after the end of the
    interval and before its start and some sample is not before the start: only
    an interval whose end is before its start can have that. *)
Theorem sampleStreamIterator_correct m values ts iv :
  sorted_samples values ->
  let it := mkSampleStreamIterator (mkSampleStream m values) in
  sampleStream_ValueAtOrBeforeTime it ts = Ret (value_at_or_before values ts) /\
  sampleStream_RangeValues it iv =
    (if gap_hit values iv then Panic PanicSlice else Ret (range_values values iv)) /\
  (OldestInclusive iv <= NewestInclusive iv -> gap_hit values iv = false).
Proof.
  intros Hv it. split_ands.
  - by apply (sampleStream_value_at_or_before it).
  - by apply (sampleStream_RangeValues_spec it).
  - apply gap_hit_false.
Qed.

Definition three_samples : list SamplePair :=
  [mkSamplePair 10 (f64_of_Z 1); mkSamplePair 20 (f64_of_Z 2); mkSamplePair 30 (f64_of_Z 3)].

Lemma three_samples_sorted : sorted_samples three_samples.
Proof. repeat constructor. Qed.

Lemma sampleStreamIterator_correct_witness :
  let it := mkSampleStreamIterator (mkSampleStream ∅ three_samples) in
  sampleStream_ValueAtOrBeforeTime it 25 = Ret (mkSamplePair 20 (f64_of_Z 2)) /\
  sampleStream_RangeValues it (mkInterval 15 30) =
    Ret [mkSamplePair 20 (f64_of_Z 2); mkSamplePair 30 (f64_of_Z 3)] /\
  sampleStream_RangeValues it (mkInterval 25 15) = Panic PanicSlice.
Proof.
  destruct (sampleStreamIterator_correct ∅ three_samples 25 (mkInterval 15 30) three_samples_sorted)
    as (Hv&Hr&_).
  destruct (sampleStreamIterator_correct ∅ three_samples 25 (mkInterval 25 15) three_samples_sorted)
    as (_&Hp&_).
  exact (conj Hv (conj Hr Hp)).
Defined.
