(* ===== verification/Fanin.v ===== *)
(** * Package [storage/fanin]: merging local and remote series ([fanin.go])

    The querier asks the local storage and every remote for series iterators,
    groups them by metric fingerprint and presents each group as one iterator.
    Iterators are any type with the interface of [Iterator]; queriers are any
    type with a query function. [mergeIterators] and [queryMap] group the
    iterators as goroutines that follow each other do: they are the reference
    for the goroutines of [query], whose steps are in FaninRace.v. The function
    [query] itself, with any interleaving, is in FaninQuery.v. *)
From S2P Require Import Prelude Model MetricPkg Iterator.

Open Scope Z_scope.

(** ** Contexts *)

(** The values attached to a context, by key. *)
Abbreviation Context := (gmap string unit).

Definition ctxLocalOnly : string := "local-only".

Definition WithLocalOnly (ctx : Context) : Context := <[ctxLocalOnly := tt]> ctx.

Definition localOnly (ctx : Context) : bool := bool_decide (ctx !! ctxLocalOnly = Some tt).

(** ** mergeSamples *)

(** The loop, its two indices and the tail appends. Each iteration advances an
    index, so [length a + length b] units of fuel are enough
    ([mergeSamples_merge]). *)
Fixpoint mergeSamples_loop (fuel : nat) (a b : list SamplePair) (i j : nat)
    (result : list SamplePair) : list SamplePair :=
  match fuel with
  | O => result ++ drop i a ++ drop j b
  | S fuel =>
      match a !! i, b !! j with
      | Some x, Some y =>
          if Timestamp x <? Timestamp y then
            mergeSamples_loop fuel a b (S i) j (result ++ [x])
          else if Timestamp x >? Timestamp y then
            mergeSamples_loop fuel a b i (S j) (result ++ [y])
          else mergeSamples_loop fuel a b (S i) (S j) (result ++ [x])
      | _, _ => result ++ drop i a ++ drop j b
      end
  end.

Definition mergeSamples (a b : list SamplePair) : list SamplePair :=
  mergeSamples_loop (length a + length b) a b 0 0 [].

(** ** mergeIterator *)

Section fanin.
Context {I : Type} `{SeriesIterator I}.

Record mergeIterator := mkMergeIterator {
  local : option I;
  remote : list I
}.

(** The loop over the remote iterators of [ValueAtOrBeforeTime]. *)
Fixpoint latest_remote (t : Time) (its : list I) (latest : SamplePair) : outcome SamplePair :=
  match its with
  | [] => Ret latest
  | it :: its =>
      v ← ValueAtOrBeforeTime it t;
      latest_remote t its (if After (Timestamp v) (Timestamp latest) then v else latest)
  end.

Definition mergeIterator_ValueAtOrBeforeTime (mit : mergeIterator) (t : Time)
    : outcome SamplePair :=
  latest ← match local mit with
           | Some it => ValueAtOrBeforeTime it t
           | None => Ret ZeroSamplePair
           end;
  if SamplePair_eqb latest ZeroSamplePair then latest_remote t (remote mit) latest
  else Ret latest.

(** The loop over the remote iterators of [RangeValues]. *)
Fixpoint merge_remotes (iv : Interval) (remoteCutoff : Time) (its : list I)
    (values : list SamplePair) : outcome (list SamplePair) :=
  match its with
  | [] => Ret values
  | it :: its =>
      vs ← RangeValues it iv;
      let n := search_list (fun v => negb (Before (Timestamp v) remoteCutoff)) vs in
      merge_remotes iv remoteCutoff its (mergeSamples values (take n vs))
  end.

Definition mergeIterator_RangeValues (mit : mergeIterator) (iv : Interval)
    : outcome (list SamplePair) :=
  values ← match local mit with
           | Some it => RangeValues it iv
           | None => Ret []
           end;
  let remoteCutoff := match values with v :: _ => Timestamp v | [] => Latest end in
  merge_remotes iv remoteCutoff (remote mit) values.

Definition mergeIterator_Metric (mit : mergeIterator) : outcome Metric :=
  match local mit with
  | Some it => Ret (IMetric it)
  | None =>
      match remote mit with
      | it :: _ => Ret (IMetric it)
      | [] => Panic PanicIndex
      end
  end.

(** The iterators [Close] closes, in order. *)
Definition mergeIterator_Close (mit : mergeIterator) : list I :=
  match local mit with Some it => [it] | None => [] end ++ remote mit.

(** ** Grouping by fingerprint *)

(** [map[model.Fingerprint]*mergeIterator], as long as one goroutine uses it:
    every entry has its own pointer, so the map of values is that of pointers. *)
Abbreviation fpMap := (gmap Z mergeIterator).

Definition fingerprint_of (it : I) : Z := Fingerprint (IMetric it).

Fixpoint mergeIterators (fpToIt : fpMap) (its : list I) : fpMap :=
  match its with
  | [] => fpToIt
  | it :: its =>
      let fp := fingerprint_of it in
      let fpToIt :=
        match fpToIt !! fp with
        | None => <[fp := mkMergeIterator None [it]]> fpToIt
        | Some fpIts => <[fp := mkMergeIterator (local fpIts) (remote fpIts ++ [it])]> fpToIt
        end in
      mergeIterators fpToIt its
  end.

(** The first loop of [query]. *)
Fixpoint addLocals (fpToIt : fpMap) (its : list I) : fpMap :=
  match its with
  | [] => fpToIt
  | it :: its => addLocals (<[fingerprint_of it := mkMergeIterator (Some it) []]> fpToIt) its
  end.

(** ** The querier *)

Context {Q : Type}.

Record querier := mkQuerier {
  qlocal : Q;
  qremotes : list Q
}.

(** A query of one storage: iterators and an error. *)
Abbreviation queryFn := (Q -> list I * option error).

(** The error of a remote is discarded, [its, _ := qFn(qu)]. *)
Definition mergeRemote (qFn : queryFn) (fpToIt : fpMap) (qu : Q) : fpMap :=
  mergeIterators fpToIt (qFn qu).1.

(** The reference for [query]: the goroutines of the remotes [sched] one after
    the other. *)
Definition queryMap (qFn : queryFn) (localIts : list I) (sched : list Q) : fpMap :=
  foldl (mergeRemote qFn) (addLocals ∅ localIts) sched.

(** [Close]: the local querier, when there is one, then the remotes, stopping
    at the first error. [close] is the Close method of a querier. *)
Fixpoint closeAll (close : Q -> option error) (qs : list Q) : option error :=
  match qs with
  | [] => None
  | q :: qs => match close q with Some err => Some err | None => closeAll close qs end
  end.

Definition querier_Close (close : Q -> option error) (l : option Q) (remotes : list Q)
    : option error :=
  match l with
  | Some q => match close q with Some err => Some err | None => closeAll close remotes end
  | None => closeAll close remotes
  end.

End fanin.
Arguments mergeIterator I : clear implicits.
Arguments querier Q : clear implicits.

(** ** mergeSamples is the sorted left-biased union *)

(** The reference: the structural merge. *)
Fixpoint merge (a : list SamplePair) : list SamplePair -> list SamplePair :=
  match a with
  | [] => fun b => b
  | x :: a' =>
      fix merge_x (b : list SamplePair) : list SamplePair :=
        match b with
        | [] => a
        | y :: b' =>
            if Timestamp x <? Timestamp y then x :: merge a' b
            else if Timestamp x >? Timestamp y then y :: merge_x b'
            else x :: merge a' b'
        end
  end.

Lemma merge_nil_r a : merge a [] = a.
Proof. by destruct a. Qed.

Lemma merge_cons x a y b :
  merge (x :: a) (y :: b) =
    if Timestamp x <? Timestamp y then x :: merge a (y :: b)
    else if Timestamp x >? Timestamp y then y :: merge (x :: a) b
    else x :: merge a b.
Proof. done. Qed.

Lemma mergeSamples_loop_merge fuel a b i j result :
  (length (drop i a) + length (drop j b) <= fuel)%nat ->
  mergeSamples_loop fuel a b i j result = result ++ merge (drop i a) (drop j b).
Proof.
  revert i j result. induction fuel as [|fuel IH]; intros i j result Hf; simpl.
  { destruct (drop i a), (drop j b); simpl in *; try lia. done. }
  destruct (a !! i) as [x|] eqn:Hi.
  2: { rewrite (drop_ge a) by by apply lookup_ge_None. done. }
  destruct (b !! j) as [y|] eqn:Hj.
  2: { rewrite (drop_ge b) by by apply lookup_ge_None. by rewrite merge_nil_r, app_nil_r. }
  rewrite (drop_S a x i Hi), (drop_S b y j Hj) in *. rewrite merge_cons. simpl in Hf.
  destruct (Timestamp x <? Timestamp y); [|destruct (Timestamp x >? Timestamp y)];
    (rewrite IH by (rewrite ?(drop_S a x i Hi), ?(drop_S b y j Hj); simpl; lia));
    by rewrite ?(drop_S a x i Hi), ?(drop_S b y j Hj), <- app_assoc.
Qed.

Lemma mergeSamples_merge a b : mergeSamples a b = merge a b.
Proof. unfold mergeSamples. by rewrite mergeSamples_loop_merge. Qed.

Lemma merge_elem_of_1 a b p : p ∈ merge a b -> p ∈ a \/ p ∈ b.
Proof.
  revert b. induction a as [|x a IHa]; intros b; [by right|].
  induction b as [|y b IHb]; [by left|].
  rewrite merge_cons. zcases; rewrite !elem_of_cons; intros [->|Hp]; [by auto| |by auto| |by auto|].
  - apply IHa in Hp. rewrite elem_of_cons in Hp. tauto.
  - apply IHb in Hp. rewrite elem_of_cons in Hp. tauto.
  - apply IHa in Hp. tauto.
Qed.

Lemma merge_elem_of_l a b p : p ∈ a -> p ∈ merge a b.
Proof.
  revert b. induction a as [|x a IHa]; intros b; [set_solver|].
  induction b as [|y b IHb]; [done|].
  rewrite merge_cons. zcases; set_solver.
Qed.

Lemma merge_sorted a b : sorted_samples a -> sorted_samples b -> sorted_samples (merge a b).
Proof.
  revert b. induction a as [|x a IHa]; intros b Ha Hb; [done|].
  induction b as [|y b IHb]; [done|]. rewrite merge_cons.
  pose proof Ha as [Hx Ha']%sorted_by_cons. pose proof Hb as [Hy Hb']%sorted_by_cons.
  rewrite Forall_forall in Hx, Hy.
  zcases; rewrite sorted_by_cons, Forall_forall; (split; [|by auto]);
    intros p Hp; apply merge_elem_of_1 in Hp; rewrite ?elem_of_cons in Hp.
  - destruct Hp as [Hp|[->|Hp]]; [by apply Hx|done|]. specialize (Hy p Hp). lia.
  - destruct Hp as [[->|Hp]|Hp]; [done| |by apply Hy]. specialize (Hx p Hp). lia.
  - destruct Hp as [Hp|Hp]; [by apply Hx|]. specialize (Hy p Hp). lia.
Qed.

(** A sample of [b] is kept unless [a] has one with the same timestamp. *)
Lemma merge_elem_of a b p :
  sorted_samples a -> sorted_samples b ->
  p ∈ merge a b <->
    p ∈ a \/ (p ∈ b /\ forall x, x ∈ a -> Timestamp x <> Timestamp p).
Proof.
  intros Ha Hb. split.
  - intros Hp. destruct (merge_elem_of_1 _ _ _ Hp) as [?|Hpb]; [by left|].
    destruct (decide (p ∈ a)) as [?|Hpa]; [by left|right]. split; [done|].
    intros x Hx Ht. apply Hpa.
    assert (x = p) as <-; [|done].
    apply (sorted_by_key_inj Timestamp (merge a b)); [by apply merge_sorted| |done..].
    by apply merge_elem_of_l.
  - intros [Hp|[Hp Hn]]; [by apply merge_elem_of_l|]. revert Hp Hn. clear Ha Hb.
    revert b. induction a as [|x a IHa]; intros b; [done|].
    induction b as [|y b IHb]; [set_solver|].
    intros Hp Hn. rewrite merge_cons. zcases.
    + apply elem_of_cons. right. apply IHa; [done|]. set_solver.
    + apply elem_of_cons in Hp as [->|Hp]; set_solver.
    + apply elem_of_cons in Hp as [->|Hp].
      * exfalso. apply (Hn x); [set_solver|lia].
      * apply elem_of_cons. right. apply IHa; [done|]. set_solver.
Qed.

#[export] Hint Resolve merge_sorted : promeproxy.

(** C16: mergeSamples, the index loop, terminates with the structural merge of
    its inputs. On inputs sorted by time the result is sorted (so each timestamp
    occurs once), contains exactly the samples of the first list and those
    samples of the second whose timestamp the first list does not have, and is
    the only sorted list with these samples. *)
Theorem mergeSamples_correct a b :
  mergeSamples a b = merge a b /\
  (sorted_samples a -> sorted_samples b ->
    sorted_samples (mergeSamples a b) /\
    (forall p, p ∈ mergeSamples a b <->
      p ∈ a \/ (p ∈ b /\ forall x, x ∈ a -> Timestamp x <> Timestamp p)) /\
    (forall l, sorted_samples l ->
      (forall p, p ∈ l <-> p ∈ a \/ (p ∈ b /\ forall x, x ∈ a -> Timestamp x <> Timestamp p)) ->
      mergeSamples a b = l)).
Proof.
  rewrite mergeSamples_merge. split; [done|]. intros Ha Hb.
  split_ands; [auto with promeproxy|intros p; by apply merge_elem_of|].
  intros l Hl Hp. apply (sorted_by_ext Timestamp); [auto with promeproxy|done|].
  intros p. by rewrite merge_elem_of, Hp.
Qed.

(** Merging is associative and idempotent on sorted lists, with the empty
    list as unit, so folding it over any number of remotes is well defined. *)
Theorem mergeSamples_algebra a b c :
  sorted_samples a -> sorted_samples b -> sorted_samples c ->
  mergeSamples a (mergeSamples b c) = mergeSamples (mergeSamples a b) c /\
  mergeSamples a a = a /\ mergeSamples [] a = a /\ mergeSamples a [] = a.
Proof.
  intros Ha Hb Hc. rewrite !mergeSamples_merge. split_ands.
  - apply (sorted_by_ext Timestamp); [auto with promeproxy..|].
    intros p. rewrite !merge_elem_of by auto with promeproxy.
    setoid_rewrite merge_elem_of; [|done..]. split.
    + intros [?|[[?|[? Hn]] Hn']]; [by left; left|by left; right|].
      right. split; [done|]. intros x [?|[? _]]; [by apply Hn'|by apply Hn].
    + intros [[?|[? Hn]]|[? Hn]]; [by left|by right; split; [left|]|].
      right. split; [right; split; [done|]|].
      * intros x Hx. destruct (decide (Exists (fun y => Timestamp y = Timestamp x) a)) as [He|He].
        -- apply Exists_exists in He as (y&Hy&Hyx). specialize (Hn y (or_introl Hy)). congruence.
        -- apply Hn. right. split; [done|]. intros y Hy Heq. apply He, Exists_exists. eauto.
      * intros x Hx. apply Hn. by left.
  - apply (sorted_by_ext Timestamp); [auto with promeproxy..|].
    intros p. rewrite merge_elem_of by done. split; [|by left]. by intros [?|[? _]].
  - done.
  - apply merge_nil_r.
Qed.

Lemma mergeSamples_algebra_witness :
  let v := f64_of_Z 1 in
  mergeSamples [mkSamplePair 1 v; mkSamplePair 4 v]
    (mergeSamples [mkSamplePair 2 v] [mkSamplePair 2 f64_zero; mkSamplePair 3 v]) =
  [mkSamplePair 1 v; mkSamplePair 2 v; mkSamplePair 3 v; mkSamplePair 4 v].
Proof.
  intros v.
  rewrite (proj1 (mergeSamples_algebra [mkSamplePair 1 v; mkSamplePair 4 v] [mkSamplePair 2 v]
    [mkSamplePair 2 f64_zero; mkSamplePair 3 v]
    ltac:(repeat constructor) ltac:(repeat constructor) ltac:(repeat constructor))).
  reflexivity.
Defined.

(** ** Merged iterators *)

Section merged.
Context {I : Type} `{SeriesIteratorLaws I}.

Definition mergeIterator_wf (mit : mergeIterator I) : Prop :=
  (forall it, local mit = Some it -> samples_wf it) /\ Forall samples_wf (remote mit).

(** The samples the local iterator contributes to an interval. *)
Definition local_values (mit : mergeIterator I) (iv : Interval) : list SamplePair :=
  match local mit with Some it => range_values (samples it) iv | None => [] end.

Definition cutoff (values : list SamplePair) : Time :=
  match values with v :: _ => Timestamp v | [] => Latest end.

(** The samples of a remote that pass the cutoff. *)
Definition remote_values (iv : Interval) (c : Time) (it : I) : list SamplePair :=
  filter (fun p => Timestamp p < c) (range_values (samples it) iv).

Lemma range_values_sorted l iv : sorted_samples l -> sorted_samples (range_values l iv).
Proof. apply sorted_by_filter. Qed.

Lemma remote_values_sorted iv c it : samples_wf it -> sorted_samples (remote_values iv c it).
Proof. intros Hit. by apply sorted_by_filter, range_values_sorted, samples_sorted. Qed.

Lemma local_values_sorted mit iv : mergeIterator_wf mit -> sorted_samples (local_values mit iv).
Proof.
  intros [Hl _]. unfold local_values. destruct (local mit) as [it|]; [|apply sorted_by_nil].
  by apply range_values_sorted, samples_sorted, Hl.
Qed.

(** The sliced samples of a remote are those before the cutoff. *)
Lemma take_cutoff l c :
  sorted_samples l ->
  take (search_list (fun v => negb (Before (Timestamp v) c)) l) l =
    filter (fun p => Timestamp p < c) l.
Proof.
  intros Hl. rewrite search_list_take by by apply switches_not_Before.
  apply filter_iff_list. intros p. by rewrite negb_false_iff, Before_spec.
Qed.

(** The loop over the remotes is a fold of merges. *)
Lemma merge_remotes_foldl iv c its values :
  Forall samples_wf its -> OldestInclusive iv <= NewestInclusive iv ->
  merge_remotes iv c its values =
    Ret (foldl (fun vs it => merge vs (remote_values iv c it)) values its).
Proof.
  intros Hits Hiv. revert values. induction Hits as [|it its Hit Hits IH]; intros values; [done|].
  cbn [merge_remotes foldl]. rewrite RangeValues_ok by done. simpl.
  rewrite take_cutoff by by apply range_values_sorted, samples_sorted.
  by rewrite mergeSamples_merge, IH.
Qed.

(** What the fold of merges contains: a remote's sample counts unless the
    samples merged before have its timestamp. *)
Lemma foldl_merge_spec iv c its values :
  Forall samples_wf its -> sorted_samples values ->
  let result := foldl (fun vs it => merge vs (remote_values iv c it)) values its in
  sorted_samples result /\
  (forall p, p ∈ result <-> p ∈ values \/
    exists i it, its !! i = Some it /\ p ∈ remote_values iv c it /\
      (forall x, x ∈ values -> Timestamp x <> Timestamp p) /\
      (forall j jt x, (j < i)%nat -> its !! j = Some jt -> x ∈ remote_values iv c jt ->
        Timestamp x <> Timestamp p)).
Proof.
  intros Hits. revert values. induction Hits as [|it its Hit Hits IH]; intros values Hv; simpl.
  { split; [done|]. intros p. split; [by left|]. intros [?|(i&it&Hi&_)]; done. }
  pose proof (remote_values_sorted iv c it Hit) as Hr.
  destruct (IH (merge values (remote_values iv c it))) as [Hs Hp]; [by apply merge_sorted|].
  split; [done|]. intros p. rewrite Hp, merge_elem_of by done. clear Hp IH Hs. split.
  - intros [[?|[Hpi Hpv]]|(i&jt&Hi&Hpj&Hpm&Hlt)]; [by left|right..].
    + exists 0%nat, it. split_ands; [done..|]. intros j jt x Hj. lia.
    + assert (forall x, x ∈ values \/ x ∈ remote_values iv c it -> Timestamp x <> Timestamp p)
        as Hn.
      { intros x Hx Heq. destruct (decide (Exists (fun y => Timestamp y = Timestamp x) values))
          as [He|He].
        - apply Exists_exists in He as (y&Hy&Hyx). apply (Hpm y); [|congruence].
          apply merge_elem_of; auto.
        - apply (Hpm x); [|done]. apply merge_elem_of; [done..|].
          destruct Hx as [?|?]; [by left|right]. split; [done|].
          intros y Hy Hyx. apply He, Exists_exists. eauto. }
      exists (S i), jt. split_ands; [done..| |]; [intros x Hx; apply Hn; by left|].
      intros [|j] kt x Hj Hk Hx; simplify_eq/=; [apply Hn; by right|].
      eapply (Hlt j); [lia|done..].
  - intros [?|(i&jt&Hi&Hpj&Hpv&Hlt)]; [by left; left|].
    destruct i as [|i]; simplify_eq/=; [by left; right|right].
    exists i, jt. split_ands; [done..| |].
    + intros x Hx. apply merge_elem_of in Hx as [?|[Hx _]]; [by apply Hpv| |done..].
      apply (Hlt 0%nat it); [lia|done..].
    + intros j kt x Hj Hk Hx. eapply (Hlt (S j)); [lia|done..].
Qed.

Lemma mergeIterator_RangeValues_foldl mit iv :
  mergeIterator_wf mit -> OldestInclusive iv <= NewestInclusive iv ->
  mergeIterator_RangeValues mit iv =
    Ret (foldl (fun vs it => merge vs (remote_values iv (cutoff (local_values mit iv)) it))
      (local_values mit iv) (remote mit)).
Proof.
  intros [Hl Hr] Hiv. unfold mergeIterator_RangeValues, local_values.
  destruct (local mit) as [it|]; simpl.
  - rewrite RangeValues_ok by auto. simpl. by rewrite merge_remotes_foldl.
  - by rewrite merge_remotes_foldl.
Qed.

Lemma RangeValues_contents mit iv :
  mergeIterator_wf mit -> OldestInclusive iv <= NewestInclusive iv ->
  exists values, mergeIterator_RangeValues mit iv = Ret values /\ sorted_samples values /\
    forall p, p ∈ values <-> p ∈ local_values mit iv \/
      exists i it, remote mit !! i = Some it /\ p ∈ samples it /\
        in_interval iv (Timestamp p) /\
        Timestamp p < cutoff (local_values mit iv) /\
        (forall j jt x, (j < i)%nat -> remote mit !! j = Some jt -> x ∈ samples jt ->
          Timestamp x <> Timestamp p).
Proof.
  intros Hwf Hiv. eexists. split; [by apply mergeIterator_RangeValues_foldl|].
  pose proof (local_values_sorted mit iv Hwf) as Hls. destruct Hwf as [_ Hr].
  destruct (foldl_merge_spec iv (cutoff (local_values mit iv)) (remote mit)
    (local_values mit iv) Hr Hls) as [Hs Hp]. split; [done|].
  intros p. rewrite Hp. clear Hp Hs.
  apply or_iff_compat_l. unfold remote_values, range_values.
  setoid_rewrite list_elem_of_filter. setoid_rewrite list_elem_of_filter. split.
  - intros (i&it&Hi&(Hc&Hin&Hpi)&_&Hlt). exists i, it. split_ands; [done..|].
    intros j jt x Hj Hjt Hx Heq. apply (Hlt j jt x Hj Hjt); [|done]. by rewrite Heq.
  - intros (i&it&Hi&Hpi&Hin&Hc&Hlt). exists i, it. split_ands; [done..| |].
    + intros x Hx. revert Hls Hc Hx. unfold cutoff. destruct (local_values mit iv) as [|y l];
        [set_solver|]. rewrite sorted_by_cons, Forall_forall. intros [Hy _] Hc [->|Hx]%elem_of_cons.
      * lia.
      * specialize (Hy x Hx). lia.
    + intros j jt x Hj Hjt (_&_&Hx). eapply Hlt; eauto.
Qed.

(** The time of the first local sample of the series, in any interval. *)
Definition first_local (mit : mergeIterator I) : Time :=
  match local mit with
  | Some it => cutoff (samples it)
  | None => Latest
  end.

Lemma cutoff_first_local mit iv :
  (forall it x, local mit = Some it -> head (samples it) = Some x -> in_interval iv (Timestamp x)) ->
  cutoff (local_values mit iv) = first_local mit.
Proof.
  intros Hin. unfold local_values, first_local, range_values. destruct (local mit) as [it|]; [|done].
  specialize (Hin it). destruct (samples it) as [|x l]; [done|]. rewrite filter_cons, decide_True by by apply Hin.
  done.
Qed.

(** C14: the merged range. For sorted local and remote series and a proper
    interval, RangeValues does not panic and returns a list sorted by time that
    contains all the local samples of the interval. A remote sample of the
    interval is contained exactly when it is older than the first local sample
    of the interval, or than model.Latest if there is none, and no remote
    earlier in the list has a sample with its timestamp. The comment of the
    source says instead that remote samples are only considered before the first
    local sample of the series. The code does this when that sample is in the
    interval (or there is no local sample at all); but in an interval without
    local samples it returns the samples of the first remote also when the
    series has local samples before them. *)
Theorem mergeIterator_RangeValues_correct mit iv :
  mergeIterator_wf mit -> OldestInclusive iv <= NewestInclusive iv ->
  exists values, mergeIterator_RangeValues mit iv = Ret values /\
    sorted_samples values /\
    (forall p, p ∈ values <-> p ∈ local_values mit iv \/
      exists i it, remote mit !! i = Some it /\ p ∈ samples it /\
        in_interval iv (Timestamp p) /\
        Timestamp p < cutoff (local_values mit iv) /\
        (forall j jt x, (j < i)%nat -> remote mit !! j = Some jt -> x ∈ samples jt ->
          Timestamp x <> Timestamp p)) /\
    ((forall it x, local mit = Some it -> head (samples it) = Some x -> in_interval iv (Timestamp x)) ->
      cutoff (local_values mit iv) = first_local mit) /\
    (local_values mit iv = [] -> forall it p, remote mit !! 0%nat = Some it -> p ∈ samples it ->
      in_interval iv (Timestamp p) -> first_local mit < Timestamp p < Latest -> p ∈ values).
Proof.
  intros Hwf Hiv. destruct (RangeValues_contents mit iv Hwf Hiv) as (values&Hv&Hs&Hp).
  exists values. split_ands; [done..|by apply cutoff_first_local|].
  intros Hno it p Hit Hpi Hin [_ Hlt]. apply Hp. right. exists 0%nat, it. rewrite Hno. split_ands; [done..|].
  intros j. lia.
Qed.

Lemma latest_remote_spec t its latest :
  Forall samples_wf its ->
  exists r, latest_remote t its latest = Ret r /\
    Timestamp latest <= Timestamp r /\
    (forall it, it ∈ its -> Timestamp (value_at_or_before (samples it) t) <= Timestamp r) /\
    (r = latest \/ Timestamp latest < Timestamp r /\
      exists it, it ∈ its /\ r = value_at_or_before (samples it) t).
Proof.
  intros Hits. revert latest. induction Hits as [|it its Hit Hits IH]; intros latest; simpl.
  { exists latest. split_ands; [done|lia|set_solver|by left]. }
  rewrite ValueAtOrBeforeTime_ok by done. simpl.
  set (v := value_at_or_before (samples it) t).
  destruct (After (Timestamp v) (Timestamp latest)) eqn:Hv;
    [apply After_spec in Hv|apply After_false in Hv].
  - destruct (IH v) as (r&->&Hle&Hmax&Hr). exists r. split_ands; [done|lia| |].
    + intros jt [->|Hjt]%elem_of_cons; [done|by apply Hmax].
    + right. destruct Hr as [->|[Hlt (jt&Hjt&->)]].
      * split; [done|]. exists it. set_solver.
      * split; [lia|]. exists jt. set_solver.
  - destruct (IH latest) as (r&->&Hle&Hmax&Hr). exists r. split_ands; [done|done| |].
    + intros jt [->|Hjt]%elem_of_cons; [fold v; lia|by apply Hmax].
    + destruct Hr as [->|[Hlt (jt&Hjt&->)]]; [by left|right].
      split; [done|]. exists jt. set_solver.
Qed.

(** The merged instant value. ValueAtOrBeforeTime does not panic; a local
    sample at or before the time (anything but the zero sample pair) wins over
    every remote one; otherwise the result is a most recent one among the values
    the remotes give for that time, or the zero sample pair when they give
    none. *)
Theorem mergeIterator_ValueAtOrBeforeTime_correct mit t :
  mergeIterator_wf mit ->
  let l := match local mit with
           | Some it => value_at_or_before (samples it) t
           | None => ZeroSamplePair
           end in
  exists r, mergeIterator_ValueAtOrBeforeTime mit t = Ret r /\
    (SamplePair_eqb l ZeroSamplePair = false -> r = l) /\
    (SamplePair_eqb l ZeroSamplePair = true ->
      (forall it, it ∈ remote mit -> Timestamp (value_at_or_before (samples it) t) <= Timestamp r) /\
      (r = l \/ Earliest < Timestamp r /\
        exists it, it ∈ remote mit /\ r = value_at_or_before (samples it) t)).
Proof.
  intros [Hl Hr] l. unfold mergeIterator_ValueAtOrBeforeTime.
  assert (match local mit with
          | Some it => ValueAtOrBeforeTime it t
          | None => Ret ZeroSamplePair end = Ret l) as ->.
  { unfold l. destruct (local mit) as [it|]; [|done]. by apply ValueAtOrBeforeTime_ok, Hl. }
  simpl. destruct (SamplePair_eqb l ZeroSamplePair) eqn:Hz.
  - destruct (latest_remote_spec t (remote mit) l Hr) as (r&->&Hle&Hmax&Hrl).
    exists r. split_ands; [done|done|]. intros _. split; [done|].
    apply SamplePair_eqb_Timestamp in Hz. simpl in Hz. rewrite Hz in Hrl. done.
  - exists l. done.
Qed.

End merged.

(** The local series of the first case of [TestQueryRange], a remote that
    overlaps it, and another remote older than both. *)
Definition stream (l : list SamplePair) : sampleStreamIterator :=
  mkSampleStreamIterator (mkSampleStream {[MetricNameLabel := "testmetric"%string]} l).

Definition pair (t : Z) (v : Z) : SamplePair := mkSamplePair t (f64_of_Z v).

Definition example_merge : mergeIterator sampleStreamIterator :=
  mkMergeIterator (Some (stream [pair 3 30; pair 4 40]))
    [stream [pair 1 1; pair 3 3; pair 5 5]; stream [pair 0 7; pair 1 8]].

Lemma example_merge_wf : mergeIterator_wf example_merge.
Proof.
  split; [intros it [= <-]; repeat constructor|].
  repeat constructor.
Qed.

Lemma mergeIterator_RangeValues_correct_witness :
  mergeIterator_RangeValues example_merge (mkInterval 0 10) =
    Ret [pair 0 7; pair 1 1; pair 3 30; pair 4 40] /\
  (exists values, mergeIterator_RangeValues example_merge (mkInterval 0 10) = Ret values /\
    sorted_samples values).
Proof.
  split; [reflexivity|].
  destruct (mergeIterator_RangeValues_correct example_merge (mkInterval 0 10)
    example_merge_wf ltac:(simpl; lia)) as (values&Hv&Hs&_).
  exists values. split; [exact Hv|exact Hs].
Defined.

Lemma mergeIterator_ValueAtOrBeforeTime_correct_witness :
  mergeIterator_ValueAtOrBeforeTime example_merge 2 = Ret (pair 1 1) /\
  mergeIterator_ValueAtOrBeforeTime example_merge 9 = Ret (pair 4 40) /\
  (exists r, mergeIterator_ValueAtOrBeforeTime example_merge 9 = Ret r /\ r = pair 4 40).
Proof.
  split; [reflexivity|]. split; [reflexivity|].
  destruct (mergeIterator_ValueAtOrBeforeTime_correct example_merge 9 example_merge_wf)
    as (r&Hr&Hl&_).
  exists r. split; [exact Hr|]. exact (Hl eq_refl).
Defined.

(** The cutoff is relative to the queried interval, not to the series. The
    comment on mergeIterator says that remote samples are only considered before
    the first local sample of a series, but a series with local samples at 1 and
    100 returns the remote sample at 50 for the interval [40,60], which contains
    no local sample, while it returns only the local samples for [0,100]; the
    instant value at 50 is the local one. So RangeValues is not monotone in the
    interval. *)
Theorem RangeValues_cutoff_depends_on_interval :
  exists (mit : mergeIterator sampleStreamIterator) (p : SamplePair),
    mergeIterator_wf mit /\
    (exists it first, local mit = Some it /\ samples it !! 0%nat = Some first /\
      Timestamp first < Timestamp p) /\
    (exists it, it ∈ remote mit /\ p ∈ samples it) /\
    mergeIterator_RangeValues mit (mkInterval 40 60) = Ret [p] /\
    (exists values, mergeIterator_RangeValues mit (mkInterval 0 100) = Ret values /\
      p ∉ values) /\
    (exists r, mergeIterator_ValueAtOrBeforeTime mit 50 = Ret r /\ Timestamp r < Timestamp p).
Proof.
  exists (mkMergeIterator (Some (stream [pair 1 1; pair 100 2])) [stream [pair 50 3]]).
  exists (pair 50 3). split_ands.
  - split; [intros it [= <-]|]; repeat constructor.
  - eexists _, _. split_ands; reflexivity.
  - exists (stream [pair 50 3]). simpl. set_solver.
  - reflexivity.
  - exists [pair 1 1; pair 100 2]. split; [reflexivity|].
    rewrite !elem_of_cons, elem_of_nil. intros [[=]|[[=]|[]]].
  - eexists. split; [reflexivity|]. reflexivity.
Qed.

(** ** Grouping and the query *)

Section grouping.
Context {I : Type} `{SeriesIterator I} {Q : Type}.
Implicit Types (m : gmap Z (mergeIterator I)) (its : list I) (qFn : Q -> list I * option error).

Definition with_fp (fp : Z) its : list I := filter (fun it => fingerprint_of it = fp) its.

(** A group after [l] more remote iterators of its fingerprint. *)
Definition extend_group (o : option (mergeIterator I)) (l : list I) : option (mergeIterator I) :=
  match o with
  | Some mit => Some (mkMergeIterator (local mit) (remote mit ++ l))
  | None => match l with [] => None | _ => Some (mkMergeIterator None l) end
  end.

(** All the iterators the remotes return, in the order the goroutines run. *)
Definition remote_its qFn (sched : list Q) : list I := concat ((fun q => (qFn q).1) <$> sched).

Lemma extend_group_nil o : extend_group o [] = o.
Proof. destruct o as [[l r]|]; simpl; [|done]. by rewrite app_nil_r. Qed.

Lemma extend_group_app o l k :
  extend_group (extend_group o l) k = extend_group o (l ++ k).
Proof.
  destruct o as [mit|]; simpl; [by rewrite app_assoc|]. by destruct l.
Qed.

Lemma mergeIterators_lookup m its fp :
  mergeIterators m its !! fp = extend_group (m !! fp) (with_fp fp its).
Proof.
  revert m. induction its as [|it its IH]; intros m; [by rewrite extend_group_nil|].
  cbn [mergeIterators]. rewrite IH. unfold with_fp. rewrite filter_cons. case_decide as Hfp.
  - subst fp. change (it :: filter ?P its) with ([it] ++ filter P its).
    rewrite <- extend_group_app. f_equal.
    destruct (m !! fingerprint_of it) as [mit|]; by rewrite lookup_insert_eq.
  - f_equal. by destruct (m !! fingerprint_of it); rewrite lookup_insert_ne.
Qed.

Lemma addLocals_lookup m its fp :
  addLocals m its !! fp =
    match last (with_fp fp its) with
    | Some it => Some (mkMergeIterator (Some it) [])
    | None => m !! fp
    end.
Proof.
  revert m. induction its as [|it its IH]; intros m; [done|].
  cbn [addLocals]. rewrite IH. unfold with_fp. rewrite filter_cons. case_decide as Hfp.
  - rewrite last_cons. destruct (last _); [done|]. by rewrite Hfp, lookup_insert_eq.
  - destruct (last _); [done|]. by rewrite lookup_insert_ne.
Qed.

Lemma mergeIterators_app m its1 its2 :
  mergeIterators m (its1 ++ its2) = mergeIterators (mergeIterators m its1) its2.
Proof. revert m. induction its1 as [|it its1 IH]; intros m; simpl; [done|]. by rewrite IH. Qed.

Lemma foldl_mergeRemote qFn m sched :
  foldl (mergeRemote qFn) m sched = mergeIterators m (remote_its qFn sched).
Proof.
  revert m. induction sched as [|q sched IH]; intros m; [done|].
  unfold remote_its in *. simpl. by rewrite IH, mergeIterators_app.
Qed.

Lemma queryMap_lookup qFn its sched fp :
  queryMap qFn its sched !! fp =
    extend_group ((fun it => mkMergeIterator (Some it) []) <$> last (with_fp fp its))
      (with_fp fp (remote_its qFn sched)).
Proof.
  unfold queryMap. rewrite foldl_mergeRemote, mergeIterators_lookup, addLocals_lookup.
  by destruct (last _).
Qed.

Lemma remote_its_Permutation qFn sched sched' :
  sched ≡ₚ sched' -> remote_its qFn sched ≡ₚ remote_its qFn sched'.
Proof. intros Hs. unfold remote_its. by rewrite Hs. Qed.

Lemma with_fp_Permutation fp its its' : its ≡ₚ its' -> with_fp fp its ≡ₚ with_fp fp its'.
Proof. intros Hs. unfold with_fp. by rewrite Hs. Qed.

Lemma with_fp_fingerprint fp its it : it ∈ with_fp fp its -> fingerprint_of it = fp.
Proof. by intros [? _]%list_elem_of_filter. Qed.

Lemma last_elem_of {A} (l : list A) x : last l = Some x -> x ∈ l.
Proof. rewrite last_lookup. apply list_elem_of_lookup_2. Qed.

(** One entry of the final map. *)
Lemma queryMap_entry qFn its sched fp mit :
  queryMap qFn its sched !! fp = Some mit ->
  local mit = last (with_fp fp its) /\ remote mit = with_fp fp (remote_its qFn sched) /\
  exists met, mergeIterator_Metric mit = Ret met /\ Fingerprint met = fp.
Proof.
  rewrite queryMap_lookup. unfold mergeIterator_Metric.
  destruct (last (with_fp fp its)) as [it|] eqn:Hl; simpl.
  - intros [= <-]. split_ands; [done|done|]. eexists. split; [done|].
    by apply with_fp_fingerprint with its, last_elem_of.
  - destruct (with_fp fp (remote_its qFn sched)) as [|it l] eqn:Hr; [done|].
    intros [= <-]. split_ands; [done|done|]. eexists. split; [done|].
    apply with_fp_fingerprint with (remote_its qFn sched). rewrite Hr. set_solver.
Qed.

End grouping.
