(* ===== verification/FaninRace.v ===== *)
(** * The unsynchronised goroutines of [fanin.querier.query]

    [query] starts one goroutine per remote; each runs [mergeIterators] on the
    shared map of pointers without a lock (the comment of the source says that
    with fingerprints this seems to be no problem). This file gives the loop
    body of [mergeIterators] as the memory accesses other goroutines can
    interleave with, and shows when the comment is right: with remotes that share no fingerprint every
    schedule gives the sequential result, and with two remotes that do share one
    a schedule loses a series. Each access is atomic and [append] yields a list
    of its own; the Go runtime may do worse (it aborts when it notices
    concurrent map writes). *)
From S2P Require Import Prelude Model MetricPkg Iterator Fanin.

Open Scope Z_scope.

Section race.
Context {I : Type} `{SeriesIterator I}.

(** Where a goroutine is in the body of the loop of [mergeIterators]. *)
Inductive goroutine :=
  (** before the lookup for the head of the list, or finished *)
  | GLoop (its : list I)
  (** the lookup found no entry for [it] *)
  | GMissed (it : I) (its : list I)
  (** the lookup returned the pointer [p] ([fpIts]) *)
  | GFound (it : I) (p : nat) (its : list I)
  (** the pointer [q] on the left of the assignment is evaluated *)
  | GAddressed (it : I) (p q : nat) (its : list I)
  (** [append] has returned [r] *)
  | GAppended (it : I) (q : nat) (r : list I) (its : list I)
  (** a nil pointer was dereferenced *)
  | GCrashed.

Record race_state := mkRace {
  fpToIt : gmap Z nat;
  heap : gmap nat (mergeIterator I);
  goroutines : list goroutine
}.

(** One step of a goroutine on the shared map and heap; [None] at the end. *)
Definition gstep (mp : gmap Z nat) (hp : gmap nat (mergeIterator I)) (g : goroutine)
    : option (gmap Z nat * gmap nat (mergeIterator I) * goroutine) :=
  match g with
  | GLoop [] | GCrashed => None
  | GLoop (it :: its) =>
      match mp !! fingerprint_of it with
      | None => Some (mp, hp, GMissed it its)
      | Some p => Some (mp, hp, GFound it p its)
      end
  | GMissed it its =>
      let p := fresh (dom hp) in
      Some (<[fingerprint_of it := p]> mp, <[p := mkMergeIterator None [it]]> hp, GLoop its)
  | GFound it p its =>
      match mp !! fingerprint_of it with
      | None => Some (mp, hp, GCrashed)
      | Some q => Some (mp, hp, GAddressed it p q its)
      end
  | GAddressed it p q its =>
      match hp !! p with
      | None => Some (mp, hp, GCrashed)
      | Some fpIts => Some (mp, hp, GAppended it q (remote fpIts ++ [it]) its)
      end
  | GAppended it q r its =>
      match hp !! q with
      | None => Some (mp, hp, GCrashed)
      | Some mit => Some (mp, <[q := mkMergeIterator (local mit) r]> hp, GLoop its)
      end
  end.

(** The scheduler runs goroutine [i] for one step. *)
Definition schedule_step (s : race_state) (i : nat) : race_state :=
  match goroutines s !! i with
  | Some g =>
      match gstep (fpToIt s) (heap s) g with
      | Some (mp, hp, g') => mkRace mp hp (<[i := g']> (goroutines s))
      | None => s
      end
  | None => s
  end.

Definition run (s : race_state) (sched : list nat) : race_state := foldl schedule_step s sched.

Definition finished (s : race_state) : Prop := Forall (fun g => g = GLoop []) (goroutines s).

(** The entry of a fingerprint, through its pointer. *)
Definition view (s : race_state) (fp : Z) : option (mergeIterator I) :=
  p ← fpToIt s !! fp; heap s !! p.

(** The state [query] starts the goroutines in: one per remote; distinct
    allocated pointers to the entries of the local iterators, which have no
    remote iterators yet; every cell holds a local iterator. *)
Definition initial (s : race_state) (inputs : list (list I)) : Prop :=
  goroutines s = GLoop <$> inputs /\
  (forall fp p, fpToIt s !! fp = Some p -> is_Some (heap s !! p)) /\
  (forall fp fp' p, fpToIt s !! fp = Some p -> fpToIt s !! fp' = Some p -> fp = fp') /\
  (forall p mit, heap s !! p = Some mit -> remote mit = [] /\ is_Some (local mit)).

(** ** No shared fingerprints: every schedule gives the sequential result *)

Definition disjoint_fingerprints (inputs : list (list I)) : Prop :=
  forall i j its jts it jt, i <> j -> inputs !! i = Some its -> inputs !! j = Some jts ->
    it ∈ its -> jt ∈ jts -> fingerprint_of it <> fingerprint_of jt.

(** The iterators a goroutine has merged, given all it has to merge. *)
Definition rest (g : goroutine) : list I :=
  match g with
  | GLoop its => its
  | GMissed it its | GFound it _ its | GAddressed it _ _ its | GAppended it _ _ its => it :: its
  | GCrashed => []
  end.

(** What a goroutine knows at its program point about the entry it works on. *)
Definition g_inv (s : race_state) (g : goroutine) : Prop :=
  match g with
  | GLoop _ => True
  | GMissed it _ => fpToIt s !! fingerprint_of it = None
  | GFound it p _ => fpToIt s !! fingerprint_of it = Some p
  | GAddressed it p q _ => fpToIt s !! fingerprint_of it = Some p /\ q = p
  | GAppended it q r _ => fpToIt s !! fingerprint_of it = Some q /\
      exists mit, heap s !! q = Some mit /\ r = remote mit ++ [it]
  | GCrashed => False
  end.

(** The heap is well formed. *)
Definition heap_inv (s : race_state) : Prop :=
  (forall fp p, fpToIt s !! fp = Some p -> is_Some (heap s !! p)) /\
  (forall fp fp' p, fpToIt s !! fp = Some p -> fpToIt s !! fp' = Some p -> fp = fp').

(** A goroutine's progress: [pre] is merged, and the entries of its
    fingerprints are the initial ones extended with [pre]. *)
Definition progress (s0 s : race_state) (its : list I) (g : goroutine) : Prop :=
  exists pre, its = pre ++ rest g /\ g_inv s g /\
    forall fp, (exists it, it ∈ its /\ fingerprint_of it = fp) ->
      view s fp = extend_group (view s0 fp) (with_fp fp pre).

Definition race_inv (s0 : race_state) (inputs : list (list I)) (s : race_state) : Prop :=
  heap_inv s /\ Forall2 (progress s0 s) inputs (goroutines s) /\
  forall fp, (forall its it, its ∈ inputs -> it ∈ its -> fingerprint_of it <> fp) ->
    view s fp = view s0 fp.

(** Two states agree on an entry, pointer and contents. *)
Definition agree (s s' : race_state) (fp : Z) : Prop :=
  fpToIt s' !! fp = fpToIt s !! fp /\
  forall p, fpToIt s !! fp = Some p -> heap s' !! p = heap s !! p.

Lemma agree_view s s' fp : agree s s' fp -> view s' fp = view s fp.
Proof.
  intros [Hm Hh]. unfold view. rewrite Hm. destruct (fpToIt s !! fp) as [p|]; simpl; auto.
Qed.

Lemma agree_g_inv s s' g :
  (forall it, head (rest g) = Some it -> agree s s' (fingerprint_of it)) ->
  g_inv s g -> g_inv s' g.
Proof.
  intros Ha. destruct g as [its|it its|it p its|it p q its|it q r its|]; simpl in *; try done;
    destruct (Ha it eq_refl) as [-> Hh]; try done.
  intros (Hp&mit&Hm&->). split; [done|]. exists mit. by rewrite Hh.
Qed.

Lemma fresh_not_allocated (hp : gmap nat (mergeIterator I)) : hp !! fresh (dom hp) = None.
Proof. apply not_elem_of_dom, is_fresh. Qed.

(** One step of a goroutine in a good state: it keeps the heap well formed,
    touches only the entry of its current iterator, and either stays within the
    iteration or completes it. *)
Lemma gstep_spec s g mp hp g' gs :
  heap_inv s -> g_inv s g -> gstep (fpToIt s) (heap s) g = Some (mp, hp, g') ->
  let s' := mkRace mp hp gs in
  exists it, head (rest g) = Some it /\ heap_inv s' /\ g_inv s' g' /\
    (forall fp, fp <> fingerprint_of it -> agree s s' fp) /\
    ((rest g' = rest g /\ view s' (fingerprint_of it) = view s (fingerprint_of it)) \/
     (rest g = it :: rest g' /\
      view s' (fingerprint_of it) = extend_group (view s (fingerprint_of it)) [it])).
Proof.
  intros [Halloc Hinj] Hg Hs. unfold view.
  destruct g as [[|it its]|it its|it p its|it p q its|it q r its|]; simpl in *; try done;
    exists it; (split; [done|]).
  - destruct (fpToIt s !! fingerprint_of it) as [p|] eqn:Hp; injection Hs as <- <- <-;
      split_ands; try done; try (left; simpl; by rewrite Hp).
  - injection Hs as <- <- <-. pose proof (fresh_not_allocated (heap s)) as Hf.
    set (p := fresh _) in *. clearbody p.
    assert (forall fp, fpToIt s !! fp <> Some p) as Hnp.
    { intros fp Hfp. destruct (Halloc _ _ Hfp). congruence. }
    split_ands; [split|done| |].
    + simpl. intros fp q. rewrite lookup_insert. case_decide; [intros [= <-]; by rewrite lookup_insert_eq|].
      intros Hq. rewrite lookup_insert_ne; [by eapply Halloc|]. intros ->. by apply (Hnp fp).
    + simpl. intros fp fp' q. rewrite !lookup_insert. repeat case_decide; intros Hq Hq'.
      * congruence.
      * injection Hq as <-. by apply Hnp in Hq'.
      * injection Hq' as <-. by apply Hnp in Hq.
      * by eapply Hinj.
    + intros fp Hfp. split; simpl; [by rewrite lookup_insert_ne|].
      intros q Hq. rewrite lookup_insert_ne; [done|]. intros ->. by apply (Hnp fp).
    + right. split; [done|]. simpl. rewrite Hg, lookup_insert_eq. simpl. by rewrite lookup_insert_eq.
  - rewrite Hg in Hs. injection Hs as <- <- <-. split_ands; try done. by left.
  - destruct Hg as [Hp ->]. destruct (Halloc _ _ Hp) as [mit Hm]. rewrite Hm in Hs.
    injection Hs as <- <- <-. split_ands; try done; [split; [done|by exists mit]|by left].
  - destruct Hg as (Hq&mit&Hm&->). rewrite Hm in Hs. injection Hs as <- <- <-.
    split_ands; [split|done| |]; simpl.
    + intros fp p Hp. rewrite lookup_insert. case_decide; [done|]. by eapply Halloc.
    + apply Hinj.
    + intros fp Hfp. split; [done|]. simpl. intros p Hp. rewrite lookup_insert_ne; [done|].
      intros ->. apply Hfp. by eapply Hinj.
    + right. split; [done|]. rewrite Hq. simpl. by rewrite lookup_insert_eq, Hm.
Qed.

Lemma rest_suffix (its pre : list I) g it :
  its = pre ++ rest g -> head (rest g) = Some it -> it ∈ its.
Proof. intros -> Hh. destruct (rest g); simplify_eq/=. set_solver. Qed.

Lemma with_fp_snoc fp pre (it : I) :
  with_fp fp (pre ++ [it]) = with_fp fp pre ++ (if decide (fingerprint_of it = fp) then [it] else []).
Proof. unfold with_fp. rewrite filter_app, filter_cons, filter_nil. done. Qed.

Lemma progress_agree s0 s s' its g :
  (forall fp, (exists it, it ∈ its /\ fingerprint_of it = fp) -> agree s s' fp) ->
  progress s0 s its g -> progress s0 s' its g.
Proof.
  intros Ha (pre&Hits&Hg&Hv). exists pre. split; [done|split].
  - eapply agree_g_inv; [|done]. intros it Hit. apply Ha. exists it. split; [|done].
    by eapply rest_suffix.
  - intros fp Hfp. rewrite <- Hv by done. by apply agree_view, Ha.
Qed.

Lemma race_inv_step s0 inputs s i :
  disjoint_fingerprints inputs -> race_inv s0 inputs s -> race_inv s0 inputs (schedule_step s i).
Proof.
  intros Hdisj (Hheap&Hall&Hother). unfold schedule_step.
  destruct (goroutines s !! i) as [g|] eqn:Hi; [|done].
  destruct (gstep _ _ _) as [[[mp hp] g']|] eqn:Hs; [|done].
  destruct (Forall2_lookup_r _ _ _ _ _ Hall Hi) as (its&Hits&pre&Heq&Hg&Hv).
  destruct (gstep_spec s g mp hp g' (<[i:=g']> (goroutines s)) Hheap Hg Hs)
    as (it&Hit&Hheap'&Hg'&Hagree&Hcase).
  pose proof (rest_suffix _ _ _ _ Heq Hit) as Hin.
  split; [done|split].
  - apply Forall2_lookup. intros j. simpl. rewrite Forall2_lookup in Hall.
    destruct (decide (i = j)) as [<-|Hne].
    + rewrite Hits, list_lookup_insert_eq by by eapply lookup_lt_Some.
      constructor. destruct Hcase as [[Hr Hvi]|[Hr Hvi]].
      * exists pre. split_ands; [by rewrite Hr|done|]. intros fp Hfp.
        rewrite <- Hv by done. destruct (decide (fp = fingerprint_of it)) as [->|]; [done|].
        by apply agree_view, Hagree.
      * exists (pre ++ [it]). split_ands; [by rewrite <- app_assoc; simpl; rewrite <- Hr|done|].
        intros fp Hfp. rewrite with_fp_snoc, <- extend_group_app, <- Hv by done.
        case_decide as Hd; [by rewrite <- Hd|].
        rewrite extend_group_nil. apply agree_view, Hagree. congruence.
    + rewrite list_lookup_insert_ne by done. specialize (Hall j).
      destruct (inputs !! j) as [jts|] eqn:Hj; inversion Hall as [? h Hp Hh|Hh]; constructor.
      eapply progress_agree; [|done]. intros fp (jt&Hjt&<-). apply Hagree.
      by eapply (Hdisj j i).
  - intros fp Hfp. rewrite <- Hother by done. apply agree_view, Hagree.
    intros ->. eapply Hfp; [by eapply list_elem_of_lookup_2|done|done].
Qed.

Lemma race_inv_run s0 inputs s sched :
  disjoint_fingerprints inputs -> race_inv s0 inputs s -> race_inv s0 inputs (run s sched).
Proof.
  intros Hd. revert s. induction sched as [|i sched IH]; intros s Hs; [done|].
  apply IH. by apply race_inv_step.
Qed.

Lemma race_inv_initial s inputs : initial s inputs -> race_inv s inputs s.
Proof.
  intros (Hg&Hh&Hi&_). split; [done|split; [|done]]. rewrite Hg.
  apply Forall2_fmap_r, Forall_Forall2_diag, Forall_forall. intros its _.
  exists []. split_ands; [done|done|]. intros fp _. symmetry. apply extend_group_nil.
Qed.

Lemma finished_rest s inputs s0 j its :
  race_inv s0 inputs s -> finished s -> inputs !! j = Some its ->
  forall fp, (exists it, it ∈ its /\ fingerprint_of it = fp) ->
    view s fp = extend_group (view s0 fp) (with_fp fp its).
Proof.
  intros (_&Hall&_) Hf Hj fp Hfp.
  destruct (Forall2_lookup_l _ _ _ _ _ Hall Hj) as (g&Hg&pre&Hits&_&Hv).
  unfold finished in Hf. rewrite Forall_lookup in Hf. specialize (Hf _ _ Hg). subst g.
  simpl in Hits. rewrite app_nil_r in Hits. subst pre. by apply Hv.
Qed.

(** With disjoint fingerprints, the iterators of one fingerprint all come from
    one goroutine. *)
Lemma with_fp_concat_disjoint inputs j its it :
  disjoint_fingerprints inputs -> inputs !! j = Some its -> it ∈ its ->
  with_fp (fingerprint_of it) (concat inputs) = with_fp (fingerprint_of it) its.
Proof.
  intros Hd Hj Hit. rewrite <- (take_drop_middle inputs j its Hj).
  unfold with_fp. rewrite concat_app. simpl. rewrite !filter_app.
  assert (forall l, (forall k jts, l !! k = Some jts -> exists k', k' <> j /\ inputs !! k' = Some jts) ->
    filter (fun jt => fingerprint_of jt = fingerprint_of it) (concat l) = []) as Hnil.
  { intros l Hl. apply filter_none, Forall_forall. intros jt Hjt.
    apply list_elem_of_In, in_concat in Hjt as (jts&Hjts&Hjt).
    apply list_elem_of_In, list_elem_of_lookup in Hjts as [k Hk].
    destruct (Hl k jts Hk) as (k'&Hne&Hk').
    eapply (Hd k' j jts its jt it); try done. by apply list_elem_of_In. }
  rewrite (Hnil (take j inputs)), (Hnil (drop (S j) inputs)), app_nil_r; [done|..].
  - intros k jts Hk. rewrite lookup_drop in Hk. exists (S j + k)%nat. split; [lia|done].
  - intros k jts Hk. apply lookup_take_Some in Hk as [Hk Hlt]. exists k. split; [lia|done].
Qed.

Lemma race_inv_no_crash s0 inputs s :
  race_inv s0 inputs s -> Forall (fun g => g <> GCrashed) (goroutines s).
Proof.
  intros (_&Hall&_). apply Forall_lookup. intros j g Hj ->.
  by destruct (Forall2_lookup_r _ _ _ _ _ Hall Hj) as (its&_&pre&_&[]&_).
Qed.

(** When all goroutines have finished, every entry is the sequential one. *)
Lemma race_inv_finished s0 inputs s fp :
  disjoint_fingerprints inputs -> race_inv s0 inputs s -> finished s ->
  view s fp = extend_group (view s0 fp) (with_fp fp (concat inputs)).
Proof.
  intros Hd Hinv Hf.
  destruct (decide (Exists (fun it => fingerprint_of it = fp) (concat inputs))) as [He|He].
  - apply Exists_exists in He as (it&Hit&<-).
    apply list_elem_of_In, in_concat in Hit as (its&Hits&Hit).
    apply list_elem_of_In in Hits, Hit. apply list_elem_of_lookup in Hits as [j Hj].
    erewrite with_fp_concat_disjoint by done.
    eapply finished_rest; [done|done|done|]. by exists it.
  - destruct Hinv as (_&_&Ho). rewrite Ho.
    + assert (with_fp fp (concat inputs) = []) as ->; [|by rewrite extend_group_nil].
      apply filter_none, Forall_forall. intros it Hit Heq. apply He, Exists_exists. eauto.
    + intros its it Hits Hit Heq. apply He, Exists_exists. exists it. split; [|done].
      apply list_elem_of_In, in_concat. exists its. by rewrite <- !list_elem_of_In.
Qed.

(** No lock is needed when the remotes share no fingerprint. Whatever the
    schedule of the goroutines, none dereferences a nil pointer, and when all
    have finished the entry of every fingerprint is the one the sequential
    execution (one goroutine after the other) gives. *)
Theorem race_disjoint_sequential s inputs sched :
  initial s inputs -> disjoint_fingerprints inputs ->
  Forall (fun g => g <> GCrashed) (goroutines (run s sched)) /\
  (finished (run s sched) -> forall fp,
    view (run s sched) fp = extend_group (view s fp) (with_fp fp (concat inputs))).
Proof.
  intros Hi Hd.
  pose proof (race_inv_run s inputs s sched Hd (race_inv_initial _ _ Hi)) as Hinv.
  split; [by eapply race_inv_no_crash|]. intros Hf fp. by apply race_inv_finished.
Qed.

(** ** Shared fingerprints: what survives any race *)

(** A list of remote iterators of [fp] that some remote really returned. *)
Definition genuine (inputs : list (list I)) (fp : Z) (its : list I) : Prop :=
  Forall (fun it => it ∈ concat inputs /\ fingerprint_of it = fp) its.

(** [owns p fp]: the cell [p] was allocated for [fp]. *)
Definition g_safe (s0 : race_state) (inputs : list (list I)) (mp : gmap Z nat)
    (owns : nat -> Z -> Prop) (g : goroutine) : Prop :=
  Forall (fun it => it ∈ concat inputs) (rest g) /\
  match g with
  | GLoop _ => True
  | GMissed it _ => fpToIt s0 !! fingerprint_of it = None
  | GFound it p _ => owns p (fingerprint_of it) /\ is_Some (mp !! fingerprint_of it)
  | GAddressed it p q _ =>
      (owns p (fingerprint_of it) /\ owns q (fingerprint_of it)) /\ is_Some (mp !! fingerprint_of it)
  | GAppended it q r _ =>
      (owns q (fingerprint_of it) /\ genuine inputs (fingerprint_of it) r /\ r <> []) /\
      is_Some (mp !! fingerprint_of it)
  | GCrashed => False
  end.

Record shared_safe (s0 : race_state) (inputs : list (list I))
    (mp : gmap Z nat) (hp : gmap nat (mergeIterator I)) (owns : nat -> Z -> Prop) : Prop := {
  safe_functional p fp fp' : owns p fp -> owns p fp' -> fp = fp';
  safe_cell p fp : owns p fp ->
    exists mit, hp !! p = Some mit /\ genuine inputs fp (remote mit);
  safe_map fp p : mp !! fp = Some p -> owns p fp;
  safe_start fp p : fpToIt s0 !! fp = Some p -> mp !! fp = Some p;
  safe_local p mit0 : heap s0 !! p = Some mit0 ->
    exists mit, hp !! p = Some mit /\ local mit = local mit0;
  safe_old p fp : owns p fp -> is_Some (heap s0 !! p) -> fpToIt s0 !! fp = Some p;
  safe_new p mit : heap s0 !! p = None -> hp !! p = Some mit -> local mit = None;
  safe_metric p mit : hp !! p = Some mit -> is_Some (local mit) \/ remote mit <> [];
  safe_dom fp : is_Some (mp !! fp) -> is_Some (fpToIt s0 !! fp) \/
    exists it, it ∈ concat inputs /\ fingerprint_of it = fp
}.

Lemma g_safe_mono s0 inputs mp mp' (owns owns' : nat -> Z -> Prop) g :
  (forall p fp, owns p fp -> owns' p fp) ->
  (forall fp, is_Some (mp !! fp) -> is_Some (mp' !! fp)) ->
  g_safe s0 inputs mp owns g -> g_safe s0 inputs mp' owns' g.
Proof. intros Ho Hm [Hr Hg]. split; [done|]. destruct g; naive_solver. Qed.

Lemma safe_missed s0 inputs mp hp (owns : nat -> Z -> Prop) it :
  let p := fresh (dom hp) in
  shared_safe s0 inputs mp hp owns -> it ∈ concat inputs -> fpToIt s0 !! fingerprint_of it = None ->
  shared_safe s0 inputs (<[fingerprint_of it := p]> mp) (<[p := mkMergeIterator None [it]]> hp)
    (fun p' fp => owns p' fp \/ p' = p /\ fp = fingerprint_of it).
Proof.
  pose proof (fresh_not_allocated hp) as Hf. intros p. fold p in Hf. clearbody p.
  intros [Hfun Hcell Hmap Hstart Hlocal Hold Hnew Hmet Hdom] Hit Hg.
  assert (forall fp, ~ owns p fp) as Hnp.
  { intros fp Ho. destruct (Hcell _ _ Ho) as (mit&Hm&_). congruence. }
  constructor.
  - intros p' fp fp' [Ho|[-> ->]] [Ho'|[? ->]]; subst; try done; [by eapply Hfun|..];
      by edestruct Hnp.
  - intros p' fp [Ho|[-> ->]].
    + rewrite lookup_insert_ne; [by apply Hcell|]. intros ->. by apply (Hnp fp).
    + exists (mkMergeIterator None [it]). rewrite lookup_insert_eq. split; [done|].
      apply Forall_singleton. done.
  - intros fp p'. rewrite lookup_insert. case_decide; [intros [= <-]; auto|].
    intros Hp. left. by apply Hmap.
  - intros fp p' Hp. rewrite lookup_insert_ne; [by apply Hstart|congruence].
  - intros p' mit0 Hm0. destruct (Hlocal _ _ Hm0) as (mit&Hm&Hl). exists mit.
    rewrite lookup_insert_ne; [done|]. congruence.
  - intros p' fp [Ho|[-> ->]] Hs; [by apply Hold|]. destruct Hs as [mit0 Hm0].
    destruct (Hlocal _ _ Hm0) as (mit&Hm&_). congruence.
  - intros p' mit Hn. rewrite lookup_insert. case_decide; [by intros [= <-]|by apply Hnew].
  - intros p' mit. rewrite lookup_insert. case_decide; [intros [= <-]; by right|by apply Hmet].
  - intros fp. rewrite lookup_insert. case_decide as Hfp; [|by apply Hdom]. intros _. right. by exists it.
Qed.

Lemma safe_appended s0 inputs mp hp (owns : nat -> Z -> Prop) it q r mit :
  shared_safe s0 inputs mp hp owns -> owns q (fingerprint_of it) ->
  genuine inputs (fingerprint_of it) r -> r <> [] -> hp !! q = Some mit ->
  shared_safe s0 inputs mp (<[q := mkMergeIterator (local mit) r]> hp) owns.
Proof.
  intros [Hfun Hcell Hmap Hstart Hlocal Hold Hnew Hmet Hdom] Hoq Hgen Hne Hm. constructor; try done.
  - intros p fp Ho. rewrite lookup_insert. case_decide as Hpq; [subst|by apply Hcell].
    eexists. split; [done|]. simpl. by rewrite (Hfun _ _ _ Ho Hoq).
  - intros p mit0 Hm0. destruct (Hlocal _ _ Hm0) as (mit'&Hm'&Hl). rewrite lookup_insert.
    case_decide as Hpq; [subst|by exists mit']. eexists. split; [done|]. simpl. congruence.
  - intros p mit' Hn. rewrite lookup_insert. case_decide as Hpq; [subst|by apply Hnew].
    intros [= <-]. simpl. by apply (Hnew p).
  - intros p mit'. rewrite lookup_insert. case_decide as Hpq; [|by apply Hmet]. intros [= <-]. by right.
Qed.

Lemma gstep_safe s0 inputs mp hp owns g mp' hp' g' :
  shared_safe s0 inputs mp hp owns -> g_safe s0 inputs mp owns g ->
  gstep mp hp g = Some (mp', hp', g') ->
  exists owns' : nat -> Z -> Prop, (forall p fp, owns p fp -> owns' p fp) /\
    (forall fp, is_Some (mp !! fp) -> is_Some (mp' !! fp)) /\
    shared_safe s0 inputs mp' hp' owns' /\ g_safe s0 inputs mp' owns' g'.
Proof.
  intros Hs [Hr Hg] Hstep. pose proof Hs as [_ Hcell Hmap Hstart _ _ _ _ _].
  destruct g as [[|it its]|it its|it p its|it p q its|it q r its|]; simpl in *; try done.
  - exists owns. destruct (mp !! fingerprint_of it) as [p|] eqn:Hp; injection Hstep as <- <- <-;
      split_ands; try done; (split; [done|]); simpl; [auto|].
    destruct (fpToIt s0 !! fingerprint_of it) as [p|] eqn:Hp0; [|done].
    apply Hstart in Hp0. congruence.
  - injection Hstep as <- <- <-. apply Forall_cons in Hr as [Hit Hits]. eexists. split_ands.
    3: by apply safe_missed.
    + by left.
    + intros fp Hfp. rewrite lookup_insert. case_decide; [by eexists|done].
    + by split.
  - destruct Hg as [Ho [q Hq]]. rewrite Hq in Hstep. injection Hstep as <- <- <-.
    exists owns. split_ands; try done. split; [done|]. simpl. rewrite Hq. auto.
  - destruct Hg as [[Hop Hoq] Hsome]. destruct (Hcell _ _ Hop) as (mit&Hm&Hgen).
    rewrite Hm in Hstep. injection Hstep as <- <- <-. exists owns. split_ands; try done.
    split; [done|]. simpl. split_ands; [done| |by destruct (remote mit)|done]. apply Forall_app. split; [done|].
    apply Forall_singleton. apply Forall_cons in Hr as [? _]. done.
  - destruct Hg as [(Hoq&Hgen&Hne) Hsome]. destruct (Hcell _ _ Hoq) as (mit&Hm&_).
    rewrite Hm in Hstep. injection Hstep as <- <- <-. apply Forall_cons in Hr as [_ Hits].
    exists owns. split_ands; try done. by eapply safe_appended.
Qed.

(** What a goroutine has merged is in the map. *)
Definition consumed (mp : gmap Z nat) (its : list I) (g : goroutine) : Prop :=
  exists pre, its = pre ++ rest g /\ Forall (fun it => is_Some (mp !! fingerprint_of it)) pre.

Lemma consumed_mono (mp mp' : gmap Z nat) its g :
  (forall fp, is_Some (mp !! fp) -> is_Some (mp' !! fp)) -> consumed mp its g -> consumed mp' its g.
Proof.
  intros Hm (pre&->&Hp). exists pre. split; [done|]. eapply Forall_impl; [exact Hp|]. intros it. apply Hm.
Qed.

Lemma gstep_consumed s0 inputs mp hp owns its g mp' hp' g' :
  g_safe s0 inputs mp owns g -> (forall fp, is_Some (mp !! fp) -> is_Some (mp' !! fp)) ->
  gstep mp hp g = Some (mp', hp', g') -> g' <> GCrashed -> consumed mp its g -> consumed mp' its g'.
Proof.
  intros [_ Hg] Hmono Hstep Hnc Hc. apply (consumed_mono mp mp') in Hc; [|done].
  destruct g as [[|it l]|it l|it p l|it p q l|it q r l|]; cbn [gstep] in Hstep; try done;
    repeat case_match; simplify_eq; try exact Hc; destruct Hc as (pre&->&Hp);
    exists (pre ++ [it]); rewrite <- app_assoc; (split; [done|]); apply Forall_app; (split; [done|]);
    apply Forall_singleton.
  - rewrite lookup_insert_eq. by eexists.
  - apply Hmono, Hg.
Qed.

Definition race_safe (s0 : race_state) (inputs : list (list I)) (s : race_state) : Prop :=
  exists owns, shared_safe s0 inputs (fpToIt s) (heap s) owns /\
    Forall (g_safe s0 inputs (fpToIt s) owns) (goroutines s) /\
    Forall2 (consumed (fpToIt s)) inputs (goroutines s).

Lemma race_safe_step s0 inputs s i :
  race_safe s0 inputs s -> race_safe s0 inputs (schedule_step s i).
Proof.
  intros (owns&Hs&Hg&Hc). unfold schedule_step.
  destruct (goroutines s !! i) as [g|] eqn:Hi; [|by exists owns].
  destruct (gstep _ _ _) as [[[mp hp] g']|] eqn:Hstep; [|by exists owns].
  pose proof (Forall_lookup_1 _ _ _ _ Hg Hi) as Hgi.
  destruct (gstep_safe _ _ _ _ _ _ _ _ _ Hs Hgi Hstep) as (owns'&Ho&Hm&Hs'&Hg').
  exists owns'. split; [done|]. simpl. split.
  - apply Forall_insert; [|done]. eapply Forall_impl; [exact Hg|]. intros h. by apply g_safe_mono.
  - destruct (Forall2_lookup_r _ _ _ _ _ Hc Hi) as (its&Hits&Hci). rewrite <- (list_insert_id inputs i its Hits).
    apply Forall2_insert; [|eapply gstep_consumed; [exact Hgi|done|exact Hstep| |done]; by intros ->; destruct Hg'].
    eapply Forall2_impl; [exact Hc|]. intros its' h. by apply consumed_mono.
Qed.

Lemma race_safe_run s0 inputs s sched :
  race_safe s0 inputs s -> race_safe s0 inputs (run s sched).
Proof.
  revert s. induction sched as [|i sched IH]; intros s Hs; [done|].
  apply IH. by apply race_safe_step.
Qed.

Lemma race_safe_initial s inputs : initial s inputs -> race_safe s inputs s.
Proof.
  intros (Hg&Hh&Hi&Hr). exists (fun p fp => fpToIt s !! fp = Some p). split; [|rewrite Hg; split].
  - constructor; try done.
    + intros p fp fp'. apply Hi.
    + intros p fp Hp. destruct (Hh _ _ Hp) as [mit Hm]. exists mit. split; [done|].
      rewrite (proj1 (Hr _ _ Hm)). constructor.
    + intros p mit0 Hm. by exists mit0.
    + intros p mit. congruence.
    + intros p mit Hm. left. apply (Hr _ _ Hm).
    + intros fp. by left.
  - apply Forall_fmap, Forall_forall. intros its Hits. split; [|done]. simpl.
    apply Forall_forall. intros it Hit. apply list_elem_of_In, in_concat. exists its.
    by rewrite <- !list_elem_of_In.
  - apply Forall2_fmap_r, Forall_Forall2_diag, Forall_forall. intros its _. by exists [].
Qed.

(** What survives any race. For every schedule of goroutines with arbitrary
    (also shared) fingerprints: no goroutine dereferences a nil pointer, every
    entry of the map leads to a merged iterator all of whose remote iterators
    some remote really returned, with the entry's fingerprint, and the local
    iterator of an entry present at the start is still there. *)
Theorem race_keeps_locals s inputs sched :
  initial s inputs ->
  Forall (fun g => g <> GCrashed) (goroutines (run s sched)) /\
  (forall fp, is_Some (fpToIt (run s sched) !! fp) -> is_Some (view (run s sched) fp)) /\
  (forall fp mit, view (run s sched) fp = Some mit -> genuine inputs fp (remote mit)) /\
  (forall fp mit0, view s fp = Some mit0 ->
    exists mit, view (run s sched) fp = Some mit /\ local mit = local mit0).
Proof.
  intros Hi. destruct (race_safe_run s inputs s sched (race_safe_initial _ _ Hi))
    as (owns&[Hfun Hcell Hmap Hstart Hlocal _ _ _ _]&Hg&_).
  unfold view. split_ands.
  - eapply Forall_impl; [exact Hg|]. by intros g [_ Hg'] ->.
  - intros fp [p Hp]. rewrite Hp. simpl. destruct (Hcell p fp (Hmap _ _ Hp)) as (mit&->&_).
    by eexists.
  - intros fp mit. destruct (fpToIt (run s sched) !! fp) as [p|] eqn:Hp; simpl; [|done].
    destruct (Hcell p fp (Hmap _ _ Hp)) as (mit'&->&Hgen). by intros [= <-].
  - intros fp mit0. destruct (fpToIt s !! fp) as [p|] eqn:Hp; simpl; [|done].
    intros Hm0. rewrite (Hstart _ _ Hp). simpl. by apply Hlocal.
Qed.

End race.

(** ** Shared fingerprints: a lost series *)

(** Two remotes return the same series, with different samples. *)
Definition clashing : list (list sampleStreamIterator) :=
  [[stream [pair 1 1]]; [stream [pair 2 2]]].

Definition racing : race_state := mkRace ∅ ∅ (GLoop <$> clashing).

Lemma racing_initial : initial racing clashing.
Proof. split_ands; done. Qed.

(** The race. When two remotes return a series with the same fingerprint
    there is a schedule (both goroutines look the fingerprint up before either
    stores) that finishes with only one of the two iterators in the map, where
    the sequential execution keeps both: the other remote's samples are
    missing from the answer, without an error. *)
Theorem race_loses_series :
  exists (s : race_state) inputs sched fp (mit mit' : mergeIterator sampleStreamIterator),
    initial s inputs /\ finished (run s sched) /\
    view (run s sched) fp = Some mit /\ length (remote mit) = 1%nat /\
    extend_group (view s fp) (with_fp fp (concat inputs)) = Some mit' /\
    length (remote mit') = 2%nat.
Proof.
  exists racing, clashing, [0; 1; 0; 1]%nat, (fingerprint_of (stream [])).
  eexists _, _. split_ands.
  - exact racing_initial.
  - vm_compute. repeat constructor.
  - vm_compute. reflexivity.
  - reflexivity.
  - vm_compute. reflexivity.
  - reflexivity.
Qed.

Lemma race_keeps_locals_witness :
  exists mit, view (run racing [0; 1; 0; 1]%nat) (fingerprint_of (stream [])) = Some mit /\
    genuine clashing (fingerprint_of (stream [])) (remote mit).
Proof.
  destruct (race_keeps_locals racing clashing [0; 1; 0; 1]%nat racing_initial)
    as (_&_&Hgen&_).
  eexists. split; [vm_compute; reflexivity|]. apply Hgen. vm_compute. reflexivity.
Defined.

(** Two remotes with different metrics, interleaved step by step. *)
Definition other_stream (l : list SamplePair) : sampleStreamIterator :=
  mkSampleStreamIterator (mkSampleStream {[MetricNameLabel := "other"%string]} l).

Lemma race_disjoint_sequential_witness :
  let inputs := [[stream [pair 1 1]]; [other_stream [pair 2 2]]] in
  let s := mkRace ∅ ∅ (GLoop <$> inputs) in
  view (run s [0; 1; 0; 1]%nat) (fingerprint_of (stream [])) =
    Some (mkMergeIterator None [stream [pair 1 1]]).
Proof.
  intros inputs s.
  destruct (race_disjoint_sequential s inputs [0; 1; 0; 1]%nat) as [_ Hseq].
  - split_ands; done.
  - intros i j its jts it jt Hne Hi Hj Hit Hjt.
    destruct i as [|[|i]], j as [|[|j]]; simplify_eq/=;
      apply list_elem_of_singleton in Hit, Hjt; subst; vm_compute; discriminate.
  - rewrite Hseq; [vm_compute; reflexivity|]. vm_compute. repeat constructor.
Defined.
