(* ===== verification/FaninQuery.v ===== *)
(** * The query of the fan-in ([storage/fanin/fanin.go], [querier.query])

    [query] puts the local iterators in the map, starts a goroutine per remote
    and waits for all of them; the goroutines merge what their remotes return
    into the map, which they share without a lock (FaninRace.v). Here is the
    whole function, for every interleaving of the accesses to the map: which
    groups it returns, and for which fingerprints they are complete. *)
From S2P Require Import Prelude Model MetricPkg Iterator Fanin FaninRace.

Open Scope Z_scope.

Section query.
Context {I : Type} `{SeriesIterator I}.

(** The loop over the local iterators: an entry of the map is a new cell. *)
Fixpoint alloc_locals (mp : gmap Z nat) (hp : gmap nat (mergeIterator I)) (its : list I)
    : gmap Z nat * gmap nat (mergeIterator I) :=
  match its with
  | [] => (mp, hp)
  | it :: its =>
      let p := fresh (dom hp) in
      alloc_locals (<[fingerprint_of it := p]> mp) (<[p := mkMergeIterator (Some it) []]> hp) its
  end.

(** The goroutines as [query] starts them: goroutine [i] merges [inputs !! i]. *)
Definition race_start (localIts : list I) (inputs : list (list I)) : race_state :=
  let '(mp, hp) := alloc_locals ∅ ∅ localIts in mkRace mp hp (GLoop <$> inputs).

(** The goroutines of [order] one after the other; a goroutine takes at most four
    steps for an iterator. *)
Definition turns (inputs : list (list I)) (order : list nat) : list nat :=
  concat ((fun i => replicate (4 * length (default [] (inputs !! i))) i) <$> order).

(** [wg.Wait()]: after the steps of [sched] the goroutines run to their end, so
    that [sched] is how they interleave as long as they do. *)
Definition query_end (localIts : list I) (inputs : list (list I)) (sched : list nat) : race_state :=
  run (race_start localIts inputs) (sched ++ turns inputs (seq 0 (length inputs))).

(** The map of values, through the pointers. *)
Definition race_map (s : race_state) : gmap Z (mergeIterator I) :=
  omap (fun p => heap s !! p) (fpToIt s).

Context {Q : Type}.

(** [query]; [sched] is the interleaving of the goroutines. The result ranges
    over the map: the iterators returned are those of the local storage ([inl])
    or merged ones ([inr]). The errors of the remotes are dropped. *)
Definition query (q : querier Q) (ctx : Context) (qFn : Q -> list I * option error) (sched : list nat)
    : list (I + mergeIterator I) * option error :=
  match qFn (qlocal q) with
  | (_, Some err) => ([], Some err)
  | (localIts, None) =>
      if bool_decide (qremotes q = []) || localOnly ctx then (inl <$> localIts, None)
      else
        let inputs := (fun r => (qFn r).1) <$> qremotes q in
        ((fun kv => inr kv.2) <$> map_to_list (race_map (query_end localIts inputs sched)), None)
  end.

End query.

(** ** The start *)

Section query_proofs.
Context {I : Type} `{SeriesIterator I}.
Implicit Types (s : race_state (I := I)) (inputs : list (list I)) (its : list I) (g : goroutine (I := I)).

Lemma race_map_lookup s fp : race_map s !! fp = view s fp.
Proof. unfold race_map, view. by rewrite lookup_omap. Qed.

Lemma alloc_locals_spec its : forall mp hp m,
  (forall fp p, mp !! fp = Some p -> is_Some (hp !! p)) ->
  (forall fp fp' p, mp !! fp = Some p -> mp !! fp' = Some p -> fp = fp') ->
  (forall p mit, hp !! p = Some mit -> remote mit = [] /\ is_Some (local mit)) ->
  (forall fp, mp !! fp ≫= (fun p => hp !! p) = m !! fp) ->
  let r := alloc_locals mp hp its in
  (forall fp p, r.1 !! fp = Some p -> is_Some (r.2 !! p)) /\
  (forall fp fp' p, r.1 !! fp = Some p -> r.1 !! fp' = Some p -> fp = fp') /\
  (forall p mit, r.2 !! p = Some mit -> remote mit = [] /\ is_Some (local mit)) /\
  (forall fp, r.1 !! fp ≫= (fun p => r.2 !! p) = addLocals m its !! fp).
Proof.
  induction its as [|it its IH]; intros mp hp m Ha Hi Hr Hv; [done|]. cbn [alloc_locals addLocals].
  pose proof (fresh_not_allocated hp) as Hf. set (p := fresh (dom hp)) in *. clearbody p.
  assert (forall fp, mp !! fp <> Some p) as Hnp.
  { intros fp Hfp. destruct (Ha _ _ Hfp). congruence. }
  apply IH.
  - intros fp q. rewrite lookup_insert. case_decide; [intros [= <-]; by rewrite lookup_insert_eq|].
    intros Hq. rewrite lookup_insert_ne; [by eapply Ha|]. intros ->. by apply (Hnp fp).
  - intros fp fp' q. rewrite !lookup_insert. repeat case_decide; intros Hq Hq'; [congruence| | |by eapply Hi].
    + injection Hq as <-. by apply Hnp in Hq'.
    + injection Hq' as <-. by apply Hnp in Hq.
  - intros q mit. rewrite lookup_insert. case_decide; [by intros [= <-]|by apply Hr].
  - intros fp. rewrite !lookup_insert. case_decide; simpl; [by rewrite lookup_insert_eq|].
    rewrite <- Hv. destruct (mp !! fp) as [q|] eqn:Hq; simpl; [|done].
    rewrite lookup_insert_ne; [done|]. intros ->. by apply (Hnp fp).
Qed.

Lemma race_start_spec localIts inputs :
  initial (race_start localIts inputs) inputs /\
  forall fp, view (race_start localIts inputs) fp =
    (fun it => mkMergeIterator (Some it) []) <$> last (with_fp fp localIts).
Proof.
  unfold race_start. destruct (alloc_locals_spec localIts ∅ ∅ ∅) as (Ha&Hi&Hr&Hv); try done.
  destruct (alloc_locals ∅ ∅ localIts) as [mp hp]. cbn [fst snd] in *. split; [by split_ands|].
  intros fp. unfold view. cbn [fpToIt heap]. etransitivity; [apply Hv|]. rewrite addLocals_lookup.
  by destruct (last _).
Qed.

Lemma run_app s l k : run s (l ++ k) = run (run s l) k.
Proof. apply foldl_app. Qed.

(** ** Every goroutine ends *)

Definition merge_cost g : nat :=
  match g with
  | GLoop its => 4 * length its
  | GMissed _ its | GAppended _ _ _ its => 4 * length its + 1
  | GAddressed _ _ _ its => 4 * length its + 2
  | GFound _ _ its => 4 * length its + 3
  | GCrashed => 0
  end.

Lemma gstep_cost mp hp g mp' hp' g' :
  gstep mp hp g = Some (mp', hp', g') -> (merge_cost g' < merge_cost g)%nat.
Proof. unfold gstep. repeat case_match; intros; simplify_eq/=; lia. Qed.

Lemma merge_cost_rest g : (merge_cost g <= 4 * length (rest g))%nat.
Proof. destruct g; simpl; lia. Qed.

(** A goroutine that has not crashed and is not at its end makes a step. *)
Lemma gstep_progress mp hp g :
  g <> GCrashed -> g = GLoop [] \/ exists r, gstep mp hp g = Some r.
Proof.
  intros Hc. destruct g as [[|it its]|it its|it p its|it p q its|it q r its|]; try done; [by left|..];
    right; cbn [gstep]; try case_match; by eexists.
Qed.

Lemma schedule_step_other s i k : i <> k -> goroutines (schedule_step s i) !! k = goroutines s !! k.
Proof.
  intros Hne. unfold schedule_step. destruct (goroutines s !! i); [|done].
  destruct (gstep _ _ _) as [[[mp hp] g']|]; [|done]. simpl. by rewrite list_lookup_insert_ne.
Qed.

Lemma run_other s i k n : i <> k -> goroutines (run s (replicate n i)) !! k = goroutines s !! k.
Proof.
  intros Hne. revert s. induction n as [|n IH]; intros s; [done|]. cbn [replicate].
  change (run s (i :: replicate n i)) with (run (schedule_step s i) (replicate n i)).
  by rewrite IH, schedule_step_other.
Qed.

Lemma safe_not_crashed s0 inputs s i g : race_safe s0 inputs s -> goroutines s !! i = Some g -> g <> GCrashed.
Proof. intros (owns&_&Hsafe&_) Hg ->. by destruct (Forall_lookup_1 _ _ _ _ Hsafe Hg) as [_ []]. Qed.

Lemma run_to_end s0 inputs i n : forall s g,
  race_safe s0 inputs s -> goroutines s !! i = Some g -> (merge_cost g <= n)%nat ->
  goroutines (run s (replicate n i)) !! i = Some (GLoop []).
Proof.
  induction n as [|n IH]; intros s g Hs Hg Hle.
  - destruct g as [[|it its]|it its|it p its|it p q its|it q r its|]; simpl in Hle; try lia; [done|].
    by destruct (safe_not_crashed _ _ _ _ _ Hs Hg).
  - cbn [replicate]. change (run s (i :: replicate n i)) with (run (schedule_step s i) (replicate n i)).
    pose proof (race_safe_step s0 inputs s i Hs) as Hs'. destruct (gstep_progress (fpToIt s) (heap s) g) as [->|[r Hr]].
    + exact (safe_not_crashed _ _ _ _ _ Hs Hg).
    + assert (schedule_step s i = s) as Hsame by (unfold schedule_step; by rewrite Hg).
      rewrite Hsame. apply (IH s (GLoop [])); [done|done|simpl; lia].
    + destruct r as [[mp hp] g']. pose proof (gstep_cost _ _ _ _ _ _ Hr) as Hlt.
      apply (IH _ g'); [done| |lia]. unfold schedule_step. rewrite Hg, Hr. simpl.
      apply list_lookup_insert_eq. by eapply lookup_lt_Some.
Qed.

Lemma turns_cons inputs i order :
  turns inputs (i :: order) = replicate (4 * length (default [] (inputs !! i))) i ++ turns inputs order.
Proof. done. Qed.

(** After their turns the goroutines of [order] are at their end. *)
Lemma run_turns s0 inputs order : forall s,
  race_safe s0 inputs s ->
  (forall i g, goroutines s !! i = Some g -> i ∉ order -> g = GLoop []) ->
  finished (run s (turns inputs order)).
Proof.
  induction order as [|i order IH]; intros s Hs Hout.
  { apply Forall_lookup. intros i g Hg. apply (Hout i g Hg). set_solver. }
  rewrite turns_cons, run_app. apply IH; [by apply race_safe_run|].
  intros k g Hg Hk. destruct (decide (i = k)) as [<-|Hne].
  - destruct (goroutines s !! i) as [g0|] eqn:Hg0.
    + destruct Hs as (owns&Hsh&Hsafe&Hc). destruct (Forall2_lookup_r _ _ _ _ _ Hc Hg0) as (its&Hits&pre&->&_).
      rewrite (run_to_end s0 inputs i _ s g0) in Hg; [by injection Hg as <-|by exists owns|done|].
      rewrite Hits. simpl default. rewrite length_app. pose proof (merge_cost_rest g0). lia.
    + apply lookup_ge_None in Hg0. apply lookup_lt_Some in Hg. exfalso.
      assert (forall n s, length (goroutines (run s (replicate n i))) = length (goroutines s)) as Hlen.
      { intros n. induction n as [|n IHn]; intros s'; [done|]. cbn [replicate].
        change (run s' (i :: replicate n i)) with (run (schedule_step s' i) (replicate n i)). rewrite IHn.
        unfold schedule_step. destruct (goroutines s' !! i); [|done].
        destruct (gstep _ _ _) as [[[? ?] ?]|]; [|done]. simpl. apply length_insert. }
      rewrite Hlen in Hg. lia.
  - rewrite run_other in Hg by done. apply (Hout k g Hg). set_solver.
Qed.

Lemma query_end_finished localIts inputs sched :
  race_safe (race_start localIts inputs) inputs (query_end localIts inputs sched) /\
  finished (query_end localIts inputs sched).
Proof.
  destruct (race_start_spec localIts inputs) as [Hi _].
  assert (race_safe (race_start localIts inputs) inputs (run (race_start localIts inputs) sched)) as Hs
    by by apply race_safe_run, race_safe_initial.
  unfold query_end. rewrite run_app. split; [by apply race_safe_run|].
  eapply run_turns; [exact Hs|]. intros i g Hg Hn. exfalso. apply Hn, elem_of_seq. split; [lia|].
  destruct Hs as (owns&_&_&Hc). apply lookup_lt_Some in Hg. rewrite (Forall2_length _ _ _ Hc). lia.
Qed.

(** ** A fingerprint of one goroutine *)

(** Only one goroutine merges iterators with the fingerprint [fp]. *)
Definition from_one inputs (fp : Z) : Prop :=
  forall i j its jts it jt, inputs !! i = Some its -> inputs !! j = Some jts ->
    it ∈ its -> jt ∈ jts -> fingerprint_of it = fp -> fingerprint_of jt = fp -> i = j.

Lemma shared_safe_heap_inv s0 inputs s owns :
  shared_safe s0 inputs (fpToIt s) (heap s) owns -> heap_inv s.
Proof.
  intros [Hfun Hcell Hmap _ _ _ _ _ _]. split.
  - intros fp p Hp. destruct (Hcell p fp (Hmap _ _ Hp)) as (mit&->&_). by eexists.
  - intros fp fp' p Hp Hp'. by apply (Hfun p); apply Hmap.
Qed.

(** A step for another fingerprint leaves the entry of [fp] alone. *)
Lemma gstep_agree s0 inputs s owns g mp hp g' gs fp :
  shared_safe s0 inputs (fpToIt s) (heap s) owns -> g_safe s0 inputs (fpToIt s) owns g ->
  gstep (fpToIt s) (heap s) g = Some (mp, hp, g') ->
  (forall it, head (rest g) = Some it -> fingerprint_of it <> fp) -> agree s (mkRace mp hp gs) fp.
Proof.
  intros [Hfun Hcell Hmap _ _ _ _ _ _] [_ Hg] Hstep Hne.
  destruct g as [[|it its]|it its|it p its|it p q its|it q r its|]; cbn [gstep] in Hstep; try done;
    specialize (Hne it eq_refl).
  - case_match; simplify_eq; done.
  - simplify_eq. pose proof (fresh_not_allocated (heap s)) as Hf. split; simpl.
    + by rewrite lookup_insert_ne.
    + intros p Hp. rewrite lookup_insert_ne; [done|]. intros <-.
      destruct (Hcell _ _ (Hmap _ _ Hp)) as (mit&Hm&_). congruence.
  - case_match; simplify_eq; done.
  - case_match; simplify_eq; done.
  - destruct (heap s !! q) as [mit|] eqn:Hm; simplify_eq; [|done]. split; [done|]. simpl. intros p Hp.
    rewrite lookup_insert_ne; [done|]. intros <-. apply Hne. destruct Hg as [[Ho _] _].
    by apply (Hfun q); [|apply Hmap].
Qed.

(** What is left to merge after a step. *)
Lemma gstep_rest mp hp g mp' hp' g' :
  gstep mp hp g = Some (mp', hp', g') -> g' <> GCrashed ->
  (head (rest g') = head (rest g) /\ rest g' = rest g) \/ exists it l, rest g = it :: l /\ g' = GLoop l.
Proof.
  intros Hs Hc. destruct g as [[|it its]|it its|it p its|it p q its|it q r its|]; cbn [gstep] in Hs; try done;
    repeat case_match; simplify_eq; try (by left); right; by eexists _, _.
Qed.

(** The invariant of a fingerprint that only goroutine [j] merges. *)
Definition one_inv s0 inputs fp j s : Prop :=
  race_safe s0 inputs s /\
  (forall k g, k <> j -> goroutines s !! k = Some g -> Forall (fun it => fingerprint_of it <> fp) (rest g)) /\
  exists its g pre, inputs !! j = Some its /\ goroutines s !! j = Some g /\ its = pre ++ rest g /\
    (forall it, head (rest g) = Some it -> fingerprint_of it = fp -> g_inv s g) /\
    view s fp = extend_group (view s0 fp) (with_fp fp pre).

(** Another goroutine makes a step. *)
Lemma one_inv_other s0 inputs fp j s i :
  i <> j -> one_inv s0 inputs fp j s -> one_inv s0 inputs fp j (schedule_step s i).
Proof.
  intros Hij (Hs&Hout&its&gj&pre&Hits&Hgj&Heq&Hinv&Hv). pose proof (race_safe_step _ _ _ i Hs) as Hs'.
  split; [done|]. unfold schedule_step in *. destruct (goroutines s !! i) as [g|] eqn:Hg; [|by split; [|exists its, gj, pre]].
  destruct (gstep _ _ _) as [[[mp hp] g']|] eqn:Hst; [|by split; [|exists its, gj, pre]].
  pose proof Hs as (owns&Hsh&Hsafe&_). pose proof (Forall_lookup_1 _ _ _ _ Hsafe Hg) as Hgs.
  pose proof (Hout i g Hij Hg) as Hnone.
  assert (agree s (mkRace mp hp (<[i:=g']> (goroutines s))) fp) as Ha.
  { eapply gstep_agree; [done|done|exact Hst|]. intros it Hh. destruct (rest g); [done|]. injection Hh as ->.
    by apply Forall_cons in Hnone as [? _]. }
  split.
  - intros k h Hk Hkh. cbn [goroutines] in Hkh. destruct (decide (i = k)) as [<-|Hne].
    + rewrite list_lookup_insert_eq in Hkh by by eapply lookup_lt_Some. injection Hkh as <-.
      assert (g' <> GCrashed) as Hc
        by (apply (safe_not_crashed _ _ _ i _ Hs'), list_lookup_insert_eq; by eapply lookup_lt_Some).
      destruct (gstep_rest _ _ _ _ _ _ Hst Hc) as [[_ ->]|(it&l&Hr&->)]; [done|]. rewrite Hr in Hnone.
      by apply Forall_cons in Hnone as [_ ?].
    + rewrite list_lookup_insert_ne in Hkh by done. by apply (Hout k).
  - exists its, gj, pre. cbn [goroutines]. rewrite list_lookup_insert_ne by done. split_ands; try done.
    + intros it Hh Hfp. eapply agree_g_inv; [|by apply (Hinv it)]. intros it' Hh'. rewrite Hh in Hh'.
      injection Hh' as <-. by rewrite Hfp.
    + by rewrite (agree_view _ _ _ Ha).
Qed.

(** Goroutine [j] makes a step. *)
Lemma one_inv_self s0 inputs fp j s :
  one_inv s0 inputs fp j s -> one_inv s0 inputs fp j (schedule_step s j).
Proof.
  intros (Hs&Hout&its&g&pre&Hits&Hg&Heq&Hinv&Hv). pose proof (race_safe_step _ _ _ j Hs) as Hs'.
  split; [done|]. unfold schedule_step in *. rewrite Hg in *.
  destruct (gstep _ _ _) as [[[mp hp] g']|] eqn:Hst; [|by split; [|exists its, g, pre]].
  split; [intros k h Hk Hkh; cbn [goroutines] in Hkh; rewrite list_lookup_insert_ne in Hkh by done; by apply (Hout k)|].
  assert (<[j:=g']> (goroutines s) !! j = Some g') as Hg'
    by (apply list_lookup_insert_eq; by eapply lookup_lt_Some).
  pose proof Hs as (owns&Hsh&Hsafe&_). pose proof (Forall_lookup_1 _ _ _ _ Hsafe Hg) as Hgs.
  pose proof (safe_not_crashed _ _ _ _ _ Hs' Hg') as Hc.
  destruct (rest g) as [|it l] eqn:Hr; [by destruct g as [its0|? ?|? ? ?|? ? ? ?|? ? ? ?|]; simpl in Hr; subst|].
  destruct (decide (fingerprint_of it = fp)) as [Hfp|Hfp].
  - destruct (gstep_spec s g mp hp g' (<[j:=g']> (goroutines s)) (shared_safe_heap_inv _ _ _ _ Hsh)
      (Hinv it eq_refl Hfp) Hst) as (it'&Hh&_&Hg1&_&Hcase).
    rewrite Hr in Hh. injection Hh as <-. rewrite Hfp in Hcase. destruct Hcase as [[Hrest Hvi]|[Hrest Hvi]].
    + exists its, g', pre. split_ands; [done|done|by rewrite Hrest, Hr|done|by rewrite Hvi].
    + exists its, g', (pre ++ [it]). rewrite Hr in Hrest. injection Hrest as ->.
      split_ands; [done|done|by rewrite <- app_assoc|done|].
      by rewrite with_fp_snoc, decide_True, <- extend_group_app, <- Hv by done.
  - assert (agree s (mkRace mp hp (<[j:=g']> (goroutines s))) fp) as Ha.
    { eapply gstep_agree; [done|done|exact Hst|]. rewrite Hr. by intros ? [= <-]. }
    destruct (gstep_rest _ _ _ _ _ _ Hst Hc) as [[Hh' Hrest]|(it'&l'&Hrest&->)].
    + exists its, g', pre. rewrite Hr in Hrest, Hh'. split_ands; [done|done|by rewrite Hrest| |].
      * rewrite Hh'. by intros ? [= <-].
      * by rewrite (agree_view _ _ _ Ha).
    + exists its, (GLoop l'), (pre ++ [it]). rewrite Hr in Hrest. injection Hrest as <- <-.
      split_ands; [done|done|by rewrite <- app_assoc|done|].
      by rewrite (agree_view _ _ _ Ha), with_fp_snoc, decide_False, app_nil_r by done.
Qed.

Lemma one_inv_run s0 inputs fp j sched : forall s, one_inv s0 inputs fp j s -> one_inv s0 inputs fp j (run s sched).
Proof.
  induction sched as [|i sched IH]; intros s Hs; [done|]. apply IH.
  destruct (decide (i = j)) as [->|]; [by apply one_inv_self|by apply one_inv_other].
Qed.

Lemma with_fp_none fp its : Forall (fun it => fingerprint_of it <> fp) its -> with_fp fp its = [].
Proof. intros Hn. apply filter_none. done. Qed.

Lemma concat_elem_of {A} (ll : list (list A)) x : x ∈ concat ll <-> exists i l, ll !! i = Some l /\ x ∈ l.
Proof.
  rewrite list_elem_of_In, in_concat. setoid_rewrite <- list_elem_of_In. split.
  - intros (l&[i Hi]%list_elem_of_lookup&Hx). by exists i, l.
  - intros (i&l&Hi&Hx). exists l. split; [by eapply list_elem_of_lookup_2|done].
Qed.

(** With only one goroutine for [fp], all its iterators are those of one input. *)
Lemma with_fp_from_one inputs fp j its :
  from_one inputs fp -> inputs !! j = Some its -> (exists it, it ∈ its /\ fingerprint_of it = fp) ->
  with_fp fp (concat inputs) = with_fp fp its.
Proof.
  intros Hone Hj (it&Hit&Hfp). rewrite <- (take_drop_middle inputs j its Hj). unfold with_fp.
  rewrite concat_app. cbn [concat]. rewrite !filter_app.
  assert (forall ll : list (list I), (forall k l, ll !! k = Some l -> exists k', k' <> j /\ inputs !! k' = Some l) ->
    filter (fun jt => fingerprint_of jt = fp) (concat ll) = []) as Hnil.
  { intros ll Hll. apply with_fp_none, Forall_forall. intros jt (k&l&Hk&Hjt)%concat_elem_of Hjfp.
    destruct (Hll k l Hk) as (k'&Hne&Hk'). by apply Hne, (Hone k' j l its jt it). }
  rewrite (Hnil (take j inputs)), (Hnil (drop (S j) inputs)), app_nil_r; [done|..].
  - intros k l Hk. rewrite lookup_drop in Hk. exists (S j + k)%nat. split; [lia|done].
  - intros k l Hk. apply lookup_take_Some in Hk as [Hk Hlt]. exists k. split; [lia|done].
Qed.

(** Whatever the other goroutines do, the entry is the sequential one. *)
Lemma from_one_view s0 inputs fp sched :
  initial s0 inputs -> from_one inputs fp -> (exists it, it ∈ concat inputs /\ fingerprint_of it = fp) ->
  finished (run s0 sched) ->
  view (run s0 sched) fp = extend_group (view s0 fp) (with_fp fp (concat inputs)).
Proof.
  intros Hi Hone (it&(j&its&Hj&Hit)%concat_elem_of&Hfp) Hf.
  assert (one_inv s0 inputs fp j s0) as H0'.
  { split; [by apply race_safe_initial|]. destruct Hi as (Hg&_). rewrite Hg. split.
    - intros k g Hk. rewrite list_lookup_fmap. intros (jts&Hjts&->)%fmap_Some. apply Forall_forall.
      intros jt Hjt Hjfp. by apply Hk, (Hone k j jts its jt it).
    - exists its, (GLoop its), []. rewrite list_lookup_fmap, Hj. split_ands; [done..|].
      symmetry. apply extend_group_nil. }
  destruct (one_inv_run _ _ _ _ sched _ H0') as (_&_&its'&g&pre&Hits&Hg&Heq&_&Hv).
  rewrite Hits in Hj. injection Hj as ->. pose proof (Forall_lookup_1 _ _ _ _ Hf Hg) as ->.
  rewrite app_nil_r in Heq. subst pre. by rewrite Hv, (with_fp_from_one inputs fp j its) by eauto.
Qed.

(** ** One goroutine after the other *)

(** A goroutine alone: what it has left is merged in order. *)
Lemma run_loop_alone i n : forall s g,
  heap_inv s -> g_inv s g -> goroutines s !! i = Some g -> (merge_cost g <= n)%nat ->
  let s' := run s (replicate n i) in
  heap_inv s' /\ goroutines s' = <[i := GLoop []]> (goroutines s) /\
  forall fp, view s' fp = extend_group (view s fp) (with_fp fp (rest g)).
Proof.
  assert (forall s g, heap_inv s -> goroutines s !! i = Some g -> g = GLoop [] ->
    heap_inv s /\ goroutines s = <[i := GLoop []]> (goroutines s) /\
    forall fp, view s fp = extend_group (view s fp) (with_fp fp (rest g))) as Hend.
  { intros s g Hh Hg ->. split_ands; [done|by rewrite list_insert_id|]. intros fp. symmetry. apply extend_group_nil. }
  induction n as [|n IH]; intros s g Hh Hgi Hg Hle.
  - destruct g as [[|it its]|it its|it p its|it p q its|it q r its|]; simpl in Hle; try lia; [|done].
    by apply (Hend s (GLoop [])).
  - cbn [replicate]. change (run s (i :: replicate n i)) with (run (schedule_step s i) (replicate n i)).
    destruct (gstep_progress (fpToIt s) (heap s) g) as [->|[[[mp hp] g'] Hst]]; [by intros ->| |].
    + assert (schedule_step s i = s) as -> by (unfold schedule_step; by rewrite Hg).
      apply (IH s (GLoop [])); [done..|simpl; lia].
    + pose proof (gstep_cost _ _ _ _ _ _ Hst) as Hlt.
      destruct (gstep_spec s g mp hp g' (<[i:=g']> (goroutines s)) Hh Hgi Hst) as (it&Hit&Hh'&Hg'&Ha&Hcase).
      assert (schedule_step s i = mkRace mp hp (<[i:=g']> (goroutines s))) as ->
        by (unfold schedule_step; by rewrite Hg, Hst).
      set (s1 := mkRace mp hp (<[i:=g']> (goroutines s))) in *.
      destruct (IH s1 g' Hh' Hg') as (Hh2&Hgs2&Hv2); [by apply list_lookup_insert_eq; eapply lookup_lt_Some|lia|].
      split_ands; [done|rewrite Hgs2; apply list_insert_insert_eq|]. intros fp. rewrite Hv2.
      destruct Hcase as [[Hr Hvi]|[Hr Hvi]]; rewrite Hr; destruct (decide (fp = fingerprint_of it)) as [->|Hne].
      * by rewrite Hvi.
      * by rewrite (agree_view _ _ _ (Ha fp Hne)).
      * rewrite Hvi, extend_group_app. f_equal. unfold with_fp. by rewrite filter_cons, decide_True.
      * rewrite (agree_view _ _ _ (Ha fp Hne)). f_equal. unfold with_fp. by rewrite filter_cons, decide_False.
Qed.

Lemma run_order inputs order : forall s,
  NoDup order -> heap_inv s -> (forall i, i ∈ order -> exists its, inputs !! i = Some its /\ goroutines s !! i = Some (GLoop its)) ->
  forall fp, view (run s (turns inputs order)) fp =
    extend_group (view s fp) (with_fp fp (concat (omap (fun i => inputs !! i) order))).
Proof.
  induction order as [|i order IH]; intros s Hnd Hh Hall fp; [symmetry; apply extend_group_nil|].
  apply NoDup_cons in Hnd as [Hni Hnd]. destruct (Hall i ltac:(left)) as (its&Hits&Hg).
  rewrite turns_cons, run_app, Hits. cbn [default from_option id].
  destruct (run_loop_alone i (4 * length its) s (GLoop its) Hh Logic.I Hg) as (Hh'&Hgs&Hv); [simpl; lia|].
  rewrite IH; [|done|done|].
  - rewrite Hv, extend_group_app. cbn [omap list_omap]. rewrite Hits. cbn [concat rest]. unfold with_fp.
    by rewrite filter_app.
  - intros k Hk. rewrite Hgs, list_lookup_insert_ne by (intros ->; done). apply Hall. by right.
Qed.

Lemma run_finished s sched : finished s -> run s sched = s.
Proof.
  intros Hf. revert s Hf. induction sched as [|i sched IH]; intros s Hf; [done|].
  change (run s (i :: sched)) with (run (schedule_step s i) sched).
  assert (schedule_step s i = s) as ->; [|by apply IH]. unfold schedule_step.
  destruct (goroutines s !! i) as [g|] eqn:Hg; [|done]. by rewrite (Forall_lookup_1 _ _ _ _ Hf Hg).
Qed.

Lemma omap_lookup_seq {A} (l : list A) : omap (fun i => l !! i) (seq 0 (length l)) = l.
Proof.
  induction l as [|x l IH] using rev_ind; [done|].
  rewrite length_app, Nat.add_1_r, seq_S, omap_app. f_equal.
  - rewrite <- IH at 2. apply list_omap_ext, Forall_Forall2_diag, Forall_forall.
    intros i [_ Hi]%elem_of_seq. apply lookup_app_l. lia.
  - cbn [omap list_omap plus]. by rewrite list_lookup_middle.
Qed.

(** ** What the query returns *)

(** The interleavings and the fingerprints for which nothing is lost: only one
    goroutine merges the fingerprint, or the goroutines follow each other. *)
Definition unraced inputs (sched : list nat) (fp : Z) : Prop :=
  from_one inputs fp \/ exists order, order ≡ₚ seq 0 (length inputs) /\ sched = turns inputs order.

Lemma query_end_unraced localIts inputs sched fp :
  unraced inputs sched fp -> (exists it, it ∈ concat inputs /\ fingerprint_of it = fp) ->
  exists l, l ≡ₚ with_fp fp (concat inputs) /\
    view (query_end localIts inputs sched) fp = extend_group (view (race_start localIts inputs) fp) l.
Proof.
  destruct (race_start_spec localIts inputs) as [Hi _]. destruct (query_end_finished localIts inputs sched) as [_ Hf].
  intros [Hone|(order&Horder&->)] Hit.
  { exists (with_fp fp (concat inputs)). split; [done|]. by apply from_one_view. }
  unfold query_end in *. rewrite run_app in *.
  pose proof (run_order inputs order (race_start localIts inputs)) as Hrun.
  exists (with_fp fp (concat (omap (fun i => inputs !! i) order))). split.
  - apply with_fp_Permutation. rewrite Horder. by rewrite omap_lookup_seq.
  - rewrite run_finished; [apply Hrun|].
    + rewrite Horder. apply NoDup_seq.
    + by destruct Hi as (_&Ha&Hinj&_).
    + intros i. rewrite Horder, elem_of_seq. intros [_ Hlt]. destruct (lookup_lt_is_Some_2 inputs i) as [its Hits]; [lia|].
      exists its. split; [done|]. destruct Hi as (->&_). by rewrite list_lookup_fmap, Hits.
    + eapply run_turns; [by apply race_safe_initial|]. intros i g Hg Hn. exfalso. apply Hn.
      destruct Hi as (Hgs&_). rewrite Hgs in Hg. apply lookup_lt_Some in Hg. rewrite length_fmap in Hg.
      rewrite Horder, elem_of_seq. lia.
Qed.

(** The groups at the end of any interleaving. *)
Record query_groups localIts inputs (sched : list nat) (m : gmap Z (mergeIterator I)) : Prop := {
  qg_dom fp : is_Some (m !! fp) <-> exists it, it ∈ localIts ++ concat inputs /\ fingerprint_of it = fp;
  qg_local fp mit : m !! fp = Some mit -> local mit = last (with_fp fp localIts);
  qg_genuine fp mit it : m !! fp = Some mit -> it ∈ remote mit -> it ∈ concat inputs /\ fingerprint_of it = fp;
  qg_unraced fp mit : m !! fp = Some mit -> unraced inputs sched fp -> remote mit ≡ₚ with_fp fp (concat inputs);
  qg_metric fp mit : m !! fp = Some mit -> exists met, mergeIterator_Metric mit = Ret met /\ Fingerprint met = fp
}.

Lemma last_with_fp_is_Some fp its : (exists it, it ∈ its /\ fingerprint_of it = fp) -> is_Some (last (with_fp fp its)).
Proof.
  intros (it&Hit&Hfp). apply last_is_Some. intros Hn.
  assert (it ∈ with_fp fp its) as Hin by by apply list_elem_of_filter. rewrite Hn in Hin. by apply elem_of_nil in Hin.
Qed.

Lemma query_end_local localIts inputs sched fp mit :
  view (query_end localIts inputs sched) fp = Some mit -> local mit = last (with_fp fp localIts).
Proof.
  destruct (race_start_spec localIts inputs) as [Hi Hv]. specialize (Hv fp).
  destruct (query_end_finished localIts inputs sched) as [(owns&Hsh&_) _].
  destruct Hsh as [_ Hcell Hmap Hstart Hlocal Hold Hnew _ _]. set (s := query_end localIts inputs sched) in *.
  unfold view in *. destruct (fpToIt s !! fp) as [p|] eqn:Hp; [|done]. simpl. intros Hm.
  destruct (fpToIt (race_start localIts inputs) !! fp) as [p0|] eqn:Hp0.
  - rewrite (Hstart _ _ Hp0) in Hp. injection Hp as ->. simpl in Hv.
    destruct Hi as (_&Ha&_). destruct (Ha _ _ Hp0) as [mit0 Hm0]. rewrite Hm0 in Hv.
    destruct (Hlocal _ _ Hm0) as (mit'&Hm'&Hl). rewrite Hm in Hm'. injection Hm' as <-. rewrite Hl.
    destruct (last _); [|done]. injection Hv as ->. done.
  - simpl in Hv. destruct (last _); [done|]. apply (Hnew p); [|done].
    destruct (heap (race_start localIts inputs) !! p) eqn:Hh; [|done].
    rewrite (Hold p fp) in Hp0; [done|by apply Hmap|by rewrite Hh].
Qed.

Lemma query_end_groups localIts inputs sched :
  query_groups localIts inputs sched (race_map (query_end localIts inputs sched)).
Proof.
  destruct (race_start_spec localIts inputs) as [Hi Hv0].
  destruct (query_end_finished localIts inputs sched) as [(owns&Hsh&_&Hc) Hf].
  pose proof Hsh as [_ Hcell Hmap Hstart _ _ _ Hmet Hdom].
  assert (forall fp, is_Some (fpToIt (race_start localIts inputs) !! fp) <->
    exists it, it ∈ localIts /\ fingerprint_of it = fp) as Hloc.
  { intros fp. specialize (Hv0 fp). unfold view in Hv0. destruct Hi as (_&Ha&_). split.
    - intros [p Hp]. rewrite Hp in Hv0. simpl in Hv0. destruct (Ha _ _ Hp) as [mit Hm]. rewrite Hm in Hv0.
      destruct (last (with_fp fp localIts)) as [it|] eqn:Hl; [|done].
      apply last_elem_of, list_elem_of_filter in Hl as [??]. by exists it.
    - intros Hit%last_with_fp_is_Some. destruct Hit as [it Hit]. rewrite Hit in Hv0.
      destruct (fpToIt _ !! fp); [by eexists|done]. }
  assert (forall fp mit, race_map (query_end localIts inputs sched) !! fp = Some mit ->
    genuine inputs fp (remote mit) /\ (is_Some (local mit) \/ remote mit <> [])) as Hentry.
  { intros fp mit. rewrite race_map_lookup. unfold view. destruct (fpToIt _ !! fp) as [p|] eqn:Hp; [|done]. simpl.
    intros Hm. destruct (Hcell p fp (Hmap _ _ Hp)) as (mit'&Hm'&Hgen). rewrite Hm in Hm'. injection Hm' as <-.
    split; [done|]. by apply (Hmet p). }
  split.
  - intros fp. rewrite race_map_lookup. unfold view. transitivity (is_Some (fpToIt (query_end localIts inputs sched) !! fp)).
    { split; [intros [mit Hm]; by destruct (fpToIt _ !! fp)|]. intros [p Hp]. rewrite Hp. simpl.
      destruct (Hcell p fp (Hmap _ _ Hp)) as (mit&->&_). by eexists. }
    setoid_rewrite elem_of_app. split.
    + intros [Hs%Hloc|(it&?&?)]%Hdom; [destruct Hs as (it&?&?)|]; exists it; tauto.
    + intros (it&[Hit|(i&its&Hits&Hit)%concat_elem_of]&Hfp).
      * destruct (proj2 (Hloc fp)) as [p Hp]; [by exists it|]. rewrite (Hstart _ _ Hp). by eexists.
      * destruct (Forall2_lookup_l _ _ _ _ _ Hc Hits) as (g&Hg&pre&->&Hpre).
        rewrite (Forall_lookup_1 _ _ _ _ Hf Hg), app_nil_r in Hit. rewrite Forall_forall in Hpre. rewrite <- Hfp. by apply Hpre.
  - intros fp mit. rewrite race_map_lookup. apply query_end_local.
  - intros fp mit it (Hgen&_)%Hentry Hit. unfold genuine in Hgen. rewrite Forall_forall in Hgen. by apply Hgen.
  - intros fp mit Hm Hun. pose proof (proj1 (Hentry _ _ Hm)) as Hgen. rewrite race_map_lookup in Hm.
    destruct (decide (Exists (fun it => fingerprint_of it = fp) (concat inputs))) as [He|He].
    + apply Exists_exists in He. destruct (query_end_unraced localIts inputs sched fp Hun He) as (l&Hl&Hview).
      rewrite Hm, Hv0 in Hview. destruct (last _); simpl in Hview; [by injection Hview as ->|].
      destruct l; [done|]. by injection Hview as ->.
    + apply Forall_Exists_neg in He. rewrite (with_fp_none _ _ He). destruct (remote mit) as [|it l]; [done|].
      apply Forall_cons in Hgen as [[Hit Hfp] _]. rewrite Forall_forall in He. by destruct (He it Hit).
  - intros fp mit Hm. destruct (Hentry _ _ Hm) as [Hgen Hne]. rewrite race_map_lookup in Hm.
    pose proof (query_end_local _ _ _ _ _ Hm) as Hl. unfold mergeIterator_Metric. destruct (local mit) as [it|].
    + eexists. split; [done|]. by apply with_fp_fingerprint with localIts, last_elem_of.
    + destruct (remote mit) as [|it l]; [by destruct Hne as [[]|]|]. eexists. split; [done|].
      apply Forall_cons in Hgen as [[_ Hfp] _]. exact Hfp.
Qed.

(** Two goroutines that look a fingerprint up before either has stored it. *)
Lemma query_end_lost it1 it2 :
  fingerprint_of it1 = fingerprint_of it2 ->
  race_map (query_end [] [[it1]; [it2]] [0; 1; 0; 1]%nat) = {[fingerprint_of it2 := mkMergeIterator None [it2]]}.
Proof.
  intros Hfp. unfold query_end. rewrite run_app.
  assert (exists mp hp p, run (race_start [] [[it1]; [it2]]) [0; 1; 0; 1]%nat = mkRace mp hp [GLoop []; GLoop []] /\
    mp = {[fingerprint_of it2 := p]} /\ hp !! p = Some (mkMergeIterator None [it2])) as (mp&hp&p&Hrun&Hmp&Hhp).
  { unfold run, race_start. cbn [alloc_locals foldl]. unfold schedule_step at 4. cbn [goroutines lookup list_lookup fmap list_fmap].
    cbn [gstep fpToIt heap]. rewrite lookup_empty. cbn [insert list_insert].
    unfold schedule_step at 3. cbn [goroutines lookup list_lookup gstep fpToIt heap]. rewrite lookup_empty.
    unfold schedule_step at 2. cbn [goroutines lookup list_lookup gstep fpToIt heap insert list_insert].
    unfold schedule_step at 1. cbn [goroutines lookup list_lookup gstep fpToIt heap insert list_insert].
    eexists _, _, _. split; [reflexivity|]. split; [|apply lookup_insert_eq].
    rewrite Hfp. apply insert_insert_eq. }
  rewrite Hrun, run_finished by repeat constructor. unfold race_map. cbn [fpToIt heap]. subst mp.
  apply map_eq. intros fp. rewrite lookup_omap. destruct (decide (fp = fingerprint_of it2)) as [->|Hne].
  - by rewrite !lookup_singleton_eq.
  - by rewrite !lookup_singleton_ne.
Qed.

End query_proofs.

(** ** The query *)

Section querier.
Context {I : Type} `{SeriesIterator I} {Q : Type}.

(** What the remotes return, remote by remote. *)
Definition remote_answers (qFn : Q -> list I * option error) (remotes : list Q) : list (list I) :=
  (fun r => (qFn r).1) <$> remotes.

(** C15: the query, however its goroutines interleave. A failing local query fails
    the whole query. With no remotes, or a context marked local-only, the result
    is the local one, untouched. Otherwise there is no error, whatever errors the
    remotes report, and exactly one merged iterator per fingerprint that some
    storage returned: it holds the (last) local iterator with this fingerprint,
    and only remote ones that some remote returned with it; its metric, which can
    be read without panicking, has this fingerprint. It holds all the remote ones
    when only one remote returned the fingerprint, or when the goroutines run one
    after the other, in any order. This condition is needed: when two remotes
    return the same fingerprint there is an interleaving that loses the iterator
    of the first. *)
Theorem query_correct (q : querier Q) ctx (qFn : Q -> list I * option error) :
  let inputs := remote_answers qFn (qremotes q) in
  (forall its err sched, qFn (qlocal q) = (its, Some err) -> query q ctx qFn sched = ([], Some err)) /\
  (forall its sched, qFn (qlocal q) = (its, None) ->
    qremotes q = [] \/ localOnly ctx = true -> query q ctx qFn sched = (inl <$> its, None)) /\
  (forall its sched, qFn (qlocal q) = (its, None) -> qremotes q <> [] -> localOnly ctx = false ->
    exists m : gmap Z (mergeIterator I), query q ctx qFn sched = ((fun kv => inr kv.2) <$> map_to_list m, None) /\
      (forall fp, is_Some (m !! fp) <-> exists it, it ∈ its ++ concat inputs /\ fingerprint_of it = fp) /\
      (forall fp mit, m !! fp = Some mit ->
        local mit = last (with_fp fp its) /\
        (forall it, it ∈ remote mit -> it ∈ concat inputs /\ fingerprint_of it = fp) /\
        (unraced inputs sched fp -> remote mit ≡ₚ with_fp fp (concat inputs)) /\
        exists met, mergeIterator_Metric mit = Ret met /\ Fingerprint met = fp)) /\
  (forall it1 it2, qFn (qlocal q) = ([], None) -> localOnly ctx = false ->
    inputs = [[it1]; [it2]] -> fingerprint_of it1 = fingerprint_of it2 ->
    exists sched, query q ctx qFn sched = ([inr (mkMergeIterator None [it2])], None)).
Proof.
  intros inputs. unfold query. split_ands.
  - by intros its err sched ->.
  - intros its sched -> [->|Hlo]; [done|]. by rewrite Hlo, orb_true_r.
  - intros its sched -> Hr Hlo. rewrite bool_decide_eq_false_2, Hlo by done. cbn [orb].
    destruct (query_end_groups its inputs sched) as [Hdom Hl Hg Hu Hm].
    eexists. split; [done|]. split; [exact Hdom|]. intros fp mit Hmit. split_ands; [by apply Hl| |by apply Hu|by apply Hm].
    intros it. by apply Hg.
  - intros it1 it2 -> Hlo Hin Hfp. exists [0; 1; 0; 1]%nat.
    rewrite bool_decide_eq_false_2, Hlo by (intros He; unfold inputs in Hin; by rewrite He in Hin). cbn [orb].
    unfold inputs, remote_answers in Hin. rewrite Hin, query_end_lost by done. by rewrite map_to_list_singleton.
Qed.

End querier.

(** One local storage (0) and two remotes (1 and 2, the second failing). *)
Definition example_queries (q : nat) : list sampleStreamIterator * option error :=
  match q with
  | 0 => ([stream [pair 3 30]], None)
  | 1 => ([stream [pair 1 1]; mkSampleStreamIterator (mkSampleStream ∅ [])], None)
  | _ => ([], Some "server returned HTTP status 500"%string)
  end%nat.

(** Two remotes (1 and 2) that return the same series, with different samples. *)
Definition clashing_queries (q : nat) : list sampleStreamIterator * option error :=
  match q with
  | 0 => ([], None)
  | 1 => ([stream [pair 1 1]], None)
  | _ => ([stream [pair 2 2]], None)
  end%nat.

Lemma example_from_one fp : from_one (remote_answers example_queries [1%nat; 2%nat]) fp.
Proof.
  assert (forall k kts (it : sampleStreamIterator),
    remote_answers example_queries [1%nat; 2%nat] !! k = Some kts -> it ∈ kts -> k = 0%nat) as Hk.
  { intros [|[|k]] kts it Hk Hit; [done|injection Hk as <-; by apply elem_of_nil in Hit|done]. }
  intros i j its jts it jt Hi Hj Hit Hjt _ _. rewrite (Hk i its it), (Hk j jts jt) by done. done.
Qed.

Lemma query_correct_witness :
  (exists m : gmap Z (mergeIterator sampleStreamIterator),
    query (mkQuerier 0%nat [1%nat; 2%nat]) ∅ example_queries [1; 0; 0]%nat =
      ((fun kv => inr kv.2) <$> map_to_list m, None) /\
    exists mit, m !! fingerprint_of (stream []) = Some mit /\ remote mit ≡ₚ [stream [pair 1 1]]) /\
  (exists sched, query (mkQuerier 0%nat [1%nat; 2%nat]) ∅ clashing_queries sched =
    ([inr (mkMergeIterator None [stream [pair 2 2]])], None)).
Proof.
  split.
  - destruct (query_correct (mkQuerier 0%nat [1%nat; 2%nat]) ∅ example_queries) as (_&_&Hq&_).
    destruct (Hq [stream [pair 3 30]] [1; 0; 0]%nat eq_refl ltac:(discriminate) eq_refl) as (m&Hm&Hd&He).
    exists m. split; [exact Hm|].
    destruct (proj2 (Hd (fingerprint_of (stream [])))) as [mit Hmit].
    + exists (stream [pair 3 30]). split; [vm_compute; left|reflexivity].
    + exists mit. split; [exact Hmit|]. destruct (He _ _ Hmit) as (_&_&Hu&_).
      etransitivity; [apply Hu; left; apply example_from_one|vm_compute; reflexivity].
  - destruct (query_correct (mkQuerier 0%nat [1%nat; 2%nat]) ∅ clashing_queries) as (_&_&_&Hl).
    apply (Hl (stream [pair 1 1])); reflexivity.
Defined.
