(* ===== verification/Relabel.v ===== *)
(** * Relabelling

    [relabel.Process] of the vendored [prometheus/relabel] package, which the
    queues and the scrape path apply to every label set. Matching and template
    expansion belong to Go's [regexp] and hashing to [crypto/md5]: they are the
    operations of [RelabelLib]. A map is handled by value: the callers of this
    program pass maps of their own and use only the returned one. *)
From S2P Require Import Prelude Model MetricPkg.
From stdpp Require Import pretty.

Open Scope Z_scope.

Class RelabelLib `{RegexpLib} := {
  FindStringSubmatchIndex : Regexp -> string -> option (list Z);
  ExpandString : Regexp -> string -> string -> list Z -> string;
  ReplaceAllString : Regexp -> string -> string -> string;
  md5_Sum : string -> list Z
}.

(** The order in which the loops of the [n]-th next configuration visit a map. *)
Class MapOrder := {
  order : nat -> LabelSet -> list (LabelName * LabelValue);
  order_range n m : map_range m (order n m)
}.

(** [RelabelAction] is a string in Go; the last case is any other string. *)
Inductive RelabelAction :=
  | RelabelReplace | RelabelKeep | RelabelDrop | RelabelHashMod
  | RelabelLabelMap | RelabelLabelDrop | RelabelLabelKeep
  | RelabelOther (name : string).

(** A letter or an underscore, and a digit, as [IsValid] writes them. *)
Definition is_alpha (b : ascii) : bool :=
  let n := Ascii.nat_of_ascii b in
  ((Nat.leb 97 n && Nat.leb n 122) || (Nat.leb 65 n && Nat.leb n 90) || Nat.eqb n 95)%bool.
Definition is_digit (b : ascii) : bool :=
  let n := Ascii.nat_of_ascii b in (Nat.leb 48 n && Nat.leb n 57)%bool.

Fixpoint IsValid_loop (first : bool) (ln : string) : bool :=
  match ln with
  | EmptyString => true
  | String.String b ln =>
      if negb (is_alpha b || (is_digit b && negb first)) then false else IsValid_loop false ln
  end.

(** [LabelName.IsValid]. *)
Definition IsValid (ln : LabelName) : bool :=
  match ln with EmptyString => false | _ => IsValid_loop true ln end.

(** [sum64] of the 16 bytes of an md5 digest; a shift by 64 or more is zero. *)
Fixpoint sum64_loop (i : nat) (hash : list Z) (s : Z) : Z :=
  match hash with
  | [] => s
  | b :: hash =>
      let shift := uint64 ((16 - Z.of_nat i - 1) * 8) in
      sum64_loop (S i) hash (Z.lor s (if shift <? 64 then uint64 (Z.shiftl b shift) else 0))
  end.
Definition sum64 (hash : list Z) : Z := sum64_loop 0 hash 0.

(** [fmt.Sprintf("%d", n)] of an unsigned number. *)
Definition Sprintf_d (n : Z) : string := pretty (Z.to_N n).

Section relabel.
Context `{RelabelLib, MapOrder}.

Record RelabelConfig := mkRelabelConfig {
  SourceLabels : list LabelName;
  Separator : string;
  Regex : Regexp;
  Modulus : Z;
  TargetLabel : string;
  Replacement : string;
  Action : RelabelAction
}.

(** Indexing a map of strings gives the empty string for a missing key. *)
Definition label_value (labels : LabelSet) (ln : LabelName) : LabelValue :=
  default EmptyString (labels !! ln).

Definition source_value (labels : LabelSet) (cfg : RelabelConfig) : string :=
  Matcher.strings_Join (label_value labels <$> SourceLabels cfg) (Separator cfg).

(** [for ln := range labels { if drop(ln) { delete(labels, ln) } }]. *)
Definition delete_where (drop : LabelName -> bool) (l : list (LabelName * LabelValue))
    (labels : LabelSet) : LabelSet :=
  foldl (fun acc '(ln, _) => if drop ln then delete ln acc else acc) labels l.

(** The second loop of the action [labelmap]. *)
Definition labelmap_loop (cfg : RelabelConfig) (l : list (LabelName * LabelValue))
    (out : LabelSet) : LabelSet :=
  foldl (fun out '(ln, lv) =>
    if MatchString (Regex cfg) ln
    then <[ReplaceAllString (Regex cfg) ln (Replacement cfg) := lv]> out
    else out) out l.

Definition relabel_replace (cfg : RelabelConfig) (val : string) (labels : LabelSet)
    : LabelSet :=
  match FindStringSubmatchIndex (Regex cfg) val with
  | None => labels
  | Some indexes =>
      let target := ExpandString (Regex cfg) (TargetLabel cfg) val indexes in
      if negb (IsValid target) then delete (TargetLabel cfg) labels
      else
        let res := ExpandString (Regex cfg) (Replacement cfg) val indexes in
        if Nat.eqb (String.length res) 0 then delete (TargetLabel cfg) labels
        else <[target := res]> labels
  end.

(** [None] is the nil label set of a dropped one. *)
Definition relabel (n : nat) (labels : LabelSet) (cfg : RelabelConfig)
    : outcome (option LabelSet) :=
  let val := source_value labels cfg in
  match Action cfg with
  | RelabelDrop => Ret (if MatchString (Regex cfg) val then None else Some labels)
  | RelabelKeep => Ret (if negb (MatchString (Regex cfg) val) then None else Some labels)
  | RelabelReplace => Ret (Some (relabel_replace cfg val labels))
  | RelabelHashMod =>
      if Modulus cfg =? 0 then Panic PanicDivide
      else
        let mod_ := sum64 (md5_Sum val) mod Modulus cfg in
        Ret (Some (<[TargetLabel cfg := Sprintf_d mod_]> labels))
  | RelabelLabelMap =>
      let out := Clone (order n labels) in
      Ret (Some (labelmap_loop cfg (order n labels) out))
  | RelabelLabelDrop =>
      Ret (Some (delete_where (MatchString (Regex cfg)) (order n labels) labels))
  | RelabelLabelKeep =>
      Ret (Some (delete_where (fun ln => negb (MatchString (Regex cfg) ln))
                   (order n labels) labels))
  | RelabelOther name => Panic (PanicMsg ("retrieval.relabel: unknown relabel action type " +:+ name))
  end.

Fixpoint Process (labels : LabelSet) (cfgs : list RelabelConfig) : outcome (option LabelSet) :=
  match cfgs with
  | [] => Ret (Some labels)
  | cfg :: cfgs =>
      r ← relabel (length cfgs) labels cfg;
      match r with
      | None => Ret None
      | Some labels => Process labels cfgs
      end
  end.

(** ** Lemmas *)

Lemma delete_where_lookup drop l labels ln :
  delete_where drop l labels !! ln =
    if drop ln && bool_decide (ln ∈ l.*1) then None else labels !! ln.
Proof.
  unfold delete_where. revert labels. induction l as [|[k v] l IH]; intros labels; simpl.
  { by rewrite andb_false_r. }
  rewrite IH.
  destruct (decide (k = ln)) as [->|Hne].
  - destruct (drop ln) eqn:Hd; simpl; [|done].
    rewrite lookup_delete_eq. repeat case_bool_decide; set_solver.
  - replace ((if drop k then delete k labels else labels) !! ln) with (labels !! ln)
      by (destruct (drop k); rewrite ?lookup_delete_ne by done; done).
    destruct (drop ln); simpl; [|done]. repeat case_bool_decide; set_solver.
Qed.

Lemma delete_where_filter drop n labels :
  delete_where drop (order n labels) labels = filter (fun kv => drop kv.1 = false) labels.
Proof.
  apply map_eq. intros ln. rewrite delete_where_lookup. pose proof (order_range n labels) as Ho.
  destruct (labels !! ln) as [lv|] eqn:Hl.
  - rewrite bool_decide_eq_true_2 by (apply list_elem_of_fmap; exists (ln, lv);
      split; [done|by eapply map_range_elem_of]).
    rewrite andb_true_r. destruct (drop ln) eqn:Hd; symmetry.
    + apply map_lookup_filter_None. right. simpl. intros ? _. by rewrite Hd.
    + by apply map_lookup_filter_Some.
  - destruct (_ && _); symmetry; apply map_lookup_filter_None; by left.
Qed.

(** A digest is below 2^64 whatever its bytes. *)
Lemma sum64_loop_range i hash s : in_uint64 s -> in_uint64 (sum64_loop i hash s).
Proof.
  revert i s. induction hash as [|b hash IH]; intros i s Hs; cbn [sum64_loop]; [done|].
  apply IH. assert (in_uint64 (if uint64 ((16 - Z.of_nat i - 1) * 8) <? 64
    then uint64 (Z.shiftl b (uint64 ((16 - Z.of_nat i - 1) * 8))) else 0)) as Hb.
  { case_match; [apply uint64_range|]. by unfold in_uint64, two64. }
  revert Hb. generalize (if uint64 ((16 - Z.of_nat i - 1) * 8) <? 64
    then uint64 (Z.shiftl b (uint64 ((16 - Z.of_nat i - 1) * 8))) else 0). intros z Hz.
  unfold in_uint64 in *. split; [apply Z.lor_nonneg; lia|].
  destruct (decide (Z.lor s z = 0)) as [->|Hne]; [done|].
  apply Z.log2_lt_cancel. change (Z.log2 two64) with 64.
  assert (0 <= Z.lor s z) by (apply Z.lor_nonneg; lia).
  rewrite Z.log2_lor by lia. apply Z.max_lub_lt; apply log2_uint64; done.
Qed.

(** With one element left in each class of names that map to the same name,
    [labelmap] does not depend on the order of the map. *)
Definition labelmap_injective (cfg : RelabelConfig) (labels : LabelSet) : Prop :=
  forall ln ln', is_Some (labels !! ln) -> is_Some (labels !! ln') ->
    MatchString (Regex cfg) ln = true -> MatchString (Regex cfg) ln' = true ->
    ReplaceAllString (Regex cfg) ln (Replacement cfg) =
      ReplaceAllString (Regex cfg) ln' (Replacement cfg) -> ln = ln'.

Lemma labelmap_loop_notin cfg l out t :
  (forall ln, ln ∈ l.*1 -> MatchString (Regex cfg) ln = true ->
    ReplaceAllString (Regex cfg) ln (Replacement cfg) <> t) ->
  labelmap_loop cfg l out !! t = out !! t.
Proof.
  unfold labelmap_loop. revert out. induction l as [|[k v] l IH]; intros out Hl; simpl; [done|].
  rewrite IH by (intros ln Hln; apply Hl; simpl; set_solver).
  destruct (MatchString (Regex cfg) k) eqn:Hk; [|done].
  rewrite lookup_insert_ne; [done|]. apply Hl; [simpl; set_solver|done].
Qed.

Lemma labelmap_loop_app cfg l1 l2 out :
  labelmap_loop cfg (l1 ++ l2) out = labelmap_loop cfg l2 (labelmap_loop cfg l1 out).
Proof. apply foldl_app. Qed.

Lemma labelmap_loop_in cfg n labels out ln lv :
  labelmap_injective cfg labels -> labels !! ln = Some lv ->
  MatchString (Regex cfg) ln = true ->
  labelmap_loop cfg (order n labels) out !! ReplaceAllString (Regex cfg) ln (Replacement cfg)
    = Some lv.
Proof.
  intros Hinj Hln Hm. pose proof (order_range n labels) as Ho.
  pose proof (proj2 (map_range_elem_of _ _ ln lv Ho) Hln) as Hin.
  pose proof (map_range_NoDup_fst _ _ Ho) as Hnd.
  apply list_elem_of_split in Hin as (l1&l2&Hl). rewrite Hl, labelmap_loop_app.
  change (labelmap_loop cfg ((ln, lv) :: l2) ?o) with (labelmap_loop cfg ([(ln, lv)] ++ l2) o).
  rewrite labelmap_loop_app, labelmap_loop_notin.
  { simpl. by rewrite Hm, lookup_insert_eq. }
  intros ln' Hln' Hm' Heq.
  assert (ln' = ln) as ->.
  { apply Hinj; [|done|done|done|done].
    apply list_elem_of_fmap in Hln' as ([k v]&->&Hkv).
    exists v. eapply map_range_elem_of; [exact Ho|]. rewrite Hl. set_solver. }
  rewrite Hl, fmap_app in Hnd. apply NoDup_app in Hnd as (_&_&Hnd).
  simpl in Hnd. by apply NoDup_cons in Hnd as [? _].
Qed.

Lemma Process_app labels c1 c2 :
  (forall n m cfg, relabel n m cfg = relabel 0 m cfg) ->
  Process labels (c1 ++ c2) =
    (r ← Process labels c1; match r with None => Ret None | Some m => Process m c2 end).
Proof.
  intros Hn. revert labels. induction c1 as [|cfg c1 IH]; intros labels; simpl; [done|].
  rewrite Hn, (Hn (length c1)). destruct (relabel 0 labels cfg) as [[m|]|p]; simpl; [|done..].
  apply IH.
Qed.

(** A configuration the loader accepts ([UnmarshalYAML] of the configuration
    package): a known action, and a modulus for [hashmod]. *)
Definition valid_config (cfg : RelabelConfig) : Prop :=
  match Action cfg with
  | RelabelOther _ => False
  | RelabelHashMod => Modulus cfg <> 0
  | _ => True
  end.

Lemma relabel_total n labels cfg : valid_config cfg -> exists r, relabel n labels cfg = Ret r.
Proof.
  unfold valid_config, relabel. destruct (Action cfg); intros Hv; try done;
    destruct (Z.eqb_spec (Modulus cfg) 0); try done; by eexists.
Qed.

Lemma Process_total labels cfgs :
  Forall valid_config cfgs -> exists r, Process labels cfgs = Ret r.
Proof.
  intros Hc. revert labels. induction Hc as [|cfg cfgs Hv Hc IH]; intros labels; simpl; [by eexists|].
  destruct (relabel_total (length cfgs) labels cfg Hv) as [[m|] ->]; simpl; [apply IH|by eexists].
Qed.

(** What each relabelling action does to a label set, whatever the order of
    the map: drop and keep decide by the regular expression over the joined
    source labels and leave the labels alone; labeldrop and labelkeep filter the
    labels by name; hashmod sets the target label to the decimal of a number
    below the modulus; replace changes at most the target label and the label its
    template names; labelmap, when no two matching names are renamed to the
    same one, gives every new name the value of its old one and leaves the names
    that are no new name alone; and a configuration the loader accepts never
    panics. *)
Theorem relabel_correct (n : nat) (labels : LabelSet) (cfg : RelabelConfig) :
  valid_config cfg ->
  match Action cfg with
  | RelabelDrop => relabel n labels cfg =
      Ret (if MatchString (Regex cfg) (source_value labels cfg) then None else Some labels)
  | RelabelKeep => relabel n labels cfg =
      Ret (if MatchString (Regex cfg) (source_value labels cfg) then Some labels else None)
  | RelabelLabelDrop => relabel n labels cfg =
      Ret (Some (filter (fun kv => MatchString (Regex cfg) kv.1 = false) labels))
  | RelabelLabelKeep => relabel n labels cfg =
      Ret (Some (filter (fun kv => MatchString (Regex cfg) kv.1 = true) labels))
  | RelabelHashMod => 0 < Modulus cfg ->
      exists z, 0 <= z < Modulus cfg /\
        relabel n labels cfg = Ret (Some (<[TargetLabel cfg := Sprintf_d z]> labels))
  | RelabelLabelMap => labelmap_injective cfg labels ->
      exists out, relabel n labels cfg = Ret (Some out) /\
      (forall ln lv, labels !! ln = Some lv -> MatchString (Regex cfg) ln = true ->
        out !! ReplaceAllString (Regex cfg) ln (Replacement cfg) = Some lv) /\
      (forall t, (forall ln, is_Some (labels !! ln) -> MatchString (Regex cfg) ln = true ->
          ReplaceAllString (Regex cfg) ln (Replacement cfg) <> t) -> out !! t = labels !! t)
  | RelabelReplace =>
      exists out, relabel n labels cfg = Ret (Some out) /\
      (forall ln, ln <> TargetLabel cfg ->
        (forall ix, FindStringSubmatchIndex (Regex cfg) (source_value labels cfg) = Some ix ->
          ln <> ExpandString (Regex cfg) (TargetLabel cfg) (source_value labels cfg) ix) ->
        out !! ln = labels !! ln)
  | RelabelOther _ => False
  end.
Proof.
  unfold valid_config, relabel. destruct (Action cfg); intros Hv; try done.
  - eexists. split; [done|]. intros ln Hne Ht. unfold relabel_replace.
    destruct (FindStringSubmatchIndex _ _) as [ix|] eqn:Hix; [|done].
    specialize (Ht ix eq_refl). repeat case_match; rewrite ?lookup_delete_ne, ?lookup_insert_ne by done;
      done.
  - by destruct (MatchString _ _).
  - intros Hpos. destruct (Z.eqb_spec (Modulus cfg) 0); [lia|].
    eexists. split; [|done]. by apply Z.mod_pos_bound.
  - intros Hinj. pose proof (order_range n labels) as Ho. eexists. split; [done|split].
    + intros ln lv Hl Hm. by apply labelmap_loop_in.
    + intros t Ht. rewrite labelmap_loop_notin; [by rewrite (Clone_range labels)|].
      intros ln Hln. apply Ht. apply list_elem_of_fmap in Hln as ([k v]&->&Hkv).
      exists v. by eapply map_range_elem_of.
  - by rewrite delete_where_filter.
  - rewrite delete_where_filter. do 2 f_equal. apply map_filter_ext. intros ln lv _. simpl.
    by destruct (MatchString _ _).
Qed.

End relabel.

(** ** Concrete instances *)

(** Expressions that are alternations of literals, templates without [$]. *)
Module LiteralRelabel.
Export LiteralRegexp.

#[export] Instance literal_relabel : RelabelLib := {|
  FindStringSubmatchIndex r v :=
    if MatchString r v then Some [0; Z.of_nat (String.length v)] else None;
  ExpandString _ template _ _ := template;
  ReplaceAllString r v template := if MatchString r v then template else v;
  md5_Sum v := repeat (Z.of_nat (String.length v)) 16
|}.

#[export] Instance map_order : MapOrder := {|
  order _ m := map_to_list m;
  order_range _ m := map_range_refl m
|}.

Definition rename (from to : string) : RelabelConfig :=
  mkRelabelConfig [] ";" [from] 0 EmptyString to RelabelLabelMap.
Definition hashmod (source target : string) (modulus : Z) : RelabelConfig :=
  mkRelabelConfig [source] ";" [] modulus target EmptyString RelabelHashMod.
Definition drop_value (source value : string) : RelabelConfig :=
  mkRelabelConfig [source] ";" [value] 0 EmptyString EmptyString RelabelDrop.
End LiteralRelabel.

Section examples.
Import LiteralRelabel.

Lemma relabel_correct_witness :
  exists out, relabel 0 {["a" := "1"; "c" := "2"]} (rename "a" "b") = Ret (Some out) /\
    out !! "b" = Some "1" /\ out !! "c" = Some "2".
Proof.
  destruct (relabel_correct 0 {["a" := "1"; "c" := "2"]} (rename "a" "b") I)
    as (out&Ho&Hin&Hout).
  - intros ln ln' _ _ Hm Hm' _. apply bool_decide_eq_true in Hm, Hm'. set_solver.
  - exists out. split; [done|split].
    + by apply (Hin "a" "1").
    + rewrite (Hout "c"); [done|]. intros ln _ Hm. apply bool_decide_eq_true in Hm.
      apply list_elem_of_singleton in Hm as ->. vm_compute. discriminate.
Defined.

(** Hash the address into two shards, then drop one of them. *)
Example shard_targets :
  Process {["__address__" := "abc"]} [hashmod "__address__" "shard" 2; drop_value "shard" "1"]
    = Ret None /\
  Process {["__address__" := "ab"]} [hashmod "__address__" "shard" 2; drop_value "shard" "1"]
    = Ret (Some {["__address__" := "ab"; "shard" := "0"]}).
Proof. split; vm_compute; reflexivity. Qed.

End examples.
