(* ===== verification/Queue.v ===== *)
(** * The remote write queue ([storage/remote/queue_manager.go])

    The sequential parts: configuration, construction of the shards, Append and
    enqueue, a shard's goroutine as its atomic steps, sending with backoff, and
    the computation of the desired number of shards. [Shards] puts the
    goroutines together. Logging is left out; the counters of the queue are the
    record [queue_metrics]. A queue is a buffered channel (the capacity is at
    least 1, as in the configuration the program uses): a send that finds the
    buffer full fails in a [select] with a default case. *)
From S2P Require Import Prelude Model MetricPkg Relabel Ewma.

Open Scope Z_scope.

Record QueueManagerConfig := mkQueueManagerConfig {
  QueueCapacity : Z;
  MaxShards : Z;
  MaxSamplesPerSend : Z;
  BatchSendDeadline : Duration;
  MaxRetries : Z;
  MinBackoff : Duration;
  MaxBackoff : Duration
}.

Definition defaultQueueManagerConfig : QueueManagerConfig := {|
  MaxShards := 1000;
  MaxSamplesPerSend := 100;
  QueueCapacity := 100 * 1000;
  BatchSendDeadline := 5 * Second;
  MaxRetries := 10;
  MinBackoff := 30 * Millisecond;
  MaxBackoff := 100 * Millisecond
|}.

Definition ewmaWeight : float64 := f64_const 2 10.
Definition shardUpdateDuration : Duration := 10 * Second.
(** [1. - shardToleranceFraction] and [1. + shardToleranceFraction], constants. *)
Definition toleranceLow : float64 := f64_const 7 10.
Definition toleranceHigh : float64 := f64_const 13 10.

(** The error of a [Store] call; [recoverable] tells a [recoverableError]. *)
Record store_error := mkStoreError { message : error; recoverable : bool }.

(** [StorageClient], over the state [W] of the world outside the program. *)
Class StorageClient (W : Type) := {
  Store : W -> list Sample -> W * option store_error;
  Name : string
}.

(** A channel of samples. *)
Record chan := mkChan { buf : list Sample; closed : bool }.

(** Where the goroutine [runShard(i)] is. *)
Inductive worker :=
  | WNotStarted
  (** blocked in the select, with [pendingSamples] *)
  | WSelect (pending : list Sample)
  (** sending a full batch; [rest] stays pending *)
  | WSending (batch rest : list Sample)
  (** sending everything, after the deadline or because the queue is closed *)
  | WDeadline (batch : list Sample)
  | WFlushing (batch : list Sample)
  | WDone.

(** A shard is a queue and the goroutine that reads it; the wait group of the
    shards counts the goroutines that are not done. *)
Abbreviation shards := (list (chan * worker)).

Record queue_metrics := mkMetrics {
  succeededSamplesTotal : Z;
  failedSamplesTotal : Z;
  droppedSamplesTotal : Z;
  queueLength : Z
}.

Section queue.
Context `{RelabelLib, MapOrder}.

Record QueueManager := mkQueueManager {
  qcfg : QueueManagerConfig;
  externalLabels : LabelSet;
  relabelConfigs : list RelabelConfig;
  queueName : string;
  qshards : shards;
  numShards : Z;
  samplesIn : ewmaRate;
  samplesOut : ewmaRate;
  samplesOutDuration : ewmaRate;
  integralAccumulator : float64;
  metrics : queue_metrics
}.

Definition set_qshards (t : QueueManager) (s : shards) : QueueManager :=
  mkQueueManager (qcfg t) (externalLabels t) (relabelConfigs t) (queueName t) s (numShards t)
    (samplesIn t) (samplesOut t) (samplesOutDuration t) (integralAccumulator t) (metrics t).
Definition set_numShards (t : QueueManager) (n : Z) : QueueManager :=
  mkQueueManager (qcfg t) (externalLabels t) (relabelConfigs t) (queueName t) (qshards t) n
    (samplesIn t) (samplesOut t) (samplesOutDuration t) (integralAccumulator t) (metrics t).
Definition set_rates (t : QueueManager) (i o d : ewmaRate) : QueueManager :=
  mkQueueManager (qcfg t) (externalLabels t) (relabelConfigs t) (queueName t) (qshards t)
    (numShards t) i o d (integralAccumulator t) (metrics t).
Definition set_accumulator (t : QueueManager) (a : float64) : QueueManager :=
  mkQueueManager (qcfg t) (externalLabels t) (relabelConfigs t) (queueName t) (qshards t)
    (numShards t) (samplesIn t) (samplesOut t) (samplesOutDuration t) a (metrics t).
Definition set_metrics (t : QueueManager) (m : queue_metrics) : QueueManager :=
  mkQueueManager (qcfg t) (externalLabels t) (relabelConfigs t) (queueName t) (qshards t)
    (numShards t) (samplesIn t) (samplesOut t) (samplesOutDuration t) (integralAccumulator t) m.

Definition add_succeeded (n : Z) (m : queue_metrics) : queue_metrics :=
  mkMetrics (succeededSamplesTotal m + n) (failedSamplesTotal m) (droppedSamplesTotal m)
    (queueLength m).
Definition add_failed (n : Z) (m : queue_metrics) : queue_metrics :=
  mkMetrics (succeededSamplesTotal m) (failedSamplesTotal m + n) (droppedSamplesTotal m)
    (queueLength m).
Definition add_dropped (n : Z) (m : queue_metrics) : queue_metrics :=
  mkMetrics (succeededSamplesTotal m) (failedSamplesTotal m) (droppedSamplesTotal m + n)
    (queueLength m).
Definition add_queueLength (n : Z) (m : queue_metrics) : queue_metrics :=
  mkMetrics (succeededSamplesTotal m) (failedSamplesTotal m) (droppedSamplesTotal m)
    (queueLength m + n).

(** ** Construction *)

(** [make] panics on a negative length or capacity. *)
Definition newShards (cfg : QueueManagerConfig) (numShards : Z) : outcome shards :=
  if numShards <? 0 then Panic PanicMakeLen
  else if (0 <? numShards) && (QueueCapacity cfg <? 0) then Panic PanicMakeLen
  else Ret (replicate (Z.to_nat numShards) (mkChan [] false, WNotStarted)).

Definition NewQueueManager (cfg : QueueManagerConfig) (externalLabels : LabelSet)
    (relabelConfigs : list RelabelConfig) (name : string) : outcome QueueManager :=
  s ← newShards cfg 1;
  Ret (mkQueueManager cfg externalLabels relabelConfigs name s 1
    (newEWMARate ewmaWeight shardUpdateDuration)
    (newEWMARate ewmaWeight shardUpdateDuration)
    (newEWMARate ewmaWeight shardUpdateDuration)
    f64_zero (mkMetrics 0 0 0 0)).

(** [go s.runShard(i)] for every queue: the goroutines reach their select. *)
Definition start_shards (s : shards) : shards := (fun cw => (cw.1, WSelect [])) <$> s.

(** ** Appending *)

(** [uint64(fp) % uint64(len(s.queues))]. *)
Definition shard_index (s : shards) (fp : Z) : outcome nat :=
  if Nat.eqb (length s) 0 then Panic PanicDivide
  else Ret (Z.to_nat (uint64 fp mod Z.of_nat (length s))).

(** [select { case ch <- sample: return true; default: return false }]. *)
Definition try_send (cap : Z) (c : chan) (sample : Sample) : outcome (chan * bool) :=
  if closed c then Panic PanicSendClosed
  else if Z.of_nat (length (buf c)) <? cap then Ret (mkChan (buf c ++ [sample]) false, true)
  else Ret (c, false).

Definition enqueue (t : QueueManager) (sample : Sample) : outcome (QueueManager * bool) :=
  let t := set_rates t (incr (samplesIn t) 1) (samplesOut t) (samplesOutDuration t) in
  let fp := FastFingerprint (SMetric sample) in
  shard ← shard_index (qshards t) fp;
  match qshards t !! shard with
  | None => Panic PanicIndex
  | Some (c, w) =>
      r ← try_send (QueueCapacity (qcfg t)) c sample;
      Ret (set_qshards t (<[shard := (r.1, w)]> (qshards t)), r.2)
  end.

(** The sample as it is queued: a copy of the metric (copied in the order
    [copy_order]), completed with the external labels the original metric does
    not have (visited in the order [labels_order]), and relabelled; [None] when
    relabelling drops it. *)
Definition process_sample (t : QueueManager) (copy_order labels_order : list (LabelName * LabelValue))
    (s : Sample) : outcome (option Sample) :=
  let metric := Clone copy_order in
  let metric := foldl (fun acc '(ln, lv) =>
    match SMetric s !! ln with Some _ => acc | None => <[ln:=lv]> acc end) metric labels_order in
  r ← Process metric (relabelConfigs t);
  match r with
  | None => Ret None
  | Some m => Ret (Some (mkSample m (SValue s) (STimestamp s)))
  end.

(** [Append]; it always returns a nil error. The flag tells what the queue did:
    [None] when relabelling dropped the sample, else whether it was enqueued. *)
Definition QueueManager_Append (t : QueueManager)
    (copy_order labels_order : list (LabelName * LabelValue)) (s : Sample)
    : outcome (QueueManager * option bool) :=
  r ← process_sample t copy_order labels_order s;
  match r with
  | None => Ret (t, None)
  | Some snew =>
      e ← enqueue t snew;
      let '(t, enqueued) := e in
      if enqueued : bool then Ret (set_metrics t (add_queueLength 1 (metrics t)), Some true)
      else Ret (set_metrics t (add_dropped 1 (metrics t)), Some false)
  end.

Definition QueueManager_NeedsThrottling (t : QueueManager) : bool := false.

(** ** A shard's goroutine *)

(** The loop [for len(pendingSamples) >= MaxSamplesPerSend], up to its next
    send; a negative bound makes the slice expression panic. *)
Definition batch_loop (cfg : QueueManagerConfig) (pending : list Sample) : outcome worker :=
  if MaxSamplesPerSend cfg <=? Z.of_nat (length pending) then
    if MaxSamplesPerSend cfg <? 0 then Panic PanicSlice
    else Ret (WSending (take (Z.to_nat (MaxSamplesPerSend cfg)) pending)
                       (drop (Z.to_nat (MaxSamplesPerSend cfg)) pending))
  else Ret (WSelect pending).

(** The select receives from the queue: a sample ([queueLength] is decremented),
    or the news that the queue is closed and drained. [None] when it blocks. *)
Definition runShard_receive (cfg : QueueManagerConfig) (c : chan) (w : worker)
    : option (outcome (chan * worker * bool)) :=
  match w with
  | WSelect pending =>
      match buf c with
      | sample :: rest =>
          Some (w' ← batch_loop cfg (pending ++ [sample]); Ret (mkChan rest (closed c), w', true))
      | [] =>
          if closed c then
            Some (Ret (c, if Nat.ltb 0 (length pending) then WFlushing pending else WDone, false))
          else None
      end
  | _ => None
  end.

(** The select takes the deadline. *)
Definition runShard_deadline (w : worker) : option worker :=
  match w with
  | WSelect pending =>
      Some (if Nat.ltb 0 (length pending) then WDeadline pending else WSelect pending)
  | _ => None
  end.

(** The batch a goroutine is sending, and what it does when [sendSamples] returns. *)
Definition sending (w : worker) : option (list Sample) :=
  match w with
  | WSending batch _ | WDeadline batch | WFlushing batch => Some batch
  | _ => None
  end.

Definition runShard_sent (cfg : QueueManagerConfig) (w : worker) : outcome worker :=
  match w with
  | WSending _ rest => batch_loop cfg rest
  | WDeadline _ => Ret (WSelect [])
  | WFlushing _ => Ret WDone
  | w => Ret w
  end.

(** ** Sending with backoff *)

Section client.
Context {W : Type} `{StorageClient W}.

(** What a call of [sendSamplesWithBackoff] did: the world after it, whether a
    [Store] succeeded, how many there were, and the sleeps between them. *)
Record send_result := mkSendResult {
  sr_world : W;
  sr_ok : bool;
  sr_attempts : nat;
  sr_sleeps : list Duration
}.

(** The loop over [retries], which counts down to 0. *)
Fixpoint backoff_loop (cfg : QueueManagerConfig) (retries : nat) (w : W)
    (samples : list Sample) (backoff : Duration) : send_result :=
  match retries with
  | O => mkSendResult w false 0 []
  | S retries =>
      let '(w, err) := Store w samples in
      match err with
      | None => mkSendResult w true 1 []
      | Some e =>
          if negb (recoverable e) then mkSendResult w false 1 []
          else
            let backoff' := int64 (backoff * 2) in
            let backoff' := if backoff' >? MaxBackoff cfg then MaxBackoff cfg else backoff' in
            let r := backoff_loop cfg retries w samples backoff' in
            mkSendResult (sr_world r) (sr_ok r) (S (sr_attempts r)) (backoff :: sr_sleeps r)
      end
  end.

Definition sendSamplesWithBackoff (t : QueueManager) (w : W) (samples : list Sample)
    : QueueManager * send_result :=
  let r := backoff_loop (qcfg t) (Z.to_nat (MaxRetries (qcfg t))) w samples (MinBackoff (qcfg t)) in
  let n := Z.of_nat (length samples) in
  (set_metrics t (if sr_ok r then add_succeeded n (metrics t) else add_failed n (metrics t)), r).

(** [elapsed] is what the clock says the send took. *)
Definition sendSamples (t : QueueManager) (w : W) (samples : list Sample) (elapsed : Duration)
    : QueueManager * send_result :=
  let '(t, r) := sendSamplesWithBackoff t w samples in
  (set_rates t (samplesIn t) (incr (samplesOut t) (Z.of_nat (length samples)))
     (incr (samplesOutDuration t) elapsed), r).

End client.

(** ** The desired number of shards *)

(** [int(f)] for an [f] out of range is up to the implementation: [oob f]. *)
Variable oob : float64 -> Z.

(** The part of [calculateDesiredShards] before the [select]: the new number
    of shards, when it asks for one. *)
Definition desired_shards (t : QueueManager) : QueueManager * option Z :=
  let t := set_rates t (tick (samplesIn t)) (tick (samplesOut t)) (tick (samplesOutDuration t)) in
  let samplesIn := rate (samplesIn t) in
  let samplesOut := rate (samplesOut t) in
  let samplesPending := f64_sub samplesIn samplesOut in
  let samplesOutDuration := rate (samplesOutDuration t) in
  let t := set_accumulator t
    (f64_add (integralAccumulator t) (f64_mul samplesPending (f64_const 1 10))) in
  if f64_leb samplesOut f64_zero then (t, None)
  else
    let timePerSample := f64_div samplesOutDuration samplesOut in
    let desiredShards :=
      f64_div
        (f64_mul timePerSample
           (f64_add (f64_add samplesIn samplesPending) (integralAccumulator t)))
        (f64_of_Z Second) in
    let lowerBound := f64_mul (f64_of_Z (numShards t)) toleranceLow in
    let upperBound := f64_mul (f64_of_Z (numShards t)) toleranceHigh in
    if f64_leb lowerBound desiredShards && f64_leb desiredShards upperBound then (t, None)
    else
      let n := f64_to_int64 oob (f64_ceil desiredShards) in
      let n := if n >? MaxShards (qcfg t) then MaxShards (qcfg t) else n in
      if n =? numShards t then (t, None) else (t, Some n).

(** The non-blocking send of the number: [ready] when [reshardLoop] is waiting
    for one. The number that was sent is returned. *)
Definition calculateDesiredShards (t : QueueManager) (ready : bool) : QueueManager * option Z :=
  let '(t, n) := desired_shards t in
  match n with
  | None => (t, None)
  | Some n => if ready then (set_numShards t n, Some n) else (t, None)
  end.

End queue.

(** ** Appending: what goes in the queue *)

Section append_proofs.
Context `{RelabelLib, MapOrder}.

(** The loop over the external labels tests the original metric. *)
Lemma external_labels_union (m acc ext : Metric) l :
  map_range ext l ->
  foldl (fun acc '(ln, lv) =>
    match m !! ln with Some _ => acc | None => <[ln:=lv]> acc end) acc l =
  filter (fun kv => m !! kv.1 = None) ext ∪ acc.
Proof.
  intros Hl. rewrite <- (map_range_list_to_map ext l Hl).
  pose proof (map_range_NoDup_fst _ _ Hl) as Hnd. clear Hl. revert acc Hnd.
  induction l as [|[k v] l IH]; intros acc Hnd.
  { simpl. by rewrite map_filter_empty, map_empty_union. }
  apply NoDup_cons in Hnd as [Hk Hnd]. cbn [foldl list_to_map foldr].
  change (list_to_map ((k, v) :: l)) with (<[k:=v]> (list_to_map l : Metric)).
  rewrite IH by done. apply not_elem_of_list_to_map_1 in Hk.
  destruct (m !! k) eqn:Hm.
  - rewrite map_filter_insert_False by (simpl; congruence).
    by rewrite delete_id by done.
  - rewrite map_filter_insert_True by done.
    rewrite <- insert_union_l, insert_union_r; [done|].
    apply map_lookup_filter_None. by left.
Qed.

Lemma external_labels_spec (m ext : Metric) copy_order l :
  map_range m copy_order -> map_range ext l ->
  foldl (fun acc '(ln, lv) =>
    match m !! ln with Some _ => acc | None => <[ln:=lv]> acc end) (Clone copy_order) l =
  m ∪ ext.
Proof.
  intros Hm Hl. rewrite (external_labels_union m _ ext l Hl), (Clone_range m) by done.
  apply map_eq. intros k. rewrite !lookup_union, map_lookup_filter.
  destruct (m !! k) eqn:Hk, (ext !! k) eqn:He; simpl; rewrite ?Hk; simplify_option_eq; done.
Qed.

Lemma process_sample_spec (t : QueueManager) copy_order l s :
  map_range (SMetric s) copy_order -> map_range (externalLabels t) l ->
  process_sample t copy_order l s =
    (r ← Process (SMetric s ∪ externalLabels t) (relabelConfigs t);
     Ret (option_map (fun m => mkSample m (SValue s) (STimestamp s)) r)).
Proof.
  intros Hc Hl. unfold process_sample.
  rewrite (external_labels_spec _ (externalLabels t)) by done.
  by destruct (Process _ _) as [[]|].
Qed.

(** No queue is closed, and there is one. *)
Definition open_shards (s : shards) : Prop :=
  s <> [] /\ Forall (fun cw => closed cw.1 = false) s.

Definition shard_of (s : shards) (m : Metric) : nat :=
  Z.to_nat (FastFingerprint m mod Z.of_nat (length s)).

Lemma shard_index_spec s m :
  s <> [] -> shard_index s (FastFingerprint m) = Ret (shard_of s m) /\ (shard_of s m < length s)%nat.
Proof.
  intros Hs. unfold shard_index, shard_of. rewrite uint64_id by apply FastFingerprint_range.
  destruct s as [|cw s]; [done|]. cbn [length Nat.eqb]. split; [done|].
  pose proof (Z.mod_pos_bound (FastFingerprint m) (Z.of_nat (S (length s)))). lia.
Qed.

(** The queue a sample goes to, and what becomes of it. *)
Definition pushed (cap : Z) (c : chan) (s : Sample) : chan :=
  if Z.of_nat (length (buf c)) <? cap then mkChan (buf c ++ [s]) (closed c) else c.

Lemma enqueue_spec (t : QueueManager) s c w :
  qshards t !! shard_of (qshards t) (SMetric s) = Some (c, w) -> closed c = false ->
  enqueue t s = Ret
    (set_qshards (set_rates t (incr (samplesIn t) 1) (samplesOut t) (samplesOutDuration t))
       (<[shard_of (qshards t) (SMetric s) := (pushed (QueueCapacity (qcfg t)) c s, w)]> (qshards t)),
     Z.of_nat (length (buf c)) <? QueueCapacity (qcfg t)).
Proof.
  intros Hs Hc. assert (qshards t <> []) as Hne by (intros Hq; by rewrite Hq in Hs).
  destruct (shard_index_spec (qshards t) (SMetric s) Hne) as [Hi _].
  unfold enqueue. cbn [qshards set_rates qcfg]. rewrite Hi. simpl. rewrite Hs. simpl.
  unfold try_send, pushed. rewrite Hc. case_match; done.
Qed.

(** C12: Append of a queue. The sample that is queued carries the labels of the
    original metric completed with the external labels it does not have (the
    original always wins), relabelled; a sample that relabelling drops leaves
    the queue as it is. Otherwise it goes to the end of the one queue its
    fingerprint selects, if that has room, and to none if not; every other shard
    and that shard's goroutine are untouched, the arrival is counted in both
    cases, and a sample that is not enqueued is counted as dropped. *)
Theorem QueueManager_Append_correct (t : QueueManager) copy_order l s :
  map_range (SMetric s) copy_order -> map_range (externalLabels t) l ->
  open_shards (qshards t) -> Forall valid_config (relabelConfigs t) ->
  exists r, Process (SMetric s ∪ externalLabels t) (relabelConfigs t) = Ret r /\
  match r with
  | None => QueueManager_Append t copy_order l s = Ret (t, None)
  | Some m => exists c w t', let i := shard_of (qshards t) m in
      let room := Z.of_nat (length (buf c)) <? QueueCapacity (qcfg t) in
      qshards t !! i = Some (c, w) /\ QueueManager_Append t copy_order l s = Ret (t', Some room) /\
      qshards t' !! i = Some (pushed (QueueCapacity (qcfg t)) c (mkSample m (SValue s) (STimestamp s)), w) /\
      (forall j, j <> i -> qshards t' !! j = qshards t !! j) /\
      newEvents (samplesIn t') = int64 (newEvents (samplesIn t) + 1) /\
      queueLength (metrics t') = queueLength (metrics t) + (if room then 1 else 0) /\
      droppedSamplesTotal (metrics t') = droppedSamplesTotal (metrics t) + (if room then 0 else 1)
  end.
Proof.
  intros Hc Hl [Hne Hopen] Hv.
  destruct (Process_total (SMetric s ∪ externalLabels t) (relabelConfigs t) Hv) as [r Hr].
  exists r. split; [done|]. unfold QueueManager_Append.
  rewrite process_sample_spec, Hr by done. destruct r as [m|]; simpl; [|done].
  destruct (shard_index_spec (qshards t) m Hne) as [_ Hlt].
  destruct (lookup_lt_is_Some_2 _ _ Hlt) as [[c w] Hcw]. exists c, w.
  pose proof (Forall_lookup_1 _ _ _ _ Hopen Hcw) as Hcl. simpl in Hcl.
  set (s' := mkSample m _ _).
  rewrite (enqueue_spec t s' c w) by done. simpl.
  destruct (_ <? _) eqn:Hroom; eexists; (split; [done|]); (split; [done|]); simpl;
    rewrite list_lookup_insert_eq by done; split_ands; try done; try lia;
    intros j Hj; by rewrite list_lookup_insert_ne.
Qed.

Lemma enqueue_nil (t : QueueManager) s : qshards t = [] -> enqueue t s = Panic PanicDivide.
Proof. unfold enqueue. cbn [qshards set_rates]. by intros ->. Qed.

Lemma enqueue_closed (t : QueueManager) s c w :
  qshards t !! shard_of (qshards t) (SMetric s) = Some (c, w) -> closed c = true ->
  enqueue t s = Panic PanicSendClosed.
Proof.
  intros Hs Hc. assert (qshards t <> []) as Hne by (intros Hq; by rewrite Hq in Hs).
  destruct (shard_index_spec (qshards t) (SMetric s) Hne) as [Hi _].
  unfold enqueue. cbn [qshards set_rates qcfg]. rewrite Hi. simpl. rewrite Hs. simpl.
  unfold try_send. by rewrite Hc.
Qed.

(** What Append and enqueue do to a queue manager that has no shards or
    whose queues are closed: the modulo by the number of queues panics when
    there is none, and a send on a closed queue panics. (Resharding to zero
    shards and appending after Stop lead there.) *)
Theorem enqueue_panics (t : QueueManager) s :
  (qshards t = [] -> enqueue t s = Panic PanicDivide) /\ (qshards t <> [] -> Forall (fun cw => closed cw.1 = true) (qshards t) ->
    enqueue t s = Panic PanicSendClosed).
Proof.
  split; [apply enqueue_nil|]. intros Hne Hcl.
  destruct (shard_index_spec (qshards t) (SMetric s) Hne) as [_ Hlt].
  destruct (lookup_lt_is_Some_2 _ _ Hlt) as [[c w] Hcw].
  apply (enqueue_closed t s c w Hcw). apply (Forall_lookup_1 _ _ _ _ Hcl Hcw).
Qed.

End append_proofs.

(** ** Sending with backoff *)

Section backoff_proofs.
Context {W : Type} `{StorageClient W}.

(** The world before, and the result of, the [k]-th of a run of [Store]s. *)
Fixpoint store_world (samples : list Sample) (k : nat) (w : W) : W :=
  match k with O => w | S k => store_world samples k (Store w samples).1 end.
Definition store_result (samples : list Sample) (k : nat) (w : W) : option store_error :=
  (Store (store_world samples k w) samples).2.

Definition is_recoverable (e : option store_error) : Prop :=
  exists err, e = Some err /\ recoverable err = true.

(** The [k]-th sleep: the first backoff doubled [k] times, up to the maximum. *)
Definition backoff_at (first max : Duration) (k : nat) : Duration :=
  Z.min (first * 2 ^ Z.of_nat k) max.

Lemma backoff_at_S first max k :
  0 <= first -> 0 <= max -> backoff_at (Z.min (first * 2) max) max k = backoff_at first max (S k).
Proof.
  intros Hf Hm. unfold backoff_at. rewrite Nat2Z.inj_succ, Z.pow_succ_r by lia.
  set (p := 2 ^ Z.of_nat k). assert (1 <= p) by (unfold p; lia). nia.
Qed.

Definition sane_backoff (cfg : QueueManagerConfig) (backoff : Duration) : Prop :=
  0 <= backoff <= MaxBackoff cfg /\ 2 * MaxBackoff cfg <= MaxInt64.

Lemma next_backoff cfg backoff :
  sane_backoff cfg backoff ->
  (if int64 (backoff * 2) >? MaxBackoff cfg then MaxBackoff cfg else int64 (backoff * 2)) =
    Z.min (backoff * 2) (MaxBackoff cfg) /\
  sane_backoff cfg (Z.min (backoff * 2) (MaxBackoff cfg)).
Proof.
  unfold sane_backoff. intros [Hb Hm]. rewrite int64_id by (unfold in_int64, MinInt64; lia).
  split; [|lia]. zcases; lia.
Qed.

Record backoff_spec (cfg : QueueManagerConfig) (n : nat) (w : W) (samples : list Sample)
    (backoff : Duration) (r : send_result) : Prop := {
  bs_attempts : (sr_attempts r <= n)%nat;
  bs_world : sr_world r = store_world samples (sr_attempts r) w;
  bs_before : forall k, (S k < sr_attempts r)%nat -> is_recoverable (store_result samples k w);
  bs_ok : sr_ok r = true <->
    exists k, sr_attempts r = S k /\ store_result samples k w = None;
  bs_failed : sr_ok r = false -> sr_attempts r = n \/
    exists k, sr_attempts r = S k /\ ~ is_recoverable (store_result samples k w);
  bs_sleeps : exists k, sr_sleeps r = backoff_at backoff (MaxBackoff cfg) <$> seq 0 k /\
    (k <= sr_attempts r <= S k)%nat
}.

Lemma backoff_loop_spec cfg n w samples backoff :
  sane_backoff cfg backoff ->
  backoff_spec cfg n w samples backoff (backoff_loop cfg n w samples backoff).
Proof.
  revert w backoff. induction n as [|n IH]; intros w backoff Hb; cbn [backoff_loop].
  { constructor; simpl; try done; [lia|split; [done|by intros (?&?&_)]|by left|exists 0%nat; split; [done|lia]]. }
  destruct (Store w samples) as [w1 err] eqn:Hst.
  assert (store_result samples 0 w = err) as H0 by (unfold store_result; simpl; by rewrite Hst).
  assert (forall k, store_world samples (S k) w = store_world samples k w1) as Hw
    by (intros; simpl; by rewrite Hst).
  assert (forall k, store_result samples (S k) w = store_result samples k w1) as Hk
    by (intros; unfold store_result; by rewrite Hw).
  destruct err as [e|]; [destruct (recoverable e) eqn:Hr|]; cbn [negb].
  - cbv zeta. destruct (next_backoff cfg backoff Hb) as [-> Hb'].
    destruct (IH w1 _ Hb') as [Ha Hwr Hbe Hok Hf (s&Hs&Hsl)].
    set (r := backoff_loop _ _ _ _ _) in *. clearbody r.
    constructor; cbn [sr_attempts sr_world sr_ok sr_sleeps].
    + lia.
    + by rewrite Hw.
    + intros [|k] Hlt; [|rewrite Hk; apply Hbe; lia]. rewrite H0. by exists e.
    + rewrite Hok. split; intros (k&Hak&Hrk).
      * exists (S k). rewrite Hk. split; [lia|done].
      * destruct k as [|k]; [congruence|]. exists k. rewrite Hk in Hrk. split; [lia|done].
    + intros Hfa. destruct (Hf Hfa) as [->|(k&Hak&Hrk)]; [by left|right].
      exists (S k). rewrite Hk. split; [lia|done].
    + exists (S s). split; [|lia]. cbn [seq fmap list_fmap]. rewrite Hs. f_equal.
      { unfold backoff_at, sane_backoff in *. simpl. lia. }
      rewrite <- fmap_S_seq, <- list_fmap_compose. apply list_fmap_ext. intros _ k _. simpl.
      unfold sane_backoff in Hb. apply backoff_at_S; lia.
  - constructor; cbn [sr_attempts sr_world sr_ok sr_sleeps].
    + lia.
    + by rewrite Hw.
    + lia.
    + split; [done|]. intros (k&[= <-]&Hn). congruence.
    + intros _. right. exists 0%nat. split; [done|]. rewrite H0.
      intros (e'&[= <-]&Hr'). congruence.
    + exists 0%nat. split; [done|lia].
  - constructor; cbn [sr_attempts sr_world sr_ok sr_sleeps].
    + lia.
    + by rewrite Hw.
    + lia.
    + split; [|done]. intros _. exists 0%nat. done.
    + done.
    + exists 0%nat. split; [done|lia].
Qed.

End backoff_proofs.

Section send_proofs.
Context `{RelabelLib, MapOrder}.
Context {W : Type} `{StorageClient W}.

(** C13: sendSamples. A batch is offered to the client at most MaxRetries times,
    again only after a recoverable error; it is counted exactly once, as
    succeeded if the last Store returned nil and as failed otherwise, which
    happens only after an unrecoverable error or with no retries left. Between
    the attempts it sleeps the minimum backoff, doubled each time up to the
    maximum. The rates that steer the sharding count the batch whatever the
    result. *)
Theorem sendSamples_correct (t : QueueManager) (w : W) (samples : list Sample) elapsed :
  0 <= MinBackoff (qcfg t) <= MaxBackoff (qcfg t) -> 2 * MaxBackoff (qcfg t) <= MaxInt64 ->
  let n := Z.of_nat (length samples) in
  exists t' r, sendSamples t w samples elapsed = (t', r) /\
  Z.of_nat (sr_attempts r) <= Z.max 0 (MaxRetries (qcfg t)) /\
  sr_world r = store_world samples (sr_attempts r) w /\
  (forall k, (S k < sr_attempts r)%nat -> is_recoverable (store_result samples k w)) /\
  (sr_ok r = true <-> exists k, sr_attempts r = S k /\ store_result samples k w = None) /\
  (sr_ok r = false -> Z.of_nat (sr_attempts r) = Z.max 0 (MaxRetries (qcfg t)) \/
    exists k, sr_attempts r = S k /\ ~ is_recoverable (store_result samples k w)) /\
  (exists k, sr_sleeps r =
      (fun i => Z.min (MinBackoff (qcfg t) * 2 ^ Z.of_nat i) (MaxBackoff (qcfg t))) <$> seq 0 k /\
    (k <= sr_attempts r <= S k)%nat) /\
  metrics t' = (if sr_ok r then add_succeeded n else add_failed n) (metrics t) /\
  newEvents (samplesOut t') = int64 (newEvents (samplesOut t) + n) /\
  newEvents (samplesOutDuration t') = int64 (newEvents (samplesOutDuration t) + elapsed) /\
  qshards t' = qshards t /\ samplesIn t' = samplesIn t.
Proof.
  intros Hb Hm n. unfold sendSamples, sendSamplesWithBackoff.
  pose proof (backoff_loop_spec (qcfg t) (Z.to_nat (MaxRetries (qcfg t))) w samples
    (MinBackoff (qcfg t)) (conj Hb Hm)) as [Ha Hw Hbe Hok Hf Hs].
  set (r := backoff_loop _ _ _ _ _) in *. clearbody r.
  eexists _, r. split; [done|]. split_ands; try done.
  - lia.
  - intros Hr. destruct (Hf Hr) as [->|?]; [left; lia|by right].
  - simpl. by destruct (sr_ok r).
Qed.

End send_proofs.

(** ** The desired number of shards *)

Section desired_proofs.
Context `{RelabelLib, MapOrder}.

(** The number of shards the rates of [t] call for, as a float. *)
Definition desired (t : QueueManager) : float64 :=
  let samplesIn := rate (tick (samplesIn t)) in
  let samplesOut := rate (tick (samplesOut t)) in
  let samplesPending := f64_sub samplesIn samplesOut in
  f64_div
    (f64_mul (f64_div (rate (tick (samplesOutDuration t))) samplesOut)
       (f64_add (f64_add samplesIn samplesPending)
          (f64_add (integralAccumulator t) (f64_mul samplesPending (f64_const 1 10)))))
    (f64_of_Z Second).

(** [desired t] is within the tolerance of the current number. *)
Definition tolerated (t : QueueManager) : bool :=
  f64_leb (f64_mul (f64_of_Z (numShards t)) toleranceLow) (desired t) &&
  f64_leb (desired t) (f64_mul (f64_of_Z (numShards t)) toleranceHigh).

(** CalculateDesiredShards. Every call ticks the three rates and moves the
    integral accumulator by a tenth of the pending rate, and touches neither the
    shards nor the counters. A number is sent to reshardLoop exactly when that
    loop is waiting, something was sent in the last intervals, the desired
    number is outside the 30% tolerance, and the desired number, rounded up and
    capped at MaxShards, differs from the present one; then, and only then,
    numShards becomes that number, so that numShards is always the last number
    that was sent. *)
Theorem calculateDesiredShards_correct (oob : float64 -> Z) (t : QueueManager) (ready : bool) :
  let t' := (calculateDesiredShards oob t ready).1 in
  let request := (calculateDesiredShards oob t ready).2 in
  let capped := Z.min (f64_to_int64 oob (f64_ceil (desired t))) (MaxShards (qcfg t)) in
  samplesIn t' = tick (samplesIn t) /\ samplesOut t' = tick (samplesOut t) /\
  samplesOutDuration t' = tick (samplesOutDuration t) /\
  integralAccumulator t' = f64_add (integralAccumulator t)
    (f64_mul (f64_sub (rate (tick (samplesIn t))) (rate (tick (samplesOut t)))) (f64_const 1 10)) /\
  qshards t' = qshards t /\ metrics t' = metrics t /\ qcfg t' = qcfg t /\
  (forall n, request = Some n <->
    ready = true /\ f64_leb (rate (tick (samplesOut t))) f64_zero = false /\
    tolerated t = false /\ n = capped /\ n <> numShards t) /\
  numShards t' = default (numShards t) request /\
  numShards t' <= Z.max (numShards t) (MaxShards (qcfg t)).
Proof.
  cbv zeta. unfold calculateDesiredShards, desired_shards. cbv zeta.
  cbn [set_rates set_accumulator samplesIn samplesOut samplesOutDuration integralAccumulator
    numShards qcfg].
  change (f64_div (f64_mul (f64_div (rate (tick (samplesOutDuration t))) _) _) _) with (desired t).
  fold (tolerated t). set (c := f64_to_int64 oob _).
  assert ((if c >? MaxShards (qcfg t) then MaxShards (qcfg t) else c) =
    Z.min c (MaxShards (qcfg t))) as -> by (zcases; lia).
  set (n := Z.min c _). assert (n <= MaxShards (qcfg t)) by (unfold n; lia). clearbody n.
  destruct (f64_leb (rate (tick (samplesOut t))) f64_zero); [|destruct (tolerated t)];
    [simpl; split_ands; try done; [naive_solver|lia]..|].
  destruct (Z.eqb_spec n (numShards t)); [|destruct ready]; simpl; split_ands; try done;
    try lia; naive_solver.
Qed.

End desired_proofs.

(** ** Concrete runs *)

Section examples.
Import LiteralRelabel.

(** What the amd64 port of Go gives for [int] of a float out of range. *)
Definition amd64_oob (_ : float64) : Z := MinInt64.

(** One interval of [shardUpdateDuration]: [i] samples arrive, [o] samples are
    sent, which takes [d]; then the shards are calculated. *)
Definition interval_step (t : QueueManager) (iod : Z * Z * Duration) : QueueManager * option Z :=
  let '(i, o, d) := iod in
  calculateDesiredShards amd64_oob
    (set_rates t (incr (samplesIn t) i) (incr (samplesOut t) o) (incr (samplesOutDuration t) d)) true.

Definition intervals (t : QueueManager) (l : list (Z * Z * Duration)) : QueueManager * option Z :=
  foldl (fun tr iod => interval_step tr.1 iod) (t, None) l.

(** At every point at most as many samples were sent as had arrived. *)
Fixpoint plausible (backlog : Z) (l : list (Z * Z * Duration)) : bool :=
  match l with
  | [] => true
  | (i, o, d) :: l => (0 <=? i) && (0 <=? o) && (o <=? backlog + i) && (0 <=? d) && plausible (backlog + i - o) l
  end.

(** Nothing keeps the requested number of shards positive. Two load
    histories from a fresh queue with the default configuration, in which
    samples are sent only after they arrived (a quiet interval, a burst, and a
    remote that answers only a minute later): one makes calculateDesiredShards
    ask for 0 shards, and the next Append then panics with a division by zero;
    the other makes it ask for a negative number, and reshard panics in make. *)
Theorem reshard_not_positive :
  (exists t l t', NewQueueManager defaultQueueManagerConfig ∅ [] "q" = Ret t /\
    plausible 0 l = true /\ intervals t l = (t', Some 0) /\
    exists s, newShards (qcfg t') 0 = Ret s /\
      forall sample, enqueue (set_qshards t' s) sample = Panic PanicDivide) /\
  (exists t l t' n, NewQueueManager defaultQueueManagerConfig ∅ [] "q" = Ret t /\
    plausible 0 l = true /\ intervals t l = (t', Some n) /\ n < 0 /\
    newShards (qcfg t') n = Panic PanicMakeLen).
Proof.
  split.
  - eexists _, [(0, 0, 0); (1000, 0, 0); (0, 0, 0); (0, 0, 0); (0, 0, 0); (0, 0, 0); (0, 0, 0);
      (0, 0, 0); (0, 1000, 60 * Second)], _.
    split; [reflexivity|]. split; [reflexivity|]. split; [vm_compute; reflexivity|].
    exists []. split; [reflexivity|]. intros sample. by apply enqueue_nil.
  - eexists _, [(0, 0, 0); (100000, 0, 0); (0, 0, 0); (0, 0, 0); (0, 0, 0); (0, 0, 0); (0, 0, 0);
      (0, 0, 0); (0, 0, 0); (0, 100000, 60000 * Second)], _, (-397).
    split; [reflexivity|]. split; [reflexivity|]. split; [vm_compute; reflexivity|].
    split; [lia|reflexivity].
Qed.

Definition example_queue : QueueManager :=
  mkQueueManager defaultQueueManagerConfig {["a" := "ext"; "b" := "ext"]} [] "q"
    [(mkChan [] false, WSelect [])] 1
    (newEWMARate ewmaWeight shardUpdateDuration) (newEWMARate ewmaWeight shardUpdateDuration)
    (newEWMARate ewmaWeight shardUpdateDuration) f64_zero (mkMetrics 0 0 0 0).

Definition example_sample : Sample := mkSample {["a" := "own"]} (f64_of_Z 1) 7.

Lemma QueueManager_Append_correct_witness :
  exists t', QueueManager_Append example_queue (map_to_list (SMetric example_sample))
    (map_to_list (externalLabels example_queue)) example_sample = Ret (t', Some true) /\
  qshards t' = [(mkChan [mkSample {["a" := "own"; "b" := "ext"]} (f64_of_Z 1) 7] false, WSelect [])].
Proof.
  destruct (QueueManager_Append_correct example_queue (map_to_list (SMetric example_sample))
    (map_to_list (externalLabels example_queue)) example_sample)
    as (r&Hr&Ht).
  - apply map_range_refl.
  - apply map_range_refl.
  - split; [done|]. by constructor.
  - constructor.
  - vm_compute in Hr. injection Hr as <-. destruct Ht as (c&w&t'&_&Ht'&_).
    vm_compute in Ht'. eexists. split; [vm_compute; reflexivity|]. vm_compute. reflexivity.
Defined.

(** A remote that fails with the recoverable errors of a script. *)
#[local] Instance scripted : StorageClient (list (option store_error)) := {|
  Store script _ :=
    match script with [] => ([], None) | e :: script => (script, e) end;
  Name := "scripted"
|}.

Definition busy : option store_error := Some (mkStoreError "busy" true).

Lemma sendSamples_correct_witness :
  exists t' r, sendSamples example_queue [busy; busy; None] [example_sample] 5
    = (t', r) /\ metrics t' = mkMetrics 1 0 0 0 /\
    sr_attempts r = 3%nat /\ sr_sleeps r = [30 * Millisecond; 60 * Millisecond].
Proof.
  destruct (sendSamples_correct example_queue [busy; busy; None] [example_sample] 5)
    as (t'&r&Hs&_&_&_&_&_&_&Hm&_).
  - vm_compute. split; discriminate.
  - vm_compute. discriminate.
  - exists t', r. split; [done|]. vm_compute in Hs. injection Hs as <- <-. done.
Defined.

End examples.
