(* ===== verification/Shards.v ===== *)
(** * The goroutines of a remote write queue ([storage/remote/queue_manager.go])

    A queue runs one goroutine per shard, [updateShardsLoop], [reshardLoop], and
    the goroutines that call Append and Stop. This file gives the system they
    form as an executable step function on events: an event is the next atomic
    step of one of them, [None] says that it is not enabled (the goroutine
    blocks or is elsewhere), and a panic is an outcome. Two history variables
    record the samples the queue accepted and the batches it sent. *)
From S2P Require Import Prelude Model MetricPkg Relabel Ewma Queue.

Open Scope Z_scope.

Inductive updater := UNotStarted | URunning | UExited.

(** [reshardLoop]: in its select, called with [n], after the swap, waiting for
    the goroutines of the old shards, gone. *)
Inductive resharder :=
  | RNotStarted
  | RIdle
  | RGot (n : Z)
  | RSwapped (oldShards : shards)
  | RStopping (oldShards : shards)
  | RExited.

Inductive event :=
  | EStart
  | EAppend (copy_order labels_order : list (LabelName * LabelValue)) (s : Sample)
  | EReceive (old : bool) (i : nat)
  | EDeadline (old : bool) (i : nat)
  | ESent (old : bool) (i : nat) (elapsed : Duration)
  | EUpdate (ready : bool)
  | EReshard
  | ECloseOld
  | EStartNew
  | EStop
  | EUpdaterExit
  | EResharderExit
  | EStopShards.

Definition close_all (s : shards) : shards := (fun cw => (mkChan (buf cw.1) true, cw.2)) <$> s.

Definition is_done (w : worker) : bool := match w with WDone => true | _ => false end.

(** The wait group of the shards is at zero. *)
Definition all_done (s : shards) : bool := forallb (fun cw => is_done cw.2) s.

Section system.
Context `{RelabelLib, MapOrder}.
Context {W : Type} `{StorageClient W}.
Variable oob : float64 -> Z.

Record system := mkSystem {
  qm : QueueManager;
  upd : updater;
  resh : resharder;
  quit : bool;
  (** Stop has closed the queues *)
  stopping : bool;
  world : W;
  (** history: the samples enqueued, and the batches sent, in order *)
  accepted : list Sample;
  sent : list (list Sample)
}.

Definition set_qm (s : system) (t : QueueManager) : system :=
  mkSystem t (upd s) (resh s) (quit s) (stopping s) (world s) (accepted s) (sent s).
Definition set_upd (s : system) (u : updater) : system :=
  mkSystem (qm s) u (resh s) (quit s) (stopping s) (world s) (accepted s) (sent s).
Definition set_resh (s : system) (r : resharder) : system :=
  mkSystem (qm s) (upd s) r (quit s) (stopping s) (world s) (accepted s) (sent s).

Definition initial_system (t : QueueManager) (w : W) : system :=
  mkSystem t UNotStarted RNotStarted false false w [] [].

(** The shards a goroutine belongs to: those of the manager, or the old ones
    that [reshard] is stopping. *)
Definition gen_shards (s : system) (old : bool) : option shards :=
  if old then match resh s with RSwapped o | RStopping o => Some o | _ => None end
  else Some (qshards (qm s)).

Definition set_gen (s : system) (old : bool) (sh : shards) : system :=
  if old then
    match resh s with
    | RSwapped _ => set_resh s (RSwapped sh)
    | RStopping _ => set_resh s (RStopping sh)
    | _ => s
    end
  else set_qm s (set_qshards (qm s) sh).

Definition with_metrics (s : system) (f : queue_metrics -> queue_metrics) : system :=
  set_qm s (set_metrics (qm s) (f (metrics (qm s)))).

(** [Start]: the two loops, and the goroutines of the shards. The program never
    starts a queue it has stopped. *)
Definition step_start (s : system) : option (outcome system) :=
  match upd s, resh s, quit s with
  | UNotStarted, RNotStarted, false =>
      Some (Ret (mkSystem (set_qshards (qm s) (start_shards (qshards (qm s)))) URunning RIdle
        (quit s) (stopping s) (world s) (accepted s) (sent s)))
  | _, _, _ => None
  end.

(** Append; it waits for the mutex while [Stop] holds it. *)
Definition step_append (s : system) copy_order labels_order (sample : Sample)
    : option (outcome system) :=
  if stopping s && negb (all_done (qshards (qm s))) then None
  else Some (
    p ← process_sample (qm s) copy_order labels_order sample;
    r ← QueueManager_Append (qm s) copy_order labels_order sample;
    Ret (mkSystem r.1 (upd s) (resh s) (quit s) (stopping s) (world s)
      (match p, r.2 with Some snew, Some true => accepted s ++ [snew] | _, _ => accepted s end)
      (sent s))).

Definition step_receive (s : system) (old : bool) (i : nat) : option (outcome system) :=
  sh ← gen_shards s old; cw ← sh !! i;
  r ← runShard_receive (qcfg (qm s)) cw.1 cw.2;
  Some (
    r ← r;
    let '(c, w, received) := r in
    let s := set_gen s old (<[i := (c, w)]> sh) in
    Ret (if received : bool then with_metrics s (add_queueLength (-1)) else s)).

Definition step_deadline (s : system) (old : bool) (i : nat) : option (outcome system) :=
  sh ← gen_shards s old; cw ← sh !! i;
  w ← runShard_deadline cw.2;
  Some (Ret (set_gen s old (<[i := (cw.1, w)]> sh))).

(** [sendSamples] runs and returns. *)
Definition step_sent (s : system) (old : bool) (i : nat) (elapsed : Duration)
    : option (outcome system) :=
  sh ← gen_shards s old; cw ← sh !! i;
  batch ← sending cw.2;
  let '(t, r) := sendSamples (qm s) (world s) batch elapsed in
  let s := mkSystem t (upd s) (resh s) (quit s) (stopping s) (sr_world r) (accepted s)
             (sent s ++ [batch]) in
  Some (
    w ← runShard_sent (qcfg t) cw.2;
    Ret (set_gen s old (<[i := (cw.1, w)]> sh))).

Definition is_idle (r : resharder) : bool := match r with RIdle => true | _ => false end.

(** [updateShardsLoop] takes a tick; [ready] when [reshardLoop] is blocked in
    its select at that moment. *)
Definition step_update (s : system) (ready : bool) : option (outcome system) :=
  match upd s with
  | URunning =>
      if ready && negb (is_idle (resh s)) then None else
      let '(t, n) := calculateDesiredShards oob (qm s) ready in
      let s := set_qm s t in
      Some (Ret (match n with Some n => set_resh s (RGot n) | None => s end))
  | _ => None
  end.

(** [reshard]: new shards, swapped in under the mutex; the old ones are
    stopped; then the new ones are started. *)
Definition step_reshard (s : system) : option (outcome system) :=
  match resh s with
  | RGot n => Some (
      newShards ← newShards (qcfg (qm s)) n;
      let oldShards := qshards (qm s) in
      Ret (set_resh (set_qm s (set_qshards (qm s) newShards)) (RSwapped oldShards)))
  | _ => None
  end.

Definition step_close_old (s : system) : option (outcome system) :=
  match resh s with
  | RSwapped oldShards => Some (Ret (set_resh s (RStopping (close_all oldShards))))
  | _ => None
  end.

Definition step_start_new (s : system) : option (outcome system) :=
  match resh s with
  | RStopping oldShards =>
      if all_done oldShards then
        Some (Ret (set_resh (set_qm s (set_qshards (qm s) (start_shards (qshards (qm s))))) RIdle))
      else None
  | _ => None
  end.

(** [Stop]: [close(t.quit)], wait for the loops, stop the shards. *)
Definition step_stop (s : system) : option (outcome system) :=
  Some (if quit s then Panic PanicCloseClosed
        else Ret (mkSystem (qm s) (upd s) (resh s) true (stopping s) (world s) (accepted s) (sent s))).

Definition step_updater_exit (s : system) : option (outcome system) :=
  match upd s with URunning => if quit s then Some (Ret (set_upd s UExited)) else None | _ => None end.

Definition step_resharder_exit (s : system) : option (outcome system) :=
  match resh s with RIdle => if quit s then Some (Ret (set_resh s RExited)) else None | _ => None end.

Definition loops_gone (s : system) : bool :=
  match upd s, resh s with
  | UNotStarted, RNotStarted | UExited, RExited => true
  | _, _ => false
  end.

Definition step_stop_shards (s : system) : option (outcome system) :=
  if quit s && loops_gone s && negb (stopping s) then
    Some (Ret (mkSystem (set_qshards (qm s) (close_all (qshards (qm s)))) (upd s) (resh s)
      (quit s) true (world s) (accepted s) (sent s)))
  else None.

(** [Stop] has returned. *)
Definition stopped (s : system) : Prop :=
  stopping s = true /\ all_done (qshards (qm s)) = true.

Definition qstep (e : event) (s : system) : option (outcome system) :=
  match e with
  | EStart => step_start s
  | EAppend copy_order labels_order sample => step_append s copy_order labels_order sample
  | EReceive old i => step_receive s old i
  | EDeadline old i => step_deadline s old i
  | ESent old i elapsed => step_sent s old i elapsed
  | EUpdate ready => step_update s ready
  | EReshard => step_reshard s
  | ECloseOld => step_close_old s
  | EStartNew => step_start_new s
  | EStop => step_stop s
  | EUpdaterExit => step_updater_exit s
  | EResharderExit => step_resharder_exit s
  | EStopShards => step_stop_shards s
  end.

(** A run of the system; an event that is not enabled ends it with [None]. *)
Fixpoint qrun (es : list event) (s : system) : option (outcome system) :=
  match es with
  | [] => Some (Ret s)
  | e :: es =>
      match qstep e s with
      | Some (Ret s) => qrun es s
      | r => r
      end
  end.

(** The iteration orders an Append is given are orders of its maps. *)
Definition fair_event (s : system) (e : event) : Prop :=
  match e with
  | EAppend copy_order labels_order sample =>
      map_range (SMetric sample) copy_order /\ map_range (externalLabels (qm s)) labels_order
  | _ => True
  end.

Inductive reachable (s0 : system) : system -> Prop :=
  | reachable_refl : reachable s0 s0
  | reachable_step s e s' :
      reachable s0 s -> fair_event s e -> qstep e s = Some (Ret s') -> reachable s0 s'.

(** ** The samples in flight *)

Definition fp_of (s : Sample) : Z := FastFingerprint (SMetric s).
Definition shard_ix (n : nat) (fp : Z) : nat := Z.to_nat (fp mod Z.of_nat n).

Definition holding (w : worker) : list Sample :=
  match w with
  | WNotStarted | WDone => []
  | WSelect pending => pending
  | WSending batch rest => batch ++ rest
  | WDeadline batch | WFlushing batch => batch
  end.

(** What a shard has accepted and not sent, oldest first. *)
Definition content (cw : chan * worker) : list Sample := holding cw.2 ++ buf cw.1.

Definition with_key (fp : Z) (l : list Sample) : list Sample := filter (fun x => fp_of x = fp) l.

Definition backlog (sh : shards) (fp : Z) : list Sample :=
  match sh !! shard_ix (length sh) fp with Some cw => with_key fp (content cw) | None => [] end.

(** A batch that may be sent. *)
Definition good_batch (cfg : QueueManagerConfig) (b : list Sample) : Prop :=
  1 <= Z.of_nat (length b) <= MaxSamplesPerSend cfg.

Definition worker_ok (cfg : QueueManagerConfig) (w : worker) : Prop :=
  match w with
  | WNotStarted | WDone => True
  | WSelect pending => Z.of_nat (length pending) < MaxSamplesPerSend cfg
  | WSending batch _ => good_batch cfg batch
  | WDeadline batch | WFlushing batch => good_batch cfg batch
  end.

(** The invariant of the shard with index [i] of [n]. *)
Record shard_ok (cfg : QueueManagerConfig) (n i : nat) (cw : chan * worker) : Prop := {
  so_key : Forall (fun x => shard_ix n (fp_of x) = i) (content cw);
  so_cap : Z.of_nat (length (buf cw.1)) <= QueueCapacity cfg;
  so_worker : worker_ok cfg cw.2;
  so_done : cw.2 = WDone -> buf cw.1 = [] /\ closed cw.1 = true;
  so_flush : forall b, cw.2 = WFlushing b -> buf cw.1 = [] /\ closed cw.1 = true
}.

Definition shards_ok (cfg : QueueManagerConfig) (sh : shards) : Prop :=
  forall i cw, sh !! i = Some cw -> shard_ok cfg (length sh) i cw.

Lemma with_key_app fp l k : with_key fp (l ++ k) = with_key fp l ++ with_key fp k.
Proof. apply filter_app. Qed.

Lemma with_key_nil_of fp n i l :
  Forall (fun x => shard_ix n (fp_of x) = i) l -> shard_ix n fp <> i -> with_key fp l = [].
Proof.
  intros Hl Hi. apply filter_none. eapply Forall_impl; [exact Hl|]. simpl. congruence.
Qed.

(** One shard changes: it has got rid of [b] and taken in [k]. *)
Lemma backlog_update cfg (sh : shards) i cw cw' b k :
  shards_ok cfg sh -> sh !! i = Some cw ->
  Forall (fun x => shard_ix (length sh) (fp_of x) = i) k ->
  content cw ++ k = b ++ content cw' ->
  forall fp, backlog sh fp ++ with_key fp k = with_key fp b ++ backlog (<[i := cw']> sh) fp.
Proof.
  intros Hok Hi Hk Hc fp. unfold backlog. rewrite length_insert.
  destruct (decide (shard_ix (length sh) fp = i)) as [->|Hne].
  - rewrite Hi, list_lookup_insert_eq by by eapply lookup_lt_Some.
    by rewrite <- !with_key_app, Hc.
  - rewrite list_lookup_insert_ne by done.
    pose proof (so_key _ _ _ _ (Hok i cw Hi)) as Hcw.
    assert (Forall (fun x => shard_ix (length sh) (fp_of x) = i) (b ++ content cw')) as Hb.
    { rewrite <- Hc. by apply Forall_app. }
    apply Forall_app in Hb as [Hb _].
    rewrite (with_key_nil_of fp _ i k), (with_key_nil_of fp _ i b) by done. by rewrite app_nil_r.
Qed.

Lemma shards_ok_insert cfg (sh : shards) i cw' :
  shards_ok cfg sh -> shard_ok cfg (length sh) i cw' -> shards_ok cfg (<[i := cw']> sh).
Proof.
  intros Hok Hcw' j cw Hj. rewrite length_insert.
  destruct (decide (i = j)) as [<-|Hne].
  - rewrite list_lookup_insert_eq in Hj; [by injection Hj as <-|].
    apply lookup_lt_Some in Hj. by rewrite length_insert in Hj.
  - rewrite list_lookup_insert_ne in Hj by done. by apply Hok.
Qed.

(** A change of the shards that keeps every queue's contents. *)
Definition same_content (sh sh' : shards) : Prop :=
  Forall2 (fun cw cw' => content cw' = content cw) sh sh'.

Lemma backlog_same_content sh sh' fp : same_content sh sh' -> backlog sh' fp = backlog sh fp.
Proof.
  intros Hs. unfold backlog. rewrite <- (Forall2_length _ _ _ Hs).
  destruct (sh !! _) as [cw|] eqn:Hi.
  - destruct (Forall2_lookup_l _ _ _ _ _ Hs Hi) as (cw'&->&->). done.
  - destruct (sh' !! _) as [cw'|] eqn:Hi'; [|done].
    destruct (Forall2_lookup_r _ _ _ _ _ Hs Hi') as (cw&?&_). congruence.
Qed.

Lemma backlog_all_done cfg sh fp : shards_ok cfg sh -> all_done sh = true -> backlog sh fp = [].
Proof.
  intros Hok Hd. unfold backlog. destruct (sh !! _) as [[c w]|] eqn:Hi; [|done].
  unfold all_done in Hd. rewrite forallb_forall in Hd.
  specialize (Hd (c, w)). rewrite <- list_elem_of_In in Hd.
  specialize (Hd (list_elem_of_lookup_2 _ _ _ Hi)). destruct w; try done.
  destruct (so_done _ _ _ _ (Hok _ _ Hi) eq_refl) as [Hb _]. unfold content. simpl in *.
  by rewrite Hb.
Qed.

Lemma backlog_fresh n fp cw : content cw = [] -> backlog (replicate n cw) fp = [].
Proof.
  intros Hc. unfold backlog. destruct (replicate _ _ !! _) as [cw'|] eqn:Hi; [|done].
  apply lookup_replicate in Hi as [-> _]. by rewrite Hc.
Qed.

(** ** One step of a shard's goroutine *)

Definition well_configured (cfg : QueueManagerConfig) : Prop :=
  1 <= MaxSamplesPerSend cfg /\ 0 <= QueueCapacity cfg.

Definition not_started (cw : chan * worker) : Prop := cw.2 = WNotStarted.
#[local] Instance not_started_dec cw : Decision (not_started cw).
Proof. unfold not_started. destruct (cw.2); (by left) || (by right). Defined.

(** The shard with index [i] of [n] goes from [cw] to [cw'] and sends [b]. *)
Record shard_step (cfg : QueueManagerConfig) (n i : nat) (cw : chan * worker) (b : list Sample)
    (cw' : chan * worker) : Prop := {
  ss_content : content cw = b ++ content cw';
  ss_ok : shard_ok cfg n i cw';
  ss_closed : closed cw'.1 = closed cw.1;
  ss_before : ~ not_started cw;
  ss_after : ~ not_started cw'
}.

Lemma batch_loop_spec cfg pending :
  well_configured cfg ->
  exists w, batch_loop cfg pending = Ret w /\ holding w = pending /\ worker_ok cfg w /\
    w <> WNotStarted /\ w <> WDone /\ (forall b, w <> WFlushing b).
Proof.
  intros [Hm _]. unfold batch_loop. destruct (Z.leb_spec (MaxSamplesPerSend cfg) (Z.of_nat (length pending))).
  - destruct (Z.ltb_spec (MaxSamplesPerSend cfg) 0); [lia|]. eexists. split; [done|].
    simpl. rewrite take_drop. split_ands; try done; unfold good_batch; rewrite length_take; lia.
  - eexists. split; [done|]. split_ands; try done.
Qed.

Lemma receive_step cfg n i c w r :
  well_configured cfg -> shard_ok cfg n i (c, w) -> runShard_receive cfg c w = Some r ->
  exists c' w' got, r = Ret (c', w', got) /\ shard_step cfg n i (c, w) [] (c', w') /\
    Z.of_nat (length (buf c)) = Z.of_nat (length (buf c')) + (if got : bool then 1 else 0).
Proof.
  intros Hcfg [Hkey Hcap Hw Hd Hf]. destruct w as [|pending|??|?|?|]; try done. simpl in *.
  destruct c as [[|x l] cl]; simpl in *.
  - destruct cl; [|done]. intros [= <-]. eexists _, _, _. split; [done|]. split; [|simpl; lia].
    destruct (Nat.ltb_spec 0 (length pending)) as [Hp|Hp].
    + constructor; try done. constructor; try done. simpl. unfold good_batch. lia.
    + destruct pending; [|simpl in Hp; lia]. constructor; try done.
  - intros [= <-]. destruct (batch_loop_spec cfg (pending ++ [x]) Hcfg) as (w'&->&Hh&Hok&Hx1&Hx2&Hx3).
    simpl. eexists _, _, _. split; [done|]. split; [|simpl; lia].
    unfold content in *. simpl in *.
    constructor; try done; unfold content; simpl; [by rewrite Hh, <- app_assoc|].
    constructor; unfold content; simpl; rewrite ?Hh, <- ?app_assoc; try done; [lia|].
    intros b Hb. by destruct (Hx3 b).
Qed.

Lemma deadline_step cfg n i c w w' :
  well_configured cfg -> shard_ok cfg n i (c, w) -> runShard_deadline w = Some w' ->
  shard_step cfg n i (c, w) [] (c, w').
Proof.
  intros Hcfg [Hkey Hcap Hw Hd Hf]. destruct w as [|pending|??|?|?|]; try done. simpl in *.
  intros [= <-]. destruct (Nat.ltb_spec 0 (length pending)); constructor; try done;
    constructor; try done. simpl. unfold good_batch. lia.
Qed.

Lemma sent_step cfg n i c w b :
  well_configured cfg -> shard_ok cfg n i (c, w) -> sending w = Some b ->
  good_batch cfg b /\
  exists w', runShard_sent cfg w = Ret w' /\ shard_step cfg n i (c, w) b (c, w').
Proof.
  intros Hcfg [Hkey Hcap Hw Hd Hf]. unfold content in Hkey. destruct w as [|pending|b' rest|b'|b'|];
    try done; simpl in *; intros [= ->]; (split; [done|]); apply Forall_app in Hkey as [Hk1 Hk2].
  - apply Forall_app in Hk1 as [Hk1 Hk3].
    destruct (batch_loop_spec cfg rest Hcfg) as (w'&->&Hh&Hok&Hx1&Hx2&Hx3).
    exists w'. split; [done|]. constructor; try done; unfold content; simpl; rewrite ?Hh, <- ?app_assoc;
      try done. constructor; unfold content; simpl; rewrite ?Hh; try done; [by apply Forall_app|].
    intros b' Hb. by destruct (Hx3 b').
  - eexists. split; [done|]. constructor; try done. constructor; try done.
    simpl. destruct Hcfg. lia.
  - eexists. split; [done|]. destruct (Hf _ eq_refl) as [Hb Hc].
    constructor; try done; constructor; try done.
Qed.

(** ** The invariant of the system *)

Definition closed_is (b : bool) (cw : chan * worker) : Prop := closed cw.1 = b.

Definition old_backlog (s : system) (fp : Z) : list Sample :=
  match gen_shards s true with Some o => backlog o fp | None => [] end.

Record inv (s : system) : Prop := {
  inv_cfg : well_configured (qcfg (qm s));
  inv_valid : Forall valid_config (relabelConfigs (qm s));
  inv_ok : forall old sh, gen_shards s old = Some sh -> shards_ok (qcfg (qm s)) sh;
  inv_order fp : with_key fp (accepted s) =
    with_key fp (concat (sent s)) ++ old_backlog s fp ++ backlog (qshards (qm s)) fp;
  inv_batches : Forall (good_batch (qcfg (qm s))) (sent s);
  inv_waiting : is_Some (gen_shards s true) \/ resh s = RNotStarted ->
    Forall not_started (qshards (qm s));
  inv_running : gen_shards s true = None -> resh s <> RNotStarted ->
    Forall (fun cw => ~ not_started cw) (qshards (qm s));
  inv_old : forall o, gen_shards s true = Some o -> Forall (fun cw => ~ not_started cw) o;
  inv_closed : Forall (closed_is (stopping s)) (qshards (qm s));
  inv_old_closed : match resh s with
    | RSwapped o => Forall (closed_is false) o
    | RStopping o => Forall (closed_is true) o
    | _ => True
    end;
  inv_stopping : stopping s = true -> quit s = true /\ loops_gone s = true;
  inv_loops : upd s = UNotStarted <-> resh s = RNotStarted
}.

(** Two managers that differ only in their rates and counters. *)
Definition same_queues (t t' : QueueManager) : Prop :=
  qcfg t' = qcfg t /\ qshards t' = qshards t /\ relabelConfigs t' = relabelConfigs t.

Lemma Forall_insert_eq {A} (P : A -> Prop) l i x :
  Forall P l -> (forall y, l !! i = Some y -> P x) -> Forall P (<[i := x]> l).
Proof.
  intros Hl Hx. destruct (l !! i) as [y|] eqn:Hi.
  - apply Forall_insert; eauto.
  - rewrite list_insert_ge; [done|]. by apply lookup_ge_None.
Qed.

(** A goroutine of a shard takes a step. *)
Lemma inv_gen_step s t w old sh i cw cw' b bs :
  inv s -> same_queues (qm s) t -> gen_shards s old = Some sh -> sh !! i = Some cw ->
  shard_step (qcfg (qm s)) (length sh) i cw b cw' ->
  concat bs = b -> Forall (good_batch (qcfg (qm s))) bs ->
  inv (set_gen (mkSystem t (upd s) (resh s) (quit s) (stopping s) w (accepted s) (sent s ++ bs))
         old (<[i := cw']> sh)).
Proof.
  intros Hs (Hq1&Hq2&Hq3) Hgen Hi [Hc Hok Hcl Hns Hns'] Hbs Hgood. destruct Hs as [I1 I0 I2 I3 I4 I5 I6 I7 I8 I9 IA IB].
  pose proof (I2 _ _ Hgen) as Hsh.
  assert (forall fp, backlog sh fp = with_key fp b ++ backlog (<[i:=cw']> sh) fp) as Hback.
  { intros fp. rewrite <- (backlog_update _ sh i cw cw' b [] Hsh Hi), app_nil_r; [done|constructor|].
    by rewrite app_nil_r. }
  assert (shards_ok (qcfg (qm s)) (<[i:=cw']> sh)) as Hsh' by (by apply shards_ok_insert).
  destruct old; simpl in Hgen.
  - (* the shards that are being stopped *)
    destruct (resh s) as [| | |o|o|] eqn:Hr; try done; injection Hgen as ->;
      (constructor; unfold old_backlog, gen_shards, loops_gone in *; simpl in *;
       rewrite ?Hq1, ?Hq2, ?Hq3, ?Hr in *; try done;
       [intros [] ?; [intros [= <-]; done|by apply (I2 false)]
       |intros fp; rewrite concat_app, Hbs, with_key_app, I3, Hback, <- !app_assoc; done
       |by apply Forall_app
       |intros _; apply I5; left; by eexists
       |intros o' [= <-]; apply Forall_insert_eq; [by apply I7|done]
       |apply Forall_insert_eq; [done|];
        intros y Hy; assert (y = cw) as -> by congruence;
        pose proof (Forall_lookup_1 _ _ _ _ I9 Hi) as Hx; unfold closed_is in *; congruence
       |split; [intros Hu; by apply IB in Hu|done]]).
  - (* the current shards *)
    injection Hgen as <-.
    assert (gen_shards s true = None /\ resh s <> RNotStarted) as [Hno Hst].
    { destruct (gen_shards s true) eqn:Hg.
      - destruct Hns. by eapply (Forall_lookup_1 not_started); [apply I5; left; by eexists|].
      - split; [done|]. intros Hr. destruct Hns.
        by eapply (Forall_lookup_1 not_started); [apply I5; by right|]. }
    unfold old_backlog in I3. rewrite Hno in I3.
    constructor; unfold old_backlog; simpl; rewrite ?Hq1, ?Hq3; try done.
    + intros [] sh'; simpl; [|by intros [= <-]].
      simpl in Hno. rewrite Hno. done.
    + intros fp. simpl in Hno. rewrite Hno, concat_app, Hbs, with_key_app, I3, Hback.
      simpl. by rewrite <- app_assoc.
    + by apply Forall_app.
    + intros [Hx|Hx]; [|done]. simpl in Hx, Hno. rewrite Hno in Hx. by destruct Hx.
    + intros _ _. apply Forall_insert_eq; [by apply I6|done].
    + apply Forall_insert_eq; [done|]. intros y Hy. assert (y = cw) as -> by congruence.
      pose proof (Forall_lookup_1 _ _ _ _ I8 Hi) as Hx. unfold closed_is in *. congruence.
Qed.

Lemma inv_set_qm s t : inv s -> same_queues (qm s) t -> inv (set_qm s t).
Proof.
  intros [I1 I0 I2 I3 I4 I5 I6 I7 I8 I9 IA IB] (Hq1&Hq2&Hq3).
  constructor; unfold old_backlog, gen_shards, loops_gone in *; simpl in *;
    rewrite ?Hq1, ?Hq2, ?Hq3; try done.
Qed.

Lemma same_queues_refl t : same_queues t t.
Proof. done. Qed.

Lemma inv_receive s old i r s' :
  inv s -> step_receive s old i = Some r -> r = Ret s' -> inv s'.
Proof.
  intros Hs Hst ->. unfold step_receive in Hst.
  destruct (gen_shards s old) as [sh|] eqn:Hgen; [|done]. simpl in Hst.
  destruct (sh !! i) as [[c w]|] eqn:Hi; [|done]. simpl in Hst.
  destruct (runShard_receive _ c w) as [r|] eqn:Hr; [|done]. simpl in Hst.
  destruct (receive_step _ _ _ _ _ _ (inv_cfg _ Hs) (inv_ok _ Hs _ _ Hgen _ _ Hi) Hr)
    as (c'&w'&got&->&Hstep&_). simpl in Hst.
  pose proof (inv_gen_step s (qm s) (world s) old sh i (c, w) (c', w') [] [] Hs
    (same_queues_refl _) Hgen Hi Hstep eq_refl (Forall_nil_2 _)) as Hinv.
  rewrite app_nil_r in Hinv.
  replace (mkSystem _ _ _ _ _ _ _ _) with s in Hinv by (by destruct s).
  injection Hst as <-. destruct got; [by apply inv_set_qm|done].
Qed.

Lemma inv_deadline s old i r s' :
  inv s -> step_deadline s old i = Some r -> r = Ret s' -> inv s'.
Proof.
  intros Hs Hst ->. unfold step_deadline in Hst.
  destruct (gen_shards s old) as [sh|] eqn:Hgen; [|done]. simpl in Hst.
  destruct (sh !! i) as [[c w]|] eqn:Hi; [|done]. simpl in Hst.
  destruct (runShard_deadline w) as [w'|] eqn:Hr; [|done]. simpl in Hst.
  pose proof (deadline_step _ _ _ _ _ _ (inv_cfg _ Hs) (inv_ok _ Hs _ _ Hgen _ _ Hi) Hr) as Hstep.
  pose proof (inv_gen_step s (qm s) (world s) old sh i (c, w) (c, w') [] [] Hs
    (same_queues_refl _) Hgen Hi Hstep eq_refl (Forall_nil_2 _)) as Hinv.
  rewrite app_nil_r in Hinv.
  replace (mkSystem _ _ _ _ _ _ _ _) with s in Hinv by (by destruct s).
  by injection Hst as <-.
Qed.

Lemma sendSamples_same_queues (t : QueueManager) (w : W) b d :
  same_queues t (sendSamples t w b d).1.
Proof. done. Qed.

Lemma inv_sent s old i d r s' :
  inv s -> step_sent s old i d = Some r -> r = Ret s' -> inv s'.
Proof.
  intros Hs Hst ->. unfold step_sent in Hst.
  destruct (gen_shards s old) as [sh|] eqn:Hgen; [|done]. simpl in Hst.
  destruct (sh !! i) as [[c w]|] eqn:Hi; [|done]. simpl in Hst.
  destruct (sending w) as [b|] eqn:Hw; [|done]. simpl in Hst.
  destruct (sent_step _ _ _ _ _ _ (inv_cfg _ Hs) (inv_ok _ Hs _ _ Hgen _ _ Hi) Hw)
    as (Hb&w'&Hw'&Hstep). rewrite Hw' in Hst. injection Hst as <-.
  apply (inv_gen_step s _ _ old sh i (c, w) (c, w') b [b]); try done.
  - simpl. apply app_nil_r.
  - by constructor.
Qed.

Lemma calculate_same_queues t ready : same_queues t (calculateDesiredShards oob t ready).1.
Proof.
  unfold calculateDesiredShards, desired_shards. cbv zeta. repeat case_match; simplify_eq/=; done.
Qed.

Lemma inv_set_resh s r :
  inv s -> resh s = RIdle -> (exists n, r = RGot n) \/ (r = RExited /\ stopping s = false) ->
  inv (set_resh s r).
Proof.
  intros [I1 I0 I2 I3 I4 I5 I6 I7 I8 I9 IA IB] Hr Hr'.
  constructor; unfold old_backlog, gen_shards, loops_gone in *; rewrite Hr in *; simpl in *;
    destruct Hr' as [[n ->]|[-> Hst]]; try done.
  1-2: intros [Hx|Hx]; [by destruct Hx|done].
  1-2: intros _ _; by apply I6.
  - congruence.
  - split; [intros Hu; by apply IB in Hu|done].
  - split; [intros Hu; by apply IB in Hu|done].
Qed.

Lemma inv_update s ready r s' :
  inv s -> step_update s ready = Some r -> r = Ret s' -> inv s'.
Proof.
  intros Hs Hst ->. unfold step_update in Hst. destruct (upd s) eqn:Hu; try done.
  destruct (ready && negb (is_idle (resh s))) eqn:Hr; [done|].
  pose proof (calculate_same_queues (qm s) ready) as Hq.
  destruct (calculateDesiredShards oob (qm s) ready) as [t [n|]] eqn:Hc; simpl in Hq.
  - injection Hst as <-. apply inv_set_resh; [by apply inv_set_qm| |left; by eexists].
    simpl. unfold calculateDesiredShards in Hc. destruct (desired_shards _ _) as [? [?|]]; [|done].
    destruct ready; [|done]. simpl in Hr. by destruct (resh s).
  - injection Hst as <-. by apply inv_set_qm.
Qed.

(** ** Appending *)

Lemma enqueue_Ret (t : QueueManager) s t' b :
  enqueue t s = Ret (t', b) ->
  exists c w, qshards t !! shard_of (qshards t) (SMetric s) = Some (c, w) /\ closed c = false /\
    t' = set_qshards (set_rates t (incr (samplesIn t) 1) (samplesOut t) (samplesOutDuration t))
       (<[shard_of (qshards t) (SMetric s) := (pushed (QueueCapacity (qcfg t)) c s, w)]> (qshards t)) /\
    b = (Z.of_nat (length (buf c)) <? QueueCapacity (qcfg t)).
Proof.
  intros He. destruct (decide (qshards t = [])) as [Hn|Hn]; [by rewrite (enqueue_nil t s Hn) in He|].
  destruct (shard_index_spec (qshards t) (SMetric s) Hn) as [Hi Hlt].
  destruct (lookup_lt_is_Some_2 _ _ Hlt) as [[c w] Hcw].
  destruct (closed c) eqn:Hc.
  - by rewrite (enqueue_closed t s c w) in He.
  - rewrite (enqueue_spec t s c w) in He by done. injection He as <- <-. by exists c, w.
Qed.

Lemma shard_of_fp sh s : shard_of sh (SMetric s) = shard_ix (length sh) (fp_of s).
Proof. done. Qed.

(** A queue takes in one sample, or none if it is full. *)
Lemma inv_enqueue s snew c w t acc :
  inv s -> qshards (qm s) !! shard_of (qshards (qm s)) (SMetric snew) = Some (c, w) ->
  closed c = false ->
  qcfg t = qcfg (qm s) -> relabelConfigs t = relabelConfigs (qm s) ->
  qshards t = <[shard_of (qshards (qm s)) (SMetric snew) :=
    (pushed (QueueCapacity (qcfg (qm s))) c snew, w)]> (qshards (qm s)) ->
  acc = (if Z.of_nat (length (buf c)) <? QueueCapacity (qcfg (qm s)) then [snew] else []) ->
  inv (mkSystem t (upd s) (resh s) (quit s) (stopping s) (world s) (accepted s ++ acc) (sent s)).
Proof.
  intros [I1 I0 I2 I3 I4 I5 I6 I7 I8 I9 IA IB] Hi Hc Hq1 Hq2 Hq3 ->.
  set (i := shard_of _ _) in *. set (sh := qshards (qm s)) in *.
  set (acc := if _ : bool then _ else _).
  pose proof (I2 false sh eq_refl) as Hsh. pose proof (Hsh _ _ Hi) as [Hk Hcap Hw Hd Hf].
  assert (content (pushed (QueueCapacity (qcfg (qm s))) c snew, w) = content (c, w) ++ acc) as Hcon.
  { unfold content, pushed, acc. simpl.
    destruct (_ <? _); simpl; [by rewrite app_assoc|by rewrite app_nil_r]. }
  assert (Forall (fun x => shard_ix (length sh) (fp_of x) = i) acc) as Hacc.
  { unfold acc. destruct (_ <? _); [|constructor]. constructor; [|constructor].
    unfold i. by rewrite shard_of_fp. }
  assert (shards_ok (qcfg (qm s)) (<[i:=(pushed (QueueCapacity (qcfg (qm s))) c snew, w)]> sh)) as Hsh'.
  { apply shards_ok_insert; [done|]. constructor; simpl in *; try done.
    - rewrite Hcon. by apply Forall_app.
    - unfold pushed. destruct (Z.ltb_spec (Z.of_nat (length (buf c))) (QueueCapacity (qcfg (qm s))));
        simpl; rewrite ?length_app; simpl; lia.
    - intros Hwd. destruct (Hd Hwd). congruence.
    - intros b Hwf. destruct (Hf b Hwf). congruence. }
  constructor; unfold old_backlog, gen_shards in *; simpl in *; rewrite ?Hq1, ?Hq2, ?Hq3; try done.
  - intros [] sh' Hsh''; [by apply (I2 true)|by injection Hsh'' as <-].
  - intros fp. rewrite with_key_app, I3, <- !app_assoc. f_equal. f_equal.
    pose proof (backlog_update _ sh i (c, w) _ [] acc Hsh Hi Hacc (eq_sym Hcon) fp) as ->. done.
  - intros Hx. apply Forall_insert_eq; [by apply I5|]. intros y Hy.
    assert (y = (c, w)) as -> by congruence.
    by apply (Forall_lookup_1 not_started _ _ _ (I5 Hx) Hi).
  - intros Hx Hx'. apply Forall_insert_eq; [by apply I6|]. intros y Hy.
    assert (y = (c, w)) as -> by congruence.
    apply (Forall_lookup_1 (fun cw => ~ not_started cw) _ _ _ (I6 Hx Hx') Hi).
  - apply Forall_insert_eq; [done|]. intros y Hy. assert (y = (c, w)) as -> by congruence.
    pose proof (Forall_lookup_1 _ _ _ _ I8 Hi) as Hx. unfold closed_is, pushed in *. simpl in *.
    by destruct (_ <? _).
Qed.

Lemma inv_append s copy_order l x r s' :
  inv s -> step_append s copy_order l x = Some r -> r = Ret s' -> inv s'.
Proof.
  intros Hs Hst ->. unfold step_append in Hst.
  destruct (stopping s && _); [done|]. injection Hst as Hst.
  unfold QueueManager_Append in Hst.
  destruct (process_sample _ _ _ x) as [[snew|]|] eqn:Hp; simpl in Hst; [| |done].
  - destruct (enqueue (qm s) snew) as [[t b]|] eqn:He; simpl in Hst; [|done].
    destruct (enqueue_Ret _ _ _ _ He) as (c&w&Hi&Hc&->&->).
    destruct (_ <? _) eqn:Hroom; injection Hst as <-.
    + apply (inv_enqueue s snew c w); try done. by rewrite Hroom.
    + rewrite <- (app_nil_r (accepted s)). apply (inv_enqueue s snew c w); try done.
      by rewrite Hroom.
  - injection Hst as <-. by destruct s.
Qed.

(** ** Resharding, starting and stopping *)

Lemma newShards_spec cfg n :
  well_configured cfg -> 0 <= n ->
  newShards cfg n = Ret (replicate (Z.to_nat n) (mkChan [] false, WNotStarted)).
Proof.
  intros [_ Hcap] Hn. unfold newShards. destruct (Z.ltb_spec n 0); [lia|].
  destruct (Z.ltb_spec (QueueCapacity cfg) 0); [lia|]. by rewrite andb_false_r.
Qed.

Lemma newShards_Ret cfg n sh :
  newShards cfg n = Ret sh -> sh = replicate (Z.to_nat n) (mkChan [] false, WNotStarted).
Proof. unfold newShards. repeat case_match; congruence. Qed.

Lemma fresh_shards_ok cfg n :
  well_configured cfg -> shards_ok cfg (replicate n (mkChan [] false, WNotStarted)).
Proof. intros [? ?] i cw [-> _]%lookup_replicate. by constructor. Qed.

Lemma map_content (f : chan * worker -> chan * worker) sh :
  (forall cw, cw ∈ sh -> content (f cw) = content cw) -> same_content sh (f <$> sh).
Proof.
  intros Hf. unfold same_content. apply Forall2_fmap_r, Forall_Forall2_diag, Forall_forall. done.
Qed.

Lemma close_all_ok cfg sh : shards_ok cfg sh -> shards_ok cfg (close_all sh).
Proof.
  intros Hok i cw Hi. unfold close_all in Hi. rewrite list_lookup_fmap in Hi.
  destruct (sh !! i) as [[c w]|] eqn:Hci; [|done]. injection Hi as <-.
  destruct (Hok _ _ Hci) as [Hk Hcap Hw Hd Hf]. unfold close_all. rewrite length_fmap.
  constructor; try done; simpl in *.
  - intros Hwd. by destruct (Hd Hwd).
  - intros b Hwf. by destruct (Hf b Hwf).
Qed.

Lemma start_shards_ok cfg sh :
  well_configured cfg -> shards_ok cfg sh -> Forall not_started sh -> shards_ok cfg (start_shards sh).
Proof.
  intros [? ?] Hok Hns i cw Hi. unfold start_shards in Hi. rewrite list_lookup_fmap in Hi.
  destruct (sh !! i) as [[c w]|] eqn:Hci; [|done]. injection Hi as <-.
  pose proof (Forall_lookup_1 _ _ _ _ Hns Hci) as Hn. unfold not_started in Hn. simpl in Hn. subst w.
  destruct (Hok _ _ Hci) as [Hk Hcap Hw Hd Hf]. unfold start_shards. rewrite length_fmap.
  constructor; try done; simpl in *; lia.
Qed.

Lemma backlog_close_all sh fp : backlog (close_all sh) fp = backlog sh fp.
Proof. apply backlog_same_content, map_content. done. Qed.

Lemma backlog_start_shards sh fp : Forall not_started sh -> backlog (start_shards sh) fp = backlog sh fp.
Proof.
  intros Hns. apply backlog_same_content, map_content. rewrite Forall_forall in Hns.
  intros cw Hcw. specialize (Hns cw Hcw). destruct cw as [c w]. unfold not_started in Hns.
  simpl in Hns. by subst w.
Qed.

Lemma start_shards_started sh : Forall (fun cw => ~ not_started cw) (start_shards sh).
Proof. apply Forall_fmap, Forall_true. done. Qed.

Lemma closed_start_shards b sh : Forall (closed_is b) sh -> Forall (closed_is b) (start_shards sh).
Proof. intros Hb. apply Forall_fmap. eapply Forall_impl; [exact Hb|]. done. Qed.

Lemma closed_close_all sh : Forall (closed_is true) (close_all sh).
Proof. apply Forall_fmap, Forall_true. done. Qed.

Lemma started_close_all sh :
  Forall (fun cw => ~ not_started cw) sh -> Forall (fun cw => ~ not_started cw) (close_all sh).
Proof. intros Hb. apply Forall_fmap. eapply Forall_impl; [exact Hb|]. done. Qed.

Lemma not_started_close_all sh : Forall not_started sh -> Forall not_started (close_all sh).
Proof. intros Hb. apply Forall_fmap. eapply Forall_impl; [exact Hb|]. done. Qed.

Lemma inv_start s r s' : inv s -> step_start s = Some r -> r = Ret s' -> inv s'.
Proof.
  intros [I1 I0 I2 I3 I4 I5 I6 I7 I8 I9 IA IB] Hst ->. unfold step_start in Hst.
  destruct (upd s) eqn:Hu, (resh s) eqn:Hr, (quit s) eqn:Hq; try done. injection Hst as <-.
  assert (Forall not_started (qshards (qm s))) as Hns by (apply I5; by right).
  constructor; unfold old_backlog, gen_shards, loops_gone in *; simpl in *; rewrite ?Hr, ?Hu, ?Hq in *; try done.
  - intros [] sh; [done|]. intros [= <-]. apply start_shards_ok; [done|by apply (I2 false)|done].
  - intros fp. by rewrite backlog_start_shards.
  - intros [[? ?]|?]; done.
  - intros _ _. apply start_shards_started.
  - by apply closed_start_shards.
  - intros Hs. by destruct (IA Hs).
Qed.

Lemma not_stopping_if_running s :
  inv s -> (resh s <> RNotStarted) -> resh s <> RExited -> stopping s = false.
Proof.
  intros Hs Hr Hr'. destruct (stopping s) eqn:Hst; [|done].
  destruct (inv_stopping s Hs Hst) as [_ Hl]. unfold loops_gone in Hl.
  by destruct (upd s), (resh s).
Qed.

Lemma inv_reshard s r s' : inv s -> step_reshard s = Some r -> r = Ret s' -> inv s'.
Proof.
  intros Hs Hst ->. unfold step_reshard in Hst. destruct (resh s) eqn:Hr; try done.
  destruct (newShards _ n) as [sh|] eqn:Hn; simpl in Hst; [|done]. injection Hst as <-.
  apply newShards_Ret in Hn as ->.
  assert (stopping s = false) as Hns by (apply not_stopping_if_running; [done|by rewrite Hr..]).
  destruct Hs as [I1 I0 I2 I3 I4 I5 I6 I7 I8 I9 IA IB].
  constructor; unfold old_backlog, gen_shards, loops_gone in *; rewrite Hr, Hns in *; simpl in *; try done.
  - intros [] sh; intros [= <-]; [by apply (I2 false)|by apply fresh_shards_ok].
  - intros fp. rewrite I3, backlog_fresh, app_nil_r by done. done.
  - intros _. by apply Forall_replicate.
  - intros o [= <-]. by apply I6.
  - by apply Forall_replicate.
  - by rewrite Hns.
  - split; [intros Hu; by apply IB in Hu|done].
Qed.

Lemma inv_close_old s r s' : inv s -> step_close_old s = Some r -> r = Ret s' -> inv s'.
Proof.
  intros Hs Hst ->. unfold step_close_old in Hst. destruct (resh s) eqn:Hr; try done.
  injection Hst as <-. destruct Hs as [I1 I0 I2 I3 I4 I5 I6 I7 I8 I9 IA IB].
  constructor; unfold old_backlog, gen_shards, loops_gone in *; rewrite Hr in *; simpl in *; try done.
  - intros [] sh; intros [= <-]; [by apply close_all_ok, (I2 true)|by apply (I2 false)].
  - intros fp. by rewrite I3, backlog_close_all.
  - intros _. apply I5. left. by eexists.
  - intros o [= <-]. by apply started_close_all, I7.
  - apply closed_close_all.
  - split; [intros Hu; by apply IB in Hu|done].
Qed.

Lemma inv_start_new s r s' : inv s -> step_start_new s = Some r -> r = Ret s' -> inv s'.
Proof.
  intros Hs Hst ->. unfold step_start_new in Hst. destruct (resh s) eqn:Hr; try done.
  destruct (all_done oldShards) eqn:Hd; [|done]. injection Hst as <-.
  destruct Hs as [I1 I0 I2 I3 I4 I5 I6 I7 I8 I9 IA IB].
  constructor; unfold old_backlog, gen_shards, loops_gone in *; rewrite Hr in *; simpl in *; try done.
  - intros [] sh; [done|]; intros [= <-]. apply start_shards_ok; [done|by apply (I2 false)|].
    apply I5. left. by eexists.
  - intros fp. rewrite I3, backlog_start_shards.
    + by rewrite (backlog_all_done (qcfg (qm s)) oldShards) by (by (apply (I2 true)) || done).
    + apply I5. left. by eexists.
  - intros [[? ?]|?]; done.
  - intros _ _. apply start_shards_started.
  - by apply closed_start_shards.
  - split; [intros Hu; by apply IB in Hu|done].
Qed.

Lemma inv_stop s r s' : inv s -> step_stop s = Some r -> r = Ret s' -> inv s'.
Proof.
  intros Hs Hst ->. unfold step_stop in Hst. destruct (quit s) eqn:Hq; [done|].
  injection Hst as <-. destruct Hs as [I1 I0 I2 I3 I4 I5 I6 I7 I8 I9 IA IB].
  constructor; try done. intros Hst. destruct (IA Hst). done.
Qed.

Lemma inv_updater_exit s r s' : inv s -> step_updater_exit s = Some r -> r = Ret s' -> inv s'.
Proof.
  intros Hs Hst ->. unfold step_updater_exit in Hst. destruct (upd s) eqn:Hu; try done.
  destruct (quit s) eqn:Hq; [|done]. injection Hst as <-.
  destruct Hs as [I1 I0 I2 I3 I4 I5 I6 I7 I8 I9 IA IB].
  constructor; unfold old_backlog, gen_shards, loops_gone in *; rewrite ?Hu, ?Hq in *; simpl in *; try done.
  - intros Hst. by destruct (IA Hst).
  - split; [done|]. intros Hr. by apply IB in Hr.
Qed.

Lemma inv_resharder_exit s r s' : inv s -> step_resharder_exit s = Some r -> r = Ret s' -> inv s'.
Proof.
  intros Hs Hst ->. unfold step_resharder_exit in Hst. destruct (resh s) eqn:Hr; try done.
  destruct (quit s) eqn:Hq; [|done]. injection Hst as <-.
  apply inv_set_resh; [done|done|right]. split; [done|].
  apply not_stopping_if_running; [done|by rewrite Hr..].
Qed.

Lemma inv_stop_shards s r s' : inv s -> step_stop_shards s = Some r -> r = Ret s' -> inv s'.
Proof.
  intros Hs Hst ->. unfold step_stop_shards in Hst.
  destruct (quit s) eqn:Hq; [|done]. destruct (loops_gone s) eqn:Hl; [|done].
  destruct (stopping s) eqn:Hsp; [done|]. injection Hst as <-.
  destruct Hs as [I1 I0 I2 I3 I4 I5 I6 I7 I8 I9 IA IB].
  assert (gen_shards s true = None) as Hold
    by (unfold loops_gone in Hl; unfold gen_shards; by destruct (upd s), (resh s)).
  unfold old_backlog in I3. rewrite Hold in I3.
  constructor; unfold old_backlog; simpl in *; try done.
  - intros [] sh; simpl; [by rewrite Hold|]. intros [= <-]. by apply close_all_ok, (I2 false).
  - intros fp. by rewrite I3, Hold, backlog_close_all.
  - intros Hx. by apply not_started_close_all, I5.
  - intros Hx Hx'. by apply started_close_all, I6.
  - apply closed_close_all.
Qed.

Lemma inv_step e s s' : inv s -> qstep e s = Some (Ret s') -> inv s'.
Proof.
  intros Hs. destruct e; simpl; intros Hst.
  - by eapply inv_start.
  - by eapply inv_append.
  - by eapply inv_receive.
  - by eapply inv_deadline.
  - by eapply inv_sent.
  - by eapply inv_update.
  - by eapply inv_reshard.
  - by eapply inv_close_old.
  - by eapply inv_start_new.
  - by eapply inv_stop.
  - by eapply inv_updater_exit.
  - by eapply inv_resharder_exit.
  - by eapply inv_stop_shards.
Qed.

Lemma inv_initial cfg ext rc name t w :
  well_configured cfg -> Forall valid_config rc ->
  NewQueueManager cfg ext rc name = Ret t -> inv (initial_system t w).
Proof.
  intros Hcfg Hrc. unfold NewQueueManager. rewrite newShards_spec by (done || lia).
  intros [= <-]. constructor; unfold old_backlog; simpl; try done.
  - intros [] sh; [done|]. intros [= <-]. by apply (fresh_shards_ok _ 1).
  - intros fp. symmetry. by apply (backlog_fresh 1).
  - intros _. by constructor.
  - by constructor.
Qed.

Lemma inv_reachable s0 s : inv s0 -> reachable s0 s -> inv s.
Proof. intros Hi Hr. induction Hr; [done|]. by eapply inv_step. Qed.

(** ** The configuration and the counters *)

Definition counted (m : queue_metrics) : Z := succeededSamplesTotal m + failedSamplesTotal m.

(** What no step changes: the configuration, the external labels, and the
    difference between the samples counted as succeeded or failed and the
    samples sent. *)
Definition balance (s : system) : QueueManagerConfig * LabelSet * Z :=
  (qcfg (qm s), externalLabels (qm s), counted (metrics (qm s)) - Z.of_nat (length (concat (sent s)))).

Lemma balance_set_gen s old sh : balance (set_gen s old sh) = balance s.
Proof. unfold set_gen. destruct old; [by destruct (resh s)|done]. Qed.

Lemma append_balance t copy_order l x t' r :
  QueueManager_Append t copy_order l x = Ret (t', r) ->
  qcfg t' = qcfg t /\ externalLabels t' = externalLabels t /\
  counted (metrics t') = counted (metrics t).
Proof.
  unfold QueueManager_Append.
  destruct (process_sample _ _ _ _) as [[m|]|]; simpl; [|by intros [= <- <-]|done].
  destruct (enqueue t m) as [[t1 b]|] eqn:He; simpl; [|done].
  destruct (enqueue_Ret _ _ _ _ He) as (c&w&_&_&->&->).
  destruct (_ <? _); intros [= <- <-]; done.
Qed.

Lemma calculate_balance t ready :
  qcfg (calculateDesiredShards oob t ready).1 = qcfg t /\
  externalLabels (calculateDesiredShards oob t ready).1 = externalLabels t /\
  metrics (calculateDesiredShards oob t ready).1 = metrics t.
Proof.
  unfold calculateDesiredShards, desired_shards. cbv zeta. repeat case_match; simplify_eq/=; done.
Qed.

Lemma balance_step e s s' : qstep e s = Some (Ret s') -> balance s' = balance s.
Proof.
  destruct e; simpl.
  - unfold step_start. destruct (upd s), (resh s), (quit s); try done. by intros [= <-].
  - unfold step_append. destruct (_ && _); [done|].
    destruct (process_sample _ _ _ _); simpl; [|done].
    destruct (QueueManager_Append _ _ _ _) as [[t r]|] eqn:Ha; simpl; [|done].
    intros [= <-]. unfold balance. simpl. by destruct (append_balance _ _ _ _ _ _ Ha) as (->&->&->).
  - unfold step_receive. destruct (gen_shards s old) as [sh|]; simpl; [|done].
    destruct (sh !! i) as [[c w]|]; simpl; [|done].
    destruct (runShard_receive _ c w) as [[[[c' w'] got]|]|]; simpl; [|done..].
    intros [= <-]. rewrite <- (balance_set_gen s old (<[i:=(c', w')]> sh)). by destruct got.
  - unfold step_deadline. destruct (gen_shards s old) as [sh|]; simpl; [|done].
    destruct (sh !! i) as [[c w]|]; simpl; [|done].
    destruct (runShard_deadline w); simpl; [|done]. intros [= <-]. by rewrite balance_set_gen.
  - unfold step_sent. destruct (gen_shards s old) as [sh|]; simpl; [|done].
    destruct (sh !! i) as [[c w]|]; simpl; [|done].
    destruct (sending w) as [b|]; simpl; [|done].
    destruct (runShard_sent _ w); simpl; [|done]. intros [= <-].
    rewrite balance_set_gen. unfold balance. simpl.
    rewrite concat_app, length_app, Nat2Z.inj_add. simpl. rewrite app_nil_r. f_equal.
    unfold counted. destruct (sr_ok _); simpl; lia.
  - unfold step_update. destruct (upd s); try done. destruct (_ && _); [done|].
    pose proof (calculate_balance (qm s) ready) as (Hc&He&Hm).
    destruct (calculateDesiredShards _ _ _) as [t [n|]]; intros [= <-];
      unfold balance; simpl in *; by rewrite Hc, He, Hm.
  - unfold step_reshard. destruct (resh s); try done. destruct (newShards _ n); simpl; [|done].
    by intros [= <-].
  - unfold step_close_old. destruct (resh s); try done. by intros [= <-].
  - unfold step_start_new. destruct (resh s); try done. destruct (all_done _); [|done]. by intros [= <-].
  - unfold step_stop. destruct (quit s); [done|]. by intros [= <-].
  - unfold step_updater_exit. destruct (upd s); try done. destruct (quit s); [|done]. by intros [= <-].
  - unfold step_resharder_exit. destruct (resh s); try done. destruct (quit s); [|done]. by intros [= <-].
  - unfold step_stop_shards. destruct (_ && _); [|done]. by intros [= <-].
Qed.

Lemma balance_reachable cfg ext rc name t w s :
  NewQueueManager cfg ext rc name = Ret t -> reachable (initial_system t w) s ->
  qcfg (qm s) = cfg /\ externalLabels (qm s) = ext /\
  counted (metrics (qm s)) = Z.of_nat (length (concat (sent s))).
Proof.
  intros Ht Hr. assert (balance s = (cfg, ext, 0)) as Hb.
  { induction Hr as [|s e s' Hr IH Hf Hst]; [|by rewrite (balance_step _ _ _ Hst)].
    unfold NewQueueManager in Ht. destruct (newShards cfg 1); simpl in Ht; [|done].
    by injection Ht as <-. }
  unfold balance in Hb. injection Hb as Hq He Hc. split_ands; [done|done|lia].
Qed.

(** ** Panics *)

Lemma append_Panic s copy_order l x p :
  inv s -> fair_event s (EAppend copy_order l x) ->
  step_append s copy_order l x = Some (Panic p) ->
  (stopped s /\ p = PanicSendClosed) \/ (qshards (qm s) = [] /\ p = PanicDivide).
Proof.
  intros Hs [Hf1 Hf2] Hst. unfold step_append in Hst.
  destruct (stopping s && negb (all_done (qshards (qm s)))) eqn:Hg; [done|]. injection Hst as Hst.
  unfold QueueManager_Append in Hst.
  destruct (Process_total (SMetric x ∪ externalLabels (qm s)) _ (inv_valid _ Hs)) as [r Hr].
  rewrite process_sample_spec, Hr in Hst by done. destruct r as [m|]; simpl in Hst; [|done].
  set (snew := mkSample m _ _) in *.
  destruct (decide (qshards (qm s) = [])) as [Hn|Hn].
  { right. rewrite (enqueue_nil _ _ Hn) in Hst. simpl in Hst. split; congruence. }
  destruct (shard_index_spec (qshards (qm s)) (SMetric snew) Hn) as [Hi Hlt].
  destruct (lookup_lt_is_Some_2 _ _ Hlt) as [[c w] Hcw].
  pose proof (Forall_lookup_1 _ _ _ _ (inv_closed _ Hs) Hcw) as Hc. unfold closed_is in Hc. simpl in Hc.
  destruct (stopping s) eqn:Hstop.
  - left. simpl in Hg. apply negb_false_iff in Hg.
    rewrite (enqueue_closed _ snew c w) in Hst by done. simpl in Hst. split; [done|congruence].
  - rewrite (enqueue_spec _ snew c w) in Hst by done. simpl in Hst. by destruct (_ <? _).
Qed.

(** What can go wrong in one step. *)
Inductive bad_step (s : system) : event -> go_panic -> Prop :=
  | bad_stop_twice : quit s = true -> bad_step s EStop PanicCloseClosed
  | bad_append_stopped o l x : stopped s -> bad_step s (EAppend o l x) PanicSendClosed
  | bad_append_no_shards o l x :
      qshards (qm s) = [] -> bad_step s (EAppend o l x) PanicDivide
  | bad_reshard n : resh s = RGot n -> n < 0 -> bad_step s EReshard PanicMakeLen.

Lemma step_Panic s e p :
  inv s -> fair_event s e -> qstep e s = Some (Panic p) -> bad_step s e p.
Proof.
  intros Hs Hf. destruct e; simpl.
  - unfold step_start. by destruct (upd s), (resh s), (quit s).
  - intros Hst. destruct (append_Panic _ _ _ _ _ Hs Hf Hst) as [[? ->]|[? ->]]; by constructor.
  - unfold step_receive. destruct (gen_shards s old) as [sh|] eqn:Hgen; simpl; [|done].
    destruct (sh !! i) as [[c w]|] eqn:Hi; simpl; [|done].
    destruct (runShard_receive _ c w) as [r|] eqn:Hr; simpl; [|done].
    destruct (receive_step _ _ _ _ _ _ (inv_cfg _ Hs) (inv_ok _ Hs _ _ Hgen _ _ Hi) Hr)
      as (c'&w'&got&->&_). done.
  - unfold step_deadline. destruct (gen_shards s old) as [sh|]; simpl; [|done].
    destruct (sh !! i) as [[c w]|]; simpl; [|done]. by destruct (runShard_deadline w).
  - unfold step_sent. destruct (gen_shards s old) as [sh|] eqn:Hgen; simpl; [|done].
    destruct (sh !! i) as [[c w]|] eqn:Hi; simpl; [|done].
    destruct (sending w) as [b|] eqn:Hw; simpl; [|done].
    destruct (sent_step _ _ _ _ _ _ (inv_cfg _ Hs) (inv_ok _ Hs _ _ Hgen _ _ Hi) Hw)
      as (_&w'&->&_). done.
  - unfold step_update. destruct (upd s); try done. destruct (_ && _); [done|].
    by destruct (calculateDesiredShards _ _ _) as [? [?|]].
  - unfold step_reshard. destruct (resh s) eqn:Hr; try done.
    destruct (Z.ltb_spec n 0) as [Hn|Hn].
    + unfold newShards. destruct (Z.ltb_spec n 0); [|lia]. intros [= <-]. by econstructor.
    + by rewrite (newShards_spec _ _ (inv_cfg _ Hs) Hn).
  - unfold step_close_old. by destruct (resh s).
  - unfold step_start_new. destruct (resh s); try done. by destruct (all_done _).
  - unfold step_stop. destruct (quit s) eqn:Hq; [|done]. intros [= <-]. by constructor.
  - unfold step_updater_exit. destruct (upd s); try done. by destruct (quit s).
  - unfold step_resharder_exit. destruct (resh s); try done. by destruct (quit s).
  - unfold step_stop_shards. by destruct (_ && _).
Qed.

(** ** Progress *)

(** The steps the queue takes by itself: no call from outside and no tick. *)
Definition internal (s : system) (e : event) : Prop :=
  match e with
  | EStart | EAppend _ _ _ | EUpdate _ | EStop => False
  | EDeadline old i =>
      exists sh c w, gen_shards s old = Some sh /\ sh !! i = Some (c, w) /\ holding w <> []
  | _ => True
  end.

Definition worker_work (w : worker) : nat :=
  match w with
  | WNotStarted => 2
  | WSelect pending => 1 + 2 * length pending
  | WSending _ rest => 2 + 2 * length rest
  | WDeadline _ => 2
  | WFlushing _ => 1
  | WDone => 0
  end.

Definition shard_work (cw : chan * worker) : nat := 3 * length (buf cw.1) + worker_work cw.2.
Definition shards_work (sh : shards) : nat := foldr (fun cw n => shard_work cw + n)%nat O sh.

(** An upper bound on the internal steps a state can take. *)
Definition work (s : system) : nat :=
  shards_work (qshards (qm s)) +
  match upd s with URunning => 1 | _ => 0 end +
  match resh s with
  | RNotStarted | RExited => 0
  | RIdle => 1
  | RGot n => 4 + 2 * Z.to_nat n
  | RSwapped o => 3 + shards_work o
  | RStopping o => 2 + shards_work o
  end +
  (if stopping s then 0 else 1).

Lemma shards_work_insert (sh : shards) i cw cw' :
  sh !! i = Some cw -> (shard_work cw' < shard_work cw)%nat ->
  (shards_work (<[i := cw']> sh) < shards_work sh)%nat.
Proof.
  unfold shards_work. revert i. induction sh as [|x sh IH]; intros [|i] Hi Hlt; simpl in *; [done..| |].
  - injection Hi as ->. lia.
  - specialize (IH i Hi Hlt). lia.
Qed.

Lemma work_set_gen s old sh sh' :
  gen_shards s old = Some sh -> (shards_work sh' < shards_work sh)%nat ->
  (work (set_gen s old sh') < work s)%nat.
Proof.
  unfold gen_shards, set_gen, work. destruct old.
  - destruct (resh s); try done; intros [= ->] Hlt; simpl; lia.
  - intros [= <-] Hlt. simpl. lia.
Qed.

Lemma shards_work_start sh :
  Forall not_started sh -> (shards_work (start_shards sh) <= shards_work sh)%nat.
Proof.
  unfold shards_work. induction 1 as [|[c w] sh Hw Hsh IH]; simpl; [done|].
  unfold not_started in Hw. simpl in Hw. subst w. unfold shard_work in *. simpl in *. lia.
Qed.

Lemma shards_work_close sh : shards_work (close_all sh) = shards_work sh.
Proof. unfold shards_work. induction sh as [|cw sh IH]; simpl; [done|]. by rewrite IH. Qed.

Lemma shards_work_fresh n : shards_work (replicate n (mkChan [] false, WNotStarted)) = (2 * n)%nat.
Proof. unfold shards_work. induction n as [|n IH]; simpl in *; [done|]. rewrite IH. lia. Qed.

Lemma batch_loop_work cfg pending w :
  well_configured cfg -> batch_loop cfg pending = Ret w ->
  (worker_work w <= 1 + 2 * length pending)%nat.
Proof.
  intros [Hm _]. unfold batch_loop.
  destruct (Z.leb_spec (MaxSamplesPerSend cfg) (Z.of_nat (length pending))).
  - destruct (Z.ltb_spec (MaxSamplesPerSend cfg) 0); [lia|]. intros [= <-]. simpl.
    rewrite length_drop. lia.
  - intros [= <-]. simpl. lia.
Qed.

Lemma receive_work cfg n i c w c' w' got :
  well_configured cfg -> shard_ok cfg n i (c, w) ->
  runShard_receive cfg c w = Some (Ret (c', w', got)) -> (shard_work (c', w') < shard_work (c, w))%nat.
Proof.
  intros Hcfg [_ _ Hw _ _]. destruct w as [|pending|??|?|?|]; try done. unfold shard_work. simpl.
  destruct (buf c) as [|x l] eqn:Hb; simpl.
  - destruct (closed c); [|done]. intros [= <- <- <-]. rewrite Hb.
    destruct (Nat.ltb_spec 0 (length pending)); simpl; lia.
  - destruct (batch_loop cfg (pending ++ [x])) as [w1|] eqn:Hl; simpl; [|done].
    intros [= <- <- <-]. pose proof (batch_loop_work _ _ _ Hcfg Hl) as Hlw.
    rewrite length_app in Hlw. simpl in *. lia.
Qed.

Lemma deadline_work c w w' :
  holding w <> [] -> runShard_deadline w = Some w' -> (shard_work (c, w') < shard_work (c, w))%nat.
Proof.
  destruct w as [|pending|??|?|?|]; try done. unfold shard_work. simpl. intros Hp [= <-].
  destruct pending; simpl; [done|lia].
Qed.

Lemma sent_work cfg c w w' b :
  well_configured cfg -> sending w = Some b -> runShard_sent cfg w = Ret w' ->
  (shard_work (c, w') < shard_work (c, w))%nat.
Proof.
  intros Hcfg. destruct w as [|pending|b' rest|?|?|]; try done; unfold shard_work; simpl; intros _ Hl.
  - pose proof (batch_loop_work _ _ _ Hcfg Hl). lia.
  - injection Hl as <-. simpl. lia.
  - injection Hl as <-. simpl. lia.
Qed.

(** Every internal step takes some of the work away. *)
Lemma internal_work s e s' :
  inv s -> internal s e -> qstep e s = Some (Ret s') -> (work s' < work s)%nat.
Proof.
  intros Hs Hint. destruct e; simpl in *; try done.
  - unfold step_receive. destruct (gen_shards s old) as [sh|] eqn:Hgen; simpl; [|done].
    destruct (sh !! i) as [[c w]|] eqn:Hi; simpl; [|done].
    destruct (runShard_receive _ c w) as [[[[c' w'] got]|]|] eqn:Hr; simpl; [|done..].
    intros [= <-]. assert (work (set_gen s old (<[i:=(c', w')]> sh)) < work s)%nat as Hlt.
    { apply (work_set_gen s old sh _ Hgen). apply (shards_work_insert _ _ (c, w)); [done|].
      eapply receive_work; [apply (inv_cfg _ Hs)| |exact Hr]. by apply (inv_ok _ Hs _ _ Hgen). }
    by destruct got.
  - unfold step_deadline. destruct (gen_shards s old) as [sh|] eqn:Hgen; simpl; [|done].
    destruct Hint as (sh'&c'&w'&[= <-]&Hi&Hh). rewrite Hi. simpl.
    destruct (runShard_deadline w') as [w1|] eqn:Hd; simpl; [|done]. intros [= <-].
    apply (work_set_gen s old sh _ Hgen). apply (shards_work_insert _ _ (c', w')); [done|].
    by apply deadline_work.
  - unfold step_sent. destruct (gen_shards s old) as [sh|] eqn:Hgen; simpl; [|done].
    destruct (sh !! i) as [[c w]|] eqn:Hi; simpl; [|done].
    destruct (sending w) as [b|] eqn:Hw; simpl; [|done].
    destruct (runShard_sent _ w) as [w1|] eqn:Hl; simpl; [|done]. intros [= <-].
    match goal with |- (work (set_gen ?x _ _) < _)%nat => change (work s) with (work x) end.
    apply (work_set_gen _ old sh); [by destruct old|].
    apply (shards_work_insert _ _ (c, w)); [done|].
    eapply sent_work; [apply (inv_cfg _ Hs)|done|exact Hl].
  - unfold step_reshard, work. destruct (resh s) eqn:Hr; try done.
    destruct (newShards _ n) as [sh|] eqn:Hn; simpl; [|done].
    apply newShards_Ret in Hn as ->. intros [= <-]. simpl. rewrite shards_work_fresh. lia.
  - unfold step_close_old, work. destruct (resh s) eqn:Hr; try done. intros [= <-]. simpl.
    rewrite shards_work_close. lia.
  - unfold step_start_new, work. destruct (resh s) as [| | |o|o|] eqn:Hr; try done.
    destruct (all_done o); [|done]. intros [= <-]. simpl.
    assert (shards_work (start_shards (qshards (qm s))) <= shards_work (qshards (qm s)))%nat; [|lia].
    apply shards_work_start, (inv_waiting _ Hs). left. unfold gen_shards. rewrite Hr. by eexists.
  - unfold step_updater_exit, work. destruct (upd s); try done. destruct (quit s); [|done].
    intros [= <-]. simpl. lia.
  - unfold step_resharder_exit, work. destruct (resh s); try done. destruct (quit s); [|done].
    intros [= <-]. simpl. lia.
  - unfold step_stop_shards, work. destruct (quit s), (loops_gone s), (stopping s) eqn:Hst; try done.
    intros [= <-]. simpl. rewrite shards_work_close. lia.
Qed.

Lemma all_done_false sh :
  all_done sh = false -> exists i c w, sh !! i = Some (c, w) /\ w <> WDone.
Proof.
  unfold all_done. induction sh as [|[c w] sh IH]; simpl; [done|].
  destruct (is_done w) eqn:Hw; simpl.
  - intros (i&c'&w'&Hi&Hd)%IH. by exists (S i), c', w'.
  - intros _. exists 0%nat, c, w. split; [done|]. by intros ->.
Qed.

(** Shards whose queues are closed and whose goroutines run can always take a
    step, until all are done. *)
Lemma closed_shards_progress s old sh :
  inv s -> gen_shards s old = Some sh -> Forall (closed_is true) sh ->
  Forall (fun cw => ~ not_started cw) sh -> all_done sh = false ->
  exists e s', internal s e /\ qstep e s = Some (Ret s').
Proof.
  intros Hs Hgen Hcl Hns (i&c&w&Hi&Hd)%all_done_false.
  pose proof (inv_ok _ Hs _ _ Hgen _ _ Hi) as Hok. pose proof (inv_cfg _ Hs) as Hcfg.
  pose proof (Forall_lookup_1 _ _ _ _ Hcl Hi) as Hc. unfold closed_is in Hc. simpl in Hc.
  pose proof (Forall_lookup_1 _ _ _ _ Hns Hi) as Hn. unfold not_started in Hn. simpl in Hn.
  destruct (sending w) as [b|] eqn:Hw.
  - exists (ESent old i 0). destruct (sent_step _ _ _ _ _ _ Hcfg Hok Hw) as (_&w'&Hw'&_).
    simpl. unfold step_sent. rewrite Hgen. simpl. rewrite Hi. simpl. rewrite Hw. simpl. rewrite Hw'.
    by eexists.
  - exists (EReceive old i). assert (exists r, runShard_receive (qcfg (qm s)) c w = Some r) as [r Hr].
    { destruct w; try done. simpl. destruct (buf c); [|by eexists]. rewrite Hc. by eexists. }
    destruct (receive_step _ _ _ _ _ _ Hcfg Hok Hr) as (c'&w'&got&->&_).
    simpl. unfold step_receive. rewrite Hgen. simpl. rewrite Hi. simpl. rewrite Hr. simpl. by eexists.
Qed.

Definition stopping_started (s : system) : Prop :=
  quit s = true /\ upd s <> UNotStarted /\ forall n, resh s = RGot n -> 0 <= n.

(** No deadlock: after Stop was called, something can happen until it returns. *)
Lemma stop_progress s :
  inv s -> stopping_started s ->
  stopped s \/ exists e s', internal s e /\ qstep e s = Some (Ret s').
Proof.
  intros Hs (Hq&Hu&Hn).
  assert (resh s <> RNotStarted) as Hrn by (intros Hr; by apply (inv_loops _ Hs) in Hr).
  destruct (upd s) eqn:Hupd; [done| |].
  { right. exists EUpdaterExit. simpl. unfold step_updater_exit. rewrite Hupd, Hq. by eexists. }
  destruct (resh s) as [| |n|o|o|] eqn:Hr; [done|right|right|right|right|].
  - exists EResharderExit. simpl. unfold step_resharder_exit. rewrite Hr, Hq. by eexists.
  - exists EReshard. simpl. unfold step_reshard. rewrite Hr, newShards_spec; [by eexists| |by apply Hn].
    apply (inv_cfg _ Hs).
  - exists ECloseOld. simpl. unfold step_close_old. rewrite Hr. by eexists.
  - assert (gen_shards s true = Some o) as Hgen by (simpl; by rewrite Hr).
    destruct (all_done o) eqn:Hd.
    + exists EStartNew. simpl. unfold step_start_new. rewrite Hr, Hd. by eexists.
    + apply (closed_shards_progress s true o Hs Hgen); [|by apply (inv_old _ Hs)|done].
      pose proof (inv_old_closed _ Hs) as Ho. by rewrite Hr in Ho.
  - assert (gen_shards s true = None) as Hno by (simpl; by rewrite Hr).
    assert (Forall (fun cw => ~ not_started cw) (qshards (qm s))) as Hst
      by (apply (inv_running _ Hs); [done|by rewrite Hr]).
    destruct (stopping s) eqn:Hsp.
    + destruct (all_done (qshards (qm s))) eqn:Hd; [by left|right].
      apply (closed_shards_progress s false (qshards (qm s)) Hs); [done| |done|done].
      rewrite <- Hsp. apply (inv_closed _ Hs).
    + right. exists EStopShards. simpl. unfold step_stop_shards, loops_gone.
      rewrite Hq, Hupd, Hr, Hsp. by eexists.
Qed.

(** Runs of internal steps. *)
Inductive drains : system -> list event -> system -> Prop :=
  | drains_nil s : drains s [] s
  | drains_cons s e s1 es s2 :
      internal s e -> qstep e s = Some (Ret s1) -> drains s1 es s2 -> drains s (e :: es) s2.

(** What internal steps leave alone. *)
Definition kept (s s' : system) : Prop :=
  quit s' = quit s /\ accepted s' = accepted s /\ (upd s' = upd s \/ upd s' = UExited) /\
  (forall n, resh s' = RGot n -> resh s = RGot n).

Lemma kept_set_gen s s1 old sh : kept s s1 -> kept s (set_gen s1 old sh).
Proof.
  unfold kept, set_gen. intros (H1'&H2'&H3'&H4'). destruct old; [|done].
  destruct (resh s1) eqn:Hr; by rewrite ?Hr.
Qed.

Lemma kept_refl s : kept s s.
Proof. unfold kept. split_ands; auto. Qed.

(** A step of one of the queue's goroutines: no call from outside. *)
Definition own_event (e : event) : Prop :=
  match e with EStart | EAppend _ _ _ | EStop => False | _ => True end.

Lemma own_kept s e s' :
  own_event e -> (forall b, e <> EUpdate b) -> qstep e s = Some (Ret s') -> kept s s'.
Proof.
  destruct e; simpl; intros Hown Hup; try done; [| | |by destruct (Hup ready)|..].
  - unfold step_receive. destruct (gen_shards s old) as [sh|]; simpl; [|done].
    destruct (sh !! i) as [[c w]|]; simpl; [|done].
    destruct (runShard_receive _ c w) as [[[[c' w'] got]|]|]; simpl; [|done..].
    intros [= <-]. assert (kept s (set_gen s old (<[i:=(c', w')]> sh))) by (apply kept_set_gen, kept_refl).
    by destruct got.
  - unfold step_deadline. destruct (gen_shards s old) as [sh|]; simpl; [|done].
    destruct (sh !! i) as [[c w]|]; simpl; [|done].
    destruct (runShard_deadline w); simpl; [|done]. intros [= <-]. apply kept_set_gen, kept_refl.
  - unfold step_sent. destruct (gen_shards s old) as [sh|]; simpl; [|done].
    destruct (sh !! i) as [[c w]|]; simpl; [|done].
    destruct (sending w) as [b|]; simpl; [|done].
    destruct (runShard_sent _ w); simpl; [|done]. intros [= <-].
    apply kept_set_gen. unfold kept. simpl. split_ands; auto; done.
  - unfold step_reshard. destruct (resh s); try done. destruct (newShards _ n); simpl; [|done].
    intros [= <-]. unfold kept. simpl. split_ands; auto; done.
  - unfold step_close_old. destruct (resh s); try done. intros [= <-]. unfold kept. simpl. split_ands; auto; done.
  - unfold step_start_new. destruct (resh s); try done. destruct (all_done _); [|done].
    intros [= <-]. unfold kept. simpl. split_ands; auto; done.
  - unfold step_updater_exit. destruct (upd s); try done. destruct (quit s) eqn:Hq; [|done].
    intros [= <-]. unfold kept. simpl. split_ands; auto; done.
  - unfold step_resharder_exit. destruct (resh s); try done. destruct (quit s) eqn:Hq; [|done].
    intros [= <-]. unfold kept. simpl. split_ands; auto; done.
  - unfold step_stop_shards. destruct (_ && _); [|done]. intros [= <-]. unfold kept. simpl. split_ands; auto; done.
Qed.

Lemma internal_kept s e s' : internal s e -> qstep e s = Some (Ret s') -> kept s s'.
Proof. intros Hint. apply own_kept; [by destruct e|intros b ->; done]. Qed.

Lemma own_accepted s e s' :
  own_event e -> qstep e s = Some (Ret s') -> accepted s' = accepted s /\ quit s' = quit s.
Proof.
  intros Hown Hst. assert ((exists b, e = EUpdate b) \/ forall b, e <> EUpdate b) as [[b ->]|Hup].
  { destruct e; try (by right); left; by eexists. }
  - simpl in Hst. unfold step_update in Hst. destruct (upd s); try done.
    destruct (_ && _); [done|].
    destruct (calculateDesiredShards _ _ _) as [t [n|]]; by injection Hst as <-.
  - by destruct (own_kept s e s') as (?&?&_).
Qed.

Lemma kept_stopping_started s s' : kept s s' -> stopping_started s -> stopping_started s'.
Proof.
  intros (Hq&_&Hu&Hr) (H1'&H2'&H3'). unfold stopping_started. rewrite Hq.
  split_ands; [done|by destruct Hu as [->| ->]|].
  intros n Hn. by apply H3', Hr.
Qed.

Lemma drains_spec s es s' :
  drains s es s' -> inv s -> (length es + work s' <= work s)%nat /\ inv s' /\
  accepted s' = accepted s /\ (stopping_started s -> stopping_started s') /\
  (forall s0, reachable s0 s -> reachable s0 s').
Proof.
  induction 1 as [s|s e s1 es s2 Hint Hst Hd IH]; intros Hs; [done|].
  pose proof (internal_work _ _ _ Hs Hint Hst) as Hw.
  pose proof (internal_kept _ _ _ Hint Hst) as Hk.
  destruct (IH (inv_step _ _ _ Hs Hst)) as (Hlen&Hs2&Ha&Hss&Hr). split_ands; [simpl; lia|done| | |].
  - rewrite Ha. apply Hk.
  - intros Hss0. apply Hss. by eapply kept_stopping_started.
  - intros s0 Hr0. apply Hr. eapply reachable_step; [done| |done]. by destruct e.
Qed.

Lemma drains_to_stopped s :
  inv s -> stopping_started s -> exists es s', drains s es s' /\ stopped s'.
Proof.
  remember (work s) as n eqn:Hn. revert s Hn. induction (lt_wf n) as [n _ IH]; intros s -> Hs Hss.
  destruct (stop_progress s Hs Hss) as [Hst|(e&s1&Hint&Hst)].
  { exists [], s. split; [constructor|done]. }
  destruct (IH (work s1) (internal_work _ _ _ Hs Hint Hst) s1 eq_refl) as (es&s2&Hd&Hst2).
  - by eapply inv_step.
  - eapply kept_stopping_started; [by eapply internal_kept|done].
  - exists (e :: es), s2. split; [by econstructor|done].
Qed.

(** ** The steps of the queue's goroutines, ticks and idle wake-ups included *)

Definition is_tick (e : event) : bool := match e with EUpdate _ => true | _ => false end.
Definition ticks (es : list event) : nat := length (filter is_tick es).

(** The deadline of a goroutine that has nothing to send: it goes around its loop. *)
Definition idle (s : system) (e : event) : Prop :=
  exists old i sh c, e = EDeadline old i /\ gen_shards s old = Some sh /\
    sh !! i = Some (c, WSelect []).

(** A run of the queue's own goroutines, with the steps other than idle
    wake-ups that it takes. *)
Inductive own_run : system -> list event -> system -> Prop :=
  | own_run_nil s : own_run s [] s
  | own_run_idle s e s1 es s2 :
      idle s e -> qstep e s = Some (Ret s1) -> own_run s1 es s2 -> own_run s es s2
  | own_run_step s e s1 es s2 :
      own_event e -> ~ idle s e -> qstep e s = Some (Ret s1) -> own_run s1 es s2 ->
      own_run s (e :: es) s2.

Lemma set_gen_same s old sh : gen_shards s old = Some sh -> set_gen s old sh = s.
Proof.
  destruct s as [[] ? rs ?????], old; unfold gen_shards, set_gen; simpl; [|by intros [= <-]].
  destruct rs; try done; by intros [= <-].
Qed.

Lemma idle_step s e s' : idle s e -> qstep e s = Some (Ret s') -> s' = s.
Proof.
  intros (old&i&sh&c&->&Hg&Hi). simpl. unfold step_deadline. rewrite Hg. simpl. rewrite Hi. simpl.
  intros [= <-]. rewrite list_insert_id by done. by apply set_gen_same.
Qed.

Lemma own_cases s e s' :
  own_event e -> qstep e s = Some (Ret s') -> idle s e \/ internal s e \/ exists b, e = EUpdate b.
Proof.
  intros Hown Hst. destruct e; try done; try (by right; left); [|by right; right; eexists].
  simpl in Hst. unfold step_deadline in Hst.
  destruct (gen_shards s old) as [sh|] eqn:Hg; simpl in Hst; [|done].
  destruct (sh !! i) as [[c w]|] eqn:Hi; simpl in Hst; [|done].
  destruct w as [|[|x pending]|??|?|?|]; try done.
  - left. by exists old, i, sh, c.
  - right. left. by exists sh, c, (WSelect (x :: pending)).
Qed.

(** A tick asks for at most [MaxShards] shards. *)
Definition tick_work (cfg : QueueManagerConfig) : nat := 4 + 2 * Z.to_nat (MaxShards cfg).

Lemma tick_step s b s' :
  qstep (EUpdate b) s = Some (Ret s') ->
  upd s = URunning /\ upd s' = URunning /\ (work s' <= work s + tick_work (qcfg (qm s)))%nat.
Proof.
  simpl. unfold step_update. destruct (upd s) eqn:Hu; try done.
  destruct (b && negb (is_idle (resh s))) eqn:Hb; [done|].
  pose proof (calculateDesiredShards_correct oob (qm s) b) as (_&_&_&_&Hq&_&_&Hn&_).
  destruct (calculateDesiredShards oob (qm s) b) as [t [n|]]; simpl in Hq, Hn; intros [= <-];
    (split_ands; [done|done|]); unfold work, tick_work; simpl; rewrite Hq, Hu; [|lia].
  destruct (Hn n) as [(Hready&_&_&->&_) _]; [done|]. rewrite Hready in Hb.
  destruct (resh s); try done. lia.
Qed.

Lemma own_step_work s e s' :
  inv s -> own_event e -> ~ idle s e -> qstep e s = Some (Ret s') ->
  (S (work s') <= work s + ticks [e] * S (tick_work (qcfg (qm s))))%nat.
Proof.
  intros Hs Hown Hidle Hst. destruct (own_cases _ _ _ Hown Hst) as [?|[Hint|[b ->]]]; [done| |].
  - pose proof (internal_work _ _ _ Hs Hint Hst). lia.
  - destruct (tick_step _ _ _ Hst) as (_&_&?). change (ticks [EUpdate b]) with 1%nat. lia.
Qed.

Lemma ticks_cons e es : ticks (e :: es) = (ticks [e] + ticks es)%nat.
Proof. by destruct e. Qed.

Lemma own_upd_exited s e s' :
  own_event e -> qstep e s = Some (Ret s') -> upd s = UExited ->
  is_tick e = false /\ upd s' = UExited.
Proof.
  intros Hown Hst Hu. destruct (is_tick e) eqn:Ht.
  - destruct e; try done. destruct (tick_step _ _ _ Hst). congruence.
  - split; [done|]. destruct (own_kept s e s') as (_&_&[-> |]&_); try done. by intros b ->.
Qed.

Lemma own_stopping_started s e s' :
  own_event e -> qstep e s = Some (Ret s') -> quit s = true -> upd s <> UNotStarted ->
  quit s' = true /\ upd s' <> UNotStarted.
Proof.
  intros Hown Hst Hq Hu. destruct (own_accepted _ _ _ Hown Hst) as [_ ->]. split; [done|].
  destruct (is_tick e) eqn:Ht.
  - destruct e; try done. destruct (tick_step _ _ _ Hst) as (_&->&_). done.
  - destruct (own_kept s e s') as (_&_&[-> | ->]&_); try done. by intros b ->.
Qed.

Lemma own_run_spec s es s' :
  own_run s es s' -> inv s ->
  inv s' /\ (length es + work s' <= work s + ticks es * S (tick_work (qcfg (qm s))))%nat /\
  accepted s' = accepted s /\ (upd s = UExited -> ticks es = 0%nat) /\
  (quit s = true -> upd s <> UNotStarted -> quit s' = true /\ upd s' <> UNotStarted).
Proof.
  induction 1 as [s|s e s1 es s2 Hidle Hst Hrun IH|s e s1 es s2 Hown Hidle Hst Hrun IH]; intros Hs.
  - split_ands; try done. simpl. lia.
  - rewrite <- (idle_step _ _ _ Hidle Hst). apply IH. by eapply inv_step.
  - destruct (IH (inv_step _ _ _ Hs Hst)) as (Hs2&Hlen&Ha&Hx&Hq).
    pose proof (own_step_work _ _ _ Hs Hown Hidle Hst) as Hw.
    destruct (own_accepted _ _ _ Hown Hst) as [Ha1 _].
    pose proof (balance_step _ _ _ Hst) as Hb. injection Hb as Hcfg _ _.
    rewrite Hcfg in Hlen. rewrite ticks_cons. split_ands; [done|simpl in *; lia|congruence| |].
    + intros Hu. destruct (own_upd_exited _ _ _ Hown Hst Hu) as [Ht Hu1].
      rewrite (Hx Hu1). by destruct e.
    + intros Hq0 Hu0. destruct (own_stopping_started _ _ _ Hown Hst Hq0 Hu0). by apply Hq.
Qed.

(** ** The theorems *)

(** When Stop has returned, nothing is in flight. *)
Lemma sent_key_stopped s fp :
  inv s -> stopped s -> with_key fp (concat (sent s)) = with_key fp (accepted s).
Proof.
  intros Hs [Hst Hd].
  rewrite (inv_order _ Hs), (backlog_all_done (qcfg (qm s)) (qshards (qm s))), app_nil_r;
    [|by apply (inv_ok _ Hs false)|done].
  destruct (inv_stopping _ Hs Hst) as [_ Hl]. unfold old_backlog, gen_shards, loops_gone in *.
  destruct (upd s), (resh s); try done; by rewrite app_nil_r.
Qed.

Lemma sent_all_stopped s : inv s -> stopped s -> concat (sent s) ≡ₚ accepted s.
Proof. intros Hs Hst. apply (filter_key_Permutation fp_of). intros fp. by apply sent_key_stopped. Qed.

Section run.
Variables (cfg : QueueManagerConfig) (ext : LabelSet) (rc : list RelabelConfig) (name : string).
Variables (t : QueueManager) (w : W).

(** C1: samples of one series are sent in the order they were accepted. In every
    reachable state of the queue, whatever the interleaving of Append, the
    shards' goroutines, their deadlines, ticks, reshardings (which move series
    between shards) and Stop, the samples sent with a given fingerprint are a
    prefix of the samples accepted with it; every batch has between one and
    MaxSamplesPerSend samples, and no queue holds more than QueueCapacity. *)
Theorem shards_in_order (s : system) :
  well_configured cfg -> Forall valid_config rc -> NewQueueManager cfg ext rc name = Ret t ->
  reachable (initial_system t w) s ->
  (forall fp, with_key fp (concat (sent s)) `prefix_of` with_key fp (accepted s)) /\
  Forall (fun b => 1 <= Z.of_nat (length b) <= MaxSamplesPerSend cfg) (sent s) /\
  (forall old sh c wk, gen_shards s old = Some sh -> (c, wk) ∈ sh ->
    Z.of_nat (length (buf c)) <= QueueCapacity cfg).
Proof.
  intros Hcfg Hrc Ht Hr. pose proof (inv_initial cfg ext rc name t w Hcfg Hrc Ht) as Hi.
  pose proof (inv_reachable _ _ Hi Hr) as Hs.
  destruct (balance_reachable _ _ _ _ _ _ _ Ht Hr) as (Hq&_).
  split_ands.
  - intros fp. rewrite (inv_order _ Hs). by eexists.
  - rewrite <- Hq. apply (inv_batches _ Hs).
  - intros old sh c wk Hsh [i Hc]%list_elem_of_lookup. rewrite <- Hq.
    apply (so_cap _ _ _ _ (inv_ok _ Hs _ _ Hsh _ _ Hc)).
Qed.

(** C2: nothing accepted is lost. When Stop has returned, every accepted sample
    was in exactly one batch: the samples sent are the samples accepted, in the
    same order for each fingerprint, and the counters of succeeded and failed
    samples add up to them. *)
Theorem shards_no_loss (s : system) :
  well_configured cfg -> Forall valid_config rc -> NewQueueManager cfg ext rc name = Ret t ->
  reachable (initial_system t w) s -> stopped s ->
  concat (sent s) ≡ₚ accepted s /\
  (forall fp, with_key fp (concat (sent s)) = with_key fp (accepted s)) /\
  succeededSamplesTotal (metrics (qm s)) + failedSamplesTotal (metrics (qm s)) =
    Z.of_nat (length (accepted s)).
Proof.
  intros Hcfg Hrc Ht Hr Hst. pose proof (inv_initial cfg ext rc name t w Hcfg Hrc Ht) as Hi.
  pose proof (inv_reachable _ _ Hi Hr) as Hs.
  pose proof (sent_all_stopped s Hs Hst) as Hp.
  split_ands; [done|intros fp; by apply sent_key_stopped|]. rewrite <- Hp.
  by destruct (balance_reachable _ _ _ _ _ _ _ Ht Hr) as (_&_&Hc).
Qed.

(** C32: the only steps that panic. From every reachable state: a second Stop
    (it closes a closed channel), an Append after Stop has returned (it sends on
    a closed queue), an Append to a queue that was resharded to no shards, and a
    resharding to a negative number. Nothing else does, in particular no
    goroutine of a shard and no Append while a resharding is under way. *)
Theorem shards_panics (s : system) e p :
  well_configured cfg -> Forall valid_config rc -> NewQueueManager cfg ext rc name = Ret t ->
  reachable (initial_system t w) s -> fair_event s e -> qstep e s = Some (Panic p) ->
  (e = EStop /\ quit s = true /\ p = PanicCloseClosed) \/
  (exists o l x, e = EAppend o l x /\ stopped s /\ p = PanicSendClosed) \/
  (exists o l x, e = EAppend o l x /\ qshards (qm s) = [] /\ p = PanicDivide) \/
  (exists n, e = EReshard /\ resh s = RGot n /\ n < 0 /\ p = PanicMakeLen).
Proof.
  intros Hcfg Hrc Ht Hr Hf Hst. pose proof (inv_initial cfg ext rc name t w Hcfg Hrc Ht) as Hi.
  destruct (step_Panic s e p (inv_reachable _ _ Hi Hr) Hf Hst).
  - by left.
  - right. left. by eexists _, _, _.
  - right. right. left. by eexists _, _, _.
  - right. right. right. by eexists.
Qed.

(** C3: Stop terminates. Take a state in which Stop was called on a queue that was
    started and has no request for a negative number of shards. In any run of the
    queue's own goroutines, idle wake-ups apart (the deadline of a shard with
    nothing to send, which changes nothing), the number of steps is at most the
    work left plus 5 + 2 MaxShards for each tick that updateShardsLoop still
    takes instead of its quit case; once its loop has ended there are none. The
    goroutines cannot deadlock: unless a tick asked for a negative number of
    shards, where the run is either Stop has returned, all that had been accepted
    was sent, or one of them can take a step of the work that is left. Without
    ticks, a run that cannot be continued is one in which Stop has returned, and
    there is such a run. *)
Theorem shards_stop_terminates (s : system) :
  well_configured cfg -> Forall valid_config rc -> NewQueueManager cfg ext rc name = Ret t ->
  reachable (initial_system t w) s ->
  quit s = true -> upd s <> UNotStarted -> (forall n, resh s = RGot n -> 0 <= n) ->
  (forall e s', own_event e -> qstep e s = Some (Ret s') ->
    (idle s e /\ s' = s) \/ internal s e \/ exists b, e = EUpdate b) /\
  (forall es s', own_run s es s' ->
    (length es + work s' <= work s + ticks es * (5 + 2 * Z.to_nat (MaxShards cfg)))%nat /\
    (upd s = UExited -> ticks es = 0%nat) /\
    ((forall n, resh s' = RGot n -> 0 <= n) ->
      (stopped s' /\ concat (sent s') ≡ₚ accepted s) \/
      exists e s'', internal s' e /\ qstep e s' = Some (Ret s''))) /\
  (forall es s', drains s es s' -> (length es <= work s)%nat) /\
  (forall es s', drains s es s' ->
    (forall e s'', internal s' e -> qstep e s' <> Some (Ret s'')) ->
    stopped s' /\ concat (sent s') ≡ₚ accepted s) /\
  (exists es s', drains s es s' /\ stopped s').
Proof.
  intros Hcfg Hrc Ht Hr Hq Hu Hn. pose proof (inv_initial cfg ext rc name t w Hcfg Hrc Ht) as Hi.
  pose proof (inv_reachable _ _ Hi Hr) as Hs.
  assert (stopping_started s) as Hss by done.
  split_ands.
  - intros e s' Hown Hst. destruct (own_cases _ _ _ Hown Hst) as [Hidle|]; [left|by right].
    split; [done|by eapply idle_step].
  - intros es s' Hrun. destruct (own_run_spec _ _ _ Hrun Hs) as (Hs'&Hlen&<-&Hx&Hss').
    destruct (balance_reachable _ _ _ _ _ _ _ Ht Hr) as (Hc&_). rewrite Hc in Hlen.
    split_ands; [unfold tick_work in Hlen; lia|done|]. intros Hn'. destruct (Hss' Hq Hu).
    destruct (stop_progress s' Hs') as [Hst|?]; [done| |by right].
    left. split; [done|by apply (sent_all_stopped s')].
  - intros es s' Hd. destruct (drains_spec _ _ _ Hd Hs). lia.
  - intros es s' Hd Hmax. destruct (drains_spec _ _ _ Hd Hs) as (_&Hs'&<-&Hss'&Hr').
    destruct (stop_progress s' Hs' (Hss' Hss)) as [Hst|(e&s''&Hint&Hst)]; [|by destruct (Hmax e s'')].
    split; [done|]. by apply (sent_all_stopped s').
  - by apply drains_to_stopped.
Qed.

End run.

End system.

(** ** A concrete run *)

Section examples.
Import LiteralRelabel.

#[local] Instance always_ok : StorageClient unit := {| Store w _ := (w, None); Name := "ok" |}.

Definition small_config : QueueManagerConfig := {|
  QueueCapacity := 2; MaxShards := 4; MaxSamplesPerSend := 2; BatchSendDeadline := Second;
  MaxRetries := 3; MinBackoff := 30 * Millisecond; MaxBackoff := 100 * Millisecond
|}.

Definition no_oob (_ : float64) : Z := 0.

Definition fresh_queue : QueueManager :=
  mkQueueManager small_config ∅ [] "q" [(mkChan [] false, WNotStarted)] 1
    (newEWMARate ewmaWeight shardUpdateDuration) (newEWMARate ewmaWeight shardUpdateDuration)
    (newEWMARate ewmaWeight shardUpdateDuration) f64_zero (mkMetrics 0 0 0 0).

Definition sample_at (t : Time) : Sample := mkSample {["a" := "1"]} f64_zero t.
Definition append_at (t : Time) : event := EAppend [("a", "1")] [] (sample_at t).

(** Two samples fill the queue, the third is dropped; after the first batch two
    more come in; then Stop. *)
Definition demo_before_stop : list event :=
  [EStart; append_at 1; append_at 2; append_at 3; EReceive false 0; EReceive false 0;
   ESent false 0 5; append_at 4; EReceive false 0; append_at 5].
Definition demo_after_stop : list event :=
  [EUpdaterExit; EResharderExit; EStopShards; EReceive false 0; ESent false 0 7; EReceive false 0].

Definition after (es : list event) : system :=
  match qrun no_oob es (initial_system fresh_queue tt) with
  | Some (Ret s) => s
  | _ => initial_system fresh_queue tt
  end.

Lemma qrun_reachable s0 s es :
  reachable no_oob s0 s -> (forall e s', e ∈ es -> reachable no_oob s0 s' -> fair_event s' e) ->
  forall s', qrun no_oob es s = Some (Ret s') -> reachable no_oob s0 s'.
Proof.
  revert s. induction es as [|e es IH]; intros s Hr Hf s' Hrun; simpl in Hrun.
  { by injection Hrun as <-. }
  destruct (qstep no_oob e s) as [[s1|]|] eqn:Hst; try done.
  apply (IH s1); [|intros e' s'' He'; apply Hf; set_solver|done].
  eapply reachable_step; [done| |done]. apply Hf; [set_solver|done].
Qed.

Lemma fresh_queue_new : NewQueueManager small_config ∅ [] "q" = Ret fresh_queue.
Proof. reflexivity. Qed.

Lemma small_well_configured : well_configured small_config.
Proof. split; simpl; lia. Qed.

Lemma append_fair t s :
  reachable no_oob (initial_system fresh_queue tt) s -> fair_event s (append_at t).
Proof.
  intros Hr. destruct (balance_reachable no_oob _ _ _ _ _ _ _ fresh_queue_new Hr) as (_&Hx&_).
  simpl. rewrite Hx. split; apply Permutation_refl.
Qed.

Lemma demo_fair e s :
  e ∈ demo_before_stop ++ EStop :: demo_after_stop ->
  reachable no_oob (initial_system fresh_queue tt) s -> fair_event s e.
Proof.
  intros He Hr. assert (Forall (fair_event s) (demo_before_stop ++ EStop :: demo_after_stop)) as Hf.
  { unfold demo_before_stop, demo_after_stop. cbn [app].
    repeat (apply Forall_cons; split; [first [by apply append_fair|exact I]|]). by apply Forall_nil. }
  rewrite Forall_forall in Hf. by apply Hf.
Qed.

Lemma demo_reachable es s :
  es `prefix_of` demo_before_stop ++ EStop :: demo_after_stop ->
  qrun no_oob es (initial_system fresh_queue tt) = Some (Ret s) ->
  reachable no_oob (initial_system fresh_queue tt) s.
Proof.
  intros [k Hk] Hrun. eapply qrun_reachable; [apply reachable_refl| |exact Hrun].
  intros e s' He. apply demo_fair. rewrite Hk. set_solver.
Qed.

Definition demo_final : system := after (demo_before_stop ++ EStop :: demo_after_stop).

Lemma demo_final_reachable : reachable no_oob (initial_system fresh_queue tt) demo_final.
Proof.
  apply (demo_reachable (demo_before_stop ++ EStop :: demo_after_stop));
    [exists []; by rewrite app_nil_r|vm_compute; reflexivity].
Qed.

Lemma shards_in_order_witness :
  (with_key (fp_of (sample_at 1)) (concat (sent (after demo_before_stop)))
    `prefix_of` with_key (fp_of (sample_at 1)) (accepted (after demo_before_stop))) /\
  length (accepted (after demo_before_stop)) = 4%nat.
Proof.
  split; [|vm_compute; reflexivity].
  apply (shards_in_order no_oob small_config ∅ [] "q" fresh_queue tt).
  - apply small_well_configured.
  - constructor.
  - reflexivity.
  - apply (demo_reachable demo_before_stop); [by eexists|vm_compute; reflexivity].
Defined.

Lemma shards_no_loss_witness :
  stopped demo_final /\ length (accepted demo_final) = 4%nat /\
  concat (sent demo_final) ≡ₚ accepted demo_final.
Proof.
  split; [split; vm_compute; reflexivity|]. split; [vm_compute; reflexivity|].
  apply (shards_no_loss no_oob small_config ∅ [] "q" fresh_queue tt).
  - apply small_well_configured.
  - constructor.
  - reflexivity.
  - exact demo_final_reachable.
  - split; vm_compute; reflexivity.
Defined.

(** An Append after Stop has returned. *)
Lemma shards_panics_witness :
  qstep no_oob (append_at 6) demo_final = Some (Panic PanicSendClosed) /\ stopped demo_final.
Proof.
  assert (qstep no_oob (append_at 6) demo_final = Some (Panic PanicSendClosed)) as Hst
    by (vm_compute; reflexivity).
  split; [exact Hst|].
  assert (fair_event demo_final (append_at 6)) as Hf
    by (apply append_fair, demo_final_reachable).
  pose proof (shards_panics no_oob small_config ∅ [] "q" fresh_queue tt demo_final (append_at 6)
    PanicSendClosed small_well_configured (Forall_nil_2 _) eq_refl demo_final_reachable Hf Hst) as Hp.
  destruct Hp as [(He&_)|[(o&l&x&_&Hs&_)|[(o&l&x&_&_&Hx)|(n&He&_)]]].
  - discriminate He.
  - exact Hs.
  - discriminate Hx.
  - discriminate He.
Defined.

Lemma shards_stop_terminates_witness :
  exists es s', drains no_oob (after (demo_before_stop ++ [EStop])) es s' /\ stopped s'.
Proof.
  destruct (shards_stop_terminates no_oob small_config ∅ [] "q" fresh_queue tt
    (after (demo_before_stop ++ [EStop]))) as (_&_&_&_&Hd).
  - apply small_well_configured.
  - constructor.
  - reflexivity.
  - apply (demo_reachable (demo_before_stop ++ [EStop]));
      [exists demo_after_stop; by rewrite <- app_assoc|vm_compute; reflexivity].
  - vm_compute. reflexivity.
  - vm_compute. discriminate.
  - vm_compute. discriminate.
  - exact Hd.
Defined.

End examples.
