(* ===== verification/QueueSpec.v ===== *)
(** * What a remote write queue promises ([storage/remote/queue_manager.go])

    An abstract queue: for each fingerprint the samples that are pending, oldest
    first, and how far Stop has come. It has no shards, no batches under
    construction, no deadlines, no ticks and no resharding. The goroutines of
    Shards.v refine it: what their steps show (a sample taken in, a batch sent,
    Stop called, the queues closed) is a trace of the abstract queue. *)
From S2P Require Import Prelude Model MetricPkg Relabel Ewma Queue Shards.

Open Scope Z_scope.

(** ** The abstract queue *)

Inductive phase := POpen | PStopping | PClosed.

Inductive label :=
  | LAccept (x : Sample)
  | LSend (b : list Sample)
  | LStop
  | LClose.

Record fifo := mkFifo { pending : Z -> list Sample; fphase : phase }.

Definition fifo_init : fifo := mkFifo (fun _ => []) POpen.

(** Samples are taken in until the queues are closed; a batch has between one
    and [max] samples, and of each series it has the oldest ones, in order. *)
Inductive fifo_step (max : Z) : fifo -> label -> fifo -> Prop :=
  | fifo_accept a a' x :
      fphase a <> PClosed -> fphase a' = fphase a ->
      (forall fp, pending a' fp = pending a fp ++ with_key fp [x]) ->
      fifo_step max a (LAccept x) a'
  | fifo_send a a' b :
      1 <= Z.of_nat (length b) <= max -> fphase a' = fphase a ->
      (forall fp, pending a fp = with_key fp b ++ pending a' fp) ->
      fifo_step max a (LSend b) a'
  | fifo_stop a :
      fphase a = POpen -> fifo_step max a LStop (mkFifo (pending a) PStopping)
  | fifo_close a :
      fphase a = PStopping -> fifo_step max a LClose (mkFifo (pending a) PClosed).

Inductive fifo_run (max : Z) : fifo -> list label -> fifo -> Prop :=
  | fifo_run_nil a : fifo_run max a [] a
  | fifo_run_cons a l a1 ls a2 :
      fifo_step max a l a1 -> fifo_run max a1 ls a2 -> fifo_run max a (l :: ls) a2.

(** The samples a trace takes in, and those it sends. *)
Definition accepts (ls : list label) : list Sample :=
  ls ≫= fun l => match l with LAccept x => [x] | _ => [] end.
Definition sends (ls : list label) : list Sample :=
  ls ≫= fun l => match l with LSend b => b | _ => [] end.

Lemma accepts_app ls ls' : accepts (ls ++ ls') = accepts ls ++ accepts ls'.
Proof. apply bind_app. Qed.
Lemma sends_app ls ls' : sends (ls ++ ls') = sends ls ++ sends ls'.
Proof. apply bind_app. Qed.

Lemma fifo_run_app max a ls a1 ls' a2 :
  fifo_run max a ls a1 -> fifo_run max a1 ls' a2 -> fifo_run max a (ls ++ ls') a2.
Proof. induction 1; [done|]. intros. econstructor; eauto. Qed.

(** What the abstract queue conserves. *)
Lemma fifo_conserves max a ls a' fp :
  fifo_run max a ls a' ->
  pending a fp ++ with_key fp (accepts ls) = with_key fp (sends ls) ++ pending a' fp.
Proof.
  induction 1 as [a|a l a1 ls a2 Hst _ IH]; [apply app_nil_r|].
  change (l :: ls) with ([l] ++ ls). rewrite accepts_app, sends_app.
  rewrite !with_key_app, <- (app_assoc (with_key fp (sends [l]))), <- IH.
  destruct Hst as [a a' x _ _ Hp|a a' b _ _ Hp|a _|a _]; unfold accepts, sends; simpl; [| |done..].
  - by rewrite Hp, app_assoc.
  - by rewrite Hp, app_nil_r, <- app_assoc.
Qed.

Section refinement.
Context `{RelabelLib, MapOrder}.
Context {W : Type} `{StorageClient W}.
Variable oob : float64 -> Z.

Local Abbreviation system := (Shards.system (W:=W)).
Local Abbreviation qstep := (Shards.qstep oob).
Local Abbreviation qrun := (Shards.qrun oob).

(** ** What a step of the goroutines shows *)

Definition step_label (s : system) (e : event) (s' : system) : option label :=
  match e with
  | EAppend _ _ _ => LAccept <$> head (drop (length (accepted s)) (accepted s'))
  | ESent _ _ _ => LSend <$> head (drop (length (sent s)) (sent s'))
  | EStop => Some LStop
  | EStopShards => Some LClose
  | _ => None
  end.

(** The trace of a run; it ends where the run does. *)
Fixpoint trace (es : list event) (s : system) : list label :=
  match es with
  | [] => []
  | e :: es =>
      match qstep e s with
      | Some (Ret s') => option_list (step_label s e s') ++ trace es s'
      | _ => []
      end
  end.

(** ** The abstraction *)

Definition in_flight (s : system) (fp : Z) : list Sample :=
  old_backlog s fp ++ backlog (qshards (qm s)) fp.

Definition phase_of (s : system) : phase :=
  if stopping s then PClosed else if quit s then PStopping else POpen.

(** The state [a] of the abstract queue stands for [s]. *)
Definition represents (a : fifo) (s : system) : Prop :=
  fphase a = phase_of s /\ forall fp, pending a fp = in_flight s fp.

(** The part of the state a step shows. *)
Definition shown (s : system) : list Sample * list (list Sample) * bool * bool :=
  (accepted s, sent s, quit s, stopping s).

Lemma shown_set_gen s old sh : shown (set_gen s old sh) = shown s.
Proof. unfold set_gen. destruct old; [by destruct (resh s)|done]. Qed.

(** How the part that is shown changes, step by step. *)
Definition shows (s : system) (o : option label) (s' : system) : Prop :=
  match o with
  | None => shown s' = shown s
  | Some (LAccept x) => shown s' = (accepted s ++ [x], sent s, quit s, stopping s) /\ stopping s = false
  | Some (LSend b) => shown s' = (accepted s, sent s ++ [b], quit s, stopping s)
  | Some LStop => shown s' = (accepted s, sent s, true, stopping s) /\ quit s = false
  | Some LClose => shown s' = (accepted s, sent s, quit s, true) /\ quit s = true /\ stopping s = false
  end.

Lemma append_shows s o l x s' :
  inv s -> step_append s o l x = Some (Ret s') -> shows s (step_label s (EAppend o l x) s') s'.
Proof.
  intros Hs. unfold step_append. destruct (stopping s && _); [done|]. intros [= Hst].
  unfold QueueManager_Append in Hst. simpl.
  destruct (process_sample _ _ _ x) as [[snew|]|]; simpl in Hst; [| |done].
  - destruct (enqueue (qm s) snew) as [[t b]|] eqn:He; simpl in Hst; [|done].
    destruct (enqueue_Ret _ _ _ _ He) as (c&w&Hi&Hc&->&->).
    pose proof (Forall_lookup_1 _ _ _ _ (inv_closed _ Hs) Hi) as Hcl. unfold closed_is in Hcl.
    simpl in Hcl. destruct (_ <? _); injection Hst as <-; simpl.
    + rewrite drop_app_length. simpl. split; [done|congruence].
    + by rewrite drop_all.
  - injection Hst as <-. simpl. by rewrite drop_all.
Qed.

Lemma step_shows e s s' : inv s -> qstep e s = Some (Ret s') -> shows s (step_label s e s') s'.
Proof.
  intros Hs. destruct e; simpl Shards.qstep.
  - unfold step_start. destruct (upd s), (resh s), (quit s) eqn:Hq; try done.
    intros [= <-]. unfold shows, shown. simpl. by rewrite Hq.
  - by apply append_shows.
  - unfold step_receive. destruct (gen_shards s old) as [sh|]; simpl; [|done].
    destruct (sh !! i) as [[c w]|]; simpl; [|done].
    destruct (runShard_receive _ c w) as [[[[c' w'] got]|]|]; simpl; [|done..].
    intros [= <-]. rewrite <- (shown_set_gen s old (<[i:=(c', w')]> sh)). by destruct got.
  - unfold step_deadline. destruct (gen_shards s old) as [sh|]; simpl; [|done].
    destruct (sh !! i) as [[c w]|]; simpl; [|done].
    destruct (runShard_deadline w); simpl; [|done]. intros [= <-]. apply shown_set_gen.
  - unfold step_sent. destruct (gen_shards s old) as [sh|]; simpl; [|done].
    destruct (sh !! i) as [[c w]|]; simpl; [|done].
    destruct (sending w) as [b|]; simpl; [|done].
    destruct (runShard_sent _ w); simpl; [|done]. intros [= <-].
    match goal with |- context [set_gen ?x _ ?y] => pose proof (shown_set_gen x old y) as Hx end.
    pose proof (f_equal (fun p => p.1.1.2) Hx) as Hsent. simpl in Hsent.
    rewrite Hsent, drop_app_length. simpl. exact Hx.
  - unfold step_update. destruct (upd s); try done. destruct (_ && _); [done|].
    destruct (calculateDesiredShards _ _ _) as [t [n|]]; by intros [= <-].
  - unfold step_reshard. destruct (resh s); try done. destruct (newShards _ n); simpl; [|done].
    by intros [= <-].
  - unfold step_close_old. destruct (resh s); try done. by intros [= <-].
  - unfold step_start_new. destruct (resh s); try done. destruct (all_done _); [|done]. by intros [= <-].
  - unfold step_stop. destruct (quit s) eqn:Hq; [done|]. by intros [= <-].
  - unfold step_updater_exit. destruct (upd s); try done. destruct (quit s) eqn:Hq; [|done].
    intros [= <-]. by unfold shows, shown.
  - unfold step_resharder_exit. destruct (resh s); try done. destruct (quit s) eqn:Hq; [|done].
    intros [= <-]. by unfold shows, shown.
  - unfold step_stop_shards. destruct (quit s) eqn:Hq; [|done].
    destruct (loops_gone s), (stopping s) eqn:Hsp; try done. intros [= <-]. simpl.
    unfold shown. simpl. by rewrite Hq.
Qed.

(** What is in flight, from the histories. *)
Lemma in_flight_spec s fp :
  inv s -> with_key fp (accepted s) = with_key fp (concat (sent s)) ++ in_flight s fp.
Proof. intros Hs. by rewrite (inv_order _ Hs). Qed.

Lemma in_flight_accept s s' x fp :
  inv s -> inv s' -> accepted s' = accepted s ++ [x] -> sent s' = sent s ->
  in_flight s' fp = in_flight s fp ++ with_key fp [x].
Proof.
  intros Hs Hs' Ha Hb. pose proof (in_flight_spec s' fp Hs') as Hf.
  rewrite Ha, Hb, with_key_app, (in_flight_spec s fp Hs), <- app_assoc in Hf.
  by apply app_inv_head in Hf.
Qed.

Lemma in_flight_send s s' b fp :
  inv s -> inv s' -> accepted s' = accepted s -> sent s' = sent s ++ [b] ->
  in_flight s fp = with_key fp b ++ in_flight s' fp.
Proof.
  intros Hs Hs' Ha Hb. pose proof (in_flight_spec s' fp Hs') as Hf.
  rewrite Ha, Hb, concat_app, with_key_app, (in_flight_spec s fp Hs), <- app_assoc in Hf.
  apply app_inv_head in Hf. simpl in Hf. by rewrite app_nil_r in Hf.
Qed.

Lemma in_flight_same s s' fp :
  inv s -> inv s' -> accepted s' = accepted s -> sent s' = sent s -> in_flight s' fp = in_flight s fp.
Proof.
  intros Hs Hs' Ha Hb. pose proof (in_flight_spec s' fp Hs') as Hf.
  rewrite Ha, Hb, (in_flight_spec s fp Hs) in Hf. by apply app_inv_head in Hf.
Qed.

Lemma qcfg_step s e s' : qstep e s = Some (Ret s') -> qcfg (qm s') = qcfg (qm s).
Proof. intros Hst%balance_step. by injection Hst. Qed.

Lemma last_batch_good s s' e b :
  inv s' -> qstep e s = Some (Ret s') -> sent s' = sent s ++ [b] -> good_batch (qcfg (qm s)) b.
Proof.
  intros Hs' Hst Hb. pose proof (inv_batches _ Hs') as Hg. rewrite Hb in Hg.
  apply Forall_app in Hg as [_ Hg]. rewrite Forall_singleton in Hg.
  by rewrite <- (qcfg_step s e s').
Qed.

(** The diagram: a step of the goroutines is silent, or a step of the abstract
    queue. *)
Lemma simulates a s e s' :
  inv s -> represents a s -> qstep e s = Some (Ret s') ->
  exists a', represents a' s' /\
    fifo_run (MaxSamplesPerSend (qcfg (qm s))) a (option_list (step_label s e s')) a'.
Proof.
  intros Hs [Hph Hpe] Hst. pose proof (inv_step _ _ _ _ Hs Hst) as Hs'.
  pose proof (step_shows _ _ _ Hs Hst) as Hsh. unfold represents, phase_of in *.
  destruct (step_label s e s') as [[x|b| |]|]; unfold shows, shown in Hsh.
  - destruct Hsh as [[= Ha Hb Hq Hc] Hop]. exists (mkFifo (in_flight s') (phase_of s')).
    split; [done|]. eapply fifo_run_cons; [|constructor]. unfold phase_of. constructor; simpl.
    + rewrite Hph, Hop. by destruct (quit s).
    + by rewrite Hph, Hq, Hc.
    + intros fp. rewrite Hpe. by apply in_flight_accept.
  - injection Hsh as Ha Hb Hq Hc. exists (mkFifo (in_flight s') (phase_of s')).
    split; [done|]. eapply fifo_run_cons; [|constructor]. unfold phase_of. constructor; simpl.
    + by eapply last_batch_good.
    + by rewrite Hph, Hq, Hc.
    + intros fp. rewrite Hpe. by apply in_flight_send.
  - destruct Hsh as [[= Ha Hb Hq Hc] Hop]. exists (mkFifo (pending a) PStopping).
    assert (stopping s = false) as Hn.
    { destruct (stopping s) eqn:Hn; [|done]. destruct (inv_stopping _ Hs Hn). congruence. }
    rewrite Hc, Hn, Hq. split.
    + split; [done|]. intros fp. rewrite (in_flight_same s s' fp) by done. apply Hpe.
    + eapply fifo_run_cons; [|constructor]. constructor. by rewrite Hph, Hn, Hop.
  - destruct Hsh as [[= Ha Hb Hq Hc] [Hq' Hn]]. exists (mkFifo (pending a) PClosed).
    rewrite Hc. split.
    + split; [done|]. intros fp. rewrite (in_flight_same s s' fp) by done. apply Hpe.
    + eapply fifo_run_cons; [|constructor]. constructor. by rewrite Hph, Hn, Hq'.
  - injection Hsh as Ha Hb Hq Hc. exists a. split; [|constructor]. rewrite Hph, Hq, Hc.
    split; [done|]. intros fp. by rewrite (in_flight_same s s' fp).
Qed.

Lemma simulates_run es : forall a s s',
  inv s -> represents a s -> qrun es s = Some (Ret s') ->
  exists a', fifo_run (MaxSamplesPerSend (qcfg (qm s))) a (trace es s) a' /\ represents a' s' /\ inv s'.
Proof.
  induction es as [|e es IH]; intros a s s' Hs Hrep Hrun; simpl in *.
  { injection Hrun as <-. exists a. split_ands; [constructor|done|done]. }
  destruct (qstep e s) as [[s1|p]|] eqn:Hst; try done.
  destruct (simulates a s e s1 Hs Hrep Hst) as (a1&Hrep1&Hrun1).
  destruct (IH a1 s1 s') as (a'&Hrun'&Hrep'&Hs'); [by eapply inv_step|done|done|].
  rewrite (qcfg_step _ _ _ Hst) in Hrun'. exists a'. split_ands; [by eapply fifo_run_app|done|done].
Qed.

Lemma represents_stopped a s :
  inv s -> represents a s -> stopped s -> fphase a = PClosed /\ forall fp, pending a fp = [].
Proof.
  intros Hs [Hph Hpe] Hst. split; [rewrite Hph; unfold phase_of; by rewrite (proj1 Hst)|].
  intros fp. rewrite Hpe. pose proof (in_flight_spec s fp Hs) as Hf.
  rewrite (sent_key_stopped s fp Hs Hst) in Hf.
  by apply (app_inv_head (with_key fp (accepted s))); rewrite app_nil_r.
Qed.

(** C4: the queue's goroutines implement a queue that is FIFO for each series.
    Whatever run of Append, the shards' goroutines, deadlines, ticks,
    reshardings and Stop, what it shows (the samples taken in, the batches sent,
    Stop, the closing of the queues, in the order they happen) is a trace of the
    abstract queue, in which a batch holds between one and MaxSamplesPerSend
    samples, the oldest pending ones of each series, and nothing is taken in
    once the queues are closed. So for each series the trace sends what it takes
    in, in that order; and when Stop has returned nothing is pending and all of
    it has been sent. *)
Theorem queue_refines_fifo cfg ext rc name t (w : W) es s :
  well_configured cfg -> Forall valid_config rc -> NewQueueManager cfg ext rc name = Ret t ->
  qrun es (initial_system t w) = Some (Ret s) ->
  exists a, fifo_run (MaxSamplesPerSend cfg) fifo_init (trace es (initial_system t w)) a /\
    represents a s /\
    (forall fp, with_key fp (accepts (trace es (initial_system t w))) =
      with_key fp (sends (trace es (initial_system t w))) ++ pending a fp) /\
    (stopped s -> fphase a = PClosed /\ forall fp, pending a fp = []).
Proof.
  intros Hcfg Hrc Ht Hrun. pose proof (inv_initial cfg ext rc name t w Hcfg Hrc Ht) as Hi.
  assert (represents fifo_init (initial_system t w)) as Hrep.
  { split; [done|]. intros fp. pose proof (in_flight_spec _ fp Hi) as Hf. exact Hf. }
  destruct (simulates_run es _ _ _ Hi Hrep Hrun) as (a&Ha&Hrep'&Hs').
  destruct (balance_reachable oob cfg ext rc name t w _ Ht (reachable_refl _ _)) as [Hq _].
  rewrite Hq in Ha. exists a. split_ands; [done|done| |].
  - intros fp. exact (fifo_conserves _ _ _ _ fp Ha).
  - by apply represents_stopped.
Qed.

End refinement.

(** ** The run of the demo *)

Section examples.
Import LiteralRelabel.
#[local] Existing Instance always_ok.

Definition demo_events : list event := demo_before_stop ++ EStop :: demo_after_stop.

(** The third sample finds the queue full and is not in the trace. *)
Example demo_trace :
  trace no_oob demo_events (initial_system fresh_queue tt) =
    [LAccept (sample_at 1); LAccept (sample_at 2); LSend [sample_at 1; sample_at 2];
     LAccept (sample_at 4); LAccept (sample_at 5); LStop; LClose;
     LSend [sample_at 4; sample_at 5]].
Proof. vm_compute. reflexivity. Qed.

Lemma queue_refines_fifo_witness :
  exists a, fifo_run 2 fifo_init (trace no_oob demo_events (initial_system fresh_queue tt)) a /\
    fphase a = PClosed.
Proof.
  destruct (queue_refines_fifo no_oob small_config ∅ [] "q" fresh_queue tt demo_events demo_final)
    as (a&Ha&_&_&Hst).
  - apply small_well_configured.
  - constructor.
  - reflexivity.
  - vm_compute. reflexivity.
  - exists a. split; [exact Ha|]. apply Hst. split; vm_compute; reflexivity.
Defined.

End examples.
