(* ===== verification/Target.v ===== *)
(** * Scrape targets ([retrieval/target.go])

    Label population, the target's identity, and the sample appenders a scrape
    wraps around the storage. Assembling URL strings and quoting belong to Go's
    [net/url] and [strconv] and are class parameters; splitting host and port
    and UTF-8 validity are written out. *)
From stdpp Require Import pretty.
From S2P Require Import Prelude Model MetricPkg Relabel Storage.
Import Matcher.

Open Scope Z_scope.

(** ** Strings *)

Definition HasPrefix (s prefix : string) : bool := String.prefix prefix s.

(** The bytes after the first [n]. *)
Fixpoint drop_bytes (n : nat) (s : string) : string :=
  match n, s with
  | O, _ => s
  | S n, EmptyString => EmptyString
  | S n, String.String _ s => drop_bytes n s
  end.

(** Index of the first and of the last occurrence of a byte. *)
Fixpoint byteIndex (s : string) (c : ascii) : option nat :=
  match s with
  | EmptyString => None
  | String.String b s => if Ascii.eqb b c then Some O else S <$> byteIndex s c
  end.
Fixpoint byteLast (s : string) (c : ascii) : option nat :=
  match s with
  | EmptyString => None
  | String.String b s =>
      match byteLast s c with
      | Some i => Some (S i)
      | None => if Ascii.eqb b c then Some O else None
      end
  end.

Fixpoint take_bytes (n : nat) (s : string) : string :=
  match n, s with
  | S n, String.String b s => String.String b (take_bytes n s)
  | _, _ => EmptyString
  end.

(** [net.SplitHostPort]; the error is one of several messages. *)
Definition SplitHostPort (hostport : string) : error + (string * string) :=
  match byteLast hostport ":" with
  | None => inl "missing port in address"
  | Some i =>
      let finish (host : string) (j k : nat) :=
        match byteIndex (drop_bytes j hostport) "[" with
        | Some _ => inl "unexpected '[' in address"
        | None =>
            match byteIndex (drop_bytes k hostport) "]" with
            | Some _ => inl "unexpected ']' in address"
            | None => inr (host, drop_bytes (S i) hostport)
            end
        end in
      if HasPrefix hostport "[" then
        match byteIndex hostport "]" with
        | None => inl "missing ']' in address"
        | Some end_ =>
            if Nat.eqb (S end_) (String.length hostport) then inl "missing port in address"
            else if Nat.eqb (S end_) i then
              finish (take_bytes (end_ - 1) (drop_bytes 1 hostport)) 1%nat (S end_)
            else if HasPrefix (drop_bytes (S end_) hostport) ":" then
              inl "too many colons in address"
            else inl "missing port in address"
        end
      else
        match byteIndex (take_bytes i hostport) ":" with
        | Some _ => inl "too many colons in address"
        | None => finish (take_bytes i hostport) 0%nat 0%nat
        end
  end.

(** [utf8.ValidString]: well-formed sequences as in table 3-7 of the Unicode
    standard, which Go's decoder follows. *)
Definition in_range (lo hi : nat) (c : ascii) : bool :=
  let n := Ascii.nat_of_ascii c in Nat.leb lo n && Nat.leb n hi.
Definition continuation : ascii -> bool := in_range 128 191.

Fixpoint utf8_valid (s : string) : bool :=
  match s with
  | EmptyString => true
  | String.String a s1 =>
      if in_range 0 127 a then utf8_valid s1
      else
        match s1 with
        | EmptyString => false
        | String.String b s2 =>
            if in_range 194 223 a then continuation b && utf8_valid s2
            else
              match s2 with
              | EmptyString => false
              | String.String c s3 =>
                  if in_range 224 224 a then in_range 160 191 b && continuation c && utf8_valid s3
                  else if in_range 225 236 a || in_range 238 239 a then
                    continuation b && continuation c && utf8_valid s3
                  else if in_range 237 237 a then
                    in_range 128 159 b && continuation c && utf8_valid s3
                  else
                    match s3 with
                    | EmptyString => false
                    | String.String d s4 =>
                        if in_range 240 240 a then
                          in_range 144 191 b && continuation c && continuation d && utf8_valid s4
                        else if in_range 241 243 a then
                          continuation b && continuation c && continuation d && utf8_valid s4
                        else if in_range 244 244 a then
                          in_range 128 143 b && continuation c && continuation d && utf8_valid s4
                        else false
                    end
              end
        end
  end.

(** [fmt.Sprintf("%016x", n)] of an unsigned 64-bit number. *)
Definition hex_digit (n : Z) : ascii :=
  Ascii.ascii_of_nat (Z.to_nat (if n <? 10 then 48 + n else 87 + n)).
Fixpoint hex_loop (digits : nat) (n : Z) (acc : string) : string :=
  match digits with
  | O => acc
  | S digits => hex_loop digits (Z.shiftr n 4) (String.String (hex_digit (Z.land n 15)) acc)
  end.
Definition Fingerprint_String (fp : Z) : string := hex_loop 16 fp EmptyString.

(** Assembling URLs. *)
Class URLLib := {
  params_Encode : gmap string (list string) -> string;
  URL_String : string -> string -> string -> string -> string
}.

(** The order in which the loops over a map of parameters visit it. *)
Class ParamsOrder := {
  porder : gmap string (list string) -> list (string * list string);
  porder_range m : map_range m (porder m)
}.

(** ** Populating labels *)

Section populate.
Context `{RelabelLib, MapOrder, StrconvLib, ParamsOrder}.

Record ScrapeConfig := mkScrapeConfig {
  JobName : string;
  Scheme : string;
  MetricsPath : string;
  Params : gmap string (list string);
  RelabelConfigs : list RelabelConfig
}.

Record TargetGroup := mkTargetGroup {
  TGTargets : list LabelSet;
  TGLabels : LabelSet;
  TGSource : string
}.

(** [addPort]: no port can be split off, but one could be if it were there. *)
Definition addPort (s : string) : bool :=
  match SplitHostPort s with
  | inr _ => false
  | inl _ =>
      match SplitHostPort (s +:+ ":1234") with
      | inr _ => true
      | inl _ => false
      end
  end.

Definition scrapeLabels (cfg : ScrapeConfig) : LabelSet :=
  <[SchemeLabel := Scheme cfg]> (<[MetricsPathLabel := MetricsPath cfg]>
    {[JobLabel := JobName cfg]}).

(** The loop that encodes the first value of every parameter as a label. *)
Definition param_labels (l : list (string * list string)) (lset : LabelSet) : LabelSet :=
  foldl (fun lset '(k, v) =>
    match v with [] => lset | v0 :: _ => <[ParamLabelPrefix +:+ k := v0]> lset end) lset l.

(** The default port of the scheme, for an address that lacks one. *)
Definition with_port (cfg : ScrapeConfig) (lset : LabelSet) (addr : string) : error + LabelSet :=
  if addPort addr then
    let scheme := label_value lset SchemeLabel in
    if String.eqb scheme "http" || String.eqb scheme EmptyString then
      inr (<[AddressLabel := addr +:+ ":80"]> lset)
    else if String.eqb scheme "https" then inr (<[AddressLabel := addr +:+ ":443"]> lset)
    else inl ("invalid scheme: " +:+ Quote (Scheme cfg))
  else inr lset.

Definition CheckTargetAddress (address : LabelValue) : option error :=
  match byteIndex address "/" with
  | Some _ => Some (Quote address +:+ " is not a valid hostname")
  | None => None
  end.

(** The loop that deletes meta labels and checks the values of the others. *)
Fixpoint final_labels (l : list (LabelName * LabelValue)) (lset : LabelSet) : error + LabelSet :=
  match l with
  | [] => inr lset
  | (ln, lv) :: l =>
      if HasPrefix ln MetaLabelPrefix then final_labels l (delete ln lset)
      else if negb (utf8_valid lv) then
        inl ("invalid label value for " +:+ Quote ln +:+ ": " +:+ Quote lv)
      else final_labels l lset
  end.

(** What follows relabelling. *)
Definition complete_labels (cfg : ScrapeConfig) (lset : LabelSet) : error + LabelSet :=
  match lset !! AddressLabel with
  | None => inl "no address"
  | Some addr =>
      match with_port cfg lset addr with
      | inl err => inl err
      | inr lset =>
          match CheckTargetAddress (label_value lset AddressLabel) with
          | Some err => inl err
          | None =>
              match final_labels (order 3 lset) lset with
              | inl err => inl err
              | inr lset =>
                  match lset !! InstanceLabel with
                  | Some _ => inr lset
                  | None => inr (<[InstanceLabel := label_value lset AddressLabel]> lset)
                  end
              end
          end
      end
  end.

(** The labels a target has before relabelling. *)
Definition pre_relabel (lset : LabelSet) (cfg : ScrapeConfig) : LabelSet :=
  let lset := Clone (order 0 lset) in
  let lset := add_missing (order 1 (scrapeLabels cfg)) lset in
  param_labels (porder (Params cfg)) lset.

(** The result is an error, or the labels after and before relabelling, which
    are both nil for a target that relabelling drops. *)
Definition populateLabels (lset : LabelSet) (cfg : ScrapeConfig)
    : outcome (error + option (LabelSet * LabelSet)) :=
  let lset := pre_relabel lset cfg in
  let preRelabelLabels := Clone (order 2 lset) in
  r ← Process lset (RelabelConfigs cfg);
  match r with
  | None => Ret (inr None)
  | Some lset =>
      match complete_labels cfg lset with
      | inl err => Ret (inl err)
      | inr lset => Ret (inr (Some (lset, preRelabelLabels)))
      end
  end.

(** ** Targets *)

Inductive TargetHealth := HealthUnknown | HealthGood | HealthBad.

Record Target := mkTarget {
  discoveredLabels : LabelSet;
  labels : LabelSet;
  params : gmap string (list string);
  lastError : option error;
  lastScrape : Z;
  health : TargetHealth
}.

(** The zero time of Go is a constant of the model's clock. *)
Definition zero_time : Z := 0.

Definition NewTarget (labels discoveredLabels : LabelSet) (params : gmap string (list string))
    : Target :=
  mkTarget discoveredLabels labels params None zero_time HealthUnknown.

Definition report (t : Target) (start : Z) (dur : Duration) (err : option error) : Target :=
  mkTarget (discoveredLabels t) (labels t) (params t) err start
    (match err with None => HealthGood | Some _ => HealthBad end).

Definition LastError (t : Target) : option error := lastError t.
Definition LastScrape (t : Target) : Z := lastScrape t.
Definition Health (t : Target) : TargetHealth := health t.

(** The copy of the public labels. *)
Definition Labels (t : Target) : LabelSet :=
  foldl (fun lset '(ln, lv) =>
    if negb (HasPrefix ln ReservedLabelPrefix) then <[ln := lv]> lset else lset)
    ∅ (order 0 (labels t)).

Definition DiscoveredLabels (t : Target) : LabelSet := Clone (order 0 (discoveredLabels t)).

(** The query parameters of the target's URL: a copy of [params] in which the
    parameter labels replace the first value. *)
Definition url_params (t : Target) : gmap string (list string) :=
  foldl (fun ps '(k, v) =>
    if negb (HasPrefix k ParamLabelPrefix) then ps
    else
      let ks := drop_bytes (String.length ParamLabelPrefix) k in
      match ps !! ks with
      | Some (_ :: rest) => <[ks := v :: rest]> ps
      | _ => <[ks := [v]]> ps
      end)
    (foldl (fun ps '(k, v) => <[k := v]> ps) ∅ (porder (params t))) (order 0 (labels t)).

(** [targetsFromGroup]: the labels of the group are added to the targets' own
    maps, so the group is returned as the loop leaves it. *)
Fixpoint targets_loop (cfg : ScrapeConfig) (group : LabelSet) (source : string) (i : nat)
    (tgs : list LabelSet) : outcome (list LabelSet * (error + list Target)) :=
  match tgs with
  | [] => Ret ([], inr [])
  | lset :: tgs =>
      let lset := add_missing (order 4 group) lset in
      r ← populateLabels lset cfg;
      match r with
      | inl err =>
          Ret (lset :: tgs, inl ("instance " +:+ pretty i +:+ " in group " +:+ source +:+ ": " +:+ err))
      | inr r =>
          k ← targets_loop cfg group source (S i) tgs;
          let '(tgs, k) := k in
          Ret (lset :: tgs,
            match k with
            | inl err => inl err
            | inr ts =>
                inr (match r with
                     | Some (labels, origLabels) => NewTarget labels origLabels (Params cfg) :: ts
                     | None => ts
                     end)
            end)
      end
  end.

Definition targetsFromGroup (tg : TargetGroup) (cfg : ScrapeConfig)
    : outcome (TargetGroup * (error + list Target)) :=
  r ← targets_loop cfg (TGLabels tg) (TGSource tg) 0 (TGTargets tg);
  Ret (mkTargetGroup r.1 (TGLabels tg) (TGSource tg), r.2).

(** ** Identity and schedule *)

Section url.
Context `{URLLib}.

Definition Target_String (t : Target) : string :=
  URL_String (label_value (labels t) SchemeLabel) (label_value (labels t) AddressLabel)
    (label_value (labels t) MetricsPathLabel) (params_Encode (url_params t)).

(** FNV-1a over the two strings. *)
Definition hash (t : Target) : Z :=
  hashAdd (hashAdd offset64 (Fingerprint_String (Fingerprint (labels t)))) (Target_String t).

(** [now] is [time.Now().UnixNano()]. *)
Definition offset (t : Target) (now : Z) (interval : Duration) : outcome Duration :=
  if interval =? 0 then Panic PanicDivide
  else
    let base := Z.rem now interval in
    let off := hash t mod uint64 interval in
    let next := int64 (base + int64 off) in
    Ret (if next >? interval then int64 (next - interval) else next).

Definition Targets_Less (a b : Target) : bool := String.ltb (Target_String a) (Target_String b).

End url.
End populate.

(** ** Lemmas on strings *)

#[local] Arguments String.append : simpl nomatch.

Lemma string_app_nil_r s : s +:+ EmptyString = s.
Proof. induction s as [|c s IH]; simpl; [done|]. by f_equal. Qed.

Lemma string_app_assoc s t u : (s +:+ t) +:+ u = s +:+ (t +:+ u).
Proof. induction s as [|c s IH]; simpl; [done|]. by rewrite IH. Qed.

Lemma string_length_app s t : String.length (s +:+ t) = (String.length s + String.length t)%nat.
Proof. induction s as [|c s IH]; simpl; [done|]. by rewrite IH. Qed.

Lemma HasPrefix_app p s : HasPrefix (p +:+ s) p = true.
Proof.
  unfold HasPrefix. induction p as [|c p IH]; simpl; [by destruct s|].
  by destruct (ascii_dec c c).
Qed.

Lemma drop_bytes_app s t : drop_bytes (String.length s) (s +:+ t) = t.
Proof. induction s as [|c s IH]; simpl; [by destruct t|]. apply IH. Qed.

Lemma take_bytes_app s t : take_bytes (String.length s) (s +:+ t) = s.
Proof. induction s as [|c s IH]; simpl; [done|]. by rewrite IH. Qed.

Lemma byteIndex_app s t c :
  byteIndex (s +:+ t) c =
    match byteIndex s c with
    | Some i => Some i
    | None => Nat.add (String.length s) <$> byteIndex t c
    end.
Proof.
  induction s as [|b s IH]; simpl; [by destruct (byteIndex t c)|].
  destruct (Ascii.eqb b c); [done|]. rewrite IH.
  destruct (byteIndex s c); [done|]. by destruct (byteIndex t c).
Qed.

Lemma byteLast_app s t c :
  byteLast (s +:+ t) c =
    match byteLast t c with
    | Some i => Some (String.length s + i)%nat
    | None => byteLast s c
    end.
Proof.
  induction s as [|b s IH]; simpl; [by destruct (byteLast t c)|].
  rewrite IH. destruct (byteLast t c); [done|]. by destruct (byteLast s c).
Qed.

Lemma byteIndex_lt s c i : byteIndex s c = Some i -> (i < String.length s)%nat.
Proof.
  revert i. induction s as [|b s IH]; intros i; simpl; [done|].
  destruct (Ascii.eqb b c); [intros [= <-]; lia|].
  destruct (byteIndex s c) as [j|]; simpl; [|done]. intros [= <-]. specialize (IH j eq_refl). lia.
Qed.

(** The dropped part of a string and an appended tail. *)
Lemma drop_bytes_app_le n s t :
  (n <= String.length s)%nat -> drop_bytes n (s +:+ t) = drop_bytes n s +:+ t.
Proof.
  revert n. induction s as [|c s IH]; intros [|n] Hn; simpl in *; try done; [lia|].
  apply IH. lia.
Qed.

Lemma HasPrefix_char s t c :
  s <> EmptyString -> HasPrefix (s +:+ t) (String.String c EmptyString) =
    HasPrefix s (String.String c EmptyString).
Proof.
  destruct s as [|b s]; [done|]. intros _. unfold HasPrefix. simpl.
  destruct (ascii_dec c b); [|done]. by destruct s, t.
Qed.

(** A port: no colon, no bracket. *)
Definition plain_port (p : string) : Prop :=
  byteIndex p ":" = None /\ byteIndex p "[" = None /\ byteIndex p "]" = None /\ byteLast p ":" = None.

(** The host part of an address that ends in a colon and a port. *)
Definition split_host (s : string) : error + string :=
  let finish (host : string) (j k : nat) :=
    match byteIndex (drop_bytes j s) "[" with
    | Some _ => inl "unexpected '[' in address"
    | None =>
        match byteIndex (drop_bytes k s) "]" with
        | Some _ => inl "unexpected ']' in address"
        | None => inr host
        end
    end in
  if HasPrefix s "[" then
    match byteIndex s "]" with
    | None => inl "missing ']' in address"
    | Some end_ =>
        if Nat.eqb (S end_) (String.length s) then
          finish (take_bytes (end_ - 1) (drop_bytes 1 s)) 1%nat (S end_)
        else if HasPrefix (drop_bytes (S end_) s) ":" then inl "too many colons in address"
        else inl "missing port in address"
    end
  else
    match byteIndex s ":" with
    | Some _ => inl "too many colons in address"
    | None => finish s 0%nat 0%nat
    end.

Lemma HasPrefix_bracket s t : HasPrefix (s +:+ ":" +:+ t) "[" = HasPrefix s "[".
Proof. destruct s as [|b s]; [done|]. by apply HasPrefix_char. Qed.

Lemma drop_bytes_nonempty n s : (n < String.length s)%nat -> drop_bytes n s <> EmptyString.
Proof.
  revert n. induction s as [|c s IH]; intros [|n] Hn; simpl in *; try lia; [done|]. apply IH. lia.
Qed.

Lemma take_drop_app n m s t :
  (n + m <= String.length s)%nat ->
  take_bytes n (drop_bytes m (s +:+ t)) = take_bytes n (drop_bytes m s).
Proof.
  revert n m. induction s as [|c s IH]; intros n m Hn; simpl in *.
  { replace n with O by lia. by destruct (drop_bytes m t), (drop_bytes m EmptyString). }
  destruct m as [|m]; simpl; [|apply IH; lia]. destruct n as [|n]; simpl; [done|].
  f_equal. apply (IH n O). lia.
Qed.

(** Whether a host and a port can be split does not depend on the port. *)
Lemma SplitHostPort_port s p :
  plain_port p ->
  SplitHostPort (s +:+ ":" +:+ p) =
    match split_host s with inl err => inl err | inr h => inr (h, p) end.
Proof.
  intros (Hp1&Hp2&Hp3&Hp4). unfold SplitHostPort, split_host.
  assert (byteLast (s +:+ ":" +:+ p) ":" = Some (String.length s)) as ->.
  { rewrite byteLast_app. simpl. rewrite Hp4. simpl. by rewrite Nat.add_0_r. }
  assert (forall j c, (j <= String.length s)%nat -> c = "["%char \/ c = "]"%char ->
    byteIndex (drop_bytes j (s +:+ ":" +:+ p)) c = byteIndex (drop_bytes j s) c) as Hdrop.
  { intros j c Hj Hc. rewrite drop_bytes_app_le, byteIndex_app by done.
    destruct Hc as [-> | ->]; simpl; rewrite ?Hp2, ?Hp3; simpl;
      by destruct (byteIndex (drop_bytes j s) _). }
  assert (drop_bytes (S (String.length s)) (s +:+ ":" +:+ p) = p) as ->.
  { change (":" +:+ p) with (String.String ":" EmptyString +:+ p). rewrite <- string_app_assoc.
    replace (S (String.length s)) with (String.length (s +:+ ":")) by (rewrite string_length_app; simpl; lia).
    apply drop_bytes_app. }
  rewrite HasPrefix_bracket. cbv zeta. destruct (HasPrefix s "[").
  - pose proof (Hdrop 0%nat "]"%char ltac:(lia) ltac:(by right)) as Hb.
    cbn [drop_bytes] in Hb. rewrite Hb.
    destruct (byteIndex s "]") as [e|] eqn:He; [|done]. pose proof (byteIndex_lt _ _ _ He) as Hlt.
    destruct (Nat.eqb_spec (S e) (String.length (s +:+ ":" +:+ p))) as [Hx|_].
    { rewrite string_length_app in Hx. simpl in Hx. lia. }
    destruct (Nat.eqb_spec (S e) (String.length s)) as [Heq|Hne].
    + rewrite !Hdrop, take_drop_app by (auto; lia). by repeat case_match.
    + rewrite drop_bytes_app_le by lia.
      rewrite (HasPrefix_char (drop_bytes (S e) s)) by (apply drop_bytes_nonempty; lia).
      by destruct (HasPrefix _ _).
  - rewrite take_bytes_app. destruct (byteIndex s ":"); [done|].
    rewrite !Hdrop by (auto; lia). by repeat case_match.
Qed.

Lemma addPort_spec s :
  addPort s = true <-> (exists err, SplitHostPort s = inl err) /\ exists h, split_host s = inr h.
Proof.
  unfold addPort. change (s +:+ ":1234") with (s +:+ ":" +:+ "1234").
  rewrite (SplitHostPort_port s "1234") by done.
  destruct (SplitHostPort s) as [err|hp], (split_host s) as [err'|h]; split; try done;
    try (by intros [[? ?] [? ?]]); by intros _; split; eexists.
Qed.

(** An address that was given a port needs no other. *)
Lemma addPort_done s p : addPort s = true -> plain_port p -> addPort (s +:+ ":" +:+ p) = false.
Proof.
  intros [_ [h Hh]]%addPort_spec Hp. unfold addPort. by rewrite SplitHostPort_port, Hh.
Qed.

(** ** Label population *)

Section populate_proofs.
Context `{RelabelLib, MapOrder, StrconvLib, ParamsOrder}.

Definition is_meta (ln : LabelName) : bool := HasPrefix ln MetaLabelPrefix.

(** The labels that are not meta labels. *)
Definition without_meta (m : LabelSet) : LabelSet := filter (fun kv => is_meta kv.1 = false) m.

(** A label whose value the target must not have. *)
Definition bad_label (m : LabelSet) (ln : LabelName) (lv : LabelValue) : Prop :=
  m !! ln = Some lv /\ is_meta ln = false /\ utf8_valid lv = false.

Lemma final_labels_spec l (m : LabelSet) :
  match final_labels l m with
  | inr m' => m' = foldl (fun acc '(ln, _) => if is_meta ln then delete ln acc else acc) m l /\
      Forall (fun kv => is_meta kv.1 = false -> utf8_valid kv.2 = true) l
  | inl err => exists ln lv, (ln, lv) ∈ l /\ is_meta ln = false /\ utf8_valid lv = false /\
      err = "invalid label value for " +:+ Quote ln +:+ ": " +:+ Quote lv
  end.
Proof.
  revert m. induction l as [|[ln lv] l IH]; intros m; cbn [final_labels foldl]; [done|].
  fold (is_meta ln). destruct (is_meta ln) eqn:Hm; [|destruct (utf8_valid lv) eqn:Hu]; cbn [negb].
  - specialize (IH (delete ln m)). destruct (final_labels l (delete ln m)).
    + destruct IH as (k&v&?&?). exists k, v. split; [set_solver|done].
    + destruct IH as [-> Hf]. split; [done|]. constructor; [simpl; congruence|done].
  - specialize (IH m). destruct (final_labels l m).
    + destruct IH as (k&v&?&?). exists k, v. split; [set_solver|done].
    + destruct IH as [-> Hf]. split; [done|]. by constructor.
  - exists ln, lv. split; [set_solver|done].
Qed.

Lemma final_labels_order n (m : LabelSet) :
  match final_labels (order n m) m with
  | inr m' => m' = without_meta m /\ forall ln lv, ~ bad_label m ln lv
  | inl err => exists ln lv, bad_label m ln lv /\
      err = "invalid label value for " +:+ Quote ln +:+ ": " +:+ Quote lv
  end.
Proof.
  pose proof (final_labels_spec (order n m) m) as Hf. pose proof (order_range n m) as Ho.
  destruct (final_labels (order n m) m) as [err|m'].
  - destruct Hf as (ln&lv&Hin&Hm&Hu&->). exists ln, lv. split; [|done].
    split; [by eapply map_range_elem_of|done].
  - destruct Hf as [-> Hf]. split; [apply (delete_where_filter is_meta n m)|].
    intros ln lv (Hl&Hm&Hu). rewrite Forall_forall in Hf.
    specialize (Hf (ln, lv) (proj2 (map_range_elem_of _ _ _ _ Ho) Hl) Hm). simpl in Hf. congruence.
Qed.

(** The address with the default port of the scheme, if one is needed. *)
Definition default_port (m : LabelSet) (addr : string) : option string :=
  if addPort addr then
    let scheme := label_value m SchemeLabel in
    if String.eqb scheme "http" || String.eqb scheme EmptyString then Some (addr +:+ ":80")
    else if String.eqb scheme "https" then Some (addr +:+ ":443")
    else None
  else Some addr.

Definition contains_slash (addr : string) : bool :=
  match byteIndex addr "/" with Some _ => true | None => false end.

(** The labels a target gets once its address is complete. *)
Definition final_of (m : LabelSet) (addr : string) : LabelSet :=
  let m1 := without_meta (<[AddressLabel := addr]> m) in
  match m1 !! InstanceLabel with Some _ => m1 | None => <[InstanceLabel := addr]> m1 end.

Lemma without_meta_address (m : LabelSet) addr :
  without_meta (<[AddressLabel := addr]> m) !! AddressLabel = Some addr.
Proof. apply map_lookup_filter_Some. split; [apply lookup_insert_eq|done]. Qed.

(** The result of [complete_labels], case by case. *)
Lemma complete_labels_spec cfg (m : LabelSet) :
  match m !! AddressLabel with
  | None => complete_labels cfg m = inl "no address"
  | Some addr =>
      match default_port m addr with
      | None => complete_labels cfg m = inl ("invalid scheme: " +:+ Quote (Scheme cfg))
      | Some addr' =>
          if contains_slash addr' then
            complete_labels cfg m = inl (Quote addr' +:+ " is not a valid hostname")
          else
            (exists ln lv, bad_label (<[AddressLabel := addr']> m) ln lv /\
               complete_labels cfg m =
                 inl ("invalid label value for " +:+ Quote ln +:+ ": " +:+ Quote lv)) \/
            ((forall ln lv, ~ bad_label (<[AddressLabel := addr']> m) ln lv) /\
             complete_labels cfg m = inr (final_of m addr'))
      end
  end.
Proof.
  unfold complete_labels. destruct (m !! AddressLabel) as [addr|] eqn:Ha; [|done].
  assert (match default_port m addr with
    | Some addr' => with_port cfg m addr = inr (<[AddressLabel := addr']> m)
    | None => with_port cfg m addr = inl ("invalid scheme: " +:+ Quote (Scheme cfg))
    end) as Hport.
  { unfold default_port, with_port. destruct (addPort addr); [|by rewrite insert_id].
    cbv zeta. destruct (_ || _); [done|]. by destruct (String.eqb _ _). }
  destruct (default_port m addr) as [addr'|]; rewrite Hport; [|done].
  assert (label_value (<[AddressLabel := addr']> m) AddressLabel = addr') as Hlv
    by (unfold label_value; by rewrite lookup_insert_eq).
  rewrite Hlv. unfold CheckTargetAddress, contains_slash.
  destruct (byteIndex addr' "/"); [done|].
  pose proof (final_labels_order 3 (<[AddressLabel := addr']> m)) as Hf.
  destruct (final_labels _ _) as [err|m'].
  - left. destruct Hf as (ln&lv&Hb&->). by exists ln, lv.
  - right. destruct Hf as [-> Hb]. split; [done|]. unfold final_of.
    destruct (_ !! InstanceLabel); [done|]. unfold label_value. by rewrite without_meta_address.
Qed.

Lemma default_port_complete m addr addr' :
  default_port m addr = Some addr' -> addPort addr' = false.
Proof.
  unfold default_port. destruct (addPort addr) eqn:Ha; [|by intros [= <-]].
  cbv zeta. destruct (_ || _).
  - intros [= <-]. by apply (addPort_done addr "80").
  - destruct (String.eqb _ _); [|done]. intros [= <-]. by apply (addPort_done addr "443").
Qed.

(** What is left of the relabelled labels. *)
Lemma final_of_spec (m : LabelSet) addr addr' :
  default_port m addr = Some addr' -> contains_slash addr' = false ->
  (forall ln lv, ~ bad_label (<[AddressLabel := addr']> m) ln lv) ->
  let res := final_of m addr' in
  res !! AddressLabel = Some addr' /\ addPort addr' = false /\ contains_slash addr' = false /\
  (forall ln lv, res !! ln = Some lv -> is_meta ln = false /\ utf8_valid lv = true) /\
  res !! InstanceLabel = Some (default addr' (m !! InstanceLabel)) /\
  (forall ln, ln <> AddressLabel -> ln <> InstanceLabel -> is_meta ln = false ->
     res !! ln = m !! ln).
Proof.
  intros Hd Hs Hb res.
  set (m1 := without_meta (<[AddressLabel := addr']> m)).
  assert (forall ln, m1 !! ln =
    if is_meta ln then None else <[AddressLabel := addr']> m !! ln) as Hm1.
  { intros ln. unfold m1, without_meta. apply option_eq. intros v.
    rewrite map_lookup_filter_Some. simpl. destruct (is_meta ln); naive_solver. }
  assert (m1 !! InstanceLabel = m !! InstanceLabel) as Hinst
    by (rewrite Hm1; by rewrite lookup_insert_ne).
  assert (forall ln lv, m1 !! ln = Some lv -> is_meta ln = false /\ utf8_valid lv = true) as Hgood.
  { intros ln lv Hl. rewrite Hm1 in Hl. destruct (is_meta ln) eqn:Hmt; [done|]. split; [done|].
    destruct (utf8_valid lv) eqn:Hu; [done|]. by destruct (Hb ln lv). }
  assert (m1 !! AddressLabel = Some addr') as Ha by (rewrite Hm1; by rewrite lookup_insert_eq).
  unfold res, final_of. fold m1.
  assert ((m1 !! InstanceLabel = None /\ m !! InstanceLabel = None) \/
    exists v, m1 !! InstanceLabel = Some v /\ m !! InstanceLabel = Some v) as [[Hn Hn']|(v&Hn&Hn')]
    by (rewrite Hinst; destruct (m !! InstanceLabel); eauto); rewrite Hn, Hn'; split_ands; try done.
  - by rewrite lookup_insert_ne.
  - by apply (default_port_complete m addr).
  - intros ln lv. rewrite lookup_insert. case_decide as Hl; [|by apply Hgood].
    intros [= <-]. subst ln. by apply (Hgood AddressLabel).
  - by rewrite lookup_insert_eq.
  - intros ln Hne Hne' Hmt. rewrite lookup_insert_ne, Hm1, Hmt, lookup_insert_ne by done. done.
  - by apply (default_port_complete m addr).
  - intros ln Hne Hne' Hmt. rewrite Hm1, Hmt, lookup_insert_ne by done. done.
Qed.

(** The first value of a parameter, which becomes a label. *)
Definition param_label (ps : gmap string (list string)) (ln : LabelName) : option LabelValue :=
  if HasPrefix ln ParamLabelPrefix
  then match ps !! drop_bytes (String.length ParamLabelPrefix) ln with
       | Some (v :: _) => Some v
       | _ => None
       end
  else None.

Lemma prefix_split p s : HasPrefix s p = true -> s = p +:+ drop_bytes (String.length p) s.
Proof.
  unfold HasPrefix. revert s. induction p as [|c p IH]; intros s Hs; [by destruct s|].
  destruct s as [|b s]; [done|]. simpl in Hs. destruct (ascii_dec c b) as [->|]; [|done].
  simpl. f_equal. by apply IH.
Qed.

Lemma param_key_inj k k' : ParamLabelPrefix +:+ k = ParamLabelPrefix +:+ k' -> k = k'.
Proof.
  intros Heq. rewrite <- (drop_bytes_app ParamLabelPrefix k), Heq. apply drop_bytes_app.
Qed.

Lemma param_labels_lookup l (m : LabelSet) ln :
  NoDup l.*1 ->
  param_labels l m !! ln =
    match param_label (list_to_map l) ln with Some v => Some v | None => m !! ln end.
Proof.
  revert m. induction l as [|[k v] l IH]; intros m Hnd.
  { unfold param_label. change (list_to_map []) with (∅ : gmap string (list string)).
    rewrite lookup_empty. by destruct (HasPrefix _ _). }
  apply NoDup_cons in Hnd as [Hk Hnd]. unfold param_labels. cbn [foldl].
  change (foldl _ ?a l) with (param_labels l a). rewrite IH by done.
  apply (not_elem_of_list_to_map_1 (M := gmap string)) in Hk. simpl in Hk. unfold param_label.
  change (list_to_map ((k, v) :: l)) with (<[k := v]> (list_to_map l : gmap string (list string))).
  destruct (HasPrefix ln ParamLabelPrefix) eqn:Hp.
  - apply prefix_split in Hp. set (k' := drop_bytes _ ln) in *. clearbody k'. subst ln.
    destruct (decide (k = k')) as [->|Hne].
    + rewrite Hk, lookup_insert_eq. destruct v; [done|]. by rewrite lookup_insert_eq.
    + rewrite lookup_insert_ne by done. destruct (list_to_map l !! k') as [[|v0 ?]|]; try done;
        destruct v; try done; rewrite lookup_insert_ne; try done; by intros ?%param_key_inj.
  - destruct v as [|v0 v]; [done|]. rewrite lookup_insert_ne; [done|]. intros <-.
    by rewrite HasPrefix_app in Hp.
Qed.

Lemma pre_relabel_lookup lset cfg ln :
  pre_relabel lset cfg !! ln =
    match param_label (Params cfg) ln with
    | Some v => Some v
    | None => match lset !! ln with Some v => Some v | None => scrapeLabels cfg !! ln end
    end.
Proof.
  unfold pre_relabel. pose proof (porder_range (Params cfg)) as Hp.
  rewrite param_labels_lookup by (by eapply map_range_NoDup_fst).
  rewrite (map_range_list_to_map _ _ Hp). destruct (param_label _ _); [done|].
  rewrite (add_missing_union _ (scrapeLabels cfg)), (Clone_range lset) by apply order_range.
  rewrite lookup_union. by destruct (lset !! ln), (scrapeLabels cfg !! ln).
Qed.

Lemma populateLabels_eq lset cfg :
  populateLabels lset cfg =
    (r ← Process (pre_relabel lset cfg) (RelabelConfigs cfg);
     match r with
     | None => Ret (inr None)
     | Some m =>
         match complete_labels cfg m with
         | inl err => Ret (inl err)
         | inr res => Ret (inr (Some (res, pre_relabel lset cfg)))
         end
     end).
Proof.
  unfold populateLabels. by rewrite (Clone_range (pre_relabel lset cfg)) by apply order_range.
Qed.

(** C25: populateLabels. Before relabelling, a target's own labels win over the
    scheme, path and job of the configuration, and the first value of every
    query parameter over both; with a configuration the loader accepts it never
    panics; a target that relabelling drops gives nil. Otherwise it is an error
    exactly when there is no address, when a port must be added and the scheme
    has no default, when the address has a slash, or when some label that is no
    meta label is not valid UTF-8; and otherwise the result has no meta labels,
    the relabelled value of every other label, an address that needs no port any
    more, and an instance label that defaults to the address; the second result
    is the labels before relabelling. *)
Theorem populateLabels_correct (lset : LabelSet) (cfg : ScrapeConfig) :
  Forall valid_config (RelabelConfigs cfg) ->
  exists pre r, (forall ln, pre !! ln =
      match param_label (Params cfg) ln with
      | Some v => Some v
      | None => match lset !! ln with Some v => Some v | None => scrapeLabels cfg !! ln end
      end) /\
    Process pre (RelabelConfigs cfg) = Ret r /\
    match r with
    | None => populateLabels lset cfg = Ret (inr None)
    | Some m =>
        (exists err, populateLabels lset cfg = Ret (inl err) /\
           (m !! AddressLabel = None \/ exists addr, m !! AddressLabel = Some addr /\
             (default_port m addr = None \/ exists addr', default_port m addr = Some addr' /\
               (contains_slash addr' = true \/
                exists ln lv, bad_label (<[AddressLabel := addr']> m) ln lv)))) \/
        (exists res addr addr', populateLabels lset cfg = Ret (inr (Some (res, pre))) /\
           m !! AddressLabel = Some addr /\ default_port m addr = Some addr' /\
           res !! AddressLabel = Some addr' /\ addPort addr' = false /\
           contains_slash addr' = false /\
           (forall ln lv, res !! ln = Some lv -> is_meta ln = false /\ utf8_valid lv = true) /\
           res !! InstanceLabel = Some (default addr' (m !! InstanceLabel)) /\
           (forall ln, ln <> AddressLabel -> ln <> InstanceLabel -> is_meta ln = false ->
              res !! ln = m !! ln))
    end.
Proof.
  intros Hv. destruct (Process_total (pre_relabel lset cfg) _ Hv) as [r Hr].
  exists (pre_relabel lset cfg), r. split; [intros ln; apply pre_relabel_lookup|].
  split; [done|]. rewrite populateLabels_eq, Hr. simpl. destruct r as [m|]; [|done].
  pose proof (complete_labels_spec cfg m) as Hc.
  destruct (m !! AddressLabel) as [addr|] eqn:Ha; [|left; rewrite Hc; eexists; by split; [|left]].
  destruct (default_port m addr) as [addr'|] eqn:Hd;
    [|left; rewrite Hc; eexists; split; [done|]; right; by exists addr; split; [|left]].
  destruct (contains_slash addr') eqn:Hs.
  { left. rewrite Hc. eexists. split; [done|]. right. exists addr. split; [done|]. right.
    exists addr'. by split; [|left]. }
  destruct Hc as [(ln&lv&Hb&->)|[Hb ->]].
  { left. eexists. split; [done|]. right. exists addr. split; [done|]. right.
    exists addr'. split; [done|]. right. by exists ln, lv. }
  right. exists (final_of m addr'), addr, addr'. split; [done|]. split; [done|]. split; [done|].
  by apply (final_of_spec m addr).
Qed.

Lemma populateLabels_total lset cfg :
  Forall valid_config (RelabelConfigs cfg) -> exists r, populateLabels lset cfg = Ret r.
Proof.
  intros Hv. destruct (Process_total (pre_relabel lset cfg) _ Hv) as [r Hr].
  rewrite populateLabels_eq, Hr. simpl. destruct r as [m|]; [|by eexists].
  destruct (complete_labels cfg m); by eexists.
Qed.

(** ** Target groups *)

Definition target_of (cfg : ScrapeConfig) (r : option (LabelSet * LabelSet)) : option Target :=
  match r with Some (ls, orig) => Some (NewTarget ls orig (Params cfg)) | None => None end.

Lemma targets_loop_spec cfg group source i tgs :
  Forall valid_config (RelabelConfigs cfg) ->
  exists tgs' r, targets_loop cfg group source i tgs = Ret (tgs', r) /\
  match r with
  | inr ts => tgs' = (fun lset => lset ∪ group) <$> tgs /\
      exists rs, Forall2 (fun lset r => populateLabels (lset ∪ group) cfg = Ret (inr r)) tgs rs /\
        ts = omap (target_of cfg) rs
  | inl err => exists n lset e, tgs !! n = Some lset /\
      populateLabels (lset ∪ group) cfg = Ret (inl e) /\
      err = "instance " +:+ pretty (i + n)%nat +:+ " in group " +:+ source +:+ ": " +:+ e /\
      tgs' = ((fun lset => lset ∪ group) <$> take (S n) tgs) ++ drop (S n) tgs /\
      (forall k lset', (k < n)%nat -> tgs !! k = Some lset' ->
         exists r, populateLabels (lset' ∪ group) cfg = Ret (inr r))
  end.
Proof.
  intros Hv. revert i. induction tgs as [|lset tgs IH]; intros i; cbn [targets_loop].
  { exists [], (inr []). split; [done|]. split; [done|]. exists []. by split; [constructor|]. }
  rewrite (add_missing_union _ group) by apply order_range.
  destruct (populateLabels_total (lset ∪ group) cfg Hv) as [[e|r] Hp]; rewrite Hp; simpl.
  - eexists _, _. split; [done|]. exists 0%nat, lset, e. rewrite Nat.add_0_r.
    split_ands; [done|done|done| |lia]. by destruct tgs.
  - destruct (IH (S i)) as (tgs'&k&->&Hk). simpl. eexists _, _. split; [done|].
    destruct k as [err|ts].
    + destruct Hk as (n&lset'&e&Hn&Hpe&->&->&Hbefore). exists (S n), lset', e. split_ands; try done.
      * by rewrite <- Nat.add_succ_comm.
      * intros [|k] lset'' Hkn Hl; simpl in Hl; [injection Hl as <-; by eexists|].
        apply (Hbefore k); [lia|done].
    + destruct Hk as [-> (rs&Hrs&->)]. split; [done|]. exists (r :: rs). split; [by constructor|].
      simpl. by destruct r as [[ls orig]|].
Qed.

(** TargetsFromGroup. With a configuration the loader accepts it never
    panics. On success there is one new target, of unknown health, for every
    target of the group that relabelling does not drop, in order, with the
    labels of populateLabels for its own labels completed with the group's; and
    the maps of the group have all been completed in place. If a target is in
    error no target is returned, the error names the first such target and the
    group, and the maps up to that target have been changed. Running it again on
    the group it leaves behind gives the same. *)
Theorem targetsFromGroup_correct (tg : TargetGroup) (cfg : ScrapeConfig) :
  Forall valid_config (RelabelConfigs cfg) ->
  exists tg' r, targetsFromGroup tg cfg = Ret (tg', r) /\
  TGLabels tg' = TGLabels tg /\ TGSource tg' = TGSource tg /\
  match r with
  | inr ts => TGTargets tg' = (fun lset => lset ∪ TGLabels tg) <$> TGTargets tg /\
      (exists rs, Forall2 (fun lset r => populateLabels (lset ∪ TGLabels tg) cfg = Ret (inr r))
          (TGTargets tg) rs /\ ts = omap (target_of cfg) rs) /\
      targetsFromGroup tg' cfg = Ret (tg', inr ts)
  | inl err => exists n lset e, TGTargets tg !! n = Some lset /\
      populateLabels (lset ∪ TGLabels tg) cfg = Ret (inl e) /\
      err = "instance " +:+ pretty n +:+ " in group " +:+ TGSource tg +:+ ": " +:+ e /\
      TGTargets tg' = ((fun lset => lset ∪ TGLabels tg) <$> take (S n) (TGTargets tg)) ++
        drop (S n) (TGTargets tg) /\
      (forall k lset', (k < n)%nat -> TGTargets tg !! k = Some lset' ->
         exists r, populateLabels (lset' ∪ TGLabels tg) cfg = Ret (inr r))
  end.
Proof.
  intros Hv. unfold targetsFromGroup. destruct tg as [tgs group source]. simpl.
  destruct (targets_loop_spec cfg group source 0 tgs Hv) as (tgs'&r&->&Hr). simpl.
  eexists _, r. split; [done|]. split; [done|]. split; [done|]. simpl.
  destruct r as [err|ts]; [exact Hr|]. destruct Hr as [-> (rs&Hrs&->)].
  split; [done|]. split; [by exists rs|].
  assert (targets_loop cfg group source 0 ((fun lset => lset ∪ group) <$> tgs) =
    Ret ((fun lset => lset ∪ group) <$> tgs, inr (omap (target_of cfg) rs))) as ->; [|done].
  generalize 0%nat. induction Hrs as [|lset r tgs rs Hp Hrs IH]; intros i; simpl; [done|].
  rewrite (add_missing_union _ group) by apply order_range.
  rewrite <- (map_union_assoc lset), (map_union_idemp group), Hp. simpl. rewrite IH. simpl.
  by destruct r as [[ls orig]|].
Qed.

(** ** Public labels, health and schedule *)

Lemma foldl_filter_insert (P : LabelName -> bool) l (acc : LabelSet) :
  NoDup l.*1 ->
  foldl (fun acc '(ln, lv) => if P ln then <[ln := lv]> acc else acc) acc l =
  filter (fun kv => P kv.1 = true) (list_to_map l : LabelSet) ∪ acc.
Proof.
  revert acc. induction l as [|[k v] l IH]; intros acc Hl.
  { simpl. by rewrite map_filter_empty, map_empty_union. }
  apply NoDup_cons in Hl as [Hk Hl]. apply (not_elem_of_list_to_map_1 (M := gmap string)) in Hk.
  simpl in Hk. cbn [foldl]. change (list_to_map ((k, v) :: l)) with (<[k := v]> (list_to_map l : LabelSet)).
  rewrite IH by done. destruct (P k) eqn:Hp.
  - rewrite map_filter_insert_True by done. rewrite <- insert_union_l, insert_union_r; [done|].
    apply map_lookup_filter_None. by left.
  - rewrite map_filter_insert_False by (simpl; congruence). by rewrite delete_id.
Qed.

Lemma Labels_spec (t : Target) :
  Labels t = filter (fun kv => HasPrefix kv.1 ReservedLabelPrefix = false) (labels t).
Proof.
  unfold Labels. pose proof (order_range 0 (labels t)) as Ho.
  rewrite (foldl_filter_insert (fun ln => negb (HasPrefix ln ReservedLabelPrefix))), map_union_empty
    by (by eapply map_range_NoDup_fst).
  rewrite (map_range_list_to_map _ _ Ho). apply map_filter_ext. intros ln lv _. simpl.
  by destruct (HasPrefix _ _).
Qed.

Section url_proofs.
Context `{URLLib}.

Lemma hash_range (t : Target) : in_uint64 (hash t).
Proof. unfold hash. by repeat apply hashAdd_range. Qed.

(** The offset of a target's first scrape. For a positive interval (that
    fits twice in an int64) and a time after the epoch, the offset is between 0
    and the interval; but it is taken from the time elapsed in the present
    interval, not the time left of it: the moment now + offset has the phase
    2*now + hash in the interval, so that unlike the hash it depends on when it
    is asked for. A zero interval panics. *)
Theorem offset_correct (t : Target) (now : Z) (interval : Duration) :
  offset t now 0 = Panic PanicDivide /\
  (0 <= now -> 0 < interval -> 2 * interval <= MaxInt64 ->
   exists d, offset t now interval = Ret d /\ 0 <= d <= interval /\
     (now + d) mod interval = (2 * now + hash t) mod interval).
Proof.
  split; [done|]. intros Hn Hi Hmax. unfold MaxInt64 in Hmax. pose proof (hash_range t) as Hh.
  unfold offset. destruct (Z.eqb_spec interval 0); [lia|]. cbv zeta.
  rewrite (uint64_id interval) by (unfold in_uint64, two64; lia).
  rewrite Z.rem_mod_nonneg by lia. unfold in_uint64 in Hh.
  pose proof (Z.mod_pos_bound now interval ltac:(lia)) as Hb.
  pose proof (Z.mod_pos_bound (hash t) interval ltac:(lia)) as Ho.
  rewrite (int64_id (hash t mod interval)) by (unfold in_int64, MinInt64, MaxInt64; lia).
  rewrite (int64_id (now mod interval + _)) by (unfold in_int64, MinInt64, MaxInt64; lia).
  assert ((now + (now mod interval + hash t mod interval)) mod interval =
    (2 * now + hash t) mod interval) as Hphase.
  { rewrite Z.add_assoc, Zplus_mod_idemp_r. rewrite <- (Zplus_mod_idemp_l (now + now mod interval)).
    rewrite Zplus_mod_idemp_r, Zplus_mod_idemp_l. f_equal. lia. }
  destruct (Z.gtb_spec (now mod interval + hash t mod interval) interval) as [Hg|Hg].
  - rewrite int64_id by (unfold in_int64, MinInt64, MaxInt64; lia).
    eexists. split; [done|]. split; [lia|]. rewrite <- Hphase.
    rewrite <- (Z_mod_plus_full (now + (now mod interval + hash t mod interval - interval)) 1 interval).
    f_equal. lia.
  - eexists. split; [done|]. split; [lia|done].
Qed.

End url_proofs.
End populate_proofs.

(** ** Concrete targets *)

Section examples.
Import LiteralRelabel.

#[local] Instance params_order : ParamsOrder := {|
  porder m := map_to_list m;
  porder_range m := map_range_refl m
|}.

Definition node_config : ScrapeConfig :=
  mkScrapeConfig "node" "https" "/metrics" {["module" := ["a"; "b"]]} [].

Example ports :
  addPort "example.com" = true /\ addPort "example.com:9100" = false /\ addPort "[::1]" = true /\
  addPort "::1" = false /\ addPort "[::1]:80" = false /\ addPort "a[b" = false.
Proof. vm_compute. done. Qed.

Example utf8_examples :
  utf8_valid (String.String "195" (String.String "169" EmptyString)) = true /\
  utf8_valid (String.String "195" EmptyString) = false /\
  utf8_valid (String.String "192" (String.String "128" EmptyString)) = false.
Proof. vm_compute. done. Qed.

Definition node_labels : LabelSet := {["__address__" := "example.com"; "__meta_zone" := "z"]}.

(** Whether a result is not an error, so that only this is evaluated. *)
Definition succeeds {A} (r : outcome (error + A)) : bool :=
  match r with Ret (inr _) => true | _ => false end.

Lemma populateLabels_correct_witness :
  exists res orig, populateLabels node_labels node_config = Ret (inr (Some (res, orig))) /\
    res !! "__address__" = Some "example.com:443" /\ res !! "instance" = Some "example.com:443" /\
    res !! "job" = Some "node" /\ orig !! "__param_module" = Some "a".
Proof.
  destruct (populateLabels_correct node_labels node_config) as (pre&r&Hpre&Hr&Hcase).
  - constructor.
  - injection Hr as <-. destruct Hcase as [(err&He&_)|(res&addr&addr'&Hp&Ha&Hd&Hres&_&_&_&Hinst&Hrest)].
    + apply (f_equal succeeds) in He. vm_compute in He. discriminate He.
    + rewrite Hpre in Ha. vm_compute in Ha. injection Ha as <-.
      exists res, pre. split; [exact Hp|]. split; [|split; [|split]].
      * etransitivity; [exact Hres|]. rewrite <- Hd. unfold default_port, label_value. rewrite Hpre.
        vm_compute. reflexivity.
      * etransitivity; [exact Hinst|]. rewrite Hpre. change (Some addr' = Some "example.com:443").
        rewrite <- Hd. unfold default_port, label_value. rewrite Hpre.
        vm_compute. reflexivity.
      * etransitivity; [by apply (Hrest "job")|]. rewrite Hpre. vm_compute. reflexivity.
      * rewrite Hpre. vm_compute. reflexivity.
Defined.

Lemma targetsFromGroup_correct_witness :
  exists tg' ts, targetsFromGroup (mkTargetGroup [node_labels] {["env" := "prod"]} "file")
      node_config = Ret (tg', inr ts) /\
    TGTargets tg' = [node_labels ∪ {["env" := "prod"]}].
Proof.
  destruct (targetsFromGroup_correct (mkTargetGroup [node_labels] {["env" := "prod"]} "file")
    node_config) as (tg'&r&Ht&_&_&Hr).
  - constructor.
  - destruct r as [err|ts].
    + apply (f_equal (fun o => match o with Ret (_, r) => succeeds (Ret r) | Panic _ => false end)) in Ht.
      vm_compute in Ht. discriminate Ht.
    + destruct Hr as (Htg&_). exists tg', ts. split; [exact Ht|exact Htg].
Defined.

End examples.
