(* ===== verification/Json.v ===== *)
(** * JSON as [encoding/json] reads and writes it

    The standard library's coding of the API's answers (web/api/v1/types.go,
    [respond] in api.go) as functions: the escaping of strings, the scanner (a
    state machine on bytes), the parser (a state machine on tokens with a stack,
    as the library's), the printer; and the rules by which [json.Unmarshal]
    stores a value in a string, an int, a slice, a pointer, a map and a struct.
    What is printed is parsed back. *)
From stdpp Require Import pretty.
From S2P Require Import Prelude Model Target.

Open Scope Z_scope.

(** The double quote, the backslash, and bytes by number. *)
Definition byte (n : nat) : ascii := Ascii.ascii_of_nat n.
Definition dquote : ascii := byte 34.
Definition backslash : ascii := byte 92.
Definition str1 (c : ascii) : string := String.String c EmptyString.

(** ** Strings *)

(** A function on strings that works rune by rune: [f] looks at the rest of the
    string, and returns what to write and how many bytes it has read. *)
Fixpoint chunked (f : string -> string * nat) (s : string) (skip : nat) : string :=
  match s with
  | EmptyString => EmptyString
  | String.String _ s1 =>
      match skip with
      | S k => chunked f s1 k
      | O => let '(out, n) := f s in out +:+ chunked f s1 (pred n)
      end
  end.

(** [utf8.DecodeRuneInString]: the length of the well-formed sequence the string
    starts with; [None] when it starts with none (RuneError, one byte). *)
Definition utf8_len (s : string) : option nat :=
  match s with
  | EmptyString => None
  | String.String a s1 =>
      if in_range 0 127 a then Some 1%nat
      else
        match s1 with
        | EmptyString => None
        | String.String b s2 =>
            if in_range 194 223 a then if continuation b then Some 2%nat else None
            else
              match s2 with
              | EmptyString => None
              | String.String c s3 =>
                  if in_range 224 224 a then if in_range 160 191 b && continuation c then Some 3%nat else None
                  else if in_range 225 236 a || in_range 238 239 a then
                    if continuation b && continuation c then Some 3%nat else None
                  else if in_range 237 237 a then
                    if in_range 128 159 b && continuation c then Some 3%nat else None
                  else
                    match s3 with
                    | EmptyString => None
                    | String.String d _ =>
                        if (in_range 240 240 a && in_range 144 191 b || in_range 241 243 a && continuation b
                            || in_range 244 244 a && in_range 128 143 b) && continuation c && continuation d
                        then Some 4%nat else None
                    end
              end
        end
  end.

(** U+FFFD in UTF-8, and U+2028 and U+2029. *)
Definition replacement : string := str1 (byte 239) +:+ str1 (byte 191) +:+ str1 (byte 189).
Definition line_separator (last : nat) : string := str1 (byte 226) +:+ str1 (byte 128) +:+ str1 (byte last).

Definition hex_char (n : nat) : ascii := byte (if Nat.ltb n 10 then 48 + n else 87 + n).

(** What [encodeState.string] writes for a byte below 128. *)
Definition escape_ascii (c : ascii) : string :=
  let n := Ascii.nat_of_ascii c in
  if Nat.eqb n 34 || Nat.eqb n 92 then str1 backslash +:+ str1 c
  else if Nat.eqb n 10 then str1 backslash +:+ "n"
  else if Nat.eqb n 13 then str1 backslash +:+ "r"
  else if Nat.eqb n 9 then str1 backslash +:+ "t"
  else if Nat.ltb n 32 || Nat.eqb n 60 || Nat.eqb n 62 || Nat.eqb n 38 then
    str1 backslash +:+ "u00" +:+ str1 (hex_char (n / 16)) +:+ str1 (hex_char (n mod 16))
  else str1 c.

(** The loop of [encodeState.string]. *)
Definition escape_one (s : string) : string * nat :=
  match s with
  | EmptyString => (EmptyString, 1%nat)
  | String.String c _ =>
      match utf8_len s with
      | None => (str1 backslash +:+ "ufffd", 1%nat)
      | Some 1%nat => (escape_ascii c, 1%nat)
      | Some n =>
          let r := take_bytes n s in
          if String.eqb r (line_separator 168) then (str1 backslash +:+ "u2028", n)
          else if String.eqb r (line_separator 169) then (str1 backslash +:+ "u2029", n)
          else (r, n)
      end
  end.
Definition escape (s : string) : string := chunked escape_one s 0.
Definition quote (s : string) : string := str1 dquote +:+ escape s +:+ str1 dquote.

(** A string with U+FFFD for each byte that is not part of a rune. *)
Definition sanitize_one (s : string) : string * nat :=
  match utf8_len s with None => (replacement, 1%nat) | Some n => (take_bytes n s, n) end.
Definition sanitize (s : string) : string := chunked sanitize_one s 0.

Definition hex_val (c : ascii) : option Z :=
  let n := Z.of_nat (Ascii.nat_of_ascii c) in
  if (48 <=? n) && (n <=? 57) then Some (n - 48)
  else if (97 <=? n) && (n <=? 102) then Some (n - 87)
  else if (65 <=? n) && (n <=? 70) then Some (n - 55)
  else None.

(** [getu4]: the value of a [\uXXXX], or -1. *)
Definition getu4 (s : string) : Z :=
  match s with
  | String.String b (String.String u (String.String h1 (String.String h2 (String.String h3 (String.String h4 _))))) =>
      if Ascii.eqb b backslash && Ascii.eqb u "u" then
        match hex_val h1, hex_val h2, hex_val h3, hex_val h4 with
        | Some a, Some b, Some c, Some d => 4096 * a + 256 * b + 16 * c + d
        | _, _, _, _ => -1
        end
      else -1
  | _ => -1
  end.

Definition zbyte (z : Z) : string := str1 (byte (Z.to_nat z)).

(** [utf8.EncodeRune] of a code point that is no surrogate. *)
Definition EncodeRune (r : Z) : string :=
  if r <=? 127 then zbyte r
  else if r <=? 2047 then zbyte (192 + r / 64) +:+ zbyte (128 + r mod 64)
  else if r <=? 65535 then
    zbyte (224 + r / 4096) +:+ zbyte (128 + (r / 64) mod 64) +:+ zbyte (128 + r mod 64)
  else zbyte (240 + r / 262144) +:+ zbyte (128 + (r / 4096) mod 64) +:+
    zbyte (128 + (r / 64) mod 64) +:+ zbyte (128 + r mod 64).

Definition is_surrogate (r : Z) : bool := (55296 <=? r) && (r <? 57344).

(** [utf16.DecodeRune]; [None] for the replacement character. *)
Definition utf16_DecodeRune (r1 r2 : Z) : option Z :=
  if (55296 <=? r1) && (r1 <? 56320) && (56320 <=? r2) && (r2 <? 57344)
  then Some ((r1 - 55296) * 1024 + (r2 - 56320) + 65536) else None.

(** The loop of [unquoteBytes], on what the scanner has accepted between two
    quotes. *)
Definition unquote_one (s : string) : string * nat :=
  match s with
  | EmptyString => (EmptyString, 1%nat)
  | String.String c s1 =>
      if Ascii.eqb c backslash then
        match s1 with
        | EmptyString => (EmptyString, 1%nat)
        | String.String e s2 =>
            if Ascii.eqb e "b" then (zbyte 8, 2%nat)
            else if Ascii.eqb e "f" then (zbyte 12, 2%nat)
            else if Ascii.eqb e "n" then (zbyte 10, 2%nat)
            else if Ascii.eqb e "r" then (zbyte 13, 2%nat)
            else if Ascii.eqb e "t" then (zbyte 9, 2%nat)
            else if Ascii.eqb e "u" then
              let rr := getu4 s in
              if is_surrogate rr then
                match utf16_DecodeRune rr (getu4 (drop_bytes 6 s)) with
                | Some dec => (EncodeRune dec, 12%nat)
                | None => (replacement, 6%nat)
                end
              else (EncodeRune rr, 6%nat)
            else (str1 e, 2%nat)
        end
      else sanitize_one s
  end.
Definition unquote (s : string) : string := chunked unquote_one s 0.

(** ** The scanner *)

Inductive token :=
  | TLBrace | TRBrace | TLBrack | TRBrack | TColon | TComma
  | TNull | TTrue | TFalse
  | TStr (raw : string)
  | TNum (lit : string).

(** Where a number is: after the sign, a leading zero, the digits, the dot, the
    digits after it, the exponent's letter, its sign, its digits. *)
Inductive num_state := NNeg | NZero | NInt | NDot | NFrac | NE | NESign | NExp.

Definition is_num_digit (c : ascii) : bool := in_range 48 57 c.
Definition is_e (c : ascii) : bool := Ascii.eqb c "e" || Ascii.eqb c "E".

Definition num_step (st : num_state) (c : ascii) : option num_state :=
  match st with
  | NNeg => if Ascii.eqb c "0" then Some NZero else if is_num_digit c then Some NInt else None
  | NZero => if Ascii.eqb c "." then Some NDot else if is_e c then Some NE else None
  | NInt => if is_num_digit c then Some NInt else if Ascii.eqb c "." then Some NDot
            else if is_e c then Some NE else None
  | NDot => if is_num_digit c then Some NFrac else None
  | NFrac => if is_num_digit c then Some NFrac else if is_e c then Some NE else None
  | NE => if Ascii.eqb c "+" || Ascii.eqb c "-" then Some NESign
          else if is_num_digit c then Some NExp else None
  | NESign | NExp => if is_num_digit c then Some NExp else None
  end.

Definition num_final (st : num_state) : bool :=
  match st with NZero | NInt | NFrac | NExp => true | _ => false end.

Inductive lex_state :=
  | LNormal
  | LString (raw : string)
  | LEscape (raw : string)
  | LHex (n : nat) (raw : string)
  | LNumber (lit : string) (st : num_state)
  | LWord (rest : string) (t : token).

Definition is_space (c : ascii) : bool :=
  let n := Ascii.nat_of_ascii c in Nat.eqb n 32 || Nat.eqb n 9 || Nat.eqb n 10 || Nat.eqb n 13.

Definition lex_normal (c : ascii) : option (list token * lex_state) :=
  if is_space c then Some ([], LNormal)
  else if Ascii.eqb c dquote then Some ([], LString EmptyString)
  else if Ascii.eqb c "{" then Some ([TLBrace], LNormal)
  else if Ascii.eqb c "}" then Some ([TRBrace], LNormal)
  else if Ascii.eqb c "[" then Some ([TLBrack], LNormal)
  else if Ascii.eqb c "]" then Some ([TRBrack], LNormal)
  else if Ascii.eqb c ":" then Some ([TColon], LNormal)
  else if Ascii.eqb c "," then Some ([TComma], LNormal)
  else if Ascii.eqb c "-" then Some ([], LNumber (str1 c) NNeg)
  else if Ascii.eqb c "0" then Some ([], LNumber (str1 c) NZero)
  else if is_num_digit c then Some ([], LNumber (str1 c) NInt)
  else if Ascii.eqb c "n" then Some ([], LWord "ull" TNull)
  else if Ascii.eqb c "t" then Some ([], LWord "rue" TTrue)
  else if Ascii.eqb c "f" then Some ([], LWord "alse" TFalse)
  else None.

Definition is_escape (c : ascii) : bool :=
  existsb (Ascii.eqb c) [dquote; backslash; "/"; "b"; "f"; "n"; "r"; "t"]%char.

Definition lex_step (st : lex_state) (c : ascii) : option (list token * lex_state) :=
  match st with
  | LNormal => lex_normal c
  | LString raw =>
      if Ascii.eqb c dquote then Some ([TStr raw], LNormal)
      else if Ascii.eqb c backslash then Some ([], LEscape (raw +:+ str1 c))
      else if in_range 0 31 c then None
      else Some ([], LString (raw +:+ str1 c))
  | LEscape raw =>
      if is_escape c then Some ([], LString (raw +:+ str1 c))
      else if Ascii.eqb c "u" then Some ([], LHex 4 (raw +:+ str1 c))
      else None
  | LHex n raw =>
      match hex_val c, n with
      | Some _, S (S n) => Some ([], LHex (S n) (raw +:+ str1 c))
      | Some _, _ => Some ([], LString (raw +:+ str1 c))
      | None, _ => None
      end
  | LNumber lit ns =>
      match num_step ns c with
      | Some ns => Some ([], LNumber (lit +:+ str1 c) ns)
      | None =>
          if num_final ns then ts ← lex_normal c; Some (TNum lit :: ts.1, ts.2) else None
      end
  | LWord rest t =>
      match rest with
      | String.String r rest =>
          if Ascii.eqb c r then
            match rest with EmptyString => Some ([t], LNormal) | _ => Some ([], LWord rest t) end
          else None
      | EmptyString => None
      end
  end.

Fixpoint lex_run (s : string) (st : lex_state) : option (list token * lex_state) :=
  match s with
  | EmptyString => Some ([], st)
  | String.String c s =>
      ts ← lex_step st c; us ← lex_run s ts.2; Some (ts.1 ++ us.1, us.2)
  end.

(** The end of the input. *)
Definition lex_eof (st : lex_state) : option (list token) :=
  match st with
  | LNormal => Some []
  | LNumber lit ns => if num_final ns then Some [TNum lit] else None
  | _ => None
  end.

Definition lex (s : string) : option (list token) :=
  ts ← lex_run s LNormal; us ← lex_eof ts.2; Some (ts.1 ++ us).

(** ** Values, the parser and the printer *)

Inductive json :=
  | JNull
  | JBool (b : bool)
  | JNum (lit : string)
  | JStr (s : string)
  | JArr (l : list json)
  | JObj (l : list (string * json)).

(** The containers a value is in: the elements so far, and the key a member
    is read for. *)
Inductive frame :=
  | FArr (l : list json)
  | FObj (l : list (string * json)) (k : string).

Inductive pmode := MValue | MFirst | MKeyFirst | MKey | MColon | MAfter.

Inductive pstate :=
  | PRun (stack : list frame) (m : pmode)
  | PDone (v : json).

Definition emit (v : json) (stack : list frame) : pstate :=
  match stack with
  | [] => PDone v
  | FArr l :: stack => PRun (FArr (l ++ [v]) :: stack) MAfter
  | FObj l k :: stack => PRun (FObj (l ++ [(k, v)]) k :: stack) MAfter
  end.

(** What a string of the text is read as: its contents for [json.Unmarshal], its
    bytes for the decoders that are given the text of a value. *)
Section parser.
Variable read_string : string -> string.

Definition parse_begin (t : token) (stack : list frame) : option pstate :=
  match t with
  | TNull => Some (emit JNull stack)
  | TTrue => Some (emit (JBool true) stack)
  | TFalse => Some (emit (JBool false) stack)
  | TStr raw => Some (emit (JStr (read_string raw)) stack)
  | TNum lit => Some (emit (JNum lit) stack)
  | TLBrack => Some (PRun (FArr [] :: stack) MFirst)
  | TLBrace => Some (PRun (FObj [] EmptyString :: stack) MKeyFirst)
  | _ => None
  end.

Definition parse_step (p : pstate) (t : token) : option pstate :=
  match p with
  | PDone _ => None
  | PRun stack m =>
      match m, t with
      | MValue, _ => parse_begin t stack
      | MFirst, TRBrack => match stack with FArr l :: stack => Some (emit (JArr l) stack) | _ => None end
      | MFirst, _ => parse_begin t stack
      | MKeyFirst, TRBrace => match stack with FObj l _ :: stack => Some (emit (JObj l) stack) | _ => None end
      | MKeyFirst, TStr raw | MKey, TStr raw =>
          match stack with
          | FObj l _ :: stack => Some (PRun (FObj l (read_string raw) :: stack) MColon)
          | _ => None
          end
      | MColon, TColon => Some (PRun stack MValue)
      | MAfter, TComma =>
          match stack with
          | FArr l :: stack => Some (PRun (FArr l :: stack) MValue)
          | FObj l k :: stack => Some (PRun (FObj l k :: stack) MKey)
          | [] => None
          end
      | MAfter, TRBrack => match stack with FArr l :: stack => Some (emit (JArr l) stack) | _ => None end
      | MAfter, TRBrace => match stack with FObj l _ :: stack => Some (emit (JObj l) stack) | _ => None end
      | _, _ => None
      end
  end.

Fixpoint parse_run (ts : list token) (p : pstate) : option pstate :=
  match ts with
  | [] => Some p
  | t :: ts => p ← parse_step p t; parse_run ts p
  end.

Definition parse_with (s : string) : option json :=
  ts ← lex s; p ← parse_run ts (PRun [] MValue);
  match p with PDone v => Some v | _ => None end.
End parser.

Definition parse_json : string -> option json := parse_with unquote.
Definition parse_raw : string -> option json := parse_with id.

(** [json.Marshal] writes no spaces. *)
Definition join (l : list string) : string := String.concat "," l.

Fixpoint print_json (j : json) : string :=
  match j with
  | JNull => "null"
  | JBool b => if b then "true" else "false"
  | JNum lit => lit
  | JStr s => quote s
  | JArr l => "[" +:+ join (print_json <$> l) +:+ "]"
  | JObj l => "{" +:+ join ((fun kv => quote kv.1 +:+ ":" +:+ print_json kv.2) <$> l) +:+ "}"
  end.

(** ** Strings are printed and read back *)

#[local] Arguments String.append : simpl nomatch.

Lemma chunked_skip f s k : chunked f s k = chunked f (drop_bytes k s) 0.
Proof. revert k. induction s as [|c s IH]; intros [|k]; try done. simpl. apply IH. Qed.

Lemma chunked_cons f s out n :
  s <> EmptyString -> f s = (out, S n) -> chunked f s 0 = out +:+ chunked f (drop_bytes (S n) s) 0.
Proof. intros Hs Hf. destruct s as [|c s]; [done|]. cbn [chunked]. rewrite Hf. simpl. by rewrite chunked_skip. Qed.

Lemma take_drop_bytes n s : take_bytes n s +:+ drop_bytes n s = s.
Proof. revert s. induction n as [|n IH]; intros [|c s]; try done. simpl. by rewrite IH. Qed.

Lemma drop_bytes_shorter n s : s <> EmptyString -> (String.length (drop_bytes (S n) s) < String.length s)%nat.
Proof.
  destruct s as [|c s]; [done|]. intros _. simpl. revert s.
  induction n as [|n IH]; intros s; [destruct s; simpl; lia|]. destruct s as [|d s]; simpl; [lia|].
  specialize (IH s). lia.
Qed.

(** A rune is recognised by its own bytes. *)
Lemma utf8_len_prefix s n r :
  utf8_len s = Some n ->
  utf8_len (take_bytes n s +:+ r) = Some n /\ String.length (take_bytes n s) = n /\
  take_bytes n (take_bytes n s +:+ r) = take_bytes n s /\ exists m, n = S m.
Proof.
  unfold utf8_len. destruct s as [|a s]; [done|].
  destruct (in_range 0 127 a) eqn:Ha; [intros [= <-]; simpl; rewrite Ha; eauto|].
  destruct s as [|b s]; [done|]. destruct (in_range 194 223 a) eqn:Ha2.
  { destruct (continuation b) eqn:Hb; [|done]. intros [= <-]. simpl. rewrite Ha, Ha2, Hb. eauto. }
  destruct s as [|c s]; [done|]. destruct (in_range 224 224 a) eqn:Ha3.
  { destruct (in_range 160 191 b && continuation c) eqn:Hb; [|done]. intros [= <-]. simpl.
    rewrite Ha, Ha2, Ha3, Hb. eauto. }
  destruct (in_range 225 236 a || in_range 238 239 a) eqn:Ha4.
  { destruct (continuation b && continuation c) eqn:Hb; [|done]. intros [= <-]. simpl.
    rewrite Ha, Ha2, Ha3, Ha4, Hb. eauto. }
  destruct (in_range 237 237 a) eqn:Ha5.
  { destruct (in_range 128 159 b && continuation c) eqn:Hb; [|done]. intros [= <-]. simpl.
    rewrite Ha, Ha2, Ha3, Ha4, Ha5, Hb. eauto. }
  destruct s as [|d s]; [done|]. destruct (_ && continuation d) eqn:Hb; [|done]. intros [= <-]. simpl.
  rewrite Ha, Ha2, Ha3, Ha4, Ha5, Hb. eauto.
Qed.

(** The bytes of a longer rune are not ASCII. *)
Fixpoint all_high (s : string) : bool :=
  match s with EmptyString => true | String.String c s => in_range 128 255 c && all_high s end.

Lemma in_range_weaken lo hi lo' hi' c :
  (lo' <= lo)%nat -> (hi <= hi')%nat -> in_range lo hi c = true -> in_range lo' hi' c = true.
Proof. unfold in_range. rewrite !andb_true_iff, !Nat.leb_le. lia. Qed.

Lemma not_ascii_high c : in_range 0 127 c = false -> in_range 128 255 c = true.
Proof. destruct c as [[] [] [] [] [] [] [] []]; by vm_compute. Qed.

Lemma utf8_len_high s n :
  utf8_len s = Some n -> n = 1%nat \/ all_high (take_bytes n s) = true.
Proof.
  unfold utf8_len. destruct s as [|a s]; [done|].
  destruct (in_range 0 127 a) eqn:Ha; [intros [= <-]; by left|]. apply not_ascii_high in Ha.
  destruct s as [|b s]; [done|].
  assert (forall lo hi c, (128 <= lo)%nat -> (hi <= 255)%nat -> in_range lo hi c = true -> in_range 128 255 c = true)
    as Hw by (intros lo hi c ? ?; by apply in_range_weaken).
  destruct (in_range 194 223 a).
  { destruct (continuation b) eqn:Hb; [|done]. intros [= <-]. right. simpl. rewrite Ha. simpl.
    rewrite andb_true_r. apply (Hw 128%nat 191%nat); [lia|lia|done]. }
  destruct s as [|c s]; [done|].
  assert (forall lo hi, (128 <= lo)%nat -> (hi <= 191)%nat -> in_range lo hi b && continuation c = true ->
    all_high (take_bytes 3 (String.String a (String.String b (String.String c s)))) = true) as H3.
  { intros lo hi Hlo Hhi [Hb Hc]%andb_true_iff. simpl. rewrite Ha. simpl.
    rewrite (Hw lo hi b), (Hw 128%nat 191%nat c) by (done || lia). done. }
  destruct (in_range 224 224 a).
  { destruct (in_range 160 191 b && _) eqn:Hb; [|done]. intros [= <-]. right. apply (H3 160%nat 191%nat); [lia|lia|done]. }
  destruct (in_range 225 236 a || in_range 238 239 a).
  { destruct (continuation b && _) eqn:Hb; [|done]. intros [= <-]. right. apply (H3 128%nat 191%nat); [lia|lia|done]. }
  destruct (in_range 237 237 a).
  { destruct (in_range 128 159 b && _) eqn:Hb; [|done]. intros [= <-]. right. apply (H3 128%nat 159%nat); [lia|lia|done]. }
  destruct s as [|d s]; [done|]. destruct (_ && continuation d) eqn:Hb; [|done]. intros [= <-]. right.
  rewrite !andb_true_iff, !orb_true_iff, !andb_true_iff in Hb. simpl. rewrite Ha. simpl.
  destruct Hb as [[Hb Hc] Hd].
  rewrite (Hw 128%nat 191%nat c), (Hw 128%nat 191%nat d) by (done || lia).
  rewrite !andb_true_r. destruct Hb as [[[_ Hb]|[_ Hb]]|[_ Hb]].
  - by apply (Hw 144%nat 191%nat); [lia|lia|].
  - by apply (Hw 128%nat 191%nat); [lia|lia|].
  - by apply (Hw 128%nat 143%nat); [lia|lia|].
Qed.

(** Both loops advance by the same runes. *)
Lemma escape_one_cases s :
  s <> EmptyString ->
  (utf8_len s = None /\ escape_one s = (str1 backslash +:+ "ufffd", 1%nat)) \/
  (exists a, in_range 0 127 a = true /\ utf8_len s = Some 1%nat /\ take_bytes 1 s = str1 a /\
     escape_one s = (escape_ascii a, 1%nat)) \/
  (exists n, utf8_len s = Some n /\ all_high (take_bytes n s) = true /\
     ((take_bytes n s = line_separator 168 /\ escape_one s = (str1 backslash +:+ "u2028", n)) \/
      (take_bytes n s = line_separator 169 /\ escape_one s = (str1 backslash +:+ "u2029", n)) \/
      escape_one s = (take_bytes n s, n))).
Proof.
  intros Hs. destruct s as [|a s]; [done|]. unfold escape_one.
  destruct (utf8_len (String.String a s)) as [n|] eqn:Hn; [right|by left].
  destruct (decide (n = 1%nat)) as [->|Hn1].
  - left. exists a. split_ands; try done.
    unfold utf8_len in Hn. destruct (in_range 0 127 a); [done|]. repeat case_match; discriminate.
  - right. exists n. split; [done|]. destruct (utf8_len_high _ _ Hn) as [?|Hh]; [done|]. split; [done|].
    destruct n as [|[|n]]; [by destruct (utf8_len_prefix _ _ EmptyString Hn) as (_&_&_&?&?)|done|].
    destruct (String.eqb_spec (take_bytes (S (S n)) (String.String a s)) (line_separator 168)); [by left|].
    destruct (String.eqb_spec (take_bytes (S (S n)) (String.String a s)) (line_separator 169)); [by right; left|].
    by right; right.
Qed.

Lemma unquote_chunk out x n r :
  unquote_one (out +:+ r) = (x, S n) -> String.length out = S n ->
  unquote (out +:+ r) = x +:+ unquote r.
Proof.
  intros Hu Hl. unfold unquote. rewrite (chunked_cons unquote_one (out +:+ r) x n); [|by destruct out|done].
  by rewrite <- Hl, drop_bytes_app.
Qed.

Lemma unquote_ascii a r :
  in_range 0 127 a = true -> unquote (escape_ascii a +:+ r) = str1 a +:+ unquote r.
Proof.
  intros Ha. apply (unquote_chunk _ _ (pred (String.length (escape_ascii a)))).
  - revert Ha. destruct a as [[] [] [] [] [] [] [] []]; vm_compute; congruence.
  - destruct a as [[] [] [] [] [] [] [] []]; reflexivity.
Qed.

Lemma all_high_not_backslash s r :
  s <> EmptyString -> all_high s = true -> unquote_one (s +:+ r) = sanitize_one (s +:+ r).
Proof.
  destruct s as [|c s]; [done|]. intros _. simpl. intros [Hc _]%andb_true_iff.
  destruct (Ascii.eqb_spec c backslash) as [->|]; [by vm_compute in Hc|done].
Qed.

Lemma unquote_escape_one s r :
  s <> EmptyString ->
  unquote ((escape_one s).1 +:+ r) = (sanitize_one s).1 +:+ unquote r /\
  (escape_one s).2 = (sanitize_one s).2 /\ exists n, (escape_one s).2 = S n.
Proof.
  intros Hs. unfold sanitize_one.
  destruct (escape_one_cases s Hs) as [[Hn He]|[(a&Ha&Hn&Ht&He)|(n&Hn&Hh&Hc)]].
  - rewrite Hn, He. split; [|split; [done|by eexists]]. by apply (unquote_chunk _ _ 5).
  - rewrite Hn, He, Ht. split; [|split; [done|by eexists]]. by apply unquote_ascii.
  - destruct (utf8_len_prefix s n r Hn) as (Hp&Hl&Ht&m&->). rewrite Hn. cbn [fst snd].
    assert (unquote (take_bytes (S m) s +:+ r) = take_bytes (S m) s +:+ unquote r) as Hraw.
    { apply (unquote_chunk _ _ m); [|done]. rewrite all_high_not_backslash; [|by intros Hx; rewrite Hx in Hl|done].
      unfold sanitize_one. by rewrite Hp, Ht. }
    destruct Hc as [[Hc ->]|[[Hc ->]| ->]]; cbn [fst snd].
    + rewrite Hc. split; [by apply (unquote_chunk _ _ 5)|split; [done|by eexists]].
    + rewrite Hc. split; [by apply (unquote_chunk _ _ 5)|split; [done|by eexists]].
    + split; [done|split; [done|by eexists]].
Qed.

(** Induction on the runes of a string. *)
Lemma rune_ind (P : string -> Prop) :
  P EmptyString ->
  (forall s n, s <> EmptyString -> escape s = (escape_one s).1 +:+ escape (drop_bytes (S n) s) ->
     sanitize s = (sanitize_one s).1 +:+ sanitize (drop_bytes (S n) s) ->
     (sanitize_one s).2 = S n -> P (drop_bytes (S n) s) -> P s) ->
  forall s, P s.
Proof.
  intros H0 H1 s. remember (String.length s) as k eqn:Hk. revert s Hk.
  induction (lt_wf k) as [k _ IH]. intros s ->.
  destruct (decide (s = EmptyString)) as [->|Hs]; [done|].
  destruct (unquote_escape_one s EmptyString Hs) as (_&Heq&n&Hn). apply (H1 s n); [done| | |congruence|].
  - unfold escape. rewrite (chunked_cons escape_one s (escape_one s).1 n); [done|done|].
    rewrite <- Hn. by destruct (escape_one s).
  - unfold sanitize. rewrite (chunked_cons sanitize_one s (sanitize_one s).1 n); [done|done|].
    rewrite <- Hn, Heq. by destruct (sanitize_one s).
  - eapply IH; [|done]. by apply drop_bytes_shorter.
Qed.

(** What is written for a string is read as the string, with U+FFFD for its
    bytes that are not UTF-8. *)
Lemma unquote_escape s : unquote (escape s) = sanitize s.
Proof.
  induction s as [|s n Hs He Hz _ IH] using rune_ind; [done|].
  destruct (unquote_escape_one s (escape (drop_bytes (S n) s)) Hs) as (Hu&_). rewrite He, Hu, IH. done.
Qed.

(** Nothing changes in a string that is UTF-8. *)
Lemma utf8_valid_len s :
  s <> EmptyString ->
  utf8_valid s = match utf8_len s with Some n => utf8_valid (drop_bytes n s) | None => false end.
Proof.
  destruct s as [|a s]; [done|]. intros _. cbn [utf8_valid utf8_len].
  destruct (in_range 0 127 a); [done|]. destruct s as [|b s]; [done|].
  destruct (in_range 194 223 a); [by destruct (continuation b)|]. destruct s as [|c s]; [done|].
  destruct (in_range 224 224 a); [by destruct (in_range 160 191 b), (continuation c)|].
  destruct (in_range 225 236 a || in_range 238 239 a); [by destruct (continuation b), (continuation c)|].
  destruct (in_range 237 237 a); [by destruct (in_range 128 159 b), (continuation c)|].
  destruct s as [|d s]; [done|].
  destruct (in_range 240 240 a) eqn:H1; [|destruct (in_range 241 243 a) eqn:H2; [|destruct (in_range 244 244 a)]].
  - assert (in_range 241 243 a = false /\ in_range 244 244 a = false) as [-> ->].
    { revert H1. destruct a as [[] [] [] [] [] [] [] []]; vm_compute; auto. }
    cbn [andb orb]. rewrite !orb_false_r. by destruct (in_range 144 191 b), (continuation c), (continuation d).
  - assert (in_range 244 244 a = false) as ->.
    { revert H2. destruct a as [[] [] [] [] [] [] [] []]; vm_compute; auto. }
    cbn [andb orb]. rewrite orb_false_r. by destruct (continuation b), (continuation c), (continuation d).
  - cbn [andb orb]. by destruct (in_range 128 143 b), (continuation c), (continuation d).
  - done.
Qed.

Lemma sanitize_valid s : utf8_valid s = true -> sanitize s = s.
Proof.
  induction s as [|s n Hs _ Hz Hn IH] using rune_ind; [done|]. rewrite utf8_valid_len by done.
  unfold sanitize_one in *. destruct (utf8_len s) as [m|]; [|done]. simpl in *. subst m.
  intros Hv. rewrite Hz, IH by done. apply take_drop_bytes.
Qed.

(** The scanner's view of what is between the quotes of a string. *)
Inductive body_state := BIn | BEsc | BHex (n : nat).

Definition body_step (b : body_state) (c : ascii) : option body_state :=
  match b with
  | BIn => if Ascii.eqb c dquote then None else if Ascii.eqb c backslash then Some BEsc
           else if in_range 0 31 c then None else Some BIn
  | BEsc => if is_escape c then Some BIn else if Ascii.eqb c "u" then Some (BHex 4) else None
  | BHex n => match hex_val c, n with
              | Some _, S (S n) => Some (BHex (S n)) | Some _, _ => Some BIn | None, _ => None end
  end.
Fixpoint body_run (s : string) (b : body_state) : option body_state :=
  match s with EmptyString => Some b | String.String c s => b ← body_step b c; body_run s b end.

Definition body_lex (b : body_state) (raw : string) : lex_state :=
  match b with BIn => LString raw | BEsc => LEscape raw | BHex n => LHex n raw end.

Lemma body_run_lex s : forall b b' raw,
  body_run s b = Some b' -> lex_run s (body_lex b raw) = Some ([], body_lex b' (raw +:+ s)).
Proof.
  induction s as [|c s IH]; intros b b' raw Hb; simpl in Hb.
  { injection Hb as ->. by rewrite string_app_nil_r. }
  destruct (body_step b c) as [b1|] eqn:Hs; [|done]. simpl in Hb.
  assert (lex_step (body_lex b raw) c = Some ([], body_lex b1 (raw +:+ str1 c))) as Hl.
  { revert Hs. destruct b as [| |n]; simpl.
    - destruct (Ascii.eqb c dquote); [done|]. destruct (Ascii.eqb c backslash); [by intros [= <-]|].
      destruct (in_range 0 31 c); [done|]. by intros [= <-].
    - destruct (is_escape c); [by intros [= <-]|]. destruct (Ascii.eqb c "u"); [by intros [= <-]|done].
    - destruct (hex_val c), n as [|[|n]]; try done; by intros [= <-]. }
  cbn [lex_run]. rewrite Hl. cbn [mbind option_bind fst snd]. rewrite (IH _ _ _ Hb).
  cbn [mbind option_bind fst snd app]. by rewrite string_app_assoc.
Qed.

Lemma body_run_app s t b : body_run (s +:+ t) b = b' ← body_run s b; body_run t b'.
Proof.
  revert b. induction s as [|c s IH]; intros b; [done|]. simpl. destruct (body_step b c); [apply IH|done].
Qed.

Lemma all_high_body s : all_high s = true -> body_run s BIn = Some BIn.
Proof.
  induction s as [|c s IH]; [done|]. cbn [all_high body_run]. intros [Hc Hs]%andb_true_iff.
  assert (body_step BIn c = Some BIn) as ->.
  { revert Hc. destruct c as [[] [] [] [] [] [] [] []]; vm_compute; congruence. }
  by apply IH.
Qed.

Lemma escape_body s : body_run (escape s) BIn = Some BIn.
Proof.
  induction s as [|s n Hs He _ _ IH] using rune_ind; [done|]. rewrite He, body_run_app.
  assert (body_run (escape_one s).1 BIn = Some BIn) as ->; [|done].
  destruct (escape_one_cases s Hs) as [[_ ->]|[(a&Ha&_&_&->)|(m&_&Hh&Hc)]]; cbn [fst]; [done| |].
  - revert Ha. destruct a as [[] [] [] [] [] [] [] []]; vm_compute; congruence.
  - destruct Hc as [[_ ->]|[[_ ->]| ->]]; cbn [fst]; [done|done|by apply all_high_body].
Qed.

Lemma lex_run_app s t st : lex_run (s +:+ t) st =
  ts ← lex_run s st; us ← lex_run t ts.2; Some (ts.1 ++ us.1, us.2).
Proof.
  revert st. induction s as [|c s IH]; intros st; simpl.
  { destruct (lex_run t st) as [[us st']|]; done. }
  destruct (lex_step st c) as [[ts st1]|]; simpl; [|done]. rewrite IH.
  destruct (lex_run s st1) as [[us st2]|]; simpl; [|done].
  destruct (lex_run t st2) as [[vs st3]|]; simpl; [|done]. by rewrite app_assoc.
Qed.

(** A printed string is scanned as one token, with the escapes in it. *)
Lemma quote_lex s : lex_run (quote s) LNormal = Some ([TStr (escape s)], LNormal).
Proof.
  unfold quote. rewrite lex_run_app. cbn [lex_run str1]. 
  change (lex_step LNormal dquote) with (Some ([] : list token, LString EmptyString)).
  cbn [mbind option_bind fst snd app]. rewrite lex_run_app.
  pose proof (body_run_lex _ _ _ EmptyString (escape_body s)) as Hb. cbn [body_lex] in Hb. rewrite Hb.
  cbn [mbind option_bind fst snd app lex_run lex_step]. done.
Qed.

(** ** Values are printed and read back *)

Section json_induction.
Variable P : json -> Prop.
Hypothesis Hnull : P JNull.
Hypothesis Hbool : forall b, P (JBool b).
Hypothesis Hnum : forall lit, P (JNum lit).
Hypothesis Hstr : forall s, P (JStr s).
Hypothesis Harr : forall l, Forall P l -> P (JArr l).
Hypothesis Hobj : forall l, Forall (fun kv => P kv.2) l -> P (JObj l).

Fixpoint json_nested_ind (j : json) : P j :=
  match j with
  | JNull => Hnull
  | JBool b => Hbool b
  | JNum lit => Hnum lit
  | JStr s => Hstr s
  | JArr l => Harr l ((fix go l : Forall P l :=
      match l with [] => Forall_nil_2 _ | x :: l => Forall_cons_2 _ _ _ (json_nested_ind x) (go l) end) l)
  | JObj l => Hobj l ((fix go l : Forall (fun kv => P kv.2) l :=
      match l with
      | [] => Forall_nil_2 _
      | (k, x) :: l => Forall_cons_2 (fun kv => P kv.2) (k, x) _ (json_nested_ind x) (go l)
      end) l)
  end.
End json_induction.

(** A literal the scanner accepts as one number. *)
Definition num_ok (lit : string) : bool :=
  match lex_run lit LNormal with
  | Some ([], LNumber l st) => String.eqb l lit && num_final st
  | _ => false
  end.

Fixpoint wf_json (j : json) : bool :=
  match j with
  | JNum lit => num_ok lit
  | JArr l => forallb wf_json l
  | JObj l => forallb (fun kv => wf_json kv.2) l
  | _ => true
  end.

(** All strings and keys are UTF-8. *)
Fixpoint utf8_json (j : json) : bool :=
  match j with
  | JStr s => utf8_valid s
  | JArr l => forallb utf8_json l
  | JObj l => forallb (fun kv => utf8_valid kv.1 && utf8_json kv.2) l
  | _ => true
  end.

Fixpoint map_strings (f : string -> string) (j : json) : json :=
  match j with
  | JStr s => JStr (f s)
  | JArr l => JArr (map_strings f <$> l)
  | JObj l => JObj ((fun kv => (f kv.1, map_strings f kv.2)) <$> l)
  | _ => j
  end.
Definition sanitize_json : json -> json := map_strings sanitize.

Fixpoint comma_sep (l : list (list token)) : list token :=
  match l with
  | [] => []
  | [ts] => ts
  | ts :: l => ts ++ TComma :: comma_sep l
  end.

Fixpoint tokens (j : json) : list token :=
  match j with
  | JNull => [TNull]
  | JBool b => [if b then TTrue else TFalse]
  | JNum lit => [TNum lit]
  | JStr s => [TStr (escape s)]
  | JArr l => TLBrack :: comma_sep (tokens <$> l) ++ [TRBrack]
  | JObj l => TLBrace :: comma_sep ((fun kv => TStr (escape kv.1) :: TColon :: tokens kv.2) <$> l) ++ [TRBrace]
  end.

(** The text [s] is scanned as the tokens [ts], the last of which may be a number
    that the next byte ends. *)
Definition ends (st : lex_state) (ts : list token) : Prop :=
  (st = LNormal /\ ts = []) \/ (exists lit ns, st = LNumber lit ns /\ num_final ns = true /\ ts = [TNum lit]).
Definition lexes_to (s : string) (ts : list token) : Prop :=
  exists ts1 st ts2, lex_run s LNormal = Some (ts1, st) /\ ends st ts2 /\ ts = ts1 ++ ts2.

Lemma ends_step st ts c t :
  ends st ts -> (c, t) ∈ [(",", TComma); ("]", TRBrack); ("}", TRBrace)]%char ->
  lex_step st c = Some (ts ++ [t], LNormal).
Proof.
  intros Hst Hc. assert (lex_normal c = Some ([t], LNormal)) as Hn.
  { repeat (apply elem_of_cons in Hc as [[= -> ->]|Hc]; [done|]). by apply elem_of_nil in Hc. }
  destruct Hst as [[-> ->]|(lit&ns&->&Hf&->)]; [done|]. cbn [lex_step].
  assert (num_step ns c = None) as ->.
  { repeat (apply elem_of_cons in Hc as [[= -> ->]|Hc]; [by destruct ns|]). by apply elem_of_nil in Hc. }
  by rewrite Hf, Hn.
Qed.

Lemma lexes_to_then s ts c t r :
  lexes_to s ts -> (c, t) ∈ [(",", TComma); ("]", TRBrack); ("}", TRBrace)]%char ->
  lex_run (s +:+ String.String c r) LNormal = us ← lex_run r LNormal; Some (ts ++ t :: us.1, us.2).
Proof.
  intros (ts1&st&ts2&Hs&He&->) Hc. rewrite lex_run_app, Hs. cbn [mbind option_bind fst snd lex_run].
  rewrite (ends_step _ _ _ _ He Hc). cbn [mbind option_bind fst snd].
  destruct (lex_run r LNormal) as [[us st']|]; [|done]. cbn [mbind option_bind fst snd].
  by rewrite <- !app_assoc.
Qed.

Lemma lex_join ss tss c t :
  Forall2 lexes_to ss tss -> (c, t) ∈ [("]", TRBrack); ("}", TRBrace)]%char ->
  lex_run (join ss +:+ str1 c) LNormal = Some (comma_sep tss ++ [t], LNormal).
Proof.
  intros Hs Hc. induction Hs as [|s ts ss tss Hst Hs IH].
  { repeat (apply elem_of_cons in Hc as [[= -> ->]|Hc]; [done|]). by apply elem_of_nil in Hc. }
  destruct Hs as [|s' ts' ss tss Hst' Hs].
  - cbn [join String.concat comma_sep]. unfold str1. rewrite (lexes_to_then s ts c t) by (done || set_solver).
    done.
  - change (join (s :: s' :: ss)) with (s +:+ String.String "," (join (s' :: ss))).
    rewrite string_app_assoc. cbn [String.append].
    rewrite (lexes_to_then s ts "," TComma) by (done || set_solver). rewrite IH.
    cbn [mbind option_bind fst snd]. change (comma_sep (ts :: ts' :: tss)) with (ts ++ TComma :: comma_sep (ts' :: tss)).
    by rewrite <- app_assoc.
Qed.

Lemma print_lexes j : wf_json j = true -> lexes_to (print_json j) (tokens j).
Proof.
  induction j as [|b|lit|s|l IH|l IH] using json_nested_ind; intros Hwf.
  - exists [TNull], LNormal, []. split_ands; [done|by left|done].
  - exists [if b then TTrue else TFalse], LNormal, []. split_ands; [by destruct b|by left|done].
  - simpl in Hwf. unfold num_ok in Hwf.
    destruct (lex_run lit LNormal) as [[[|] [| | | |l st|]]|] eqn:Hl; try done.
    apply andb_true_iff in Hwf as [->%String.eqb_eq Hf]. exists [], (LNumber lit st), [TNum lit].
    split_ands; [done|right; by exists lit, st|done].
  - exists [TStr (escape s)], LNormal, []. split_ands; [apply quote_lex|by left|done].
  - simpl in Hwf. rewrite forallb_forall in Hwf.
    exists (tokens (JArr l)), LNormal, []. split; [|split; [by left|by rewrite app_nil_r]].
    cbn [print_json tokens]. cbn [String.append lex_run].
    change (lex_step LNormal "[") with (Some ([TLBrack], LNormal)). cbn [mbind option_bind fst snd].
    rewrite (lex_join _ (tokens <$> l) "]" TRBrack); [done| |set_solver].
    apply Forall2_fmap, Forall_Forall2_diag, Forall_forall. rewrite Forall_forall in IH.
    intros x Hx. apply IH; [done|]. by apply Hwf, list_elem_of_In.
  - simpl in Hwf. rewrite forallb_forall in Hwf.
    exists (tokens (JObj l)), LNormal, []. split; [|split; [by left|by rewrite app_nil_r]].
    cbn [print_json tokens]. cbn [String.append lex_run].
    change (lex_step LNormal "{") with (Some ([TLBrace], LNormal)). cbn [mbind option_bind fst snd].
    rewrite (lex_join _ ((fun kv => TStr (escape kv.1) :: TColon :: tokens kv.2) <$> l) "}" TRBrace);
      [done| |set_solver].
    apply Forall2_fmap, Forall_Forall2_diag, Forall_forall. rewrite Forall_forall in IH.
    intros [k x] Hx. destruct (IH (k, x) Hx) as (ts1&st&ts2&Hl&He&Ht); [by apply (Hwf (k, x)), list_elem_of_In|].
    exists (TStr (escape k) :: TColon :: ts1), st, ts2. cbn [fst snd] in *. split_ands; [|done|by rewrite Ht].
    rewrite lex_run_app, quote_lex. cbn [mbind option_bind fst snd String.append lex_run].
    change (lex_step LNormal ":") with (Some ([TColon], LNormal)). cbn [mbind option_bind fst snd].
    by rewrite Hl.
Qed.

(** The parser on the tokens of a value, for a reading [rd] of strings. *)
Section parse_print.
Variable rd : string -> string.

Lemma tokens_head j : exists t ts, tokens j = t :: ts /\
  forall stack, parse_step rd (PRun stack MFirst) t = parse_step rd (PRun stack MValue) t.
Proof. destruct j; eexists _, _; (split; [reflexivity|]); try done. by destruct b. Qed.

Lemma tokens_first j ts stack :
  parse_run rd (tokens j ++ ts) (PRun stack MFirst) = parse_run rd (tokens j ++ ts) (PRun stack MValue).
Proof. destruct (tokens_head j) as (t&us&->&Ht). cbn [app parse_run]. by rewrite Ht. Qed.

Definition parses (j : json) : Prop := forall ts stack,
  parse_run rd (tokens j ++ ts) (PRun stack MValue) = parse_run rd ts (emit (map_strings (fun s => rd (escape s)) j) stack).

Lemma parse_elements l : forall acc ts stack, l <> [] -> Forall parses l ->
  parse_run rd (comma_sep (tokens <$> l) ++ TRBrack :: ts) (PRun (FArr acc :: stack) MValue) =
  parse_run rd ts (emit (JArr (acc ++ (map_strings (fun s => rd (escape s)) <$> l))) stack).
Proof.
  induction l as [|j l IH]; intros acc ts stack Hne Hp; [done|].
  apply Forall_cons in Hp as [Hj Hp]. destruct l as [|j' l].
  - cbn [fmap list_fmap comma_sep]. by rewrite Hj.
  - change (comma_sep (tokens <$> j :: j' :: l)) with (tokens j ++ TComma :: comma_sep (tokens <$> j' :: l)).
    rewrite <- app_assoc, Hj. cbn [app parse_run emit parse_step mbind option_bind].
    rewrite IH by done. cbn [fmap list_fmap]. by rewrite <- app_assoc.
Qed.

Lemma parse_members l : forall acc k ts stack m, l <> [] -> Forall (fun kv => parses kv.2) l ->
  m = MKey \/ m = MKeyFirst ->
  parse_run rd (comma_sep ((fun kv => TStr (escape kv.1) :: TColon :: tokens kv.2) <$> l) ++ TRBrace :: ts)
    (PRun (FObj acc k :: stack) m) =
  parse_run rd ts (emit (JObj (acc ++ ((fun kv => (rd (escape kv.1), map_strings (fun s => rd (escape s)) kv.2)) <$> l))) stack).
Proof.
  induction l as [|[k j] l IH]; intros acc k0 ts stack m Hne Hp Hm; [done|].
  apply Forall_cons in Hp as [Hj Hp]. cbn [snd] in Hj. destruct l as [|[k' j'] l].
  - cbn [fmap list_fmap comma_sep app parse_run fst snd]. destruct Hm as [-> | ->];
      cbn [parse_step mbind option_bind parse_run]; rewrite Hj; done.
  - change (comma_sep ((fun kv => TStr (escape kv.1) :: TColon :: tokens kv.2) <$> (k, j) :: (k', j') :: l))
      with ((TStr (escape k) :: TColon :: tokens j) ++ TComma ::
        comma_sep ((fun kv => TStr (escape kv.1) :: TColon :: tokens kv.2) <$> (k', j') :: l)).
    rewrite <- app_assoc. cbn [app parse_run]. destruct Hm as [-> | ->];
      cbn [parse_step mbind option_bind parse_run]; rewrite Hj;
      cbn [app parse_run emit parse_step mbind option_bind];
      rewrite IH by (done || by left); cbn [fmap list_fmap]; by rewrite <- app_assoc.
Qed.

Lemma tokens_parse j : parses j.
Proof.
  induction j as [|b|lit|s|l IH|l IH] using json_nested_ind; intros ts stack;
    [reflexivity|by destruct b|reflexivity|..];
    cbn [tokens app parse_run parse_step parse_begin mbind option_bind map_strings].
  - done.
  - destruct l as [|j l]; [done|]. rewrite <- app_assoc. cbn [app].
    assert (forall us, parse_run rd (comma_sep (tokens <$> j :: l) ++ us) (PRun (FArr [] :: stack) MFirst) =
      parse_run rd (comma_sep (tokens <$> j :: l) ++ us) (PRun (FArr [] :: stack) MValue)) as ->.
    { intros us. destruct l as [|j' l]; [apply tokens_first|].
      change (comma_sep (tokens <$> j :: j' :: l)) with (tokens j ++ TComma :: comma_sep (tokens <$> j' :: l)).
      rewrite <- app_assoc. apply tokens_first. }
    by rewrite parse_elements.
  - destruct l as [|kv l]; [done|]. rewrite <- app_assoc. cbn [app].
    rewrite parse_members by (done || by right). done.
Qed.

Lemma parse_with_print j :
  wf_json j = true -> parse_with rd (print_json j) = Some (map_strings (fun s => rd (escape s)) j).
Proof.
  intros Hwf. destruct (print_lexes j Hwf) as (ts1&st&ts2&Hl&He&Ht).
  unfold parse_with, lex. rewrite Hl. cbn [mbind option_bind fst snd].
  assert (lex_eof st = Some ts2) as ->.
  { destruct He as [[-> ->]|(lit&ns&->&Hf&->)]; [done|]. simpl. by rewrite Hf. }
  cbn [mbind option_bind]. rewrite <- Ht. pose proof (tokens_parse j [] []) as Hp.
  rewrite app_nil_r in Hp. rewrite Hp. done.
Qed.
End parse_print.

Lemma map_strings_ext f g j : (forall s, f s = g s) -> map_strings f j = map_strings g j.
Proof.
  intros Hfg. induction j as [|b|lit|s|l IH|l IH] using json_nested_ind; simpl; try done.
  - by rewrite Hfg.
  - f_equal. rewrite Forall_forall in IH. apply list_fmap_ext. intros i x Hx%list_elem_of_lookup_2. by apply IH.
  - f_equal. rewrite Forall_forall in IH. apply list_fmap_ext. intros i [k x] Hx%list_elem_of_lookup_2.
    simpl. rewrite Hfg. f_equal. by apply (IH (k, x)).
Qed.

Lemma parse_print j : wf_json j = true -> parse_json (print_json j) = Some (sanitize_json j).
Proof.
  intros Hwf. unfold parse_json. rewrite parse_with_print by done. f_equal.
  apply map_strings_ext, unquote_escape.
Qed.

Lemma sanitize_json_utf8 j : utf8_json j = true -> sanitize_json j = j.
Proof.
  induction j as [|b|lit|s|l IH|l IH] using json_nested_ind; intros Hu; try done.
  - unfold sanitize_json. simpl. by rewrite sanitize_valid.
  - unfold sanitize_json in *. simpl in *. rewrite forallb_forall in Hu. f_equal. rewrite Forall_forall in IH.
    rewrite <- (list_fmap_id l) at 2. apply list_fmap_ext. intros i x Hx%list_elem_of_lookup_2.
    apply IH; [done|]. by apply Hu, list_elem_of_In.
  - unfold sanitize_json in *. simpl in *. rewrite forallb_forall in Hu. f_equal. rewrite Forall_forall in IH.
    rewrite <- (list_fmap_id l) at 2. apply list_fmap_ext. intros i [k x] Hx%list_elem_of_lookup_2.
    pose proof (Hu (k, x) ltac:(by apply list_elem_of_In)) as [Hk Hv]%andb_true_iff. simpl in *.
    rewrite sanitize_valid by done. f_equal. by apply (IH (k, x)).
Qed.

(** JSON is read back as it was written. What json.Marshal's printer writes
    for a value whose numbers are numbers is accepted by the scanner and parsed
    to that value, with U+FFFD for each byte of its strings and keys that is not
    part of a UTF-8 sequence; so a value whose strings are UTF-8 (whatever
    quotes, control characters, HTML characters or separators they contain) is
    read back unchanged, and two of them with the same text are the same. *)
Theorem json_roundtrip (j : json) :
  wf_json j = true ->
  parse_json (print_json j) = Some (sanitize_json j) /\
  (utf8_json j = true -> parse_json (print_json j) = Some j) /\
  (forall j', wf_json j' = true -> utf8_json j = true -> utf8_json j' = true ->
     print_json j = print_json j' -> j = j').
Proof.
  intros Hwf. pose proof (parse_print j Hwf) as Hp. split; [done|]. split.
  - intros Hu. by rewrite Hp, sanitize_json_utf8.
  - intros j' Hwf' Hu Hu' Heq. pose proof (parse_print j' Hwf') as Hp'.
    rewrite <- Heq, Hp, !sanitize_json_utf8 in Hp' by done. by injection Hp'.
Qed.

(** ** Integers *)

Definition digit_val (c : ascii) : Z := Z.of_nat (Ascii.nat_of_ascii c) - 48.

Fixpoint parse_digits (s : string) (n : Z) : option Z :=
  match s with
  | EmptyString => Some n
  | String.String c s => if is_num_digit c then parse_digits s (10 * n + digit_val c) else None
  end.

(** [strconv.ParseInt(s, 10, 64)]. *)
Definition ParseInt (s : string) : option Z :=
  n ← match s with
      | EmptyString => None
      | String.String c (String.String _ _ as t) =>
          if Ascii.eqb c "-" then n ← parse_digits t 0; Some (- n)
          else if Ascii.eqb c "+" then parse_digits t 0 else parse_digits s 0
      | _ => parse_digits s 0
      end;
  if (MinInt64 <=? n) && (n <=? MaxInt64) then Some n else None.

Lemma pretty_N_go_app x s : pretty_N_go x s = pretty_N_go x EmptyString +:+ s.
Proof.
  revert s. induction (N.lt_wf_0 x) as [x _ IH]. intros s.
  destruct (decide (x = 0)%N) as [->|Hx]; [done|].
  rewrite !(pretty_N_go_step x) by lia. assert (x / 10 < x)%N as Hq by (apply N.div_lt; lia).
  rewrite (IH _ Hq), (IH _ Hq (String.String _ EmptyString)). by rewrite string_app_assoc.
Qed.

Lemma pretty_char_digit d : (d < 10)%N ->
  is_num_digit (pretty_N_char d) = true /\ digit_val (pretty_N_char d) = Z.of_N d /\
  (d <> 0 -> pretty_N_char d <> "0"%char)%N.
Proof.
  intros Hd. assert (d = 0 \/ d = 1 \/ d = 2 \/ d = 3 \/ d = 4 \/ d = 5 \/ d = 6 \/ d = 7 \/ d = 8 \/ d = 9)%N
    as Hc by lia.
  repeat (destruct Hc as [->|Hc]; [split_ands; done|]). subst d. done.
Qed.

Lemma parse_digits_pretty x s : parse_digits (pretty_N_go x s) 0 = parse_digits s (Z.of_N x).
Proof.
  revert s. induction (N.lt_wf_0 x) as [x _ IH]. intros s.
  destruct (decide (x = 0)%N) as [->|Hx]; [done|].
  rewrite pretty_N_go_step, IH by (try apply N.div_lt; lia). cbn [parse_digits].
  pose proof (N.mod_lt x 10 ltac:(lia)) as Hm.
  destruct (pretty_char_digit _ Hm) as (->&->&_). f_equal.
  pose proof (N.div_mod x 10 ltac:(lia)) as Hdm. clear IH Hm.
  generalize dependent (x mod 10)%N. generalize (x / 10)%N. intros q r ->. lia.
Qed.

(** The scanner on the digits of a number that does not start with zero. *)
Lemma lex_digit st pre ns c s :
  num_step ns c = Some NInt -> st = LNumber pre ns ->
  lex_run (String.String c s) st = lex_run s (LNumber (pre +:+ str1 c) NInt).
Proof.
  intros Hn ->. cbn [lex_run lex_step]. rewrite Hn. cbn [mbind option_bind fst snd].
  by destruct (lex_run s _) as [[ts st']|].
Qed.

Lemma lex_pretty st0 pre x s :
  (forall c s, is_num_digit c = true -> c <> "0"%char ->
     lex_run (String.String c s) st0 = lex_run s (LNumber (pre +:+ str1 c) NInt)) ->
  (0 < x)%N ->
  lex_run (pretty_N_go x s) st0 = lex_run s (LNumber (pre +:+ pretty_N_go x EmptyString) NInt).
Proof.
  intros H0. revert s. induction (N.lt_wf_0 x) as [x _ IH]. intros s Hx.
  rewrite !(pretty_N_go_step x) by done. pose proof (N.mod_lt x 10 ltac:(lia)) as Hm.
  destruct (pretty_char_digit _ Hm) as (Hd&_&Hz). destruct (decide (x / 10 = 0)%N) as [Hq|Hq].
  - rewrite Hq, !pretty_N_go_0. apply H0; [done|]. apply Hz.
    pose proof (N.div_mod x 10 ltac:(lia)) as Hdm. intros Hz0. rewrite Hq, Hz0 in Hdm. lia.
  - rewrite IH by (by apply N.neq_0_lt_0 || (apply N.div_lt; lia)).
    rewrite (lex_digit _ (pre +:+ pretty_N_go (x / 10) EmptyString) NInt); [|cbn [num_step]; by rewrite Hd|done].
    rewrite (pretty_N_go_app _ (String.String _ EmptyString)). by rewrite string_app_assoc.
Qed.

Lemma is_digit_lex c s :
  is_num_digit c = true -> c <> "0"%char ->
  lex_run (String.String c s) LNormal = lex_run s (LNumber (EmptyString +:+ str1 c) NInt).
Proof.
  intros Hd Hz. assert (lex_step LNormal c = Some ([], LNumber (str1 c) NInt)) as Hl.
  { revert Hd Hz. destruct c as [[] [] [] [] [] [] [] []]; vm_compute; congruence. }
  cbn [lex_run]. rewrite Hl. cbn [mbind option_bind fst snd].
  by destruct (lex_run s _) as [[ts st']|].
Qed.

Lemma pretty_N_int (x : N) :
  (0 < x)%N ->
  lex_run (pretty_N_go x EmptyString) LNormal = Some ([], LNumber (pretty_N_go x EmptyString) NInt) /\
  lex_run (str1 "-" +:+ pretty_N_go x EmptyString) LNormal =
    Some ([], LNumber (str1 "-" +:+ pretty_N_go x EmptyString) NInt).
Proof.
  intros Hx. split; [by rewrite (lex_pretty LNormal EmptyString) by (done || apply is_digit_lex)|].
  rewrite lex_run_app. change (lex_run (str1 "-") LNormal) with (Some ([] : list token, LNumber (str1 "-") NNeg)).
  cbn [mbind option_bind fst snd].
  rewrite (lex_pretty _ (str1 "-")); [done| |done]. intros c s Hd Hz. apply (lex_digit _ _ NNeg); [|done].
  cbn [num_step]. rewrite Hd. by destruct (Ascii.eqb_spec c "0").
Qed.

Lemma pretty_Z_ok (z : Z) : num_ok (pretty z) = true.
Proof.
  unfold num_ok. destruct z as [|p|p]; [done|..]; unfold pretty, pretty_Z; cbv beta iota;
    unfold pretty, pretty_positive, pretty, pretty_N; rewrite decide_False by done;
    destruct (pretty_N_int (N.pos p) ltac:(lia)) as [Hp Hn].
  - rewrite Hp. by rewrite String.eqb_refl.
  - change "-" with (str1 "-"). rewrite Hn. by rewrite String.eqb_refl.
Qed.

Lemma pretty_N_go_digit x s : (0 < x)%N -> exists c t, pretty_N_go x s = String.String c t /\ is_num_digit c = true.
Proof.
  revert s. induction (N.lt_wf_0 x) as [x _ IH]. intros s Hx. rewrite pretty_N_go_step by done.
  pose proof (N.mod_lt x 10 ltac:(lia)) as Hm. destruct (pretty_char_digit _ Hm) as (Hd&_).
  destruct (decide (x / 10 = 0)%N) as [Hq|Hq]; [rewrite Hq, pretty_N_go_0; eauto|].
  apply IH; [apply N.div_lt; lia|by apply N.neq_0_lt_0].
Qed.

Lemma ParseInt_pretty (z : Z) : in_int64 z -> ParseInt (pretty z) = Some z.
Proof.
  intros Hz. unfold ParseInt.
  assert (forall p s, parse_digits (pretty_N_go (N.pos p) s) 0 = parse_digits s (Z.pos p)) as Hp
    by (intros; apply parse_digits_pretty).
  assert ((MinInt64 <=? z) && (z <=? MaxInt64) = true) as Hr by (unfold in_int64 in Hz; lia).
  destruct z as [|p|p]; [done|..]; unfold pretty, pretty_Z; cbv beta iota;
    unfold pretty, pretty_positive, pretty, pretty_N; rewrite decide_False by done;
    destruct (pretty_N_go_digit (N.pos p) EmptyString ltac:(lia)) as (c&t&He&Hd); specialize (Hp p EmptyString).
  - rewrite He in *. assert (Ascii.eqb c "-" = false /\ Ascii.eqb c "+" = false) as [H1 H2].
    { revert Hd. destruct c as [[] [] [] [] [] [] [] []]; vm_compute; auto. }
    destruct t as [|c' t]; [|rewrite H1, H2]; rewrite Hp; cbn [mbind option_bind parse_digits]; by rewrite Hr.
  - rewrite He in *. cbn [String.append]. change (Ascii.eqb "-" "-") with true. cbv iota.
    rewrite Hp. cbn [mbind option_bind parse_digits]. change (- Z.pos p) with (Z.neg p). by rewrite Hr.
Qed.

(** ** [json.Unmarshal]

    How a value of each kind is stored, into a variable that holds [old]: [null]
    sets slices, pointers and maps to nil and leaves the rest alone, and so does
    a value of the wrong kind; the error is reported at the end, and decoding
    goes on. *)

Definition dec_string (old : string) (j : json) : string :=
  match j with JStr s => s | _ => old end.

Definition dec_int (old : Z) (j : json) : Z :=
  match j with JNum lit => default old (ParseInt lit) | _ => old end.

(** A slice: its elements and what its array still holds after them, or nil. *)
Definition gslice (A : Type) : Type := option (list A * list A).
Definition elements {A} (s : gslice A) : list A := match s with Some (l, _) => l | None => [] end.

(** The elements are stored over those the array holds already; an empty array
    makes a new slice. *)
Definition dec_slice {A} (zero : A) (d : A -> json -> A) (old : gslice A) (j : json) : gslice A :=
  match j with
  | JNull => None
  | JArr [] => Some ([], [])
  | JArr js =>
      let array := match old with Some (l, rest) => l ++ rest | None => [] end in
      Some (imap (fun i j => d (default zero (array !! i)) j) js, drop (length js) array)
  | _ => old
  end.

Definition dec_ptr {A} (zero : A) (d : A -> json -> A) (old : option A) (j : json) : option A :=
  match j with JNull => None | _ => Some (d (default zero old) j) end.

(** A map of strings; [None] is the nil map. *)
Definition dec_map (old : option (gmap string string)) (j : json) : option (gmap string string) :=
  match j with
  | JNull => None
  | JObj kvs => Some (foldl (fun m kv => <[kv.1 := dec_string EmptyString kv.2]> m) (default ∅ old) kvs)
  | _ => old
  end.

(** The fold of letters that field names are compared with: by case, and for s
    and k also U+017F and U+212A. *)
Definition fold_byte (c : ascii) : ascii :=
  let n := Ascii.nat_of_ascii c in if Nat.leb 65 n && Nat.leb n 90 then byte (n + 32) else c.

Fixpoint equal_fold (name key : string) : bool :=
  match name with
  | EmptyString => String.eqb key EmptyString
  | String.String n name =>
      match key with
      | EmptyString => false
      | String.String c key =>
          if Ascii.eqb (fold_byte n) (fold_byte c) then equal_fold name key
          else
            match key with
            | EmptyString => false
            | String.String c2 key =>
                if Ascii.eqb (fold_byte n) "s" && Ascii.eqb c (byte 197) && Ascii.eqb c2 (byte 191)
                then equal_fold name key
                else
                  match key with
                  | EmptyString => false
                  | String.String c3 key =>
                      if Ascii.eqb (fold_byte n) "k" && Ascii.eqb c (byte 226) && Ascii.eqb c2 (byte 132)
                         && Ascii.eqb c3 (byte 170)
                      then equal_fold name key else false
                  end
            end
      end
  end.

(** The field a key is stored in: the one with this name, or the first whose
    name is equal up to the fold. *)
Definition find_field {F} (fields : list (string * F)) (key : string) : option F :=
  match list_find (fun f => f.1 = key) fields with
  | Some (_, f) => Some f.2
  | None => snd <$> (snd <$> list_find (fun f => equal_fold f.1 key = true) fields)
  end.

Definition dec_struct {S} (fields : list (string * (S -> json -> S))) (old : S) (j : json) : S :=
  match j with
  | JObj kvs => foldl (fun s kv => match find_field fields kv.1 with Some f => f s kv.2 | None => s end) old kvs
  | _ => old
  end.

(** The variable after [json.Unmarshal]; nothing is stored when the text is not
    one value. *)
Definition Unmarshal {A} (d : A -> json -> A) (zero : A) (body : string) : A :=
  match parse_json body with Some j => d zero j | None => zero end.

(** ** [json.Unmarshal] with an error

    Where the caller drops the variable on an error, [None] stands for one, and
    what had been stored by then does not matter. These decoders read the text
    of a value ([parse_raw]), since some types of the program's answers have
    methods that are given it. *)
Definition decoder (A : Type) : Type := A -> json -> option A.

Definition try_string : decoder string := fun old j =>
  match j with JStr raw => Some (unquote raw) | JNull => Some old | _ => None end.

Definition try_slice {A} (zero : A) (d : decoder A) : decoder (gslice A) := fun old j =>
  match j with
  | JNull => Some None
  | JArr [] => Some (Some ([], []))
  | JArr js =>
      let array := match old with Some (l, rest) => l ++ rest | None => [] end in
      l ← mapM (fun ij => d (default zero (array !! ij.1)) ij.2) (imap pair js);
      Some (Some (l, drop (length js) array))
  | _ => None
  end.

Definition try_ptr {A} (zero : A) (d : decoder A) : decoder (option A) := fun old j =>
  match j with JNull => Some None | _ => Some <$> d (default zero old) j end.

Definition try_map : decoder (option (gmap string string)) := fun old j =>
  match j with
  | JNull => Some None
  | JObj kvs =>
      Some <$> foldl (fun m kv => m ← m; v ← try_string EmptyString kv.2; Some (<[unquote kv.1 := v]> m))
        (Some (default ∅ old)) kvs
  | _ => None
  end.

Definition try_struct {S} (fields : list (string * decoder S)) : decoder S := fun old j =>
  match j with
  | JNull => Some old
  | JObj kvs =>
      foldl (fun s kv =>
        s ← s;
        match find_field fields (unquote kv.1) with Some d => d s kv.2 | None => Some s end) (Some old) kvs
  | _ => None
  end.

Definition try_Unmarshal {A} (d : decoder A) (zero : A) (body : string) : option A :=
  j ← parse_raw body; d zero j.

(** What these decoders make of what was printed. *)
Definition raw_json : json -> json := map_strings escape.

Lemma try_Unmarshal_print {A} (d : decoder A) zero j :
  wf_json j = true -> try_Unmarshal d zero (print_json j) = d zero (raw_json j).
Proof. intros Hw. unfold try_Unmarshal, parse_raw. by rewrite parse_with_print. Qed.

(** A struct is stored member by member. *)
Lemma try_struct_member {S} (fields : list (string * decoder S)) old k j kvs d s :
  find_field fields k = Some d -> unquote (escape k) = k -> d old (raw_json j) = Some s ->
  try_struct fields old (raw_json (JObj ((k, j) :: kvs))) = try_struct fields s (raw_json (JObj kvs)).
Proof.
  intros Hf Hk Hd. unfold try_struct, raw_json. cbn [map_strings fmap list_fmap foldl fst snd mbind option_bind].
  fold raw_json. by rewrite Hk, Hf, Hd.
Qed.

Lemma try_slice_fresh {A B} (zero : A) (d : decoder A) (enc : B -> json) (val : B -> A) (l : list B) :
  (forall x, x ∈ l -> d zero (enc x) = Some (val x)) ->
  elements <$> try_slice zero d None (JArr (enc <$> l)) = Some (val <$> l).
Proof.
  intros Hd. destruct l as [|x l]; [done|]. unfold try_slice. change (enc <$> x :: l) with (enc x :: (enc <$> l)).
  cbv iota. change (enc x :: (enc <$> l)) with (enc <$> x :: l).
  assert (mapM (fun ij : nat * json => d (default zero ([] !! ij.1)) ij.2) (imap pair (enc <$> x :: l)) =
    Some (val <$> x :: l)) as ->; [|done].
  apply mapM_Some. apply Forall2_same_length_lookup. rewrite length_imap, !length_fmap. split; [done|].
  intros i [n j] y. rewrite list_lookup_imap, !list_lookup_fmap.
  destruct ((x :: l) !! i) as [z|] eqn:Hz; [|done]. intros [= <- <-] [= <-]. rewrite lookup_nil. cbn.
  apply Hd. by eapply list_elem_of_lookup_2.
Qed.

(** A map is stored entry by entry. *)
Lemma try_map_entries (f : string -> string) keys (m : gmap string string) :
  Forall (fun x => utf8_valid x = true /\ utf8_valid (f x) = true) keys ->
  exists m', foldl (fun m kv => m ← m; v ← try_string EmptyString kv.2; Some (<[unquote kv.1 := v]> m)) (Some m)
      ((fun k => (escape k, JStr (escape (f k)))) <$> keys) = Some m' /\
    forall k, m' !! k = if decide (k ∈ keys) then Some (f k) else m !! k.
Proof.
  intros Hu. revert m. induction Hu as [|x keys [Hx Hfx] Hu IH]; intros m; [by exists m|].
  cbn [fmap list_fmap foldl fst snd try_string mbind option_bind]. rewrite !unquote_escape, !sanitize_valid by done.
  destruct (IH (<[x := f x]> m)) as (m'&->&Hk). exists m'. split; [done|]. intros k. rewrite Hk.
  destruct (decide (k = x)) as [->|Hne].
  - rewrite lookup_insert_eq. repeat case_decide; set_solver.
  - rewrite lookup_insert_ne by done. repeat case_decide; set_solver.
Qed.

(** Decoding a fresh variable. *)
Lemma dec_slice_fresh {A} (zero : A) d js :
  elements (dec_slice zero d None (JArr js)) = d zero <$> js.
Proof.
  destruct js as [|j js]; [done|]. cbn [dec_slice elements].
  rewrite (imap_ext _ (fun _ j => d zero j)); [apply imap_const|]. intros i x _. by rewrite lookup_nil.
Qed.

(** A map is stored entry by entry. *)
Lemma dec_map_entries (f : string -> string) keys k (m : gmap string string) :
  foldl (fun m kv => <[kv.1 := dec_string EmptyString kv.2]> m) m ((fun k => (k, JStr (f k))) <$> keys) !! k =
    if decide (k ∈ keys) then Some (f k) else m !! k.
Proof.
  revert m. induction keys as [|x keys IH]; intros m; [done|]. cbn [fmap list_fmap foldl fst snd dec_string].
  rewrite IH. destruct (decide (k = x)) as [->|Hne].
  - rewrite lookup_insert_eq. repeat case_decide; set_solver.
  - rewrite lookup_insert_ne by done. repeat case_decide; set_solver.
Qed.
