(* ===== verification/ApiParse.v ===== *)
(** * Parameters and values of the HTTP API ([web/api/v1/api.go])

    The functions of the API that do not touch the outside world: the parsing of
    times, durations and label names, the hash of a digest, the removal of
    duplicates (which works in place) and the sorting of label values. Parsing
    numbers and RFC 3339 dates belongs to Go's [strconv] and [time] and is in the
    classes [StrconvLib] and [TimeLib]; the durations of the vendored
    [model.ParseDuration] are written out. *)
From S2P Require Import Prelude Model MetricPkg Relabel Queue.
Import Matcher.

Open Scope Z_scope.

(** [time_Parse] is [time.Parse] with the layout [RFC3339Nano], followed by
    [UnixNano]. [oob] is what a conversion to int64 out of range gives. *)
Class TimeLib := {
  time_Parse : string -> option Z;
  time_Parse_int64 s t : time_Parse s = Some t -> in_int64 t;
  oob : float64 -> Z;
  oob_int64 x : in_int64 (oob x)
}.

(** ** Times and durations *)

Section parse.
Context `{StrconvLib, TimeLib}.

(** [ts > float64(math.MaxInt64) || ts < float64(math.MinInt64)]. *)
Definition overflows_int64 (ts : float64) : bool :=
  f64_ltb (f64_of_Z MaxInt64) ts || f64_ltb ts (f64_of_Z MinInt64).

Definition parseTime (s : string) : error + Time :=
  match ParseFloat s with
  | Some t =>
      let ts := f64_mul t (f64_of_Z Second) in
      if overflows_int64 ts then
        inl ("cannot parse " +:+ Quote s +:+ " to a valid timestamp. It overflows int64")
      else inr (TimeFromUnixNano (f64_to_int64 oob ts))
  | None =>
      match time_Parse s with
      | Some t => inr (TimeFromUnixNano t)
      | None => inl ("cannot parse " +:+ Quote s +:+ " to a valid timestamp")
      end
  end.

(** The digits that start a string, as [Atoi] reads them, their number, and
    what follows: [durationRE] is ["^([0-9]+)(y|w|d|h|m|s|ms)$"]. *)
Fixpoint scan_digits (s : string) (n : Z) (count : nat) : Z * nat * string :=
  match s with
  | String.String b s' =>
      if is_digit b then scan_digits s' (10 * n + (Z.of_nat (Ascii.nat_of_ascii b) - 48)) (S count)
      else (n, count, s)
  | EmptyString => (n, count, s)
  end.

(** The factor of a unit, in milliseconds. *)
Definition unit_factor (unit : string) : option Z :=
  if String.eqb unit "y" then Some (1000 * 60 * 60 * 24 * 365)
  else if String.eqb unit "w" then Some (1000 * 60 * 60 * 24 * 7)
  else if String.eqb unit "d" then Some (1000 * 60 * 60 * 24)
  else if String.eqb unit "h" then Some (1000 * 60 * 60)
  else if String.eqb unit "m" then Some (1000 * 60)
  else if String.eqb unit "s" then Some 1000
  else if String.eqb unit "ms" then Some 1
  else None.

(** [model.ParseDuration]; [Atoi] gives the largest int when the number does not
    fit, and its error is ignored. *)
Definition ParseDuration (s : string) : error + Duration :=
  let '(n, count, unit) := scan_digits s 0 0 in
  match count, unit_factor unit with
  | S _, Some f =>
      let dur := int64 (Z.min n MaxInt64 * Millisecond) in
      inr (int64 (dur * f))
  | _, _ => inl ("not a valid duration string: " +:+ Quote s)
  end.

Definition parseDuration (s : string) : error + Duration :=
  match ParseFloat s with
  | Some d =>
      let ts := f64_mul d (f64_of_Z Second) in
      if overflows_int64 ts then
        inl ("cannot parse " +:+ Quote s +:+ " to a valid duration. It overflows int64")
      else inr (f64_to_int64 oob ts)
  | None =>
      match ParseDuration s with
      | inr d => inr d
      | inl _ => inl ("cannot parse " +:+ Quote s +:+ " to a valid duration")
      end
  end.

End parse.

(** [model.LabelNameRE]: ["^[a-zA-Z_][a-zA-Z0-9_]*$"]. *)
Fixpoint label_tail (s : string) : bool :=
  match s with
  | EmptyString => true
  | String.String b s => (is_alpha b || is_digit b) && label_tail s
  end.
Definition LabelNameRE_MatchString (s : string) : bool :=
  match s with EmptyString => false | String.String b s => is_alpha b && label_tail s end.

(** ** Duplicates and order *)

(** [removeDuplicate] appends to [data[:0]] while it ranges over [data]: both
    are the array [arr]. [k] is the length of [data], [i] the index of the
    range, whose length was fixed when it started. *)
Fixpoint removeDuplicate_loop (fuel i : nat) (arr : list LabelValue) (k : nat)
    (seen : list LabelValue) : list LabelValue * nat :=
  match fuel with
  | O => (arr, k)
  | S fuel =>
      match arr !! i with
      | None => (arr, k)
      | Some n =>
          let k := if Nat.eqb i 0 then 0%nat else k in
          if existsb (String.eqb n) seen then removeDuplicate_loop fuel (S i) arr k seen
          else removeDuplicate_loop fuel (S i) (<[k := n]> arr) (S k) (seen ++ [n])
      end
  end.

Definition removeDuplicate (data : list LabelValue) : list LabelValue :=
  let '(arr, k) := removeDuplicate_loop (length data) 0 data (length data) [] in take k arr.

(** [sort.Sort] of label values, which are ordered as strings. *)
Definition sort_values (data : list LabelValue) : list LabelValue := merge_sort String.le data.

(** [sum64] of this file, over the 16 bytes of an md5 digest. *)
Fixpoint api_sum64_loop (i : nat) (hash : list Z) (s : Z) : Z :=
  match hash with
  | [] => s
  | b :: hash =>
      let shift := uint64 ((16 - Z.of_nat i - 1) * 8) in
      api_sum64_loop (S i) hash (Z.lor s (if shift <? 64 then uint64 (Z.shiftl b shift) else 0))
  end.
Definition api_sum64 (hash : list Z) : Z := api_sum64_loop 0 hash 0.

(** ** Conversion of doubles *)

(** The doubles [x] with a canonical mantissa and exponent: all that the
    operations of the hardware produce. *)
Definition f64_valid (x : float64) : Prop := SpecFloat.valid_binary 53 1024 x = true.

Lemma digits2_pos_bound m : Z.pos m < 2 ^ Z.pos (SpecFloat.digits2_pos m).
Proof.
  induction m as [m IH|m IH|]; cbn [SpecFloat.digits2_pos]; [| |done];
    rewrite Pos2Z.inj_succ, Z.pow_succ_r by lia; lia.
Qed.

Lemma digits2_pos_bound_l m : 2 ^ (Z.pos (SpecFloat.digits2_pos m) - 1) <= Z.pos m.
Proof.
  induction m as [m IH|m IH|]; cbn [SpecFloat.digits2_pos]; [| |done];
    rewrite Pos2Z.inj_succ; replace (Z.succ (Z.pos (SpecFloat.digits2_pos m)) - 1)
      with (Z.succ (Z.pos (SpecFloat.digits2_pos m) - 1)) by lia;
    rewrite Z.pow_succ_r by lia; lia.
Qed.

(** The absolute value of a finite double, truncated. *)
Definition mag (m : positive) (e : Z) : Z :=
  if 0 <=? e then Z.shiftl (Z.pos m) e else Z.shiftr (Z.pos m) (- e).

(** How a valid double compares with [2^63], whose mantissa is [2^52]. *)
Lemma compare_two63 m e :
  SpecFloat.bounded 53 1024 m e = true ->
  match Z.compare e 11 with
  | Lt => 0 <= mag m e < 2 ^ 63
  | Eq => mag m e = Z.pos m * 2 ^ 11 /\ 2 ^ 52 <= Z.pos m
  | Gt => True
  end.
Proof.
  intros [Hc _]%andb_prop. unfold SpecFloat.canonical_mantissa in Hc. apply Z.eqb_eq in Hc.
  unfold SpecFloat.fexp, SpecFloat.emin in Hc.
  pose proof (digits2_pos_bound m) as Hb. pose proof (digits2_pos_bound_l m) as Hl.
  set (d := Z.pos (SpecFloat.digits2_pos m)) in *. unfold mag.
  destruct (Z.compare_spec e 11) as [->|He|He]; [|split|done].
  - assert (d = 53) as Hd by lia. rewrite Hd in Hl. rewrite Z.shiftl_mul_pow2 by lia. split; [done|lia].
  - destruct (Z.leb_spec 0 e); [apply Z.shiftl_nonneg; lia|apply Z.shiftr_nonneg; lia].
  - assert (Z.pos m < 2 ^ 53) as Hm.
    { eapply Z.lt_le_trans; [exact Hb|]. apply Z.pow_le_mono_r; lia. }
    destruct (Z.leb_spec 0 e) as [H0|H0].
    + rewrite Z.shiftl_mul_pow2 by lia. apply Z.lt_le_trans with (2 ^ 53 * 2 ^ e).
      * apply Z.mul_lt_mono_pos_r; [apply Z.pow_pos_nonneg; lia|done].
      * rewrite <- Z.pow_add_r by lia. apply Z.pow_le_mono_r; lia.
    + rewrite Z.shiftr_div_pow2 by lia.
      apply Z.le_lt_trans with (Z.pos m); [|lia].
      apply Z.div_le_upper_bound; [apply Z.pow_pos_nonneg; lia|].
      pose proof (Z.pow_pos_nonneg 2 (- e) ltac:(lia) ltac:(lia)). nia.
Qed.

Definition two52 : positive := 4503599627370496.
Definition f64_two63 : float64 := S754_finite false two52 11.

Lemma f64_MaxInt64 : f64_of_Z MaxInt64 = f64_two63.
Proof. vm_compute. reflexivity. Qed.
Lemma f64_MinInt64 : f64_of_Z MinInt64 = S754_finite true two52 11.
Proof. vm_compute. reflexivity. Qed.

(** The two comparisons, on a finite double. *)
Lemma overflows_finite s m e :
  overflows_int64 (S754_finite s m e) =
    match Z.compare e 11 with Lt => false | Gt => true | Eq => Pos.ltb two52 m end.
Proof.
  unfold overflows_int64. rewrite f64_MaxInt64, f64_MinInt64. unfold f64_two63.
  generalize two52. intros p. unfold f64_ltb, SFltb. cbn [SFcompare].
  change (Pos.compare_cont Eq p m) with (Pos.compare p m).
  change (Pos.compare_cont Eq m p) with (Pos.compare m p). unfold Pos.ltb.
  pose proof (Z.compare_antisym e 11) as He. pose proof (Pos.compare_antisym m p) as Hm.
  rewrite He, Hm. destruct s, (Z.compare e 11), (Pos.compare m p); reflexivity.
Qed.

Lemma f64_trunc_finite s m e :
  f64_trunc (S754_finite s m e) = Some (if s then - mag m e else mag m e).
Proof. done. Qed.

(** The test of the parsers is exact but for NaN and [2^63], which it lets
    through. *)
Lemma overflows_int64_spec x :
  f64_valid x ->
  if overflows_int64 x then
    match f64_trunc x with Some z => ~ in_int64 z | None => x <> S754_nan end
  else
    x = S754_nan \/ x = f64_two63 \/ exists z, f64_trunc x = Some z /\ in_int64 z.
Proof.
  intros Hv. unfold in_int64, MinInt64, MaxInt64.
  destruct x as [s|s| |s m e].
  - right. right. exists 0. split; [done|lia].
  - assert (overflows_int64 (S754_infinity s) = true) as -> by (destruct s; vm_compute; reflexivity). done.
  - assert (overflows_int64 S754_nan = false) as -> by (vm_compute; reflexivity). by left.
  - rewrite overflows_finite, f64_trunc_finite. pose proof (compare_two63 m e Hv) as Hc.
    destruct (Z.compare_spec e 11) as [->|He|He].
    + destruct Hc as [-> Hm]. change (2 ^ 52) with (Z.pos two52) in Hm.
      assert (Z.pos two52 * 2 ^ 11 = 9223372036854775808) as H63 by reflexivity.
      destruct (Pos.ltb_spec two52 m) as [Hl|Hl].
      * assert (Z.pos two52 + 1 <= Z.pos m) as Hl' by (clear - Hl; lia).
        clear Hm Hl Hv. set (p := Z.pos two52) in *. clearbody p. destruct s; lia.
      * assert (m = two52) as -> by (apply Pos.le_antisym; [exact Hl|exact Hm]).
        destruct s; [|by right; left]. right. right. eexists. split; [done|].
        rewrite H63. clear. lia.
    + right. right. eexists. split; [done|]. destruct s; lia.
    + unfold mag. destruct (Z.leb_spec 0 e); [|lia]. rewrite Z.shiftl_mul_pow2 by lia.
      assert (2 ^ 52 <= Z.pos m) as Hm.
      { unfold f64_valid in Hv. cbn [SpecFloat.valid_binary] in Hv.
        apply andb_prop in Hv as [Hv _]. apply Z.eqb_eq in Hv.
        unfold SpecFloat.fexp, SpecFloat.emin in Hv. pose proof (digits2_pos_bound_l m) as Hl.
        assert (Z.pos (SpecFloat.digits2_pos m) = 53) as Hd by lia. rewrite Hd in Hl. lia. }
      assert (2 ^ 12 <= 2 ^ e) by (apply Z.pow_le_mono_r; lia).
      assert (2 ^ 52 * 2 ^ 12 <= Z.pos m * 2 ^ e) as Hp by (apply Z.mul_le_mono_nonneg; lia).
      change (2 ^ 52 * 2 ^ 12) with (18446744073709551616) in Hp. clear Hm. destruct s; lia.
Qed.

Section parse_theorems.
Context `{StrconvLib, TimeLib}.

(** What a number of seconds parses to, in nanoseconds. *)
Definition seconds_ns (t : float64) : float64 := f64_mul t (f64_of_Z Second).

Lemma f64_to_int64_range x : in_int64 (f64_to_int64 oob x).
Proof.
  unfold f64_to_int64. pose proof (oob_int64 x) as Ho. destruct (f64_trunc x) as [z|]; [|done].
  destruct (_ && _) eqn:Hz; [|done]. apply andb_prop in Hz as [Hl%Z.leb_le Hu%Z.leb_le].
  by unfold in_int64.
Qed.

(** The three cases of the conversion both parsers make. *)
Lemma seconds_ns_spec t :
  f64_valid (seconds_ns t) ->
  let ts := seconds_ns t in
  (exists z, f64_trunc ts = Some z /\ in_int64 z /\ overflows_int64 ts = false /\ f64_to_int64 oob ts = z) \/
  (overflows_int64 ts = true /\ match f64_trunc ts with Some z => ~ in_int64 z | None => ts <> S754_nan end) \/
  ((ts = S754_nan \/ ts = f64_two63) /\ overflows_int64 ts = false /\ f64_to_int64 oob ts = oob ts).
Proof.
  intros Hv ts. pose proof (overflows_int64_spec ts Hv) as Ho. destruct (overflows_int64 ts).
  - by right; left.
  - destruct Ho as [Hn|[H63|(z&Hz&Hin)]].
    + right; right. split; [by left|]. split; [done|]. by rewrite Hn.
    + right; right. split; [by right|]. split; [done|]. rewrite H63. vm_compute. reflexivity.
    + left. exists z. split_ands; try done. unfold f64_to_int64. rewrite Hz.
      unfold in_int64 in Hin. rewrite (proj2 (Z.leb_le _ _)), (proj2 (Z.leb_le _ _)) by lia. done.
Qed.

(** Accepted times and durations are far from the ends of an int64, or in it. *)
Lemma parseTime_range s t : parseTime s = inr t -> -9223372036854 <= t <= 9223372036854.
Proof.
  assert (forall z, in_int64 z -> -9223372036854 <= Z.quot z 1000000 <= 9223372036854) as Hq.
  { unfold in_int64, MinInt64, MaxInt64. intros z Hz. Z.to_euclidean_division_equations; lia. }
  unfold parseTime. destruct (ParseFloat s) as [x|].
  - destruct (overflows_int64 _); [done|]. intros [= <-]. apply Hq, f64_to_int64_range.
  - destruct (time_Parse s) as [x|] eqn:Ht; [|done]. intros [= <-]. by apply Hq, (time_Parse_int64 s).
Qed.

Lemma parseDuration_range s d : parseDuration s = inr d -> in_int64 d.
Proof.
  unfold parseDuration. destruct (ParseFloat s) as [t|].
  - destruct (overflows_int64 _); [done|]. intros [= <-]. apply f64_to_int64_range.
  - unfold ParseDuration. destruct (scan_digits s 0 0) as [[n [|c]] u]; [done|].
    destruct (unit_factor u); [|done]. intros [= <-]. apply int64_range.
Qed.

(** C36: parseTime and parseDuration. A string that is a number of seconds whose
    product with 10^9 is an int64, once truncated, is accepted and gives that
    number of nanoseconds, for a time truncated to milliseconds. Two products
    that are no int64 slip through the range test and are accepted too: NaN, and
    2^63, which float64(MaxInt64) is rounded to; what they give is up to the
    machine. Every other product, the infinities included, is rejected. Strings
    that are no number go through RFC 3339 or the duration syntax, or are
    rejected. Every accepted duration is an int64, and every accepted time is at
    most 9223372036854 milliseconds from the epoch. *)
Theorem parse_numbers_correct (s : string) :
  (forall t, ParseFloat s = Some t -> f64_valid (seconds_ns t) ->
     let ts := seconds_ns t in
     (exists z, f64_trunc ts = Some z /\ in_int64 z /\
        parseTime s = inr (Z.quot z 1000000) /\ parseDuration s = inr z) \/
     (match f64_trunc ts with Some z => ~ in_int64 z | None => ts <> S754_nan end /\
        ts <> f64_two63 /\
        (exists e, parseTime s = inl e) /\ (exists e, parseDuration s = inl e)) \/
     ((ts = S754_nan \/ ts = f64_two63) /\
        parseTime s = inr (Z.quot (oob ts) 1000000) /\ parseDuration s = inr (oob ts))) /\
  (ParseFloat s = None ->
     (forall t, time_Parse s = Some t -> parseTime s = inr (Z.quot t 1000000)) /\
     (time_Parse s = None -> exists e, parseTime s = inl e) /\
     (forall d, ParseDuration s = inr d -> parseDuration s = inr d) /\
     (forall e, ParseDuration s = inl e -> exists e', parseDuration s = inl e')) /\
  (forall t, parseTime s = inr t -> -9223372036854 <= t <= 9223372036854) /\
  (forall d, parseDuration s = inr d -> in_int64 d).
Proof.
  split_ands; [| |by apply parseTime_range|by apply parseDuration_range]; unfold parseTime, parseDuration.
  - intros t -> Hv. cbv zeta. fold (seconds_ns t).
    destruct (seconds_ns_spec t Hv) as [(z&Hz&Hin&Ho&Hi)|[[Ho Hn]|(Hs&Ho&Hi)]]; rewrite Ho.
    + left. exists z. by rewrite Hi.
    + right. left. split_ands; [done|intros Heq; by rewrite Heq in Ho|by eexists..].
    + right. right. by rewrite Hi.
  - intros ->. split_ands.
    + by intros t ->.
    + intros ->. by eexists.
    + by intros d ->.
    + intros e ->. by eexists.
Qed.

End parse_theorems.

(** ** Label names *)

(** The vendored comment promises that [IsValid] and the regular expression
    agree. *)
Lemma LabelNameRE_IsValid (s : string) : LabelNameRE_MatchString s = IsValid s.
Proof.
  assert (forall s, IsValid_loop false s = label_tail s) as Htail.
  { clear s. induction s as [|b s IH]; [done|]. cbn [IsValid_loop label_tail negb].
    rewrite andb_true_r, IH. by destruct (is_alpha b || is_digit b). }
  destruct s as [|b s]; [done|]. unfold IsValid. cbn [LabelNameRE_MatchString IsValid_loop negb].
  rewrite andb_false_r, orb_false_r, Htail. by destruct (is_alpha b).
Qed.

(** ** Duplicates *)

(** The first occurrences, in order. *)
Fixpoint first_occurrences (l seen : list LabelValue) : list LabelValue :=
  match l with
  | [] => []
  | x :: l => if decide (x ∈ seen) then first_occurrences l seen
              else x :: first_occurrences l (seen ++ [x])
  end.

Lemma existsb_eqb_elem n (seen : list LabelValue) : existsb (String.eqb n) seen = bool_decide (n ∈ seen).
Proof.
  apply Bool.eq_iff_eq_true. rewrite bool_decide_eq_true, existsb_exists. split.
  - intros (x&Hx&->%String.eqb_eq). by apply list_elem_of_In.
  - intros Hn. exists n. split; [by apply list_elem_of_In|apply String.eqb_refl].
Qed.

(** The loop never overwrites what it has yet to read. *)
Lemma removeDuplicate_loop_spec fuel i arr k seen :
  (k <= i)%nat -> length arr = (i + fuel)%nat -> (i = 0%nat -> seen = []) ->
  let k0 := if Nat.eqb i 0 then 0%nat else k in
  let '(arr', k') := removeDuplicate_loop fuel i arr k seen in
  (fuel = 0%nat -> k' = k /\ arr' = arr) /\
  (fuel <> 0%nat -> take k' arr' = take k0 arr ++ first_occurrences (drop i arr) seen).
Proof.
  revert i arr k seen. induction fuel as [|fuel IH]; intros i arr k seen Hk Hlen Hseen; cbn [removeDuplicate_loop].
  { done. }
  assert (is_Some (arr !! i)) as [n Hn] by (apply lookup_lt_is_Some; lia). rewrite Hn. cbv zeta.
  set (k0 := if Nat.eqb i 0 then 0%nat else k).
  assert (k0 <= i)%nat as Hk0 by (unfold k0; destruct (Nat.eqb i 0); lia).
  rewrite (drop_S _ _ _ Hn). cbn [first_occurrences]. rewrite existsb_eqb_elem.
  destruct (decide (n ∈ seen)) as [Hin|Hin].
  - rewrite bool_decide_eq_true_2 by done. 
    assert (i <> 0%nat) as Hi by (intros ->; rewrite Hseen in Hin by done; by apply elem_of_nil in Hin).
    specialize (IH (S i) arr k0 seen ltac:(lia) ltac:(lia) ltac:(lia)).
    destruct (removeDuplicate_loop fuel (S i) arr k0 seen) as [arr' k'] eqn:Hr.
    destruct IH as [IH0 IH]. split; [done|]. intros _. destruct fuel as [|fuel].
    + destruct (IH0 eq_refl) as [-> ->]. rewrite drop_ge by lia. by rewrite app_nil_r.
    + rewrite IH by done. done.
  - rewrite bool_decide_eq_false_2 by done.
    specialize (IH (S i) (<[k0 := n]> arr) (S k0) (seen ++ [n]) ltac:(lia)
      ltac:(rewrite length_insert; lia) ltac:(lia)).
    destruct (removeDuplicate_loop fuel (S i) (<[k0 := n]> arr) (S k0) (seen ++ [n])) as [arr' k'] eqn:Hr.
    destruct IH as [IH0 IH]. split; [done|]. intros _.
    assert (take (S k0) (<[k0 := n]> arr) = take k0 arr ++ [n]) as Htake.
    { rewrite (take_S_r _ _ n) by (apply list_lookup_insert_eq; lia). f_equal.
      by rewrite take_insert_ge. }
    destruct fuel as [|fuel].
    + destruct (IH0 eq_refl) as [-> ->]. rewrite Htake. by rewrite drop_ge by lia.
    + rewrite IH by done. cbn [Nat.eqb]. rewrite Htake, drop_insert_lt by lia.
      by rewrite <- app_assoc.
Qed.

Lemma first_occurrences_elem l seen x :
  x ∈ first_occurrences l seen <-> x ∈ l /\ x ∉ seen.
Proof.
  revert seen. induction l as [|y l IH]; intros seen; cbn [first_occurrences]; [set_solver|].
  case_decide as Hy; rewrite ?elem_of_cons, IH, ?elem_of_cons, ?elem_of_app, ?list_elem_of_singleton.
  - naive_solver.
  - destruct (decide (x = y)) as [->|]; naive_solver.
Qed.

Lemma first_occurrences_NoDup l seen : NoDup (first_occurrences l seen).
Proof.
  revert seen. induction l as [|y l IH]; intros seen; cbn [first_occurrences]; [constructor|].
  case_decide; [done|]. constructor; [|done]. rewrite first_occurrences_elem, elem_of_app.
  rewrite list_elem_of_singleton. tauto.
Qed.

Lemma removeDuplicate_first data : removeDuplicate data = first_occurrences data [].
Proof.
  unfold removeDuplicate. destruct data as [|x data]; [done|].
  pose proof (removeDuplicate_loop_spec (length (x :: data)) 0 (x :: data) 0 []
    ltac:(lia) eq_refl ltac:(done)) as Hs.
  change (removeDuplicate_loop (length (x :: data)) 0 (x :: data) (length (x :: data)) [])
    with (removeDuplicate_loop (length (x :: data)) 0 (x :: data) 0 []).
  destruct (removeDuplicate_loop _ _ _ _ _) as [arr k]. by apply Hs.
Qed.

(** The lists of strings without duplicates, in increasing order, are
    determined by their elements. *)
Lemma sorted_values_unique (l k : list LabelValue) :
  StronglySorted String.le l -> StronglySorted String.le k -> NoDup l -> NoDup k ->
  (forall x, x ∈ l <-> x ∈ k) -> l = k.
Proof.
  intros Hl Hk Hnl Hnk Hx. apply (StronglySorted_unique String.le); [done..|].
  by apply NoDup_Permutation.
Qed.

Lemma sort_values_spec l : StronglySorted String.le (sort_values l) /\ sort_values l ≡ₚ l.
Proof.
  split; [apply Sorted_StronglySorted, Sorted_merge_sort; apply _|apply merge_sort_Permutation].
Qed.

Lemma removeDuplicate_spec data :
  NoDup (removeDuplicate data) /\ (forall x, x ∈ removeDuplicate data <-> x ∈ data).
Proof.
  rewrite removeDuplicate_first. split; [apply first_occurrences_NoDup|].
  intros x. rewrite first_occurrences_elem. set_solver.
Qed.

(** RemoveDuplicate, which writes into the array it ranges over, keeps the
    first occurrence of every value, in order, so it has no duplicates and the
    same values; sorting then gives the only increasing list of these values. *)
Theorem removeDuplicate_correct (data : list LabelValue) :
  removeDuplicate data = first_occurrences data [] /\
  NoDup (removeDuplicate data) /\ (forall x, x ∈ removeDuplicate data <-> x ∈ data) /\
  (forall l, StronglySorted String.le l -> NoDup l -> (forall x, x ∈ l <-> x ∈ data) ->
     sort_values (removeDuplicate data) = l).
Proof.
  split; [apply removeDuplicate_first|]. destruct (removeDuplicate_spec data) as [Hnd Hx].
  split; [done|]. split; [done|]. intros l Hl Hn Hel.
  destruct (sort_values_spec (removeDuplicate data)) as [Hs Hp].
  apply sorted_values_unique; try done; [by rewrite Hp|].
  intros x. by rewrite Hp, Hx, Hel.
Qed.

(** ** Digests *)

Definition be_value (l : list Z) : Z := foldl (fun acc b => 256 * acc + b) 0 l.
Definition is_byte (b : Z) : Prop := 0 <= b < 256.

Lemma lor_shifted a b j :
  0 <= j -> is_byte b -> 0 <= a ->
  Z.lor (a * 2 ^ (8 * (j + 1))) (Z.shiftl b (8 * j)) = (256 * a + b) * 2 ^ (8 * j).
Proof.
  intros Hj Hb Ha. unfold is_byte in Hb.
  replace (8 * (j + 1)) with (8 + 8 * j) by lia. rewrite Z.pow_add_r, Z.mul_assoc by lia.
  rewrite <- (Z.shiftl_mul_pow2 (a * 2 ^ 8)), <- Z.shiftl_lor, Z.shiftl_mul_pow2 by lia. f_equal.
  rewrite <- (Z.shiftl_mul_pow2 a 8) by lia.
  assert (Z.land (Z.shiftl a 8) b = 0) as Hl.
  { apply Z.bits_inj'. intros n Hn. rewrite Z.land_spec, Z.bits_0.
    destruct (Z.ltb_spec n 8) as [Hn8|Hn8].
    - by rewrite Z.shiftl_spec_low.
    - rewrite (Z.bits_above_log2 b), andb_false_r; [done|lia|].
      destruct (Z.eq_dec b 0) as [->|]; [simpl; lia|]. apply Z.lt_le_trans with 8; [|lia].
      apply Z.log2_lt_pow2; lia. }
  rewrite <- Z.lxor_lor, <- Z.add_nocarry_lxor by done. rewrite Z.shiftl_mul_pow2 by lia. lia.
Qed.

Lemma be_value_bound l : Forall is_byte l -> 0 <= be_value l < 256 ^ Z.of_nat (length l).
Proof.
  induction l as [|b l IH] using rev_ind; intros Hl; [done|].
  apply Forall_app in Hl as [Hl Hb]. apply Forall_cons in Hb as [Hb _]. unfold is_byte in Hb.
  unfold be_value in *. rewrite foldl_app, length_app. cbn [foldl length].
  rewrite Nat2Z.inj_add, Z.pow_add_r by lia. specialize (IH Hl). change (256 ^ Z.of_nat 1) with 256. lia.
Qed.

(** From the ninth byte on nothing is shifted out. *)
Lemma api_sum64_tail l i done_ :
  (i + length l = 16)%nat -> (8 <= i)%nat -> length done_ = (i - 8)%nat ->
  Forall is_byte (done_ ++ l) ->
  api_sum64_loop i l (be_value done_ * 2 ^ (8 * (16 - Z.of_nat i))) = be_value (done_ ++ l).
Proof.
  revert i done_. induction l as [|b l IH]; intros i d Hi H8 Hd Hb; cbn [api_sum64_loop length] in *.
  { replace (16 - Z.of_nat i) with 0 by lia. by rewrite app_nil_r, Z.mul_1_r. }
  pose proof Hb as [Hbd Hbl]%Forall_app. apply Forall_cons in Hbl as [Hbb Hbl].
  rewrite (uint64_id ((16 - Z.of_nat i - 1) * 8)) by (unfold in_uint64, two64; lia).
  destruct (Z.ltb_spec ((16 - Z.of_nat i - 1) * 8) 64) as [Hs|]; [|lia].
  set (j := 16 - Z.of_nat i - 1). replace (16 - Z.of_nat i) with (j + 1) by lia.
  replace (j * 8) with (8 * j) by lia.
  pose proof (be_value_bound d Hbd) as Hd'.
  assert (in_uint64 (Z.shiftl b (8 * j))) as Hu.
  { unfold in_uint64, two64, is_byte in *. rewrite Z.shiftl_mul_pow2 by lia.
    assert (2 ^ (8 * j) <= 2 ^ 56) by (apply Z.pow_le_mono_r; lia).
    assert (0 < 2 ^ (8 * j)) by (apply Z.pow_pos_nonneg; lia). nia. }
  rewrite (uint64_id _ Hu), lor_shifted by (lia || done || apply Hbb).
  assert (256 * be_value d + b = be_value (d ++ [b])) as -> by (unfold be_value; by rewrite foldl_app).
  replace (8 * j) with (8 * (16 - Z.of_nat (S i))) by lia.
  rewrite IH; [by rewrite <- app_assoc|lia|lia|rewrite length_app; simpl; lia|by rewrite <- app_assoc].
Qed.

(** The shift count of a byte of the first half is 64 or more, which gives zero
    in Go: [sum64] is the number its last eight bytes are, most significant
    first. *)
Theorem api_sum64_correct (hash : list Z) :
  length hash = 16%nat -> Forall is_byte hash ->
  api_sum64 hash = be_value (drop 8 hash) /\ api_sum64 hash = sum64 hash /\ in_uint64 (api_sum64 hash).
Proof.
  intros Hlen Hb. assert (api_sum64 hash = be_value (drop 8 hash)) as Heq.
  { destruct hash as [|b0 [|b1 [|b2 [|b3 [|b4 [|b5 [|b6 [|b7 tl]]]]]]]]; try discriminate Hlen.
    unfold api_sum64. change (api_sum64_loop 0 (b0 :: b1 :: b2 :: b3 :: b4 :: b5 :: b6 :: b7 :: tl) 0)
      with (api_sum64_loop 8 tl 0).
    apply (api_sum64_tail tl 8 []); [simpl in Hlen; lia|lia|done|].
    repeat (apply Forall_cons in Hb as [_ Hb]). done. }
  split; [done|]. split; [done|]. rewrite Heq.
  pose proof (be_value_bound (drop 8 hash) ltac:(by apply Forall_drop)) as Hv.
  rewrite length_drop, Hlen in Hv. unfold in_uint64, two64. exact Hv.
Qed.

(** ** A concrete time library, for examples *)

Module LiteralTime.

#[export] Instance literal_time : TimeLib.
Proof.
  refine {| time_Parse _ := None; oob _ := MinInt64 |}.
  - abstract done.
  - abstract (intros; unfold in_int64, MinInt64, MaxInt64; lia).
Defined.

End LiteralTime.

Section parse_examples.
Import LiteralTime.
#[local] Instance plain_quote : StrconvLib := {| Quote s := s; ParseFloat := LiteralRegexp.parse_literal |}.

Example parse_some :
  parseTime "1500000000" = inr 1500000000000 /\ parseDuration "5m" = inr (300 * Second) /\
  parseTime "9223372036" = inr 9223372036000 /\ parseDuration "90" = inr (90 * Second) /\
  parseDuration "m5" = inl "cannot parse m5 to a valid duration" /\
  parseTime "NaN" = inr (-9223372036854) /\
  parseTime "9223372037" = inl "cannot parse 9223372037 to a valid timestamp. It overflows int64".
Proof. vm_compute. done. Qed.

Example duplicates :
  sort_values (removeDuplicate ["b"; "a"; "b"; "c"; "a"]) = ["a"; "b"; "c"].
Proof. vm_compute. done. Qed.

End parse_examples.
