(* ===== verification/Types.v ===== *)
(** * The answers of the API as Go values ([web/api/v1/types.go])

    The structs that the handlers decode the answers of the targets into, with
    the JSON fields of their tags, and what [json.Marshal] makes of the values
    the handlers return. The [Target] of the answers of [/targets] is decoded by
    methods of vendored types and of [time.Time], and stays a parameter (in
    Api.v); it is encoded here. *)
From stdpp Require Import pretty.
From S2P Require Import Prelude Model Target Json ApiParse.

Open Scope Z_scope.

(** ** What is decoded *)

Record labalVals := mkLabalVals { lv_Status : string; lv_Data : gslice LabelValue }.

Definition dec_labalVals : labalVals -> json -> labalVals := dec_struct [
  ("status", fun v j => mkLabalVals (dec_string (lv_Status v) j) (lv_Data v));
  ("data", fun v j => mkLabalVals (lv_Status v) (dec_slice EmptyString dec_string (lv_Data v) j))].

(** [var res *labalVals]: nil until a value other than null is decoded. *)
Definition unmarshal_labalVals : string -> option labalVals :=
  Unmarshal (dec_ptr (mkLabalVals EmptyString None) dec_labalVals) None.

Record seriesVals := mkSeriesVals { sv_Data : gslice (option Metric); sv_Status : string }.

Definition dec_seriesVals : seriesVals -> json -> seriesVals := dec_struct [
  ("data", fun v j => mkSeriesVals (dec_slice None dec_map (sv_Data v) j) (sv_Status v));
  ("status", fun v j => mkSeriesVals (sv_Data v) (dec_string (sv_Status v) j))].

Definition unmarshal_seriesVals : string -> seriesVals :=
  Unmarshal dec_seriesVals (mkSeriesVals None EmptyString).

(** Its [Data] has the one field [NumDeleted]. *)
Record seriesDelVals := mkSeriesDelVals { sd_Status : string; sd_NumDeleted : Z }.

Definition dec_seriesDelVals : seriesDelVals -> json -> seriesDelVals := dec_struct [
  ("status", fun v j => mkSeriesDelVals (dec_string (sd_Status v) j) (sd_NumDeleted v));
  ("data", fun v j =>
     mkSeriesDelVals (sd_Status v) (dec_struct [("numDeleted", dec_int)] (sd_NumDeleted v) j))].

Definition unmarshal_seriesDelVals : string -> seriesDelVals :=
  Unmarshal dec_seriesDelVals (mkSeriesDelVals EmptyString 0).

Record AlertmanagerTarget := mkAlertmanagerTarget { am_URL : string }.
Record AlertmanagerDiscovery := mkAlertmanagerDiscovery {
  ActiveAlertmanagers : gslice (option AlertmanagerTarget)
}.
Record alertManagerVals := mkAlertManagerVals { av_Data : AlertmanagerDiscovery; av_Status : string }.

Definition dec_AlertmanagerTarget : AlertmanagerTarget -> json -> AlertmanagerTarget := dec_struct [
  ("url", fun v j => mkAlertmanagerTarget (dec_string (am_URL v) j))].

(** The embedded struct's field is a field of [data]. *)
Definition dec_AlertmanagerDiscovery : AlertmanagerDiscovery -> json -> AlertmanagerDiscovery := dec_struct [
  ("activeAlertmanagers", fun v j => mkAlertmanagerDiscovery
     (dec_slice None (dec_ptr (mkAlertmanagerTarget EmptyString) dec_AlertmanagerTarget)
        (ActiveAlertmanagers v) j))].

Definition dec_alertManagerVals : alertManagerVals -> json -> alertManagerVals := dec_struct [
  ("data", fun v j => mkAlertManagerVals (dec_AlertmanagerDiscovery (av_Data v) j) (av_Status v));
  ("status", fun v j => mkAlertManagerVals (av_Data v) (dec_string (av_Status v) j))].

Definition unmarshal_alertManagerVals : string -> alertManagerVals :=
  Unmarshal dec_alertManagerVals (mkAlertManagerVals (mkAlertmanagerDiscovery None) EmptyString).

(** [Target]; a label set may be nil. *)
Record ApiTarget := mkApiTarget {
  at_discoveredLabels : option LabelSet;
  at_labels : option LabelSet;
  at_scrapeURL : string;
  at_lastError : string;
  at_lastScrape : Z;
  at_health : string
}.

(** [matrix] and its [value]; the pointers of the slice are dereferenced. *)
Definition matrix : Type := list (option SampleStream).

Fixpoint matrix_value (mat : matrix) : outcome Matrix :=
  match mat with
  | [] => Ret []
  | None :: _ => Panic PanicNilDeref
  | Some ss :: mat =>
      rest ← matrix_value mat; Ret (mkSampleStream (SSMetric ss) (SSValues ss) :: rest)
  end.

(** ** What is encoded *)

(** A map with string keys, in the order of the keys; nil is null. *)
Definition enc_map (m : option (gmap string string)) : json :=
  match m with
  | None => JNull
  | Some m => JObj ((fun k => (k, JStr (default EmptyString (m !! k)))) <$> sort_values (map_to_list m).*1)
  end.

Definition enc_int (n : Z) : json := JNum (pretty n).

(** A slice that [append] has filled, or not: it is nil when nothing was. *)
Definition enc_appended {A} (enc : A -> json) (l : list A) : json :=
  match l with [] => JNull | _ => JArr (enc <$> l) end.

Definition enc_AlertmanagerTarget (t : option AlertmanagerTarget) : json :=
  match t with None => JNull | Some t => JObj [("url", JStr (am_URL t))] end.

(** [time] is what the [MarshalJSON] of [time.Time] makes of the last scrape. *)
Definition enc_Target (time : Z -> option string) (t : option ApiTarget) : option json :=
  match t with
  | None => Some JNull
  | Some t =>
      lastScrape ← time (at_lastScrape t);
      Some (JObj [
        ("discoveredLabels", enc_map (at_discoveredLabels t));
        ("labels", enc_map (at_labels t));
        ("scrapeUrl", JStr (at_scrapeURL t));
        ("lastError", JStr (at_lastError t));
        ("lastScrape", JStr lastScrape);
        ("health", JStr (at_health t))])
  end.

(** ** Round trips *)

Lemma enc_map_dec (m : gmap string string) old :
  default ∅ old = (∅ : gmap string string) -> dec_map old (enc_map (Some m)) = Some m.
Proof.
  intros Ho. cbn [enc_map dec_map]. rewrite Ho. f_equal. apply map_eq. intros k.
  rewrite dec_map_entries, lookup_empty.
  assert (k ∈ sort_values (map_to_list m).*1 <-> is_Some (m !! k)) as Hk.
  { rewrite (proj2 (sort_values_spec _)), list_elem_of_fmap. split.
    - intros ([k' v]&->&Hin%elem_of_map_to_list). by exists v.
    - intros [v Hv]. exists (k, v). split; [done|]. by apply elem_of_map_to_list. }
  case_decide as Hd; destruct (m !! k) as [v|] eqn:Hm; try done.
  - by apply Hk in Hd as [? [=]].
  - destruct Hd. apply Hk. by eexists.
Qed.

(** A metric whose labels are UTF-8 has JSON that is. *)
Definition utf8_metric (m : Metric) : bool :=
  forallb (fun kv => utf8_valid kv.1 && utf8_valid kv.2) (map_to_list m).

Lemma enc_map_utf8 (m : Metric) : utf8_metric m = true -> utf8_json (enc_map (Some m)) = true.
Proof.
  unfold utf8_metric. rewrite forallb_forall. intros Hm. cbn [enc_map utf8_json].
  apply forallb_forall. intros [k j] Hin%list_elem_of_In. apply list_elem_of_fmap in Hin as (k'&[= -> ->]&Hk).
  rewrite (proj2 (sort_values_spec _)) in Hk. apply list_elem_of_fmap in Hk as ([k1 v]&->&Hkv). cbn [fst snd utf8_json].
  pose proof (Hm (k1, v) (proj1 (list_elem_of_In _ _) Hkv)) as Hv. cbn [fst snd] in Hv.
  apply elem_of_map_to_list in Hkv. by rewrite Hkv.
Qed.

Lemma enc_map_wf m : wf_json (enc_map m) = true.
Proof.
  destruct m as [m|]; [|done]. cbn [enc_map wf_json]. apply forallb_forall.
  intros [k j] Hin%list_elem_of_In. by apply list_elem_of_fmap in Hin as (k'&[= -> ->]&_).
Qed.

(** Decoding what was printed. *)
Lemma Unmarshal_print {A} (d : A -> json -> A) zero j :
  wf_json j = true -> utf8_json j = true -> Unmarshal d zero (print_json j) = d zero j.
Proof. intros Hw Hu. unfold Unmarshal. by rewrite parse_print, sanitize_json_utf8. Qed.
