(* ===== verification/Answer.v ===== *)
(** * The answer of a remote to a range query ([storage/remote/types.go])

    [Client.Read] decodes the body of an answer with [json.Unmarshal] into a
    [queryRes], whose matrix is of the vendored types of [common/model/value.go]
    and [common/model/time.go] with JSON methods of their own. The last section
    relates this to the text that a server of the API writes. *)
From stdpp Require Import pretty.
From S2P Require Import Prelude Model MetricPkg Target Json ApiParse Types.

Open Scope Z_scope.

#[local] Arguments String.append : simpl nomatch.

(** [model.Matrix] is a slice of pointers: a stream may be nil. *)
Abbreviation PtrMatrix := (list (option SampleStream)).

(** ** The vendored types *)

(** [minimumTick] of the model package is a millisecond; [dotPrecision] is the
    number of digits of a second in them. *)
Definition time_second : Z := Z.quot Second minimumTick.
Definition dotPrecision : nat := 3.

(** [Time.UnmarshalJSON], on the text of the value; the digits after the point,
    at most three, are in the range of the 32 bits they are parsed with. *)
Definition Time_UnmarshalJSON (b : string) : option Time :=
  match Split "." b with
  | [p0] => v ← ParseInt p0; Some (int64 (v * time_second))
  | [p0; p1] =>
      v ← ParseInt p0;
      let v := int64 (v * time_second) in
      let n := String.length p1 in
      let p1 :=
        if Nat.ltb dotPrecision n then take_bytes dotPrecision p1
        else p1 +:+ Repeat "0" (dotPrecision - n) in
      va ← ParseInt p1;
      Some (int64 (v + va))
  | _ => None
  end.

Section answer.
Context `{StrconvLib}.

(** [SampleValue.UnmarshalJSON]: the bytes between the quotes, escapes included. *)
Definition SampleValue_UnmarshalJSON (j : json) : option float64 :=
  match j with JStr raw => ParseFloat raw | _ => None end.

(** An element of the array of two pointers that [SamplePair.UnmarshalJSON]
    decodes into: one that is missing or null leaves its variable alone. *)
Definition try_element {A} (d : json -> option A) (old : A) (j : option json) : option A :=
  match j with None | Some JNull => Some old | Some j => d j end.

(** The text of a value other than a number never parses as a time. *)
Definition time_element (j : json) : option Time :=
  match j with JNum lit => Time_UnmarshalJSON lit | _ => None end.

Definition SamplePair_UnmarshalJSON : decoder SamplePair := fun old j =>
  match j with
  | JNull => Some old
  | JArr l =>
      t ← try_element time_element (Timestamp old) (l !! 0%nat);
      v ← try_element SampleValue_UnmarshalJSON (Value old) (l !! 1%nat);
      Some (mkSamplePair t v)
  | _ => None
  end.

(** [model.SampleStream], while it is decoded. *)
Record stream_fields := mkStreamFields {
  sf_Metric : option Metric;
  sf_Values : gslice SamplePair
}.

Definition try_stream : decoder stream_fields := try_struct [
  ("metric", fun v j => m ← try_map (sf_Metric v) j; Some (mkStreamFields m (sf_Values v)));
  ("values", fun v j =>
     l ← try_slice (mkSamplePair 0 f64_zero) SamplePair_UnmarshalJSON (sf_Values v) j;
     Some (mkStreamFields (sf_Metric v) l))].

(** A nil metric and an empty one are not told apart by the readers. *)
Definition stream_of (v : stream_fields) : SampleStream :=
  mkSampleStream (default ∅ (sf_Metric v)) (elements (sf_Values v)).

(** ** [queryRes] *)

Record queryData := mkQueryData {
  qd_ResultType : string;
  qd_Result : gslice (option stream_fields)
}.
Record queryRes := mkQueryRes { qr_Status : string; qr_Data : queryData }.

Definition try_queryData : decoder queryData := try_struct [
  ("resultType", fun v j => s ← try_string (qd_ResultType v) j; Some (mkQueryData s (qd_Result v)));
  ("result", fun v j =>
     l ← try_slice None (try_ptr (mkStreamFields None None) try_stream) (qd_Result v) j;
     Some (mkQueryData (qd_ResultType v) l))].

Definition try_queryRes : decoder queryRes := try_struct [
  ("status", fun v j => s ← try_string (qr_Status v) j; Some (mkQueryRes s (qr_Data v)));
  ("data", fun v j => d ← try_queryData (qr_Data v) j; Some (mkQueryRes (qr_Status v) d))].

Definition zero_queryRes : queryRes := mkQueryRes EmptyString (mkQueryData EmptyString None).

(** [resp.Data.Result] *)
Definition result_matrix (resp : queryRes) : PtrMatrix :=
  option_map stream_of <$> elements (qd_Result (qr_Data resp)).

Definition unmarshal_queryRes (body : string) : option queryRes :=
  try_Unmarshal try_queryRes zero_queryRes body.

End answer.

(** ** What a server of the API writes *)

(** The fraction of a second without its trailing zeros, and a time after the
    epoch as seconds: what [Time.MarshalJSON] prints. *)
Definition frac_digits (ms : Z) : string :=
  let d n := str1 (byte (48 + Z.to_nat n)) in
  if ms mod 100 =? 0 then d (ms / 100)
  else if ms mod 10 =? 0 then d (ms / 100) +:+ d (ms / 10 mod 10)
  else d (ms / 100) +:+ d (ms / 10 mod 10) +:+ d (ms mod 10).

Definition time_text (t : Time) : string :=
  pretty (t / 1000) +:+ (if t mod 1000 =? 0 then EmptyString else "." +:+ frac_digits (t mod 1000)).

Section encode.
Variable FormatFloat : float64 -> string.

(** [SamplePair.MarshalJSON] *)
Definition enc_SamplePair (p : SamplePair) : json :=
  JArr [JNum (time_text (Timestamp p)); JStr (FormatFloat (Value p))].

Definition enc_SampleStream (s : SampleStream) : json :=
  JObj [("metric", enc_map (Some (SSMetric s))); ("values", JArr (enc_SamplePair <$> SSValues s))].

Definition enc_matrix_answer (m : Matrix) : json :=
  JObj [("status", JStr "success");
        ("data", JObj [("resultType", JStr "matrix"); ("result", JArr (enc_SampleStream <$> m))])].

End encode.

(** ** Times are read back *)

Fixpoint all_digits (s : string) : bool :=
  match s with EmptyString => true | String.String c s => is_num_digit c && all_digits s end.

Lemma lex_digits ds lit :
  all_digits ds = true -> lex_run ds (LNumber lit NFrac) = Some ([], LNumber (lit +:+ ds) NFrac).
Proof.
  revert lit. induction ds as [|c ds IH]; intros lit Hd; cbn [lex_run].
  { by rewrite string_app_nil_r. }
  apply andb_true_iff in Hd as [Hc Hd]. cbn [lex_step num_step]. rewrite Hc. cbn [mbind option_bind fst snd].
  rewrite IH by done. cbn [fst snd app]. by rewrite string_app_assoc.
Qed.

Lemma pretty_N_go_bytes c x s : has_byte c (pretty_N_go x s) -> is_num_digit c = true \/ has_byte c s.
Proof.
  revert s. induction (N.lt_wf_0 x) as [x _ IH]. intros s. destruct (decide (x = 0)%N) as [->|Hx]; [by right|].
  rewrite pretty_N_go_step by lia. intros [Hc|Hc]%IH; [by left| |apply N.div_lt; lia].
  apply elem_of_cons in Hc as [->|Hc]; [left|by right].
  apply pretty_char_digit, N.mod_lt. lia.
Qed.

(** The text of the whole seconds: a number of digits only. *)
Lemma pretty_seconds (n : Z) :
  0 <= n -> ~ has_byte "." (pretty n) /\
  exists ns, lex_run (pretty n) LNormal = Some ([], LNumber (pretty n) ns) /\ (ns = NZero \/ ns = NInt).
Proof.
  intros Hn. destruct n as [|p|p]; [|unfold pretty, pretty_Z; cbv beta iota;
    unfold pretty, pretty_positive, pretty, pretty_N; rewrite decide_False by done|lia].
  - split; [|by exists NZero; split; [|left]]. cbn. unfold has_byte. cbn. set_solver.
  - destruct (pretty_N_int (N.pos p) ltac:(lia)) as [Hp _]. split; [|by exists NInt; split; [|right]].
    intros [Hd|Hc]%pretty_N_go_bytes; [done|by apply elem_of_nil in Hc].
Qed.

Definition padded (p1 : string) : string :=
  let n := String.length p1 in
  if Nat.ltb dotPrecision n then take_bytes dotPrecision p1 else p1 +:+ Repeat "0" (dotPrecision - n).

Lemma frac_digits_ok ms :
  0 < ms < 1000 -> ParseInt (padded (frac_digits ms)) = Some ms /\ all_digits (frac_digits ms) = true /\
  exists c ds, frac_digits ms = String.String c ds.
Proof.
  intros Hms. assert (forallb (fun k =>
    let ms := Z.of_nat k in
    bool_decide (ParseInt (padded (frac_digits ms)) = Some ms) && all_digits (frac_digits ms) &&
    match frac_digits ms with EmptyString => false | _ => true end) (seq 0 1000) = true) as Hall
    by (vm_compute; reflexivity).
  rewrite forallb_forall in Hall. specialize (Hall (Z.to_nat ms) ltac:(apply in_seq; lia)). cbv zeta in Hall.
  rewrite Z2Nat.id in Hall by lia. apply andb_true_iff in Hall as [[Hp%bool_decide_eq_true Hd]%andb_true_iff Hc].
  split_ands; [done|done|]. destruct (frac_digits ms) as [|c ds]; [done|]. by exists c, ds.
Qed.

Lemma time_text_number t : 0 <= t -> num_ok (time_text t) = true.
Proof.
  intros Ht. unfold num_ok, time_text.
  destruct (pretty_seconds (t / 1000)) as (_&ns&Hl&Hns); [apply Z.div_pos; lia|].
  rewrite lex_run_app, Hl. cbn [mbind option_bind fst snd].
  destruct (Z.eqb_spec (t mod 1000) 0) as [_|Hm].
  { cbn [lex_run fst snd app]. rewrite string_app_nil_r. cbn [mbind option_bind fst snd app].
    rewrite String.eqb_refl. by destruct Hns as [-> | ->]. }
  pose proof (Z.mod_pos_bound t 1000 ltac:(lia)) as Hb.
  destruct (frac_digits_ok (t mod 1000)) as (_&Hd&c&ds&Hc); [lia|]. rewrite Hc in *.
  apply andb_true_iff in Hd as [Hcd Hd].
  assert (num_step ns "." = Some NDot) as Hdot by by destruct Hns as [-> | ->].
  cbn [String.append lex_run lex_step]. rewrite Hdot. cbn [mbind option_bind fst snd lex_step num_step].
  rewrite Hcd. cbn [mbind option_bind fst snd]. rewrite lex_digits by done. cbn [mbind option_bind fst snd app].
  rewrite !string_app_assoc. change (str1 "." +:+ str1 c +:+ ds) with (String.String "." (String.String c ds)).
  by rewrite String.eqb_refl.
Qed.

Lemma time_text_decodes t : 0 <= t <= MaxInt64 -> Time_UnmarshalJSON (time_text t) = Some t.
Proof.
  intros Ht. unfold time_text, Time_UnmarshalJSON. change time_second with 1000.
  pose proof (Z.mod_pos_bound t 1000 ltac:(lia)) as Hb. pose proof (Z.div_mod t 1000 ltac:(lia)) as Hdm.
  assert (0 <= t / 1000) as Hq by (apply Z.div_pos; lia). destruct (pretty_seconds (t / 1000) Hq) as [Hdot _].
  assert (in_int64 (t / 1000)) as Hi by (unfold in_int64, MinInt64, MaxInt64 in *; lia).
  assert (in_int64 (t / 1000 * 1000)) as Hi' by (unfold in_int64, MinInt64, MaxInt64 in *; lia).
  destruct (Z.eqb_spec (t mod 1000) 0) as [Hz|Hz].
  - rewrite string_app_nil_r, Split_no_sep, ParseInt_pretty by done. cbn [mbind option_bind].
    f_equal. rewrite int64_id by done. lia.
  - destruct (frac_digits_ok (t mod 1000)) as (Hp&Hd&c&ds&Hc); [lia|].
    change ("." +:+ frac_digits (t mod 1000)) with (String.String "." EmptyString +:+ frac_digits (t mod 1000)).
    rewrite Split_sep by done. rewrite Split_no_sep.
    2: { intros Hin. assert (forall s, all_digits s = true -> has_byte "." s -> False) as Hnd; [|by eapply Hnd].
         clear. induction s as [|b s IH]; intros Hs; [by intros ?%elem_of_nil|].
         apply andb_true_iff in Hs as [Hb Hs]. intros [<-|Hin]%elem_of_cons; [done|by apply IH]. }
    rewrite ParseInt_pretty by done. cbn [mbind option_bind]. unfold padded in Hp. rewrite Hp.
    cbn [mbind option_bind]. f_equal. rewrite (int64_id (t / 1000 * 1000)) by done.
    rewrite int64_id by (unfold in_int64, MinInt64, MaxInt64 in *; lia). lia.
Qed.

(** ** Answers are read back *)

Section roundtrip.
Context `{StrconvLib}.
Variable FormatFloat : float64 -> string.

(** A sample of a server: its time is not before the epoch, and its value is
    printed as text without characters that JSON escapes, which is parsed back. *)
Definition printable (p : SamplePair) : Prop :=
  0 <= Timestamp p <= MaxInt64 /\ escape (FormatFloat (Value p)) = FormatFloat (Value p) /\
  ParseFloat (FormatFloat (Value p)) = Some (Value p).
Definition printable_stream (s : SampleStream) : Prop :=
  utf8_metric (SSMetric s) = true /\ Forall printable (SSValues s).

Lemma pair_decodes old p :
  printable p -> SamplePair_UnmarshalJSON old (raw_json (enc_SamplePair FormatFloat p)) = Some p.
Proof.
  intros (Ht&He&Hv). cbn [raw_json map_strings enc_SamplePair fmap list_fmap SamplePair_UnmarshalJSON lookup list_lookup].
  cbn [try_element time_element SampleValue_UnmarshalJSON]. rewrite time_text_decodes, He, Hv by done. by destruct p.
Qed.

Lemma metric_decodes (m : Metric) :
  utf8_metric m = true -> try_map None (raw_json (enc_map (Some m))) = Some (Some m).
Proof.
  unfold utf8_metric. rewrite forallb_forall. intros Hm. cbn [enc_map raw_json map_strings try_map default].
  assert (forall k, k ∈ sort_values (map_to_list m).*1 <-> is_Some (m !! k)) as Hk.
  { intros k. rewrite (proj2 (sort_values_spec _)), list_elem_of_fmap. split.
    - intros ([k' v]&->&Hin%elem_of_map_to_list). by exists v.
    - intros [v Hv]. exists (k, v). split; [done|]. by apply elem_of_map_to_list. }
  rewrite <- list_fmap_compose. unfold compose. cbn [fst snd map_strings].
  destruct (try_map_entries (fun k => default EmptyString (m !! k)) (sort_values (map_to_list m).*1) ∅)
    as (m'&Hf&Hm').
  { apply Forall_forall. intros k [v Hv]%Hk. rewrite Hv. cbn. apply andb_true_iff, (Hm (k, v)), list_elem_of_In.
    by apply elem_of_map_to_list. }
  etransitivity; [apply (f_equal (fmap Some)), Hf|]. cbn. do 2 f_equal. apply map_eq. intros k. rewrite Hm'.
  case_decide as Hd; destruct (m !! k) as [v|] eqn:Hv; try done.
  - apply Hk in Hd as [? ?]. congruence.
  - destruct Hd. apply Hk. by exists v.
Qed.

Lemma enc_matrix_answer_wf m : Forall printable_stream m -> wf_json (enc_matrix_answer FormatFloat m) = true.
Proof.
  intros Hm. rewrite Forall_forall in Hm. cbn [enc_matrix_answer wf_json forallb snd andb]. rewrite !andb_true_r.
  apply forallb_forall. intros j Hj%list_elem_of_In. apply list_elem_of_fmap in Hj as (s&->&Hs).
  destruct (Hm s Hs) as [_ Hv]. rewrite Forall_forall in Hv.
  cbn [enc_SampleStream wf_json forallb snd]. rewrite enc_map_wf. cbn [andb]. rewrite andb_true_r.
  apply forallb_forall. intros j Hj%list_elem_of_In. apply list_elem_of_fmap in Hj as (p&->&Hp).
  cbn [enc_SamplePair wf_json forallb]. rewrite time_text_number by apply (Hv p Hp). done.
Qed.

Lemma fmap_Some_2 {A B} (f : A -> B) (x : option A) b : f <$> x = Some b -> exists a, x = Some a /\ f a = b.
Proof. destruct x as [a|]; [|done]. intros [= <-]. by exists a. Qed.

Lemma stream_decodes s :
  printable_stream s -> exists v,
    try_ptr (mkStreamFields None None) try_stream None (raw_json (enc_SampleStream FormatFloat s)) = Some (Some v) /\
    stream_of v = s.
Proof.
  intros [Hm Hv]. rewrite Forall_forall in Hv.
  pose proof (try_slice_fresh (mkSamplePair 0 f64_zero) SamplePair_UnmarshalJSON
    (raw_json ∘ enc_SamplePair FormatFloat) id (SSValues s)) as Hs.
  destruct (fmap_Some_2 _ _ _ (Hs (fun p Hp => pair_decodes _ p (Hv p Hp)))) as (vs&Hvs&Hes).
  exists (mkStreamFields (Some (SSMetric s)) vs). split.
  - change (try_ptr _ _ None (raw_json (enc_SampleStream FormatFloat s)))
      with (Some <$> try_stream (mkStreamFields None None) (raw_json (enc_SampleStream FormatFloat s))).
    unfold enc_SampleStream, try_stream.
    erewrite (try_struct_member _ _ "metric"); [|reflexivity..|cbn [snd id sf_Metric]; by rewrite metric_decodes].
    erewrite (try_struct_member _ _ "values"); [reflexivity|reflexivity..|]. cbn [snd id sf_Metric sf_Values].
    change (raw_json (JArr ?l)) with (JArr (raw_json <$> l)). rewrite <- list_fmap_compose. by rewrite Hvs.
  - unfold stream_of. cbn. rewrite Hes, list_fmap_id. by destruct s.
Qed.

Lemma matrix_decodes m :
  Forall printable_stream m -> exists l,
    try_slice None (try_ptr (mkStreamFields None None) try_stream) None
      (raw_json (JArr (enc_SampleStream FormatFloat <$> m))) = Some l /\
    option_map stream_of <$> elements l = Some <$> m.
Proof.
  intros Hm. rewrite Forall_forall in Hm.
  assert (exists f : SampleStream -> option stream_fields, forall s, s ∈ m ->
    try_ptr (mkStreamFields None None) try_stream None (raw_json (enc_SampleStream FormatFloat s)) = Some (f s) /\
    option_map stream_of (f s) = Some s) as [f Hf].
  { exists (fun s => default None (try_ptr (mkStreamFields None None) try_stream None
      (raw_json (enc_SampleStream FormatFloat s)))).
    intros s Hs. destruct (stream_decodes s (Hm s Hs)) as (v&->&Hv). split; [done|]. cbn. by rewrite Hv. }
  destruct (fmap_Some_2 _ _ _ (try_slice_fresh None (try_ptr (mkStreamFields None None) try_stream)
    (raw_json ∘ enc_SampleStream FormatFloat) f m (fun s Hs => proj1 (Hf s Hs)))) as (l&Hl&He).
  exists l. split.
  - change (raw_json (JArr ?l)) with (JArr (raw_json <$> l)). by rewrite <- list_fmap_compose.
  - rewrite He, <- list_fmap_compose. apply list_fmap_ext. intros i s Hs. by apply Hf, list_elem_of_lookup_2 with i.
Qed.

(** The answer of a remote is read back. The body in which a server of the API
    writes a matrix (times in seconds with up to three decimals, values as
    strings, labels escaped) is valid JSON, and decoding it gives the streams of
    the matrix in order, none of them nil, each with its metric and the times
    and values of its samples, whatever the labels contain, as long as the times
    are not before the epoch and ParseFloat reads back the printed values. *)
Theorem remote_answer_roundtrip (m : Matrix) :
  (forall s, s ∈ m -> utf8_metric (SSMetric s) = true /\ forall p, p ∈ SSValues s ->
     0 <= Timestamp p <= MaxInt64 /\ escape (FormatFloat (Value p)) = FormatFloat (Value p) /\
     ParseFloat (FormatFloat (Value p)) = Some (Value p)) ->
  exists resp, unmarshal_queryRes (print_json (enc_matrix_answer FormatFloat m)) = Some resp /\
    result_matrix resp = Some <$> m /\ qr_Status resp = "success" /\ qd_ResultType (qr_Data resp) = "matrix".
Proof.
  intros Hm. assert (Forall printable_stream m) as Hps.
  { apply Forall_forall. intros s Hs. destruct (Hm s Hs) as [Hu Hp]. split; [done|]. by apply Forall_forall. }
  destruct (matrix_decodes m Hps) as (l&Hl&He).
  exists (mkQueryRes "success" (mkQueryData "matrix" l)). split; [|done].
  unfold unmarshal_queryRes. rewrite try_Unmarshal_print by by apply enc_matrix_answer_wf.
  unfold enc_matrix_answer, try_queryRes.
  erewrite (try_struct_member _ _ "status"); [|reflexivity..].
  erewrite (try_struct_member _ _ "data"); [reflexivity|reflexivity..|]. cbn [id snd]. unfold try_queryData at 1.
  erewrite (try_struct_member _ _ "resultType"); [|reflexivity..].
  erewrite (try_struct_member _ _ "result"); [reflexivity|reflexivity..|]. cbn [id snd].
  change (qd_Result _) with (None : gslice (option stream_fields)). by rewrite Hl.
Qed.

End roundtrip.

(** ** Examples *)

Section examples.
Import LiteralRegexp.

Definition quoted (s : string) : string := str1 dquote +:+ s +:+ str1 dquote.

Example decode_times :
  Time_UnmarshalJSON "1500000000" = Some 1500000000000 /\ Time_UnmarshalJSON "1.5" = Some 1500 /\
  Time_UnmarshalJSON "1.1239" = Some 1123 /\ Time_UnmarshalJSON "1e3" = None /\
  Time_UnmarshalJSON "1.1234e5" = Some 1123 /\ Time_UnmarshalJSON "-1.5" = Some (-500).
Proof. vm_compute. done. Qed.

Definition demo_body (result : string) : string :=
  "{" +:+ quoted "status" +:+ ":" +:+ quoted "success" +:+ ", " +:+ quoted "data" +:+ ": {" +:+ quoted "resultType" +:+ ":" +:+
  quoted "matrix" +:+ "," +:+ quoted "result" +:+ ":" +:+ result +:+ "}}".

Example decode_answers :
  result_matrix <$> unmarshal_queryRes (demo_body ("[{" +:+ quoted "metric" +:+ ":{" +:+ quoted "a" +:+ ":" +:+ quoted "b" +:+
     "}, " +:+ quoted "values" +:+ ":[[1.5, " +:+ quoted "7" +:+ "], [2," +:+ quoted "NaN" +:+ ", 3], null]}, null]")) =
    Some [Some (mkSampleStream {["a" := "b"]}
      [mkSamplePair 1500 (f64_of_Z 7); mkSamplePair 2000 S754_nan; mkSamplePair 0 f64_zero]); None] /\
  result_matrix <$> unmarshal_queryRes (demo_body ("[{" +:+ quoted "values" +:+ ":[[1.5, 7]]}]")) = None /\
  result_matrix <$> unmarshal_queryRes (demo_body "{}") = None /\
  result_matrix <$> unmarshal_queryRes "{" = None /\
  result_matrix <$> unmarshal_queryRes "null" = Some [].
Proof. vm_compute. done. Qed.

Definition demo_format (v : float64) : string := if f64_eqb v (f64_of_Z 7) then "7" else "NaN".
Definition demo_matrix : Matrix :=
  [mkSampleStream {["job" := quoted "a<b"]} [mkSamplePair 1500 (f64_of_Z 7); mkSamplePair 1510 S754_nan];
   mkSampleStream ∅ []].

Lemma remote_answer_roundtrip_witness :
  result_matrix <$> unmarshal_queryRes (print_json (enc_matrix_answer demo_format demo_matrix)) =
    Some (Some <$> demo_matrix).
Proof.
  destruct (remote_answer_roundtrip demo_format demo_matrix) as (resp&Hresp&Hm&_).
  - intros s Hs. unfold demo_matrix in Hs.
    repeat (apply elem_of_cons in Hs as [->|Hs]; [split; [vm_compute; reflexivity|]; cbn [SSValues]; intros p Hp|]);
      [| |by apply elem_of_nil in Hs].
    + repeat (apply elem_of_cons in Hp as [->|Hp]; [vm_compute; split_ands; (discriminate || reflexivity)|]).
      by apply elem_of_nil in Hp.
    + by apply elem_of_nil in Hp.
  - apply (f_equal (fmap result_matrix)) in Hresp. etransitivity; [exact Hresp|]. cbn. by rewrite Hm.
Defined.

End examples.
