(* ===== verification/Client.v ===== *)
(** * The remote storage client ([storage/remote/client.go])

    [Store] builds the protobuf request of a batch and classifies the answer;
    [Read] builds the query of a range and decodes the answer, as Answer.v says.
    Protobuf, compression, HTTP and URL parsing are not code of the repository:
    they are the operations of the class [HTTPLib] over the state [W] of the
    outside world, with the laws of [net/url] the client relies on: a query is read
    back from its encoding, and setting it again replaces it. *)
From stdpp Require Import pretty.
From S2P Require Import Prelude Model MetricPkg Relabel Queue Json Answer.
Import Matcher.

Open Scope Z_scope.

(** ** The messages (remote.proto) *)

Record LabelPair := mkLabelPair { LPName : string; LPValue : string }.
Record ProtoSample := mkProtoSample { PValue : float64; TimestampMs : Z }.
Record TimeSeries := mkTimeSeries { TSLabels : list LabelPair; TSSamples : list ProtoSample }.
Record WriteRequest := mkWriteRequest { Timeseries : list TimeSeries }.
Inductive ProtoMatchType := PB_EQUAL | PB_NOT_EQUAL | PB_REGEX_MATCH | PB_REGEX_NO_MATCH.
Record ProtoLabelMatcher := mkProtoLabelMatcher {
  PMType : ProtoMatchType; PMName : string; PMValue : string
}.

(** ** The outside world *)

(** [url.Values]. *)
Abbreviation Values := (gmap string (list string)).
Definition Values_Set (v : Values) (key value : string) : Values := <[key := [value]]> v.

Record Request := mkRequest {
  req_method : string; req_url : string; req_header : gmap string string; req_body : string
}.

(** [resp_error] is the error that ends the reading of the body, if not its end. *)
Record Response := mkResponse {
  StatusCode : Z; Status : string; resp_body : string; resp_error : option error
}.

(** [json_error] is the text of the error of [json.Unmarshal] on a body. *)
Class HTTPLib (W : Type) := {
  URL : Type;
  url_String : URL -> string;
  url_Query : URL -> Values;
  set_RawQuery : URL -> string -> URL;
  Values_Encode : Values -> string;
  Query_Encode u v : map_Forall (fun _ l => l <> []) v ->
    url_Query (set_RawQuery u (Values_Encode v)) = v;
  set_RawQuery_again u s t : set_RawQuery (set_RawQuery u s) t = set_RawQuery u t;
  HTTPClientConfig : Type;
  HTTPClient : Type;
  NewClientFromConfig : HTTPClientConfig -> error + HTTPClient;
  proto_Marshal : WriteRequest -> error + string;
  snappy_Encode : string -> string;
  url_valid : string -> option error;
  http_Do : W -> HTTPClient -> Duration -> Request -> W * (error + Response);
  json_error : string -> error
}.

(** [http.NewRequest]: it fails on an unparseable URL. *)
Definition NewRequest `{HTTPLib W} (method url body : string) : error + Request :=
  match url_valid url with
  | Some err => inl err
  | None => inr (mkRequest method url ∅ body)
  end.

Definition Header_Set (r : Request) (key value : string) : Request :=
  mkRequest (req_method r) (req_url r) (<[key := value]> (req_header r)) (req_body r).

Definition maxErrMsgLen : nat := 256.

(** The text up to the first line end, without a carriage return before it. *)
Fixpoint until_newline (s : string) : string :=
  match s with
  | EmptyString => EmptyString
  | String.String c s => if Ascii.eqb c "010"%char then EmptyString else String.String c (until_newline s)
  end.
Definition dropCR (s : string) : string :=
  let n := String.length s in
  match String.get (n - 1) s with
  | Some c => if Ascii.eqb c "013"%char then String.substring 0 (n - 1) s else s
  | None => s
  end.

(** The first line that [bufio.Scanner] finds in the limited body. *)
Definition first_line (body : string) : string :=
  dropCR (until_newline (String.substring 0 maxErrMsgLen body)).

(** [strconv.Itoa]. *)
Definition Itoa (n : Z) : string := pretty n.

Section client.
Context `{RegexpLib, StrconvLib, MapOrder}.
Context {W : Type} `{HTTPLib W}.

(** The URL is a pointer in Go; [Read] writes through it. *)
Record Client := mkClient {
  index : Z;
  url : URL;
  client : HTTPClient;
  timeout : Duration
}.

Record clientConfig := mkClientConfig {
  cc_url : URL;
  cc_timeout : Duration;
  cc_httpClientConfig : HTTPClientConfig
}.

Definition NewClient (index : Z) (conf : clientConfig) : error + Client :=
  match NewClientFromConfig (cc_httpClientConfig conf) with
  | inl err => inl err
  | inr httpClient => inr (mkClient index (cc_url conf) httpClient (cc_timeout conf))
  end.

Definition Client_Name (c : Client) : string := Itoa (index c) +:+ ":" +:+ url_String (url c).

(** ** Store *)

(** The entries of a metric in the order its loop visits them. *)
Definition metricToLabelPairs (l : list (LabelName * LabelValue)) : list LabelPair :=
  (fun '(k, v) => mkLabelPair k v) <$> l.

Definition sampleToTimeSeries (s : Sample) : TimeSeries :=
  mkTimeSeries (metricToLabelPairs (order 0 (SMetric s)))
    [mkProtoSample (SValue s) (STimestamp s)].

Definition toWriteRequest (samples : list Sample) : WriteRequest :=
  mkWriteRequest (sampleToTimeSeries <$> samples).

(** What the status of the answer means to the queue. *)
Definition store_status (resp : Response) : option store_error :=
  let err :=
    if Z.quot (StatusCode resp) 100 =? 2 then None
    else Some ("server returned HTTP status " +:+ Status resp +:+ ": " +:+ first_line (resp_body resp)) in
  if Z.quot (StatusCode resp) 100 =? 5 then Some (mkStoreError (default EmptyString err) true)
  else match err with Some e => Some (mkStoreError e false) | None => None end.

Definition Client_Store (c : Client) (w : W) (samples : list Sample) : W * option store_error :=
  match proto_Marshal (toWriteRequest samples) with
  | inl err => (w, Some (mkStoreError err false))
  | inr data =>
      match NewRequest "POST" (url_String (url c)) (snappy_Encode data) with
      | inl err => (w, Some (mkStoreError err false))
      | inr httpReq =>
          let httpReq := Header_Set httpReq "Content-Encoding" "snappy" in
          let httpReq := Header_Set httpReq "Content-Type" "application/x-protobuf" in
          let httpReq := Header_Set httpReq "X-Prometheus-Remote-Write-Version" "0.1.0" in
          let '(w, r) := http_Do w (client c) (timeout c) httpReq in
          match r with
          | inl err => (w, Some (mkStoreError err true))
          | inr resp => (w, store_status resp)
          end
      end
  end.

(** A client is the [StorageClient] of a queue. *)
Definition client_storage (c : Client) : StorageClient W := {|
  Store := Client_Store c;
  Name := Client_Name c
|}.

(** ** Read *)

(** The package's own [minimumTick] is a microsecond: a thousand nanoseconds. *)
Definition client_nanosPerTick : Z := Z.quot Microsecond Nanosecond.

Definition labelMatcherToProto (m : LabelMatcher) : outcome ProtoLabelMatcher :=
  mType ← match MType m with
    | Equal => Ret PB_EQUAL
    | NotEqual => Ret PB_NOT_EQUAL
    | RegexMatch => Ret PB_REGEX_MATCH
    | RegexNoMatch => Ret PB_REGEX_NO_MATCH
    | OtherMatchType _ => Panic (PanicMsg "invalid matcher type")
    end;
  Ret (mkProtoLabelMatcher mType (MName m) (MValue m)).

Definition labelMatchersToProto (matchers : list LabelMatcher) : outcome (list ProtoLabelMatcher) :=
  outcome_map labelMatcherToProto matchers.

(** The parameters [Read] sets over those the URL already has. *)
Definition read_values (q : Values) (from through : Time) (query : string) : Values :=
  let q := Values_Set q "start" (Itoa (Z.quot from client_nanosPerTick)) in
  let q := Values_Set q "end" (Itoa (Z.quot through client_nanosPerTick)) in
  let q := Values_Set q "query" ("{" +:+ query +:+ "}") in
  Values_Set q "step" "2".

Definition read_response (r : error + Response) : error + PtrMatrix :=
  match r with
  | inl err => inl ("error sending request: " +:+ err)
  | inr resp =>
      if negb (Z.quot (StatusCode resp) 100 =? 2) then
        inl ("server returned HTTP status " +:+ Status resp)
      else
        match resp_error resp with
        | Some err => inl ("error reading response: " +:+ err)
        | None =>
            match unmarshal_queryRes (resp_body resp) with
            | None => inl ("unable to unmarshal response body: " +:+ json_error (resp_body resp))
            | Some resp => inr (result_matrix resp)
            end
        end
  end.

(** The error of [NewRequest] is ignored, and the nil request dereferenced. The
    client returned has the URL as [Read] leaves it. The context that [Read] is
    given only reaches [ctxhttp.Do], with the client's timeout on top: when it is
    canceled or its deadline passes, [http_Do] answers with an error, which is one
    of the answers of the outside world that every theorem allows. *)
Definition Client_Read (c : Client) (w : W) (from through : Time) (matchers : list LabelMatcher)
    : outcome (W * Client * (error + PtrMatrix)) :=
  _ ← labelMatchersToProto matchers;
  query ← LabelMatchers_String matchers;
  let q := read_values (url_Query (url c)) from through query in
  let c := mkClient (index c) (set_RawQuery (url c) (Values_Encode q)) (client c) (timeout c) in
  match NewRequest "GET" (url_String (url c)) EmptyString with
  | inl _ => Panic PanicNilDeref
  | inr httpReq =>
      let '(w, r) := http_Do w (client c) (timeout c) httpReq in
      Ret (w, c, read_response r)
  end.

(** ** Configuration: the parts the remote storage uses *)

Record RemoteConfig := mkRemoteConfig {
  rw_URL : URL;
  RemoteTimeout : Duration;
  rw_HTTPClientConfig : HTTPClientConfig;
  WriteRelabelConfigs : list RelabelConfig
}.

Record RemoteStorageConfig := mkRemoteStorageConfig {
  ExternalLabels : LabelSet;
  RemoteWriteConfigs : list RemoteConfig;
  RemoteReadConfigs : list RemoteConfig
}.

(** [NewClient] of the [i]-th configuration. *)
Definition client_of (i : Z) (conf : RemoteConfig) : error + Client :=
  NewClient i (mkClientConfig (rw_URL conf) (RemoteTimeout conf) (rw_HTTPClientConfig conf)).

(** ** Decoding of protobuf answers (not used by [Read] any more) *)

Definition labelPairsToMetric (labelPairs : list LabelPair) : Metric :=
  foldl (fun metric l => <[LPName l := LPValue l]> metric) ∅ labelPairs.

Definition timeSeriesToStream (ts : TimeSeries) : SampleStream :=
  mkSampleStream (labelPairsToMetric (TSLabels ts))
    ((fun s => mkSamplePair (TimestampMs s) (PValue s)) <$> TSSamples ts).

Definition matrixFromProto (seriesSet : list TimeSeries) : Matrix := timeSeriesToStream <$> seriesSet.

Definition matrixFromHttp (seriesSet : list TimeSeries) : Matrix := [].

End client.

(** ** Lemmas *)

Section client_proofs.
Context `{RegexpLib, StrconvLib, MapOrder}.
Context {W : Type} `{HTTPLib W}.

Lemma foldl_labelPairs l (acc : Metric) :
  foldl (fun metric p => <[LPName p := LPValue p]> metric) acc (metricToLabelPairs l) =
  foldl (fun clone '(k, v) => <[k := v]> clone) acc l.
Proof.
  revert acc. induction l as [|[k v] l IH]; intros acc; simpl; [done|]. apply IH.
Qed.

Lemma labelPairs_range m l :
  map_range m l -> labelPairsToMetric (metricToLabelPairs l) = m.
Proof.
  intros Hl. rewrite <- (Clone_range m l Hl). apply foldl_labelPairs.
Qed.

(** The write request loses nothing. Decoding the time series of the request
    that Store builds gives back, in order, one stream per sample, with the
    sample's metric, value and timestamp, whatever order the labels of each
    metric are visited in. *)
Theorem write_request_roundtrip (samples : list Sample) :
  matrixFromProto (Timeseries (toWriteRequest samples)) =
    (fun s => mkSampleStream (SMetric s) [mkSamplePair (STimestamp s) (SValue s)]) <$> samples.
Proof.
  unfold matrixFromProto, toWriteRequest. cbn [Timeseries]. rewrite <- list_fmap_compose.
  apply list_fmap_ext. intros _ s _. unfold timeSeriesToStream, sampleToTimeSeries. simpl.
  by rewrite (labelPairs_range (SMetric s)) by apply order_range.
Qed.

Definition status_class (resp : Response) : Z := Z.quot (StatusCode resp) 100.

Lemma store_status_spec resp :
  (store_status resp = None <-> status_class resp = 2) /\
  ((exists e, store_status resp = Some e /\ recoverable e = true) <-> status_class resp = 5).
Proof.
  unfold store_status, status_class.
  destruct (Z.eqb_spec (Z.quot (StatusCode resp) 100) 2) as [->|H2'].
  - simpl. split; [done|]. split; [by intros (?&?&_)|done].
  - destruct (Z.eqb_spec (Z.quot (StatusCode resp) 100) 5) as [->|H5]; simpl.
    + split; [done|]. split; [done|]. intros _. by eexists.
    + split; [done|]. split; [|done]. by intros (e&[= <-]&?).
Qed.

(** How Store classifies failures. When the request can be built, exactly
    one HTTP exchange takes place, a POST of the compressed request with the
    remote-write headers; Store succeeds exactly when it is answered with a 2xx
    status, and its error is one the queue retries exactly when the exchange
    itself failed or the status is 5xx. A request that cannot be built is never
    sent and its error is not retried. *)
Theorem Client_Store_correct (c : Client) (w : W) (samples : list Sample) :
  (forall data, proto_Marshal (toWriteRequest samples) = inr data ->
   url_valid (url_String (url c)) = None ->
   exists req, req_method req = "POST" /\ req_url req = url_String (url c) /\
    req_body req = snappy_Encode data /\
    req_header req = {["Content-Encoding" := "snappy"; "Content-Type" := "application/x-protobuf";
      "X-Prometheus-Remote-Write-Version" := "0.1.0"]} /\
    let '(w', r) := http_Do w (client c) (timeout c) req in
    (Client_Store c w samples).1 = w' /\
    ((Client_Store c w samples).2 = None <-> exists resp, r = inr resp /\ status_class resp = 2) /\
    (is_recoverable (Client_Store c w samples).2 <->
      (exists err, r = inl err) \/ exists resp, r = inr resp /\ status_class resp = 5)) /\
  ((exists err, proto_Marshal (toWriteRequest samples) = inl err) \/
   is_Some (url_valid (url_String (url c))) ->
   exists err, Client_Store c w samples = (w, Some (mkStoreError err false))).
Proof.
  unfold Client_Store, NewRequest, is_recoverable. split.
  - intros data -> ->. eexists (Header_Set (Header_Set (Header_Set
      (mkRequest "POST" (url_String (url c)) ∅ (snappy_Encode data)) "Content-Encoding" "snappy")
      "Content-Type" "application/x-protobuf") "X-Prometheus-Remote-Write-Version" "0.1.0").
    split_ands; [reflexivity..|by apply map_eq; intros k; simpl; rewrite !lookup_insert, lookup_singleton; repeat case_decide; simplify_eq|].
    { destruct (http_Do _ _ _ _) as [w' [err|resp]] eqn:Hdo; simpl.
      - split_ands; [done|split; [done|by intros (?&?&_)]|].
        split; [intros _; left; by eexists|intros _; by eexists].
      - destruct (store_status_spec resp) as [H2' H5']. split_ands; [done| |].
        + rewrite H2'. split; [by eexists|]. by intros (?&[= <-]&?).
        + rewrite H5'. split; [right; by eexists|].
          by intros [[? ?]|(?&[= <-]&?)]. }
  - intros [[err ->]|[err Herr]]; [by eexists|].
    destruct (proto_Marshal _); [by eexists|]. rewrite Herr. by eexists.
Qed.

(** ** Read *)

Definition known_type (m : LabelMatcher) : Prop := forall n, MType m <> OtherMatchType n.

Lemma labelMatcherToProto_cases m :
  (known_type m -> exists pb, labelMatcherToProto m = Ret pb) /\
  (~ known_type m -> labelMatcherToProto m = Panic (PanicMsg "invalid matcher type")).
Proof.
  unfold labelMatcherToProto, known_type. destruct (MType m) as [| | | |n]; simpl; split; intros Hm;
    try (by eexists); try (by destruct Hm); try (by destruct (Hm n)); done.
Qed.

Lemma labelMatchersToProto_known ms :
  Forall known_type ms -> exists pb, labelMatchersToProto ms = Ret pb.
Proof.
  intros Hms. apply outcome_map_total. eapply Forall_impl; [exact Hms|]. intros m.
  apply labelMatcherToProto_cases.
Qed.

#[local] Instance known_type_dec m : Decision (known_type m).
Proof.
  unfold known_type. destruct (MType m) as [| | | |n]; try (left; discriminate).
  right. intros Hn. by destruct (Hn n).
Defined.

Lemma LabelMatchers_String_known ms :
  Forall known_type ms -> exists s, LabelMatchers_String ms = Ret s.
Proof.
  intros Hms. unfold LabelMatchers_String.
  destruct (outcome_map_total LabelMatcher_String ms) as [l ->]; [|by eexists].
  eapply Forall_impl; [exact Hms|]. intros m Hm. unfold LabelMatcher_String, known_type in *.
  destruct (MType m) as [| | | |n]; simpl; try by eexists. by destruct (Hm n).
Qed.

Definition no_empty_values (v : Values) : Prop := map_Forall (fun _ l => l <> []) v.

Lemma read_values_no_empty q from through s :
  no_empty_values q -> no_empty_values (read_values q from through s).
Proof.
  intros Hq. unfold read_values, Values_Set. repeat (apply map_Forall_insert_2; [done|]). done.
Qed.

Lemma read_values_overwrite q f t s f' t' s' :
  read_values (read_values q f t s) f' t' s' = read_values q f' t' s'.
Proof.
  unfold read_values, Values_Set. apply map_eq. intros k. rewrite !lookup_insert.
  repeat case_decide; done.
Qed.

Definition read_keys : list string := ["start"; "end"; "query"; "step"].

Lemma read_values_lookup q f t s :
  let v := read_values q f t s in
  v !! "start" = Some [Itoa (Z.quot f 1000)] /\ v !! "end" = Some [Itoa (Z.quot t 1000)] /\
  v !! "query" = Some ["{" +:+ s +:+ "}"] /\ v !! "step" = Some ["2"] /\
  (forall k, k ∉ read_keys -> v !! k = q !! k).
Proof.
  unfold read_values, Values_Set. cbv zeta. change client_nanosPerTick with 1000.
  split_ands; [by simplify_map_eq..|]. intros k Hk. unfold read_keys in Hk.
  rewrite !lookup_insert_ne by set_solver. done.
Qed.

(** The URL after a read with a query string [s]. *)
Definition url_read (u : URL) (from through : Time) (s : string) : URL :=
  set_RawQuery u (Values_Encode (read_values (url_Query u) from through s)).

Lemma read_response_spec r m :
  read_response r = inr m <-> exists resp, r = inr resp /\ status_class resp = 2 /\
    resp_error resp = None /\ result_matrix <$> unmarshal_queryRes (resp_body resp) = Some m.
Proof.
  unfold read_response, status_class. destruct r as [err|resp].
  { split; [done|by intros (?&?&_)]. }
  destruct (Z.eqb_spec (Z.quot (StatusCode resp) 100) 2) as [Hc|Hc]; cbn [negb].
  2: { split; [done|by intros (?&[= <-]&?&_)]. }
  destruct (resp_error resp) as [err|] eqn:He.
  { split; [done|intros (?&[= <-]&_&?&_); congruence]. }
  destruct (unmarshal_queryRes (resp_body resp)) as [m'|] eqn:Hj.
  - split; [intros [= <-]; exists resp; by rewrite Hj|intros (?&[= <-]&_&_&Hm)].
    rewrite Hj in Hm. by injection Hm as ->.
  - split; [done|intros (?&[= <-]&_&_&Hm); by rewrite Hj in Hm].
Qed.

(** The one exchange of a range query, and the parameters of its URL. *)
Lemma Client_Read_exchange (c : Client) (w : W) (from through : Time) ms s :
  Forall known_type ms -> LabelMatchers_String ms = Ret s ->
  let u := url_read (url c) from through s in
  url_valid (url_String u) = None ->
  Client_Read c w from through ms =
    let '(w', r) := http_Do w (client c) (timeout c) (mkRequest "GET" (url_String u) ∅ EmptyString) in
    Ret (w', mkClient (index c) u (client c) (timeout c), read_response r).
Proof.
  intros Hms Hs u Hu. destruct (labelMatchersToProto_known ms Hms) as [pb Hpb].
  unfold Client_Read. rewrite Hpb, Hs. simpl. fold (url_read (url c) from through s). fold u.
  unfold NewRequest. by rewrite Hu.
Qed.

Lemma url_read_Query (u : URL) (from through : Time) s :
  no_empty_values (url_Query u) -> url_Query (url_read u from through s) = read_values (url_Query u) from through s.
Proof. intros Hq. apply Query_Encode. by apply read_values_no_empty. Qed.

(** C31: the range query. For matchers of known types and a URL that parses, Read
    makes exactly one exchange, a GET of the client's URL in which start and end
    are the bounds in whole seconds, query the selector in braces and step 2,
    and every other parameter of the configured URL is kept; the result is the
    matrix of a 2xx answer that decodes, and an error in every other case. Read
    leaves the new parameters in the client's URL, but a later Read replaces
    them: they do not accumulate. *)
Theorem Client_Read_correct (c : Client) (w : W) (from through : Time) ms s :
  Forall known_type ms -> LabelMatchers_String ms = Ret s -> no_empty_values (url_Query (url c)) ->
  let u := url_read (url c) from through s in
  url_valid (url_String u) = None ->
  exists w' r, http_Do w (client c) (timeout c) (mkRequest "GET" (url_String u) ∅ EmptyString) = (w', r) /\
  Client_Read c w from through ms =
    Ret (w', mkClient (index c) u (client c) (timeout c), read_response r) /\
  url_Query u !! "start" = Some [Itoa (Z.quot from 1000)] /\
  url_Query u !! "end" = Some [Itoa (Z.quot through 1000)] /\
  url_Query u !! "query" = Some ["{" +:+ s +:+ "}"] /\ url_Query u !! "step" = Some ["2"] /\
  (forall k, k ∉ read_keys -> url_Query u !! k = url_Query (url c) !! k) /\
  (forall f t s', url_Query (url_read u f t s') = url_Query (url_read (url c) f t s')) /\
  (forall m, read_response r = inr m <-> exists resp, r = inr resp /\ status_class resp = 2 /\
    resp_error resp = None /\ result_matrix <$> unmarshal_queryRes (resp_body resp) = Some m).
Proof.
  intros Hms Hs Hq u Hu. pose proof (Client_Read_exchange c w from through ms s Hms Hs Hu) as Hread. cbv zeta in Hread. fold u in Hread.
  destruct (http_Do w (client c) (timeout c) _) as [w' r] eqn:Hdo. exists w', r.
  destruct (read_values_lookup (url_Query (url c)) from through s) as (Hst&Hen&Hqu&Hsp&Hot).
  pose proof (url_read_Query (url c) from through s Hq) as Hqu'. fold u in Hqu'.
  assert (no_empty_values (url_Query u)) as Hnu by (rewrite Hqu'; by apply read_values_no_empty).
  split_ands; rewrite ?Hqu'; try done.
  - intros f t s'. rewrite (url_read_Query u), (url_read_Query (url c)), Hqu' by done. apply read_values_overwrite.
  - intros m. apply read_response_spec.
Qed.

(** The bounds of the range query in seconds. For times after the epoch the
    requested interval starts at most 999 ms before [from], and ends up to
    999 ms before [through]: a sample in the last partial second of the
    interval is not asked for, unless [through] is a whole second. *)
Theorem Read_window (from through t : Time) :
  0 <= from -> 0 <= through ->
  let start := Z.quot from client_nanosPerTick * 1000 in
  let end_ := Z.quot through client_nanosPerTick * 1000 in
  start <= from < start + 1000 /\ end_ <= through < end_ + 1000 /\
  (from <= t <= through -> (start <= t <= end_ <-> t <= through - Z.rem through 1000)) /\
  (Z.rem through 1000 <> 0 -> ~ start <= through <= end_).
Proof.
  intros Hf Ht. change client_nanosPerTick with 1000. cbv zeta.
  pose proof (Z.quot_rem' from 1000) as Hqf. pose proof (Z.quot_rem' through 1000) as Hqt.
  pose proof (Z.rem_bound_pos from 1000 Hf ltac:(lia)). pose proof (Z.rem_bound_pos through 1000 Ht ltac:(lia)).
  split_ands; lia.
Qed.

(** Where Read panics: on a matcher whose type is none of the four, before
    anything is sent, and on a URL that does not parse, whose error is ignored
    and whose nil request is then dereferenced. *)
Theorem Client_Read_panics (c : Client) (w : W) (from through : Time) ms :
  (~ Forall known_type ms -> Client_Read c w from through ms = Panic (PanicMsg "invalid matcher type")) /\
  (forall s, Forall known_type ms -> LabelMatchers_String ms = Ret s ->
    is_Some (url_valid (url_String (url_read (url c) from through s))) ->
    Client_Read c w from through ms = Panic PanicNilDeref).
Proof.
  unfold Client_Read. split.
  - intros Hms. assert (labelMatchersToProto ms = Panic (PanicMsg "invalid matcher type")) as ->; [|done].
    apply outcome_map_panics.
    + apply Forall_forall. intros m _. destruct (labelMatcherToProto_cases m) as [Hk Hu].
      destruct (decide (known_type m)); [by left; apply Hk|by right; apply Hu].
    + apply not_Forall_Exists in Hms; [|apply _]. eapply Exists_impl; [exact Hms|].
      intros m. apply labelMatcherToProto_cases.
  - intros s Hms Hs [err Herr]. destruct (labelMatchersToProto_known ms Hms) as [pb ->].
    rewrite Hs. simpl. fold (url_read (url c) from through s). unfold NewRequest. by rewrite Herr.
Qed.

End client_proofs.

(** ** A concrete outside world *)

(** The server answers from a script; parameters are encoded with the bits of
    stdpp's [encode]. *)
Module ScriptedHTTP.
Export LiteralRelabel.

Fixpoint bits_of (p : positive) : string :=
  match p with
  | xH => EmptyString
  | xO p => String.String "0" (bits_of p)
  | xI p => String.String "1" (bits_of p)
  end.
Fixpoint of_bits (s : string) : positive :=
  match s with
  | EmptyString => xH
  | String.String c s => if Ascii.eqb c "0" then xO (of_bits s) else xI (of_bits s)
  end.
Lemma of_bits_of p : of_bits (bits_of p) = p.
Proof. induction p as [p IH|p IH|]; simpl; by rewrite ?IH. Qed.

Record plain_url := mkURL { url_base : string; url_bits : string }.

Definition decode_values (u : plain_url) : Values := default ∅ (decode (of_bits (url_bits u))).

Lemma decode_encode_values (v : Values) base :
  decode_values (mkURL base (bits_of (encode v))) = v.
Proof. unfold decode_values. simpl. by rewrite of_bits_of, decode_encode. Qed.

Definition fixed_matrix : Matrix :=
  [mkSampleStream {["__name__" := "up"; "site" := "a"]} [mkSamplePair 1000 f64_zero]].

(** The body of the answer that holds it. *)
Definition fixed_body : string := print_json (enc_matrix_answer (fun _ => "0") fixed_matrix).

#[export] Instance scripted_http : HTTPLib (list (error + Response)) := {|
  URL := plain_url;
  url_String u := url_base u +:+ "?" +:+ url_bits u;
  url_Query := decode_values;
  set_RawQuery u q := mkURL (url_base u) q;
  Values_Encode v := bits_of (encode v);
  Query_Encode u v _ := decode_encode_values v (url_base u);
  set_RawQuery_again _ _ _ := eq_refl;
  HTTPClientConfig := bool;
  HTTPClient := unit;
  NewClientFromConfig ok := if ok : bool then inr tt else inl "bad TLS configuration";
  proto_Marshal req := inr (pretty (length (Timeseries req)));
  snappy_Encode data := data;
  url_valid s := if String.prefix "http" s then None else Some "unsupported scheme";
  http_Do script _ _ _ :=
    match script with [] => ([], inl "connection refused") | r :: script => (script, r) end;
  json_error _ := "invalid character"
|}.

Definition empty_url : plain_url := mkURL "http://remote/read" (bits_of (encode (∅ : Values))).
Definition plain_client : Client := mkClient 0 empty_url tt (30 * Second).

Definition answer (code : Z) (body : string) : error + Response :=
  inr (mkResponse code "status" body None).
End ScriptedHTTP.

Section examples.
Import ScriptedHTTP.

(** A 503 with two lines of text is retried, a 404 is not. *)
Example store_statuses :
  (Client_Store plain_client [answer 503 ("try later" +:+ String.String "010" "bye")] []).2 =
    Some (mkStoreError "server returned HTTP status status: try later" true) /\
  (Client_Store plain_client [answer 404 "gone"] []).2 =
    Some (mkStoreError "server returned HTTP status status: gone" false) /\
  (Client_Store plain_client [answer 204 "x"] []).2 = None /\
  (Client_Store plain_client [] []).2 = Some (mkStoreError "connection refused" true).
Proof. vm_compute. done. Qed.

Lemma Client_Read_correct_witness :
  exists c, Client_Read plain_client [answer 200 fixed_body] 1500 2999 [] = Ret ([], c, inr (Some <$> fixed_matrix)) /\
    url_Query (url c) !! "end" = Some ["2"].
Proof.
  destruct (Client_Read_correct plain_client [answer 200 fixed_body] 1500 2999 [] EmptyString)
    as (w'&r&Hdo&Hr&_&Hend&_).
  - constructor.
  - reflexivity.
  - intros k l Hk. vm_compute in Hk. discriminate.
  - vm_compute. reflexivity.
  - exists (mkClient (index plain_client) (url_read (url plain_client) 1500 2999 EmptyString)
      (client plain_client) (timeout plain_client)). split.
    + rewrite Hr. cbn in Hdo. injection Hdo as <- <-. reflexivity.
    + etransitivity; [exact Hend|]. vm_compute. reflexivity.
Defined.

Lemma Read_window_witness :
  ~ (Z.quot 1500 client_nanosPerTick * 1000 <= 2999 <= Z.quot 2999 client_nanosPerTick * 1000).
Proof. apply (Read_window 1500 2999 0); [lia|lia|]. vm_compute. discriminate. Defined.

End examples.
