(* ===== verification/ClientRace.v ===== *)
(** * Concurrent reads of one client ([storage/remote/client.go])

    A reader keeps one client per endpoint, and every query gets the same
    pointers to them. [Client.Read] sets the query of the client's URL in place and
    then builds its request from that URL, without a lock: here are the accesses
    of any number of reads to the shared URL, as atomic steps. The assignment of
    the string is taken to be atomic, which the Go memory model does not promise. *)
From S2P Require Import Prelude Model MetricPkg Relabel Queue Json Answer Client.
Import Matcher.

Open Scope Z_scope.

Section race.
Context {W : Type} `{HTTPLib W}.

(** What a read is asked for; [rp_query] is the text of its matchers. *)
Record read_params := mkReadParams {
  rp_from : Time;
  rp_through : Time;
  rp_query : string
}.

(** Where a read is: before [c.url.Query()], with the parameters it is about to
    store in the URL, before [c.url.String()], or with its request. *)
Inductive read_pc :=
  | RQuery
  | RSetting (q : Values)
  | RSet
  | RSent (req : Request)
  | RPanicked.

Record read_state := mkReadState {
  shared_url : URL;
  reads : list read_pc
}.

Definition read_start (u : URL) (params : list read_params) : read_state :=
  mkReadState u ((fun _ => RQuery) <$> params).

(** The next access of read [i]. *)
Definition read_step (params : list read_params) (i : nat) (s : read_state) : option read_state :=
  p ← params !! i; pc ← reads s !! i;
  match pc with
  | RQuery =>
      let q := read_values (url_Query (shared_url s)) (rp_from p) (rp_through p) (rp_query p) in
      Some (mkReadState (shared_url s) (<[i := RSetting q]> (reads s)))
  | RSetting q =>
      Some (mkReadState (set_RawQuery (shared_url s) (Values_Encode q)) (<[i := RSet]> (reads s)))
  | RSet =>
      let pc := match NewRequest "GET" (url_String (shared_url s)) EmptyString with
                | inl _ => RPanicked
                | inr req => RSent req
                end in
      Some (mkReadState (shared_url s) (<[i := pc]> (reads s)))
  | RSent _ | RPanicked => None
  end.

Fixpoint read_run (params : list read_params) (sched : list nat) (s : read_state) : option read_state :=
  match sched with
  | [] => Some s
  | i :: sched => s ← read_step params i s; read_run params sched s
  end.

(** The URL with the parameters of a read, and the request for it. *)
Definition own_url (u : URL) (p : read_params) : URL := url_read u (rp_from p) (rp_through p) (rp_query p).
Definition request_of (u : URL) : read_pc :=
  match NewRequest "GET" (url_String u) EmptyString with inl _ => RPanicked | inr req => RSent req end.

(** ** What any schedule leaves *)

Variables (u0 : URL) (params : list read_params).
Hypothesis Hu0 : no_empty_values (url_Query u0).

Definition own_values (p : read_params) : Values :=
  read_values (url_Query u0) (rp_from p) (rp_through p) (rp_query p).

Lemma own_url_Query p : url_Query (own_url u0 p) = own_values p.
Proof. apply Query_Encode. by apply read_values_no_empty. Qed.

Lemma own_url_again p p' : own_url (own_url u0 p) p' = own_url u0 p'.
Proof.
  unfold own_url at 1. unfold url_read. fold (own_url u0 p). rewrite own_url_Query. unfold own_values.
  rewrite read_values_overwrite. unfold own_url, url_read. apply set_RawQuery_again.
Qed.

(** A read that has stored its parameters. *)
Definition has_set (pc : read_pc) : Prop :=
  match pc with RQuery | RSetting _ => False | _ => True end.

(** The URL is as at the start, or as some read that has stored its parameters
    left it. *)
Definition set_by_some (l : list read_pc) (u : URL) : Prop :=
  exists j p pc, params !! j = Some p /\ l !! j = Some pc /\ has_set pc /\ u = own_url u0 p.

Definition pc_ok (s : read_state) (p : read_params) (pc : read_pc) : Prop :=
  match pc with
  | RQuery => True
  | RSetting q => q = own_values p
  | RSet => set_by_some (reads s) (shared_url s)
  | _ => exists u, set_by_some (reads s) u /\ pc = request_of u
  end.

Record read_inv (s : read_state) : Prop := {
  ri_url : shared_url s = u0 \/ set_by_some (reads s) (shared_url s);
  ri_pcs : Forall2 (pc_ok s) params (reads s)
}.

Lemma url_own (s : read_state) p : read_inv s -> own_url (shared_url s) p = own_url u0 p.
Proof. intros [[->|(j&p'&pc&_&_&_&->)] _]; [done|apply own_url_again]. Qed.

Lemma url_values (s : read_state) p : read_inv s ->
  read_values (url_Query (shared_url s)) (rp_from p) (rp_through p) (rp_query p) = own_values p.
Proof.
  intros [[->|(j&p'&pc&_&_&_&->)] _]; [done|]. rewrite own_url_Query. apply read_values_overwrite.
Qed.

Lemma set_by_some_insert l u i pc pc' :
  l !! i = Some pc -> (has_set pc -> has_set pc') -> set_by_some l u -> set_by_some (<[i := pc']> l) u.
Proof.
  intros Hi Hs (j&p&pcj&Hp&Hj&Hset&->). destruct (decide (i = j)) as [->|Hne].
  - exists j, p, pc'. rewrite list_lookup_insert_eq by by eapply lookup_lt_Some.
    split_ands; try done. apply Hs. congruence.
  - exists j, p, pcj. by rewrite list_lookup_insert_ne.
Qed.

(** Replacing one entry keeps what the others say, if the URL of those that are
    about to read it is still one that some read has set. *)
Lemma read_inv_insert s i p pc pc' u :
  read_inv s -> params !! i = Some p -> reads s !! i = Some pc -> (has_set pc -> has_set pc') ->
  (u = shared_url s \/ set_by_some (<[i := pc']> (reads s)) u) ->
  pc_ok (mkReadState u (<[i := pc']> (reads s))) p pc' ->
  read_inv (mkReadState u (<[i := pc']> (reads s))).
Proof.
  intros [Hurl Hpcs] Hp Hi Hset Hu Hok. constructor; cbn [shared_url reads].
  - destruct Hu as [->|Hu]; [|by right]. destruct Hurl as [->|Hurl]; [by left|right].
    by eapply set_by_some_insert.
  - apply Forall2_same_length_lookup. split; [by rewrite length_insert, (Forall2_length _ _ _ Hpcs)|].
    intros k pk pck Hpk Hk. apply list_lookup_insert_Some in Hk as [(<-&<-&_)|[Hne Hk]].
    { rewrite Hp in Hpk. by injection Hpk as <-. }
    pose proof (Forall2_lookup_lr _ _ _ _ _ _ Hpcs Hpk Hk) as Hold.
    destruct pck as [|q| |req|]; cbn [pc_ok reads shared_url] in *; try done.
    + destruct Hu as [->|Hu]; [|done]. by eapply set_by_some_insert.
    + destruct Hold as (v&Hv&Hreq). exists v. split; [|done]. by eapply set_by_some_insert.
    + destruct Hold as (v&Hv&Hreq). exists v. split; [|done]. by eapply set_by_some_insert.
Qed.

Lemma read_step_inv s i s' : read_inv s -> read_step params i s = Some s' -> read_inv s'.
Proof.
  intros Hs Hst. unfold read_step in Hst. destruct (params !! i) as [p|] eqn:Hp; [|done].
  destruct (reads s !! i) as [pc|] eqn:Hi; [|done]. cbn [mbind option_bind] in Hst.
  pose proof (Forall2_lookup_lr _ _ _ _ _ _ (ri_pcs _ Hs) Hp Hi) as Hok.
  destruct pc as [|q| |req|]; try done; injection Hst as <-.
  - eapply read_inv_insert; [done..|by left|]. cbn. by apply url_values.
  - cbn in Hok. subst q.
    assert (set_RawQuery (shared_url s) (Values_Encode (own_values p)) = own_url u0 p) as ->.
    { rewrite <- (url_own s) by done. unfold own_url, url_read. by rewrite url_values. }
    assert (set_by_some (<[i := RSet]> (reads s)) (own_url u0 p)) as Hset.
    { exists i, p, RSet. rewrite list_lookup_insert_eq by by eapply lookup_lt_Some. done. }
    eapply read_inv_insert; [done..|by right|done].
  - cbn in Hok. fold (request_of (shared_url s)).
    assert (has_set (request_of (shared_url s))) as Hr by (unfold request_of; by case_match).
    eapply read_inv_insert; [done..|by left|].
    assert (set_by_some (<[i := request_of (shared_url s)]> (reads s)) (shared_url s)) as Hset
      by by eapply set_by_some_insert.
    destruct (request_of (shared_url s)) as [|q| |req|] eqn:He; [done..|exact Hset|exists (shared_url s)|exists (shared_url s)];
      by rewrite He.
Qed.

Lemma read_start_inv : read_inv (read_start u0 params).
Proof. constructor; [by left|]. cbn. by apply Forall2_fmap_r, Forall_Forall2_diag, Forall_true. Qed.

Lemma read_run_inv sched s s' : read_inv s -> read_run params sched s = Some s' -> read_inv s'.
Proof.
  revert s. induction sched as [|i sched IH]; intros s Hs Hrun; cbn in Hrun; [by injection Hrun as <-|].
  destruct (read_step params i s) as [s1|] eqn:Hst; [|done]. eapply IH; [|done]. by eapply read_step_inv.
Qed.

(** A read up to its request, without the others. *)
Lemma run_set s i p l :
  read_inv s -> params !! i = Some p -> reads s !! i = Some RQuery ->
  read_run params (i :: i :: l) s = read_run params l (mkReadState (own_url u0 p) (<[i := RSet]> (reads s))).
Proof.
  intros Hs Hp Hi. pose proof (lookup_lt_Some _ _ _ Hi) as Hlt.
  cbn [read_run]. unfold read_step. rewrite Hp. cbn [mbind option_bind]. rewrite Hi.
  cbn [mbind option_bind reads shared_url]. rewrite url_values, list_lookup_insert_eq by done.
  cbn [mbind option_bind]. rewrite list_insert_insert_eq. do 2 f_equal.
  rewrite <- (url_own s) by done. unfold own_url, url_read. by rewrite url_values.
Qed.

Lemma run_send u l i p :
  params !! i = Some p -> l !! i = Some RSet ->
  read_run params [i] (mkReadState u l) = Some (mkReadState u (<[i := request_of u]> l)).
Proof. intros Hp Hi. cbn [read_run]. unfold read_step. rewrite Hp. cbn [mbind option_bind reads]. by rewrite Hi. Qed.

Lemma run_set_inv s i p :
  read_inv s -> params !! i = Some p -> reads s !! i = Some RQuery ->
  read_inv (mkReadState (own_url u0 p) (<[i := RSet]> (reads s))).
Proof. intros Hs Hp Hi. eapply (read_run_inv [i; i]); [done|]. by rewrite (run_set s i p). Qed.

Lemma run_alone s i p :
  read_inv s -> params !! i = Some p -> reads s !! i = Some RQuery ->
  exists s', read_run params [i; i; i] s = Some s' /\ reads s' !! i = Some (request_of (own_url u0 p)).
Proof.
  intros Hs Hp Hi. pose proof (lookup_lt_Some _ _ _ Hi) as Hlt. eexists.
  rewrite (run_set s i p), (run_send _ _ i p) by (done || by rewrite list_lookup_insert_eq).
  split; [done|]. cbn [reads]. by rewrite list_lookup_insert_eq by by rewrite length_insert.
Qed.

Lemma run_confused s i j p p' :
  read_inv s -> params !! i = Some p -> params !! j = Some p' -> i <> j ->
  reads s !! i = Some RQuery -> reads s !! j = Some RQuery ->
  exists s', read_run params [i; i; j; j; i] s = Some s' /\ reads s' !! i = Some (request_of (own_url u0 p')).
Proof.
  intros Hs Hp Hp' Hne Hi Hj. pose proof (lookup_lt_Some _ _ _ Hi) as Hlt. eexists.
  rewrite (run_set s i p) by done. erewrite (run_set _ j p'); [|by eapply run_set_inv|done|cbn [reads]; by rewrite list_lookup_insert_ne].
  rewrite (run_send _ _ i p); [|done|].
  - split; [done|]. cbn [reads]. rewrite list_lookup_insert_eq; [done|]. by rewrite !length_insert.
  - cbn [reads]. rewrite list_lookup_insert_ne by done.
    by rewrite list_lookup_insert_eq.
Qed.

End race.

Section theorems.
Context `{RegexpLib, StrconvLib}.
Context {W : Type} `{HTTPLib W}.

(** [Client_Read] is a read that runs alone, and the exchange of its request. *)
Lemma Client_Read_request (c : Client) (w : W) from through ms s :
  Forall known_type ms -> LabelMatchers_String ms = Ret s ->
  Client_Read c w from through ms =
    match request_of (own_url (url c) (mkReadParams from through s)) with
    | RSent req =>
        let '(w', r) := http_Do w (client c) (timeout c) req in
        Ret (w', mkClient (index c) (own_url (url c) (mkReadParams from through s)) (client c) (timeout c),
             read_response r)
    | _ => Panic PanicNilDeref
    end.
Proof.
  intros Hms Hs. destruct (labelMatchersToProto_known ms Hms) as [pb Hpb].
  unfold Client_Read. rewrite Hpb, Hs. cbn [mbind outcome_bind url]. unfold request_of.
  by destruct (NewRequest _ _ _).
Qed.

(** C6: Concurrent reads of a client send each other's requests. Whatever the
    interleaving of the accesses of the reads to the URL they share, a read that
    has sent a request has sent, complete and unmixed, that of some read that had
    stored its parameters by then. A read that no other interrupts sends its own,
    the one that [Client_Read] sends for it; but of any two reads that have not
    begun, the first may be interrupted so that it sends the request of the
    second, and so answers its query with the answer to the other. *)
Theorem concurrent_reads (c : Client) params sched s :
  no_empty_values (url_Query (url c)) ->
  read_run params sched (read_start (url c) params) = Some s ->
  (forall i pc, reads s !! i = Some pc -> has_set pc -> pc <> RSet ->
     exists j p pcj, params !! j = Some p /\ reads s !! j = Some pcj /\ has_set pcj /\
       pc = request_of (own_url (url c) p)) /\
  (forall i p, params !! i = Some p -> reads s !! i = Some RQuery ->
     exists s', read_run params [i; i; i] s = Some s' /\ reads s' !! i = Some (request_of (own_url (url c) p)) /\
       forall ms w, Forall known_type ms -> LabelMatchers_String ms = Ret (rp_query p) ->
         Client_Read c w (rp_from p) (rp_through p) ms =
           match request_of (own_url (url c) p) with
           | RSent req =>
               let '(w', r) := http_Do w (client c) (timeout c) req in
               Ret (w', mkClient (index c) (own_url (url c) p) (client c) (timeout c), read_response r)
           | _ => Panic PanicNilDeref
           end) /\
  (forall i j p p', params !! i = Some p -> params !! j = Some p' -> i <> j ->
     reads s !! i = Some RQuery -> reads s !! j = Some RQuery ->
     exists s', read_run params [i; i; j; j; i] s = Some s' /\
       reads s' !! i = Some (request_of (own_url (url c) p'))).
Proof.
  intros Hu Hrun. pose proof (read_run_inv _ _ Hu _ _ _ (read_start_inv (url c) params) Hrun) as Hs.
  split; [|split].
  - intros i pc Hi Hset Hne. destruct (Forall2_lookup_r _ _ _ _ _ (ri_pcs _ _ _ Hs) Hi) as (p&_&Hok).
    destruct pc as [|q| |req|]; try done; destruct Hok as (u&(j&pj&pcj&Hpj&Hj&Hsj&->)&->); by exists j, pj, pcj.
  - intros i p Hp Hi. destruct (run_alone _ _ Hu s i p Hs Hp Hi) as (s'&Hr&Hq). exists s'. split_ands; [done..|].
    intros ms w Hms Ht. rewrite (Client_Read_request _ _ _ _ _ _ Hms Ht). by destruct p.
  - intros i j p p' Hp Hp' Hne Hi Hj. by eapply run_confused.
Qed.

End theorems.

(** ** Two queries *)

Section examples.
Import ScriptedHTTP.

Definition two_reads : list read_params := [mkReadParams 1000 2000 "up"; mkReadParams 5000 6000 "down"].

Lemma concurrent_reads_witness :
  exists s, read_run two_reads [0; 0; 1; 1; 0]%nat (read_start (url plain_client) two_reads) = Some s /\
    reads s !! 0%nat = Some (request_of (own_url (url plain_client) (mkReadParams 5000 6000 "down"))) /\
    request_of (own_url (url plain_client) (mkReadParams 5000 6000 "down")) <>
      request_of (own_url (url plain_client) (mkReadParams 1000 2000 "up")).
Proof.
  destruct (concurrent_reads plain_client two_reads [] (read_start (url plain_client) two_reads)) as (_&_&Hc).
  - intros k l Hk. vm_compute in Hk. discriminate.
  - reflexivity.
  - destruct (Hc 0%nat 1%nat (mkReadParams 1000 2000 "up") (mkReadParams 5000 6000 "down")) as (s'&Hr&Hq);
      [reflexivity|reflexivity|discriminate|reflexivity|reflexivity|].
    exists s'. split; [exact Hr|]. split; [exact Hq|]. vm_compute. discriminate.
Defined.

End examples.
