(* ===== verification/Read.v ===== *)
(** * Reading from remote storage ([storage/remote/read.go])

    [Reader] keeps a client per configured endpoint; its queriers add the
    external labels to a query and remove them from the answer. The last
    section relates this to what the queues send. *)
From S2P Require Import Prelude Model MetricPkg Iterator Relabel Ewma Queue Json Answer Client.
Import Matcher.

Open Scope Z_scope.

Section read.
Context `{RegexpLib, StrconvLib, MapOrder}.
Context {W : Type} `{HTTPLib W}.

(** The mutex of the reader makes each operation atomic. *)
Record Reader := mkReader {
  clients : list Client;
  r_externalLabels : LabelSet
}.

Record querier := mkQuerier {
  q_client : Client;
  q_externalLabels : LabelSet
}.

(** The loop of [ApplyConfig]: it stops at the first client that fails. *)
Fixpoint new_clients (i : Z) (confs : list RemoteConfig) : error + list Client :=
  match confs with
  | [] => inr []
  | conf :: confs =>
      match client_of i conf with
      | inl err => inl err
      | inr c =>
          match new_clients (i + 1) confs with
          | inl err => inl err
          | inr cs => inr (c :: cs)
          end
      end
  end.

Definition Reader_ApplyConfig (r : Reader) (conf : RemoteStorageConfig) : Reader * option error :=
  match new_clients 0 (RemoteReadConfigs conf) with
  | inl err => (r, Some err)
  | inr clients => (mkReader clients (ExternalLabels conf), None)
  end.

Definition Queriers (r : Reader) : list querier :=
  (fun c => mkQuerier c (r_externalLabels r)) <$> clients r.

(** The loop over the labels that are left; [panic(err)] if a matcher cannot
    be built. *)
Fixpoint add_matchers (l : list (LabelName * LabelValue)) (matchers : list LabelMatcher)
    : outcome (list LabelMatcher) :=
  match l with
  | [] => Ret matchers
  | (k, v) :: l =>
      r ← NewLabelMatcher Equal k v;
      match r with
      | inl err => Panic (PanicMsg err)
      | inr m => add_matchers l (matchers ++ [m])
      end
  end.

Definition addExternalLabels (q : querier) (matchers : list LabelMatcher)
    : outcome (list LabelMatcher * LabelSet) :=
  let el := Clone (order 0 (q_externalLabels q)) in
  let el := foldl (fun el m =>
    match el !! MName m with Some _ => delete (MName m) el | None => el end) el matchers in
  matchers ← add_matchers (order 0 el) matchers;
  Ret (matchers, el).

(** [removeLabels] deletes the labels from the metrics of the matrix in place;
    the matrix was just decoded and nobody else holds it. The metric of a nil
    stream is dereferenced for the first label, if there is one. *)
Definition remove_stream (labels : LabelSet) (ss : option SampleStream) : outcome (option SampleStream) :=
  match order 0 labels, ss with
  | [], _ => Ret ss
  | _ :: _, None => Panic PanicNilDeref
  | l, Some ss =>
      Ret (Some (mkSampleStream (foldl (fun metric '(k, _) => delete k metric) (SSMetric ss) l) (SSValues ss)))
  end.
Definition removeLabels (m : PtrMatrix) (labels : LabelSet) : outcome PtrMatrix :=
  outcome_map (remove_stream labels) m.

Definition read (q : querier) (w : W) (from through : Time) (matchers : list LabelMatcher)
    : outcome (W * querier * (error + PtrMatrix)) :=
  ma ← addExternalLabels q matchers;
  let '(m, added) := ma in
  r ← Client_Read (q_client q) w from through m;
  let '(w, c, res) := r in
  let q := mkQuerier c (q_externalLabels q) in
  match res with
  | inl err => Ret (w, q, inl err)
  | inr res => res ← removeLabels res added; Ret (w, q, inr res)
  end.

(** An iterator around a nil stream is [None]: each of its methods dereferences
    the stream. *)
Definition MatrixToIterators (r : error + PtrMatrix) : error + list (option sampleStreamIterator) :=
  match r with
  | inl err => inl err
  | inr m => inr (option_map mkSampleStreamIterator <$> m)
  end.

Definition QueryRange (q : querier) (w : W) (from through : Time) (matchers : list LabelMatcher)
    : outcome (W * querier * (error + list (option sampleStreamIterator))) :=
  r ← read q w from through matchers;
  let '(w, q, res) := r in Ret (w, q, MatrixToIterators res).

Definition QueryInstant (q : querier) (w : W) (ts : Time) (stalenessDelta : Duration)
    (matchers : list LabelMatcher)
    : outcome (W * querier * (error + list (option sampleStreamIterator))) :=
  r ← read q w (Add ts (int64 (- stalenessDelta))) ts matchers;
  let '(w, q, res) := r in Ret (w, q, MatrixToIterators res).

(** The metadata queries are stubs. *)
Definition MetricsForLabelMatchers (q : querier) : error + list Metric := inr [].
Definition LastSampleForLabelMatchers (q : querier) : error + list Sample := inr [].
Definition LabelValuesForLabelName (q : querier) : error + list LabelValue := inr [].
Definition querier_Close (q : querier) : option error := None.

(** ** Lemmas *)

Lemma new_clients_inr i confs cs :
  new_clients i confs = inr cs ->
  length cs = length confs /\
  forall n conf, confs !! n = Some conf ->
    exists c, cs !! n = Some c /\ client_of (i + Z.of_nat n) conf = inr c.
Proof.
  revert i cs. induction confs as [|conf confs IH]; intros i cs; simpl; [by intros [= <-]|].
  destruct (client_of i conf) as [err|c] eqn:Hc; [done|].
  destruct (new_clients (i + 1) confs) as [err|cs'] eqn:Hr; [done|]. intros [= <-].
  destruct (IH _ _ Hr) as [Hl Hn]. simpl. split; [lia|]. intros [|n] conf' Hcf; simpl in *.
  - injection Hcf as <-. exists c. by rewrite Z.add_0_r.
  - destruct (Hn n conf' Hcf) as (c'&Hcs&Hcc). exists c'. split; [done|].
    rewrite <- Hcc. f_equal. lia.
Qed.

Lemma new_clients_inl i confs err :
  new_clients i confs = inl err ->
  exists n conf, confs !! n = Some conf /\ client_of (i + Z.of_nat n) conf = inl err /\
    forall k conf', (k < n)%nat -> confs !! k = Some conf' ->
      exists c, client_of (i + Z.of_nat k) conf' = inr c.
Proof.
  revert i. induction confs as [|conf confs IH]; intros i; simpl; [done|].
  destruct (client_of i conf) as [err'|c] eqn:Hc.
  { intros [= <-]. exists 0%nat, conf. rewrite Z.add_0_r. split_ands; [done|done|lia]. }
  destruct (new_clients (i + 1) confs) as [err'|cs'] eqn:Hr; [|done]. intros [= <-].
  destruct (IH _ Hr) as (n&conf'&Hcf&Hcc&Hk). exists (S n), conf'. split_ands; [done| |].
  - rewrite <- Hcc. f_equal. lia.
  - intros [|k] conf'' Hkn Hcf''; simpl in Hcf''.
    + injection Hcf'' as <-. exists c. by rewrite Z.add_0_r.
    + destruct (Hk k conf'') as [c' Hc']; [lia|done|]. exists c'. rewrite <- Hc'. f_equal. lia.
Qed.

(** Reader.ApplyConfig is all or nothing. If every configured endpoint gets a
    client, the reader has one client per endpoint, in order and with its index,
    and the new external labels, and returns no error; if one fails it returns
    the error of the first that does and the reader is as before. Its queriers
    are one per client, all with the reader's external labels. *)
Theorem Reader_ApplyConfig_correct (r : Reader) (conf : RemoteStorageConfig) :
  (exists cs, Reader_ApplyConfig r conf = (mkReader cs (ExternalLabels conf), None) /\
    length cs = length (RemoteReadConfigs conf) /\
    (forall n rr, RemoteReadConfigs conf !! n = Some rr ->
      exists c, cs !! n = Some c /\ client_of (Z.of_nat n) rr = inr c /\
        Queriers (Reader_ApplyConfig r conf).1 !! n = Some (mkQuerier c (ExternalLabels conf)))) \/
  (exists n rr err, Reader_ApplyConfig r conf = (r, Some err) /\
    RemoteReadConfigs conf !! n = Some rr /\ client_of (Z.of_nat n) rr = inl err /\
    forall k rr', (k < n)%nat -> RemoteReadConfigs conf !! k = Some rr' ->
      exists c, client_of (Z.of_nat k) rr' = inr c).
Proof.
  unfold Reader_ApplyConfig. destruct (new_clients 0 _) as [err|cs] eqn:Hc.
  - right. destruct (new_clients_inl _ _ _ Hc) as (n&rr&Hr&He&Hk). by exists n, rr, err.
  - left. exists cs. destruct (new_clients_inr _ _ _ Hc) as [Hl Hn]. split_ands; [done|done|].
    intros n rr Hrr. destruct (Hn n rr Hrr) as (c&Hcs&Hcc). exists c. split_ands; [done|done|].
    unfold Queriers. simpl. by rewrite list_lookup_fmap, Hcs.
Qed.

(** ** External labels *)

(** The external labels no matcher names. *)
Definition unnamed (ext : LabelSet) (ms : list LabelMatcher) : LabelSet :=
  filter (fun kv => kv.1 ∉ MName <$> ms) ext.

Lemma delete_named ms (el : LabelSet) :
  foldl (fun el m => match el !! MName m with Some _ => delete (MName m) el | None => el end) el ms
  = unnamed el ms.
Proof.
  revert el. induction ms as [|m ms IH]; intros el; simpl.
  - symmetry. apply map_filter_id. intros k v _. simpl. set_solver.
  - assert (forall X : LabelSet, X = delete (MName m) el -> unnamed X ms = unnamed el (m :: ms)) as Hx.
    { intros X ->. apply map_eq. intros k. unfold unnamed. apply option_eq. intros v.
      rewrite !map_lookup_filter_Some, lookup_delete_Some. simpl. set_solver. }
    rewrite IH. apply Hx. destruct (el !! MName m) eqn:He; [done|]. by rewrite delete_id.
Qed.

Definition equal_matcher (k : LabelName) (v : LabelValue) (m : LabelMatcher) : Prop :=
  wf_matcher m /\ MType m = Equal /\ MName m = k /\ MValue m = v.

Lemma add_matchers_spec l ms :
  exists added, add_matchers l ms = Ret (ms ++ added) /\
    Forall2 (fun kv m => equal_matcher kv.1 kv.2 m) l added.
Proof.
  revert ms. induction l as [|[k v] l IH]; intros ms; simpl.
  { exists []. by rewrite app_nil_r. }
  destruct (NewLabelMatcher_Equal k v) as (m&->&Hm). simpl.
  destruct (IH (ms ++ [m])) as (added&->&Hadd). exists (m :: added).
  rewrite <- app_assoc. split; [done|]. by constructor.
Qed.

Lemma addExternalLabels_spec (q : querier) ms :
  exists added, addExternalLabels q ms = Ret (ms ++ added, unnamed (q_externalLabels q) ms) /\
    Forall2 (fun kv m => equal_matcher kv.1 kv.2 m)
      (order 0 (unnamed (q_externalLabels q) ms)) added.
Proof.
  unfold addExternalLabels.
  rewrite (Clone_range (q_externalLabels q)), delete_named by apply order_range.
  destruct (add_matchers_spec (order 0 (unnamed (q_externalLabels q) ms)) ms) as (added&->&Hadd).
  simpl. by exists added.
Qed.

Lemma foldl_delete_lookup {A} (l : list (string * A)) (m : Metric) k :
  foldl (fun metric '(k, _) => delete k metric) m l !! k =
    if decide (k ∈ l.*1) then None else m !! k.
Proof.
  revert m. induction l as [|[k' v'] l IH]; intros m; simpl.
  { done. }
  rewrite IH. destruct (decide (k = k')) as [->|Hne].
  - rewrite lookup_delete_eq. repeat case_decide; set_solver.
  - rewrite lookup_delete_ne by done. repeat case_decide; set_solver.
Qed.

(** A metric without the labels of a set. *)
Definition strip (labels : LabelSet) (m : Metric) : Metric := filter (fun kv => labels !! kv.1 = None) m.

Definition strip_stream (labels : LabelSet) (s : SampleStream) : SampleStream :=
  mkSampleStream (strip labels (SSMetric s)) (SSValues s).

Lemma foldl_delete_strip (m : Metric) labels :
  foldl (fun metric '(k, _) => delete k metric) m (order 0 labels) = strip labels m.
Proof.
  apply map_eq. intros k. rewrite foldl_delete_lookup. unfold strip.
  pose proof (order_range 0 labels) as Ho. apply option_eq. intros v.
  rewrite map_lookup_filter_Some. simpl.
  destruct (labels !! k) as [x|] eqn:Hk.
  - case_decide as Hd; [naive_solver|]. destruct Hd. apply list_elem_of_fmap. exists (k, x).
    split; [done|]. by eapply map_range_elem_of.
  - case_decide as Hd; [|naive_solver]. apply list_elem_of_fmap in Hd as ([k' x]&->&Hin).
    rewrite (map_range_elem_of _ _ _ _ Ho) in Hin. simpl in Hk. congruence.
Qed.

Lemma order_empty labels : order 0 labels = [] <-> labels = ∅.
Proof.
  pose proof (order_range 0 labels) as Ho. split.
  - intros He. apply map_empty. intros k. apply eq_None_not_Some. intros [v Hv].
    apply (map_range_elem_of _ _ _ _ Ho) in Hv. rewrite He in Hv. by apply elem_of_nil in Hv.
  - intros ->. destruct (order 0 ∅) as [|[k v] l]; [done|].
    assert ((k, v) ∈ (k, v) :: l) as Hin by set_solver. by apply (map_range_elem_of _ _ _ _ Ho) in Hin.
Qed.

(** Whether removing the labels dereferences a nil stream of the answer. *)
Definition removes_nil (labels : LabelSet) (m : PtrMatrix) : Prop := labels <> ∅ /\ None ∈ m.
#[export] Instance removes_nil_dec labels m : Decision (removes_nil labels m) := and_dec _ _.

Lemma strip_stream_empty s : strip_stream ∅ s = s.
Proof.
  destruct s as [m l]. unfold strip_stream, strip. f_equal. apply map_filter_id. by intros k v _.
Qed.

Lemma remove_stream_spec labels ss :
  remove_stream labels ss =
    if decide (removes_nil labels [ss]) then Panic PanicNilDeref else Ret (option_map (strip_stream labels) ss).
Proof.
  unfold remove_stream, removes_nil. pose proof (order_empty labels) as Ho.
  destruct (order 0 labels) as [|p l] eqn:Hl, ss as [ss|]; case_decide as Hd; try done.
  - destruct Hd as [[] _]. by apply Ho.
  - rewrite (proj1 Ho) by done. cbn. by rewrite strip_stream_empty.
  - destruct Hd as [[] _]. by apply Ho.
  - destruct Hd as [_ Hn]. by apply list_elem_of_singleton in Hn.
  - unfold strip_stream. cbn. by rewrite <- (foldl_delete_strip (SSMetric ss)), Hl.
  - destruct Hd. split; [|by apply list_elem_of_singleton]. intros He. by apply Ho in He.
Qed.

Lemma removeLabels_spec m labels :
  removeLabels m labels =
    if decide (removes_nil labels m) then Panic PanicNilDeref else Ret (option_map (strip_stream labels) <$> m).
Proof.
  unfold removeLabels. case_decide as Hd.
  - apply outcome_map_panics.
    + apply Forall_forall. intros ss _. rewrite remove_stream_spec. case_decide; [by right|by left; eexists].
    + apply Exists_exists. exists None. split; [apply Hd|]. rewrite remove_stream_spec, decide_True; [done|].
      split; [apply Hd|by apply list_elem_of_singleton].
  - assert (forall ss, ss ∈ m -> remove_stream labels ss = Ret (option_map (strip_stream labels) ss)) as Hs.
    { intros ss Hin. rewrite remove_stream_spec, decide_False; [done|].
      intros [Hne Hn%list_elem_of_singleton]. apply Hd. split; [done|]. by rewrite Hn. }
    clear Hd. induction m as [|ss m IH]; [done|]. cbn [outcome_map].
    rewrite Hs, IH by set_solver. done.
Qed.

(** What a matcher and a list of them select. *)
Definition selects (ms : list LabelMatcher) (m : Metric) : Prop :=
  Forall (fun lm => Match lm (label_value m (MName lm)) = Ret true) ms.

Lemma equal_matcher_selects k v lm m :
  equal_matcher k v lm -> m !! k = Some v -> Match lm (label_value m (MName lm)) = Ret true.
Proof.
  intros (Hw&Ht&<-&<-) Hk. rewrite Match_wf by done. unfold label_value. rewrite Hk, Ht. simpl.
  by rewrite bool_decide_eq_true_2.
Qed.

Lemma unnamed_lookup ext ms k v :
  unnamed ext ms !! k = Some v <-> ext !! k = Some v /\ k ∉ MName <$> ms.
Proof. unfold unnamed. by rewrite map_lookup_filter_Some. Qed.

(** The added matchers hold of a metric that has the added labels. *)
Lemma added_select ext ms added (m : Metric) :
  Forall2 (fun kv lm => equal_matcher kv.1 kv.2 lm) (order 0 (unnamed ext ms)) added ->
  unnamed ext ms ⊆ m -> selects (ms ++ added) m <-> selects ms m.
Proof.
  intros Ha Hm. unfold selects. rewrite Forall_app. split; [tauto|]. intros Hms. split; [done|].
  apply Forall_lookup. intros i lm Hi.
  destruct (Forall2_lookup_r _ _ _ _ _ Ha Hi) as ([k v]&Hkv&Heq).
  eapply equal_matcher_selects; [done|]. simpl. eapply lookup_weaken; [|done].
  eapply map_range_elem_of; [apply order_range|]. by eapply list_elem_of_lookup_2.
Qed.

(** C30: a remote range query. QueryRange asks the remote for the given matchers
    followed by one equality matcher for every external label that no matcher
    names (and no other), whatever the order of the maps; an error of the client
    is returned as it is; a matrix becomes one iterator per stream, in order,
    over the stream's values and its metric without the added labels. A panic of
    the client is a panic; the only other one is that an answer with a null
    stream is dereferenced when some label was added, and else gives an iterator
    around nil. QueryInstant is the same query over the staleness interval before
    the instant. *)
Theorem QueryRange_correct (q : querier) (w : W) (from through : Time) (ms : list LabelMatcher) :
  let el := filter (fun kv => kv.1 ∉ MName <$> ms) (q_externalLabels q) in
  exists added, Forall2 (fun kv m => equal_matcher kv.1 kv.2 m) (order 0 el) added /\
  QueryRange q w from through ms =
    (r ← Client_Read (q_client q) w from through (ms ++ added);
     let '(w', c, res) := r in
     match res : error + PtrMatrix with
     | inl err => Ret (w', mkQuerier c (q_externalLabels q), inl err)
     | inr m =>
         if decide (el <> ∅ /\ None ∈ m) then Panic PanicNilDeref
         else Ret (w', mkQuerier c (q_externalLabels q),
                inr (option_map (fun s => mkSampleStreamIterator (strip_stream el s)) <$> m))
     end) /\
  (forall d, QueryInstant q w through d ms =
     QueryRange q w (Add through (int64 (- d))) through ms).
Proof.
  intros el. destruct (addExternalLabels_spec q ms) as (added&Hq&Ha). exists added.
  split; [done|]. split; [|done]. unfold QueryRange, read. rewrite Hq. simpl.
  destruct (Client_Read _ _ _ _ _) as [[[w' c] [err|m]]|p]; [done| |done]. simpl.
  rewrite removeLabels_spec. unfold removes_nil. change (unnamed _ _) with el.
  destruct (decide _); [done|]. simpl.
  unfold MatrixToIterators. rewrite <- list_fmap_compose. do 3 f_equal.
  apply list_fmap_ext. by intros _ [s|] _.
Qed.

Context `{!RelabelLib}.

(** C29: external labels round-trip between the queues and the queriers. A sample
    whose metric has none of the external labels is queued (without relabelling)
    with all of them added. A query then asks for matchers that select this
    stored metric exactly when the user's matchers do, and the labels removed
    from the answer give back the original metric, completed with just those
    external labels the user's matchers name. *)
Theorem external_labels_roundtrip (t : QueueManager) copy_order labels_order (smp : Sample)
    (q : querier) (ms : list LabelMatcher) :
  map_range (SMetric smp) copy_order -> map_range (externalLabels t) labels_order ->
  relabelConfigs t = [] -> q_externalLabels q = externalLabels t ->
  SMetric smp ##ₘ externalLabels t ->
  exists stored ms' el, process_sample t copy_order labels_order smp = Ret (Some stored) /\
  SMetric stored = SMetric smp ∪ externalLabels t /\
  addExternalLabels q ms = Ret (ms', el) /\
  (selects ms' (SMetric stored) <-> selects ms (SMetric stored)) /\
  strip el (SMetric stored) =
    SMetric smp ∪ filter (fun kv => kv.1 ∈ MName <$> ms) (externalLabels t) /\
  ((forall k, is_Some (externalLabels t !! k) -> k ∉ MName <$> ms) ->
    strip el (SMetric stored) = SMetric smp).
Proof.
  intros Hc Hl Hrc Hq Hd. destruct (addExternalLabels_spec q ms) as (added&Ha&Hadd).
  eexists _, _, _. rewrite process_sample_spec, Hrc by done. split; [done|]. simpl.
  split; [done|]. split; [exact Ha|]. rewrite Hq in *.
  set (m := SMetric smp) in *. set (ext := externalLabels t) in *.
  assert (unnamed ext ms ⊆ m ∪ ext) as Hsub.
  { transitivity ext; [apply map_filter_subseteq|by apply map_union_subseteq_r]. }
  split; [by apply (added_select ext)|].
  assert (strip (unnamed ext ms) (m ∪ ext) = m ∪ filter (fun kv => kv.1 ∈ MName <$> ms) ext) as Hst.
  { assert (m ##ₘ filter (fun kv => kv.1 ∈ MName <$> ms) ext) as Hd2
      by (eapply map_disjoint_weaken_r; [exact Hd|apply map_filter_subseteq]).
    apply map_eq. intros k. apply option_eq. intros v. unfold strip.
    rewrite map_lookup_filter_Some, (lookup_union_Some _ _ _ _ Hd), (lookup_union_Some _ _ _ _ Hd2),
      map_lookup_filter_Some. simpl.
    rewrite eq_None_not_Some. unfold is_Some. setoid_rewrite unnamed_lookup. split.
    - intros [[Hm|He] Hn]; [by left|]. destruct (decide (k ∈ MName <$> ms)); [by right|].
      destruct Hn. by exists v.
    - intros [Hm|[He Hk]]; (split; [tauto|]); intros (v'&He'&Hk'); [|done].
      exact (proj1 (map_disjoint_spec m ext) Hd k v v' Hm He'). }
  split; [done|]. intros Hnone. rewrite Hst.
  assert (filter (fun kv => kv.1 ∈ MName <$> ms) ext = ∅) as ->; [|by rewrite map_union_empty].
  apply map_empty. intros k. apply map_lookup_filter_None. right. simpl. intros v Hk Hin.
  apply (Hnone k); [by eexists|done].
Qed.

End read.

(** ** Concrete queries *)

Section examples.
Import ScriptedHTTP.

Definition reader : Reader :=
  (Reader_ApplyConfig (mkReader [] ∅)
    (mkRemoteStorageConfig {["site" := "a"]} []
      [mkRemoteConfig empty_url (30 * Second) true []])).1.

(** The answer carries the external label, the iterator does not. *)
Example query_through_reader :
  option_map (fun q => match QueryRange q [answer 200 fixed_body] 1500 2999 [] with
    | Ret (_, _, inr its) => option_map IMetric <$> its
    | _ => []
    end) (head (Queriers reader)) = Some [Some {["__name__" := "up"]}].
Proof. vm_compute. reflexivity. Qed.

Lemma external_labels_roundtrip_witness :
  exists stored, process_sample
      (mkQueueManager defaultQueueManagerConfig {["site" := "a"]} [] "q" [] 1
        (newEWMARate ewmaWeight shardUpdateDuration) (newEWMARate ewmaWeight shardUpdateDuration)
        (newEWMARate ewmaWeight shardUpdateDuration) f64_zero (mkMetrics 0 0 0 0))
      [("__name__", "up")] [("site", "a")] (mkSample {["__name__" := "up"]} f64_zero 1)
    = Ret (Some stored) /\
    SMetric stored = {["__name__" := "up"; "site" := "a"]} /\
    strip {["site" := "a"]} (SMetric stored) = {["__name__" := "up"]}.
Proof.
  set (t := mkQueueManager _ _ _ _ _ _ _ _ _ _ _).
  destruct (external_labels_roundtrip t [("__name__", "up")] [("site", "a")]
    (mkSample {["__name__" := "up"]} f64_zero 1)
    (mkQuerier plain_client {["site" := "a"]}) []) as (stored&ms'&el&Hp&Hs&Ha&_&_&Hst).
  - apply Permutation_refl.
  - apply Permutation_refl.
  - reflexivity.
  - reflexivity.
  - simpl. apply map_disjoint_singleton_l_2. reflexivity.
  - exists stored. split; [exact Hp|]. split; [exact Hs|].
    assert (el = {["site" := "a"]}) as Hel.
    { vm_compute in Ha. injection Ha as _ <-. reflexivity. }
    subst el. apply Hst. intros k _. apply not_elem_of_nil.
Defined.

End examples.
