(* ===== verification/Write.v ===== *)
(** * Writing to remote storage ([storage/remote/write.go])

    [Writer] owns one queue per configured endpoint: it starts, stops and
    replaces them when the configuration changes, and hands every sample to each
    of them. A queue is the system of [Shards] with the client of [Client]; as
    the queues talk to different endpoints, each has its own part of the outside
    world. The operations that wait for goroutines are relations. *)
From S2P Require Import Prelude Model MetricPkg Relabel Ewma Queue Shards Client.
Import Matcher.

Open Scope Z_scope.

Section write.
Context `{RelabelLib, StrconvLib, MapOrder}.
Context {W : Type} `{HTTPLib W}.
Variable oob : float64 -> Z.

Record remote_queue := mkRemoteQueue { rq_client : Client; rq_system : system (W := W) }.

(** A step of a queue, which sends through its client. *)
Definition queue_step (q : remote_queue) (e : event) : option (outcome remote_queue) :=
  match qstep (H2 := client_storage (rq_client q)) oob e (rq_system q) with
  | None => None
  | Some r => Some (s ← r; Ret (mkRemoteQueue (rq_client q) s))
  end.

Record Writer := mkWriter { queues : list remote_queue }.

(** The loop that builds the new queues; [w] is what their clients see. *)
Fixpoint new_queues (w : W) (ext : LabelSet) (i : Z) (confs : list RemoteConfig)
    : outcome (error + list remote_queue) :=
  match confs with
  | [] => Ret (inr [])
  | rwConf :: confs =>
      match client_of i rwConf with
      | inl err => Ret (inl err)
      | inr c =>
          t ← NewQueueManager defaultQueueManagerConfig ext (WriteRelabelConfigs rwConf)
            (Client_Name c);
          r ← new_queues w ext (i + 1) confs;
          match r with
          | inl err => Ret (inl err)
          | inr qs => Ret (inr (mkRemoteQueue c (initial_system t w) :: qs))
          end
      end
  end.

(** [q.Start()]. *)
Definition start_queue (q : remote_queue) : option (outcome remote_queue) := queue_step q EStart.

(** The steps of a queue's own goroutines. *)
Inductive runs : remote_queue -> list event -> remote_queue -> Prop :=
  | runs_nil q : runs q [] q
  | runs_cons q e q1 es q2 :
      own_event e -> queue_step q e = Some (Ret q1) -> runs q1 es q2 -> runs q (e :: es) q2.

(** [q.Stop()] closes the channel [quit] and returns when the queue has stopped. *)
Definition stop_queue (q q' : remote_queue) : Prop :=
  exists q1 es, queue_step q EStop = Some (Ret q1) /\ runs q1 es q' /\ stopped (rq_system q').

(** [ApplyConfig] holds the write lock from beginning to end; [olds] are the
    replaced queues in their final state. *)
Inductive ApplyConfig (w0 : W) (wr : Writer) (conf : RemoteStorageConfig)
    : list remote_queue -> Writer -> option error -> Prop :=
  | ApplyConfig_fails err :
      new_queues w0 (ExternalLabels conf) 0 (RemoteWriteConfigs conf) = Ret (inl err) ->
      ApplyConfig w0 wr conf [] wr (Some err)
  | ApplyConfig_replaces newQueues olds started :
      new_queues w0 (ExternalLabels conf) 0 (RemoteWriteConfigs conf) = Ret (inr newQueues) ->
      Forall2 stop_queue (queues wr) olds ->
      Forall2 (fun q q' => start_queue q = Some (Ret q')) newQueues started ->
      ApplyConfig w0 wr conf olds (mkWriter started) None.

(** [Stop] of the writer: it takes no lock and keeps the queues. *)
Definition Writer_Stop (wr wr' : Writer) : Prop := Forall2 stop_queue (queues wr) (queues wr').

(** [Append] holds the read lock; the result of the queues is ignored. [None]
    when a queue blocks. *)
Fixpoint append_queues (qs : list remote_queue) (smpl : Sample)
    : option (outcome (list remote_queue)) :=
  match qs with
  | [] => Some (Ret [])
  | q :: qs =>
      match queue_step q (EAppend (order 0 (SMetric smpl))
                            (order 1 (externalLabels (qm (rq_system q)))) smpl) with
      | None => None
      | Some (Panic p) => Some (Panic p)
      | Some (Ret q) =>
          match append_queues qs smpl with
          | None => None
          | Some r => Some (qs ← r; Ret (q :: qs))
          end
      end
  end.

Definition Writer_Append (wr : Writer) (smpl : Sample)
    : option (outcome (Writer * option error)) :=
  match append_queues (queues wr) smpl with
  | None => None
  | Some r => Some (qs ← r; Ret (mkWriter qs, None))
  end.

Definition Writer_NeedsThrottling (wr : Writer) : bool := false.

(** ** Lemmas *)

(** A queue that runs: built, started, not stopped. *)
Definition running (q : remote_queue) : Prop :=
  inv (rq_system q) /\ upd (rq_system q) <> UNotStarted /\ quit (rq_system q) = false.

Definition valid_rewrites (conf : RemoteStorageConfig) : Prop :=
  Forall (fun rw => Forall valid_config (WriteRelabelConfigs rw)) (RemoteWriteConfigs conf).

Lemma default_well_configured : well_configured defaultQueueManagerConfig.
Proof. split; simpl; lia. Qed.

Lemma queue_step_Ret q e q' :
  queue_step q e = Some (Ret q') <->
  rq_client q' = rq_client q /\
  qstep (H2 := client_storage (rq_client q)) oob e (rq_system q) = Some (Ret (rq_system q')).
Proof.
  unfold queue_step. destruct (qstep _ _ _) as [[s|]|]; simpl.
  - split; [by intros [= <-]|]. destruct q' as [c s']. simpl. by intros [-> [= ->]].
  - split; [done|by intros [_ ?]].
  - split; [done|by intros [_ ?]].
Qed.

Lemma queue_step_inv q e q' :
  inv (rq_system q) -> queue_step q e = Some (Ret q') -> inv (rq_system q').
Proof. intros Hq [_ Hs]%queue_step_Ret. by eapply inv_step. Qed.

Lemma runs_spec q es q' :
  runs q es q' -> inv (rq_system q) ->
  inv (rq_system q') /\ accepted (rq_system q') = accepted (rq_system q) /\
  quit (rq_system q') = quit (rq_system q) /\ rq_client q' = rq_client q.
Proof.
  induction 1 as [q|q e q1 es q2 He Hst Hr IH]; intros Hq; [done|].
  destruct (IH (queue_step_inv _ _ _ Hq Hst)) as (Hi&Ha&Hqu&Hc).
  apply queue_step_Ret in Hst as [Hc1 Hst]. destruct (own_accepted _ _ _ _ He Hst) as [Ha1 Hq1].
  split_ands; [done|congruence..].
Qed.

(** A queue that stopped has sent all it had accepted. *)
Lemma stop_queue_spec q q' :
  inv (rq_system q) -> stop_queue q q' ->
  quit (rq_system q) = false /\ quit (rq_system q') = true /\ inv (rq_system q') /\
  stopped (rq_system q') /\ accepted (rq_system q') = accepted (rq_system q) /\
  (forall fp, with_key fp (concat (sent (rq_system q'))) = with_key fp (accepted (rq_system q))) /\
  concat (sent (rq_system q')) ≡ₚ accepted (rq_system q).
Proof.
  intros Hq (q1&es&Hst&Hr&Hstop). pose proof (queue_step_inv _ _ _ Hq Hst) as Hq1.
  destruct (runs_spec _ _ _ Hr Hq1) as (Hi&Ha&Hqu&_).
  apply queue_step_Ret in Hst as [_ Hst]. simpl in Hst. unfold step_stop in Hst.
  destruct (quit (rq_system q)) eqn:Hquit; [done|]. injection Hst as Hst.
  rewrite <- Hst in Ha, Hqu. simpl in Ha, Hqu. rewrite <- Ha.
  split_ands; try done; [intros fp; by apply sent_key_stopped|by apply sent_all_stopped].
Qed.

Lemma drains_runs c s es s' :
  drains (H2 := client_storage c) oob s es s' ->
  runs (mkRemoteQueue c s) es (mkRemoteQueue c s').
Proof.
  induction 1 as [s|s e s1 es s2 Hint Hst Hd IH]; [constructor|].
  apply (runs_cons _ e (mkRemoteQueue c s1)); [by destruct e| |done].
  by apply queue_step_Ret.
Qed.

(** No queue was asked to reshard to a negative number of shards. *)
Definition sane_reshard (q : remote_queue) : Prop :=
  forall n, resh (rq_system q) = RGot n -> 0 <= n.

Lemma stop_queue_total q : running q -> sane_reshard q -> exists q', stop_queue q q'.
Proof.
  intros (Hi&Hu&Hq) Hn. destruct q as [c s]. simpl in *.
  set (s1 := mkSystem (qm s) (upd s) (resh s) true (stopping s) (world s) (accepted s) (sent s)).
  assert (queue_step (mkRemoteQueue c s) EStop = Some (Ret (mkRemoteQueue c s1))) as Hst.
  { apply queue_step_Ret. split; [done|]. simpl. unfold step_stop. by rewrite Hq. }
  pose proof (queue_step_inv (mkRemoteQueue c s) _ _ Hi Hst) as Hi1.
  destruct (drains_to_stopped (H2 := client_storage c) oob s1 Hi1) as (es&s'&Hd&Hstop); [done|].
  exists (mkRemoteQueue c s'), (mkRemoteQueue c s1), es. split_ands; [done|by apply drains_runs|done].
Qed.

(** A queue that was built and not started. *)
Definition fresh (q : remote_queue) : Prop :=
  inv (rq_system q) /\ upd (rq_system q) = UNotStarted /\ resh (rq_system q) = RNotStarted /\
  quit (rq_system q) = false.

(** The queue of an endpoint, with nothing in it. *)
Definition built (ext : LabelSet) (rw : RemoteConfig) (q : remote_queue) : Prop :=
  url (rq_client q) = rw_URL rw /\ relabelConfigs (qm (rq_system q)) = WriteRelabelConfigs rw /\
  externalLabels (qm (rq_system q)) = ext /\ accepted (rq_system q) = [].

Lemma new_queues_Ret w ext i confs :
  Forall (fun rw => Forall valid_config (WriteRelabelConfigs rw)) confs ->
  (exists qs, new_queues w ext i confs = Ret (inr qs) /\
    Forall fresh qs /\ Forall2 (built ext) confs qs) \/
  (exists err, new_queues w ext i confs = Ret (inl err) /\
    exists n rw, confs !! n = Some rw /\ client_of (i + Z.of_nat n) rw = inl err).
Proof.
  intros Hv. revert i. induction Hv as [|rw confs Hrw Hv IH]; intros i; cbn [new_queues].
  { left. exists []. split_ands; [done|constructor|constructor]. }
  destruct (client_of i rw) as [err|c] eqn:Hc.
  { right. exists err. split; [done|]. exists 0%nat, rw. by rewrite Z.add_0_r. }
  assert (exists t, NewQueueManager defaultQueueManagerConfig ext (WriteRelabelConfigs rw) (Client_Name c)
    = Ret t) as [t Ht] by (by eexists).
  pose proof (inv_initial _ _ _ _ _ w default_well_configured Hrw Ht) as Hi.
  assert (relabelConfigs t = WriteRelabelConfigs rw /\ externalLabels t = ext) as [Hr He]
    by (unfold NewQueueManager in Ht; simpl in Ht; by injection Ht as <-).
  rewrite Ht. simpl.
  destruct (IH (i + 1)) as [(qs&->&Hqs&Hqs2)|(err&->&n&rw'&Hn&Hc')]; simpl.
  - left. eexists. split; [done|]. split; [by constructor|]. constructor; [|done].
    split; [|done]. simpl. unfold client_of, NewClient in Hc. simpl in Hc.
    destruct (NewClientFromConfig _); [done|]. by injection Hc as <-.
  - right. exists err. split; [done|]. exists (S n), rw'. split; [done|]. rewrite <- Hc'. f_equal. lia.
Qed.

Lemma start_queue_spec ext rw q :
  fresh q -> built ext rw q ->
  exists q', start_queue q = Some (Ret q') /\ running q' /\ built ext rw q'.
Proof.
  intros (Hi&Hu&Hr&Hq) (Hb1&Hb2&Hb3&Hb4). unfold start_queue.
  assert (exists q', queue_step q EStart = Some (Ret q') /\ rq_client q' = rq_client q /\
    upd (rq_system q') = URunning /\ quit (rq_system q') = false /\
    built ext rw q') as (q'&Hst&Hc&Hu'&Hq'&Hb').
  { eexists (mkRemoteQueue (rq_client q) _). rewrite queue_step_Ret. simpl. unfold step_start.
    rewrite Hu, Hr, Hq. split; [split; [done|reflexivity]|]. done. }
  exists q'. split; [done|]. split; [|done]. split; [by eapply queue_step_inv|].
  by rewrite Hu'.
Qed.

Lemma start_all ext confs qs :
  Forall fresh qs -> Forall2 (built ext) confs qs ->
  exists started, Forall2 (fun q q' => start_queue q = Some (Ret q')) qs started /\
    Forall running started /\ Forall2 (built ext) confs started.
Proof.
  intros Hf Hb. induction Hb as [|rw q confs qs Hq Hqs IH].
  { exists []. by split_ands; constructor. }
  apply Forall_cons in Hf as [Hfq Hf]. destruct (IH Hf) as (started&H1'&H2'&H3').
  destruct (start_queue_spec ext rw q Hfq Hq) as (q'&Hst&Hrun&Hb).
  exists (q' :: started). by split_ands; constructor.
Qed.

Lemma start_all_functional (qs started started' : list remote_queue) :
  Forall2 (fun q q' => start_queue q = Some (Ret q')) qs started ->
  Forall2 (fun q q' => start_queue q = Some (Ret q')) qs started' -> started = started'.
Proof.
  intros H1'. revert started'. induction H1' as [|q q' qs started Hq Hqs IH]; intros started' H2';
    inversion H2' as [|? q'' ? qs' Hq' Hqs']; subst; [done|].
  f_equal; [congruence|by apply IH].
Qed.

(** A queue has stopped and sent everything. *)
Definition flushed (q q' : remote_queue) : Prop :=
  stopped (rq_system q') /\ concat (sent (rq_system q')) ≡ₚ accepted (rq_system q) /\
  forall fp, with_key fp (concat (sent (rq_system q'))) = with_key fp (accepted (rq_system q)).

Lemma stop_all qs olds : Forall running qs -> Forall2 stop_queue qs olds -> Forall2 flushed qs olds.
Proof.
  intros Hr Hs. induction Hs as [|q q' qs olds Hq Hqs IH]; [constructor|].
  apply Forall_cons in Hr as [Hrq Hr]. constructor; [|by apply IH].
  destruct Hrq as [Hi _]. destruct (stop_queue_spec q q' Hi Hq) as (_&_&_&?&_&?&?).
  by split_ands.
Qed.

Lemma stop_all_total qs :
  Forall running qs -> Forall sane_reshard qs -> exists olds, Forall2 stop_queue qs olds.
Proof.
  intros Hr Hs. induction Hr as [|q qs Hq Hqs IH]; [by exists []; constructor|].
  apply Forall_cons in Hs as [Hsq Hs]. destruct (IH Hs) as [olds Ho].
  destruct (stop_queue_total q Hq Hsq) as [q' Hq']. exists (q' :: olds). by constructor.
Qed.

Lemma ApplyConfig_spec (w0 : W) (wr : Writer) (conf : RemoteStorageConfig) :
  Forall running (queues wr) -> valid_rewrites conf ->
  (forall olds wr' err, ApplyConfig w0 wr conf olds wr' err ->
    (is_Some err /\ wr' = wr /\ olds = []) \/
    (err = None /\
     Forall2 flushed (queues wr) olds /\ Forall running (queues wr') /\
     Forall2 (built (ExternalLabels conf)) (RemoteWriteConfigs conf) (queues wr'))) /\
  (Forall sane_reshard (queues wr) -> exists olds wr' err, ApplyConfig w0 wr conf olds wr' err).
Proof.
  intros Hrun Hv. destruct (new_queues_Ret w0 (ExternalLabels conf) 0 _ Hv)
    as [(qs&Hn&Hqs&Hqs2)|(err&Hn&_)].
  2: { split; [|intros _; exists [], wr, (Some err); by constructor].
    intros olds wr' err' HA. left. inv HA; [by split_ands|]. congruence. }
  destruct (start_all _ _ _ Hqs Hqs2) as (started&Hst&Hrs&Hbs). split.
  - intros olds wr' err HA. inversion HA as [err' Hf|qs' olds' started' Hn' Hold Hst']; subst.
    { left. by split_ands. }
    right. rewrite Hn in Hn'. injection Hn' as <-.
    rewrite <- (start_all_functional _ _ _ Hst Hst'). split_ands; [done|by apply stop_all|done|done].
  - intros Hsane. destruct (stop_all_total _ Hrun Hsane) as [olds Hold].
    exists olds, (mkWriter started), None. by econstructor.
Qed.

(** ApplyConfig of the writer. When a client of the new configuration
    cannot be built it returns that client's error and the writer, with its
    queues running, is as before. Otherwise it always gets to the end (given
    that no queue was asked for a negative number of shards): every old queue
    stops with everything it had accepted sent, in order for each fingerprint,
    and there is a fresh running queue for every endpoint, in order, with the
    endpoint's URL and relabelling and the new external labels. *)
Theorem Writer_ApplyConfig_correct (w0 : W) (wr : Writer) (conf : RemoteStorageConfig) :
  Forall running (queues wr) -> valid_rewrites conf ->
  (forall olds wr' err, ApplyConfig w0 wr conf olds wr' err ->
    (is_Some err /\ wr' = wr /\ olds = []) \/
    (err = None /\
     Forall2 flushed (queues wr) olds /\ Forall running (queues wr') /\
     Forall2 (built (ExternalLabels conf)) (RemoteWriteConfigs conf) (queues wr'))) /\
  (Forall sane_reshard (queues wr) -> exists olds wr' err, ApplyConfig w0 wr conf olds wr' err).
Proof. apply ApplyConfig_spec. Qed.

(** What one Append does to one queue: its relabelled copy is accepted at the
    end, or nothing is. *)
Definition offered (smpl : Sample) (q q' : remote_queue) : Prop :=
  rq_client q' = rq_client q /\
  exists r, Process (SMetric smpl ∪ externalLabels (qm (rq_system q)))
      (relabelConfigs (qm (rq_system q))) = Ret r /\
    match r with
    | None => rq_system q' = rq_system q
    | Some m =>
        let snew := mkSample m (SValue smpl) (STimestamp smpl) in
        accepted (rq_system q') = accepted (rq_system q) ++ [snew] \/
        (accepted (rq_system q') = accepted (rq_system q) /\
         droppedSamplesTotal (metrics (qm (rq_system q'))) =
           droppedSamplesTotal (metrics (qm (rq_system q))) + 1)
    end.

Lemma append_one q smpl :
  running q -> qshards (qm (rq_system q)) <> [] ->
  exists q', queue_step q (EAppend (order 0 (SMetric smpl))
      (order 1 (externalLabels (qm (rq_system q)))) smpl) = Some (Ret q') /\
    running q' /\ offered smpl q q'.
Proof.
  intros (Hi&Hu&Hq) Hne.
  assert (stopping (rq_system q) = false) as Hs.
  { destruct (stopping (rq_system q)) eqn:Hs; [|done].
    destruct (inv_stopping _ Hi Hs). congruence. }
  destruct (Process_total (SMetric smpl ∪ externalLabels (qm (rq_system q))) _ (inv_valid _ Hi)) as [r Hr].
  assert (exists q', queue_step q (EAppend (order 0 (SMetric smpl))
      (order 1 (externalLabels (qm (rq_system q)))) smpl) = Some (Ret q') /\
    upd (rq_system q') = upd (rq_system q) /\ quit (rq_system q') = false /\ offered smpl q q')
    as (q'&Hst&Hu'&Hq'&Ho).
  2: { exists q'. split; [done|]. split; [|done]. split; [by eapply queue_step_inv|].
       by rewrite Hu'. }
  assert (forall s', step_append (rq_system q) (order 0 (SMetric smpl))
      (order 1 (externalLabels (qm (rq_system q)))) smpl = Some (Ret s') ->
    upd s' = upd (rq_system q) -> quit s' = false ->
    offered smpl q (mkRemoteQueue (rq_client q) s') ->
    exists q', queue_step q (EAppend (order 0 (SMetric smpl))
      (order 1 (externalLabels (qm (rq_system q)))) smpl) = Some (Ret q') /\
    upd (rq_system q') = upd (rq_system q) /\ quit (rq_system q') = false /\ offered smpl q q') as Hwrap.
  { intros s' Hst Hu' Hq' Ho. exists (mkRemoteQueue (rq_client q) s'). by rewrite queue_step_Ret. }
  revert Hwrap. unfold step_append, QueueManager_Append, offered. rewrite Hs. simpl.
  rewrite process_sample_spec, Hr by apply order_range. destruct r as [m|]; simpl; intros Hwrap.
  - destruct (shard_index_spec (qshards (qm (rq_system q))) m Hne) as [_ Hlt].
    destruct (lookup_lt_is_Some_2 _ _ Hlt) as [[c w] Hcw].
    pose proof (Forall_lookup_1 _ _ _ _ (inv_closed _ Hi) Hcw) as Hc.
    unfold closed_is in Hc. simpl in Hc. rewrite Hs in Hc.
    rewrite (enqueue_spec _ _ c w) in Hwrap by done. simpl in Hwrap.
    destruct (_ <? _); (eapply Hwrap; [reflexivity|done|done|]; split; [done|]);
      exists (Some m); (split; [done|]); [by left|by right].
  - eapply Hwrap; [reflexivity|done|done|]. split; [done|]. exists None.
    split; [done|]. clear -Hs. destruct (rq_system q). simpl in *. by subst.
Qed.

(** Append of the writer. While the writer runs and every queue has shards,
    Append offers the sample to every queue, in order: each completes its own
    copy with the external labels, relabels it, and accepts it at its end, drops
    and counts it when the shard is full, or leaves it out when relabelling
    drops it. It never blocks, never panics and always returns nil, and the
    writer keeps running. *)
Theorem Writer_Append_correct (wr : Writer) (smpl : Sample) :
  Forall running (queues wr) -> Forall (fun q => qshards (qm (rq_system q)) <> []) (queues wr) ->
  exists wr', Writer_Append wr smpl = Some (Ret (wr', None)) /\
    Forall running (queues wr') /\ Forall2 (offered smpl) (queues wr) (queues wr').
Proof.
  intros Hr Hs. unfold Writer_Append. destruct wr as [qs]. simpl in *.
  assert (exists qs', append_queues qs smpl = Some (Ret qs') /\ Forall running qs' /\
    Forall2 (offered smpl) qs qs') as (qs'&->&?&?); [|by exists (mkWriter qs')].
  induction Hr as [|q qs Hq Hqs IH]; [exists []; split_ands; [done|constructor|constructor]|].
  apply Forall_cons in Hs as [Hsq Hs]. destruct (IH Hs) as (qs'&Hqs'&Hr'&Ho').
  destruct (append_one q smpl Hq Hsq) as (q'&Hst&Hrq&Hoq). exists (q' :: qs').
  cbn [append_queues]. rewrite Hst, Hqs'. split_ands; [done|by constructor|by constructor].
Qed.

(** The writer after Stop. Every queue stops with everything it had accepted
    sent; but Stop leaves the queues in place: a second Stop of such a queue (by
    Stop, or by an ApplyConfig that gets that far) closes a closed channel and
    panics, so neither can complete while there is a queue; and an Append of a
    sample that the first queue's relabelling keeps panics too. *)
Theorem Writer_Stop_correct (wr wr' : Writer) :
  Forall running (queues wr) -> Writer_Stop wr wr' ->
  Forall2 flushed (queues wr) (queues wr') /\
  Forall (fun q => queue_step q EStop = Some (Panic PanicCloseClosed)) (queues wr') /\
  (queues wr <> [] ->
    (forall wr'', ~ Writer_Stop wr' wr'') /\
    (forall w0 conf olds wr'', ~ ApplyConfig w0 wr' conf olds wr'' None)) /\
  (forall q qs smpl m, queues wr' = q :: qs -> qshards (qm (rq_system q)) <> [] ->
    Process (SMetric smpl ∪ externalLabels (qm (rq_system q)))
      (relabelConfigs (qm (rq_system q))) = Ret (Some m) ->
    Writer_Append wr' smpl = Some (Panic PanicSendClosed)).
Proof.
  intros Hrun Hst. unfold Writer_Stop in Hst.
  assert (Forall (fun q => queue_step q EStop = Some (Panic PanicCloseClosed)) (queues wr')) as Hp.
  { apply Forall_lookup. intros i q' Hi. destruct (Forall2_lookup_r _ _ _ _ _ Hst Hi) as (q&Hq&Hs).
    destruct (Forall_lookup_1 _ _ _ _ Hrun Hq) as [Hinv _].
    destruct (stop_queue_spec q q' Hinv Hs) as (_&Hquit&_). unfold queue_step. simpl.
    unfold step_stop. by rewrite Hquit. }
  assert (queues wr <> [] -> exists q qs, queues wr' = q :: qs) as Hne.
  { intros Hq. destruct (queues wr) as [|q qs]; [done|]. inversion Hst as [|? q' ? qs']; subst.
    by exists q', qs'. }
  assert (forall qs, queues wr <> [] -> ~ Forall2 stop_queue (queues wr') qs) as Hno.
  { intros qs Hq Hs. destruct (Hne Hq) as (q&qs'&Hqs). rewrite Hqs in Hs, Hp.
    apply Forall_cons in Hp as [Hp _]. inversion Hs as [|? q1 ? ? (q2&es&Hs2&_)]; subst. congruence. }
  split_ands; [by apply stop_all|done| |].
  - intros Hq. split; [intros wr''; by apply Hno|]. intros w0 conf olds wr'' HA. inv HA.
    by eapply Hno.
  - intros q qs smpl m Hqs Hsh Hm. rewrite Hqs in Hst.
    inversion Hst as [|q0 ? qs0 ? Hs Hss Hq0]; subst.
    assert (running q0) as [Hinv0 _].
    { rewrite <- Hq0 in Hrun. by apply Forall_cons in Hrun as [? _]. }
    destruct (stop_queue_spec q0 q Hinv0 Hs) as (_&_&Hinv&[Hstop Hdone]&_).
    unfold Writer_Append. rewrite Hqs. simpl. unfold queue_step. simpl.
    unfold step_append. rewrite Hstop, Hdone. simpl. unfold QueueManager_Append.
    rewrite process_sample_spec, Hm by apply order_range. simpl.
    destruct (shard_index_spec (qshards (qm (rq_system q))) m Hsh) as [_ Hlt].
    destruct (lookup_lt_is_Some_2 _ _ Hlt) as [[c w] Hcw].
    pose proof (Forall_lookup_1 _ _ _ _ (inv_closed _ Hinv) Hcw) as Hc.
    unfold closed_is in Hc. simpl in Hc. rewrite Hstop in Hc.
    by rewrite (enqueue_closed _ _ c w).
Qed.

End write.

(** ** A concrete writer *)

Section examples.
Import ScriptedHTTP.

Definition site_labels : LabelSet := {["site" := "a"]}.

Definition demo_manager (worker : worker) : QueueManager :=
  mkQueueManager defaultQueueManagerConfig site_labels [] "q" [(mkChan [] false, worker)] 1
    (newEWMARate ewmaWeight shardUpdateDuration) (newEWMARate ewmaWeight shardUpdateDuration)
    (newEWMARate ewmaWeight shardUpdateDuration) f64_zero (mkMetrics 0 0 0 0).

Definition demo_queue : remote_queue (W := list (error + Response)) :=
  mkRemoteQueue plain_client
    (mkSystem (demo_manager (WSelect [])) URunning RIdle false false [] [] []).

Definition demo_writer : Writer := mkWriter [demo_queue].

Definition demo_conf : RemoteStorageConfig :=
  mkRemoteStorageConfig site_labels [mkRemoteConfig (url plain_client) (30 * Second) true []] [].

Lemma demo_running : Forall running (queues demo_writer).
Proof.
  constructor; [|constructor]. split; [|done].
  apply (inv_step (H2 := client_storage plain_client) no_oob EStart
    (initial_system (demo_manager WNotStarted) [])); [|reflexivity].
  apply (inv_initial defaultQueueManagerConfig site_labels [] "q");
    [apply default_well_configured|constructor|reflexivity].
Qed.

Lemma Writer_ApplyConfig_correct_witness :
  exists olds wr' err, ApplyConfig no_oob [] demo_writer demo_conf olds wr' err.
Proof.
  destruct (Writer_ApplyConfig_correct no_oob [] demo_writer demo_conf) as [_ Hex].
  - exact demo_running.
  - repeat constructor.
  - apply Hex. constructor; [|constructor]. intros n Hn. discriminate Hn.
Defined.

Definition demo_smpl : Sample := mkSample {["__name__" := "up"]} f64_zero 1.

Lemma Writer_Append_correct_witness :
  exists wr', Writer_Append no_oob demo_writer demo_smpl = Some (Ret (wr', None)).
Proof.
  destruct (Writer_Append_correct no_oob demo_writer demo_smpl) as (wr'&Hw&_).
  - exact demo_running.
  - constructor; [|constructor]. discriminate.
  - exists wr'. exact Hw.
Defined.

(** The writer after Stop, with its queue drained. *)
Definition stopped_queue : remote_queue (W := list (error + Response)) :=
  mkRemoteQueue plain_client
    (mkSystem (set_qshards (demo_manager WDone) [(mkChan [] true, WDone)]) UExited RExited
       true true [] [] []).

Lemma Writer_Stop_correct_witness :
  Forall (fun q => queue_step no_oob q EStop = Some (Panic PanicCloseClosed)) [stopped_queue].
Proof.
  apply (Writer_Stop_correct no_oob demo_writer (mkWriter [stopped_queue]) demo_running).
  constructor; [|constructor].
  exists (mkRemoteQueue plain_client
    (mkSystem (demo_manager (WSelect [])) URunning RIdle true false [] [] [])),
    [EUpdaterExit; EResharderExit; EStopShards; EReceive false 0].
  split; [reflexivity|]. split; [|split; reflexivity].
  repeat (eapply runs_cons; [exact I|reflexivity|]). apply runs_nil.
Defined.

End examples.
