(* ===== verification/Querier.v ===== *)
(** * The queries of the program ([storage/fanin/fanin.go], [storage/remote/read.go]
      and the local storage of [cmd/main.go])

    The queriers that the program puts together: the fan-in over the storage that
    keeps nothing, which [Main] configures as the local one, and the queriers of
    the remote reader. Then the slice of matchers that the goroutines of a query
    share: each remote appends its own matchers to it. *)
From S2P Require Import Prelude Model MetricPkg Iterator Relabel Json Answer Client Read Fanin FaninRace FaninQuery.

Import Matcher.

Open Scope Z_scope.

Section queries.
Context `{RegexpLib, StrconvLib, MapOrder}.
Context {W : Type} `{HTTPLib W}.

(** The implementations of the interface [local.Querier]; a remote has its own
    connection, in the state [w]. *)
Inductive local_Querier :=
  | NoopQuerier
  | RemoteQuerier (w : W) (q : Read.querier (W := W)).

(** What a query function returns for the answer of a remote. [query] first calls
    [Metric] on every iterator, in the goroutine of the remote: an iterator around
    a nil stream panics there. *)
Definition deref_iterator (it : option sampleStreamIterator) : outcome sampleStreamIterator :=
  match it with Some it => Ret it | None => Panic PanicNilDeref end.
Definition answer_of (r : error + list (option sampleStreamIterator))
    : outcome (list sampleStreamIterator * option error) :=
  match r with
  | inl err => Ret ([], Some err)
  | inr its => its ← outcome_map deref_iterator its; Ret (its, None)
  end.

Definition Querier_QueryRange (from through : Time) (ms : list LabelMatcher) (q : local_Querier)
    : outcome (list sampleStreamIterator * option error) :=
  match q with
  | NoopQuerier => Ret ([], None)
  | RemoteQuerier w q => r ← Read.QueryRange q w from through ms; answer_of r.2
  end.

Definition Querier_QueryInstant (ts : Time) (stalenessDelta : Duration) (ms : list LabelMatcher)
    (q : local_Querier) : outcome (list sampleStreamIterator * option error) :=
  match q with
  | NoopQuerier => Ret ([], None)
  | RemoteQuerier w q => r ← Read.QueryInstant q w ts stalenessDelta ms; answer_of r.2
  end.

Definition Querier_MetricsForLabelMatchers (q : local_Querier) : error + list Metric :=
  match q with NoopQuerier => inr [] | RemoteQuerier _ q => Read.MetricsForLabelMatchers q end.
Definition Querier_LastSampleForLabelMatchers (q : local_Querier) : error + list Sample :=
  match q with NoopQuerier => inr [] | RemoteQuerier _ q => Read.LastSampleForLabelMatchers q end.
Definition Querier_LabelValuesForLabelName (q : local_Querier) : error + list LabelValue :=
  match q with NoopQuerier => inr [] | RemoteQuerier _ q => Read.LabelValuesForLabelName q end.
Definition Querier_Close (q : local_Querier) : option error :=
  match q with NoopQuerier => None | RemoteQuerier _ q => Read.querier_Close q end.

(** ** The fan-in querier *)

(** A query function may panic; in the goroutine of a remote that ends the
    process. [sched] is how the goroutines interleave when they merge their
    answers. *)
Definition fanin_query (q : querier local_Querier) (ctx : Context)
    (qFn : local_Querier -> outcome (list sampleStreamIterator * option error)) (sched : list nat)
    : outcome (list (sampleStreamIterator + mergeIterator sampleStreamIterator) * option error) :=
  l ← qFn (qlocal q);
  answers ← (if bool_decide (is_Some l.2) || bool_decide (qremotes q = []) || localOnly ctx
             then Ret [] else mapM qFn (qremotes q));
  Ret (query (mkQuerier l answers) ctx (fun a => a) sched).

Definition fanin_QueryRange (q : querier local_Querier) ctx from through ms sched :=
  fanin_query q ctx (Querier_QueryRange from through ms) sched.
Definition fanin_QueryInstant (q : querier local_Querier) ctx ts stalenessDelta ms sched :=
  fanin_query q ctx (Querier_QueryInstant ts stalenessDelta ms) sched.
Definition fanin_MetricsForLabelMatchers (q : querier local_Querier) : error + list Metric :=
  Querier_MetricsForLabelMatchers (qlocal q).
Definition fanin_LastSampleForLabelMatchers (q : querier local_Querier) : error + list Sample :=
  Querier_LastSampleForLabelMatchers (qlocal q).
Definition fanin_LabelValuesForLabelName (q : querier local_Querier) : error + list LabelValue :=
  Querier_LabelValuesForLabelName (qlocal q).
Definition fanin_Close (q : querier local_Querier) : option error :=
  querier_Close Querier_Close (Some (qlocal q)) (qremotes q).

(** [Queryable.Querier]; [Main] sets the local part to the storage that keeps
    nothing. *)
Definition Queryable_Querier (Local : error + local_Querier) (Remote : Reader (W := W)) (w : W)
    : error + querier local_Querier :=
  match Local with
  | inl err => inl err
  | inr localQuerier => inr (mkQuerier localQuerier (RemoteQuerier w <$> Queriers Remote))
  end.
Definition NoopStorage_Querier : error + local_Querier := inr NoopQuerier.

End queries.

(** ** What a query of the program returns *)

Section queries_proofs.
Context `{RegexpLib, StrconvLib, MapOrder}.
Context {W : Type} `{HTTPLib W}.

Lemma mapM_Ret {A B} (f : A -> outcome B) (g : A -> B) (l : list A) :
  (forall x, x ∈ l -> f x = Ret (g x)) -> mapM f l = Ret (g <$> l).
Proof.
  induction l as [|x l IH]; intros Hf; [done|]. cbn [mapM]. rewrite (Hf x) by set_solver.
  cbn [mbind outcome_bind]. rewrite IH by set_solver. done.
Qed.

(** The timestamps of the fold of merges are those of all the lists. *)
Lemma foldl_merge_times {I} `{SeriesIteratorLaws I} iv c (its : list I) values t :
  Forall samples_wf its -> sorted_samples values ->
  (exists p, p ∈ foldl (fun vs it => merge vs (remote_values iv c it)) values its /\ Timestamp p = t) <->
  (exists p, p ∈ values /\ Timestamp p = t) \/
  (exists it p, it ∈ its /\ p ∈ remote_values iv c it /\ Timestamp p = t).
Proof.
  intros Hits. revert values. induction Hits as [|it its Hit Hits IH]; intros values Hv; cbn [foldl].
  { set_solver. }
  pose proof (remote_values_sorted iv c it Hit) as Hr. rewrite IH by by apply merge_sorted.
  setoid_rewrite (merge_elem_of values _ _ Hv Hr). setoid_rewrite elem_of_cons. split.
  - intros [(p&[Hp|[Hp _]]&<-)|(jt&p&Hj&Hp&<-)]; [by left; exists p|right; exists it, p; tauto|].
    right. exists jt, p. tauto.
  - intros [(p&Hp&<-)|(jt&p&[->|Hj]&Hp&<-)]; [left; exists p; tauto| |right; by exists jt, p].
    left. destruct (decide (Exists (fun x => Timestamp x = Timestamp p) values)) as [He|He].
    + apply Exists_exists in He as (x&Hx&Ht). exists x. tauto.
    + exists p. split; [|done]. right. split; [done|]. intros x Hx Ht. apply He, Exists_exists. by exists x.
Qed.

Section query.
Variables (r : Reader (W := W)) (w : W) (ctx : Context) (from through : Time) (ms : list LabelMatcher).

(** The answer of the remote with client [c], and the iterators of all. *)
Definition remote_answer (c : Client) : outcome (list sampleStreamIterator * option error) :=
  Querier_QueryRange from through ms (RemoteQuerier w (Read.mkQuerier c (r_externalLabels r))).
Definition answer_its (c : Client) : list sampleStreamIterator :=
  match remote_answer c with Ret a => a.1 | Panic _ => [] end.
Definition returned : list sampleStreamIterator := concat (answer_its <$> clients r).

Lemma group_range (mit : mergeIterator sampleStreamIterator) iv :
  local mit = None -> Forall samples_wf (remote mit) -> OldestInclusive iv <= NewestInclusive iv ->
  exists values, mergeIterator_RangeValues mit iv = Ret values /\ sorted_samples values /\
    (forall p, p ∈ values -> exists it, it ∈ remote mit /\ p ∈ samples it) /\
    (forall t, (exists p, p ∈ values /\ Timestamp p = t) <->
       in_interval iv t /\ t < Latest /\
       exists it p, it ∈ remote mit /\ p ∈ samples it /\ Timestamp p = t).
Proof.
  intros Hl Hr Hiv. assert (mergeIterator_wf mit) as Hwf by (split; [by rewrite Hl|done]).
  eexists. split; [by apply mergeIterator_RangeValues_foldl|].
  assert (local_values mit iv = []) as Hlv by (unfold local_values; by rewrite Hl).
  rewrite Hlv. cbn [cutoff]. destruct (foldl_merge_spec iv Latest (remote mit) [] Hr) as [Hs Hp];
    [apply sorted_by_nil|]. split; [done|].
  assert (forall it p, p ∈ remote_values iv Latest it <->
    p ∈ samples it /\ in_interval iv (Timestamp p) /\ Timestamp p < Latest) as Hrv.
  { intros it p. unfold remote_values, range_values. rewrite !list_elem_of_filter. tauto. }
  split.
  - intros p. rewrite Hp. intros [[]%elem_of_nil|(i&it&Hi&Hpi&_)]. exists it.
    apply Hrv in Hpi as [? _]. split; [by eapply list_elem_of_lookup_2|done].
  - intros t. rewrite foldl_merge_times by (try done; apply sorted_by_nil). setoid_rewrite Hrv. set_solver.
Qed.

Lemma returned_wf it :
  (forall c, c ∈ clients r -> exists a, remote_answer c = Ret a /\ Forall samples_wf a.1) ->
  it ∈ returned -> samples_wf it.
Proof.
  unfold returned. intros Hans (l&Hl&Hit)%list_elem_of_In%in_concat.
  apply list_elem_of_In, list_elem_of_fmap in Hl as (c&->&Hc). apply list_elem_of_In in Hit.
  destruct (Hans c Hc) as (a&Ha&Hwf). unfold answer_its in Hit. rewrite Ha in Hit.
  rewrite Forall_forall in Hwf. by apply Hwf.
Qed.

(** The answers that the goroutines get. *)
Definition all_answers : list (list sampleStreamIterator * option error) :=
  (fun c => match remote_answer c with Ret a => a | Panic _ => ([], None) end) <$> clients r.

Lemma answers_spec :
  (forall c, c ∈ clients r -> exists a, remote_answer c = Ret a /\ Forall samples_wf a.1) ->
  mapM (Querier_QueryRange from through ms) (RemoteQuerier w <$> Queriers r) = Ret all_answers /\
  remote_answers (fun a => a) all_answers = answer_its <$> clients r.
Proof.
  intros Hans. unfold all_answers, remote_answers. split.
  - unfold Queriers. rewrite <- list_fmap_compose.
    rewrite (mapM_Ret _ (fun q => match Querier_QueryRange from through ms q with Ret a => a | Panic _ => ([], None) end)).
    + f_equal. rewrite <- list_fmap_compose. done.
    + intros q (c&->&Hc)%list_elem_of_fmap. destruct (Hans c Hc) as (a&Ha&_). unfold remote_answer in Ha.
      unfold compose. by rewrite Ha.
  - rewrite <- list_fmap_compose. apply list_fmap_ext. intros i c _. unfold compose, answer_its.
    by destruct (remote_answer c).
Qed.

(** The interleavings and the fingerprints for which no answer is lost. *)
Definition undisturbed (sched : list nat) (fp : Z) : Prop := unraced (answer_its <$> clients r) sched fp.

(** The query with these answers, as the map of groups. *)
Lemma fanin_groups sched :
  clients r <> [] -> localOnly ctx = false ->
  (forall c, c ∈ clients r -> exists a, remote_answer c = Ret a /\ Forall samples_wf a.1) ->
  exists m, query_groups [] (answer_its <$> clients r) sched m /\
    fanin_QueryRange (mkQuerier NoopQuerier (RemoteQuerier w <$> Queriers r)) ctx from through ms sched =
      Ret (inr <$> (snd <$> map_to_list m), None).
Proof.
  intros Hne Hctx Hans. destruct (answers_spec Hans) as [Hm Hin].
  exists (race_map (query_end [] (answer_its <$> clients r) sched)). split; [apply query_end_groups|].
  unfold fanin_QueryRange, fanin_query. cbn [qlocal qremotes Querier_QueryRange mbind outcome_bind snd].
  rewrite bool_decide_eq_false_2 by (by intros [? [=]]).
  rewrite bool_decide_eq_false_2 by (unfold Queriers; by destruct (clients r)). rewrite Hctx. cbn [orb].
  rewrite Hm. cbn [mbind outcome_bind]. unfold query. cbn [qlocal qremotes].
  rewrite bool_decide_eq_false_2 by (unfold all_answers; intros ?%fmap_nil_inv; done). rewrite Hctx. cbn [orb].
  unfold remote_answers in Hin. rewrite Hin. by rewrite <- list_fmap_compose.
Qed.

Lemma groups_elem (m : gmap Z (mergeIterator sampleStreamIterator)) mit :
  mit ∈ snd <$> map_to_list m <-> exists fp, m !! fp = Some mit.
Proof.
  rewrite list_elem_of_fmap. setoid_rewrite <- elem_of_map_to_list. split.
  - intros ([fp mit']&->&Hin). by exists fp.
  - intros (fp&Hin). by exists (fp, mit).
Qed.

(** The merged iterators of a query: one for each fingerprint that was returned;
    in it only what was returned with this fingerprint, and all of it when the
    fingerprint is undisturbed. *)
Record merged_groups (sched : list nat) (mits : list (mergeIterator sampleStreamIterator)) : Prop := mkMergedGroups {
  mg_mit mit : mit ∈ mits -> local mit = None /\ Forall samples_wf (remote mit) /\
    exists met, mergeIterator_Metric mit = Ret met /\
      (forall it, it ∈ remote mit -> it ∈ returned /\ fingerprint_of it = Fingerprint met) /\
      (undisturbed sched (Fingerprint met) ->
        forall it, it ∈ returned -> fingerprint_of it = Fingerprint met -> it ∈ remote mit);
  mg_complete it : it ∈ returned -> exists mit met, mit ∈ mits /\ mergeIterator_Metric mit = Ret met /\
    Fingerprint met = fingerprint_of it;
  mg_unique i j mit mit' met met' : mits !! i = Some mit -> mits !! j = Some mit' ->
    mergeIterator_Metric mit = Ret met -> mergeIterator_Metric mit' = Ret met' ->
    Fingerprint met = Fingerprint met' -> i = j
}.

Lemma groups_merged sched m :
  (forall c, c ∈ clients r -> exists a, remote_answer c = Ret a /\ Forall samples_wf a.1) ->
  query_groups [] (answer_its <$> clients r) sched m -> merged_groups sched (snd <$> map_to_list m).
Proof.
  intros Hans [Hdom Hloc Hgen Hun Hmet]. pose proof (groups_elem m) as Hmits. split.
  - intros mit (fp&Hf)%Hmits. destruct (Hmet _ _ Hf) as (met&Hme&<-). split_ands; [by apply (Hloc _ _ Hf)| |].
    + apply Forall_forall. intros it Hit. eapply returned_wf; [done|]. by apply (Hgen _ _ _ Hf Hit).
    + exists met. split_ands; [done|intros it; by apply Hgen|]. intros Hu it Hit Hfp.
      rewrite (Hun _ _ Hf Hu). by apply list_elem_of_filter.
  - intros it Hit. destruct (proj2 (Hdom (fingerprint_of it))) as [mit Hq]; [by exists it|].
    destruct (Hmet _ _ Hq) as (met&Hme&Hfm). exists mit, met. rewrite Hmits. eauto.
  - intros i j mit mit' met met' Hi Hj Hme Hme' Hfp. rewrite !list_lookup_fmap in Hi, Hj.
    destruct (map_to_list _ !! i) as [[fp1 m1]|] eqn:H1'; [|done]. injection Hi as ->.
    destruct (map_to_list _ !! j) as [[fp2 m2]|] eqn:H2'; [|done]. injection Hj as ->.
    pose proof (list_elem_of_lookup_2 _ _ _ H1') as Hf1. pose proof (list_elem_of_lookup_2 _ _ _ H2') as Hf2.
    apply elem_of_map_to_list in Hf1, Hf2.
    destruct (Hmet _ _ Hf1) as (k1&Hk1&<-). destruct (Hmet _ _ Hf2) as (k2&Hk2&<-).
    apply (NoDup_lookup (map_to_list m).*1 i j (Fingerprint met));
      [apply NoDup_fst_map_to_list|rewrite list_lookup_fmap, H1'; simpl; congruence
      |rewrite list_lookup_fmap, H2'; simpl; congruence].
Qed.

(** A query whose clients do not panic returns such iterators and no error. *)
Lemma fanin_groups_spec (sched : list nat) :
  clients r <> [] -> localOnly ctx = false ->
  (forall c, c ∈ clients r -> exists a, remote_answer c = Ret a /\ Forall samples_wf a.1) ->
  exists mits, fanin_QueryRange (mkQuerier NoopQuerier (RemoteQuerier w <$> Queriers r)) ctx from through ms sched =
      Ret (inr <$> mits, None) /\ merged_groups sched mits.
Proof.
  intros Hne Hctx Hans. destruct (fanin_groups sched Hne Hctx Hans) as (m&Hm&Hq).
  exists (snd <$> map_to_list m). split; [done|by apply groups_merged].
Qed.

(** C20: a query of the program, from the matchers to the samples, however the
    accesses of its goroutines to the shared map interleave. Let the local
    storage be the one that keeps nothing, the context not be local-only, no
    client panic, every answer have its samples sorted by time, and every
    goroutine send its own request and matchers (C6 and C40 have the races of
    those). Then a range query returns no error, and one iterator for each
    fingerprint that some remote returned; a remote that fails counts as one
    that returned nothing. Each iterator yields, for any interval whose start is
    not after its end, samples in the order of time that some remote returned
    for a metric of its fingerprint. If only one remote returned the
    fingerprint, or the goroutines follow each other, it has a sample at exactly
    the instants of the interval (before the last one there is) at which some
    remote had one; otherwise an iterator can be lost in the map. *)
Theorem fanin_QueryRange_correct (fq : querier local_Querier) (sched : list nat) :
  Queryable_Querier NoopStorage_Querier r w = inr fq -> clients r <> [] -> localOnly ctx = false ->
  (forall c, c ∈ clients r -> exists a, remote_answer c = Ret a /\ Forall samples_wf a.1) ->
  exists mits, fanin_QueryRange fq ctx from through ms sched = Ret (inr <$> mits, None) /\
    (forall fp, (exists mit met, mit ∈ mits /\ mergeIterator_Metric mit = Ret met /\ Fingerprint met = fp) <->
       exists it, it ∈ returned /\ fingerprint_of it = fp) /\
    (forall i j mit mit' met met', mits !! i = Some mit -> mits !! j = Some mit' ->
       mergeIterator_Metric mit = Ret met -> mergeIterator_Metric mit' = Ret met' ->
       Fingerprint met = Fingerprint met' -> i = j) /\
    (forall mit, mit ∈ mits -> exists met, mergeIterator_Metric mit = Ret met /\
       forall iv, OldestInclusive iv <= NewestInclusive iv ->
       exists values, mergeIterator_RangeValues mit iv = Ret values /\ sorted_samples values /\
         (forall p, p ∈ values -> exists it, it ∈ returned /\ fingerprint_of it = Fingerprint met /\ p ∈ samples it) /\
         (undisturbed sched (Fingerprint met) -> forall t, (exists p, p ∈ values /\ Timestamp p = t) <->
            in_interval iv t /\ t < Latest /\
            exists it p, it ∈ returned /\ fingerprint_of it = Fingerprint met /\ p ∈ samples it /\ Timestamp p = t)).
Proof.
  intros [= <-] Hne Hctx Hans.
  destruct (fanin_groups_spec sched Hne Hctx Hans) as (mits&Hq&[Hmit Hcomp Huniq]).
  exists mits. split_ands; [done| |done|].
  - intros fp. split.
    + intros (mit&met&Hin&Hmet&<-). destruct (Hmit mit Hin) as (Hl&_&met'&Hmet'&Hr&_).
      rewrite Hmet in Hmet'. injection Hmet' as <-. unfold mergeIterator_Metric in Hmet. rewrite Hl in Hmet.
      destruct (remote mit) as [|it l] eqn:Hrem; [done|]. exists it. apply Hr. left.
    + intros (it&Hit&<-). destruct (Hcomp it Hit) as (mit&met&?&?&?). by exists mit, met.
  - intros mit Hin. destruct (Hmit mit Hin) as (Hl&Hwf&met&Hmet&Hr&Hall). exists met. split; [done|].
    intros iv Hiv. destruct (group_range mit iv Hl Hwf Hiv) as (values&Hv&Hs&Hp&Ht).
    exists values. split_ands; [done|done| |].
    + intros p (it&[? ?]%Hr&?)%Hp. by exists it.
    + intros Hu t. rewrite Ht. specialize (Hall Hu). clear - Hr Hall. naive_solver.
Qed.

Lemma mapM_panics {A B} (f : A -> outcome B) l x p :
  x ∈ l -> f x = Panic p -> exists p', mapM f l = Panic p'.
Proof.
  intros Hx Hf. induction l as [|y l IH]; [by apply elem_of_nil in Hx|]. cbn [mapM].
  destruct (f y) as [b|p'] eqn:Hy; [|by exists p']. cbn [mbind outcome_bind].
  apply elem_of_cons in Hx as [->|Hx]; [congruence|]. destruct (IH Hx) as [p' ->]. by exists p'.
Qed.

Lemma deref_nil its : None ∈ its -> exists p, outcome_map deref_iterator its = Panic p.
Proof.
  intros Hn. exists PanicNilDeref. apply outcome_map_panics.
  - apply Forall_forall. intros [it|] _; [left; by eexists|by right].
  - apply Exists_exists. by exists None.
Qed.

(** C7: One null series in an answer ends the process. If some remote answers any
    request with a 2xx status and a body that decodes to a matrix with a null
    stream, every range query that is not local-only panics, in a goroutine whose
    panic nobody recovers, whatever the other remotes answer and however the
    goroutines interleave: the nil stream is dereferenced when the external labels
    are removed, or when its metric is asked for. *)
Theorem null_stream_panics (fq : querier local_Querier) (sched : list nat) c resp d :
  Queryable_Querier NoopStorage_Querier r w = inr fq ->
  localOnly ctx = false -> c ∈ clients r ->
  (forall req, exists w', http_Do w (client c) (timeout c) req = (w', inr resp)) ->
  status_class resp = 2 -> resp_error resp = None ->
  unmarshal_queryRes (resp_body resp) = Some d -> None ∈ result_matrix d ->
  exists p, fanin_QueryRange fq ctx from through ms sched = Panic p.
Proof.
  intros [= <-] Hctx Hc Hdo Hst Herr Hd Hn.
  assert (exists p, remote_answer c = Panic p) as [p Hp].
  { unfold remote_answer, Querier_QueryRange, QueryRange, read.
    destruct (addExternalLabels_spec (Read.mkQuerier c (r_externalLabels r)) ms) as (added&->&_).
    cbn [mbind outcome_bind q_client]. unfold Client_Read.
    destruct (labelMatchersToProto _) as [pb|p]; [|by exists p]. cbn [mbind outcome_bind].
    destruct (LabelMatchers_String _) as [s|p]; [|by exists p]. cbn [mbind outcome_bind client timeout].
    destruct (NewRequest _ _ _) as [e|req]; [by eexists|]. destruct (Hdo req) as [w' ->].
    rewrite (proj2 (read_response_spec (inr resp) (result_matrix d)))
      by (exists resp; by rewrite Hd). cbn [mbind outcome_bind].
    rewrite removeLabels_spec. case_decide as Hr; [by eexists|]. cbn [mbind outcome_bind snd MatrixToIterators answer_of].
    destruct (deref_nil (option_map mkSampleStreamIterator <$>
      (option_map (strip_stream (unnamed (r_externalLabels r) ms)) <$> result_matrix d))) as [p Hp].
    - apply list_elem_of_fmap. exists None. split; [done|]. apply list_elem_of_fmap. by exists None.
    - exists p. etransitivity; [apply (f_equal (fun o => o ≫= _)), Hp|done]. }
  unfold fanin_QueryRange, fanin_query. cbn [qlocal qremotes Querier_QueryRange mbind outcome_bind snd].
  rewrite bool_decide_eq_false_2 by (by intros [? [=]]).
  rewrite bool_decide_eq_false_2, Hctx by (unfold Queriers; destruct (clients r); [by apply elem_of_nil in Hc|done]).
  cbn [orb]. destruct (mapM_panics (Querier_QueryRange from through ms) (RemoteQuerier w <$> Queriers r)
    (RemoteQuerier w (Read.mkQuerier c (r_externalLabels r))) p) as [p' Hp']; [|done|].
  - apply list_elem_of_fmap. eexists. split; [done|]. apply list_elem_of_fmap. by exists c.
  - exists p'. by rewrite Hp'.
Qed.

End query.

(** The value of a group at a time: that of a latest sample of its remotes at or
    before it. *)
Lemma group_value (mit : mergeIterator sampleStreamIterator) t :
  local mit = None -> Forall samples_wf (remote mit) ->
  exists p, mergeIterator_ValueAtOrBeforeTime mit t = Ret p /\
    (forall it x, it ∈ remote mit -> x ∈ samples it -> Timestamp x <= t -> Timestamp x <= Timestamp p) /\
    (p = ZeroSamplePair \/ Timestamp p <= t /\ exists it, it ∈ remote mit /\ p ∈ samples it).
Proof.
  intros Hl Hr. unfold mergeIterator_ValueAtOrBeforeTime. rewrite Hl. cbn [mbind outcome_bind].
  change (SamplePair_eqb ZeroSamplePair ZeroSamplePair) with true. cbv iota.
  destruct (latest_remote_spec t (remote mit) ZeroSamplePair Hr) as (p&->&_&Hmax&Hp).
  exists p. split; [done|]. rewrite Forall_forall in Hr. split.
  - intros it x Hit Hx Ht. etransitivity; [|by apply (Hmax it)].
    by apply value_at_or_before_max; [apply samples_sorted, Hr|..].
  - destruct Hp as [->|[Hlt (it&Hit&->)]]; [by left|]. right.
    destruct (value_at_or_before_elem (samples it) t) as [Hz|[Hin Hle]].
    + rewrite Hz in Hlt. cbn in Hlt. lia.
    + split; [done|]. by exists it.
Qed.

(** An instant query is a range query. *)
Lemma fanin_QueryInstant_range (q : querier local_Querier) ctx ts stale ms sched :
  fanin_QueryInstant q ctx ts stale ms sched = fanin_QueryRange q ctx (Add ts (int64 (- stale))) ts ms sched.
Proof.
  assert (forall q, Querier_QueryInstant ts stale ms q = Querier_QueryRange (Add ts (int64 (- stale))) ts ms q) as Hq
    by by intros [].
  unfold fanin_QueryInstant, fanin_QueryRange, fanin_query. rewrite Hq. destruct (Querier_QueryRange _ _ _ (qlocal q)); [|done].
  cbn [mbind outcome_bind]. destruct (_ || _); [done|].
  assert (mapM (Querier_QueryInstant ts stale ms) (qremotes q) =
    mapM (Querier_QueryRange (Add ts (int64 (- stale))) ts ms) (qremotes q)) as ->; [|done].
  clear x. induction (qremotes q) as [|y l IH]; [done|]. cbn [mapM]. by rewrite Hq, IH.
Qed.

End queries_proofs.

(** ** The matchers that the goroutines share

    The closure of [QueryRange] passes one slice of matchers to every remote, and
    [addExternalLabels] appends to it: as long as the backing array has room the
    goroutines write to the same slots. *)

Section shared.
Context `{RegexpLib}.

(** A slice of the shared array, or of a copy that [append] has made. *)
Inductive mslice := MShared (len : nat) | MPrivate (l : list (option LabelMatcher)).

(** A goroutine: the matchers it has still to append, or those it has sent. *)
Inductive mgoroutine :=
  | MAppending (todo : list LabelMatcher) (s : mslice)
  | MSent (l : list (option LabelMatcher)).

Record ms_state := mkMsState {
  backing : list (option LabelMatcher);
  goroutines : list mgoroutine
}.

Definition ms_read (arr : list (option LabelMatcher)) (s : mslice) : list (option LabelMatcher) :=
  match s with MShared n => take n arr | MPrivate l => l end.

(** [append(matchers, m)]. *)
Definition append_matcher (arr : list (option LabelMatcher)) (s : mslice) (m : LabelMatcher)
    : list (option LabelMatcher) * mslice :=
  match s with
  | MShared n =>
      if Nat.ltb n (length arr) then (<[n := Some m]> arr, MShared (S n))
      else (arr, MPrivate (take n arr ++ [Some m]))
  | MPrivate l => (arr, MPrivate (l ++ [Some m]))
  end.

(** The next action of a goroutine on the shared array: an append, or the
    request that reads the whole slice. *)
Definition matcher_step (arr : list (option LabelMatcher)) (g : mgoroutine)
    : option (list (option LabelMatcher) * mgoroutine) :=
  match g with
  | MAppending (m :: todo) s =>
      let '(arr, s) := append_matcher arr s m in Some (arr, MAppending todo s)
  | MAppending [] s => Some (arr, MSent (ms_read arr s))
  | MSent _ => None
  end.

Definition ms_step (i : nat) (st : ms_state) : option ms_state :=
  match goroutines st !! i with
  | Some g =>
      match matcher_step (backing st) g with
      | Some (arr, g) => Some (mkMsState arr (<[i := g]> (goroutines st)))
      | None => None
      end
  | None => None
  end.

Fixpoint ms_run (sched : list nat) (st : ms_state) : option ms_state :=
  match sched with
  | [] => Some st
  | i :: sched => match ms_step i st with Some st => ms_run sched st | None => None end
  end.

(** The caller's matchers, with [spare] slots after them in their array; [todos]
    are the matchers that each remote appends. *)
Definition ms_init (ms : list LabelMatcher) (spare : nat) (todos : list (list LabelMatcher)) : ms_state :=
  mkMsState ((Some <$> ms) ++ replicate spare None)
    ((fun todo => MAppending todo (MShared (length ms))) <$> todos).

(** The content of a slice. *)
Definition holds (arr : list (option LabelMatcher)) (s : mslice) (l : list LabelMatcher) : Prop :=
  ms_read arr s = Some <$> l /\
  match s with MShared n => n = length l | MPrivate _ => True end.

Definition mgoroutine_ok ms (arr : list (option LabelMatcher)) (todo : list LabelMatcher) (g : mgoroutine) : Prop :=
  match g with
  | MAppending rest s => exists done_, todo = done_ ++ rest /\ holds arr s (ms ++ done_)
  | MSent l => l = Some <$> (ms ++ todo)
  end.

Lemma append_holds arr s l m :
  holds arr s l -> holds (append_matcher arr s m).1 (append_matcher arr s m).2 (l ++ [m]).
Proof.
  intros [Hr Hl]. destruct s as [n|l']; cbn [append_matcher].
  - destruct (Nat.ltb_spec n (length arr)) as [Hlt|Hge]; split; cbn [fst snd ms_read] in *; try done.
    + rewrite fmap_app, <- Hr. rewrite (take_S_r _ _ (Some m)) by by apply list_lookup_insert_eq.
      by rewrite take_insert_ge.
    + rewrite length_app, Hl. simpl. lia.
    + by rewrite fmap_app, <- Hr.
  - split; [|done]. cbn [snd ms_read] in *. by rewrite fmap_app, <- Hr.
Qed.

(** Writing what a slot already holds for another goroutine changes nothing. *)
Lemma append_others arr s s' m ms done1 done2 rest1 rest2 :
  holds arr s (ms ++ done1) -> holds arr s' (ms ++ done2) ->
  length arr = length ms \/ done1 ++ m :: rest1 = done2 ++ rest2 ->
  holds (append_matcher arr s m).1 s' (ms ++ done2).
Proof.
  intros [Hr Hl] [Hr' Hl'] Hor. destruct s as [n|l]; [|done]. cbn [append_matcher].
  destruct (Nat.ltb_spec n (length arr)) as [Hlt|Hge]; [|done]. cbn [fst].
  destruct Hor as [Hlen|Heq]; [rewrite length_app in Hl; lia|].
  split; [|done]. destruct s' as [n'|l']; [|done]. cbn [ms_read] in *.
  destruct (decide (n' <= n)%nat) as [Hle|Hgt]; [by rewrite take_insert_ge|].
  rewrite list_insert_id; [done|].
  assert ((ms ++ done2) !! n = Some m) as Hm.
  { rewrite length_app in Hl. rewrite lookup_app_r by lia. rewrite Hl.
    replace (length ms + length done1 - length ms)%nat with (length done1) by lia.
    assert ((done2 ++ rest2) !! length done1 = Some m) as Hd
      by (rewrite <- Heq; by apply list_lookup_middle).
    rewrite lookup_app_l in Hd; [done|]. rewrite length_app in Hl'. lia. }
  rewrite <- (lookup_take_lt arr n' n) by lia. rewrite Hr'. by rewrite list_lookup_fmap, Hm.
Qed.

Definition ms_inv ms (todos : list (list LabelMatcher)) (st : ms_state) : Prop :=
  Forall2 (mgoroutine_ok ms (backing st)) todos (goroutines st).

Lemma ms_step_inv ms todos st i st' :
  length (backing st) = length ms \/ (exists l, Forall (eq l) todos) ->
  ms_inv ms todos st -> ms_step i st = Some st' ->
  ms_inv ms todos st' /\ length (backing st') = length (backing st).
Proof.
  unfold ms_inv, ms_step. intros Hor Hi Hst.
  destruct (goroutines st !! i) as [[[|m rest] s|l]|] eqn:Hg; try done; cbn [matcher_step] in Hst.
  - injection Hst as <-. cbn [backing goroutines]. split; [|done].
    destruct (Forall2_lookup_r _ _ _ _ _ Hi Hg) as (todo&Ht&done1&->&[Hr _]).
    rewrite <- (list_insert_id todos i _ Ht). apply Forall2_insert; [done|]. simpl. by rewrite app_nil_r.
  - destruct (Forall2_lookup_r _ _ _ _ _ Hi Hg) as (todo&Ht&done1&->&Hh).
    pose proof (append_holds _ _ _ m Hh) as Hh'.
    assert (length (append_matcher (backing st) s m).1 = length (backing st)) as Hlen.
    { destruct s as [n|l]; cbn [append_matcher]; [|done]. destruct (Nat.ltb _ _); [|done]. apply length_insert. }
    pose proof (fun s' done2 rest1 rest2 H1 => append_others (backing st) s s' m ms done1 done2 rest1 rest2 Hh H1) as Ho.
    destruct (append_matcher (backing st) s m) as [arr s1]. injection Hst as <-. cbn [backing goroutines fst snd] in *.
    split; [|done]. rewrite <- (list_insert_id todos i _ Ht). apply Forall2_insert.
    + apply Forall2_same_length_lookup_2; [by apply Forall2_length in Hi|].
      intros k todo' g Htk Hgk. pose proof (Forall2_lookup_lr _ _ _ _ _ _ Hi Htk Hgk) as Hok.
      destruct g as [rest' s'|l]; [|done]. destruct Hok as (done2&->&Hh2). exists done2. split; [done|].
      apply (Ho s' done2 rest rest'); [done|]. destruct Hor as [?|[l Hl]]; [by left|right].
      rewrite Forall_forall in Hl.
      rewrite <- (Hl _ (list_elem_of_lookup_2 _ _ _ Ht)). apply Hl. by eapply list_elem_of_lookup_2.
    + exists (done1 ++ [m]). rewrite <- !app_assoc in *. by split.
Qed.
Lemma ms_init_inv ms spare todos : ms_inv ms todos (ms_init ms spare todos).
Proof.
  unfold ms_inv, ms_init. cbn [backing goroutines]. apply Forall2_fmap_r, Forall_Forall2_diag, Forall_forall.
  intros todo _. exists []. split; [done|]. rewrite app_nil_r. split; [|done]. cbn [ms_read].
  rewrite take_app_le, take_ge; [done|..]; by rewrite length_fmap.
Qed.

Lemma ms_run_inv ms todos sched st st' :
  length (backing st) = length ms \/ (exists l, Forall (eq l) todos) ->
  ms_inv ms todos st -> ms_run sched st = Some st' -> ms_inv ms todos st'.
Proof.
  revert st. induction sched as [|i sched IH]; intros st Hor Hi Hr; simpl in Hr; [by injection Hr as <-|].
  destruct (ms_step i st) as [st1|] eqn:Hs; [|done].
  destruct (ms_step_inv _ _ _ _ _ Hor Hi Hs) as [Hi1 Hlen]. apply (IH st1); [by rewrite Hlen|done|done].
Qed.

(** Two goroutines that append two matchers in opposite orders. *)
Lemma ms_run_overwritten ms spare m1 m2 :
  exists st, ms_run [0; 1; 0; 0; 1; 1]%nat (ms_init ms (S spare) [[m1; m2]; [m2; m1]]) = Some st /\
    goroutines st !! 0%nat = Some (MSent (Some <$> (ms ++ [m2; m2]))) /\
    goroutines st !! 1%nat = Some (MSent (Some <$> (ms ++ [m2; m1]))).
Proof.
  set (A := Some <$> ms). assert (length A = length ms) as HA by apply length_fmap.
  unfold ms_init. fold A. cbn [replicate fmap list_fmap]. rewrite <- HA.
  assert (forall x y (l : list (option LabelMatcher)), <[length A := x]> (A ++ y :: l) = A ++ x :: l) as Hins
    by (intros; rewrite insert_app_r_alt, Nat.sub_diag by lia; done).
  assert (forall x y z (l : list (option LabelMatcher)), <[S (length A) := x]> (A ++ y :: z :: l) = A ++ y :: x :: l) as Hins2
    by (intros; rewrite insert_app_r_alt, Nat.sub_succ_l, Nat.sub_diag by lia; done).
  assert (forall x (l : list (option LabelMatcher)), take (S (length A)) (A ++ x :: l) = A ++ [x]) as Htk.
  { intros x l. rewrite take_app_ge, Nat.sub_succ_l, Nat.sub_diag by lia. by simpl; rewrite take_0. }
  assert (forall x y (l : list (option LabelMatcher)), take (S (S (length A))) (A ++ x :: y :: l) = A ++ [x; y]) as Htk2.
  { intros x y l. rewrite take_app_ge, !Nat.sub_succ_l, Nat.sub_diag by lia. by simpl; rewrite take_0. }
  assert (forall x (l : list (option LabelMatcher)), Nat.ltb (length A) (length (A ++ x :: l)) = true) as Hlt
    by (intros; apply Nat.ltb_lt; rewrite length_app; simpl; lia).
  assert (forall x y (l : list (option LabelMatcher)), Nat.ltb (S (length A)) (length (A ++ x :: y :: l)) = true) as Hlt2
    by (intros; apply Nat.ltb_lt; rewrite length_app; simpl; lia).
  assert (forall x, Nat.ltb (S (length A)) (length (A ++ [x])) = false) as Hlt3
    by (intros; apply Nat.ltb_ge; rewrite length_app; simpl; lia).
  rewrite !fmap_app. fold A.
  destruct spare as [|spare]; eexists; (split; [|split]).
  1,4: cbn [ms_run ms_step matcher_step goroutines backing lookup list_lookup append_matcher insert list_insert replicate ms_read];
    repeat (rewrite ?Hlt, ?Hlt2, ?Hlt3, ?Hins, ?Hins2, ?Htk, ?Htk2, <- ?app_assoc;
      cbn [ms_run ms_step matcher_step goroutines backing lookup list_lookup append_matcher insert list_insert replicate ms_read app]);
    reflexivity.
  all: reflexivity.
Qed.

(** C40: the matchers that the remotes share. When the caller's slice has no spare
    room, or all remotes append the same matchers in the same order, each remote
    sends the caller's matchers followed by its own, whatever the interleaving.
    But the order is that of a map: with room for one matcher and two external
    labels, there is an interleaving in which a remote sends one of the two
    matchers twice and the other not at all, and so asks for series of other
    values of that label, which the query does not select. *)
Theorem shared_matchers (ms : list LabelMatcher) (spare : nat) :
  (forall todos sched st i todo l,
     spare = 0%nat \/ (exists l, Forall (eq l) todos) ->
     ms_run sched (ms_init ms spare todos) = Some st ->
     todos !! i = Some todo -> goroutines st !! i = Some (MSent l) -> l = Some <$> (ms ++ todo)) /\
  (forall k1 v1 m1 k2 v2 m2, (0 < spare)%nat -> equal_matcher k1 v1 m1 -> equal_matcher k2 v2 m2 ->
     exists sched st, ms_run sched (ms_init ms spare [[m1; m2]; [m2; m1]]) = Some st /\
       goroutines st !! 0%nat = Some (MSent (Some <$> (ms ++ [m2; m2]))) /\
       forall m : Metric, selects ms m -> m !! k2 = Some v2 -> label_value m k1 <> v1 ->
         selects (ms ++ [m2; m2]) m /\ ~ selects (ms ++ [m1; m2]) m).
Proof.
  split.
  - intros todos sched st i todo l Hor Hr Ht Hg.
    assert (ms_inv ms todos st) as Hi.
    { eapply ms_run_inv; [|apply (ms_init_inv ms spare)|exact Hr]. destruct Hor as [->|?]; [left|by right].
      unfold ms_init. cbn [backing replicate]. by rewrite app_nil_r, length_fmap. }
    exact (Forall2_lookup_lr _ _ _ _ _ _ Hi Ht Hg).
  - intros k1 v1 m1 k2 v2 m2 Hsp H1' H2'. destruct spare as [|spare]; [lia|].
    destruct (ms_run_overwritten ms spare m1 m2) as (st&Hr&Hg&_). eexists _, st. split; [exact Hr|]. split; [done|].
    intros m Hm Hk2 Hk1. pose proof (equal_matcher_selects _ _ _ _ H2' Hk2) as Hs2.
    split; [apply Forall_app; split; [done|by repeat constructor]|].
    intros [_ [Hs1 _]%Forall_cons]%Forall_app. destruct H1' as (Hw&Ht&<-&<-).
    rewrite Match_wf, Ht in Hs1 by done. injection Hs1 as Hs1. simpl in Hs1.
    apply bool_decide_eq_true in Hs1. done.
Qed.

End shared.

(** ** A concrete query *)

Section examples.
Import ScriptedHTTP.

(** Two remotes that answer with the same matrix. *)
Definition two_remotes : Reader := mkReader [plain_client; plain_client] {["site" := "a"]}.
Definition both_answer : list (error + Response) := [answer 200 fixed_body].

Definition up_iterator : sampleStreamIterator :=
  mkSampleStreamIterator (mkSampleStream {["__name__" := "up"]} [mkSamplePair 1000 f64_zero]).

Lemma two_remotes_returned : returned two_remotes both_answer 500 2999 [] = [up_iterator; up_iterator].
Proof. vm_compute. reflexivity. Qed.

(** The body of an answer whose result is one null. *)
Definition null_body : string :=
  print_json (JObj [("status", JStr "success"); ("data", JObj [("result", JArr [JNull])])]).

#[local] Instance null_http : HTTPLib unit := {|
  URL := plain_url;
  url_String u := url_base u +:+ "?" +:+ url_bits u;
  url_Query := decode_values;
  set_RawQuery u q := mkURL (url_base u) q;
  Values_Encode v := bits_of (encode v);
  Query_Encode u v _ := decode_encode_values v (url_base u);
  set_RawQuery_again _ _ _ := eq_refl;
  HTTPClientConfig := bool;
  HTTPClient := unit;
  NewClientFromConfig ok := inr tt;
  proto_Marshal req := inl "unused";
  snappy_Encode data := data;
  url_valid s := None;
  http_Do w _ _ _ := (w, inr (mkResponse 200 "OK" null_body None));
  json_error _ := "invalid character"
|}.

Definition null_client : Client (W := unit) := mkClient 0 (empty_url : URL (W := unit)) tt 0.

Lemma null_stream_panics_witness :
  exists p, fanin_QueryRange (W := unit)
    (mkQuerier NoopQuerier [RemoteQuerier tt (Read.mkQuerier null_client ∅)]) ∅ 500 2999 [] [] = Panic p.
Proof.
  destruct (unmarshal_queryRes null_body) as [d|] eqn:Hd; [|vm_compute in Hd; discriminate Hd].
  apply (null_stream_panics (mkReader [null_client] ∅) tt ∅ 500 2999 [] _ _
    null_client (mkResponse 200 "OK" null_body None) d).
  - reflexivity.
  - reflexivity.
  - left.
  - intros req. exists tt. reflexivity.
  - reflexivity.
  - reflexivity.
  - exact Hd.
  - vm_compute in Hd. injection Hd as <-. vm_compute. left.
Defined.

Lemma fanin_QueryRange_correct_witness :
  exists mits met, fanin_QueryRange (mkQuerier NoopQuerier (RemoteQuerier both_answer <$> Queriers two_remotes))
      ∅ 500 2999 [] [0; 1; 0; 1]%nat = Ret (inr <$> mits, None) /\
    exists mit, mit ∈ mits /\ mergeIterator_Metric mit = Ret met /\
      Fingerprint met = Fingerprint {["__name__" := "up"]}.
Proof.
  destruct (fanin_QueryRange_correct two_remotes both_answer ∅ 500 2999 []
    (mkQuerier NoopQuerier (RemoteQuerier both_answer <$> Queriers two_remotes))
    [0; 1; 0; 1]%nat) as (mits&Hq&Hfp&_).
  - reflexivity.
  - discriminate.
  - reflexivity.
  - intros c Hc. assert (c = plain_client) as ->.
    { apply elem_of_cons in Hc as [->|Hc]; [done|]. by apply list_elem_of_singleton in Hc. }
    eexists. split; [vm_compute; reflexivity|]. vm_compute. repeat constructor.
  - rewrite two_remotes_returned in Hfp.
    destruct (proj2 (Hfp (fingerprint_of up_iterator))) as (mit&met&Hm&Hmet&Hf).
    + exists up_iterator. split; [by left|reflexivity].
    + exists mits, met. split; [exact Hq|]. exists mit. split; [exact Hm|]. split; [exact Hmet|exact Hf].
Defined.

End examples.
