(* ===== verification/QuerySystem.v ===== *)
(** * The goroutines of a query, from the matchers to the merged map
      ([storage/fanin/fanin.go], [storage/remote/read.go])

    [fanin.querier.query] starts a goroutine per remote and waits for all. Each
    one appends its matchers to the slice that all share ([addExternalLabels]),
    sends its request, and merges the answer into the map that all share
    ([mergeIterators]); some are still appending while others merge. This file
    composes the accesses to the slice (Querier.v), the request (Read.v) and the
    accesses to the map (FaninRace.v) into one system, and relates what any
    schedule of it leaves in the map to the query of Querier.v, in which only the
    accesses to the map interleave. *)
From S2P Require Import Prelude Model MetricPkg Iterator Relabel Json Answer Client Read Fanin FaninRace FaninQuery Querier.

Import Matcher.

Open Scope Z_scope.

Section system.
Context `{RegexpLib, StrconvLib}.
Context {W : Type} `{HTTPLib W}.

(** A remote of the fan-in: its connection, its querier, and the orders in which
    its goroutine ranges over maps. *)
Record remote_store := mkRemote {
  r_world : W;
  r_querier : Read.querier (W := W);
  r_order : MapOrder
}.

(** [read] after [addExternalLabels], with [its, _ := qFn(qu)]: the request with
    the matchers [m], and the iterators of the answer. *)
Definition ask (from through : Time) (r : remote_store) (added : LabelSet) (m : list LabelMatcher)
    : outcome (list sampleStreamIterator) :=
  res ← Client_Read (q_client (r_querier r)) (r_world r) from through m;
  match res.2 with
  | inl _ => Ret []
  | inr mat =>
      mat ← @removeLabels (r_order r) mat added;
      a ← answer_of (MatrixToIterators (inr mat)); Ret a.1
  end.

(** Where a goroutine of the query is; [added] are the labels it will remove
    from its answer. *)
Inductive qgoroutine :=
  | GMatching (added : LabelSet) (g : mgoroutine)
  | GMerging (g : goroutine (I := sampleStreamIterator))
  | GPanicked.

Record query_state := mkQueryState {
  shared_array : list (option LabelMatcher);
  shared_map : gmap Z nat;
  shared_heap : gmap nat (mergeIterator sampleStreamIterator);
  workers : list qgoroutine
}.

Section query.
Variables (from through : Time) (ms : list LabelMatcher) (spare : nat).
Variables (localIts : list sampleStreamIterator) (remotes : list remote_store).

(** A goroutine starts: the external labels it has to add are those the caller's
    matchers do not name. *)
Definition start_worker (r : remote_store) : qgoroutine :=
  match @addExternalLabels _ (r_order r) _ _ (r_querier r) ms with
  | Ret (m, added) => GMatching added (MAppending (drop (length ms) m) (MShared (length ms)))
  | Panic _ => GPanicked
  end.

(** [spare]: the room in the caller's slice after its matchers. *)
Definition query_start : query_state :=
  let '(mp, hp) := alloc_locals ∅ ∅ localIts in
  mkQueryState ((Some <$> ms) ++ replicate spare None) mp hp (start_worker <$> remotes).

(** The next action of goroutine [i]; a slot of the slice that was never
    written is a nil matcher. *)
Definition query_step (i : nat) (s : query_state) : option query_state :=
  r ← remotes !! i; g ← workers s !! i;
  match g with
  | GMatching added (MSent l) =>
      let g' := match mapM id l with
                | None => GPanicked
                | Some m => match ask from through r added m with
                            | Ret its => GMerging (GLoop its)
                            | Panic _ => GPanicked
                            end
                end in
      Some (mkQueryState (shared_array s) (shared_map s) (shared_heap s) (<[i := g']> (workers s)))
  | GMatching added g =>
      ag ← matcher_step (shared_array s) g;
      Some (mkQueryState ag.1 (shared_map s) (shared_heap s) (<[i := GMatching added ag.2]> (workers s)))
  | GMerging g =>
      mhg ← gstep (shared_map s) (shared_heap s) g;
      Some (mkQueryState (shared_array s) mhg.1.1 mhg.1.2 (<[i := GMerging mhg.2]> (workers s)))
  | GPanicked => None
  end.

Fixpoint query_run (sched : list nat) (s : query_state) : option query_state :=
  match sched with
  | [] => Some s
  | i :: sched => match query_step i s with Some s => query_run sched s | None => None end
  end.

(** [wg.Wait()] returns. *)
Definition query_done (s : query_state) : Prop := Forall (fun g => g = GMerging (GLoop [])) (workers s).

(** The entries of the map at the end, through their pointers. *)
Definition collect (s : query_state) : gmap Z (mergeIterator sampleStreamIterator) :=
  omap (fun p => shared_heap s !! p) (shared_map s).

(** ** The reference: the remotes one after the other *)

Definition sequential_answer (r : remote_store) : outcome (list sampleStreamIterator * option error) :=
  @Querier_QueryRange _ _ (r_order r) _ _ from through ms (RemoteQuerier (r_world r) (r_querier r)).
Definition answer_iterators (r : remote_store) : list sampleStreamIterator :=
  match sequential_answer r with Ret a => a.1 | Panic _ => [] end.

(** The matchers a remote appends, and the labels it removes. *)
Definition todo_of (r : remote_store) : list LabelMatcher :=
  match @addExternalLabels _ (r_order r) _ _ (r_querier r) ms with
  | Ret (m, _) => drop (length ms) m
  | Panic _ => []
  end.
Definition added_of (r : remote_store) : LabelSet := unnamed (q_externalLabels (r_querier r)) ms.

Lemma addExternalLabels_todo r :
  @addExternalLabels _ (r_order r) _ _ (r_querier r) ms = Ret (ms ++ todo_of r, added_of r).
Proof.
  unfold todo_of, added_of.
  destruct (@addExternalLabels_spec _ (r_order r) _ _ (r_querier r) ms) as (added&->&_).
  by rewrite drop_app_length.
Qed.

Lemma start_worker_todo r :
  start_worker r = GMatching (added_of r) (MAppending (todo_of r) (MShared (length ms))).
Proof. unfold start_worker. by rewrite addExternalLabels_todo, drop_app_length. Qed.

(** [read] is [addExternalLabels], then [ask]. *)
Lemma sequential_answer_ask r a :
  sequential_answer r = Ret a -> ask from through r (added_of r) (ms ++ todo_of r) = Ret (answer_iterators r).
Proof.
  intros Ha. unfold answer_iterators. rewrite Ha. revert Ha.
  unfold sequential_answer, Querier_QueryRange, QueryRange, read, ask.
  rewrite addExternalLabels_todo. cbn [mbind outcome_bind].
  destruct (Client_Read _ _ _ _ _) as [[[w c] [err|mat]]|p]; cbn [mbind outcome_bind fst snd];
    [by intros [= <-]| |done].
  destruct (removeLabels mat (added_of r)) as [mat'|p]; cbn [mbind outcome_bind fst snd]; [|done].
  by intros ->.
Qed.

Lemma sequential_answers (O : MapOrder) rs :
  Forall (fun r => exists a, sequential_answer r = Ret a) rs -> Forall (fun r => r_order r = O) rs ->
  mapM (Querier_QueryRange from through ms) ((fun r => RemoteQuerier (r_world r) (r_querier r)) <$> rs) =
    Ret ((fun r => match sequential_answer r with Ret a => a | Panic _ => ([], None) end) <$> rs).
Proof.
  induction 1 as [|r rs [a Ha] _ IH]; intros HO; [done|].
  apply Forall_cons in HO as [Hr HO]. cbn [fmap list_fmap mapM]. rewrite Ha.
  unfold sequential_answer in Ha. rewrite Hr in Ha. rewrite Ha. cbn [mbind outcome_bind]. by rewrite IH.
Qed.

(** ** The system as its two components

    Seen from the slice a goroutine that merges has sent its matchers; seen from
    the map one that is still matching has all its answer to merge. *)

Definition ms_view (r : remote_store) (g : qgoroutine) : mgoroutine :=
  match g with GMatching _ g => g | _ => MSent (Some <$> (ms ++ todo_of r)) end.
Definition merge_view (r : remote_store) (g : qgoroutine) : goroutine :=
  match g with
  | GMatching _ _ => GLoop (answer_iterators r)
  | GMerging g => g
  | GPanicked => GCrashed
  end.

Definition ms_of (s : query_state) : ms_state :=
  mkMsState (shared_array s) (zip_with ms_view remotes (workers s)).
Definition race_of (s : query_state) : race_state :=
  mkRace (shared_map s) (shared_heap s) (zip_with merge_view remotes (workers s)).

Definition knows_labels (r : remote_store) (g : qgoroutine) : Prop :=
  match g with GMatching added _ => added = added_of r | _ => True end.

Record query_inv (s0 s : query_state) : Prop := {
  qi_matchers : ms_inv ms (todo_of <$> remotes) (ms_of s);
  qi_array : length (shared_array s) = (length ms + spare)%nat;
  qi_race : race_inv (race_of s0) (answer_iterators <$> remotes) (race_of s);
  qi_labels : Forall2 knows_labels remotes (workers s)
}.

Lemma zip_with_insert_r {A B C} (f : A -> B -> C) (l : list A) (k : list B) i x y :
  l !! i = Some x -> zip_with f l (<[i := y]> k) = <[i := f x y]> (zip_with f l k).
Proof. intros Hx. by rewrite insert_zip_with, (list_insert_id l). Qed.

Lemma zip_with_insert_same {A B C} (f : A -> B -> C) (l : list A) (k : list B) i x y y' :
  l !! i = Some x -> k !! i = Some y -> f x y' = f x y ->
  zip_with f l (<[i := y']> k) = zip_with f l k.
Proof.
  intros Hx Hy Hf. rewrite (zip_with_insert_r f l k i x y' Hx). apply list_insert_id.
  by rewrite lookup_zip_with, Hx, Hy, Hf.
Qed.

Lemma labels_insert s i r g g' :
  Forall2 knows_labels remotes (workers s) -> remotes !! i = Some r -> workers s !! i = Some g ->
  knows_labels r g' -> Forall2 knows_labels remotes (<[i := g']> (workers s)).
Proof.
  intros Hl Hr Hg Hk. rewrite <- (list_insert_id remotes i r Hr). by apply Forall2_insert.
Qed.

Hypothesis Hshare : spare = 0%nat \/ exists l, Forall (fun r => todo_of r = l) remotes.
Hypothesis Hanswers : Forall (fun r => exists a, sequential_answer r = Ret a) remotes.
Hypothesis Hdisjoint : disjoint_fingerprints (answer_iterators <$> remotes).

Lemma todos_share (arr : list (option LabelMatcher)) : length arr = (length ms + spare)%nat ->
  length arr = length ms \/ exists l : list LabelMatcher, Forall (eq l) (todo_of <$> remotes).
Proof.
  intros Harr. destruct Hshare as [->|[l Hl]]; [left; lia|right]. exists l. apply Forall_fmap.
  eapply Forall_impl; [exact Hl|]. intros r Hr. by symmetry.
Qed.

(** A goroutine that has sent its matchers has sent the caller's and its own, and
    gets the answer of the sequential query. *)
Lemma sent_answer s0 s i r added l :
  query_inv s0 s -> remotes !! i = Some r -> workers s !! i = Some (GMatching added (MSent l)) ->
  l = Some <$> (ms ++ todo_of r) /\ mapM id l = Some (ms ++ todo_of r) /\
  ask from through r added (ms ++ todo_of r) = Ret (answer_iterators r).
Proof.
  intros [Hms _ _ Hlab] Hr Hg.
  assert (Querier.goroutines (ms_of s) !! i = Some (MSent l)) as Hv
    by (simpl; by rewrite lookup_zip_with, Hr, Hg).
  assert ((todo_of <$> remotes) !! i = Some (todo_of r)) as Ht by (by rewrite list_lookup_fmap, Hr).
  pose proof (Forall2_lookup_lr _ _ _ _ _ _ Hms Ht Hv) as ->.
  pose proof (Forall2_lookup_lr _ _ _ _ _ _ Hlab Hr Hg) as Hk. simpl in Hk. subst added.
  split_ands; [done| |].
  - apply mapM_Some. apply Forall2_fmap_l. apply Forall_Forall2_diag. by apply Forall_true.
  - destruct (Forall_lookup_1 _ _ _ _ Hanswers Hr) as [a Ha]. by eapply sequential_answer_ask.
Qed.

Lemma query_step_inv s0 s i s' :
  query_inv s0 s -> query_step i s = Some s' -> query_inv s0 s'.
Proof.
  intros Hs Hst. pose proof Hs as [Hms Harr Hrace Hlab]. unfold query_step in Hst.
  destruct (remotes !! i) as [r|] eqn:Hr; [|done]. simpl in Hst.
  destruct (workers s !! i) as [[added g|g|]|] eqn:Hg; try done; cbn [mbind option_bind] in Hst.
  - destruct g as [todo sl|l].
    + destruct (matcher_step (shared_array s) (MAppending todo sl)) as [[arr g']|] eqn:Hm; cbn [mbind option_bind] in Hst; [|done].
      injection Hst as <-. pose proof (Forall2_lookup_lr _ _ _ _ _ _ Hlab Hr Hg) as Hk.
      assert (ms_step i (ms_of s) = Some (ms_of (mkQueryState arr (shared_map s) (shared_heap s)
        (<[i:=GMatching added g']> (workers s))))) as Hstep.
      { unfold ms_step, ms_of. cbn [Querier.goroutines backing shared_array workers].
        rewrite lookup_zip_with, Hr, Hg. cbn [mbind option_bind fmap option_map option_fmap ms_view]. rewrite Hm.
        by rewrite (zip_with_insert_r _ _ _ _ r _ Hr). }
      destruct (ms_step_inv ms (todo_of <$> remotes) (ms_of s) i _ (todos_share _ Harr) Hms Hstep) as [Hms' Hlen].
      constructor; [done|by rewrite <- Harr|..|by eapply labels_insert].
      unfold race_of. simpl. by rewrite (zip_with_insert_same merge_view _ _ _ _ _ _ Hr Hg).
    + destruct (sent_answer _ _ _ _ _ _ Hs Hr Hg) as (Hl&Hm&Ha). rewrite Hm, Ha in Hst.
      injection Hst as <-. constructor; unfold ms_of, race_of; simpl; [|done|..|by eapply labels_insert].
      * by rewrite (zip_with_insert_same ms_view _ _ _ _ _ _ Hr Hg) by (simpl; by rewrite Hl).
      * by rewrite (zip_with_insert_same merge_view _ _ _ _ _ _ Hr Hg).
  - destruct (gstep (shared_map s) (shared_heap s) g) as [[[mp hp] g']|] eqn:Hm; cbn [mbind option_bind] in Hst; [|done].
    injection Hst as <-. constructor; simpl; [|done|..|by eapply labels_insert].
    + unfold ms_of. simpl. by rewrite (zip_with_insert_same ms_view _ _ _ _ _ _ Hr Hg).
    + pose proof (race_inv_step _ _ _ i Hdisjoint Hrace) as Hn. unfold schedule_step in Hn.
      simpl in Hn. rewrite lookup_zip_with, Hr, Hg in Hn. simpl in Hn. rewrite Hm in Hn.
      unfold race_of. simpl. by rewrite (zip_with_insert_r _ _ _ _ r _ Hr).
Qed.

Lemma query_run_inv s0 sched : forall s s',
  query_inv s0 s -> query_run sched s = Some s' -> query_inv s0 s'.
Proof.
  induction sched as [|i sched IH]; intros s s' Hs Hrun; simpl in Hrun; [by injection Hrun as <-|].
  destruct (query_step i s) as [s1|] eqn:Hst; [|done]. eapply IH; [|done]. by eapply query_step_inv.
Qed.

(** ** The start *)

Lemma query_start_initial :
  initial (race_of query_start) (answer_iterators <$> remotes) /\
  forall fp, view (race_of query_start) fp = addLocals ∅ localIts !! fp.
Proof.
  assert (race_of query_start = race_start localIts (answer_iterators <$> remotes)) as ->.
  { unfold query_start, race_start. destruct (alloc_locals ∅ ∅ localIts) as [mp hp]. unfold race_of.
    cbn [shared_map shared_heap workers]. f_equal.
    rewrite zip_with_fmap_r, zip_with_diag, <- list_fmap_compose.
    apply list_fmap_ext. intros i r _. by rewrite start_worker_todo. }
  destruct (race_start_spec localIts (answer_iterators <$> remotes)) as [Hi Hv]. split; [done|].
  intros fp. rewrite Hv, addLocals_lookup. by destruct (last _).
Qed.

Lemma query_start_inv : query_inv query_start query_start.
Proof.
  destruct query_start_initial as [Hi _]. constructor.
  - assert (ms_of query_start = ms_init ms spare (todo_of <$> remotes)) as ->; [|apply ms_init_inv].
    unfold query_start. destruct (alloc_locals ∅ ∅ localIts) as [mp hp]. unfold ms_of, ms_init.
    cbn [shared_array workers]. f_equal.
    rewrite zip_with_fmap_r, zip_with_diag, <- list_fmap_compose.
    apply list_fmap_ext. intros i r _. by rewrite start_worker_todo.
  - unfold query_start. destruct (alloc_locals ∅ ∅ localIts) as [mp hp].
    cbn [shared_array]. by rewrite length_app, length_fmap, length_replicate.
  - by apply race_inv_initial.
  - unfold query_start. destruct (alloc_locals ∅ ∅ localIts) as [mp hp]. cbn [workers].
    apply Forall2_fmap_r, Forall_Forall2_diag, Forall_true. intros r. unfold compose. by rewrite start_worker_todo.
Qed.

(** ** Every schedule ends, and only when all have finished *)

Definition worker_cost (r : remote_store) (g : qgoroutine) : nat :=
  match g with
  | GMatching _ (MAppending todo _) => length todo + 2 + 4 * length (answer_iterators r)
  | GMatching _ (MSent _) => 1 + 4 * length (answer_iterators r)
  | GMerging g => merge_cost g
  | GPanicked => 0
  end.

Definition query_cost (s : query_state) : nat := sum_list (zip_with worker_cost remotes (workers s)).

Lemma sum_list_insert (l : list nat) i x y :
  l !! i = Some x -> (sum_list (<[i := y]> l) + x = sum_list l + y)%nat.
Proof.
  revert i. induction l as [|z l IH]; intros [|i] Hi; simplify_eq/=; [lia|]. specialize (IH i Hi). lia.
Qed.

Lemma query_cost_insert arr mp hp s i r g g' :
  remotes !! i = Some r -> workers s !! i = Some g -> (worker_cost r g' < worker_cost r g)%nat ->
  (query_cost (mkQueryState arr mp hp (<[i := g']> (workers s))) < query_cost s)%nat.
Proof.
  intros Hr Hg Hlt. unfold query_cost. cbn [workers].
  rewrite (zip_with_insert_r _ _ _ _ r _ Hr).
  pose proof (sum_list_insert (zip_with worker_cost remotes (workers s)) i (worker_cost r g)
    (worker_cost r g')) as Hs. rewrite lookup_zip_with, Hr, Hg in Hs. specialize (Hs eq_refl). lia.
Qed.

Lemma matcher_step_cost r added arr g arr' g' :
  matcher_step arr g = Some (arr', g') ->
  (worker_cost r (GMatching added g') < worker_cost r (GMatching added g))%nat.
Proof.
  destruct g as [[|m todo] sl|l]; cbn [matcher_step]; [intros [= <- <-]; simpl; lia| |done].
  destruct (append_matcher arr sl m). intros [= <- <-]. simpl. lia.
Qed.

Lemma query_step_cost s0 s i s' :
  query_inv s0 s -> query_step i s = Some s' -> (query_cost s' < query_cost s)%nat.
Proof.
  intros Hs Hst. unfold query_step in Hst.
  destruct (remotes !! i) as [r|] eqn:Hr; [|done]. cbn [mbind option_bind] in Hst.
  destruct (workers s !! i) as [[added g|g|]|] eqn:Hg; try done; cbn [mbind option_bind] in Hst.
  - destruct g as [todo sl|l].
    + destruct (matcher_step (shared_array s) (MAppending todo sl)) as [[arr g']|] eqn:Hm;
        cbn [mbind option_bind] in Hst; [|done]. injection Hst as <-.
      eapply query_cost_insert; [done|done|]. by eapply matcher_step_cost.
    + destruct (sent_answer _ _ _ _ _ _ Hs Hr Hg) as (Hl&Hm&Ha). rewrite Hm, Ha in Hst.
      injection Hst as <-. eapply query_cost_insert; [done|done|]. simpl. lia.
  - destruct (gstep (shared_map s) (shared_heap s) g) as [[[mp hp] g']|] eqn:Hm;
      cbn [mbind option_bind] in Hst; [|done]. injection Hst as <-.
    eapply query_cost_insert; [done|done|]. by eapply gstep_cost.
Qed.

Lemma query_run_cost s0 sched : forall s s',
  query_inv s0 s -> query_run sched s = Some s' -> (length sched + query_cost s' <= query_cost s)%nat.
Proof.
  induction sched as [|i sched IH]; intros s s' Hs Hrun; simpl in Hrun; [by injection Hrun as <-|].
  destruct (query_step i s) as [s1|] eqn:Hst; [|done].
  pose proof (query_step_cost _ _ _ _ Hs Hst). pose proof (query_step_inv _ _ _ _ Hs Hst) as Hs1.
  specialize (IH s1 s' Hs1 Hrun). simpl. lia.
Qed.

Lemma query_no_panic s0 s :
  query_inv s0 s -> Forall (fun g => g <> GPanicked /\ g <> GMerging GCrashed) (workers s).
Proof.
  intros [_ _ Hrace Hlab]. pose proof (race_inv_no_crash _ _ _ Hrace) as Hc.
  apply Forall_lookup. intros i g Hg. destruct (Forall2_lookup_r _ _ _ _ _ Hlab Hg) as (r&Hr&_).
  rewrite Forall_lookup in Hc. specialize (Hc i (merge_view r g)). unfold race_of in Hc. cbn [FaninRace.goroutines] in Hc.
  rewrite lookup_zip_with, Hr, Hg in Hc. specialize (Hc eq_refl). split; intros ->; by apply Hc.
Qed.

Definition worker_done (g : qgoroutine) : bool :=
  match g with GMerging (GLoop []) => true | _ => false end.

(** No deadlock: the goroutines never wait for each other. *)
Lemma query_progress s0 s :
  query_inv s0 s -> query_done s \/ exists i s', query_step i s = Some s'.
Proof.
  intros Hs. pose proof (query_no_panic _ _ Hs) as Hnp. destruct Hs as [_ _ _ Hlab].
  destruct (decide (Forall (fun g => worker_done g = true) (workers s))) as [Hd|Hd].
  { left. eapply Forall_impl; [exact Hd|]. by intros [?|[[]| | | | |]|]. }
  right. apply not_Forall_Exists in Hd; [|apply _].
  apply Exists_exists in Hd as (g&Hg&Hgd). rewrite Forall_forall in Hnp. destruct (Hnp g Hg) as [Hp Hc].
  apply list_elem_of_lookup in Hg as [i Hi]. destruct (Forall2_lookup_r _ _ _ _ _ Hlab Hi) as (r&Hr&_).
  exists i. unfold query_step. rewrite Hr, Hi. cbn [mbind option_bind].
  destruct g as [added [[|m todo] sl|l]|g|]; [by eexists| |by eexists| |done].
  - cbn [matcher_step]. destruct (append_matcher _ _ _). by eexists.
  - destruct g as [[|it its]|it its|it p its|it p q its|it q r' its|]; [by destruct Hgd|..|done]; cbn [gstep];
      try (by eexists); case_match; by eexists.
Qed.

Lemma query_done_collect s :
  query_inv query_start s -> query_done s ->
  collect s = queryMap (fun r => (answer_iterators r, None)) localIts remotes.
Proof.
  intros [_ _ Hrace Hlab] Hd. destruct query_start_initial as [_ Hv].
  apply map_eq. intros fp. rewrite queryMap_lookup. unfold collect. rewrite lookup_omap.
  change (view (race_of s) fp = extend_group
    ((fun it => mkMergeIterator (Some it) []) <$> last (with_fp fp localIts))
    (with_fp fp (concat (answer_iterators <$> remotes)))).
  rewrite (race_inv_finished _ _ _ fp Hdisjoint Hrace), Hv, addLocals_lookup.
  - by destruct (last _).
  - unfold finished, race_of. cbn [FaninRace.goroutines]. apply Forall_lookup. intros i g.
    rewrite lookup_zip_with. destruct (remotes !! i) as [r|]; [|done]. simpl.
    destruct (workers s !! i) as [g'|] eqn:Hg; [|done]. simpl. intros [= <-].
    by rewrite (Forall_lookup_1 _ _ _ _ Hd Hg).
Qed.

(** The query of Querier.v, however it interleaves. *)
Lemma sequential_query (O : MapOrder) ctx sched :
  remotes <> [] -> localOnly ctx = false -> Forall (fun r => r_order r = O) remotes ->
  let qs := (fun r => RemoteQuerier (r_world r) (r_querier r)) <$> remotes in
  fanin_QueryRange (mkQuerier NoopQuerier qs) ctx from through ms sched =
    Ret (inr <$> (map_to_list (queryMap (fun r => (answer_iterators r, None)) [] remotes)).*2, None).
Proof.
  intros Hne Hctx HO qs.
  set (answers := (fun r => match sequential_answer r with Ret a => a | Panic _ => ([], None) end) <$> remotes).
  pose proof (sequential_answers O remotes Hanswers HO) as Hm. fold answers qs in Hm.
  unfold fanin_QueryRange, fanin_query. cbn [qlocal qremotes Querier_QueryRange mbind outcome_bind snd].
  assert (qs <> []) as Hqs by (by intros ?%fmap_nil_inv).
  rewrite bool_decide_eq_false_2 by (by intros [? [=]]). rewrite bool_decide_eq_false_2, Hctx by done.
  cbn [orb]. rewrite Hm. cbn [mbind outcome_bind]. unfold query. cbn [qlocal qremotes].
  rewrite bool_decide_eq_false_2, Hctx by (by intros ?%fmap_nil_inv). cbn [orb].
  assert ((fun a => a.1) <$> answers = answer_iterators <$> remotes) as ->.
  { unfold answers. rewrite <- list_fmap_compose. apply list_fmap_ext. intros i r _. unfold compose, answer_iterators.
    by destruct (sequential_answer r). }
  assert (race_map (query_end [] (answer_iterators <$> remotes) sched) =
    queryMap (fun r => (answer_iterators r, None)) [] remotes) as ->; [|by rewrite <- list_fmap_compose].
  apply map_eq. intros fp. destruct (race_start_spec [] (answer_iterators <$> remotes)) as [Hi Hv].
  rewrite race_map_lookup, queryMap_lookup.
  etransitivity; [apply (race_inv_finished (race_start [] (answer_iterators <$> remotes)) _ _ fp Hdisjoint)|].
  - by apply race_inv_run, race_inv_initial.
  - apply query_end_finished.
  - by rewrite Hv.
Qed.

End query.

(** C5: the goroutines of a query may be interleaved. Whatever the interleaving
    of the appends to the shared slice, the requests and the accesses to the
    shared map: when the caller's slice has no spare room, or all remotes append
    the same matchers in the same order, and the answers of the remotes share no
    fingerprint (and no client panics), no goroutine panics, the number of steps
    is bounded, there is no deadlock, and when all have finished the map holds
    exactly what the remotes one after the other leave in it: the query returns
    what [fanin_QueryRange] returns. *)
Theorem query_goroutines_sequential from through ms spare localIts remotes sched s :
  spare = 0%nat \/ (exists l, Forall (fun r => todo_of ms r = l) remotes) ->
  Forall (fun r => exists a, sequential_answer from through ms r = Ret a) remotes ->
  disjoint_fingerprints (answer_iterators from through ms <$> remotes) ->
  query_run from through remotes sched (query_start ms spare localIts remotes) = Some s ->
  Forall (fun g => g <> GPanicked /\ g <> GMerging GCrashed) (workers s) /\
  (length sched <= query_cost from through ms remotes (query_start ms spare localIts remotes))%nat /\
  (query_done s \/ exists i s', query_step from through remotes i s = Some s') /\
  (query_done s ->
    collect s = queryMap (fun r => (answer_iterators from through ms r, None)) localIts remotes /\
    forall (O : MapOrder) ctx, localIts = [] -> remotes <> [] -> localOnly ctx = false ->
      Forall (fun r => r_order r = O) remotes ->
      let qs := (fun r => RemoteQuerier (r_world r) (r_querier r)) <$> remotes in
      forall sched', fanin_QueryRange (mkQuerier NoopQuerier qs) ctx from through ms sched' =
        Ret (inr <$> (map_to_list (collect s)).*2, None)).
Proof.
  intros Hshare Hans Hdis Hrun.
  pose proof (query_start_inv from through ms spare localIts remotes) as H0'.
  pose proof (query_run_inv _ _ _ _ _ Hshare Hans Hdis _ _ _ _ H0' Hrun) as Hs.
  split_ands.
  - eapply query_no_panic, Hs.
  - pose proof (query_run_cost _ _ _ _ _ Hshare Hans Hdis _ _ _ _ H0' Hrun). lia.
  - eapply query_progress, Hs.
  - intros Hd. rewrite (query_done_collect _ _ _ _ _ _ Hdis s Hs Hd). split; [done|].
    intros O ctx -> Hne Hctx HO qs sched'. by apply sequential_query.
Qed.

End system.

(** ** Two remotes, interleaved *)

Section examples.
Import ScriptedHTTP.

(** One remote answers with the matrix, the other with none; both add the
    matcher of the label [site] to a slice with room for one. *)
Definition demo_querier : Read.querier := Read.mkQuerier plain_client {["site" := "a"]}.
Definition demo_remotes `{MapOrder} : list remote_store :=
  [mkRemote [answer 200 fixed_body] demo_querier _; mkRemote [answer 200 "{}"] demo_querier _].

(** Both append, both send, then both merge. *)
Definition demo_schedule : list nat := [0; 1; 1; 0; 1; 0; 0; 0]%nat.

Lemma demo_disjoint : disjoint_fingerprints (answer_iterators 500 2999 [] <$> demo_remotes).
Proof.
  assert (answer_iterators 500 2999 [] <$> demo_remotes = [[up_iterator]; []]) as -> by (vm_compute; reflexivity).
  intros i j its jts it jt Hne Hi Hj Hit Hjt.
  destruct i as [|[|i]], j as [|[|j]]; simplify_eq/=; set_solver.
Qed.

Definition demo_end : option query_state :=
  query_run 500 2999 demo_remotes demo_schedule (query_start [] 1 [] demo_remotes).

Lemma query_goroutines_sequential_witness :
  exists s, demo_end = Some s /\
    collect s = queryMap (fun r => (answer_iterators 500 2999 [] r, None)) [] demo_remotes /\
    length (map_to_list (collect s)) = 1%nat.
Proof.
  destruct demo_end as [s|] eqn:He; [|vm_compute in He; discriminate He]. exists s. split; [reflexivity|].
  destruct (query_goroutines_sequential 500 2999 [] 1 [] demo_remotes demo_schedule s) as (_&_&_&Hd).
  - right. exists (todo_of [] (mkRemote [answer 200 fixed_body] demo_querier _)).
    constructor; [reflexivity|]. constructor; [reflexivity|constructor].
  - repeat (constructor; [eexists; vm_compute; reflexivity|]). constructor.
  - exact demo_disjoint.
  - exact He.
  - destruct Hd as [Hc _].
    + unfold demo_end in He. vm_compute in He. injection He as <-. repeat constructor.
    + split; [exact Hc|]. rewrite Hc. vm_compute. reflexivity.
Defined.

End examples.
