(* ===== verification/Appender.v ===== *)
(** * The sample appenders of a scrape ([retrieval/target.go])

    Each wraps another [SampleAppender] and is one again; the methods it does
    not define are the wrapped one's. *)
From S2P Require Import Prelude Model MetricPkg Relabel Storage Target.

Open Scope Z_scope.

Definition set_metric (s : Sample) (m : Metric) : Sample := mkSample m (SValue s) (STimestamp s).

(** The loop of [ruleLabelsAppender.Append] over the labels in the order [l]. *)
Definition rule_labels (l : list (LabelName * LabelValue)) (metric : Metric) : Metric :=
  foldl (fun metric '(ln, lv) =>
    let metric :=
      match metric !! ln with
      | Some v => if String.eqb v EmptyString then metric
                  else <[ExportedLabelPrefix +:+ ln := v]> metric
      | None => metric
      end in
    <[ln := lv]> metric) metric l.

Section appenders.
Context `{RelabelLib, MapOrder}.
Context {W : Type}.

Definition ruleLabelsAppender (app : SampleAppender W) (labels : LabelSet) : SampleAppender W := {|
  Append w s := Append app w (set_metric s (rule_labels (order 0 labels) (SMetric s)));
  NeedsThrottling := NeedsThrottling app
|}.

Definition honorLabelsAppender (app : SampleAppender W) (labels : LabelSet) : SampleAppender W := {|
  Append w s := Append app w (set_metric s (add_missing (order 0 labels) (SMetric s)));
  NeedsThrottling := NeedsThrottling app
|}.

Definition relabelAppender (app : SampleAppender W) (relabelings : list RelabelConfig)
    : SampleAppender W := {|
  Append w s :=
    labels ← Process (SMetric s) relabelings;
    match labels with
    | None => Ret (w, s, None)
    | Some labels => Append app w (set_metric s labels)
    end;
  NeedsThrottling := NeedsThrottling app
|}.

(** The state of a buffer is the samples in it. *)
Definition bufferAppender : SampleAppender (list Sample) := {|
  Append buffer s := Ret (buffer ++ [s], s, None);
  NeedsThrottling _ := false
|}.

(** The counter is an [int]. *)
Definition countingAppender (app : SampleAppender W) : SampleAppender (W * Z) := {|
  Append wc s :=
    r ← Append app wc.1 s;
    let '(w, s, err) := r in Ret ((w, int64 (wc.2 + 1)), s, err);
  NeedsThrottling wc := NeedsThrottling app wc.1
|}.

End appenders.

(** ** Rule labels *)

(** No label of the target is the exported name of another one. *)
Definition no_exported_clash (labels : LabelSet) : Prop :=
  forall ln ln', is_Some (labels !! ln) -> is_Some (labels !! ln') ->
    ln' <> ExportedLabelPrefix +:+ ln.

(** The value that moves to the exported label [k]. *)
Definition exported_value (labels : LabelSet) (m : Metric) (k : LabelName) : option LabelValue :=
  if HasPrefix k ExportedLabelPrefix then
    let ln := drop_bytes (String.length ExportedLabelPrefix) k in
    match labels !! ln, m !! ln with
    | Some _, Some v => if String.eqb v EmptyString then None else Some v
    | _, _ => None
    end
  else None.

Lemma exported_value_key labels m ln :
  exported_value labels m (ExportedLabelPrefix +:+ ln) =
    match labels !! ln, m !! ln with
    | Some _, Some v => if String.eqb v EmptyString then None else Some v
    | _, _ => None
    end.
Proof. unfold exported_value. by rewrite HasPrefix_app, drop_bytes_app. Qed.

Lemma rule_labels_spec (l : list (LabelName * LabelValue)) (m : Metric) k :
  NoDup l.*1 -> no_exported_clash (list_to_map l) ->
  rule_labels l m !! k =
    match (list_to_map l : LabelSet) !! k with
    | Some lv => Some lv
    | None =>
        match exported_value (list_to_map l) m k with
        | Some v => Some v
        | None => m !! k
        end
    end.
Proof.
  revert m. induction l as [|[ln lv] l IH]; intros m Hnd Hclash.
  { simpl. unfold exported_value. change (list_to_map []) with (∅ : LabelSet).
    rewrite !lookup_empty. by destruct (HasPrefix _ _). }
  apply NoDup_cons in Hnd as [Hln Hnd].
  apply (not_elem_of_list_to_map_1 (M := gmap string)) in Hln. simpl in Hln.
  change (list_to_map ((ln, lv) :: l)) with (<[ln := lv]> (list_to_map l : LabelSet)) in *.
  set (L := list_to_map l : LabelSet) in *.
  assert (no_exported_clash L) as HL.
  { intros a b [x Ha] [y Hb]. apply Hclash; rewrite lookup_insert; case_decide; (done || by eexists). }
  assert (forall a, is_Some (L !! a) -> a <> ExportedLabelPrefix +:+ ln) as Hout.
  { intros a [x Ha]. apply Hclash; rewrite lookup_insert; case_decide; (done || by eexists). }
  assert (forall a, is_Some (L !! a) -> ln <> ExportedLabelPrefix +:+ a) as Hin.
  { intros a [x Ha]. apply Hclash; rewrite lookup_insert; case_decide; (done || by eexists). }
  assert (ln <> ExportedLabelPrefix +:+ ln) as Hself
    by (apply Hclash; rewrite lookup_insert_eq; by eexists).
  unfold rule_labels. cbn [foldl]. change (foldl _ ?a l) with (rule_labels l a).
  rewrite IH by done. fold L. clear IH.
  set (m1 := match m !! ln with Some v => _ | None => m end).
  assert (forall a, a <> ExportedLabelPrefix +:+ ln -> m1 !! a = m !! a) as Hm1.
  { intros a Ha. unfold m1. destruct (m !! ln); [|done]. destruct (String.eqb _ _); [done|].
    by rewrite lookup_insert_ne. }
  destruct (decide (k = ln)) as [->|Hk].
  { rewrite Hln, lookup_insert_eq. unfold exported_value.
    destruct (HasPrefix ln ExportedLabelPrefix) eqn:Hp; [|by rewrite lookup_insert_eq].
    apply prefix_split in Hp. set (a := drop_bytes _ ln) in *. clearbody a.
    destruct (L !! a) eqn:Ha; [|by rewrite lookup_insert_eq]. exfalso. by apply (Hin a). }
  rewrite !(lookup_insert_ne _ ln k) by done. destruct (L !! k) as [lv'|] eqn:HLk; [done|].
  unfold exported_value.
  destruct (HasPrefix k ExportedLabelPrefix) eqn:Hp.
  2: { rewrite Hm1; [done|]. intros ->. by rewrite HasPrefix_app in Hp. }
  apply prefix_split in Hp. set (a := drop_bytes _ k) in *. clearbody a. subst k. cbv zeta.
  destruct (decide (a = ln)) as [->|Ha].
  - rewrite Hln, !lookup_insert_eq. unfold m1. destruct (m !! ln) as [v|]; [|done].
    destruct (String.eqb v EmptyString); [done|]. by rewrite lookup_insert_eq.
  - rewrite !(lookup_insert_ne _ ln) by done.
    assert (m1 !! (ExportedLabelPrefix +:+ a) = m !! (ExportedLabelPrefix +:+ a)) as ->.
    { apply Hm1. intros Heq. apply Ha. rewrite <- (drop_bytes_app ExportedLabelPrefix a), Heq.
      apply drop_bytes_app. }
    destruct (L !! a) as [x|] eqn:HLa; [|done]. rewrite Hm1; [done|].
    apply Hout. by eexists.
Qed.

Section appender_theorems.
Context `{RelabelLib, MapOrder}.
Context {W : Type}.

(** The label appenders. ruleLabelsAppender passes on the sample with every
    label of the target, and with the scraped value of a label it overrides (if
    not empty) under its exported name, the other labels being left alone: with
    no target label that is the exported name of another, this does not depend
    on the order of the map. honorLabelsAppender only adds the labels the sample
    does not have. relabelAppender passes on the relabelled sample, or nothing
    and no error when relabelling drops it. None of them changes the value or
    the timestamp, or the throttling of the appender it wraps. *)
Theorem label_appenders_correct (app : SampleAppender W) (labels : LabelSet)
    (relabelings : list RelabelConfig) (w : W) (s : Sample) :
  (no_exported_clash labels -> exists m,
    Append (ruleLabelsAppender app labels) w s = Append app w (mkSample m (SValue s) (STimestamp s)) /\
    forall k, m !! k =
      match labels !! k with
      | Some lv => Some lv
      | None =>
          match exported_value labels (SMetric s) k with
          | Some v => Some v
          | None => SMetric s !! k
          end
      end) /\
  Append (honorLabelsAppender app labels) w s =
    Append app w (mkSample (SMetric s ∪ labels) (SValue s) (STimestamp s)) /\
  (forall r, Process (SMetric s) relabelings = Ret r ->
    Append (relabelAppender app relabelings) w s =
      match r with
      | None => Ret (w, s, None)
      | Some m => Append app w (mkSample m (SValue s) (STimestamp s))
      end) /\
  NeedsThrottling (ruleLabelsAppender app labels) w = NeedsThrottling app w /\
  NeedsThrottling (honorLabelsAppender app labels) w = NeedsThrottling app w /\
  NeedsThrottling (relabelAppender app relabelings) w = NeedsThrottling app w.
Proof.
  split_ands; try done.
  - intros Hc. eexists. split; [done|]. intros k. pose proof (order_range 0 labels) as Ho.
    rewrite rule_labels_spec by (by eapply map_range_NoDup_fst || rewrite (map_range_list_to_map _ _ Ho)).
    by rewrite (map_range_list_to_map _ _ Ho).
  - simpl. by rewrite (add_missing_union _ labels) by apply order_range.
  - intros r Hr. simpl. rewrite Hr. by destruct r.
Qed.

(** Rule labels that are exported names of each other. A target with the
    labels x and exported_x, both of which a sample also has: two orders of the
    target's label map give two different metrics, and in one of them the
    target's own label exported_x is overwritten by the sample's. *)
Theorem rule_labels_order_dependent :
  exists (labels : LabelSet) l1 l2 (m : Metric),
    map_range labels l1 /\ map_range labels l2 /\
    rule_labels l1 m <> rule_labels l2 m /\
    labels !! "exported_x" = Some "target" /\ rule_labels l1 m !! "exported_x" = Some "scraped".
Proof.
  exists (list_to_map [("exported_x", "target"); ("x", "target")]),
    [("exported_x", "target"); ("x", "target")], [("x", "target"); ("exported_x", "target")],
    {["x" := "scraped"]}.
  assert (forall l : list (string * string), l.*1 = ["x"; "exported_x"] \/ l.*1 = ["exported_x"; "x"] ->
    NoDup l.*1) as Hnd.
  { intros l [-> | ->]; apply (bool_decide_unpack _); vm_compute; exact I. }
  split_ands.
  - apply map_range_of_list, Hnd. by right.
  - change (map_range (list_to_map [("x", "target"); ("exported_x", "target")] : Metric)
      [("x", "target"); ("exported_x", "target")]).
    apply map_range_of_list, Hnd. by left.
  - intros Heq. apply (f_equal (lookup "exported_x")) in Heq. vm_compute in Heq. discriminate Heq.
  - reflexivity.
  - reflexivity.
Qed.

(** Counting and buffering. A countingAppender appends exactly like the
    appender it wraps and adds one to its count on every Append, whatever its
    error; a bufferAppender keeps the samples in the order they were appended
    and never fails or asks for throttling. *)
Theorem counting_buffer_correct (app : SampleAppender W) (w : W) (n : Z) (s : Sample) :
  (forall w' s' err, Append (countingAppender app) (w, n) s = Ret ((w', int64 (n + 1)), s', err) <->
     Append app w s = Ret (w', s', err)) /\
  (forall p, Append (countingAppender app) (w, n) s = Panic p <-> Append app w s = Panic p) /\
  (forall l, foldl (fun r x => b ← r; q ← Append bufferAppender b x; Ret q.1.1) (Ret []) l = Ret l) /\
  (forall b, NeedsThrottling bufferAppender b = false).
Proof.
  split_ands; try done.
  - intros w' s' err. simpl. destruct (Append app w s) as [[[w1 s1] e1]|p]; simpl; [|done].
    split; [by intros [= -> -> ->]|by intros [= -> -> ->]].
  - intros p. simpl. destruct (Append app w s) as [[[w1 s1] e1]|p']; simpl; [done|].
    split; by intros [= ->].
  - intros l. simpl. induction l as [|x l IH] using rev_ind; [done|].
    rewrite foldl_app, IH. done.
Qed.

End appender_theorems.
