(* ===== verification/TargetManager.v ===== *)
(** * Scrape pools and the target manager ([retrieval/scrape.go], [retrieval/targetmanager.go])

    A pool keeps the targets of one job by their hash; the manager keeps a pool
    per job and follows the configuration. Their mutexes make every operation
    atomic. Service discovery and HTTP clients are parameters; a goroutine that
    runs a target set ends when its context is cancelled, so a set carries that
    flag. This fork does not scrape: the appender of a pool is never used. *)
From S2P Require Import Prelude Model MetricPkg Relabel Storage Target.

Open Scope Z_scope.

Class ScrapeLib := {
  ScrapeHTTPConfig : Type;
  ScrapeClient : Type;
  NewScrapeClient : ScrapeHTTPConfig -> error + ScrapeClient;
  SDConfig : Type;
  Providers : Type;
  ProvidersFromConfig : SDConfig -> Providers
}.

(** The order in which the loops over a map of targets visit it. *)
Class TargetsOrder `{RegexpLib} := {
  torder : gmap Z Target -> list (Z * Target);
  torder_range m : map_range m (torder m)
}.

Section pool.
Context `{RelabelLib, MapOrder, StrconvLib, ParamsOrder, URLLib, ScrapeLib, !TargetsOrder}.

(** A scrape configuration with the parts for discovery and HTTP. *)
Record JobConfig := mkJobConfig {
  jc_scrape : ScrapeConfig;
  jc_http : ScrapeHTTPConfig;
  jc_sd : SDConfig
}.

Record scrapePool := mkScrapePool {
  sp_config : JobConfig;
  sp_client : option ScrapeClient;
  sp_targets : gmap Z Target
}.

Definition newScrapePool (cfg : JobConfig) : scrapePool := mkScrapePool cfg None ∅.

(** The loop over the targets: their hashes, and the map with the new ones. *)
Definition sync_add (targets : list Target) (m : gmap Z Target) : gmap Z Target * gset Z :=
  foldl (fun '(m, unique) t =>
    let h := hash t in
    (match m !! h with Some _ => m | None => <[h := t]> m end, {[h]} ∪ unique)) (m, ∅) targets.

(** The loop that deletes the targets that have gone. *)
Definition sync_delete (unique : gset Z) (l : list (Z * Target)) (m : gmap Z Target) : gmap Z Target :=
  foldl (fun m '(h, _) => if decide (h ∈ unique) then m else delete h m) m l.

Definition sync (sp : scrapePool) (targets : list Target) : scrapePool :=
  let '(m, unique) := sync_add targets (sp_targets sp) in
  mkScrapePool (sp_config sp) (sp_client sp) (sync_delete unique (torder m) m).

(** The loop of [Sync]: a group in error is logged and skipped. The groups are
    returned as [targetsFromGroup] leaves them. *)
Fixpoint all_targets (cfg : ScrapeConfig) (tgs : list TargetGroup)
    : outcome (list TargetGroup * list Target) :=
  match tgs with
  | [] => Ret ([], [])
  | tg :: tgs =>
      r ← targetsFromGroup tg cfg;
      k ← all_targets cfg tgs;
      Ret (r.1 :: k.1, match r.2 with inl _ => k.2 | inr targets => targets ++ k.2 end)
  end.

Definition Sync (sp : scrapePool) (tgs : list TargetGroup)
    : outcome (scrapePool * list TargetGroup) :=
  r ← all_targets (jc_scrape (sp_config sp)) tgs;
  Ret (sync sp r.2, r.1).

(** An error of the client is logged, and the client is then nil. *)
Definition sp_reload (sp : scrapePool) (cfg : JobConfig) : scrapePool :=
  mkScrapePool cfg
    (match NewScrapeClient (jc_http cfg) with inl _ => None | inr c => Some c end)
    (sp_targets sp).

(** ** The manager *)

(** [ts_base] is the base context the set's context was derived from, and
    [ts_cancel] says whether its own cancel function was called. *)
Record targetSet := mkTargetSet {
  ts_base : nat;
  ts_cancel : bool;
  ts_sp : scrapePool;
  ts_providers : Providers
}.

(** The base contexts made so far, each with whether it was cancelled; [tm.ctx]
    and [tm.cancel] belong to the last, and are nil when there is none.
    [retired] are the sets that were cancelled and dropped. *)
Record TargetManager := mkTargetManager {
  scrapeConfigs : list JobConfig;
  bases : list bool;
  targetSets : gmap string targetSet;
  retired : list targetSet
}.

Definition NewTargetManager : TargetManager := mkTargetManager [] [] ∅ [].

Definition job_name (cfg : JobConfig) : string := JobName (jc_scrape cfg).

(** A configuration for a job that has no set, or has the set [old]: a new set,
    whose context derives from the manager's, or a reload; and the providers. *)
Definition reload_set (base : nat) (old : option targetSet) (cfg : JobConfig) : targetSet :=
  match old with
  | None => mkTargetSet base false (newScrapePool cfg) (ProvidersFromConfig (jc_sd cfg))
  | Some ts =>
      mkTargetSet (ts_base ts) (ts_cancel ts) (sp_reload (ts_sp ts) cfg)
        (ProvidersFromConfig (jc_sd cfg))
  end.

Definition reload_job (base : nat) (sets : gmap string targetSet) (cfg : JobConfig)
    : gmap string targetSet :=
  <[job_name cfg := reload_set base (sets !! job_name cfg) cfg]> sets.

Definition cancel_set (ts : targetSet) : targetSet :=
  mkTargetSet (ts_base ts) true (ts_sp ts) (ts_providers ts).

(** The loop that cancels and deletes the sets of jobs that have gone. *)
Definition retire (jobs : gset string) (l : list (string * targetSet))
    (st : gmap string targetSet * list targetSet) : gmap string targetSet * list targetSet :=
  foldl (fun '(sets, gone) '(name, ts) =>
    if decide (name ∈ jobs) then (sets, gone) else (delete name sets, gone ++ [cancel_set ts])) st l.

Definition reload (tm : TargetManager) : TargetManager :=
  let sets := foldl (reload_job (pred (length (bases tm)))) (targetSets tm) (scrapeConfigs tm) in
  let jobs : gset string := list_to_set (job_name <$> scrapeConfigs tm) in
  let '(sets, gone) := retire jobs (map_to_list sets) (sets, []) in
  mkTargetManager (scrapeConfigs tm) (bases tm) sets (retired tm ++ gone).

(** The part of [Run] under the lock; it then waits for the goroutines. *)
Definition Run (tm : TargetManager) : TargetManager :=
  reload (mkTargetManager (scrapeConfigs tm) (bases tm ++ [false]) (targetSets tm) (retired tm)).

(** The part of [Stop] under the lock; [cancel] is nil before [Run]. *)
Definition Stop (tm : TargetManager) : outcome TargetManager :=
  match bases tm with
  | [] => Panic PanicNilDeref
  | _ => Ret (mkTargetManager (scrapeConfigs tm) (<[pred (length (bases tm)) := true]> (bases tm))
                (targetSets tm) (retired tm))
  end.

Definition TM_ApplyConfig (tm : TargetManager) (cfgs : list JobConfig) : TargetManager * option error :=
  let tm := mkTargetManager cfgs (bases tm) (targetSets tm) (retired tm) in
  (match bases tm with [] => tm | _ => reload tm end, None).

(** The goroutine of a set ends when the set's context, or the one it derives
    from, is cancelled; [wg.Wait] returns when no goroutine is left. *)
Definition ts_done (tm : TargetManager) (ts : targetSet) : bool :=
  ts_cancel ts || default false (bases tm !! ts_base ts).
Definition wg_done (tm : TargetManager) : Prop :=
  (forall job ts, targetSets tm !! job = Some ts -> ts_done tm ts = true) /\
  Forall (fun ts => ts_done tm ts = true) (retired tm).

(** A provider of a job sends the target groups of that job. *)
Definition provide (tm : TargetManager) (job : string) (tgs : list TargetGroup)
    : outcome TargetManager :=
  match targetSets tm !! job with
  | None => Ret tm
  | Some ts =>
      r ← Sync (ts_sp ts) tgs;
      Ret (mkTargetManager (scrapeConfigs tm) (bases tm)
        (<[job := mkTargetSet (ts_base ts) (ts_cancel ts) r.1 (ts_providers ts)]> (targetSets tm))
        (retired tm))
  end.

(** The calls the program makes on the manager, and the messages of providers. *)
Inductive tm_op :=
  | ApplyOp (cfgs : list JobConfig)
  | RunOp
  | StopOp
  | ProvideOp (job : string) (tgs : list TargetGroup).

Definition tm_step (tm : TargetManager) (op : tm_op) : outcome TargetManager :=
  match op with
  | ApplyOp cfgs => Ret (TM_ApplyConfig tm cfgs).1
  | RunOp => Ret (Run tm)
  | StopOp => Stop tm
  | ProvideOp job tgs => provide tm job tgs
  end.

Fixpoint tm_run (tm : TargetManager) (ops : list tm_op) : outcome TargetManager :=
  match ops with
  | [] => Ret tm
  | op :: ops => tm ← tm_step tm op; tm_run tm ops
  end.

(** [Targets], with the sets visited in the order [l]. *)
Definition Targets (l : list (string * targetSet)) : list Target :=
  concat ((fun nts => (torder (sp_targets (ts_sp nts.2))).*2) <$> l).

(** ** Synchronising a pool *)

Definition with_hash (h : Z) (ts : list Target) : list Target := filter (fun t => hash t = h) ts.

Lemma sync_add_spec ts (m : gmap Z Target) u :
  let r := foldl (fun '(m, unique) t =>
    let h := hash t in
    (match m !! h with Some _ => m | None => <[h := t]> m end, {[h]} ∪ unique)) (m, u) ts in
  (forall h, r.1 !! h = match m !! h with Some t => Some t | None => head (with_hash h ts) end) /\
  (forall h : Z, h ∈ (r.2 : gset Z) <-> h ∈ u \/ with_hash h ts <> []).
Proof.
  revert m u. induction ts as [|t ts IH]; intros m u; cbn [foldl].
  { cbv zeta. split; intros h; simpl; [by destruct (m !! h)|]. split; [by left|by intros [?|?]]. }
  cbv zeta. destruct (IH (match m !! hash t with Some _ => m | None => <[hash t := t]> m end)
    ({[hash t]} ∪ u)) as [H1' H2']. split; intros h.
  - rewrite H1'. unfold with_hash. rewrite filter_cons. case_decide as Hh.
    + subst h. destruct (m !! hash t) eqn:Hm; [by rewrite Hm|]. by rewrite lookup_insert_eq.
    + destruct (m !! hash t); [done|]. by rewrite lookup_insert_ne.
  - rewrite H2'. unfold with_hash. rewrite filter_cons. case_decide as Hh.
    + subst h. split; [by right|]. intros _. left. set_solver.
    + set_solver.
Qed.

Lemma sync_delete_lookup (u : gset Z) l (m : gmap Z Target) h :
  sync_delete u l m !! h =
    if decide (h ∈ u) then m !! h else if decide (h ∈ l.*1) then None else m !! h.
Proof.
  unfold sync_delete. revert m. induction l as [|[k t] l IH]; intros m; cbn [foldl].
  { case_decide; [done|]. case_decide as Hc; [|done]. by apply elem_of_nil in Hc. }
  rewrite IH. rewrite fmap_cons, (decide_ext (h ∈ (k, t).1 :: l.*1) (h = k \/ h ∈ l.*1))
    by (rewrite elem_of_cons; done).
  destruct (decide (h = k)) as [->|Hne].
  - rewrite (decide_True (P := k = k \/ k ∈ l.*1)) by tauto.
    destruct (decide (k ∈ u)); [done|]. rewrite lookup_delete_eq. by repeat case_decide.
  - rewrite (decide_ext (h = k \/ h ∈ l.*1) (h ∈ l.*1)) by tauto.
    destruct (decide (k ∈ u)); [done|]. by rewrite lookup_delete_ne.
Qed.

(** A pool is keyed by the hashes of its targets. *)
Definition hashed (m : gmap Z Target) : Prop := forall h t, m !! h = Some t -> hash t = h.

Lemma head_with_hash h ts t : head (with_hash h ts) = Some t -> hash t = h /\ t ∈ ts.
Proof.
  intros Hh. assert (t ∈ with_hash h ts) as Ht%list_elem_of_filter; [|done].
  destruct (with_hash h ts); simplify_eq/=. apply elem_of_cons. by left.
Qed.

Lemma with_hash_nil h ts : with_hash h ts = [] <-> forall t, t ∈ ts -> hash t <> h.
Proof.
  split.
  - intros Hn t Ht Hh. assert (t ∈ with_hash h ts) as Hin by (by apply list_elem_of_filter).
    rewrite Hn in Hin. by apply elem_of_nil in Hin.
  - intros Hn. destruct (with_hash h ts) as [|t l] eqn:Hw; [done|].
    destruct (head_with_hash h ts t) as [Hh Ht]; [by rewrite Hw|]. by destruct (Hn t Ht).
Qed.

Lemma sync_lookup sp ts h :
  sp_targets (sync sp ts) !! h =
    match with_hash h ts with
    | [] => None
    | t :: _ => Some (default t (sp_targets sp !! h))
    end.
Proof.
  unfold sync. destruct (sync_add ts (sp_targets sp)) as [m u] eqn:Hadd.
  destruct (sync_add_spec ts (sp_targets sp) ∅) as [Hm Hu].
  change (foldl _ _ ts) with (sync_add ts (sp_targets sp)) in Hm, Hu. rewrite Hadd in Hm, Hu.
  simpl in *. rewrite sync_delete_lookup.
  assert (h ∈ (torder m).*1 <-> is_Some (m !! h)) as Hin.
  { pose proof (torder_range m) as Hr. rewrite list_elem_of_fmap. split.
    - intros ([k t]&->&Hk). rewrite (map_range_elem_of _ _ _ _ Hr) in Hk. by eexists.
    - intros [t Ht]. exists (h, t). by rewrite (map_range_elem_of _ _ _ _ Hr). }
  specialize (Hu h). rewrite Hm in *. destruct (with_hash h ts) as [|t l] eqn:Hw.
  - rewrite decide_False by (rewrite Hu; set_solver). case_decide as Hc; [done|].
    destruct (sp_targets sp !! h); [|done]. destruct Hc. apply Hin. by eexists.
  - rewrite decide_True by (apply Hu; right; congruence). by destruct (sp_targets sp !! h).
Qed.

Lemma sync_hashed sp ts : hashed (sp_targets sp) -> hashed (sp_targets (sync sp ts)).
Proof.
  intros Hh h t. rewrite sync_lookup. destruct (with_hash h ts) as [|t0 l] eqn:Hw; [done|].
  destruct (head_with_hash h ts t0) as [Ht0 _]; [by rewrite Hw|]. intros [= <-].
  destruct (sp_targets sp !! h) eqn:Hs; simpl; [by apply Hh|done].
Qed.

Lemma sync_config sp ts :
  sp_config (sync sp ts) = sp_config sp /\ sp_client (sync sp ts) = sp_client sp.
Proof. unfold sync. by destruct (sync_add _ _). Qed.

(** C26: sync. Whatever the order in which the pool is visited, it holds after
    the call exactly the hashes of the given targets: a hash it held keeps its
    target, with its health and its last scrape; a new hash gets the first of
    the given targets that has it, so duplicates count once; other hashes are
    dropped. A pool that is keyed by hash stays so, synchronising again with the
    same targets changes nothing, and the listed targets have distinct hashes. *)
Theorem sync_correct (sp : scrapePool) (ts : list Target) :
  let sp' := sync sp ts in
  sp_config sp' = sp_config sp /\ sp_client sp' = sp_client sp /\
  (forall h t, sp_targets sp' !! h = Some t <->
     (exists t0, head (with_hash h ts) = Some t0 /\ t = default t0 (sp_targets sp !! h))) /\
  (forall h, is_Some (sp_targets sp' !! h) <-> exists t, t ∈ ts /\ hash t = h) /\
  (hashed (sp_targets sp) ->
     hashed (sp_targets sp') /\ NoDup (hash <$> (torder (sp_targets sp')).*2)) /\
  sync sp' ts = sp'.
Proof.
  cbv zeta. destruct (sync_config sp ts) as [Hcfg Hcl].
  assert (forall h t, sp_targets (sync sp ts) !! h = Some t <->
     (exists t0, head (with_hash h ts) = Some t0 /\ t = default t0 (sp_targets sp !! h))) as Hl.
  { intros h t. rewrite sync_lookup. destruct (with_hash h ts) as [|t0 l]; simpl; naive_solver. }
  pose proof (sync_hashed sp ts) as Hhash.
  split_ands; try done.
  - intros h. rewrite sync_lookup. pose proof (with_hash_nil h ts) as Hn.
    destruct (with_hash h ts) as [|t l] eqn:Hw.
    + split; [by intros []|]. intros (t&Ht&Hh). by destruct (proj1 Hn eq_refl t Ht).
    + split; [intros _|by eexists]. destruct (head_with_hash h ts t) as [? ?]; [by rewrite Hw|].
      by exists t.
  - intros Hh. split; [by apply Hhash|]. specialize (Hhash Hh).
    pose proof (torder_range (sp_targets (sync sp ts))) as Hr.
    assert (hash <$> (torder (sp_targets (sync sp ts))).*2 = (torder (sp_targets (sync sp ts))).*1)
      as ->; [|by eapply map_range_NoDup_fst].
    rewrite <- list_fmap_compose. apply list_fmap_ext. intros i [k t] Hi. simpl. apply Hhash.
    rewrite <- (map_range_elem_of _ _ _ _ Hr). by eapply list_elem_of_lookup_2.
  - assert (sp_targets (sync (sync sp ts) ts) = sp_targets (sync sp ts)) as Heq.
    { apply map_eq. intros h. rewrite !sync_lookup. by destruct (with_hash h ts). }
    destruct (sync sp ts) as [c cl m] eqn:Hsp. unfold sync in *. simpl in *.
    destruct (sync_add ts m) as [m' u]. simpl in *. by rewrite Heq.
Qed.

(** The targets a group contributes. *)
Definition group_targets (cfg : ScrapeConfig) (tg : TargetGroup) : list Target :=
  match targetsFromGroup tg cfg with Ret (_, inr ts) => ts | _ => [] end.

Lemma targetsFromGroup_total tg cfg :
  Forall valid_config (RelabelConfigs cfg) -> exists r, targetsFromGroup tg cfg = Ret r.
Proof.
  intros Hv. unfold targetsFromGroup.
  destruct (targets_loop_spec cfg (TGLabels tg) (TGSource tg) 0 (TGTargets tg) Hv) as (tgs'&r&->&_).
  by eexists.
Qed.

Lemma all_targets_spec cfg tgs :
  Forall valid_config (RelabelConfigs cfg) ->
  exists tgs', Forall2 (fun tg tg' => exists r, targetsFromGroup tg cfg = Ret (tg', r)) tgs tgs' /\
    all_targets cfg tgs = Ret (tgs', concat (group_targets cfg <$> tgs)).
Proof.
  intros Hv. induction tgs as [|tg tgs (tgs'&Hf&IH)]; cbn [all_targets].
  { by exists []. }
  destruct (targetsFromGroup_total tg cfg Hv) as [[tg' r] Hr]. exists (tg' :: tgs').
  split; [constructor; [by exists r|done]|]. rewrite Hr, IH, fmap_cons. simpl.
  assert (group_targets cfg tg = match r with inl _ => [] | inr ts => ts end) as ->
    by (unfold group_targets; rewrite Hr; by destruct r). by destruct r.
Qed.

(** Sync. When the relabelling rules are valid the call never panics; it
    is sync on the targets of the groups, in order, so the pool holds exactly
    the hashes of the targets of the groups that are not in error. A group in
    error contributes none of its targets, the valid ones included, and does not
    disturb the other groups; targets of the pool that only it has are
    therefore dropped. *)
Theorem Sync_correct (sp : scrapePool) (tgs : list TargetGroup) :
  Forall valid_config (RelabelConfigs (jc_scrape (sp_config sp))) ->
  let cfg := jc_scrape (sp_config sp) in
  let ts := concat (group_targets cfg <$> tgs) in
  exists sp' tgs', Sync sp tgs = Ret (sp', tgs') /\
    Forall2 (fun tg tg' => exists r, targetsFromGroup tg cfg = Ret (tg', r)) tgs tgs' /\
    sp_config sp' = sp_config sp /\
    (forall h, is_Some (sp_targets sp' !! h) <->
       exists tg tg' l t, tg ∈ tgs /\ targetsFromGroup tg cfg = Ret (tg', inr l) /\ t ∈ l /\ hash t = h) /\
    (forall h t, is_Some (sp_targets sp' !! h) -> sp_targets sp !! h = Some t ->
       sp_targets sp' !! h = Some t) /\
    (forall tgs1 tg tgs2 tg' err, tgs = tgs1 ++ tg :: tgs2 ->
       targetsFromGroup tg cfg = Ret (tg', inl err) ->
       exists rest, Sync sp (tgs1 ++ tgs2) = Ret (sp', rest)).
Proof.
  intros Hv. cbv zeta. destruct (all_targets_spec _ tgs Hv) as (tgs'&Hf&Hall).
  exists (sync sp (concat (group_targets (jc_scrape (sp_config sp)) <$> tgs))), tgs'.
  split; [unfold Sync; by rewrite Hall|]. split; [done|].
  split; [unfold sync; by destruct (sync_add _ _)|]. split; [|split].
  - intros h. rewrite sync_lookup.
    pose proof (with_hash_nil h (concat (group_targets (jc_scrape (sp_config sp)) <$> tgs))) as Hn.
    destruct (with_hash h _) as [|t l] eqn:Hw.
    + split; [by intros []|]. intros (tg&tg'&l&t&Htg&Hr&Ht&Hh).
      destruct (proj1 Hn eq_refl t); [|done]. apply list_elem_of_In, in_concat. exists l.
      rewrite <- !list_elem_of_In. split; [|done]. apply list_elem_of_fmap. exists tg.
      split; [|done]. unfold group_targets. by rewrite Hr.
    + split; [intros _|by eexists].
      destruct (head_with_hash h (concat (group_targets (jc_scrape (sp_config sp)) <$> tgs)) t)
        as [Hh Hin]; [by rewrite Hw|].
      apply list_elem_of_In, in_concat in Hin as (l0&Hl0&Ht).
      rewrite <- !list_elem_of_In in *. apply list_elem_of_fmap in Hl0 as (tg&->&Htg).
      unfold group_targets in Ht.
      destruct (targetsFromGroup tg _) as [[tg' [err|ts]]|] eqn:Hr;
        try (by apply elem_of_nil in Ht). by exists tg, tg', ts, t.
  - intros h t. rewrite sync_lookup. destruct (with_hash h _); [by intros []|].
    intros _ Hs. by rewrite Hs.
  - intros tgs1 tg tgs2 tg' err -> Hr. destruct (all_targets_spec _ (tgs1 ++ tgs2) Hv) as (rest&_&Hrest).
    exists rest. unfold Sync. rewrite Hrest. simpl. rewrite !fmap_app, fmap_cons, !concat_app.
    simpl. assert (group_targets (jc_scrape (sp_config sp)) tg = []) as ->; [|done].
    unfold group_targets. by rewrite Hr.
Qed.

(** ** The manager *)

(** The configurations of a job, in order. *)
Definition configs_of (job : string) (cfgs : list JobConfig) : list JobConfig :=
  filter (fun cfg => job_name cfg = job) cfgs.

Lemma configs_of_elem job cfgs cfg : cfg ∈ configs_of job cfgs <-> job_name cfg = job /\ cfg ∈ cfgs.
Proof. unfold configs_of. by rewrite list_elem_of_filter. Qed.

Lemma configs_of_nil job cfgs : configs_of job cfgs = [] <-> job ∉ job_name <$> cfgs.
Proof.
  split.
  - intros Hn (cfg&->&Hc)%list_elem_of_fmap.
    assert (cfg ∈ configs_of (job_name cfg) cfgs) as Hin by by apply configs_of_elem.
    rewrite Hn in Hin. by apply elem_of_nil in Hin.
  - intros Hn. destruct (configs_of job cfgs) as [|cfg l] eqn:Hc; [done|].
    assert (cfg ∈ configs_of job cfgs) as [Hj Hin]%configs_of_elem by (rewrite Hc; set_solver).
    destruct Hn. apply list_elem_of_fmap. by exists cfg.
Qed.

Lemma configs_of_cases job cfgs :
  (configs_of job cfgs = [] /\ job ∉ job_name <$> cfgs) \/
  (exists before cfg, configs_of job cfgs = before ++ [cfg] /\ job ∈ job_name <$> cfgs /\
     job_name cfg = job /\ cfg ∈ cfgs).
Proof.
  destruct (decide (job ∈ job_name <$> cfgs)) as [Hin|Hn];
    [right|left; by rewrite configs_of_nil].
  destruct (configs_of job cfgs) as [|cfg before _] eqn:Hc using rev_ind.
  - by apply configs_of_nil in Hc.
  - exists before, cfg. split; [done|]. split; [done|]. apply configs_of_elem. rewrite Hc. set_solver.
Qed.

(** The successive configurations of one job. *)
Definition reload_sets (base : nat) (old : option targetSet) (l : list JobConfig) : option targetSet :=
  foldl (fun old cfg => Some (reload_set base old cfg)) old l.

Lemma reload_jobs_lookup base cfgs sets job :
  foldl (reload_job base) sets cfgs !! job = reload_sets base (sets !! job) (configs_of job cfgs).
Proof.
  revert sets. induction cfgs as [|cfg cfgs IH]; intros sets; [done|]. cbn [foldl].
  rewrite IH. unfold configs_of. rewrite filter_cons. unfold reload_job. case_decide as Hj.
  - subst job. by rewrite lookup_insert_eq.
  - by rewrite lookup_insert_ne.
Qed.

Lemma reload_sets_last base old l cfg :
  exists ts, reload_sets base old (l ++ [cfg]) = Some ts /\
    sp_config (ts_sp ts) = cfg /\ ts_providers ts = ProvidersFromConfig (jc_sd cfg) /\
    ts_base ts = match old with Some o => ts_base o | None => base end /\
    ts_cancel ts = match old with Some o => ts_cancel o | None => false end /\
    sp_targets (ts_sp ts) = match old with Some o => sp_targets (ts_sp o) | None => ∅ end /\
    sp_client (ts_sp ts) =
      match old, l with
      | None, [] => None
      | _, _ => match NewScrapeClient (jc_http cfg) with inl _ => None | inr c => Some c end
      end.
Proof.
  unfold reload_sets. rewrite foldl_app. cbn [foldl].
  assert (foldl (fun old cfg => Some (reload_set base old cfg)) old l = None ->
    old = None /\ l = []) as Hnone.
  { destruct l as [|c l]; [done|]. cbn [foldl]. generalize (reload_set base old c). clear.
    induction l as [|d l IH]; intros ts; cbn [foldl]; [done|]. intros Hn. by apply IH in Hn as [??]. }
  assert (forall ts, foldl (fun old cfg => Some (reload_set base old cfg)) old l = Some ts ->
    ts_base ts = match old with Some o => ts_base o | None => base end /\
    ts_cancel ts = match old with Some o => ts_cancel o | None => false end /\
    sp_targets (ts_sp ts) = match old with Some o => sp_targets (ts_sp o) | None => ∅ end) as Hsome.
  { clear Hnone. revert old. induction l as [|c l IH]; intros old ts; cbn [foldl]; [by intros ->|].
    intros (->&->&->)%IH. by destruct old. }
  destruct (foldl _ old l) as [ts|] eqn:Hf.
  - destruct (Hsome ts eq_refl) as (?&?&?). eexists. split; [done|]. simpl. split_ands; try done.
    by destruct old, l.
  - destruct Hnone as [-> ->]; [done|]. by eexists.
Qed.

Lemma retire_spec (jobs : gset string) l sets gone :
  let r := retire jobs l (sets, gone) in
  (forall job, r.1 !! job = if decide (job ∈ l.*1 /\ job ∉ jobs) then None else sets !! job) /\
  (forall ts, ts ∈ r.2 <-> ts ∈ gone \/
     exists job old, (job, old) ∈ l /\ job ∉ jobs /\ ts = cancel_set old).
Proof.
  unfold retire. revert sets gone. induction l as [|[name ts] l IH]; intros sets gone; cbn [foldl].
  { split.
    - intros job. rewrite decide_False; [done|]. by intros [[]%elem_of_nil _].
    - intros ts. split; [by left|]. intros [?|(?&?&[]%elem_of_nil&_)]; done. }
  case_decide as Hn.
  - destruct (IH sets gone) as [Hs Hg]. split.
    + intros job. rewrite Hs. apply decide_ext. rewrite fmap_cons, elem_of_cons. naive_solver.
    + intros ts'. rewrite Hg. setoid_rewrite elem_of_cons. naive_solver.
  - destruct (IH (delete name sets) (gone ++ [cancel_set ts])) as [Hs Hg]. split.
    + intros job. rewrite Hs. destruct (decide (job = name)) as [->|Hne].
      * rewrite lookup_delete_eq. rewrite (decide_True (P := name ∈ ((name, ts) :: l).*1 /\ _))
          by (rewrite fmap_cons, elem_of_cons; naive_solver). by case_decide.
      * rewrite lookup_delete_ne by done. apply decide_ext. rewrite fmap_cons, elem_of_cons. naive_solver.
    + intros ts'. rewrite Hg, elem_of_app, list_elem_of_singleton.
      setoid_rewrite elem_of_cons. naive_solver.
Qed.

Lemma reload_spec tm :
  let tm' := reload tm in
  let base := pred (length (bases tm)) in
  scrapeConfigs tm' = scrapeConfigs tm /\ bases tm' = bases tm /\
  (forall job, targetSets tm' !! job =
     match configs_of job (scrapeConfigs tm) with
     | [] => None
     | l => reload_sets base (targetSets tm !! job) l
     end) /\
  (forall ts, ts ∈ retired tm' <-> ts ∈ retired tm \/
     exists job old, targetSets tm !! job = Some old /\ configs_of job (scrapeConfigs tm) = [] /\
       ts = cancel_set old).
Proof.
  cbv zeta. unfold reload.
  set (sets := foldl (reload_job (pred (length (bases tm)))) (targetSets tm) (scrapeConfigs tm)).
  set (jobs := list_to_set (job_name <$> scrapeConfigs tm) : gset string).
  destruct (retire_spec jobs (map_to_list sets) sets []) as [Hs Hg].
  destruct (retire jobs (map_to_list sets) (sets, [])) as [sets' gone] eqn:Hr.
  cbn [scrapeConfigs bases targetSets retired fst snd] in *.
  assert (forall job, job ∉ jobs <-> configs_of job (scrapeConfigs tm) = []) as Hjobs
    by (intros job; unfold jobs; by rewrite configs_of_nil, elem_of_list_to_set).
  assert (forall job, sets !! job = reload_sets (pred (length (bases tm))) (targetSets tm !! job)
    (configs_of job (scrapeConfigs tm))) as Hsets by (intros job; apply reload_jobs_lookup).
  split; [done|]. split; [done|]. split.
  - intros job. rewrite Hs. specialize (Hjobs job). specialize (Hsets job).
    destruct (configs_of job (scrapeConfigs tm)) as [|c l] eqn:Hc.
    + case_decide as Hd; [done|]. rewrite Hsets. simpl.
      destruct (targetSets tm !! job) as [ts|] eqn:Hts; [|done]. destruct Hd. split; [|by apply Hjobs].
      apply list_elem_of_fmap. exists (job, ts). split; [done|]. apply elem_of_map_to_list.
      by rewrite Hsets.
    + rewrite decide_False; [exact Hsets|]. intros [_ Hn]. by apply Hjobs in Hn.
  - intros ts. rewrite elem_of_app, Hg. setoid_rewrite elem_of_map_to_list. split.
    + intros [?|[?%elem_of_nil|(job&old&Hl&Hj%Hjobs&->)]]; [by left|done|]. right. exists job, old.
      rewrite Hsets, Hj in Hl. done.
    + intros [?|(job&old&Hl&Hj&->)]; [by left|]. right. right. exists job, old.
      rewrite Hsets, Hj. split; [done|]. split; [by apply Hjobs|done].
Qed.

(** ApplyConfig. It never fails and stores the configurations. Before Run
    nothing else changes. After it the sets are exactly those of the configured
    jobs, each with the last configuration of its job and the providers of it:
    a job that had a set keeps it, with its targets, its context and a client
    for the new configuration; a new job gets an empty set in the manager's
    current context, which has no client until a later reload. The sets of the
    jobs that have gone are cancelled and dropped, and no other. *)
Theorem TM_ApplyConfig_correct (tm : TargetManager) (cfgs : list JobConfig) :
  let r := TM_ApplyConfig tm cfgs in
  let tm' := r.1 in
  r.2 = None /\ scrapeConfigs tm' = cfgs /\ bases tm' = bases tm /\
  (bases tm = [] -> targetSets tm' = targetSets tm /\ retired tm' = retired tm) /\
  (bases tm <> [] ->
    (forall job, configs_of job cfgs = [] -> targetSets tm' !! job = None) /\
    (forall job before cfg, configs_of job cfgs = before ++ [cfg] ->
       exists ts, targetSets tm' !! job = Some ts /\
         sp_config (ts_sp ts) = cfg /\ ts_providers ts = ProvidersFromConfig (jc_sd cfg) /\
         match targetSets tm !! job with
         | Some old => ts_base ts = ts_base old /\ ts_cancel ts = ts_cancel old /\
             sp_targets (ts_sp ts) = sp_targets (ts_sp old) /\
             (forall c, NewScrapeClient (jc_http cfg) = inr c -> sp_client (ts_sp ts) = Some c)
         | None => ts_base ts = pred (length (bases tm)) /\ ts_cancel ts = false /\
             sp_targets (ts_sp ts) = ∅ /\ (before = [] -> sp_client (ts_sp ts) = None)
         end) /\
    (forall ts, ts ∈ retired tm' <-> ts ∈ retired tm \/
       exists job old, targetSets tm !! job = Some old /\ configs_of job cfgs = [] /\
         ts = cancel_set old)).
Proof.
  cbv zeta. unfold TM_ApplyConfig. destruct (bases tm) as [|b bs] eqn:Hb; simpl.
  { by split_ands. }
  destruct (reload_spec (mkTargetManager cfgs (b :: bs) (targetSets tm) (retired tm)))
    as (Hcfg&Hbs&Hs&Hret). cbn [scrapeConfigs bases targetSets retired fst snd] in *.
  split; [done|]. split; [done|]. split; [congruence|]. split; [done|]. intros _. split_ands.
  - intros job Hj. by rewrite Hs, Hj.
  - intros job before cfg Hj. specialize (Hs job). rewrite Hj in Hs.
    destruct (reload_sets_last (pred (length (b :: bs))) (targetSets tm !! job) before cfg)
      as (ts&Hts&?&?&?&?&?&Hcl).
    exists ts. split; [rewrite Hs; by destruct before|]. split_ands; try done.
    destruct (targetSets tm !! job); split_ands; try done.
    + intros c Hc. by rewrite Hcl, Hc.
    + intros ->. done.
  - exact Hret.
Qed.

(** ** The life of a manager *)

Definition valid_job (cfg : JobConfig) : Prop := Forall valid_config (RelabelConfigs (jc_scrape cfg)).
Definition valid_op (op : tm_op) : Prop :=
  match op with ApplyOp cfgs => Forall valid_job cfgs | _ => True end.

Definition set_ok (job : string) (ts : targetSet) : Prop :=
  job_name (sp_config (ts_sp ts)) = job /\ valid_job (sp_config (ts_sp ts)) /\
  hashed (sp_targets (ts_sp ts)).

(** What holds between the calls of a manager that is run at most once. *)
Record tm_inv (tm : TargetManager) : Prop := mk_tm_inv {
  inv_valid : Forall valid_job (scrapeConfigs tm);
  inv_bases : (length (bases tm) <= 1)%nat;
  inv_dom job : is_Some (targetSets tm !! job) <->
    bases tm <> [] /\ job ∈ job_name <$> scrapeConfigs tm;
  inv_set job ts : targetSets tm !! job = Some ts ->
    set_ok job ts /\ ts_base ts = 0%nat /\ ts_cancel ts = false;
  inv_retired : Forall (fun ts => ts_cancel ts = true) (retired tm)
}.

Lemma reload_inv tm :
  Forall valid_job (scrapeConfigs tm) -> length (bases tm) = 1%nat ->
  (forall job ts, targetSets tm !! job = Some ts ->
     set_ok job ts /\ ts_base ts = 0%nat /\ ts_cancel ts = false) ->
  Forall (fun ts => ts_cancel ts = true) (retired tm) -> tm_inv (reload tm).
Proof.
  intros Hv Hb Hsets Hret. destruct (reload_spec tm) as (Hcfg&Hbs&Hs&Hr).
  rewrite Forall_forall in Hv. rewrite Hb in Hs. simpl pred in Hs.
  assert (forall job, match targetSets (reload tm) !! job with
    | Some ts => job ∈ job_name <$> scrapeConfigs tm /\
        set_ok job ts /\ ts_base ts = 0%nat /\ ts_cancel ts = false
    | None => job ∉ job_name <$> scrapeConfigs tm end) as Hjob.
  { intros job. specialize (Hs job).
    destruct (configs_of_cases job (scrapeConfigs tm)) as [[Hc Hn]|(before&cfg&Hc&Hin&Hjn&Hcin)];
      rewrite Hc in Hs; [by rewrite Hs|].
    destruct (reload_sets_last 0 (targetSets tm !! job) before cfg) as (ts&Hts&Hcf&_&Hba&Hca&Htg&_).
    assert (targetSets (reload tm) !! job = Some ts) as -> by (rewrite Hs; by destruct before).
    split; [done|]. unfold set_ok. rewrite Hcf, Htg, Hba, Hca.
    destruct (targetSets tm !! job) as [old|] eqn:Hold.
    - destruct (Hsets job old Hold) as ((?&?&?)&?&?). split_ands; try done. by apply Hv.
    - split_ands; try done. by apply Hv. }
  split; rewrite ?Hcfg, ?Hbs; try done; try lia.
  - by rewrite Forall_forall.
  - intros job. specialize (Hjob job). destruct (targetSets (reload tm) !! job).
    + destruct Hjob. split; [|by eexists]. intros _. split; [|done]. by intros Hn; rewrite Hn in Hb.
    + split; [by intros []|tauto].
  - intros job ts Hts. specialize (Hjob job). rewrite Hts in Hjob. tauto.
  - rewrite Forall_forall in *. intros ts [?|(job&old&_&_&->)]%Hr; [by apply Hret|done].
Qed.

(** The invariant holds at every step, and only [Stop] before [Run] panics. *)
Lemma tm_step_inv tm op :
  tm_inv tm -> valid_op op -> (op = RunOp -> bases tm = []) ->
  match tm_step tm op with
  | Ret tm' => tm_inv tm' /\
      bases tm' = match op with
                  | RunOp => [false] | StopOp => [true] | _ => bases tm end
  | Panic p => p = PanicNilDeref /\ op = StopOp /\ bases tm = []
  end.
Proof.
  intros [Hv Hb Hd Hs Hr] Hop Hrun. destruct op as [cfgs| | |job tgs]; simpl in Hop; cbn [tm_step].
  - unfold TM_ApplyConfig. cbn [bases]. destruct (bases tm) as [|b [|]] eqn:Hbs; simpl in Hb; [| |lia].
    + split; [|done]. split; cbn [scrapeConfigs bases targetSets retired]; try done.
      intros job. rewrite Hd. tauto.
    + set (tm' := mkTargetManager cfgs [b] (targetSets tm) (retired tm)).
      split; [by apply reload_inv|]. by destruct (reload_spec tm') as (_&?&_).
  - specialize (Hrun eq_refl). unfold Run.
    set (tm' := mkTargetManager _ _ _ _). assert (bases tm' = [false]) as Hb' by (simpl; by rewrite Hrun).
    split; [|etransitivity; [apply (reload_spec tm')|done]]. apply reload_inv; try done. by rewrite Hb'.
  - unfold Stop. destruct (bases tm) as [|b [|]] eqn:Hbs; simpl in Hb; [done| |lia].
    split; [|done]. split; cbn [scrapeConfigs bases targetSets retired]; try done.
    intros job. rewrite Hd. naive_solver.
  - unfold provide. destruct (targetSets tm !! job) as [ts|] eqn:Hts; [|done].
    destruct (Hs job ts Hts) as ((Hj&Hvj&Hh)&Hba&Hca).
    destruct (all_targets_spec _ tgs Hvj) as (tgs'&_&Hall). unfold Sync. rewrite Hall. simpl.
    split; [|done]. split; cbn [scrapeConfigs bases targetSets retired]; try done.
    + intros job'. rewrite <- Hd. destruct (decide (job = job')) as [<-|Hne].
      * rewrite lookup_insert_eq, Hts. by split; eexists.
      * by rewrite lookup_insert_ne.
    + intros job' ts'. destruct (decide (job = job')) as [<-|Hne].
      * rewrite lookup_insert_eq. intros [= <-]. simpl. split; [|done]. unfold set_ok. simpl.
        rewrite (proj1 (sync_config _ _)). split_ands; try done. by apply sync_hashed.
      * rewrite lookup_insert_ne by done. apply Hs.
Qed.

(** What the calls so far say of the contexts. *)
Definition phase (ran stopped : bool) : list bool :=
  if stopped then [true] else if ran then [false] else [].

Definition is_run (op : tm_op) : bool := match op with RunOp => true | _ => false end.
Definition is_stop (op : tm_op) : bool := match op with StopOp => true | _ => false end.

Lemma tm_run_inv tm ops ran stopped :
  tm_inv tm -> bases tm = phase ran stopped -> (stopped = true -> ran = true) ->
  Forall valid_op ops -> (length (filter (fun op => is_run op = true) ops) <= if ran then 0 else 1)%nat ->
  match tm_run tm ops with
  | Ret tm' => tm_inv tm' /\
      bases tm' = phase (ran || existsb is_run ops) (stopped || existsb is_stop ops) /\
      (stopped || existsb is_stop ops = true -> ran || existsb is_run ops = true)
  | Panic p => p = PanicNilDeref /\ ran = false /\
      exists pre post, ops = pre ++ StopOp :: post /\ existsb is_run pre = false
  end.
Proof.
  revert tm ran stopped. induction ops as [|op ops IH]; intros tm ran stopped Hi Hph Hrs Hv Hn.
  { simpl. by rewrite !orb_false_r. }
  apply Forall_cons in Hv as [Hop Hv]. cbn [tm_run]. rewrite filter_cons in Hn.
  assert (op = RunOp -> ran = false /\ stopped = false) as Hrun.
  { intros ->. simpl in Hn. destruct ran; simpl in Hn; [lia|].
    destruct stopped; [by specialize (Hrs eq_refl)|done]. }
  pose proof (tm_step_inv tm op Hi Hop) as Hstep. rewrite Hph in Hstep.
  destruct (tm_step tm op) as [tm'|p] eqn:Hs; cbn [mbind outcome_bind].
  - assert (op = StopOp -> ran = true) as Hst.
    { intros ->. simpl in Hs. unfold Stop in Hs. rewrite Hph in Hs.
      destruct stopped; [by apply Hrs|]. by destruct ran. }
    destruct Hstep as [Hi' Hb'].
    { intros ->. by destruct (Hrun eq_refl) as [-> ->]. }
    specialize (IH tm' (ran || is_run op) (stopped || is_stop op) Hi').
    cbn [existsb]. rewrite !orb_assoc.
    assert (match tm_run tm' ops with
      | Ret tm' => tm_inv tm' /\ bases tm' = phase ((ran || is_run op) || existsb is_run ops)
          ((stopped || is_stop op) || existsb is_stop ops) /\
          ((stopped || is_stop op) || existsb is_stop ops = true ->
           (ran || is_run op) || existsb is_run ops = true)
      | Panic p => p = PanicNilDeref /\ ran || is_run op = false /\
          exists pre post, ops = pre ++ StopOp :: post /\ existsb is_run pre = false
      end) as Hrest.
    { apply IH; [| |done|].
      - destruct op; simpl; rewrite ?orb_false_r, ?orb_true_r; try done. by destruct (Hrun eq_refl) as [_ ->].
      - destruct op; simpl; rewrite ?orb_false_r, ?orb_true_r; try done. intros _. by apply Hst.
      - destruct op; simpl in Hn |- *; rewrite ?orb_false_r; try done. destruct ran; simpl in *; lia. }
    destruct (tm_run tm' ops) as [tm''|p]; [done|].
    destruct Hrest as (->&[Hr Ho]%orb_false_iff&pre&post&->&Hpre). split; [done|]. split; [done|].
    exists (op :: pre), post. split; [done|]. cbn [existsb]. by rewrite Ho, Hpre.
  - destruct Hstep as (->&->&Hb).
    { intros ->. by destruct (Hrun eq_refl) as [-> ->]. }
    split; [done|]. split; [by destruct stopped, ran|]. by exists [], ops.
Qed.

Lemma NewTargetManager_inv : tm_inv NewTargetManager.
Proof.
  split; simpl; [by constructor|lia| |by intros ??|by constructor].
  intros job. rewrite lookup_empty. split; [by intros []|]. by intros [[] _].
Qed.


End pool.

(** ** A concrete manager *)

Section examples.
Import LiteralRelabel.

#[local] Instance params_order : ParamsOrder := {|
  porder m := map_to_list m;
  porder_range m := map_range_refl m
|}.
#[local] Instance targets_order : TargetsOrder := {|
  torder m := map_to_list m;
  torder_range m := map_range_refl m
|}.
#[local] Instance plain_urls : URLLib := {|
  params_Encode m := EmptyString;
  URL_String scheme host path query := scheme +:+ "://" +:+ host +:+ path
|}.
#[local] Instance file_scrape : ScrapeLib := {|
  ScrapeHTTPConfig := unit;
  ScrapeClient := unit;
  NewScrapeClient _ := inr tt;
  SDConfig := list string;
  Providers := list string;
  ProvidersFromConfig files := files
|}.

Definition job (name : string) : JobConfig :=
  mkJobConfig (mkScrapeConfig name "http" "/metrics" ∅ []) tt ["targets.json"].

Definition group (addrs : list string) : TargetGroup :=
  mkTargetGroup ((fun a => {["__address__" := a]}) <$> addrs) ∅ "file".

Lemma Sync_correct_witness :
  exists sp' tgs', Sync (newScrapePool (job "node")) [group ["a:1"; "b/c"]; group ["d:2"]] =
      Ret (sp', tgs') /\
    (forall h, is_Some (sp_targets sp' !! h) -> exists t, labels t !! "instance" = Some "d:2" /\ hash t = h).
Proof.
  destruct (Sync_correct (newScrapePool (job "node")) [group ["a:1"; "b/c"]; group ["d:2"]])
    as (sp'&tgs'&Hs&_&_&Hd&_); [constructor|].
  exists sp', tgs'. split; [exact Hs|]. intros h Hh. apply Hd in Hh.
  destruct Hh as (tg&tg'&l&t&Htg&Hr&Ht&Hh).
  apply elem_of_cons in Htg as [->|Htg]; [vm_compute in Hr; discriminate Hr|].
  apply list_elem_of_singleton in Htg as ->. exists t. split; [|exact Hh].
  destruct (targetsFromGroup (group ["d:2"]) (jc_scrape (sp_config (newScrapePool (job "node")))))
    as [[tg0 [err|l0]]|] eqn:Hg; [discriminate Hr| |discriminate Hr].
  injection Hr as _ <-. vm_compute in Hg. injection Hg as _ <-.
  apply list_elem_of_singleton in Ht as ->. vm_compute. reflexivity.
Defined.

Definition node_ops : list tm_op :=
  [ApplyOp [job "node"; job "db"]; RunOp; ProvideOp "node" [group ["a:1"; "a:1"]];
   ApplyOp [job "node"]; StopOp; ApplyOp [job "web"]].


End examples.
