(* ===== verification/Httputil.v ===== *)
(** * The HTTP client with a deadline ([utils/httputil.go])

    The client that [proxyReq] asks the remotes with: its transport dials with a
    timeout and gives the connection a deadline, counted from before the dial.
    The network is the class [NetLib] over the state [W] of the world, and what
    the package [net] promises of it is the class [NetLaws]. *)
From S2P Require Import Prelude Model.

Open Scope Z_scope.

(** Instants are nanoseconds. *)
Class NetLib (W : Type) := {
  Conn : Type;
  time_Now : W -> Z;
  net_DialTimeout : W -> string -> string -> Duration -> W * (error + Conn);
  conn_SetDeadline : W -> Conn -> Z -> W * option error;
  conn_Close : W -> Conn -> W
}.

(** Which connections are open, and the deadline of one. *)
Class NetLaws (W : Type) `{NetLib W} := {
  is_open : W -> Conn -> Prop;
  deadline : W -> Conn -> option Z;
  dial_error w netw addr t w' e c :
    net_DialTimeout w netw addr t = (w', inl e) -> is_open w' c <-> is_open w c;
  dial_conn w netw addr t w' c c' :
    net_DialTimeout w netw addr t = (w', inr c) -> ~ is_open w c /\ (is_open w' c' <-> is_open w c' \/ c' = c);
  set_open w c t c' : is_open (conn_SetDeadline w c t).1 c' <-> is_open w c';
  set_deadline w c t :
    is_open w c -> (conn_SetDeadline w c t).2 = None -> deadline (conn_SetDeadline w c t).1 c = Some t;
  close_open w c c' : is_open (conn_Close w c) c' <-> is_open w c' /\ c' <> c
}.

Section httputil.
Context {W : Type} `{NetLib W}.

(** [http.Transport] and [http.Client], as far as this package sets them. *)
Record Transport := mkTransport {
  DisableKeepAlives : bool;
  Dial : W -> string -> string -> W * (error + Conn)
}.
Record HttpClient := mkHttpClient { hc_Transport : Transport }.

Definition NewClient (rt : Transport) : HttpClient := mkHttpClient rt.

Definition NewDeadlineRoundTripper (timeout : Duration) : Transport := {|
  DisableKeepAlives := true;
  Dial w netw addr :=
    let start := time_Now w in
    match net_DialTimeout w netw addr timeout with
    | (w, inl err) => (w, inl err)
    | (w, inr c) =>
        match conn_SetDeadline w c (start + timeout) with
        | (w, Some err) => (conn_Close w c, inl err)
        | (w, None) => (w, inr c)
        end
    end
|}.

Definition NewClientForTimeOut : error + HttpClient :=
  inr (NewClient (NewDeadlineRoundTripper (3 * Second))).

Context `{!NetLaws W}.

(** A dial of the client leaves no connection behind and none without a deadline:
    when it fails, the open connections are those that were open before; when it
    succeeds there is one more, the one returned, and it expires three seconds
    after the dial began, however long the dial took. The connection serves one
    request only. *)
Theorem dial_correct (c : HttpClient) (w : W) (netw addr : string) :
  NewClientForTimeOut = inr c ->
  DisableKeepAlives (hc_Transport c) = true /\
  match Dial (hc_Transport c) w netw addr with
  | (w', inl _) => forall k, is_open w' k <-> is_open w k
  | (w', inr k) => ~ is_open w k /\ (forall k', is_open w' k' <-> is_open w k' \/ k' = k) /\
      deadline w' k = Some (time_Now w + 3 * Second)
  end.
Proof.
  intros [= <-]. split; [done|]. cbn [hc_Transport NewClient NewDeadlineRoundTripper Dial].
  destruct (net_DialTimeout w netw addr _) as [w1 [e|k]] eqn:Hd; [by intros k; eapply dial_error|].
  pose proof (set_open w1 k (time_Now w + 3 * Second)) as Ho.
  pose proof (set_deadline w1 k (time_Now w + 3 * Second)) as Hs.
  destruct (dial_conn _ _ _ _ _ _ k Hd) as [Hn Hk]. assert (is_open w1 k) as Hop by (apply Hk; by right).
  destruct (conn_SetDeadline w1 k _) as [w2 [e|]]; cbn [fst snd] in *.
  - intros k'. rewrite close_open, Ho. destruct (dial_conn _ _ _ _ _ _ k' Hd) as [_ ->]. naive_solver.
  - split_ands; [done| |by apply (Hs Hop)]. intros k'. rewrite Ho. by destruct (dial_conn _ _ _ _ _ _ k' Hd) as [_ ->].
Qed.

End httputil.

(** ** A network *)

Section examples.

(** The open connections with their deadlines, and the next one; the address
    ["down"] refuses and the network ["udp"] has no deadlines. *)
Record network := mkNetwork { net_now : Z; net_open : gmap nat (option Z); net_udp : bool }.

#[local] Instance demo_net : NetLib network := {|
  Conn := nat;
  time_Now := net_now;
  net_DialTimeout w netw addr t :=
    if String.eqb addr "down" then (w, inl "connection refused")
    else let c := fresh (dom (net_open w)) in
         (mkNetwork (net_now w + 5) (<[c := None]> (net_open w)) (String.eqb netw "udp"), inr c);
  conn_SetDeadline w c t :=
    if net_udp w then (w, Some "no deadline")
    else (mkNetwork (net_now w) (alter (fun _ => Some t) c (net_open w)) (net_udp w), None);
  conn_Close w c := mkNetwork (net_now w) (delete c (net_open w)) (net_udp w)
|}.

#[local] Instance demo_laws : NetLaws network.
Proof.
  refine {| is_open w c := is_Some (net_open w !! c); deadline w c := mjoin (net_open w !! c) |}.
  - intros w netw addr t w' e c. cbn. case_match; [by intros [= <- <-]|done].
  - intros w netw addr t w' c c'. cbn. case_match; [done|]. intros [= <- <-].
    assert (net_open w !! fresh (dom (net_open w)) = None) as Hf by apply not_elem_of_dom, is_fresh.
    split; [rewrite Hf; by intros []|]. cbn. rewrite lookup_insert_is_Some.
    destruct (decide (c' = fresh (dom (net_open w)))) as [->|Hne]; [tauto|]. split; [|intros [?|?]]; naive_solver.
  - intros w c t c'. cbn. case_match; [done|]. cbn. by rewrite lookup_alter_is_Some.
  - intros w c t Hc. cbn. case_match; [done|]. intros _. cbn. destruct Hc as [d Hc].
    change (mjoin (alter (fun _ => Some t) (c : nat) (net_open w) !! (c : nat)) = Some t).
    by rewrite lookup_alter_eq, (Hc : net_open w !! (c : nat) = Some d).
  - intros w c c'. cbn. rewrite lookup_delete_is_Some. naive_solver.
Defined.

Example dials :
  let dial netw addr := match NewClientForTimeOut with
    | inr c => Dial (hc_Transport c) (mkNetwork 100 ∅ false) netw addr
    | inl _ => (mkNetwork 0 ∅ false, inl EmptyString)
    end in
  dial "tcp" "up" = (mkNetwork 105 {[0%nat := Some 3000000100]} false, inr 0%nat) /\
  dial "tcp" "down" = (mkNetwork 100 ∅ false, inl "connection refused") /\
  dial "udp" "up" = (mkNetwork 105 ∅ true, inl "no deadline").
Proof. vm_compute. done. Qed.

End examples.
