(* ===== verification/Proxy.v ===== *)
(** * The fan-out of an API request ([proxyReq] of [web/api/v1/api.go])

    One goroutine per target sends the request there and appends the body of the
    answer to a slice the goroutines share without a lock. A goroutine is its
    four atomic actions: send the request and read the body, read the slice,
    store the element (in place when the array has room, or in a larger copy),
    and store the slice. The HTTP client is the class [ProxyLib], and [grow] is
    the runtime's choice of a capacity. *)
From S2P Require Import Prelude Model.

(** [http.NewRequest] succeeds, and what [client.Do] and [ReadAll] give: [None]
    is a nil response. *)
Class ProxyLib (W : Type) := {
  new_request_ok : string -> bool;
  client_Do : W -> string -> W * option string;
  grow : nat -> nat;
  grow_ge n : (n <= grow n)%nat
}.

Section proxy.
Context {W : Type} `{ProxyLib W}.

(** A slice: its array and its length; the capacity is the array's. *)
Definition slice : Type := nat * nat.

Inductive gstate :=
  | GStart
  | GBody (body : string)
  | GRead (body : string) (s : slice)
  | GStored (body : string) (s : slice)
  | GDone (body : string).

Record proxy_state := mkProxy {
  pworld : W;
  arrays : list (list string);
  bodys : slice;
  threads : list (string * gstate)
}.

(** [append(s, body)]: the element is stored, and the slice to come returned. *)
Definition append_body (arrays : list (list string)) (s : slice) (body : string)
    : list (list string) * slice :=
  let arr := default [] (arrays !! s.1) in
  if Nat.ltb s.2 (length arr) then (<[s.1 := <[s.2 := body]> arr]> arrays, (s.1, S s.2))
  else
    (arrays ++ [take s.2 arr ++ [body] ++ replicate (grow (S s.2) - S s.2) EmptyString],
     (length arrays, S s.2)).

Definition proxy_init (w : W) (urls : list string) : proxy_state :=
  mkProxy w [[]] (0, 0)%nat ((fun url => (url, GStart)) <$> urls).

(** The next action of goroutine [i]: a nil request or a nil response is
    dereferenced. A goroutine that is done has none. *)
Definition proxy_step (i : nat) (p : proxy_state) : option (outcome proxy_state) :=
  match threads p !! i with
  | Some (url, GStart) => Some (
      if new_request_ok url then
        match client_Do (pworld p) url with
        | (w, Some body) => Ret (mkProxy w (arrays p) (bodys p) (<[i := (url, GBody body)]> (threads p)))
        | (_, None) => Panic PanicNilDeref
        end
      else Panic PanicNilDeref)
  | Some (url, GBody body) => Some (
      Ret (mkProxy (pworld p) (arrays p) (bodys p) (<[i := (url, GRead body (bodys p))]> (threads p))))
  | Some (url, GRead body s) => Some (
      let '(arrays, s) := append_body (arrays p) s body in
      Ret (mkProxy (pworld p) arrays (bodys p) (<[i := (url, GStored body s)]> (threads p))))
  | Some (url, GStored body s) => Some (
      Ret (mkProxy (pworld p) (arrays p) s (<[i := (url, GDone body)]> (threads p))))
  | Some (_, GDone _) | None => None
  end.

Fixpoint proxy_run (sched : list nat) (p : proxy_state) : option (outcome proxy_state) :=
  match sched with
  | [] => Some (Ret p)
  | i :: sched =>
      match proxy_step i p with
      | Some (Ret p) => proxy_run sched p
      | r => r
      end
  end.

Definition is_gdone (g : gstate) : bool := match g with GDone _ => true | _ => false end.
Definition proxy_done (p : proxy_state) : bool := forallb (fun t => is_gdone t.2) (threads p).

(** The elements of a slice. *)
Definition slice_elements (arrays : list (list string)) (s : slice) : list string :=
  take s.2 (default [] (arrays !! s.1)).

(** [proxyReq] on the URLs of the targets: [wg.Wait] returns when every
    goroutine is done. *)
Definition proxyReq (w : W) (urls : list string) (sched : list nat)
    : option (outcome (W * list string)) :=
  match proxy_run sched (proxy_init w urls) with
  | Some (Ret p) =>
      if proxy_done p then Some (Ret (pworld p, slice_elements (arrays p) (bodys p))) else None
  | Some (Panic e) => Some (Panic e)
  | None => None
  end.

(** ** One goroutine after the other *)

(** The requests one after the other, with their bodies in order. *)
Fixpoint fetch_all (w : W) (urls : list string) : outcome (W * list string) :=
  match urls with
  | [] => Ret (w, [])
  | url :: urls =>
      if new_request_ok url then
        match client_Do w url with
        | (w, Some body) => r ← fetch_all w urls; Ret (r.1, body :: r.2)
        | (_, None) => Panic PanicNilDeref
        end
      else Panic PanicNilDeref
  end.

(** A slice within its array. *)
Definition slice_ok (arrays : list (list string)) (s : slice) : Prop :=
  exists arr, arrays !! s.1 = Some arr /\ (s.2 <= length arr)%nat.

Lemma append_body_spec arrays s body :
  slice_ok arrays s ->
  let r := append_body arrays s body in
  slice_ok r.1 r.2 /\ r.2.2 = S s.2 /\
  slice_elements r.1 r.2 = slice_elements arrays s ++ [body].
Proof.
  intros (arr&Ha&Hl). unfold append_body, slice_elements, slice_ok. rewrite Ha. cbn [from_option id].
  destruct (Nat.ltb_spec s.2 (length arr)) as [Hlt|Hge]; cbn [fst snd].
  - rewrite list_lookup_insert_eq by by eapply lookup_lt_Some. split; [|split; [done|]].
    + eexists. split; [done|]. rewrite length_insert. lia.
    + simpl. rewrite (take_S_r _ _ body) by by apply list_lookup_insert_eq.
      by rewrite take_insert_ge.
  - rewrite lookup_app_r, Nat.sub_diag by done. cbn [lookup list_lookup].
    split; [|split; [done|]].
    + eexists. split; [done|]. rewrite !length_app, length_take. simpl. lia.
    + set (tl := replicate _ _). cbn [from_option id].
      rewrite (take_ge arr) by lia. rewrite app_assoc, take_app_le, take_ge; [done|..];
        rewrite length_app; simpl; lia.
Qed.

(** The four actions of a goroutine, uninterrupted. *)
Lemma proxy_run_one i sched p url :
  threads p !! i = Some (url, GStart) -> slice_ok (arrays p) (bodys p) ->
  match fetch_all (pworld p) [url] with
  | Ret (w, bs) => exists p', proxy_run ([i; i; i; i] ++ sched) p = proxy_run sched p' /\
      pworld p' = w /\ slice_ok (arrays p') (bodys p') /\
      slice_elements (arrays p') (bodys p') = slice_elements (arrays p) (bodys p) ++ bs /\
      exists b, threads p' = <[i := (url, GDone b)]> (threads p)
  | Panic e => proxy_run ([i; i; i; i] ++ sched) p = Some (Panic e)
  end.
Proof.
  intros Hi Hok. pose proof (lookup_lt_Some _ _ _ Hi) as Hlt. cbn [fetch_all app proxy_run].
  assert (proxy_step i p = Some (if new_request_ok url then
      match client_Do (pworld p) url with
      | (w, Some body) => Ret (mkProxy w (arrays p) (bodys p) (<[i := (url, GBody body)]> (threads p)))
      | (_, None) => Panic PanicNilDeref
      end else Panic PanicNilDeref)) as -> by (unfold proxy_step; by rewrite Hi).
  destruct (new_request_ok url); [|done]. destruct (client_Do (pworld p) url) as [w [b|]]; [|done].
  cbn [mbind outcome_bind fst snd].
  pose proof (append_body_spec (arrays p) (bodys p) b Hok) as (Hok'&_&Hel).
  destruct (append_body (arrays p) (bodys p) b) as [arrs s] eqn:Happ. cbn [fst snd] in *.
  eexists. split.
  - unfold proxy_step. cbn [threads arrays bodys pworld].
    repeat (rewrite list_lookup_insert_eq by (rewrite ?length_insert; done);
            cbn [threads arrays bodys pworld]).
    rewrite Happ. cbn [threads arrays bodys pworld].
    repeat (rewrite list_lookup_insert_eq by (rewrite ?length_insert; done);
            cbn [threads arrays bodys pworld]). reflexivity.
  - cbn [threads arrays bodys pworld].
    split; [done|]. split; [done|]. split; [done|]. exists b. by rewrite !list_insert_insert_eq.
Qed.

Lemma fetch_all_cons w url urls :
  fetch_all w (url :: urls) =
    (r ← fetch_all w [url]; k ← fetch_all r.1 urls; Ret (k.1, r.2 ++ k.2)).
Proof.
  simpl. destruct (new_request_ok url); [|done]. by destruct (client_Do w url) as [w' [b|]].
Qed.

(** A schedule in which the goroutines follow each other. *)
Definition one_by_one (order : list nat) : list nat := concat ((fun i => [i; i; i; i]) <$> order).

Lemma proxy_run_one_by_one order p :
  NoDup order -> (forall i, i ∈ order -> exists url, threads p !! i = Some (url, GStart)) ->
  slice_ok (arrays p) (bodys p) ->
  match fetch_all (pworld p) (omap (fun i => fst <$> threads p !! i) order) with
  | Ret (w, bs) => exists p', proxy_run (one_by_one order) p = Some (Ret p') /\ pworld p' = w /\
      slice_elements (arrays p') (bodys p') = slice_elements (arrays p) (bodys p) ++ bs /\
      length (threads p') = length (threads p) /\
      (forall i, i ∈ order -> exists url b, threads p' !! i = Some (url, GDone b)) /\
      (forall i, i ∉ order -> threads p' !! i = threads p !! i)
  | Panic e => proxy_run (one_by_one order) p = Some (Panic e)
  end.
Proof.
  revert p. induction order as [|i order IH]; intros p Hnd Hth Hok.
  { simpl. exists p. rewrite app_nil_r. split_ands; try done. intros i Hi. by apply elem_of_nil in Hi. }
  apply NoDup_cons in Hnd as [Hni Hnd].
  destruct (Hth i ltac:(set_solver)) as [url Hi]. cbn [omap list_omap]. rewrite Hi. cbn [fmap option_fmap option_map fst].
  rewrite fetch_all_cons. unfold one_by_one. rewrite fmap_cons. cbn [concat].
  pose proof (proxy_run_one i (one_by_one order) p url Hi Hok) as Hone.
  destruct (fetch_all (pworld p) [url]) as [[w b]|e]; cbn [mbind outcome_bind fst snd]; [|done].
  destruct Hone as (p'&Hrun&Hw&Hok'&Hel&(b0&Hth')). fold (one_by_one order). rewrite Hrun.
  pose proof (lookup_lt_Some _ _ _ Hi) as Hlt.
  assert (forall j, j <> i -> threads p' !! j = threads p !! j) as Hne
    by (intros j Hj; by rewrite Hth', list_lookup_insert_ne).
  specialize (IH p' Hnd).
  assert (omap (fun i => fst <$> threads p' !! i) order = omap (fun i => fst <$> threads p !! i) order) as Hom.
  { clear - Hni Hne. induction order as [|j order IH]; [done|]. cbn [omap list_omap].
    rewrite Hne by set_solver. rewrite IH by set_solver. done. }
  rewrite Hom, Hw in IH.
  assert (forall j, j ∈ order -> exists url, threads p' !! j = Some (url, GStart)) as Hth2.
  { intros j Hj. rewrite Hne by set_solver. apply Hth. set_solver. }
  specialize (IH Hth2 Hok').
  destruct (fetch_all w (omap _ order)) as [[w' bs]|e]; cbn [mbind outcome_bind fst snd]; [|done].
  destruct IH as (p''&Hrun'&Hw'&Hel'&Hlen&Hd&Hnd'). exists p''.
  split; [done|]. split; [done|]. split; [by rewrite Hel', Hel, app_assoc|].
  split; [by rewrite Hlen, Hth', length_insert|]. split.
  - intros j [->|Hj]%elem_of_cons; [|by apply Hd]. exists url, b0.
    rewrite Hnd' by done. rewrite Hth'. by apply list_lookup_insert_eq.
  - intros j Hj. rewrite Hnd', Hne by set_solver. done.
Qed.

(** ** Any schedule *)

Definition ndone (ts : list (string * gstate)) : nat := length (filter (fun t => is_gdone t.2 = true) ts).

Lemma ndone_insert ts i t t' :
  ts !! i = Some t ->
  (ndone (<[i := t']> ts) + Nat.b2n (is_gdone t.2) = ndone ts + Nat.b2n (is_gdone t'.2))%nat.
Proof.
  unfold ndone. revert i. induction ts as [|u ts IH]; intros [|i] Hi; simplify_eq/=.
  - rewrite !filter_cons. destruct t as [url g], t' as [url' g']; simpl.
    destruct (is_gdone g), (is_gdone g'); simpl; lia.
  - rewrite !filter_cons. specialize (IH i Hi). case_decide; simpl; lia.
Qed.

Lemma ndone_all p : proxy_done p = true -> ndone (threads p) = length (threads p).
Proof.
  unfold proxy_done, ndone. induction (threads p) as [|t ts IH]; [done|]. simpl.
  intros [Ht Hts]%andb_prop. rewrite filter_cons, decide_True by done. simpl. by rewrite IH.
Qed.

Lemma ndone_le ts : (ndone ts <= length ts)%nat.
Proof. unfold ndone. apply length_filter. Qed.

(** A body some target gave. *)
Definition answered (urls : list string) (body : string) : Prop :=
  exists url w, url ∈ urls /\ (client_Do w url).2 = Some body.

Section any_schedule.
Variable urls : list string.

Definition good (arrays : list (list string)) (s : slice) : Prop :=
  slice_ok arrays s /\ Forall (answered urls) (slice_elements arrays s).

Lemma append_body_good arrays s s' body :
  slice_ok arrays s -> answered urls body -> good arrays s' -> good (append_body arrays s body).1 s'.
Proof.
  intros (arr&Ha&Hl) Hb ((arr'&Ha'&Hl')&Hel). unfold good, slice_ok, slice_elements in *.
  unfold append_body. rewrite Ha, Ha' in *. cbn [from_option id] in *.
  destruct (Nat.ltb_spec s.2 (length arr)) as [Hlt|Hge]; cbn [fst snd].
  - destruct (decide (s'.1 = s.1)) as [Heq|Hne].
    + rewrite Heq, list_lookup_insert_eq by by eapply lookup_lt_Some.
      rewrite Heq, Ha in Ha'. injection Ha' as <-. split.
      * eexists. split; [done|]. by rewrite length_insert.
      * cbn [from_option id]. destruct (decide (s'.2 <= s.2)%nat).
        -- by rewrite take_insert_ge.
        -- rewrite take_insert_lt by lia. by apply Forall_insert.
    + rewrite list_lookup_insert_ne by done. rewrite Ha'. split; [by eexists|done].
  - rewrite lookup_app_l by by eapply lookup_lt_Some. rewrite Ha'. split; [by eexists|done].
Qed.

Lemma append_body_good_new arrays s body :
  answered urls body -> good arrays s -> good (append_body arrays s body).1 (append_body arrays s body).2.
Proof.
  intros Hb [Hok Hel]. destruct (append_body_spec arrays s body Hok) as (Hok'&_&Heq).
  split; [done|]. rewrite Heq. apply Forall_app. split; [done|]. by constructor.
Qed.

Definition thread_ok (arrays : list (list string)) (n : nat) (t : string * gstate) : Prop :=
  t.1 ∈ urls /\
  match t.2 with
  | GStart => True
  | GBody b | GDone b => answered urls b
  | GRead b s => answered urls b /\ good arrays s /\ (s.2 <= n)%nat
  | GStored b s => answered urls b /\ good arrays s /\ (1 <= s.2 <= S n)%nat
  end.

Record proxy_inv (p : proxy_state) : Prop := mk_proxy_inv {
  pi_bodys : good (arrays p) (bodys p);
  pi_upper : ((bodys p).2 <= ndone (threads p))%nat;
  pi_lower : (ndone (threads p) <> 0 -> 1 <= (bodys p).2)%nat;
  pi_length : length (threads p) = length urls;
  pi_threads : Forall (thread_ok (arrays p) (ndone (threads p))) (threads p)
}.

Lemma proxy_init_inv w : proxy_inv (proxy_init w urls).
Proof.
  assert (ndone ((fun url => (url, GStart)) <$> urls) = 0%nat) as Hn.
  { unfold ndone. induction urls as [|u l IH]; [done|]. by rewrite fmap_cons, filter_cons. }
  split; cbn [threads bodys arrays proxy_init]; rewrite ?Hn; try done.
  - split; [|constructor]. exists []. split; [done|]. simpl. lia.
  - by rewrite length_fmap.
  - apply Forall_forall. intros t (u&->&Hu)%list_elem_of_fmap. done.
Qed.

Lemma thread_ok_mono arrays arrays' n n' t :
  (n <= n')%nat -> (forall s, good arrays s -> good arrays' s) ->
  thread_ok arrays n t -> thread_ok arrays' n' t.
Proof.
  intros Hn Hg [Hu Ht]. split; [done|]. destruct t.2; try done; destruct Ht as (?&?&?);
    split_ands; auto; lia.
Qed.

(** A step that leaves the number of finished goroutines alone. *)
Lemma proxy_inv_thread p i url g g' w arrays' :
  proxy_inv p -> threads p !! i = Some (url, g) -> is_gdone g = false -> is_gdone g' = false ->
  (forall s, good (arrays p) s -> good arrays' s) ->
  thread_ok arrays' (ndone (threads p)) (url, g') ->
  proxy_inv (mkProxy w arrays' (bodys p) (<[i := (url, g')]> (threads p))).
Proof.
  intros [Hb Hu Hl Hlen Hth] Hi Hg Hg' Hgood Hok. pose proof (ndone_insert _ _ _ (url, g') Hi) as Hn.
  simpl in Hn. rewrite Hg, Hg' in Hn. simpl in Hn. rewrite !Nat.add_0_r in Hn.
  split; cbn [threads bodys arrays]; rewrite ?Hn; auto.
  - by rewrite length_insert.
  - apply Forall_insert; [|done]. eapply Forall_impl; [exact Hth|]. intros t.
    by apply thread_ok_mono.
Qed.

Lemma proxy_step_inv p i p' : proxy_inv p -> proxy_step i p = Some (Ret p') -> proxy_inv p'.
Proof.
  intros Hinv. pose proof Hinv as [Hb Hu Hl Hlen Hth]. unfold proxy_step.
  destruct (threads p !! i) as [[url g]|] eqn:Hi; [|done].
  pose proof (Forall_lookup_1 _ _ _ _ Hth Hi) as [Hurl Hg]. cbn [fst snd] in *.
  destruct g as [|b|b s|b s|b]; [| | | |done].
  - destruct (new_request_ok url); [|done].
    destruct (client_Do (pworld p) url) as [w [b|]] eqn:Hdo; [|done]. intros [= <-].
    eapply proxy_inv_thread; try done. split; [done|]. exists url, (pworld p). by rewrite Hdo.
  - intros [= <-]. by eapply proxy_inv_thread.
  - destruct Hg as (Hans&Hgs&Hle). pose proof (append_body_good_new _ _ _ Hans Hgs) as Hnew.
    destruct (append_body_spec (arrays p) s b (proj1 Hgs)) as (_&Hlen'&_).
    pose proof (fun s' => append_body_good (arrays p) s s' b (proj1 Hgs) Hans) as Hold.
    destruct (append_body (arrays p) s b) as [arrs s']. cbn [fst snd] in *. intros [= <-].
    eapply proxy_inv_thread; try done. split; [done|]. split; [done|]. split; [done|].
    cbn [snd]. lia.
  - destruct Hg as (Hans&Hgs&Hle). intros [= <-].
    pose proof (ndone_insert _ _ _ (url, GDone b) Hi) as Hn. simpl in Hn.
    split; cbn [threads bodys arrays]; try done; try lia.
    + by rewrite length_insert.
    + apply Forall_insert; [|done]. eapply Forall_impl; [exact Hth|]. intros t.
      apply thread_ok_mono; [lia|done].
Qed.

End any_schedule.

(** A target whose URL makes no request, or that may give no response. *)
Definition fails (urls : list string) : Prop :=
  exists url, url ∈ urls /\ (new_request_ok url = false \/ exists w, (client_Do w url).2 = None).

Lemma proxy_run_inv urls sched p :
  proxy_inv urls p ->
  match proxy_run sched p with
  | Some (Ret p') => proxy_inv urls p'
  | Some (Panic e) => e = PanicNilDeref /\ fails urls
  | None => True
  end.
Proof.
  revert p. induction sched as [|i sched IH]; intros p Hinv; [done|]. cbn [proxy_run].
  destruct (proxy_step i p) as [[p'|e]|] eqn:Hs; [|clear IH|done].
  - apply IH. by eapply proxy_step_inv.
  - revert Hs. unfold proxy_step. destruct (threads p !! i) as [[url g]|] eqn:Hi; [|done].
    pose proof (Forall_lookup_1 _ _ _ _ (pi_threads _ _ Hinv) Hi) as [Hurl _]. simpl in Hurl.
    destruct g; [| |by destruct (append_body _ _ _)| |]; try done.
    destruct (new_request_ok url) eqn:Hok.
    + destruct (client_Do (pworld p) url) as [w [b|]] eqn:Hdo; [done|]. intros [= <-].
      split; [done|]. exists url. split; [done|]. right. exists (pworld p). by rewrite Hdo.
    + intros [= <-]. split; [done|]. exists url. split; [done|]. by left.
Qed.

Lemma proxyReq_one_by_one w urls order :
  order ≡ₚ seq 0 (length urls) ->
  proxyReq w urls (one_by_one order) = Some (fetch_all w (omap (fun i => urls !! i) order)).
Proof.
  intros Ho.
  assert (forall i, threads (proxy_init w urls) !! i = (fun url => (url, GStart)) <$> urls !! i) as Hth
    by (intros i; apply list_lookup_fmap).
  pose proof (proxy_run_one_by_one order (proxy_init w urls)) as Hrun.
  assert (omap (fun i => fst <$> threads (proxy_init w urls) !! i) order = omap (fun i => urls !! i) order)
    as Hom.
  { clear Ho Hrun. induction order as [|i order IH]; [done|]. cbn [omap list_omap]. rewrite Hth, IH.
    by destruct (urls !! i). }
  rewrite Hom in Hrun. cbn [pworld proxy_init] in Hrun.
  assert (NoDup order) as Hnd by (rewrite Ho; apply NoDup_seq).
  assert (forall i, i ∈ order -> exists url, threads (proxy_init w urls) !! i = Some (url, GStart)) as Hin.
  { intros i Hi. rewrite Ho, elem_of_seq in Hi. destruct (lookup_lt_is_Some_2 urls i ltac:(lia)) as [url Hu].
    exists url. by rewrite Hth, Hu. }
  assert (slice_ok (arrays (proxy_init w urls)) (bodys (proxy_init w urls))) as Hok
    by (exists []; split; [done|simpl; lia]).
  specialize (Hrun Hnd Hin Hok). unfold proxyReq.
  destruct (fetch_all w (omap _ order)) as [[w' bs]|e]; [|by rewrite Hrun].
  destruct Hrun as (p'&->&Hw&Hel&Hlen&Hd&_).
  assert (proxy_done p' = true) as ->; [|by rewrite Hw, Hel].
  apply forallb_forall. intros t Ht. apply list_elem_of_In, list_elem_of_lookup in Ht as [i Hi].
  destruct (Hd i) as (url&b&Hdi); [|rewrite Hdi in Hi; by injection Hi as <-].
  rewrite Ho, elem_of_seq. apply lookup_lt_Some in Hi. rewrite Hlen in Hi.
  cbn [threads proxy_init] in Hi. rewrite length_fmap in Hi. lia.
Qed.

(** What a run that returns has collected. *)
Lemma proxyReq_answers w urls sched w' bs :
  proxyReq w urls sched = Some (Ret (w', bs)) ->
  (length bs <= length urls)%nat /\ (urls <> [] -> bs <> []) /\ Forall (answered urls) bs.
Proof.
  unfold proxyReq. pose proof (proxy_run_inv urls sched _ (proxy_init_inv urls w)) as Hinv.
  destruct (proxy_run sched _) as [[p|e]|]; [|done..]. destruct (proxy_done p) eqn:Hd; [|done].
  intros [= <- <-]. destruct Hinv as [[Hok Hel] Hu Hl Hlen _]. apply ndone_all in Hd.
  assert (length (slice_elements (arrays p) (bodys p)) = (bodys p).2) as Hn.
  { destruct Hok as (arr&Ha&Hle). unfold slice_elements. rewrite Ha. simpl. rewrite length_take. lia. }
  split_ands; [lia| |done]. intros Hne Hnil. rewrite Hnil in Hn. simpl in Hn.
  destruct urls; simpl in Hlen; [done|lia].
Qed.

(** One after the other, every target's answer is collected. *)
Lemma fetch_all_answers w urls w' bs :
  fetch_all w urls = Ret (w', bs) ->
  Forall2 (fun url b => exists w0 w1, client_Do w0 url = (w1, Some b)) urls bs.
Proof.
  revert w bs. induction urls as [|url urls IH]; intros w bs; simpl; [intros [= <- <-]; constructor|].
  destruct (new_request_ok url); [|done]. destruct (client_Do w url) as [w1 [b|]] eqn:Hd; [|done].
  destruct (fetch_all w1 urls) as [[w2 bs']|] eqn:Hf; simpl; [|done]. intros [= -> <-].
  constructor; [by exists w, w1|by eapply IH].
Qed.

(** C39: proxyReq. When the goroutines follow each other, in any order, the
    result is that of sending the requests in that order, body by body. Under any
    schedule a result is not empty when there is a target, has at most one
    element per target, and every element is a body some target answered with;
    so a race can only lose bodies and keep others twice. The only panic is
    the dereference of a nil request or of a nil response, which a target that
    cannot be reached causes in a goroutine, and so for the whole process. *)
Theorem proxyReq_correct (w : W) (urls : list string) :
  (forall order, order ≡ₚ seq 0 (length urls) ->
     proxyReq w urls (one_by_one order) = Some (fetch_all w (omap (fun i => urls !! i) order))) /\
  (forall sched w' bs, proxyReq w urls sched = Some (Ret (w', bs)) ->
     (length bs <= length urls)%nat /\ (urls <> [] -> bs <> []) /\ Forall (answered urls) bs) /\
  (forall sched e, proxyReq w urls sched = Some (Panic e) -> e = PanicNilDeref /\ fails urls).
Proof.
  split_ands; [intros order; apply proxyReq_one_by_one|intros sched w' bs; apply proxyReq_answers|].
  - intros sched e. unfold proxyReq. pose proof (proxy_run_inv urls sched _ (proxy_init_inv urls w)) as Hinv.
    destruct (proxy_run sched _) as [[p|e']|]; [by destruct (proxy_done p)| |done]. by intros [= <-].
Qed.

(** Both goroutines read the slice before either stores it. *)
Definition interleaved : list nat := [0; 1; 0; 1; 0; 1; 0; 1]%nat.

(** The race of proxyReq loses an answer. For any two targets that both
    answer there is a schedule under which the result only has the second
    body. *)
Theorem proxyReq_loses (w w1 w2 : W) (url1 url2 b1 b2 : string) :
  new_request_ok url1 = true -> new_request_ok url2 = true ->
  client_Do w url1 = (w1, Some b1) -> client_Do w1 url2 = (w2, Some b2) ->
  proxyReq w [url1; url2] interleaved = Some (Ret (w2, [b2])) /\
  proxyReq w [url1; url2] (one_by_one [0; 1]%nat) = Some (Ret (w2, [b1; b2])).
Proof.
  intros Hu1 Hu2 Hd1 Hd2. split.
  - unfold proxyReq, interleaved. cbn [proxy_run]. unfold proxy_init.
    assert (forall n, exists m, (grow (S n) - S n)%nat = m) as Hgrow by (intros; by eexists).
    destruct (Hgrow 0%nat) as [m Hm].
    repeat (unfold proxy_step; cbn -[append_body grow replicate]; rewrite ?Hu1, ?Hu2, ?Hd1, ?Hd2;
      unfold append_body; cbn -[grow replicate]; rewrite ?Hm).
    done.
  - rewrite proxyReq_one_by_one by done. simpl. by rewrite Hu1, Hu2, Hd1, Hd2.
Qed.

End proxy.

(** ** A concrete client *)

Section examples.
Open Scope string_scope.

(** The world counts the requests; a target answers with its URL. *)
#[local] Instance echo_proxy : ProxyLib nat.
Proof.
  refine {| new_request_ok _ := true; client_Do n url := (S n, Some url); grow n := (2 * n)%nat |}.
  abstract (intros; lia).
Defined.

Lemma proxyReq_loses_witness :
  proxyReq 0%nat ["http://a/"; "http://b/"] interleaved = Some (Ret (2%nat, ["http://b/"])) /\
  proxyReq 0%nat ["http://a/"; "http://b/"] (one_by_one [0; 1]%nat) =
    Some (Ret (2%nat, ["http://a/"; "http://b/"])).
Proof. apply (proxyReq_loses 0%nat 1%nat 2%nat); reflexivity. Defined.

End examples.
