(* ===== verification/Api.v ===== *)
(** * The HTTP API ([web/api/v1/api.go], [web/api/v1/types.go])

    The handlers as functions of the request, the targets the retriever knows
    and the schedule of the goroutines of [proxyReq]; what a handler returns is
    turned into a response by [instr]. The PromQL engine and parser and the JSON
    of its values (vendored) are the class [APILib]; the answers of the targets
    are decoded, and the responses encoded, as Types.v says; the router calls the
    handler that [Register] binds to a method and a path. *)
From S2P Require Import Prelude Model MetricPkg Relabel Queue Target Json ApiParse Types Proxy.
Import Matcher.

Open Scope Z_scope.

(** ** Requests, data and errors *)

Record ApiRequest := mkApiRequest {
  rq_form : gmap string (list string);
  rq_uri : string;
  rq_name : string
}.

(** [r.FormValue]: the first value, or the empty string. *)
Definition FormValue (r : ApiRequest) (key : string) : string :=
  match rq_form r !! key with Some (v :: _) => v | _ => EmptyString end.
Definition Form (r : ApiRequest) (key : string) : list string := default [] (rq_form r !! key).

Inductive errorType :=
  | errorNone | errorTimeout | errorCanceled | errorExec | errorBadData | errorInternal.

#[export] Instance errorType_eq_dec : EqDecision errorType.
Proof. solve_decision. Defined.

Definition errorType_String (t : errorType) : string :=
  match t with
  | errorNone => EmptyString
  | errorTimeout => "timeout"
  | errorCanceled => "canceled"
  | errorExec => "execution"
  | errorBadData => "bad_data"
  | errorInternal => "internal"
  end.

Record apiError := mkApiError { typ : errorType; err : error }.

Definition apiError_Error (e : apiError) : string := errorType_String (typ e) +:+ ": " +:+ err e.

(** The errors of a query's execution, by their dynamic type; [ErrOther] is an
    error of another type. *)
Inductive query_error :=
  | ErrQueryCanceled (env : string)
  | ErrQueryTimeout (env : string)
  | ErrOther (msg : error).

Definition query_error_msg (e : query_error) : error :=
  match e with
  | ErrQueryCanceled env => "query was canceled in " +:+ env
  | ErrQueryTimeout env => "query timed out in " +:+ env
  | ErrOther msg => msg
  end.

(** The case [promql.ErrStorage] of a type switch: that type is an interface
    with the method of [error], which every error has. *)
Definition is_ErrStorage (e : query_error) : bool := true.

(** [Exec] runs a query in a context with this timeout, if any; a panic of the
    goroutine that runs the handler, or of one that the query starts.
    [unmarshal_targetVals] gives the targets that the variable holds after
    [json.Unmarshal], whose error is only logged; [value_type] and [value_json]
    are the JSON of a [model.Value], and [time_json] the text of a time. *)
Class APILib (W : Type) := {
  Query : Type;
  PValue : Type;
  NewInstantQuery : string -> Time -> error + Query;
  NewRangeQuery : string -> Time -> Time -> Duration -> error + Query;
  Exec : W -> Query -> option Duration -> outcome (W * (query_error + PValue));
  ParseMetricSelector : string -> option error;
  now : W -> Time;
  unmarshal_targetVals : string -> list (option ApiTarget);
  value_type : PValue -> string;
  value_json : PValue -> option json;
  time_json : Z -> option string
}.

Section api.
Context {W : Type} `{RelabelLib, MapOrder, StrconvLib, TimeLib, !ProxyLib W, !APILib W}.

(** What a handler returns besides an error; [DNil] is the nil interface. *)
Inductive data :=
  | DNil
  | DQuery (v : PValue)
  | DLabelValues (l : list LabelValue)
  | DMetrics (l : list (option Metric))
  | DNumDeleted (n : Z)
  | DTargets (l : list (option ApiTarget))
  | DAlertmanagers (l : list (option AlertmanagerTarget)).

Definition api_result : Type := apiError + data.

(** A handler; [None] when the schedule leaves a goroutine it waits for. *)
Definition handler : Type :=
  W -> list Target -> ApiRequest -> list nat -> option (outcome (W * api_result)).

Definition bad_data (e : error) : api_result := inl (mkApiError errorBadData e).

(** ** Queries *)

(** The context of a query: the timeout of the request, when it has one. *)
Definition query_timeout (r : ApiRequest) : error + option Duration :=
  let to := FormValue r "timeout" in
  if String.eqb to EmptyString then inr None
  else match parseDuration to with inl e => inl e | inr d => inr (Some d) end.

Definition query_error_type (e : query_error) : errorType :=
  match e with
  | ErrQueryCanceled _ => errorCanceled
  | ErrQueryTimeout _ => errorTimeout
  | _ => if is_ErrStorage e then errorInternal else errorExec
  end.

(** A handler's answer for what the engine returned. *)
Definition query_result (error_type : query_error -> errorType) (w : W) (res : query_error + PValue)
    : outcome (W * api_result) :=
  Ret (w, match res with
          | inl e => inl (mkApiError (error_type e) (query_error_msg e))
          | inr v => inr (DQuery v)
          end).

Definition query : handler := fun w targets r sched =>
  let t := FormValue r "time" in
  match (if String.eqb t EmptyString then inr (now w) else parseTime t) with
  | inl e => Some (Ret (w, bad_data e))
  | inr ts =>
      match query_timeout r with
      | inl e => Some (Ret (w, bad_data e))
      | inr timeout =>
          match NewInstantQuery (FormValue r "query") ts with
          | inl e => Some (Ret (w, bad_data e))
          | inr qry =>
              Some (wres ← Exec w qry timeout; query_result query_error_type wres.1 wres.2)
          end
      end
  end.

(** The switch of [queryRange] has no case for storage errors. *)
Definition range_error_type (e : query_error) : errorType :=
  match e with
  | ErrQueryCanceled _ => errorCanceled
  | ErrQueryTimeout _ => errorTimeout
  | ErrOther _ => errorExec
  end.

(** The checks on [start], [end] and [step]. *)
Definition range_params (r : ApiRequest) : error + (Time * Time * Duration) :=
  match parseTime (FormValue r "start") with
  | inl e => inl e
  | inr start =>
      match parseTime (FormValue r "end") with
      | inl e => inl e
      | inr end_ =>
          if Before end_ start then inl "end timestamp must not be before start time"
          else
            match parseDuration (FormValue r "step") with
            | inl e => inl e
            | inr step =>
                if step <=? 0 then
                  inl "zero or negative query resolution step widths are not accepted. Try a positive integer"
                else if Z.quot (Sub end_ start) step >? 11000 then
                  inl "exceeded maximum resolution of 11,000 points per timeseries. Try decreasing the query resolution (?step=XX)"
                else inr (start, end_, step)
            end
      end
  end.

Definition queryRange : handler := fun w targets r sched =>
  match range_params r with
  | inl e => Some (Ret (w, bad_data e))
  | inr (start, end_, step) =>
      match query_timeout r with
      | inl e => Some (Ret (w, bad_data e))
      | inr timeout =>
          match NewRangeQuery (FormValue r "query") start end_ step with
          | inl e => Some (Ret (w, bad_data e))
          | inr qry =>
              Some (wres ← Exec w qry timeout; query_result range_error_type wres.1 wres.2)
          end
      end
  end.

(** ** Requests that are passed on *)

(** [getPromTargets]: the instances of the job [allprometheus]. *)
Definition getPromTargets (targets : list Target) : list LabelValue :=
  omap (fun t => if String.eqb (label_value (Labels t) "job") "allprometheus"
                 then Some (label_value (Labels t) "instance") else None) targets.

Definition prom_urls (targets : list Target) (r : ApiRequest) : list string :=
  (fun l => "http://" +:+ l +:+ rq_uri r) <$> getPromTargets targets.

(** [bodys := api.proxyReq(r)], then the rest of a handler. *)
Definition with_bodys (w : W) (targets : list Target) (r : ApiRequest) (sched : list nat)
    (k : list string -> outcome api_result) : option (outcome (W * api_result)) :=
  match proxyReq w (prom_urls targets r) sched with
  | Some o => Some (wb ← o; a ← k wb.2; Ret (wb.1, a))
  | None => None
  end.

(** The loop of [labelValues]: a nil pointer is dereferenced. *)
Fixpoint labelValues_loop (bodys : list string) (data : list LabelValue) : outcome (list LabelValue) :=
  match bodys with
  | [] => Ret data
  | body :: bodys =>
      match unmarshal_labalVals body with
      | None => Panic PanicNilDeref
      | Some res => labelValues_loop bodys (data ++ elements (lv_Data res))
      end
  end.

Definition labelValues : handler := fun w targets r sched =>
  if negb (LabelNameRE_MatchString (rq_name r)) then
    Some (Ret (w, bad_data ("invalid label name: " +:+ Quote (rq_name r))))
  else
    with_bodys w targets r sched (fun bodys =>
      data ← labelValues_loop bodys [];
      Ret (inr (DLabelValues (sort_values (removeDuplicate data))))).

(** A time parameter that may be missing. *)
Definition optional_time (r : ApiRequest) (key : string) : option error :=
  let t := FormValue r key in
  if String.eqb t EmptyString then None
  else match parseTime t with inl e => Some e | inr _ => None end.

Fixpoint selectors_error (l : list string) : option error :=
  match l with
  | [] => None
  | s :: l => match ParseMetricSelector s with Some e => Some e | None => selectors_error l end
  end.

Definition no_match : error := "no match[] parameter provided".

Definition series : handler := fun w targets r sched =>
  match Form r "match[]" with
  | [] => Some (Ret (w, bad_data no_match))
  | selectors =>
      match optional_time r "start" with
      | Some e => Some (Ret (w, bad_data e))
      | None =>
          match optional_time r "end" with
          | Some e => Some (Ret (w, bad_data e))
          | None =>
              match selectors_error selectors with
              | Some e => Some (Ret (w, bad_data e))
              | None =>
                  with_bodys w targets r sched (fun bodys =>
                    let data := unmarshal_seriesVals <$> bodys in
                    Ret (inr (DMetrics (foldl (fun metrics d => metrics ++ elements (sv_Data d)) [] data))))
              end
          end
      end
  end.

(** [numDeleted += res.Data.NumDeleted + numDeleted], on [int]. *)
Definition count_deleted (bodys : list string) : Z :=
  foldl (fun numDeleted body =>
    int64 (numDeleted + int64 (sd_NumDeleted (unmarshal_seriesDelVals body) + numDeleted))) 0 bodys.

Definition dropSeries : handler := fun w targets r sched =>
  match Form r "match[]" with
  | [] => Some (Ret (w, bad_data no_match))
  | _ => with_bodys w targets r sched (fun bodys => Ret (inr (DNumDeleted (count_deleted bodys))))
  end.

Definition targets : handler := fun w targets r sched =>
  with_bodys w targets r sched (fun bodys =>
    Ret (inr (DTargets (foldl (fun data body => data ++ unmarshal_targetVals body) [] bodys)))).

Definition alertmanagers : handler := fun w targets r sched =>
  with_bodys w targets r sched (fun bodys =>
    Ret (inr (DAlertmanagers (foldl (fun ams body =>
      ams ++ elements (ActiveAlertmanagers (av_Data (unmarshal_alertManagerVals body)))) [] bodys)))).

Definition options : handler := fun w targets r sched => Some (Ret (w, inr DNil)).

(** ** The hash of the targets *)

Record rawTarget := mkRawTarget { rt_mod : Z; rt_target : Target; rt_address : LabelValue }.

Definition getTargets (targets : list Target) : list rawTarget :=
  foldl (fun raw v =>
    let mod_ := api_sum64 (md5_Sum (label_value (Labels v) "instance")) mod 3 in
    raw ++ [mkRawTarget mod_ v (label_value (DiscoveredLabels v) "__address__")]) [] targets.

(** ** Responses *)

Inductive status := statusSuccess | statusError.

Record response := mkResponse_ {
  rs_status : status;
  rs_data : data;
  rs_errorType : errorType;
  rs_error : string
}.

(** The status, the headers and the body that are written. *)
Record reply := mkReply {
  rp_code : Z;
  rp_header : gmap string string;
  rp_body : option string
}.

Definition corsHeaders : gmap string string :=
  list_to_map [
    ("Access-Control-Allow-Headers", "Accept, Authorization, Content-Type, Origin");
    ("Access-Control-Allow-Methods", "GET, OPTIONS");
    ("Access-Control-Allow-Origin", "*");
    ("Access-Control-Expose-Headers", "Date")].

(** [setCORS], in the order the map is visited. *)
Definition setCORS (header : gmap string string) : gmap string string :=
  foldl (fun header '(h, v) => <[h := v]> header) header (map_to_list corsHeaders).

(** The data of a response as JSON. *)
Definition enc_data (d : data) : option json :=
  match d with
  | DNil => Some JNull
  | DQuery v => r ← value_json v; Some (JObj [("resultType", JStr (value_type v)); ("result", r)])
  | DLabelValues l => Some (enc_appended JStr l)
  | DMetrics l => Some (JArr (enc_map <$> l))
  | DNumDeleted n => Some (JObj [("numDeleted", enc_int n)])
  | DTargets l =>
      ts ← mapM (enc_Target time_json) l; Some (JObj [("activeTargets", enc_appended id ts)])
  | DAlertmanagers l =>
      Some (JObj [("activeAlertmanagers", enc_appended enc_AlertmanagerTarget l)])
  end.

Definition is_DNil (d : data) : bool := match d with DNil => true | _ => false end.

Definition status_String (s : status) : string :=
  match s with statusSuccess => "success" | statusError => "error" end.

(** The fields of a response; the nil interface and empty strings are left out. *)
Definition enc_response (r : response) : option json :=
  d ← enc_data (rs_data r);
  Some (JObj ([("status", JStr (status_String (rs_status r)))] ++
    (if is_DNil (rs_data r) then [] else [("data", d)]) ++
    (if String.eqb (errorType_String (rs_errorType r)) EmptyString then []
     else [("errorType", JStr (errorType_String (rs_errorType r)))]) ++
    (if String.eqb (rs_error r) EmptyString then [] else [("error", JStr (rs_error r))]))).

(** [json.Marshal] of a response; nothing is written when it fails. *)
Definition json_Marshal (r : response) : option string := print_json <$> enc_response r.

Definition error_code (t : errorType) : Z :=
  match t with
  | errorBadData => 400
  | errorExec => 422
  | errorCanceled | errorTimeout => 503
  | errorInternal => 500
  | errorNone => 500
  end.

Definition respond (header : gmap string string) (d : data) : reply :=
  mkReply 200 (<["Content-Type" := "application/json"]> header)
    (json_Marshal (mkResponse_ statusSuccess d errorNone EmptyString)).

Definition respondError (header : gmap string string) (e : apiError) (d : data) : reply :=
  mkReply (error_code (typ e)) (<["Content-Type" := "application/json"]> header)
    (json_Marshal (mkResponse_ statusError d (typ e) (err e))).

(** The wrapper of the handlers in [Register]. *)
Definition instr (result : api_result) : reply :=
  let header := setCORS ∅ in
  match result with
  | inl e => respondError header e DNil
  | inr DNil => mkReply 204 header None
  | inr d => respond header d
  end.

(** The routes: method, path and handler. *)
Definition Register : list (string * string * handler) := [
  ("OPTIONS", "/*path", options);
  ("GET", "/query", query);
  ("GET", "/query_range", queryRange);
  ("GET", "/label/:name/values", labelValues);
  ("GET", "/series", series);
  ("DELETE", "/series", dropSeries);
  ("GET", "/targets", targets);
  ("GET", "/alertmanagers", alertmanagers)].

(** A request that the router hands to [f]. *)
Definition serve (f : handler) (w : W) (ts : list Target) (r : ApiRequest) (sched : list nat)
    : option (outcome (W * reply)) :=
  match f w ts r sched with
  | Some o => Some (wr ← o; Ret (wr.1, instr wr.2))
  | None => None
  end.

(** ** Range queries *)

(** The parameters of a range query are accepted exactly when the times and
    the step parse, the end is not before the start, the step is positive, and
    the quotient of the range (as a duration, which may overflow) by the step is
    at most 11000. *)
Theorem range_params_correct (r : ApiRequest) (start end_ : Time) (step : Duration) :
  (range_params r = inr (start, end_, step) <->
     parseTime (FormValue r "start") = inr start /\ parseTime (FormValue r "end") = inr end_ /\
     parseDuration (FormValue r "step") = inr step /\
     start <= end_ /\ 0 < step /\ Z.quot (Sub end_ start) step <= 11000).
Proof.
  unfold range_params, Before.
  destruct (parseTime (FormValue r "start")) as [e|s0]; [naive_solver|].
  destruct (parseTime (FormValue r "end")) as [e|e0]; [naive_solver|].
  destruct (Z.ltb_spec e0 s0); [naive_solver lia|].
  destruct (parseDuration (FormValue r "step")) as [e|d0]; [naive_solver|].
  destruct (Z.leb_spec d0 0); [naive_solver lia|].
  destruct (Z.gtb_spec (Z.quot (Sub e0 s0) d0) 11000); [naive_solver lia|].
  split; [intros [= <- <- <-]; split_ands; done|]. by intros ([= ->]&[= ->]&[= ->]&_).
Qed.

(** ** Queries *)

(** The code of an outcome of the engine, and the code of the errors that are
    neither a cancellation nor a timeout. *)
Definition engine_code (other : Z) (res : query_error + PValue) : Z :=
  match res with
  | inr _ => 200
  | inl (ErrQueryCanceled _) | inl (ErrQueryTimeout _) => 503
  | inl (ErrOther _) => other
  end.

(** What the engine answered is what the client gets; a panic is passed on. *)
Definition engine_result (other : Z) (o : outcome (W * (query_error + PValue)))
    (result : outcome (W * api_result)) : Prop :=
  match o with
  | Panic p => result = Panic p
  | Ret (w', res) => exists a, result = Ret (w', a) /\ rp_code (instr a) = engine_code other res /\
      match res with
      | inr v => a = inr (DQuery v)
      | inl e => exists t, a = inl (mkApiError t (query_error_msg e))
      end
  end.

(** A request that is refused before the engine is run. *)
Definition refused (w : W) (result : outcome (W * api_result)) : Prop :=
  exists e, result = Ret (w, bad_data e) /\ rp_code (instr (bad_data e)) = 400.

Lemma refused_bad_data w e : refused w (Ret (w, bad_data e)).
Proof. by exists e. Qed.

Lemma engine_result_ok other error_type o :
  (forall v, rp_code (instr (inr (DQuery v))) = 200) ->
  (forall e, rp_code (instr (inl (mkApiError (error_type e) (query_error_msg e)))) = engine_code other (inl e)) ->
  engine_result other o (wres ← o; query_result error_type wres.1 wres.2).
Proof.
  intros Hv He. destruct o as [[w' res]|p]; [|done]. eexists. split; [reflexivity|].
  destruct res as [e|v]; (split; [by apply He || by apply Hv|]); [by eexists|done].
Qed.

(** What the parameters of an instant query say, when all are accepted. *)
Definition instant_accepted (w : W) (r : ApiRequest) (qry : Query) (timeout : option Duration) : Prop :=
  exists t, (if String.eqb (FormValue r "time") EmptyString then t = now w
             else parseTime (FormValue r "time") = inr t) /\
    query_timeout r = inr timeout /\ NewInstantQuery (FormValue r "query") t = inr qry.

(** What the parameters of a range query say, when all are accepted. *)
Definition range_accepted (r : ApiRequest) (qry : Query) (timeout : option Duration) : Prop :=
  exists start end_ step, range_params r = inr (start, end_, step) /\
    query_timeout r = inr timeout /\ NewRangeQuery (FormValue r "query") start end_ step = inr qry.

Lemma query_cases w ts r sched :
  (exists qry timeout, instant_accepted w r qry timeout /\
    query w ts r sched = Some (wres ← Exec w qry timeout; query_result query_error_type wres.1 wres.2)) \/
  ((forall qry timeout, ~ instant_accepted w r qry timeout) /\
    exists e, query w ts r sched = Some (Ret (w, bad_data e))).
Proof.
  unfold query, instant_accepted.
  destruct (if String.eqb (FormValue r "time") EmptyString then inr (now w) else parseTime _)
    as [e|t] eqn:Ht.
  { right. split; [|by eexists]. intros qry timeout (t&Ht'&_). destruct (String.eqb _ _); congruence. }
  assert (forall t', (if String.eqb (FormValue r "time") EmptyString then t' = now w
    else parseTime (FormValue r "time") = inr t') -> t' = t) as Heq
    by (intros t' Ht'; destruct (String.eqb _ _); congruence).
  destruct (query_timeout r) as [e|timeout].
  { right. split; [|by eexists]. by intros qry timeout (t'&_&?&_). }
  destruct (NewInstantQuery _ t) as [e|qry] eqn:Hq.
  { right. split; [|by eexists]. intros qry timeout' (t'&->%Heq&_&?). congruence. }
  left. exists qry, timeout. split; [|done]. exists t. split_ands; [|done..].
  destruct (String.eqb _ _); congruence.
Qed.

Lemma queryRange_cases w ts r sched :
  (exists qry timeout, range_accepted r qry timeout /\
    queryRange w ts r sched = Some (wres ← Exec w qry timeout; query_result range_error_type wres.1 wres.2)) \/
  ((forall qry timeout, ~ range_accepted r qry timeout) /\
    exists e, queryRange w ts r sched = Some (Ret (w, bad_data e))).
Proof.
  unfold queryRange, range_accepted. destruct (range_params r) as [e|[[start end_] step]].
  { right. split; [|by eexists]. by intros qry timeout (?&?&?&?&_). }
  destruct (query_timeout r) as [e|timeout].
  { right. split; [|by eexists]. by intros qry timeout (?&?&?&_&?&_). }
  destruct (NewRangeQuery _ _ _ _) as [e|qry] eqn:Hq.
  { right. split; [|by eexists]. intros qry timeout' (?&?&?&[= <- <- <-]&_&?). congruence. }
  left. exists qry, timeout. split; [|done]. by exists start, end_, step.
Qed.

Lemma instant_accepted_inj w r q q' t t' :
  instant_accepted w r q t -> instant_accepted w r q' t' -> q = q' /\ t = t'.
Proof.
  intros (x&Hx&Ht&Hq) (x'&Hx'&Ht'&Hq').
  assert (x = x') as <- by (destruct (String.eqb _ _); congruence). split; congruence.
Qed.

Lemma range_accepted_inj r q q' t t' :
  range_accepted r q t -> range_accepted r q' t' -> q = q' /\ t = t'.
Proof.
  intros (s&e&st&Hx&Ht&Hq) (s'&e'&st'&Hx'&Ht'&Hq'). rewrite Hx in Hx'. injection Hx' as <- <- <-.
  split; congruence.
Qed.

(** C37: query and queryRange. When every parameter is accepted (the times, the
    step and the timeout parse, the range is one that range_params takes, and the
    engine makes a query of the expression), the engine is run once, at the given
    time (now, if missing) or over the given range, in a context with the given
    timeout, and its value is returned. A canceled query or one that timed out is
    a 503; any other error is a 422 for queryRange, but a 500 for query: its case
    for storage errors is one for an interface that every error implements, so
    that the case for errors of the evaluation is never reached. When some
    parameter is not accepted, and only then, the request is refused as bad (400)
    and the engine is not run: the world is as before. A handler that does not
    answer is one in which the engine panics. *)
Theorem query_handlers_correct (w : W) (ts : list Target) (r : ApiRequest) (sched : list nat) :
  (forall qry timeout, instant_accepted w r qry timeout ->
    exists result, query w ts r sched = Some result /\ engine_result 500 (Exec w qry timeout) result) /\
  ((forall qry timeout, ~ instant_accepted w r qry timeout) ->
    exists result, query w ts r sched = Some result /\ refused w result) /\
  (forall qry timeout, range_accepted r qry timeout ->
    exists result, queryRange w ts r sched = Some result /\ engine_result 422 (Exec w qry timeout) result) /\
  ((forall qry timeout, ~ range_accepted r qry timeout) ->
    exists result, queryRange w ts r sched = Some result /\ refused w result).
Proof.
  split_ands.
  - intros qry timeout Ha. destruct (query_cases w ts r sched) as [(q&t&Ha'&->)|[Hno _]]; [|by destruct (Hno _ _ Ha)].
    destruct (instant_accepted_inj _ _ _ _ _ _ Ha Ha') as [<- <-].
    eexists. split; [done|]. apply engine_result_ok; [done|by intros []].
  - intros Hno. destruct (query_cases w ts r sched) as [(q&t&Ha&_)|[_ [e ->]]]; [by destruct (Hno _ _ Ha)|].
    eexists. split; [done|apply refused_bad_data].
  - intros qry timeout Ha. destruct (queryRange_cases w ts r sched) as [(q&t&Ha'&->)|[Hno _]]; [|by destruct (Hno _ _ Ha)].
    destruct (range_accepted_inj _ _ _ _ _ Ha Ha') as [<- <-].
    eexists. split; [done|]. apply engine_result_ok; [done|by intros []].
  - intros Hno. destruct (queryRange_cases w ts r sched) as [(q&t&Ha&_)|[_ [e ->]]]; [by destruct (Hno _ _ Ha)|].
    eexists. split; [done|apply refused_bad_data].
Qed.

(** ** Forwarded requests *)

Lemma foldl_app_concat {A B} (f : A -> list B) l acc :
  foldl (fun acc x => acc ++ f x) acc l = acc ++ concat (f <$> l).
Proof.
  revert acc. induction l as [|x l IH]; intros acc; simpl; [by rewrite app_nil_r|].
  by rewrite IH, app_assoc.
Qed.

(** The values in a body, if it decodes to an answer. *)
Definition label_values_of (body : string) : option (list LabelValue) :=
  (fun v => elements (lv_Data v)) <$> unmarshal_labalVals body.

Lemma labelValues_loop_spec bodys data :
  match labelValues_loop bodys data with
  | Ret l => exists ls, Forall2 (fun b l => label_values_of b = Some l) bodys ls /\ l = data ++ concat ls
  | Panic e => e = PanicNilDeref /\ exists b, b ∈ bodys /\ label_values_of b = None
  end.
Proof.
  revert data. induction bodys as [|b bodys IH]; intros data; cbn [labelValues_loop].
  { exists []. by rewrite app_nil_r. }
  assert (label_values_of b = (fun v => elements (lv_Data v)) <$> unmarshal_labalVals b) as Hb by done.
  destruct (unmarshal_labalVals b) as [v|]; cbn [fmap option_fmap option_map] in Hb;
    [|split; [done|]; exists b; set_solver].
  set (l := elements (lv_Data v)) in *.
  specialize (IH (data ++ l)). destruct (labelValues_loop bodys (data ++ l)) as [l'|e].
  - destruct IH as (ls&Hf&->). exists (l :: ls). split; [by constructor|]. by rewrite <- app_assoc.
  - destruct IH as [? (b'&?&?)]. split; [done|]. exists b'. set_solver.
Qed.

(** LabelValues. A name that is not a label name is a bad request, and no
    target is asked. Otherwise, whatever bodies the targets answered with, the
    result is the only increasing list without duplicates of all the values
    in them, provided every body decodes to a value; a body that does not (an
    empty or broken one, or null) leaves a nil pointer, which is
    dereferenced. *)
Theorem labelValues_correct (w : W) (ts : list Target) (r : ApiRequest) (sched : list nat) :
  (IsValid (rq_name r) = false ->
     exists e, labelValues w ts r sched = Some (Ret (w, bad_data e))) /\
  (forall w' bodys, IsValid (rq_name r) = true ->
     proxyReq w (prom_urls ts r) sched = Some (Ret (w', bodys)) ->
     ((forall b, b ∈ bodys -> is_Some (label_values_of b)) ->
        exists l, labelValues w ts r sched = Some (Ret (w', inr (DLabelValues l))) /\
          StronglySorted String.le l /\ NoDup l /\
          (forall x, x ∈ l <-> exists b lb, b ∈ bodys /\ label_values_of b = Some lb /\ x ∈ lb)) /\
     ((exists b, b ∈ bodys /\ label_values_of b = None) ->
        labelValues w ts r sched = Some (Panic PanicNilDeref))).
Proof.
  unfold labelValues. rewrite LabelNameRE_IsValid. split.
  { intros ->. by eexists. }
  intros w' bodys -> Hp. cbn [negb]. unfold with_bodys. rewrite Hp. cbn [mbind outcome_bind fst snd].
  pose proof (labelValues_loop_spec bodys []) as Hl. split.
  - intros Hb. destruct (labelValues_loop bodys []) as [l|e]; cbn [mbind outcome_bind fst snd].
    2: { destruct Hl as (_&b&Hin&Hn). destruct (Hb b Hin) as [? Hs]. congruence. }
    destruct Hl as (ls&Hf&->). cbn [app].
    destruct (removeDuplicate_spec (concat ls)) as [Hnd Hel].
    destruct (sort_values_spec (removeDuplicate (concat ls))) as [Hs Hperm].
    eexists. split; [done|]. split; [done|]. split; [by rewrite Hperm|].
    intros x. rewrite Hperm, Hel. split.
    + intros Hx. apply list_elem_of_In, in_concat in Hx as (lb&Hlb&Hx).
      apply list_elem_of_In, list_elem_of_lookup in Hlb as [i Hi].
      destruct (Forall2_lookup_r _ _ _ _ _ Hf Hi) as (b&Hbi&Hub). exists b, lb.
      split; [by eapply list_elem_of_lookup_2|]. split; [done|]. by apply list_elem_of_In.
    + intros (b&lb&Hin&Hu&Hx). apply list_elem_of_lookup in Hin as [i Hi].
      destruct (Forall2_lookup_l _ _ _ _ _ Hf Hi) as (lb'&Hbi&Hub).
      apply list_elem_of_In, in_concat. exists lb'.
      rewrite <- !list_elem_of_In. split; [by eapply list_elem_of_lookup_2|]. congruence.
  - intros (b&Hin&Hn). destruct (labelValues_loop bodys []) as [l|e]; cbn [mbind outcome_bind fst snd].
    + destruct Hl as (ls&Hf&_). apply list_elem_of_lookup in Hin as [i Hi].
      destruct (Forall2_lookup_l _ _ _ _ _ Hf Hi) as (lb&_&Hub). congruence.
    + by destruct Hl as [-> _].
Qed.

(** What the handlers that pass a request on make of the bodies. *)
Lemma with_bodys_ret w ts r sched k w' bodys a :
  proxyReq w (prom_urls ts r) sched = Some (Ret (w', bodys)) -> k bodys = Ret a ->
  with_bodys w ts r sched k = Some (Ret (w', a)).
Proof. intros Hp Hk. unfold with_bodys. rewrite Hp. cbn [mbind outcome_bind fst snd]. by rewrite Hk. Qed.

(** The handlers that collect. targets and alertmanagers return all the
    elements of all the bodies, in the order of the bodies; series does so too,
    for a request with a selector whose times and selectors parse. Without a
    selector series and dropSeries are bad requests and no target is asked. No
    body makes any of these four panic. *)
Theorem collecting_handlers_correct (w : W) (ts : list Target) (r : ApiRequest) (sched : list nat) :
  (Form r "match[]" = [] ->
     series w ts r sched = Some (Ret (w, bad_data no_match)) /\
     dropSeries w ts r sched = Some (Ret (w, bad_data no_match))) /\
  (Form r "match[]" <> [] ->
     match optional_time r "start", optional_time r "end", selectors_error (Form r "match[]") with
     | Some e, _, _ | None, Some e, _ | None, None, Some e =>
         series w ts r sched = Some (Ret (w, bad_data e))
     | None, None, None => forall w' bodys,
         proxyReq w (prom_urls ts r) sched = Some (Ret (w', bodys)) ->
         series w ts r sched = Some (Ret (w', inr (DMetrics (concat ((fun b => elements (sv_Data (unmarshal_seriesVals b))) <$> bodys)))))
     end) /\
  (forall w' bodys, proxyReq w (prom_urls ts r) sched = Some (Ret (w', bodys)) ->
     targets w ts r sched = Some (Ret (w', inr (DTargets (concat (unmarshal_targetVals <$> bodys))))) /\
     alertmanagers w ts r sched =
       Some (Ret (w', inr (DAlertmanagers (concat
         ((fun b => elements (ActiveAlertmanagers (av_Data (unmarshal_alertManagerVals b)))) <$> bodys))))) /\
     (Form r "match[]" <> [] ->
        dropSeries w ts r sched = Some (Ret (w', inr (DNumDeleted (count_deleted bodys)))))).
Proof.
  split_ands.
  - intros Hm. unfold series, dropSeries. by rewrite Hm.
  - intros Hm. unfold series. destruct (Form r "match[]") as [|s l]; [done|].
    destruct (optional_time r "start"); [done|]. destruct (optional_time r "end"); [done|].
    destruct (selectors_error (s :: l)); [done|]. intros w' bodys Hp.
    apply (with_bodys_ret _ _ _ _ _ _ _ _ Hp). do 3 f_equal.
    rewrite (foldl_app_concat (fun d => elements (sv_Data d))). by rewrite <- list_fmap_compose.
  - intros w' bodys Hp. split_ands.
    + apply (with_bodys_ret _ _ _ _ _ _ _ _ Hp). by rewrite foldl_app_concat.
    + apply (with_bodys_ret _ _ _ _ _ _ _ _ Hp).
      by rewrite (foldl_app_concat (fun b => elements (ActiveAlertmanagers (av_Data (unmarshal_alertManagerVals b))))).
    + intros Hm. unfold dropSeries. destruct (Form r "match[]"); [done|].
      by apply (with_bodys_ret _ _ _ _ _ _ _ _ Hp).
Qed.

(** The weighted sum that the loop of [dropSeries] computes. *)
Fixpoint doubled_sum (l : list Z) : Z :=
  match l with [] => 0 | x :: l => 2 ^ Z.of_nat (length l) * x + doubled_sum l end.

Lemma doubled_sum_snoc l x : doubled_sum (l ++ [x]) = 2 * doubled_sum l + x.
Proof.
  induction l as [|y l IH]; cbn [app doubled_sum length]; [simpl; lia|].
  rewrite IH, length_app, Nat.add_1_r, Nat2Z.inj_succ, Z.pow_succ_r by lia. lia.
Qed.

(** The number in a body. *)
Definition deleted_of (body : string) : Z := sd_NumDeleted (unmarshal_seriesDelVals body).

(** The number of deleted series. Every answer is added together with the
    count so far, so all the earlier answers are doubled by every later one: the
    count is the sum of the answers weighted with the powers of two of the
    number of answers after each (as an int). With two targets or more it
    is not the number of deleted series. *)
Theorem count_deleted_doubles (bodys : list string) :
  count_deleted bodys = int64 (doubled_sum (deleted_of <$> bodys)) /\
  (forall b1 b2, 0 < deleted_of b1 -> 0 <= deleted_of b2 ->
     2 * deleted_of b1 + deleted_of b2 <= MaxInt64 ->
     count_deleted [b1; b2] =
       deleted_of b1 + deleted_of b2 + deleted_of b1).
Proof.
  assert (forall bodys, count_deleted bodys = int64 (doubled_sum (deleted_of <$> bodys))) as Hc.
  { clear bodys. intros bodys. unfold count_deleted. induction bodys as [|b bodys IH] using rev_ind; [done|].
    rewrite foldl_app, fmap_app, IH. cbn [foldl fmap list_fmap].
    change (sd_NumDeleted (unmarshal_seriesDelVals b)) with (deleted_of b). rewrite doubled_sum_snoc. set (d := doubled_sum _). set (x := deleted_of b).
    rewrite int64_add_r. replace (int64 d + (x + int64 d)) with (x + int64 d + int64 d) by lia.
    rewrite int64_add_r, (Z.add_comm (x + int64 d)), Z.add_assoc, int64_add_r. f_equal. lia. }
  split; [apply Hc|]. intros b1 b2 H1' H2' Hmax. rewrite Hc. cbn [fmap list_fmap doubled_sum length].
  change (2 ^ Z.of_nat 1) with 2. change (2 ^ Z.of_nat 0) with 1.
  rewrite int64_id; [lia|]. unfold in_int64, MinInt64. lia.
Qed.

(** ** Replies *)

(** The type of the errors of the handlers, and data that is not nil. *)
Definition proper_result (result : api_result) : Prop :=
  match result with inl e => typ e <> errorNone | inr d => d <> DNil end.

Lemma with_bodys_proper w ts r sched k w' res :
  (forall bodys a, k bodys = Ret a -> proper_result a) ->
  with_bodys w ts r sched k = Some (Ret (w', res)) -> proper_result res.
Proof.
  intros Hk. unfold with_bodys. destruct (proxyReq _ _ _) as [[[w1 bodys]|e]|]; [|done..].
  cbn [mbind outcome_bind fst snd]. destruct (k bodys) as [a|e] eqn:Ha; [|done].
  cbn [mbind outcome_bind]. intros [= _ <-]. by eapply Hk.
Qed.

Lemma handlers_proper m path f w ts r sched w' res :
  (m, path, f) ∈ Register -> m <> "OPTIONS" -> f w ts r sched = Some (Ret (w', res)) ->
  proper_result res.
Proof.
  unfold Register. rewrite !elem_of_cons, elem_of_nil. intros Hf Hm.
  destruct Hf as [Hf|[Hf|[Hf|[Hf|[Hf|[Hf|[Hf|[Hf|[]]]]]]]]]; injection Hf as -> -> ->; [done| | | | | | |].
  - unfold query. destruct (if String.eqb _ _ then _ else _) as [e|t]; [by intros [= _ <-]|].
    destruct (query_timeout r); [by intros [= _ <-]|]. destruct (NewInstantQuery _ _); [by intros [= _ <-]|].
    destruct (Exec w _ _) as [[w1 [e|v]]|p]; intros [= _ <-]; [by destruct e|done].
  - unfold queryRange. destruct (range_params r) as [e|[[??]?]]; [by intros [= _ <-]|].
    destruct (query_timeout r); [by intros [= _ <-]|]. destruct (NewRangeQuery _ _ _ _); [by intros [= _ <-]|].
    destruct (Exec w _ _) as [[w1 [e|v]]|p]; intros [= _ <-]; [by destruct e|done].
  - unfold labelValues. destruct (negb _); [by intros [= _ <-]|]. apply with_bodys_proper.
    intros bodys a. destruct (labelValues_loop bodys []); [|done]. by intros [= <-].
  - unfold series. destruct (Form r _); [by intros [= _ <-]|].
    destruct (optional_time r "start"); [by intros [= _ <-]|].
    destruct (optional_time r "end"); [by intros [= _ <-]|].
    destruct (selectors_error _); [by intros [= _ <-]|]. apply with_bodys_proper. by intros bodys a [= <-].
  - unfold dropSeries. destruct (Form r _); [by intros [= _ <-]|]. apply with_bodys_proper.
    by intros bodys a [= <-].
  - apply with_bodys_proper. by intros bodys a [= <-].
  - apply with_bodys_proper. by intros bodys a [= <-].
Qed.

Lemma instr_proper res :
  proper_result res ->
  rp_code (instr res) ∈ [200; 400; 422; 500; 503] /\
  rp_header (instr res) !! "Content-Type" = Some "application/json" /\
  match res with
  | inl e => rp_code (instr res) <> 200 /\
      rp_body (instr res) = json_Marshal (mkResponse_ statusError DNil (typ e) (err e))
  | inr d => rp_code (instr res) = 200 /\
      rp_body (instr res) = json_Marshal (mkResponse_ statusSuccess d errorNone EmptyString)
  end.
Proof.
  destruct res as [[t m]|d]; cbn [proper_result typ].
  - intros Ht. destruct t; try done; (split; [set_solver|]); (split; [apply lookup_insert_eq|done]).
  - intros Hd. destruct d; try done; (split; [set_solver|]); (split; [apply lookup_insert_eq|done]).
Qed.

Lemma instr_cors res h v : corsHeaders !! h = Some v -> rp_header (instr res) !! h = Some v.
Proof.
  intros Hh. assert (setCORS ∅ = corsHeaders) as Hset.
  { unfold setCORS. rewrite foldl_insert_list_to_map by apply NoDup_fst_map_to_list.
    by rewrite list_to_map_to_list, map_union_empty. }
  assert (h <> "Content-Type") as Hne by (intros ->; vm_compute in Hh; discriminate Hh).
  unfold instr. rewrite Hset.
  destruct res as [e|d]; [|destruct d]; cbn [rp_header respond respondError];
    rewrite ?lookup_insert_ne by done; done.
Qed.

(** C38: the replies. Whatever a handler of Register but options returns is turned
    into a reply in JSON with one of the codes 200, 400, 422, 500 and 503: it is
    200, with the data and the status success, exactly when the handler returned
    data, and otherwise it carries the type and the message of the error. The
    options handler answers every request with 204 and no body. Every reply
    carries the CORS headers. *)
Theorem replies_well_formed (m path : string) (f : handler) (w : W) (ts : list Target)
    (r : ApiRequest) (sched : list nat) :
  (m, path, f) ∈ Register ->
  match serve f w ts r sched with
  | Some (Ret (w', rp)) =>
      (forall h v, corsHeaders !! h = Some v -> rp_header rp !! h = Some v) /\
      if String.eqb m "OPTIONS" then w' = w /\ rp_code rp = 204 /\ rp_body rp = None
      else exists res, f w ts r sched = Some (Ret (w', res)) /\
        rp_code rp ∈ [200; 400; 422; 500; 503] /\
        rp_header rp !! "Content-Type" = Some "application/json" /\
        match res with
        | inl e => rp_code rp <> 200 /\
            rp_body rp = json_Marshal (mkResponse_ statusError DNil (typ e) (err e))
        | inr d => rp_code rp = 200 /\
            rp_body rp = json_Marshal (mkResponse_ statusSuccess d errorNone EmptyString)
        end
  | Some (Panic e) => f w ts r sched = Some (Panic e)
  | None => f w ts r sched = None
  end.
Proof.
  intros Hf. unfold serve. destruct (f w ts r sched) as [[[w' res]|e]|] eqn:Hr; [|done..].
  cbn [mbind outcome_bind fst snd]. split; [intros h v; apply instr_cors|].
  destruct (String.eqb_spec m "OPTIONS") as [->|Hm].
  - assert (f = options) as ->.
    { unfold Register in Hf. rewrite !elem_of_cons, elem_of_nil in Hf.
      destruct Hf as [Hf|[Hf|[Hf|[Hf|[Hf|[Hf|[Hf|[Hf|[]]]]]]]]]; by injection Hf. }
    unfold options in Hr. by injection Hr as <- <-.
  - exists res. split; [done|]. apply instr_proper. by eapply handlers_proper.
Qed.

(** The remainders of the hashes are those of three models. *)
Lemma getTargets_mod (ts : list Target) :
  rt_target <$> getTargets ts = ts /\ Forall (fun rt => 0 <= rt_mod rt < 3) (getTargets ts).
Proof.
  unfold getTargets. induction ts as [|t ts [IH1 IH2]] using rev_ind; [done|].
  rewrite foldl_app. cbn [foldl]. rewrite fmap_app, IH1. split; [done|].
  apply Forall_app. split; [done|]. constructor; [|done]. cbn [rt_mod]. by apply Z.mod_pos_bound.
Qed.

End api.

(** ** A concrete API *)

Section examples.
Import LiteralRelabel LiteralTime.
Open Scope string_scope.

(** An engine whose values are the number of points asked for; targets answer
    with their URL, which is not JSON. *)
#[local] Instance echo_proxy : ProxyLib nat.
Proof.
  refine {| new_request_ok _ := true; client_Do n url := (S n, Some url); grow n := (2 * n)%nat |}.
  abstract (intros; lia).
Defined.

#[local] Instance counting_engine : APILib nat := {|
  Query := Z;
  PValue := Z;
  NewInstantQuery _ _ := inr 1;
  NewRangeQuery _ start end_ step := inr ((end_ - start) * 1000000 / step + 1);
  Exec n q _ := Ret (S n, if Z.eqb q 7 then inl (ErrOther "disk") else inr q);
  ParseMetricSelector _ := None;
  now n := Z.of_nat n;
  unmarshal_targetVals _ := [];
  value_type _ := "scalar";
  value_json n := Some (enc_int n);
  time_json _ := None
|}.

Definition range_request (start end_ step : string) : ApiRequest :=
  mkApiRequest {["start" := [start]; "end" := [end_]; "step" := [step]; "query" := ["up"]]}
    "/api/v1/query_range" "".

Example range_queries :
  queryRange 0%nat [] (range_request "0" "60" "10") [] = Some (Ret (1%nat, inl (mkApiError errorExec "disk"))) /\
  queryRange 0%nat [] (range_request "0" "50" "10") [] = Some (Ret (1%nat, inr (DQuery 6))) /\
  queryRange 0%nat [] (range_request "0" "11001" "1") [] =
    Some (Ret (0%nat, bad_data "exceeded maximum resolution of 11,000 points per timeseries. Try decreasing the query resolution (?step=XX)")).
Proof. vm_compute. done. Qed.

(** The limit on the number of points does not hold for ranges longer than
    292 years. For the range from -9223372036 to 9223372036 seconds the
    difference of the times overflows to a negative duration, the quotient is
    not above 11000, and the request for a point per second, which is more than
    18 billion points, is passed to the engine. *)
Theorem range_limit_overflows :
  let r := range_request "-9223372036" "9223372036" "1" in
  exists start end_ step, range_params r = inr (start, end_, step) /\
    Sub end_ start < 0 /\ (end_ - start) * 1000000 / step + 1 = 18446744073 /\
    queryRange 0%nat [] r [] = Some (Ret (1%nat, inr (DQuery 18446744073))).
Proof.
  exists (-9223372036000), 9223372036000, Second. split_ands; vm_compute; reflexivity.
Qed.

Lemma replies_well_formed_witness :
  exists rp, serve queryRange 0%nat [] (range_request "0" "60" "10") [] = Some (Ret (1%nat, rp)) /\
    rp_code rp ∈ [200; 400; 422; 500; 503] /\ rp_code rp <> 200 /\
    rp_body rp = json_Marshal (mkResponse_ statusError DNil errorExec "disk").
Proof.
  pose proof (replies_well_formed "GET" "/query_range" queryRange 0%nat []
    (range_request "0" "60" "10") []) as Hr.
  assert (("GET", "/query_range", queryRange) ∈ Register) as Hin
    by (unfold Register; rewrite !elem_of_cons; tauto).
  specialize (Hr Hin).
  destruct (serve queryRange 0%nat [] (range_request "0" "60" "10") []) as [[[w rp]|e]|] eqn:Hs;
    [|vm_compute in Hs; discriminate Hs..].
  destruct Hr as (_&res&Hres&Hcode&_&Hrest). vm_compute in Hres. injection Hres as <- <-.
  destruct Hrest as [Hne Hb]. exists rp. split; [done|]. split; [done|]. split; [done|].
  exact Hb.
Defined.

End examples.
