(* ===== verification/Federation.v ===== *)
(** * Proxies of proxies ([web/api/v1/api.go], [web/api/v1/types.go])

    A target of the job [allprometheus] may itself be this program: what one API
    answers, the handlers of another decode. This file composes the encoding of
    the responses, the printer, the parser and the decoders: for each kind of
    answer the other end gets the values back. *)
From S2P Require Import Prelude Model MetricPkg Relabel Queue Target Json ApiParse Types Proxy Api.

Open Scope Z_scope.

Section federation.
Context {W : Type} `{RelabelLib, MapOrder, StrconvLib, TimeLib, !ProxyLib W, !APILib W}.

(** The body of the reply to a result of a handler. *)
Definition body_of (result : api_result) : option string := rp_body (instr result).

Definition answer_json (d : json) : json := JObj [("status", JStr "success"); ("data", d)].
Definition error_json (t : errorType) (msg : string) : json :=
  JObj ([("status", JStr "error"); ("errorType", JStr (errorType_String t))] ++
    (if String.eqb msg EmptyString then [] else [("error", JStr msg)])).

Lemma body_of_data d j :
  is_DNil d = false -> enc_data d = Some j -> body_of (inr d) = Some (print_json (answer_json j)).
Proof.
  intros Hd He. assert (body_of (inr d) = json_Marshal (mkResponse_ statusSuccess d errorNone EmptyString)) as ->
    by (by destruct d).
  unfold json_Marshal, enc_response. cbn [rs_data]. rewrite He. cbn [mbind option_bind]. by rewrite Hd.
Qed.

Lemma body_of_error e :
  typ e <> errorNone -> body_of (inl e) = Some (print_json (error_json (typ e) (err e))).
Proof.
  intros Ht. destruct e as [t m]. unfold body_of, json_Marshal, enc_response, error_json. simpl in *.
  destruct t; try done; simpl; by destruct (String.eqb m EmptyString).
Qed.

(** The structs that are decoded from an answer. *)
Lemma dec_labalVals_answer v d :
  dec_labalVals v (answer_json d) = mkLabalVals "success" (dec_slice EmptyString dec_string (lv_Data v) d).
Proof. reflexivity. Qed.
Lemma dec_seriesVals_answer v d :
  dec_seriesVals v (answer_json d) = mkSeriesVals (dec_slice None dec_map (sv_Data v) d) "success".
Proof. reflexivity. Qed.
Lemma dec_seriesDelVals_answer v n :
  dec_seriesDelVals v (answer_json (JObj [("numDeleted", n)])) = mkSeriesDelVals "success" (dec_int (sd_NumDeleted v) n).
Proof. reflexivity. Qed.
Lemma dec_alertManagerVals_answer v d :
  dec_alertManagerVals v (answer_json (JObj [("activeAlertmanagers", d)])) =
    mkAlertManagerVals (mkAlertmanagerDiscovery
      (dec_slice None (dec_ptr (mkAlertmanagerTarget EmptyString) dec_AlertmanagerTarget)
        (ActiveAlertmanagers (av_Data v)) d)) "success".
Proof. reflexivity. Qed.
(** Text that JSON keeps: values, metrics, targets. *)
Definition utf8_values (l : list LabelValue) : Prop := Forall (fun v => utf8_valid v = true) l.
Definition utf8_metrics (l : list (option Metric)) : Prop :=
  Forall (fun m => match m with Some m => utf8_metric m = true | None => True end) l.
Definition utf8_urls (l : list (option AlertmanagerTarget)) : Prop :=
  Forall (fun t => match t with Some t => utf8_valid (am_URL t) = true | None => True end) l.

Lemma answer_json_ok j :
  wf_json j = true -> utf8_json j = true ->
  wf_json (answer_json j) = true /\ utf8_json (answer_json j) = true.
Proof. intros Hw Hu. simpl. by rewrite Hw, Hu. Qed.

Lemma JArr_ok {A} (enc : A -> json) (P : A -> Prop) l :
  Forall P l -> (forall x, P x -> wf_json (enc x) = true /\ utf8_json (enc x) = true) ->
  wf_json (JArr (enc <$> l)) = true /\ utf8_json (JArr (enc <$> l)) = true.
Proof.
  intros Hl He. cbn [wf_json utf8_json]. rewrite !forallb_forall.
  split; intros j (x&->&Hx)%list_elem_of_In%list_elem_of_fmap; rewrite Forall_forall in Hl; by apply He, Hl.
Qed.

Lemma enc_appended_ok {A} (enc : A -> json) (P : A -> Prop) l :
  Forall P l -> (forall x, P x -> wf_json (enc x) = true /\ utf8_json (enc x) = true) ->
  wf_json (enc_appended enc l) = true /\ utf8_json (enc_appended enc l) = true.
Proof. destruct l as [|x l]; [done|]. intros Hl He. exact (JArr_ok enc P (x :: l) Hl He). Qed.

(** A slice of values that are decoded from what they are encoded to. *)
Lemma dec_slice_enc {A B} (zero : B) (d : B -> json -> B) (enc : A -> json) (f : A -> B) l :
  (forall x, d zero (enc x) = f x) -> elements (dec_slice zero d None (JArr (enc <$> l))) = f <$> l.
Proof. intros Hd. rewrite dec_slice_fresh, <- list_fmap_compose. apply list_fmap_ext. intros; apply Hd. Qed.

Lemma dec_appended_enc {A B} (zero : B) (d : B -> json -> B) (enc : A -> json) (f : A -> B) l :
  (forall x, d zero (enc x) = f x) -> elements (dec_slice zero d None (enc_appended enc l)) = f <$> l.
Proof. destruct l as [|x l]; [done|]. intros Hd. exact (dec_slice_enc zero d enc f (x :: l) Hd). Qed.

Lemma enc_metric_ok (m : option Metric) :
  match m with Some m => utf8_metric m = true | None => True end ->
  wf_json (enc_map m) = true /\ utf8_json (enc_map m) = true.
Proof. intros Hm. split; [apply enc_map_wf|]. destruct m; [by apply enc_map_utf8|done]. Qed.

Lemma enc_url_ok t :
  match t with Some t => utf8_valid (am_URL t) = true | None => True end ->
  wf_json (enc_AlertmanagerTarget t) = true /\ utf8_json (enc_AlertmanagerTarget t) = true.
Proof. destruct t as [t|]; [|done]. intros Ht. simpl. by rewrite Ht. Qed.

Lemma dec_metric_enc (m : option Metric) : dec_map None (enc_map m) = m.
Proof. destruct m as [m|]; [by apply enc_map_dec|done]. Qed.

Lemma dec_url_enc t : dec_ptr (mkAlertmanagerTarget EmptyString) dec_AlertmanagerTarget None (enc_AlertmanagerTarget t) = t.
Proof. by destruct t as [[u]|]. Qed.

(** What the four decoders make of a body. *)
Record decoded := mkDecoded {
  d_values : option (list LabelValue);
  d_metrics : list (option Metric);
  d_deleted : Z;
  d_alertmanagers : list (option AlertmanagerTarget)
}.
Definition decode_body (body : string) : decoded := mkDecoded
  (label_values_of body) (elements (sv_Data (unmarshal_seriesVals body))) (deleted_of body)
  (elements (ActiveAlertmanagers (av_Data (unmarshal_alertManagerVals body)))).

Lemma decode_print j :
  wf_json j = true -> utf8_json j = true ->
  decode_body (print_json j) = mkDecoded
    ((fun v => elements (lv_Data v)) <$> dec_ptr (mkLabalVals EmptyString None) dec_labalVals None j)
    (elements (sv_Data (dec_seriesVals (mkSeriesVals None EmptyString) j)))
    (sd_NumDeleted (dec_seriesDelVals (mkSeriesDelVals EmptyString 0) j))
    (elements (ActiveAlertmanagers (av_Data
      (dec_alertManagerVals (mkAlertManagerVals (mkAlertmanagerDiscovery None) EmptyString) j)))).
Proof.
  intros Hw Hu. unfold decode_body, label_values_of, deleted_of, unmarshal_labalVals, unmarshal_seriesVals,
    unmarshal_seriesDelVals, unmarshal_alertManagerVals. by rewrite !Unmarshal_print.
Qed.

Lemma values_decoded l : utf8_values l ->
  exists b, body_of (inr (DLabelValues l)) = Some b /\ d_values (decode_body b) = Some l.
Proof.
  intros Hl. eexists. split; [by apply body_of_data|].
  destruct (enc_appended_ok JStr _ l Hl) as [Hw Hu]; [by intros x|].
  destruct (answer_json_ok _ Hw Hu) as [Hw' Hu'].
  rewrite decode_print by done. cbn [d_values dec_ptr answer_json]. fold (answer_json (enc_appended JStr l)).
  cbn [fmap option_fmap option_map]. rewrite dec_labalVals_answer. cbn [lv_Data default]. f_equal.
  rewrite (dec_appended_enc _ _ JStr id) by done. apply list_fmap_id.
Qed.

Lemma error_decoded e : typ e <> errorNone -> utf8_valid (err e) = true ->
  exists b, body_of (inl e) = Some b /\ decode_body b = mkDecoded (Some []) [] 0 [].
Proof.
  destruct e as [t m]. intros Ht Hm. eexists. split; [by apply body_of_error|]. cbn [typ err] in *.
  assert (wf_json (error_json t m) = true /\ utf8_json (error_json t m) = true) as [Hw Hu].
  { unfold error_json. destruct (String.eqb m EmptyString); simpl; [by destruct t|].
    rewrite Hm. by destruct t. }
  rewrite decode_print by done. unfold error_json. by destruct (String.eqb m EmptyString).
Qed.

(** C33: an answer is decoded to what was answered. For any values, metrics (nil
    ones included), alertmanagers and count whose text is UTF-8, the body of the
    reply of the handler that returns them exists, and the decoder of the same
    handler in another API gets exactly them back, in order; the nil slices of
    empty answers included. The body of an error, with any UTF-8 message, decodes
    as an empty answer, so that the error of a target is not noticed. *)
Theorem federation_roundtrip :
  (forall l, utf8_values l ->
     exists b, body_of (inr (DLabelValues l)) = Some b /\ d_values (decode_body b) = Some l) /\
  (forall l, utf8_metrics l ->
     exists b, body_of (inr (DMetrics l)) = Some b /\ d_metrics (decode_body b) = l) /\
  (forall n, in_int64 n ->
     exists b, body_of (inr (DNumDeleted n)) = Some b /\ d_deleted (decode_body b) = n) /\
  (forall l, utf8_urls l ->
     exists b, body_of (inr (DAlertmanagers l)) = Some b /\ d_alertmanagers (decode_body b) = l) /\
  (forall e, typ e <> errorNone -> utf8_valid (err e) = true ->
     exists b, body_of (inl e) = Some b /\ decode_body b = mkDecoded (Some []) [] 0 []).
Proof.
  split_ands.
  - exact values_decoded.
  - intros l Hl. eexists. split; [by apply body_of_data|].
    destruct (JArr_ok enc_map _ l Hl enc_metric_ok) as [Hw Hu]. destruct (answer_json_ok _ Hw Hu) as [Hw' Hu'].
    rewrite decode_print by done. cbn [d_metrics]. rewrite dec_seriesVals_answer. cbn [sv_Data].
    rewrite (dec_slice_enc _ _ enc_map id) by apply dec_metric_enc. apply list_fmap_id.
  - intros n Hn. eexists. split; [by apply body_of_data|].
    assert (wf_json (enc_int n) = true) as Hw by apply pretty_Z_ok.
    destruct (answer_json_ok (JObj [("numDeleted", enc_int n)])) as [Hw' Hu']; [simpl; by rewrite pretty_Z_ok|done|].
    rewrite decode_print by done. cbn [d_deleted]. rewrite dec_seriesDelVals_answer. cbn [sd_NumDeleted enc_int dec_int].
    by rewrite ParseInt_pretty.
  - intros l Hl. eexists. split; [by apply body_of_data|].
    destruct (enc_appended_ok enc_AlertmanagerTarget _ l Hl enc_url_ok) as [Hw Hu].
    destruct (answer_json_ok (JObj [("activeAlertmanagers", enc_appended enc_AlertmanagerTarget l)])) as [Hw' Hu'];
      [simpl; by rewrite Hw|simpl; by rewrite Hu|].
    rewrite decode_print by done. cbn [d_alertmanagers]. rewrite dec_alertManagerVals_answer.
    cbn [av_Data ActiveAlertmanagers].
    rewrite (dec_appended_enc _ _ enc_AlertmanagerTarget id) by apply dec_url_enc. apply list_fmap_id.
  - exact error_decoded.
Qed.

(** The body a target answers with: the values [l], or an error. *)
Definition answers_values (b : string) (l : list LabelValue) : Prop :=
  (body_of (inr (DLabelValues l)) = Some b /\ utf8_values l) \/
  (l = [] /\ exists e, body_of (inl e) = Some b /\ typ e <> errorNone /\ utf8_valid (err e) = true).

Lemma answers_values_decoded b l : answers_values b l -> label_values_of b = Some l /\ utf8_values l.
Proof.
  intros [[Hb Hl]|[-> (e&Hb&Ht&He)]].
  - destruct (values_decoded l Hl) as (b'&Hb'&Hd). rewrite Hb in Hb'. by injection Hb' as <-.
  - split; [|constructor]. destruct (error_decoded e Ht He) as (b'&Hb'&Hd).
    rewrite Hb in Hb'. injection Hb' as <-. by injection Hd.
Qed.

(** The values of the bodies that [proxyReq] collected. *)
Lemma labelValues_answers (w : W) (ts : list Target) (r : ApiRequest) (sched : list nat)
    w' bodys ls :
  IsValid (rq_name r) = true ->
  proxyReq w (prom_urls ts r) sched = Some (Ret (w', bodys)) ->
  Forall2 answers_values bodys ls ->
  exists l body, labelValues w ts r sched = Some (Ret (w', inr (DLabelValues l))) /\
    StronglySorted String.le l /\ NoDup l /\ (forall x, x ∈ l <-> exists l', l' ∈ ls /\ x ∈ l') /\
    body_of (inr (DLabelValues l)) = Some body /\ answers_values body l /\
    d_values (decode_body body) = Some l.
Proof.
  intros Hn Hp Hans.
  assert (Forall2 (fun b l => label_values_of b = Some l) bodys ls) as Hdec
    by (eapply Forall2_impl; [exact Hans|]; intros; by apply answers_values_decoded).
  assert (labelValues_loop bodys [] = Ret (concat ls)) as Hloop.
  { pose proof (labelValues_loop_spec bodys []) as Hl. destruct (labelValues_loop bodys []) as [l|p].
    - destruct Hl as (ls'&Hf&->). assert (ls' = ls) as ->; [|done].
      apply list_eq_Forall2. apply Forall2_same_length_lookup_2.
      { by rewrite <- (Forall2_length _ _ _ Hf), <- (Forall2_length _ _ _ Hdec). }
      intros i x y Hx Hy. destruct (Forall2_lookup_r _ _ _ _ _ Hf Hx) as (b&Hb&Hbx).
      pose proof (Forall2_lookup_lr _ _ _ _ _ _ Hdec Hb Hy). congruence.
    - destruct Hl as (_&b&[i Hb]%list_elem_of_lookup&Hnone).
      destruct (Forall2_lookup_l _ _ _ _ _ Hdec Hb) as (l&_&Hl). congruence. }
  set (l := sort_values (removeDuplicate (concat ls))).
  destruct (removeDuplicate_spec (concat ls)) as [Hnd Hel].
  destruct (sort_values_spec (removeDuplicate (concat ls))) as [Hs Hperm]. fold l in Hs, Hperm.
  assert (forall x, x ∈ l <-> exists l', l' ∈ ls /\ x ∈ l') as Hin.
  { intros x. rewrite Hperm, Hel, list_elem_of_In, in_concat. setoid_rewrite <- list_elem_of_In. done. }
  assert (utf8_values l) as Hu.
  { apply Forall_forall. intros x (l'&[i Hi]%list_elem_of_lookup&Hx)%Hin.
    destruct (Forall2_lookup_r _ _ _ _ _ Hans Hi) as (b&_&[_ Hl]%answers_values_decoded).
    unfold utf8_values in Hl. rewrite Forall_forall in Hl. by apply Hl. }
  destruct (values_decoded l Hu) as (body&Hb&Hd). exists l, body. split_ands; try done.
  - unfold labelValues. rewrite LabelNameRE_IsValid, Hn. cbn [negb].
    apply (with_bodys_ret _ _ _ _ _ _ _ _ Hp). by rewrite Hloop.
  - by rewrite Hperm.
  - by left.
Qed.

(** The bodies of targets that hold the values [vals]. *)
Lemma answered_values urls (vals : string -> list LabelValue) bodys :
  (forall url w0 w1 b, url ∈ urls -> client_Do w0 url = (w1, Some b) -> answers_values b (vals url)) ->
  Forall (answered urls) bodys ->
  exists ls, Forall2 answers_values bodys ls /\ (forall l, l ∈ ls -> exists url, url ∈ urls /\ l = vals url).
Proof.
  intros Hvals. induction 1 as [|b bodys (url&w0&Hurl&Hdo) _ (ls&Hls&Hin)].
  { exists []. split; [constructor|by intros l ?%elem_of_nil]. }
  exists (vals url :: ls). split.
  - constructor; [|done]. destruct (client_Do w0 url) as [w1 o] eqn:Hd. simpl in Hdo. subst o.
    by eapply Hvals.
  - intros l [->|Hl]%elem_of_cons; [by exists url|by apply Hin].
Qed.

Lemma answers_values_inj b l l' : answers_values b l -> answers_values b l' -> l = l'.
Proof. intros [Hl _]%answers_values_decoded [Hl' _]%answers_values_decoded. congruence. Qed.

Lemma elem_of_permuted {A} (xs : list A) order x :
  order ≡ₚ seq 0 (length xs) -> x ∈ omap (fun i => xs !! i) order <-> x ∈ xs.
Proof.
  intros Ho. rewrite list_elem_of_omap. split.
  - intros (i&_&Hi). by eapply list_elem_of_lookup_2.
  - intros [i Hi]%list_elem_of_lookup. exists i. split; [|done]. rewrite Ho. apply elem_of_seq.
    apply lookup_lt_Some in Hi. lia.
Qed.

(** C34: label values, of a valid name, through a tree of proxies. Let every target of the request
    be itself an API that answers, whenever it is asked, with the label values it
    holds, or with an error (then it holds none). Under any schedule of
    proxyReq that completes, the values returned are increasing, without
    duplicates, and each is held by some target; they are all the values that
    the targets hold when no target's answer was lost in the race for the slice,
    in particular when the goroutines follow each other, in any order. The reply
    has a body, from which an API that asked this one gets exactly this list. *)
Theorem federated_label_values (w : W) (ts : list Target) (r : ApiRequest)
    (vals : string -> list LabelValue) :
  IsValid (rq_name r) = true ->
  (forall url w0 w1 b, url ∈ prom_urls ts r -> client_Do w0 url = (w1, Some b) ->
     answers_values b (vals url)) ->
  (forall sched w' bodys, proxyReq w (prom_urls ts r) sched = Some (Ret (w', bodys)) ->
   exists l body, labelValues w ts r sched = Some (Ret (w', inr (DLabelValues l))) /\
    StronglySorted String.le l /\ NoDup l /\
    (forall x, x ∈ l -> exists url, url ∈ prom_urls ts r /\ x ∈ vals url) /\
    ((forall url, url ∈ prom_urls ts r -> exists b, b ∈ bodys /\ answers_values b (vals url)) ->
      forall x, x ∈ l <-> exists url, url ∈ prom_urls ts r /\ x ∈ vals url) /\
    body_of (inr (DLabelValues l)) = Some body /\ answers_values body l /\
    d_values (decode_body body) = Some l) /\
  (forall order w' bodys, order ≡ₚ seq 0 (length (prom_urls ts r)) ->
   fetch_all w (omap (fun i => prom_urls ts r !! i) order) = Ret (w', bodys) ->
   exists l, labelValues w ts r (one_by_one order) = Some (Ret (w', inr (DLabelValues l))) /\
    forall x, x ∈ l <-> exists url, url ∈ prom_urls ts r /\ x ∈ vals url).
Proof.
  intros Hn Hvals. split.
  - intros sched w' bodys Hp. destruct (proxyReq_answers _ _ _ _ _ Hp) as (_&_&Hb).
    destruct (answered_values _ _ _ Hvals Hb) as (ls&Hls&Hin).
    destruct (labelValues_answers w ts r sched w' bodys ls Hn Hp Hls) as (l&body&?&?&?&Hl&?&?&?).
    exists l, body. split_ands; try done.
    { intros x (l'&Hl'&Hx)%Hl. destruct (Hin l' Hl') as (url&?&->). by exists url. }
    intros Hall x. rewrite Hl. split.
    + intros (l'&Hl'&Hx). destruct (Hin l' Hl') as (url&?&->). by exists url.
    + intros (url&Hurl&Hx). destruct (Hall url Hurl) as (b&[i Hi]%list_elem_of_lookup&Hb').
      destruct (Forall2_lookup_l _ _ _ _ _ Hls Hi) as (l'&Hl'&Hans). exists l'.
      split; [by eapply list_elem_of_lookup_2|]. by rewrite (answers_values_inj b l' (vals url)).
  - intros order w' bodys Ho Hf. pose proof (fetch_all_answers _ _ _ _ Hf) as Hbs.
    pose proof (proxyReq_one_by_one w (prom_urls ts r) order Ho) as Hp. rewrite Hf in Hp.
    assert (Forall2 answers_values bodys (vals <$> omap (fun i => prom_urls ts r !! i) order)) as Hls.
    { apply Forall2_same_length_lookup_2; [by rewrite length_fmap, (Forall2_length _ _ _ Hbs)|].
      intros i b l Hb Hl. rewrite list_lookup_fmap in Hl. apply fmap_Some in Hl as (url&Hurl&->).
      destruct (Forall2_lookup_lr _ _ _ _ _ _ Hbs Hurl Hb) as (w0&w1&Hd).
      eapply Hvals; [|done]. eapply elem_of_permuted; [done|by eapply list_elem_of_lookup_2]. }
    destruct (labelValues_answers w ts r (one_by_one order) w' bodys _ Hn Hp Hls) as (l&_&Hl&_&_&Hx&_).
    exists l. split; [done|]. intros x. rewrite Hx. split.
    + intros (l'&(url&->&Hurl)%list_elem_of_fmap&Hxl). exists url.
      split; [by eapply elem_of_permuted|done].
    + intros (url&Hurl&Hxl). exists (vals url). split; [|done]. apply list_elem_of_fmap.
      exists url. split; [done|]. by apply elem_of_permuted.
Qed.

End federation.

(** ** Two proxies under a third *)

Section examples.
Import LiteralRelabel LiteralTime.
Open Scope string_scope.

#[local] Instance no_queries {W : Type} : APILib W := {|
  Query := unit;
  PValue := unit;
  NewInstantQuery _ _ := inl "no engine";
  NewRangeQuery _ _ _ _ := inl "no engine";
  Exec w _ _ := Ret (w, inl (ErrOther "no engine"));
  ParseMetricSelector _ := None;
  now _ := 0;
  unmarshal_targetVals _ := [];
  value_type _ := "none";
  value_json _ := None;
  time_json _ := None
|}.

Definition prom_target (instance : string) : Target :=
  NewTarget (list_to_map [("job", "allprometheus"); ("instance", instance)]) ∅ ∅.

(** One answers with values, one of them with characters that are escaped, the
    other with an error. *)
Definition site_values : list string := ["b<c"; "a" +:+ str1 dquote].
Definition site_bodies : list string :=
  default [] (mapM id [body_of (W := unit) (inr (DLabelValues site_values));
                       body_of (W := unit) (inl (mkApiError errorInternal "disk"))]).

Example site_body : site_bodies !! 1%nat = Some ("{" +:+ quote "status" +:+ ":" +:+ quote "error" +:+ "," +:+
  quote "errorType" +:+ ":" +:+ quote "internal" +:+ "," +:+ quote "error" +:+ ":" +:+ quote "disk" +:+ "}").
Proof. vm_compute. reflexivity. Qed.

Definition site_url (host : string) : string := "http://" +:+ host +:+ "/api/v1/label/site/values".

(** The first target has the values, every other one fails. *)
#[local] Instance site_proxy : ProxyLib unit.
Proof.
  refine {| new_request_ok _ := true; grow n := n;
    client_Do _ url := (tt, Some (default EmptyString
      (site_bodies !! (if String.eqb url (site_url "x:1") then 0 else 1)%nat))) |}.
  abstract (intros; lia).
Defined.

Definition site_held (url : string) : list LabelValue :=
  if String.eqb url (site_url "x:1") then site_values else [].

Lemma federated_label_values_witness :
  let ts := [prom_target "y:1"; prom_target "x:1"] in
  let r := mkApiRequest ∅ "/api/v1/label/site/values" "site" in
  prom_urls ts r = [site_url "y:1"; site_url "x:1"] /\
  exists l, labelValues tt ts r (one_by_one [1; 0]%nat) = Some (Ret (tt, inr (DLabelValues l))) /\
    l = ["a" +:+ str1 dquote; "b<c"].
Proof.
  intros ts r. split; [vm_compute; reflexivity|].
  assert (forall url w0 w1 b, url ∈ prom_urls ts r -> client_Do w0 url = (w1, Some b) ->
    answers_values (W := unit) b (site_held url)) as Hheld.
  { intros url w0 w1 b _ Hdo. injection Hdo as _ <-. unfold site_held.
    destruct (String.eqb url (site_url "x:1")).
    - left. split; [vm_compute; reflexivity|repeat constructor].
    - right. split; [reflexivity|]. exists (mkApiError errorInternal "disk").
      split; [vm_compute; reflexivity|]. split; [discriminate|reflexivity]. }
  destruct (federated_label_values tt ts r site_held eq_refl Hheld) as (_&Hseq).
  destruct (Hseq [1; 0]%nat tt site_bodies) as (l&Hl&_).
  - apply perm_swap.
  - vm_compute. reflexivity.
  - exists l. split; [exact Hl|]. vm_compute in Hl. by injection Hl as <-.
Defined.

End examples.
