(* ===== verification/Engine.v ===== *)
(** * The queries of the API over the remotes (vendored [promql/engine.go], [promql/ast.go])

    The fork of the PromQL engine that [Main] connects to the fan-in querier: the
    expressions, the preparation of a query, which asks the fan-in for the series
    of every selector, the evaluation of the selectors, and the loop of a range
    query. The parser, the operators and functions, and the formats of numbers
    stay parameters. [engine_api] is the engine as the API uses it. *)
From S2P Require Import Prelude Model MetricPkg Iterator Relabel Target Json ApiParse Types Answer Client Read Fanin FaninRace FaninQuery Querier Proxy Api.
Import Matcher.

Open Scope Z_scope.

#[local] Arguments String.append : simpl nomatch.

(** ** Values ([common/model/value.go]) *)

Inductive ValueType := ValNone | ValScalar | ValVector | ValMatrix | ValString.

#[export] Instance ValueType_eq_dec : EqDecision ValueType.
Proof. solve_decision. Defined.

Definition ValueType_String (t : ValueType) : string :=
  match t with
  | ValNone => "<ValNone>"
  | ValScalar => "scalar"
  | ValVector => "vector"
  | ValMatrix => "matrix"
  | ValString => "string"
  end.

(** [model.Value]; the engine turns its own vectors and matrices into those of
    the model. *)
Inductive PromValue :=
  | PromScalar (v : SampleValue) (ts : Time)
  | PromVector (l : list Sample)
  | PromMatrix (m : Matrix)
  | PromString (s : string) (ts : Time).

Definition PromValue_Type (v : PromValue) : ValueType :=
  match v with
  | PromScalar _ _ => ValScalar
  | PromVector _ => ValVector
  | PromMatrix _ => ValMatrix
  | PromString _ _ => ValString
  end.

(** ** Expressions ([ast.go]) *)

(** What a querier returns for a selector. *)
Abbreviation SeriesIterators := (list (sampleStreamIterator + mergeIterator sampleStreamIterator)).

Section expressions.
Context `{RegexpLib}.

Record VectorSelector := mkVectorSelector {
  vs_Name : string;
  vs_Offset : Duration;
  vs_LabelMatchers : list LabelMatcher;
  vs_iterators : SeriesIterators
}.

Record MatrixSelector := mkMatrixSelector {
  mx_Name : string;
  mx_Range : Duration;
  mx_Offset : Duration;
  mx_LabelMatchers : list LabelMatcher;
  mx_iterators : SeriesIterators
}.

Record VectorMatching := mkVectorMatching {
  Card : Z;
  MatchingLabels : list LabelName;
  On : bool;
  Include : list LabelName
}.

(** [Function]: its name and its type; what it does is a parameter. *)
Record Function := mkFunction { fn_Name : string; ReturnType : ValueType }.

(** An operator is the number of its token. *)
Inductive Expr :=
  | AggregateExpr (Op : Z) (e : Expr) (Param : option Expr) (Grouping : list LabelName)
      (Without KeepCommonLabels : bool)
  | BinaryExpr (Op : Z) (LHS RHS : Expr) (Matching : option VectorMatching) (ReturnBool : bool)
  | Call (Func : Function) (Args : list Expr)
  | EMatrixSelector (n : MatrixSelector)
  | NumberLiteral (Val : SampleValue)
  | ParenExpr (e : Expr)
  | StringLiteral (Val : string)
  | UnaryExpr (Op : Z) (e : Expr)
  | EVectorSelector (n : VectorSelector).

Fixpoint Expr_Type (e : Expr) : ValueType :=
  match e with
  | AggregateExpr _ _ _ _ _ _ => ValVector
  | Call f _ => ReturnType f
  | EMatrixSelector _ => ValMatrix
  | NumberLiteral _ => ValScalar
  | ParenExpr e => Expr_Type e
  | StringLiteral _ => ValString
  | UnaryExpr _ e => Expr_Type e
  | EVectorSelector _ => ValVector
  | BinaryExpr _ lhs rhs _ _ =>
      if bool_decide (Expr_Type lhs = ValScalar) && bool_decide (Expr_Type rhs = ValScalar) then ValScalar
      else ValVector
  end.

(** A visitor may store iterators in the node it is given; the rest of the
    expression is not changed. *)
Definition store_iterators (its : option SeriesIterators) (e : Expr) : Expr :=
  match its, e with
  | Some its, EVectorSelector n =>
      EVectorSelector (mkVectorSelector (vs_Name n) (vs_Offset n) (vs_LabelMatchers n) its)
  | Some its, EMatrixSelector n =>
      EMatrixSelector (mkMatrixSelector (mx_Name n) (mx_Range n) (mx_Offset n) (mx_LabelMatchers n) its)
  | _, e => e
  end.

(** [Inspect] with a visitor that threads the variables of its closure: the
    children of a node are visited when it returns true. The parameter of an
    aggregation is not a child. *)
Section inspect.
Context {S : Type}.
Variable f : Expr -> S -> outcome (bool * option SeriesIterators * S).

Fixpoint Inspect (e : Expr) (st : S) : outcome (Expr * S) :=
  v ← f e st;
  let '(descend, its, st) := v in
  if negb descend then Ret (store_iterators its e, st)
  else
    match e with
    | AggregateExpr op x param grouping without keep =>
        r ← Inspect x st; Ret (AggregateExpr op r.1 param grouping without keep, r.2)
    | BinaryExpr op lhs rhs matching bool_ =>
        l ← Inspect lhs st; r ← Inspect rhs l.2; Ret (BinaryExpr op l.1 r.1 matching bool_, r.2)
    | Call fn args =>
        r ← (fix walk (args : list Expr) (st : S) : outcome (list Expr * S) :=
               match args with
               | [] => Ret ([], st)
               | a :: args => r ← Inspect a st; rs ← walk args r.2; Ret (r.1 :: rs.1, rs.2)
               end) args st;
        Ret (Call fn r.1, r.2)
    | ParenExpr x => r ← Inspect x st; Ret (ParenExpr r.1, r.2)
    | UnaryExpr op x => r ← Inspect x st; Ret (UnaryExpr op r.1, r.2)
    | EMatrixSelector _ | NumberLiteral _ | StringLiteral _ | EVectorSelector _ =>
        Ret (store_iterators its e, st)
    end.

(** The children of a call, in order. *)
Fixpoint Inspect_list (args : list Expr) (st : S) : outcome (list Expr * S) :=
  match args with
  | [] => Ret ([], st)
  | a :: args => r ← Inspect a st; rs ← Inspect_list args r.2; Ret (r.1 :: rs.1, rs.2)
  end.

(** A selector, for a visitor that stores an answer. *)
Lemma Inspect_vector n st descend its st' :
  f (EVectorSelector n) st = Ret (descend, its, st') ->
  Inspect (EVectorSelector n) st = Ret (store_iterators its (EVectorSelector n), st').
Proof. intros Hf. cbn. rewrite Hf. by destruct descend. Qed.
Lemma Inspect_matrix n st descend its st' :
  f (EMatrixSelector n) st = Ret (descend, its, st') ->
  Inspect (EMatrixSelector n) st = Ret (store_iterators its (EMatrixSelector n), st').
Proof. intros Hf. cbn. rewrite Hf. by destruct descend. Qed.
End inspect.

(** [EvalStmt] *)
Record EvalStmt := mkEvalStmt {
  es_Expr : Expr;
  es_Start : Time;
  es_End : Time;
  es_Interval : Duration
}.

End expressions.

(** ** The engine ([engine.go]) *)

Section engine.
Context `{RegexpLib, StrconvLib, MapOrder}.
Context {W : Type} `{HTTPLib W}.

(** What a query meets: its context; whether it gets past the gate, or its
    context is done before; the state of the outside world in which the query
    of the [n]-th selector starts, and how its goroutines interleave;
    whether the evaluation of the [n]-th point is interrupted; after how many
    points the context is done, and with which error; and whether it is done at
    the end. [qe_node] evaluates the operators and the calls of functions. *)
Record query_env := mkQueryEnv {
  qe_ctx : Context;
  qe_gate : option query_error;
  qe_world : nat -> W;
  qe_sched : nat -> list nat;
  qe_interrupt : nat -> option query_error;
  qe_budget : nat;
  qe_done : query_error;
  qe_end : option query_error;
  qe_node : Expr -> Time -> query_error + PromValue
}.

Variable env : query_env.
Variable StalenessDelta : Duration.

(** The querier of a statement, whose remotes have gone on to another state. *)
Definition at_world (w : W) (q : local_Querier (W := W)) : local_Querier (W := W) :=
  match q with NoopQuerier => NoopQuerier | RemoteQuerier _ q => RemoteQuerier w q end.
Definition querier_at (w : W) (q : querier (local_Querier (W := W))) : querier (local_Querier (W := W)) :=
  mkQuerier (at_world w (qlocal q)) (at_world w <$> qremotes q).

(** *** Preparation *)

(** The visitor of [populateIterators]; the variables of its closure are the
    number of queries so far and [queryErr]. *)
Definition populate_visit (q : querier local_Querier) (s : EvalStmt) (e : Expr) (st : nat * option error)
    : outcome (bool * option SeriesIterators * (nat * option error)) :=
  let '(i, queryErr) := st in
  let q := querier_at (qe_world env i) q in
  let sched := qe_sched env i in
  match e with
  | EVectorSelector n =>
      r ← (if es_Start s =? es_End s then
             fanin_QueryInstant q (qe_ctx env) (Add (es_Start s) (int64 (- vs_Offset n))) StalenessDelta
               (vs_LabelMatchers n) sched
           else
             fanin_QueryRange q (qe_ctx env)
               (Add (es_Start s) (int64 (int64 (- vs_Offset n) - StalenessDelta)))
               (Add (es_End s) (int64 (- vs_Offset n))) (vs_LabelMatchers n) sched);
      Ret (bool_decide (r.2 = None), Some r.1, (S i, r.2))
  | EMatrixSelector n =>
      r ← fanin_QueryRange q (qe_ctx env)
            (Add (es_Start s) (int64 (int64 (- mx_Offset n) - mx_Range n)))
            (Add (es_End s) (int64 (- mx_Offset n))) (mx_LabelMatchers n) sched;
      Ret (bool_decide (r.2 = None), Some r.1, (S i, r.2))
  | _ => Ret (true, None, (i, queryErr))
  end.

(** The expression with the iterators of its selectors, and [queryErr]. *)
Definition populateIterators (q : querier local_Querier) (s : EvalStmt) : outcome (Expr * option error) :=
  r ← Inspect (populate_visit q s) (es_Expr s) (0%nat, None);
  Ret (r.1, r.2.2).

(** *** Evaluation *)

Abbreviation AnyIterator := (sampleStreamIterator + mergeIterator sampleStreamIterator)%type.

(** The methods of the iterators a query returns. *)
Definition any_ValueAtOrBeforeTime (it : AnyIterator) (t : Time) : outcome SamplePair :=
  match it with inl it => ValueAtOrBeforeTime it t | inr mit => mergeIterator_ValueAtOrBeforeTime mit t end.
Definition any_RangeValues (it : AnyIterator) (iv : Interval) : outcome (list SamplePair) :=
  match it with inl it => RangeValues it iv | inr mit => mergeIterator_RangeValues mit iv end.
Definition any_Metric (it : AnyIterator) : outcome Metric :=
  match it with inl it => Ret (IMetric it) | inr mit => mergeIterator_Metric mit end.

(** The loop of [vectorSelector]. *)
Fixpoint vector_loop (refTime ts : Time) (its : SeriesIterators) : outcome (list Sample) :=
  match its with
  | [] => Ret []
  | it :: its =>
      samplePair ← any_ValueAtOrBeforeTime it refTime;
      if Before (Timestamp samplePair) (Add refTime (int64 (- StalenessDelta))) then vector_loop refTime ts its
      else
        met ← any_Metric it;
        vec ← vector_loop refTime ts its;
        Ret (mkSample met (Value samplePair) ts :: vec)
  end.

Definition vectorSelector (node : VectorSelector) (ts : Time) : outcome (list Sample) :=
  vector_loop (Add ts (int64 (- vs_Offset node))) ts (vs_iterators node).

(** The loop of [matrixSelector]; the one that moves the samples by the offset
    assigns to a copy of each sample. *)
Fixpoint matrix_loop (interval : Interval) (its : SeriesIterators) : outcome Matrix :=
  match its with
  | [] => Ret []
  | it :: its =>
      samplePairs ← any_RangeValues it interval;
      match samplePairs with
      | [] => matrix_loop interval its
      | _ :: _ =>
          met ← any_Metric it;
          mat ← matrix_loop interval its;
          Ret (mkSampleStream met samplePairs :: mat)
      end
  end.

Definition matrixSelector (node : MatrixSelector) (ts : Time) : outcome Matrix :=
  matrix_loop (mkInterval (Add ts (int64 (int64 (- mx_Range node) - mx_Offset node)))
                          (Add ts (int64 (- mx_Offset node)))) (mx_iterators node).

(** [recover]: a panic during the evaluation becomes an error. *)
Definition recover_eval {A} (f : A -> PromValue) (o : outcome A) : query_error + PromValue :=
  match o with
  | Ret v => inr (f v)
  | Panic (PanicMsg msg) => inl (ErrOther msg)
  | Panic _ => inl (ErrOther "unexpected error")
  end.

Fixpoint eval (e : Expr) (ts : Time) : query_error + PromValue :=
  match e with
  | EMatrixSelector n => recover_eval PromMatrix (matrixSelector n ts)
  | NumberLiteral v => inr (PromScalar v ts)
  | ParenExpr e => eval e ts
  | StringLiteral s => inr (PromString s ts)
  | EVectorSelector n => recover_eval PromVector (vectorSelector n ts)
  | AggregateExpr _ _ _ _ _ _ | BinaryExpr _ _ _ _ _ | Call _ _ | UnaryExpr _ _ => qe_node env e ts
  end.

(** [Eval] for the [n]-th point: it checks the context at every node. *)
Definition Eval (n : nat) (e : Expr) (ts : Time) : query_error + PromValue :=
  match qe_interrupt env n with Some err => inl err | None => eval e ts end.

(** *** Range queries *)

(** [make([]model.SamplePair, 0, numSteps)] for a new stream. *)
Definition new_stream (numSteps : Z) (metric : Metric) : outcome SampleStream :=
  if numSteps <? 0 then Panic PanicMakeLen else Ret (mkSampleStream metric []).

(** A sample is appended to the stream of its fingerprint, which may be new. *)
Definition append_sample (numSteps : Z) (fp : Z) (metric : Metric) (p : SamplePair)
    (sampleStreams : gmap Z SampleStream) : outcome (gmap Z SampleStream) :=
  ss ← match sampleStreams !! fp with Some ss => Ret ss | None => new_stream numSteps metric end;
  Ret (<[fp := mkSampleStream (SSMetric ss) (SSValues ss ++ [p])]> sampleStreams).

Fixpoint append_vector (numSteps : Z) (l : list Sample) (sampleStreams : gmap Z SampleStream)
    : outcome (gmap Z SampleStream) :=
  match l with
  | [] => Ret sampleStreams
  | s :: l =>
      sampleStreams ← append_sample numSteps (Fingerprint (SMetric s)) (SMetric s)
        (mkSamplePair (STimestamp s) (SValue s)) sampleStreams;
      append_vector numSteps l sampleStreams
  end.

(** The switch on the value of a point; the stream of a scalar has no metric. *)
Definition append_value (numSteps : Z) (val : PromValue) (sampleStreams : gmap Z SampleStream)
    : outcome (gmap Z SampleStream) :=
  match val with
  | PromScalar v ts => append_sample numSteps 0 ∅ (mkSamplePair ts v) sampleStreams
  | PromVector l => append_vector numSteps l sampleStreams
  | PromMatrix _ | PromString _ _ =>
      Panic (PanicMsg ("promql.Engine.exec: invalid expression type " +:+ Quote (ValueType_String (PromValue_Type val))))
  end.

(** The loop of the range evaluation: [budget] points are evaluated before the
    context is done; [n] have been. *)
Fixpoint range_loop (s : EvalStmt) (numSteps : Z) (budget n : nat) (ts : Time)
    (sampleStreams : gmap Z SampleStream) : outcome (query_error + gmap Z SampleStream) :=
  if After ts (es_End s) then Ret (inr sampleStreams)
  else
    match budget with
    | O => Ret (inl (qe_done env))
    | S budget =>
        match Eval n (es_Expr s) ts with
        | inl err => Ret (inl err)
        | inr val =>
            sampleStreams ← append_value numSteps val sampleStreams;
            range_loop s numSteps budget (S n) (Add ts (es_Interval s)) sampleStreams
        end
    end.

(** [Metric.Before] is a total order: fewer labels first, then the first name,
    in order, at which the label sets differ. *)
Fixpoint Before_labels (lns : list LabelName) (ls o : LabelSet) : bool :=
  match lns with
  | [] => false
  | ln :: lns =>
      match ls !! ln, o !! ln with
      | None, _ => true
      | _, None => false
      | Some mlv, Some olv =>
          if String.ltb mlv olv then true else if String.ltb olv mlv then false else Before_labels lns ls o
      end
  end.
Definition Metric_Before (ls o : Metric) : bool :=
  if Nat.ltb (size ls) (size o) then true
  else if Nat.ltb (size o) (size ls) then false
  else Before_labels (sort_strings ((map_to_list ls).*1 ++ (map_to_list o).*1)) ls o.

(** [sort.Sort(resMatrix)], on the streams in some order. *)
Definition stream_le (a b : SampleStream) : Prop := Metric_Before (SSMetric b) (SSMetric a) = false.
#[export] Instance stream_le_dec a b : Decision (stream_le a b) := bool_eq_dec _ _.
Definition sort_matrix (m : Matrix) : Matrix := merge_sort stream_le m.

(** *** [execEvalStmt] and [exec] *)

Definition numSteps_of (s : EvalStmt) : Z := Z.quot (Sub (es_End s) (es_Start s)) (es_Interval s).

Definition execEvalStmt (r : Reader (W := W)) (s : EvalStmt) : outcome (query_error + PromValue) :=
  match Queryable_Querier NoopStorage_Querier r (qe_world env 0) with
  | inl err => Ret (inl (ErrOther err))
  | inr q =>
      pop ← populateIterators q s;
      match pop.2 with
      | Some err => Ret (inl (ErrOther err))
      | None =>
          let s := mkEvalStmt pop.1 (es_Start s) (es_End s) (es_Interval s) in
          if (es_Start s =? es_End s) && (es_Interval s =? 0) then Ret (Eval 0 (es_Expr s) (es_Start s))
          else if es_Interval s =? 0 then Panic PanicDivide
          else
            res ← range_loop s (numSteps_of s) (qe_budget env) 0 (es_Start s) ∅;
            match res, qe_end env with
            | inl err, _ => Ret (inl err)
            | inr _, Some err => Ret (inl err)
            | inr sampleStreams, None => Ret (inr (PromMatrix (sort_matrix (map_to_list sampleStreams).*2)))
            end
      end
  end.

Definition exec (r : Reader (W := W)) (s : EvalStmt) : outcome (query_error + PromValue) :=
  match qe_gate env with Some err => Ret (inl err) | None => execEvalStmt r s end.

End engine.

(** A statement with an interval is evaluated to a matrix. *)
Lemma exec_matrix `{RegexpLib, StrconvLib, MapOrder} {W} `{HTTPLib W} (env : query_env (W := W)) stale r s v :
  es_Interval s <> 0 -> exec env stale r s = Ret (inr v) -> exists m, v = PromMatrix m.
Proof.
  intros Hne. apply Z.eqb_neq in Hne. unfold exec, execEvalStmt. destruct (qe_gate env); [done|].
  cbn [Queryable_Querier NoopStorage_Querier]. destruct (populateIterators _ _ _ _) as [[e [err|]]|p]; [done| |done].
  cbn [mbind outcome_bind fst snd es_Expr es_Start es_End es_Interval]. rewrite Hne, andb_false_r.
  destruct (range_loop _ _ _ _ _ _ _ _) as [[err|acc]|p]; [done| |done]. cbn [mbind outcome_bind].
  destruct (qe_end env); [done|]. intros [= <-]. by eexists.
Qed.

(** [documentedType], and the statements of queries. *)
Definition documentedType (t : ValueType) : string :=
  match t with ValVector => "instant vector" | ValMatrix => "range vector" | _ => ValueType_String t end.

Section statements.
Context `{RegexpLib, StrconvLib}.
Variable ParseExpr : string -> error + Expr.

Definition engine_NewInstantQuery (qs : string) (ts : Time) : error + EvalStmt :=
  match ParseExpr qs with inl err => inl err | inr expr => inr (mkEvalStmt expr ts ts 0) end.

Definition engine_NewRangeQuery (qs : string) (start end_ : Time) (interval : Duration) : error + EvalStmt :=
  match ParseExpr qs with
  | inl err => inl err
  | inr expr =>
      match Expr_Type expr with
      | ValVector | ValScalar => inr (mkEvalStmt expr start end_ interval)
      | t => inl ("invalid expression type " +:+ Quote (documentedType t) +:+
                  " for range query, must be scalar or instant vector")
      end
  end.

(** [exprTest], which nothing calls: the error of the parser is only logged, and
    the type of the nil expression is asked for. *)
Definition exprTest (r : ApiRequest) : outcome unit :=
  match ParseExpr (FormValue r "query") with inl _ => Panic PanicNilDeref | inr expr => Ret tt end.

End statements.

(** ** The selectors of an expression *)

Section populated.
Context `{RegexpLib}.

(** Induction that goes into the arguments of calls. *)
Section induction.
Variable P : Expr -> Prop.
Hypothesis P_aggregate : forall op x param grouping without keep, P x -> P (AggregateExpr op x param grouping without keep).
Hypothesis P_binary : forall op lhs rhs matching bool_, P lhs -> P rhs -> P (BinaryExpr op lhs rhs matching bool_).
Hypothesis P_call : forall fn args, Forall P args -> P (Call fn args).
Hypothesis P_matrix : forall n, P (EMatrixSelector n).
Hypothesis P_number : forall v, P (NumberLiteral v).
Hypothesis P_paren : forall x, P x -> P (ParenExpr x).
Hypothesis P_string : forall s, P (StringLiteral s).
Hypothesis P_unary : forall op x, P x -> P (UnaryExpr op x).
Hypothesis P_vector : forall n, P (EVectorSelector n).

Fixpoint Expr_args_ind (e : Expr) : P e :=
  match e with
  | AggregateExpr op x param grouping without keep => P_aggregate op x param grouping without keep (Expr_args_ind x)
  | BinaryExpr op lhs rhs matching bool_ => P_binary op lhs rhs matching bool_ (Expr_args_ind lhs) (Expr_args_ind rhs)
  | Call fn args => P_call fn args
      ((fix all args : Forall P args :=
          match args with
          | [] => Forall_nil_2 P
          | a :: args => Forall_cons_2 P a args (Expr_args_ind a) (all args)
          end) args)
  | EMatrixSelector n => P_matrix n
  | NumberLiteral v => P_number v
  | ParenExpr x => P_paren x (Expr_args_ind x)
  | StringLiteral s => P_string s
  | UnaryExpr op x => P_unary op x (Expr_args_ind x)
  | EVectorSelector n => P_vector n
  end.
End induction.

(** [populated l e e']: [e'] is [e] with the iterators [l] in its selectors, from
    left to right, those of the parameters of aggregations left out. *)
Inductive populated : list SeriesIterators -> Expr -> Expr -> Prop :=
  | pop_vector n its : populated [its] (EVectorSelector n) (store_iterators (Some its) (EVectorSelector n))
  | pop_matrix n its : populated [its] (EMatrixSelector n) (store_iterators (Some its) (EMatrixSelector n))
  | pop_aggregate l op x x' param grouping without keep :
      populated l x x' ->
      populated l (AggregateExpr op x param grouping without keep) (AggregateExpr op x' param grouping without keep)
  | pop_binary l1 l2 op lhs lhs' rhs rhs' matching bool_ :
      populated l1 lhs lhs' -> populated l2 rhs rhs' ->
      populated (l1 ++ l2) (BinaryExpr op lhs rhs matching bool_) (BinaryExpr op lhs' rhs' matching bool_)
  | pop_call l fn args args' : populated_args l args args' -> populated l (Call fn args) (Call fn args')
  | pop_paren l x x' : populated l x x' -> populated l (ParenExpr x) (ParenExpr x')
  | pop_unary l op x x' : populated l x x' -> populated l (UnaryExpr op x) (UnaryExpr op x')
  | pop_number v : populated [] (NumberLiteral v) (NumberLiteral v)
  | pop_string s : populated [] (StringLiteral s) (StringLiteral s)
with populated_args : list SeriesIterators -> list Expr -> list Expr -> Prop :=
  | pop_nil : populated_args [] [] []
  | pop_cons l1 l2 a a' args args' :
      populated l1 a a' -> populated_args l2 args args' -> populated_args (l1 ++ l2) (a :: args) (a' :: args').

(** What a selector asks for: the first and the last instant, and the matchers. *)
Definition window : Type := Time * Time * list LabelMatcher.

Variable StalenessDelta : Duration.

Definition vector_window (s : EvalStmt) (n : VectorSelector) : window :=
  (if es_Start s =? es_End s then
     (Add (Add (es_Start s) (int64 (- vs_Offset n))) (int64 (- StalenessDelta)),
      Add (es_Start s) (int64 (- vs_Offset n)))
   else
     (Add (es_Start s) (int64 (int64 (- vs_Offset n) - StalenessDelta)), Add (es_End s) (int64 (- vs_Offset n))),
   vs_LabelMatchers n).
Definition matrix_window (s : EvalStmt) (n : MatrixSelector) : window :=
  (Add (es_Start s) (int64 (int64 (- mx_Offset n) - mx_Range n)), Add (es_End s) (int64 (- mx_Offset n)),
   mx_LabelMatchers n).

(** The windows of the selectors of an expression, from left to right. *)
Fixpoint windows (s : EvalStmt) (e : Expr) : list window :=
  match e with
  | AggregateExpr _ x _ _ _ _ => windows s x
  | BinaryExpr _ lhs rhs _ _ => windows s lhs ++ windows s rhs
  | Call _ args => concat (windows s <$> args)
  | ParenExpr x | UnaryExpr _ x => windows s x
  | EVectorSelector n => [vector_window s n]
  | EMatrixSelector n => [matrix_window s n]
  | NumberLiteral _ | StringLiteral _ => []
  end.

End populated.

(** ** Preparation *)

Section preparation.
Context `{RegexpLib, StrconvLib, MapOrder}.
Context {W : Type} `{HTTPLib W}.
Variable env : query_env (W := W).
Variable StalenessDelta : Duration.

(** What the fan-in returns for the [i]-th selector. *)
Definition selector_answer (q : querier (local_Querier (W := W))) (i : nat) (w : window)
    : outcome (SeriesIterators * option error) :=
  let q := querier_at (qe_world env i) q in
  fanin_QueryRange q (qe_ctx env) w.1.1 w.1.2 w.2 (qe_sched env i).

Inductive answered (q : querier (local_Querier (W := W))) : nat -> list window -> list SeriesIterators -> Prop :=
  | answered_nil i : answered q i [] []
  | answered_cons i w ws its l :
      selector_answer q i w = Ret (its, None) -> answered q (S i) ws l -> answered q i (w :: ws) (its :: l).

Lemma answered_app_inv q i ws1 ws2 l :
  answered q i (ws1 ++ ws2) l ->
  exists l1 l2, l = l1 ++ l2 /\ answered q i ws1 l1 /\ answered q (i + length l1) ws2 l2.
Proof.
  revert i l. induction ws1 as [|w ws1 IH]; intros i l Ha.
  { exists [], l. rewrite Nat.add_0_r. split_ands; [done|constructor|done]. }
  inversion Ha as [|? ? ? its l' Hw Hl]; subst. destruct (IH _ _ Hl) as (l1&l2&->&H1'&H2').
  exists (its :: l1), l2. split_ands; [done|by constructor|]. cbn [length].
  by replace (i + S (length l1))%nat with (S i + length l1)%nat by lia.
Qed.

Lemma populate_vector q s n i err :
  populate_visit env StalenessDelta q s (EVectorSelector n) (i, err) =
    r ← selector_answer q i (vector_window StalenessDelta s n);
    Ret (bool_decide (r.2 = None), Some r.1, (S i, r.2)).
Proof.
  unfold populate_visit, selector_answer, vector_window. destruct (es_Start s =? es_End s); [|done].
  by rewrite fanin_QueryInstant_range.
Qed.

Lemma populate_matrix q s n i err :
  populate_visit env StalenessDelta q s (EMatrixSelector n) (i, err) =
    r ← selector_answer q i (matrix_window s n);
    Ret (bool_decide (r.2 = None), Some r.1, (S i, r.2)).
Proof. done. Qed.

(** The visitor, on an expression all of whose selectors are answered. *)
Definition populates q s e : Prop := forall i l,
  answered q i (windows StalenessDelta s e) l ->
  exists e', Inspect (populate_visit env StalenessDelta q s) e (i, None) = Ret (e', ((i + length l)%nat, None)) /\
    populated l e e'.

Lemma populates_args q s args : Forall (populates q s) args -> forall i l,
  answered q i (concat (windows StalenessDelta s <$> args)) l ->
  exists args', Inspect_list (populate_visit env StalenessDelta q s) args (i, None) =
      Ret (args', ((i + length l)%nat, None)) /\ populated_args l args args'.
Proof.
  induction 1 as [|a args Ha Hargs IH]; intros i l Hl; cbn [fmap list_fmap concat] in Hl.
  { inversion Hl; subst. exists []. rewrite Nat.add_0_r. split; [done|constructor]. }
  apply answered_app_inv in Hl as (l1&l2&->&Hl1&Hl2). destruct (Ha i l1 Hl1) as (a'&Hv&Hp).
  destruct (IH _ _ Hl2) as (args'&Hvs&Hps). exists (a' :: args'). cbn [Inspect_list]. rewrite Hv.
  cbn [mbind outcome_bind fst snd]. rewrite Hvs. cbn [mbind outcome_bind fst snd].
  rewrite length_app, Nat.add_assoc. split; [done|by constructor].
Qed.

Lemma populates_all q s e : populates q s e.
Proof.
  induction e as [op x param g wo k IH|op x y m b IHx IHy|fn args IH|n|v|x IH|str|op x IH|n] using Expr_args_ind;
    intros i l Hl; cbn [windows] in Hl.
  - destruct (IH i l Hl) as (x'&Hv&Hp). eexists. cbn. rewrite Hv. split; [done|by constructor].
  - apply answered_app_inv in Hl as (l1&l2&->&Hl1&Hl2). destruct (IHx _ _ Hl1) as (x'&Hx&Hpx).
    destruct (IHy _ _ Hl2) as (y'&Hy&Hpy). eexists. cbn. rewrite Hx. cbn. rewrite Hy. cbn.
    rewrite length_app, Nat.add_assoc. split; [done|by constructor].
  - destruct (populates_args q s args IH i l Hl) as (args'&Hv&Hp). exists (Call fn args').
    split; [|by constructor]. change (Inspect ?f (Call fn args) (i, None)) with
      (r ← Inspect_list f args (i, None); Ret (Call fn r.1, r.2)). by rewrite Hv.
  - inversion Hl as [|? ? ? its ? Hw Hn]; subst. inversion Hn; subst. eexists.
    split; [|apply pop_matrix]. apply (Inspect_matrix _ _ _ (bool_decide ((None : option error) = None))).
    rewrite populate_matrix, Hw. cbn [mbind outcome_bind fst snd length]. by rewrite Nat.add_1_r.
  - inversion Hl; subst. eexists. cbn. rewrite Nat.add_0_r. split; [done|constructor].
  - destruct (IH i l Hl) as (x'&Hv&Hp). eexists. cbn. rewrite Hv. split; [done|by constructor].
  - inversion Hl; subst. eexists. cbn. rewrite Nat.add_0_r. split; [done|constructor].
  - destruct (IH i l Hl) as (x'&Hv&Hp). eexists. cbn. rewrite Hv. split; [done|by constructor].
  - inversion Hl as [|? ? ? its ? Hw Hn]; subst. inversion Hn; subst. eexists.
    split; [|apply pop_vector]. apply (Inspect_vector _ _ _ (bool_decide ((None : option error) = None))).
    rewrite populate_vector, Hw. cbn [mbind outcome_bind fst snd length]. by rewrite Nat.add_1_r.
Qed.

Lemma populateIterators_answered q s l :
  answered q 0%nat (windows StalenessDelta s (es_Expr s)) l ->
  exists e', populateIterators env StalenessDelta q s = Ret (e', None) /\ populated l (es_Expr s) e'.
Proof.
  intros Hl. destruct (populates_all q s (es_Expr s) 0%nat l Hl) as (e'&Hv&Hp). exists e'.
  unfold populateIterators. rewrite Hv. split; [done|done].
Qed.

(** The context is that of a request of the API, which is not marked as
    local-only. *)
Definition valid_env : Prop := localOnly (qe_ctx env) = false.

(** No client panics on a window, and what it returns is sorted. *)
Definition window_answered (r : Reader (W := W)) (i : nat) (w : window) : Prop :=
  forall c, c ∈ clients r -> exists a,
    remote_answer r (qe_world env i) w.1.1 w.1.2 w.2 c = Ret a /\ Forall samples_wf a.1.

(** What the remotes return for a window. *)
Definition window_returned (r : Reader (W := W)) (i : nat) (w : window) : list sampleStreamIterator :=
  returned r (qe_world env i) w.1.1 w.1.2 w.2.

(** The fingerprints of which the query of a window loses nothing. *)
Definition window_whole (r : Reader (W := W)) (i : nat) (w : window) (fp : Z) : Prop :=
  undisturbed r (qe_world env i) w.1.1 w.1.2 w.2 (qe_sched env i) fp.

Definition window_merged (r : Reader (W := W)) (i : nat) (w : window) (its : SeriesIterators) : Prop :=
  exists mits, its = inr <$> mits /\ merged_groups r (qe_world env i) w.1.1 w.1.2 w.2 (qe_sched env i) mits.

Lemma selector_answer_merged r w0 q i w :
  valid_env -> Queryable_Querier NoopStorage_Querier r w0 = inr q -> window_answered r i w ->
  exists its, selector_answer q i w = Ret (its, None) /\ window_merged r i w its.
Proof.
  intros Hctx [= <-] Ha. destruct w as [[from through] ms]. unfold selector_answer, querier_at.
  cbn [qlocal qremotes at_world fst snd].
  assert (at_world (qe_world env i) <$> (RemoteQuerier w0 <$> Queriers r) =
    RemoteQuerier (qe_world env i) <$> Queriers r) as -> by by rewrite <- list_fmap_compose.
  destruct (decide (clients r = [])) as [He|Hne].
  - exists []. split.
    + unfold fanin_QueryRange, fanin_query, query. unfold Queriers. rewrite He. done.
    + exists []. split; [done|]. split; [set_solver| |set_solver].
      unfold returned. rewrite He. intros it Hit. by apply elem_of_nil in Hit.
  - destruct (fanin_groups_spec r (qe_world env i) (qe_ctx env) from through ms
      (qe_sched env i)) as (mits&Hq&Hm); try done.
    exists (inr <$> mits). split; [done|]. by exists mits.
Qed.

Lemma all_answered r w0 q ws : forall i,
  valid_env -> Queryable_Querier NoopStorage_Querier r w0 = inr q ->
  (forall k w, ws !! k = Some w -> window_answered r (i + k) w) ->
  exists l, answered q i ws l /\ length l = length ws /\
    forall k w its, ws !! k = Some w -> l !! k = Some its -> window_merged r (i + k) w its.
Proof.
  induction ws as [|w ws IH]; intros i He Hq Hws.
  { exists []. split_ands; [constructor|done|done]. }
  destruct (selector_answer_merged r w0 q i w He Hq) as (its&Hits&Hm).
  { rewrite <- (Nat.add_0_r i). by apply Hws. }
  destruct (IH (S i) He Hq) as (l&Hl&Hlen&Hms).
  { intros k w' Hk. rewrite Nat.add_succ_comm. by apply (Hws (S k)). }
  exists (its :: l). split_ands; [by constructor|cbn; by rewrite Hlen|].
  intros [|k] w' its' Hw' Hits'; cbn in Hw', Hits'.
  - injection Hw' as <-. injection Hits' as <-. by rewrite Nat.add_0_r.
  - rewrite <- Nat.add_succ_comm. by eapply Hms.
Qed.

(** C17: The preparation of a query, however the goroutines of its queries
    interleave in the map that they share. Every selector of the expression (but
    those in the parameter of an aggregation, which are left without iterators)
    is given what the fan-in returns for its own window: from the start of the
    query less the offset and the staleness delta, or the range, to the end less
    the offset. That is one merged iterator for each fingerprint some remote
    returned, which holds only what the remotes returned with this fingerprint,
    and all of it when only one remote returned it or the goroutines follow each
    other (otherwise the map can lose an iterator). This is for clients that do
    not panic, whose samples are sorted by time, and that send their own request
    (C6 and C40 have the races there), in a context that is not local-only. Then
    there is no error: a remote that fails counts as one without data, so that a
    query is answered from the others, or from nothing. *)
Theorem populateIterators_correct (r : Reader) (s : EvalStmt) (q : querier local_Querier) (w0 : W) :
  valid_env -> Queryable_Querier NoopStorage_Querier r w0 = inr q ->
  (forall k w, windows StalenessDelta s (es_Expr s) !! k = Some w -> window_answered r k w) ->
  exists e' l, populateIterators env StalenessDelta q s = Ret (e', None) /\ populated l (es_Expr s) e' /\
    length l = length (windows StalenessDelta s (es_Expr s)) /\
    forall k w its, windows StalenessDelta s (es_Expr s) !! k = Some w -> l !! k = Some its ->
      window_merged r k w its.
Proof.
  intros He Hq Hws. destruct (all_answered r w0 q _ 0%nat He Hq Hws) as (l&Hl&Hlen&Hm).
  destruct (populateIterators_answered q s l Hl) as (e'&Hp&Hpop). exists e', l. by split_ands.
Qed.

End preparation.

(** ** The evaluation of a selector *)

Section selectors.
Context `{RegexpLib, StrconvLib, MapOrder}.
Context {W : Type} `{HTTPLib W}.
Variable StalenessDelta : Duration.

(** [p] is a sample with the fingerprint [fp] that is not after [t]. *)
Definition returned_sample (its : list sampleStreamIterator) (t : Time) (fp : Z) (p : SamplePair) : Prop :=
  Timestamp p <= t /\ exists it, it ∈ its /\ fingerprint_of it = fp /\ p ∈ samples it.

(** The instant vector of a selector at [t], of the samples that were returned:
    an element has the value of a sample of its fingerprint that is not older
    than [oldest], and no fingerprint has two. A fingerprint of which nothing was
    lost ([whole]) has one as soon as there is such a sample, with the value of a
    latest one. *)
Record selector_vector (whole : Z -> Prop) (its : list sampleStreamIterator) (oldest t ts : Time) (l : list Sample)
    : Prop := {
  sv_sample s : s ∈ l -> STimestamp s = ts /\ exists p,
    returned_sample its t (Fingerprint (SMetric s)) p /\ oldest <= Timestamp p /\ SValue s = Value p /\
    (whole (Fingerprint (SMetric s)) -> forall x, returned_sample its t (Fingerprint (SMetric s)) x ->
       Timestamp x <= Timestamp p);
  sv_complete it p : it ∈ its -> p ∈ samples it -> oldest <= Timestamp p <= t -> whole (fingerprint_of it) ->
    exists s, s ∈ l /\ Fingerprint (SMetric s) = fingerprint_of it;
  sv_unique : NoDup ((fun s => Fingerprint (SMetric s)) <$> l)
}.

(** The element of one merged iterator. *)
Definition vector_element (oldest t ts : Time) (mit : mergeIterator sampleStreamIterator) : option Sample :=
  match mergeIterator_ValueAtOrBeforeTime mit t, mergeIterator_Metric mit with
  | Ret p, Ret met => if Before (Timestamp p) oldest then None else Some (mkSample met (Value p) ts)
  | _, _ => None
  end.

Definition mit_fingerprint (mit : mergeIterator sampleStreamIterator) : option Z :=
  match mergeIterator_Metric mit with Ret met => Some (Fingerprint met) | Panic _ => None end.

Lemma vector_loop_omap t ts mits :
  (forall mit, mit ∈ mits -> exists p met,
     mergeIterator_ValueAtOrBeforeTime mit t = Ret p /\ mergeIterator_Metric mit = Ret met) ->
  vector_loop StalenessDelta t ts (inr <$> mits) =
    Ret (omap (vector_element (Add t (int64 (- StalenessDelta))) t ts) mits).
Proof.
  induction mits as [|mit mits IH]; intros Hm; [done|].
  destruct (Hm mit ltac:(set_solver)) as (p&met&Hp&Hmet).
  cbn [fmap list_fmap vector_loop any_ValueAtOrBeforeTime any_Metric omap list_omap].
  unfold vector_element at 1. rewrite Hp, Hmet. cbn [mbind outcome_bind].
  rewrite IH by set_solver. by destruct (Before _ _).
Qed.

Lemma vector_element_fingerprint oldest t ts mit s :
  vector_element oldest t ts mit = Some s -> mit_fingerprint mit = Some (Fingerprint (SMetric s)).
Proof.
  unfold vector_element, mit_fingerprint. destruct (mergeIterator_ValueAtOrBeforeTime mit t); [|done].
  destruct (mergeIterator_Metric mit); [|done]. destruct (Before _ _); [done|]. by intros [= <-].
Qed.

Lemma omap_fingerprints oldest t ts mits :
  NoDup (mit_fingerprint <$> mits) ->
  NoDup ((fun s => Fingerprint (SMetric s)) <$> omap (vector_element oldest t ts) mits).
Proof.
  induction mits as [|mit mits IH]; [constructor|]. rewrite fmap_cons, NoDup_cons. intros [Hn Hd].
  cbn [omap list_omap]. destruct (vector_element oldest t ts mit) as [s|] eqn:Hs; [|by apply IH].
  rewrite fmap_cons, NoDup_cons. split; [|by apply IH].
  intros (s'&Hfp&(mit'&Hin&Hs')%list_elem_of_omap)%list_elem_of_fmap. apply Hn.
  apply list_elem_of_fmap. exists mit'. split; [|done].
  by rewrite (vector_element_fingerprint _ _ _ _ _ Hs), (vector_element_fingerprint _ _ _ _ _ Hs'), Hfp.
Qed.

Lemma vector_loop_spec (r : Reader (W := W)) w from through ms sched mits t ts :
  merged_groups r w from through ms sched mits -> Earliest < Add t (int64 (- StalenessDelta)) ->
  exists l, vector_loop StalenessDelta t ts (inr <$> mits) = Ret l /\
    selector_vector (undisturbed r w from through ms sched) (returned r w from through ms)
      (Add t (int64 (- StalenessDelta))) t ts l.
Proof.
  intros [Hmit Hcomp Huniq] Hold. set (oldest := Add t (int64 (- StalenessDelta))) in *.
  set (whole := undisturbed r w from through ms sched) in *. set (its := returned r w from through ms) in *.
  assert (forall mit, mit ∈ mits -> exists p met, mergeIterator_ValueAtOrBeforeTime mit t = Ret p /\
    mergeIterator_Metric mit = Ret met /\
    (oldest <= Timestamp p -> returned_sample its t (Fingerprint met) p) /\
    (whole (Fingerprint met) -> forall x, returned_sample its t (Fingerprint met) x -> Timestamp x <= Timestamp p)) as Hval.
  { intros mit Hin. destruct (Hmit mit Hin) as (Hl&Hwf&met&Hmet&Hr&Hall).
    destruct (group_value mit t Hl Hwf) as (p&Hp&Hmax&Hpin). exists p, met. split_ands; [done..| |].
    - intros Hle. destruct Hpin as [->|[Ht (it&Hit&Hpin)]]; [cbn in Hle; lia|].
      split; [done|]. exists it. apply Hr in Hit as [??]. done.
    - intros Hw x [Hx (it&Hit&Hfp&Hxin)]. apply (Hmax it); [by apply Hall|done..]. }
  exists (omap (vector_element oldest t ts) mits). split; [|split].
  - apply vector_loop_omap. intros mit Hin. destruct (Hval mit Hin) as (p&met&?&?&_). by exists p, met.
  - intros s (mit&Hin&Hs)%list_elem_of_omap. destruct (Hval mit Hin) as (p&met&Hp&Hmet&Hlat&Hmax).
    unfold vector_element in Hs. rewrite Hp, Hmet in Hs. destruct (Before _ _) eqn:Hb; [done|].
    injection Hs as <-. apply Before_false in Hb. split; [done|]. exists p. cbn. auto.
  - intros it p Hit Hpin [Ho Ht] Hw. destruct (Hcomp it Hit) as (mit&met&Hin&Hmet&Hfp).
    destruct (Hval mit Hin) as (p'&met'&Hp'&Hmet'&_&Hmax). rewrite Hmet in Hmet'. injection Hmet' as <-.
    exists (mkSample met (Value p') ts). split; [|done]. apply list_elem_of_omap. exists mit. split; [done|].
    unfold vector_element. rewrite Hp', Hmet.
    assert (Timestamp p <= Timestamp p') as Hle
      by (apply Hmax; [by rewrite Hfp|split; [done|by exists it]]).
    replace (Before (Timestamp p') oldest) with false; [done|]. symmetry. apply Before_false. lia.
  - apply omap_fingerprints. apply NoDup_alt. intros i j o Hi Hj.
    rewrite list_lookup_fmap in Hi, Hj. destruct (mits !! i) as [mit|] eqn:Hmi; [|done].
    destruct (mits !! j) as [mit'|] eqn:Hmj; [|done]. cbn in Hi, Hj.
    destruct (Hval mit) as (?&met&_&Hmet&_); [by eapply list_elem_of_lookup_2|].
    destruct (Hval mit') as (?&met'&_&Hmet'&_); [by eapply list_elem_of_lookup_2|].
    apply (Huniq i j mit mit' met met'); try done. unfold mit_fingerprint in Hi, Hj.
    rewrite Hmet in Hi. rewrite Hmet' in Hj. congruence.
Qed.

End selectors.

(** ** The points of a range query *)

Section points.
Context `{RegexpLib, StrconvLib, MapOrder}.
Context {W : Type} `{HTTPLib W}.
Variable env : query_env (W := W).
Variable StalenessDelta : Duration.

(** The loop over given points, and what it comes to when the context is done
    after [budget] of them. *)
Fixpoint eval_points (s : EvalStmt) (numSteps : Z) (n : nat) (points : list Time) (acc : gmap Z SampleStream)
    : outcome (query_error + gmap Z SampleStream) :=
  match points with
  | [] => Ret (inr acc)
  | ts :: points =>
      match Eval env StalenessDelta n (es_Expr s) ts with
      | inl err => Ret (inl err)
      | inr val => acc ← append_value numSteps val acc; eval_points s numSteps (S n) points acc
      end
  end.

Definition then_done (done_ : bool) (o : outcome (query_error + gmap Z SampleStream))
    : outcome (query_error + gmap Z SampleStream) :=
  res ← o;
  Ret (match res with inr acc => if done_ then inl (qe_done env) else inr acc | inl err => inl err end).

Lemma then_done_false o : then_done false o = o.
Proof. by destruct o as [[err|acc]|p]. Qed.

(** The step in milliseconds, and the points. *)
Definition step_ticks (s : EvalStmt) : Z := Z.quot (es_Interval s) minimumTick.
Definition points_from (ts step : Z) (n : nat) : list Time := (fun k => ts + Z.of_nat k * step) <$> seq 0 n.
Definition number_of_points (s : EvalStmt) : nat := Z.to_nat ((es_End s - es_Start s) / step_ticks s + 1).
Definition points (s : EvalStmt) : list Time := points_from (es_Start s) (step_ticks s) (number_of_points s).

Lemma points_from_cons ts step n : points_from ts step (S n) = ts :: points_from (ts + step) step n.
Proof.
  unfold points_from. cbn [seq fmap list_fmap]. f_equal; [lia|]. rewrite <- seq_shift, <- list_fmap_compose.
  apply list_fmap_ext. intros i k _. unfold compose. lia.
Qed.

(** The loop, from a point with [m] points left. *)
Lemma range_loop_points s numSteps (m : nat) : forall budget n ts acc,
  0 < step_ticks s -> in_int64 ts -> es_End s + step_ticks s <= MaxInt64 ->
  ts + (Z.of_nat m - 1) * step_ticks s <= es_End s < ts + Z.of_nat m * step_ticks s ->
  range_loop env StalenessDelta s numSteps budget n ts acc =
    then_done (Nat.ltb budget m) (eval_points s numSteps n (take budget (points_from ts (step_ticks s) m)) acc).
Proof.
  induction m as [|m IH]; intros budget n ts acc Hstep Hts Hend Hm.
  - assert (After ts (es_End s) = true) as Ha by (apply After_spec; lia).
    change (points_from ts (step_ticks s) 0) with ([] : list Time). destruct budget; cbn [range_loop]; by rewrite Ha.
  - assert (After ts (es_End s) = false) as Ha by (apply After_false; nia).
    rewrite points_from_cons. destruct budget as [|budget]; cbn [range_loop]; rewrite Ha; [done|].
    cbn [take eval_points]. destruct (Eval _ _ _ _ _) as [err|val]; [done|].
    destruct (append_value numSteps val acc) as [acc'|p]; [|done]. cbn [mbind outcome_bind].
    assert (ts <= es_End s) as Hle by nia.
    assert (Add ts (es_Interval s) = ts + step_ticks s) as ->.
    { unfold Add. fold (step_ticks s). apply int64_id. unfold in_int64, MinInt64, MaxInt64 in *. lia. }
    apply IH; [done| |done|nia]. unfold in_int64, MinInt64, MaxInt64 in *. lia.
Qed.

(** The loop of a step that is rounded to nothing. *)
Lemma range_loop_stuck s numSteps budget : forall n acc,
  step_ticks s = 0 -> in_int64 (es_Start s) -> es_Start s <= es_End s ->
  range_loop env StalenessDelta s numSteps budget n (es_Start s) acc =
    then_done true (eval_points s numSteps n (replicate budget (es_Start s)) acc).
Proof.
  induction budget as [|budget IH]; intros n acc Hstep Hs Hle;
    assert (After (es_Start s) (es_End s) = false) as Ha by (by apply After_false); cbn [range_loop]; rewrite Ha; [done|].
  cbn [replicate eval_points]. destruct (Eval _ _ _ _ _) as [err|val]; [done|].
  destruct (append_value numSteps val acc) as [acc'|p]; [|done]. cbn [mbind outcome_bind].
  assert (Add (es_Start s) (es_Interval s) = es_Start s) as ->; [|by apply IH].
  unfold Add. fold (step_ticks s). rewrite Hstep, Z.add_0_r. by apply int64_id.
Qed.

Lemma points_bound (start end_ : Time) (step : Duration) s :
  es_Start s = start -> es_End s = end_ -> es_Interval s = step -> start <= end_ -> 0 < step_ticks s ->
  (end_ - start) * 1000000 <= MaxInt64 -> Z.quot (Sub end_ start) step <= 11000 ->
  (number_of_points s <= 22002)%nat /\ ((minimumTick | step) -> (number_of_points s <= 11001)%nat).
Proof.
  intros <- <- <- Hle Hst Hmax Hq. unfold step_ticks in *. change minimumTick with 1000000 in *.
  assert (0 < es_Interval s) as Hpos.
  { destruct (Z.le_gt_cases (es_Interval s) 0) as [Hn|]; [|lia]. pose proof (Z.quot_le_mono (es_Interval s) 0 1000000 ltac:(lia) Hn). change (0 ÷ 1000000) with 0 in *. lia. }
  rewrite Z.quot_div_nonneg in Hst by lia. unfold number_of_points, step_ticks. change minimumTick with 1000000.
  rewrite Z.quot_div_nonneg by lia. set (ms := es_Interval s / 1000000) in *.
  assert (Sub (es_End s) (es_Start s) = (es_End s - es_Start s) * 1000000) as Hsub.
  { unfold Sub. change minimumTick with 1000000. unfold MaxInt64 in Hmax.
    rewrite (int64_id (es_End s - es_Start s)) by (unfold in_int64, MinInt64, MaxInt64; lia).
    apply int64_id. unfold in_int64, MinInt64, MaxInt64. lia. }
  rewrite Hsub, Z.quot_div_nonneg in Hq by lia. pose proof (Z.div_mod (es_Interval s) 1000000 ltac:(lia)) as Hdm.
  pose proof (Z.mod_pos_bound (es_Interval s) 1000000 ltac:(lia)). fold ms in Hdm.
  pose proof (Z.mul_succ_div_gt ((es_End s - es_Start s) * 1000000) (es_Interval s) Hpos) as Hgt.
  assert (forall k, es_End s - es_Start s < k * ms -> (Z.to_nat ((es_End s - es_Start s) / ms + 1) <= Z.to_nat k)%nat) as Hk.
  { intros k Hk. apply Z2Nat.inj_le; [pose proof (Z.div_pos (es_End s - es_Start s) ms); lia|nia|].
    apply Z.le_succ_l, Z.div_lt_upper_bound; lia. }
  split.
  - change 22002%nat with (Z.to_nat 22002). apply Hk. nia.
  - intros [k Hk']. change 11001%nat with (Z.to_nat 11001). apply Hk.
    assert (es_Interval s mod 1000000 = 0) as Hz by (rewrite Hk'; apply Z_mod_mult). nia.
Qed.

End points.

(** ** The engine of the API *)

Section engine_api.
Context `{RelabelLib, MapOrder, StrconvLib, TimeLib}.
Context {W : Type} `{HTTPLib W}.
Context {V : Type}.

(** What the engine of the API depends on: the reader of the process and the
    staleness delta; the parser; the formats of floats and times; what a query
    meets in the world [V], and the world after it; and what the other handlers
    use. *)
Record engine_params := mkEngineParams {
  ep_reader : Reader (W := W);
  ep_stale : Duration;
  ep_ParseExpr : string -> error + Expr;
  ep_FormatFloat : float64 -> string;
  ep_FormatTime : Time -> string;
  ep_outside : V -> option Duration -> query_env (W := W) * V;
  ep_ParseMetricSelector : string -> option error;
  ep_now : V -> Time;
  ep_targetVals : string -> list (option ApiTarget);
  ep_time_json : Z -> option string
}.
Variable ep : engine_params.

(** The JSON of samples and values ([common/model/value.go]). *)
Definition json_SamplePair (p : SamplePair) : json :=
  JArr [JNum (ep_FormatTime ep (Timestamp p)); JStr (ep_FormatFloat ep (Value p))].
Definition json_Sample (s : Sample) : json :=
  JObj [("metric", enc_map (Some (SMetric s)));
        ("value", json_SamplePair (mkSamplePair (STimestamp s) (SValue s)))].
Definition json_SampleStream (s : SampleStream) : json :=
  JObj [("metric", enc_map (Some (SSMetric s))); ("values", JArr (json_SamplePair <$> SSValues s))].
Definition json_Value (v : PromValue) : json :=
  match v with
  | PromScalar v ts => JArr [JNum (ep_FormatTime ep ts); JStr (ep_FormatFloat ep v)]
  | PromVector l => JArr (json_Sample <$> l)
  | PromMatrix m => JArr (json_SampleStream <$> m)
  | PromString s ts => JArr [JNum (ep_FormatTime ep ts); JStr s]
  end.

Definition engine_Exec (v : V) (s : EvalStmt) (timeout : option Duration)
    : outcome (V * (query_error + PromValue)) :=
  let '(env, v) := ep_outside ep v timeout in
  res ← exec env (ep_stale ep) (ep_reader ep) s;
  Ret (v, res).

Definition engine_api : APILib V := {|
  Query := EvalStmt;
  PValue := PromValue;
  NewInstantQuery := engine_NewInstantQuery (ep_ParseExpr ep);
  NewRangeQuery := engine_NewRangeQuery (ep_ParseExpr ep);
  Exec := engine_Exec;
  ParseMetricSelector := ep_ParseMetricSelector ep;
  now := ep_now ep;
  unmarshal_targetVals := ep_targetVals ep;
  value_type v := ValueType_String (PromValue_Type v);
  value_json v := Some (json_Value v);
  time_json := ep_time_json ep
|}.

#[local] Existing Instance engine_api.
Context `{!ProxyLib V}.

(** *** Instant queries *)

(** An instant query for a selector, from the request to the samples. Let the
    query parse to a selector, the time and the timeout be accepted, and the
    context last until the end. As long as no client panics on the window of the
    query, and returns samples sorted by time, the handler answers with a vector
    at the asked time. Its elements have the values of samples that the remotes
    returned and that are neither after the instant (less the offset) nor older
    than the staleness delta; a fingerprint with such a sample, of which the
    shared map loses nothing, has one, with the value of a latest one. No error
    of a remote is reported: the vector is that of the samples of the other
    remotes. *)
Theorem instant_query_correct (v : V) (ts : list Target) (rq : ApiRequest) (sched : list nat)
    (n : VectorSelector) (t : Time) (timeout : option Duration) :
  let env := (ep_outside ep v timeout).1 in
  let reft := Add t (int64 (- vs_Offset n)) in
  let oldest := Add reft (int64 (- ep_stale ep)) in
  ep_ParseExpr ep (FormValue rq "query") = inr (EVectorSelector n) ->
  parseTime (FormValue rq "time") = inr t -> FormValue rq "time" <> EmptyString ->
  query_timeout rq = inr timeout ->
  valid_env env -> qe_gate env = None -> qe_interrupt env 0 = None ->
  window_answered env (ep_reader ep) 0 (oldest, reft, vs_LabelMatchers n) -> Earliest < oldest ->
  exists l, query v ts rq sched = Some (Ret ((ep_outside ep v timeout).2, inr (DQuery (PromVector l)))) /\
    selector_vector (window_whole env (ep_reader ep) 0 (oldest, reft, vs_LabelMatchers n))
      (window_returned env (ep_reader ep) 0 (oldest, reft, vs_LabelMatchers n)) oldest reft t l.
Proof.
  intros env reft oldest Hparse Ht Hne Htimeout Henv Hgate Hint Hans Hold.
  set (s := mkEvalStmt (EVectorSelector n) t t 0).
  assert (vector_window (ep_stale ep) s n = (oldest, reft, vs_LabelMatchers n)) as Hw.
  { unfold vector_window. cbn [es_Start es_End s]. by rewrite Z.eqb_refl. }
  destruct (selector_answer_merged env (ep_reader ep) (qe_world env 0) _ 0%nat _ Henv eq_refl Hans)
    as (its&Hits&mits&->&Hm).
  assert (answered env (mkQuerier NoopQuerier (RemoteQuerier (qe_world env 0) <$> Queriers (ep_reader ep))) 0%nat
    (windows (ep_stale ep) s (es_Expr s)) [inr <$> mits]) as Ha.
  { cbn [windows es_Expr s]. rewrite Hw. by repeat constructor. }
  destruct (populateIterators_answered env (ep_stale ep) _ s _ Ha) as (e'&Hpop&Hp).
  inversion Hp; subst. destruct (vector_loop_spec (ep_stale ep) _ _ _ _ _ _ _ reft t Hm Hold) as (l&Hl&Hspec).
  exists l. split; [|exact Hspec]. unfold query. apply String.eqb_neq in Hne. rewrite Hne, Ht, Htimeout.
  cbn [NewInstantQuery engine_api]. unfold engine_NewInstantQuery. rewrite Hparse.
  cbn [Exec engine_api]. unfold engine_Exec. fold env.
  destruct (ep_outside ep v timeout) as [env0 v'] eqn:Ho. cbn [fst snd] in *. subst env.
  unfold exec, execEvalStmt. rewrite Hgate. cbn [Queryable_Querier NoopStorage_Querier].
  change (mkEvalStmt (EVectorSelector n) t t 0) with s. rewrite Hpop.
  cbn [mbind outcome_bind fst snd es_Start es_End es_Interval s]. rewrite !Z.eqb_refl. cbn [andb].
  unfold Eval. rewrite Hint. cbn [es_Expr store_iterators eval]. unfold vectorSelector.
  cbn [vs_Offset vs_iterators]. fold reft. by rewrite Hl.
Qed.

(** *** Range queries *)

(** The loop for accepted parameters. *)
Lemma range_loop_accepted (rq : ApiRequest) (env : query_env (W := W)) (s : EvalStmt) :
  range_params rq = inr (es_Start s, es_End s, es_Interval s) -> minimumTick <= es_Interval s ->
  range_loop env (ep_stale ep) s (numSteps_of s) (qe_budget env) 0 (es_Start s) ∅ =
    then_done env (Nat.ltb (qe_budget env) (number_of_points s))
      (eval_points env (ep_stale ep) s (numSteps_of s) 0 (take (qe_budget env) (points s)) ∅).
Proof.
  intros (Hs&He&Hd&Hle&Hpos&Hq)%range_params_correct Hstep.
  apply parseTime_range in Hs, He. apply parseDuration_range in Hd.
  assert (0 < step_ticks s <= 9223372036854) as Hticks.
  { unfold step_ticks. change minimumTick with 1000000 in *. unfold in_int64, MinInt64, MaxInt64 in Hd.
    Z.to_euclidean_division_equations; lia. }
  pose proof (Z.div_mod (es_End s - es_Start s) (step_ticks s) ltac:(lia)) as Hdm.
  pose proof (Z.mod_pos_bound (es_End s - es_Start s) (step_ticks s) ltac:(lia)) as Hmod.
  pose proof (Z.div_pos (es_End s - es_Start s) (step_ticks s) ltac:(lia) ltac:(lia)) as Hdp.
  unfold points. apply range_loop_points; [lia|unfold in_int64, MinInt64, MaxInt64; lia|unfold MaxInt64; lia|].
  unfold number_of_points. rewrite Z2Nat.id by lia. split; nia.
Qed.

(** C35: The points of a range query that queryRange accepts. With a step of a
    millisecond or more the expression is evaluated at the start and then at
    every step, in whole milliseconds, up to the end, or until the context is
    done or an evaluation fails; for a range that a duration can hold that is at
    most 22002 points, and at most 11001 if the step is a number of whole
    milliseconds: rounding the step down doubles the limit. A shorter step is
    rounded to none: the start is evaluated again and again until the context
    is done, every time adding a sample, and the handler never answers with
    data. *)
Theorem range_query_points (rq : ApiRequest) (start end_ : Time) (step : Duration) (env : query_env (W := W))
    (s : EvalStmt) :
  range_params rq = inr (start, end_, step) -> es_Start s = start -> es_End s = end_ -> es_Interval s = step ->
  let loop := range_loop env (ep_stale ep) s (numSteps_of s) (qe_budget env) 0 start ∅ in
  let evaluate points := eval_points env (ep_stale ep) s (numSteps_of s) 0 points ∅ in
  (minimumTick <= step ->
     loop = then_done env (Nat.ltb (qe_budget env) (number_of_points s))
              (evaluate (take (qe_budget env) (points s))) /\
     ((end_ - start) * 1000000 <= MaxInt64 ->
        (number_of_points s <= 22002)%nat /\ ((minimumTick | step) -> (number_of_points s <= 11001)%nat))) /\
  (step < minimumTick ->
     loop = then_done env true (evaluate (replicate (qe_budget env) start)) /\
     forall v ts sched v' d, queryRange v ts rq sched <> Some (Ret (v', inr d))).
Proof.
  intros Hrq <- <- <-. pose proof Hrq as Hrq'. apply range_params_correct in Hrq' as (Hs&He&Hd&Hle&Hpos&Hq).
  apply parseTime_range in Hs, He. cbv zeta. split.
  - intros Hstep. split; [by eapply range_loop_accepted|intros Hmax; eapply points_bound; try done].
    unfold step_ticks. apply Z.quot_str_pos. change minimumTick with 1000000 in *. lia.
  - intros Hstep. assert (step_ticks s = 0) as Hticks by (apply Z.quot_small; lia).
    assert (in_int64 (es_Start s)) as Hin by (unfold in_int64, MinInt64, MaxInt64; lia).
    split; [by apply range_loop_stuck|]. intros v ts sched v' d. unfold queryRange. rewrite Hrq.
    destruct (query_timeout rq) as [e|timeout]; [done|]. cbn [NewRangeQuery engine_api].
    destruct (engine_NewRangeQuery (ep_ParseExpr ep) (FormValue rq "query") (es_Start s) (es_End s) (es_Interval s))
      as [e|qry] eqn:Hn; [done|].
    assert (es_Start qry = es_Start s /\ es_End qry = es_End s /\ es_Interval qry = es_Interval s) as (H1'&H2'&H3').
    { unfold engine_NewRangeQuery in Hn. destruct (ep_ParseExpr ep _) as [|x]; [done|].
      destruct (Expr_Type x); try done; by injection Hn as <-. }
    cbn [Exec engine_api]. unfold engine_Exec. destruct (ep_outside ep v timeout) as [env0 v0].
    enough (forall val, exec env0 (ep_stale ep) (ep_reader ep) qry <> Ret (inr val)) as Hne.
    { destruct (exec _ _ _ _) as [[err|val]|p]; [done|by destruct (Hne val)|done]. }
    intros val. unfold exec, execEvalStmt. destruct (qe_gate env0); [done|]. cbn [Queryable_Querier NoopStorage_Querier].
    destruct (populateIterators _ _ _ _) as [[e' [err|]]|p]; [done| |done].
    cbn [mbind outcome_bind fst snd es_Expr es_Start es_End es_Interval]. rewrite H1', H2', H3'.
    assert ((es_Interval s =? 0) = false) as -> by (apply Z.eqb_neq; lia). rewrite andb_false_r.
    match goal with |- context [range_loop _ _ ?st ?steps ?b _ _ _] =>
      pose proof (range_loop_stuck env0 (ep_stale ep) st steps b 0%nat ∅ Hticks Hin Hle) as Hloop end.
    cbn [es_Start] in Hloop. rewrite Hloop. unfold then_done.
    by destruct (eval_points _ _ _ _ _ _ _) as [[err|acc]|p].
Qed.

(** A range of more than 292 years passes the limit on the number of points when
    its length overflows; the slice for the first sample is then made with a
    negative capacity, which panics. *)
Theorem range_overflow_panics (rq : ApiRequest) (env : query_env (W := W)) (s : EvalStmt) (val : SampleValue) :
  range_params rq = inr (es_Start s, es_End s, es_Interval s) ->
  Sub (es_End s) (es_Start s) <= - es_Interval s -> (0 < qe_budget env)%nat ->
  Eval env (ep_stale ep) 0 (es_Expr s) (es_Start s) = inr (PromScalar val (es_Start s)) ->
  range_loop env (ep_stale ep) s (numSteps_of s) (qe_budget env) 0 (es_Start s) ∅ = Panic PanicMakeLen.
Proof.
  intros (_&_&_&Hle&Hpos&_)%range_params_correct Hneg Hbudget Heval.
  destruct (qe_budget env) as [|budget]; [lia|]. cbn [range_loop].
  assert (After (es_Start s) (es_End s) = false) as -> by by apply After_false.
  rewrite Heval. cbn [append_value]. unfold append_sample, new_stream. rewrite lookup_empty.
  assert (numSteps_of s < 0) as Hn.
  { unfold numSteps_of. apply (Z.le_lt_trans _ (Z.quot (- es_Interval s) (es_Interval s))).
    - by apply Z.quot_le_mono.
    - rewrite Z.quot_opp_l, Z.quot_same by lia. lia. }
  apply Z.ltb_lt in Hn. by rewrite Hn.
Qed.

(** *** Remotes that fail *)

(** A range query for a selector when no remote answers: it is evaluated to a
    matrix without streams. *)
Lemma exec_unanswered (rq : ApiRequest) (env : query_env (W := W)) (s : EvalStmt) (n : VectorSelector) w :
  es_Expr s = EVectorSelector n -> vector_window (ep_stale ep) s n = w ->
  range_params rq = inr (es_Start s, es_End s, es_Interval s) -> minimumTick <= es_Interval s ->
  valid_env env -> qe_gate env = None -> (forall i, qe_interrupt env i = None) -> qe_end env = None ->
  (number_of_points s <= qe_budget env)%nat ->
  (forall c, c ∈ clients (ep_reader ep) -> exists err,
     remote_answer (ep_reader ep) (qe_world env 0) w.1.1 w.1.2 w.2 c = Ret ([], Some err)) ->
  exec env (ep_stale ep) (ep_reader ep) s = Ret (inr (PromMatrix [])).
Proof.
  intros Hexpr Hw Hrq Hstep Henv Hgate Hint Hend Hbudget Hans.
  assert (returned (ep_reader ep) (qe_world env 0) w.1.1 w.1.2 w.2 = []) as Hret.
  { unfold returned. apply concat_nil_Forall, Forall_fmap, Forall_forall. intros c Hc.
    destruct (Hans c Hc) as [err He]. unfold compose, answer_its. by rewrite He. }
  destruct (selector_answer_merged env (ep_reader ep) (qe_world env 0) _ 0%nat w Henv eq_refl)
    as (its&Hits&mits&->&Hm).
  { intros c Hc. destruct (Hans c Hc) as [err ->]. eexists. split; [done|]. apply Forall_nil_2. }
  assert (mits = []) as ->.
  { destruct mits as [|mit mits]; [done|]. destruct (mg_mit _ _ _ _ _ _ _ Hm mit) as (Hl&_&met&Hmet&Hr&_); [left|].
    unfold mergeIterator_Metric in Hmet. rewrite Hl in Hmet. destruct (remote mit) as [|it l]; [done|].
    assert (it ∈ it :: l) as Hit by left. rewrite Hret in Hr. apply Hr in Hit as [Hit _]. by apply elem_of_nil in Hit. }
  assert (answered env (mkQuerier NoopQuerier (RemoteQuerier (qe_world env 0) <$> Queriers (ep_reader ep))) 0%nat
    (windows (ep_stale ep) s (es_Expr s)) [[]]) as Ha.
  { rewrite Hexpr. cbn [windows]. rewrite Hw. by repeat constructor. }
  destruct (populateIterators_answered env (ep_stale ep) _ s _ Ha) as (e'&Hpop&Hp).
  rewrite Hexpr in Hp. inversion Hp; subst. unfold exec, execEvalStmt. rewrite Hgate.
  cbn [Queryable_Querier NoopStorage_Querier]. rewrite Hpop. cbn [mbind outcome_bind fst snd es_Expr es_Start es_End es_Interval].
  assert ((es_Interval s =? 0) = false) as -> by (apply Z.eqb_neq; change minimumTick with 1000000 in Hstep; lia).
  rewrite andb_false_r.
  match goal with |- context [range_loop _ _ ?st ?steps ?b _ _ _] =>
    pose proof (range_loop_accepted rq env st Hrq Hstep) as Hloop; set (s' := st) in * end.
  change (numSteps_of s') with (numSteps_of s) in *. change (es_Start s') with (es_Start s) in *. rewrite Hloop.
  assert (Nat.ltb (qe_budget env) (number_of_points s') = false) as -> by (by apply Nat.ltb_ge).
  rewrite then_done_false.
  assert (forall i l, eval_points env (ep_stale ep) s' (numSteps_of s) i l ∅ = Ret (inr ∅)) as Heval.
  { intros i l. revert i. induction l as [|ts l IH]; intros i; [done|]. cbn [eval_points].
    unfold Eval. rewrite Hint. cbn [s' es_Expr store_iterators eval vectorSelector vector_loop vs_iterators recover_eval].
    cbn [append_value append_vector mbind outcome_bind]. apply IH. }
  rewrite Heval. cbn [mbind outcome_bind]. rewrite Hend. do 3 f_equal.
Qed.

End engine_api.

(** ** A process with two remotes *)

Module LiteralEngine.
Export ScriptedHTTP LiteralTime.

#[export] Instance no_proxy : ProxyLib unit.
Proof.
  refine {| new_request_ok _ := true; client_Do u _ := (u, None); grow n := n |}.
  abstract (intros; lia).
Defined.

(** The parser knows the selector [up], with or without an offset of a second,
    and the number 1. *)
Definition up_matcher : LabelMatcher := mkLabelMatcher Equal "__name__" "up" None f64_zero.
Definition up_selector (offset : Duration) : VectorSelector := mkVectorSelector "up" offset [up_matcher] [].
Definition literal_expr (q : string) : error + Expr :=
  if String.eqb q "up" then inr (EVectorSelector (up_selector 0))
  else if String.eqb q "up offset 1s" then inr (EVectorSelector (up_selector Second))
  else if String.eqb q "1" then inr (NumberLiteral (f64_of_Z 1))
  else inl "parse error".

(** The goroutines of two remotes that follow each other. *)
Definition in_turn : list nat := [0; 0; 0; 0; 1; 1; 1; 1]%nat.

(** All the queries find the remotes in the same state, which have [budget] points
    of time. *)
Definition calm (w : list (error + Response)) (budget : nat) : query_env :=
  mkQueryEnv ∅ None (fun _ => w) (fun _ => in_turn) (fun _ => None) budget (ErrQueryTimeout "range evaluation") None
    (fun _ _ => inl (ErrOther "no operators")).

Lemma calm_valid w budget : valid_env (calm w budget).
Proof. reflexivity. Qed.

Definition literal_engine (r : Reader) (w : list (error + Response)) (budget : nat)
    : engine_params (W := list (error + Response)) (V := unit) :=
  {| ep_reader := r; ep_stale := 300 * Second; ep_ParseExpr := literal_expr;
     ep_FormatFloat v := if f64_eqb v (f64_of_Z 1) then "1" else "0"; ep_FormatTime := time_text;
     ep_outside _ _ := (calm w budget, tt); ep_ParseMetricSelector _ := None; ep_now _ := 0;
     ep_targetVals _ := []; ep_time_json _ := None |}.

Definition two_readers : Reader := mkReader [plain_client; plain_client] {["site" := "a"]}.
Definition instant_request (q t : string) : ApiRequest :=
  mkApiRequest {["query" := [q]; "time" := [t]]} "/api/v1/query" EmptyString.
End LiteralEngine.

Section examples.
Import LiteralEngine.

Definition demo_engine : engine_params := literal_engine two_readers [answer 200 fixed_body] 3.
#[local] Instance demo_api : APILib unit := engine_api demo_engine.

(** What a remote returns, without its external label. *)
Definition up_stream : sampleStreamIterator :=
  mkSampleStreamIterator (mkSampleStream {["__name__" := "up"]} [mkSamplePair 1000 f64_zero]).

Lemma instant_query_correct_witness :
  exists l, query tt []
      (instant_request "up offset 1s" "60") [] = Some (Ret (tt, inr (DQuery (PromVector l)))) /\
    exists s, s ∈ l /\ Fingerprint (SMetric s) = fingerprint_of up_stream.
Proof.
  destruct (instant_query_correct demo_engine tt [] (instant_request "up offset 1s" "60") [] (up_selector Second) 60000 None)
    as (l&Hq&[_ Hcomp _]).
  - reflexivity.
  - vm_compute. reflexivity.
  - discriminate.
  - reflexivity.
  - apply calm_valid.
  - reflexivity.
  - reflexivity.
  - intros c Hc. assert (c = plain_client) as ->.
    { apply elem_of_cons in Hc as [->|Hc]; [done|]. by apply list_elem_of_singleton in Hc. }
    eexists. split; [vm_compute; reflexivity|]. vm_compute. repeat constructor.
  - vm_compute. reflexivity.
  - exists l. split; [exact Hq|]. apply (Hcomp up_stream (mkSamplePair 1000 f64_zero)).
    + vm_compute. left.
    + left.
    + vm_compute. split; discriminate.
    + right. exists [0; 1]%nat. split; [reflexivity|]. vm_compute. reflexivity.
Defined.

(** The sum of two selectors, as a range query. *)
Definition sum_statement : EvalStmt :=
  mkEvalStmt (BinaryExpr 1 (EVectorSelector (up_selector 0)) (ParenExpr (EVectorSelector (up_selector Second))) None false)
    10000 20000 (5 * Second).

Example sum_windows : (fun w => w.1) <$> windows (300 * Second) sum_statement (es_Expr sum_statement) =
  [(-290000, 20000); (-291000, 19000)].
Proof. vm_compute. reflexivity. Qed.

Lemma populateIterators_correct_witness :
  exists e' l, populateIterators (calm [answer 200 fixed_body] 3) (300 * Second)
      (mkQuerier NoopQuerier (RemoteQuerier [] <$> Queriers two_readers)) sum_statement = Ret (e', None) /\
    populated l (es_Expr sum_statement) e' /\ length l = 2%nat.
Proof.
  destruct (populateIterators_correct (calm [answer 200 fixed_body] 3) (300 * Second) two_readers sum_statement
    (mkQuerier NoopQuerier (RemoteQuerier [] <$> Queriers two_readers)) []) as (e'&l&Hp&Hpop&Hlen&_).
  - apply calm_valid.
  - reflexivity.
  - intros k w Hw c Hc. assert (c = plain_client) as ->.
    { apply elem_of_cons in Hc as [->|Hc]; [done|]. by apply list_elem_of_singleton in Hc. }
    destruct k as [|[|k]]; [injection Hw as <-|injection Hw as <-|discriminate Hw];
      (eexists; split; [vm_compute; reflexivity|]; vm_compute; repeat constructor).
  - exists e', l. split; [exact Hp|]. split; [exact Hpop|exact Hlen].
Defined.

(** A step of a quarter of a millisecond, as a float. *)
Definition quarter : float64 := SpecFloat.S754_finite false 4503599627370496 (-64).
#[local] Instance quarter_strconv : StrconvLib := {|
  Quote s := s;
  ParseFloat s := if String.eqb s "0.000244140625" then Some quarter else parse_literal s
|}.
Definition range_request (q start end_ step : string) : ApiRequest :=
  mkApiRequest {["query" := [q]; "start" := [start]; "end" := [end_]; "step" := [step]]} "/api/v1/query_range" EmptyString.

Example quarter_accepted :
  range_params (range_request "1" "1" "2" "0.000244140625") = inr (1000, 2000, 244140).
Proof. vm_compute. reflexivity. Qed.

(** The query 1 with this step, of which the context allows three points. *)
Definition stuck_statement : EvalStmt := mkEvalStmt (NumberLiteral (f64_of_Z 1)) 1000 2000 244140.

Lemma range_query_points_witness :
  range_loop (calm [] 3) (300 * Second) stuck_statement 4096 3 0 1000 ∅ =
    Ret (inl (ErrQueryTimeout "range evaluation")).
Proof.
  destruct (range_query_points (literal_engine two_readers [] 3) (range_request "1" "1" "2" "0.000244140625")
    1000 2000 244140 (calm [] 3) stuck_statement quarter_accepted eq_refl eq_refl eq_refl) as [_ Hstuck].
  destruct Hstuck as [Hloop _]; [vm_compute; reflexivity|]. etransitivity; [exact Hloop|]. vm_compute. reflexivity.
Defined.

End examples.
