(* ===== verification/Cascade.v ===== *)
(** * Proxies over proxies ([web/api/v1/api.go] and [storage/remote/client.go])

    A remote of a proxy may be a proxy itself: the client of [storage/remote] then
    asks the handler of [/query_range] of the other. This file puts the two ends
    together: the answer of one is read back by the other, and the requests that
    one makes and the other refuses. *)
From S2P Require Import Prelude Model MetricPkg Iterator Relabel Target Json ApiParse Types Answer Client Read Fanin Querier Proxy Api Engine.
Import Matcher.

Open Scope Z_scope.

#[local] Arguments String.append : simpl nomatch.

(** ** Answers are read back *)

Section answers.
Context `{RelabelLib, MapOrder, StrconvLib, TimeLib}.
Context {W : Type} `{HTTPLib W}.
Context {V : Type} `{!ProxyLib V}.
Variable ep : engine_params (W := W) (V := V).
#[local] Instance server_engine : APILib V := engine_api ep.

Lemma json_matrix m :
  (forall s p, s ∈ m -> p ∈ SSValues s -> ep_FormatTime ep (Timestamp p) = time_text (Timestamp p)) ->
  json_Value ep (PromMatrix m) = JArr (enc_SampleStream (ep_FormatFloat ep) <$> m).
Proof.
  intros Ht. cbn [json_Value]. f_equal. apply list_fmap_ext. intros i s Hs. apply list_elem_of_lookup_2 in Hs.
  unfold json_SampleStream, enc_SampleStream. do 2 f_equal. f_equal. f_equal. f_equal.
  apply list_fmap_ext. intros j p Hp. apply list_elem_of_lookup_2 in Hp.
  unfold json_SamplePair, enc_SamplePair. by rewrite (Ht s p Hs Hp).
Qed.

(** The statement and the timeout of a request to [/query_range]. *)
Definition range_statement (rq : ApiRequest) (s : EvalStmt) (timeout : option Duration) : Prop :=
  range_params rq = inr (es_Start s, es_End s, es_Interval s) /\
  ep_ParseExpr ep (FormValue rq "query") = inr (es_Expr s) /\ query_timeout rq = inr timeout.

(** C10: The answer of a proxy to a range query is read back by another. If the
    handler of a proxy answers a range query with 200, its body is the JSON of
    the matrix that the query was evaluated to; and a client that gets this
    reply (Client.Read) takes from it the same matrix: the streams in order,
    none of them nil, each with its metric and the times and values of its
    samples. This holds for labels in UTF-8 and times not before the epoch, if
    floats are printed without characters that JSON escapes and parsed back, and
    times are printed as seconds. *)
Theorem range_reply_roundtrip (v v' : V) (ts : list Target) (rq : ApiRequest) (sched : list nat) (rp : reply) :
  serve queryRange v ts rq sched = Some (Ret (v', rp)) -> rp_code rp = 200 ->
  exists s timeout m body,
    range_statement rq s timeout /\ engine_Exec ep v s timeout = Ret (v', inr (PromMatrix m)) /\ rp_body rp = Some body /\
    ((forall st, st ∈ m -> utf8_metric (SSMetric st) = true /\ forall p, p ∈ SSValues st ->
        0 <= Timestamp p <= MaxInt64 /\ ep_FormatTime ep (Timestamp p) = time_text (Timestamp p) /\
        escape (ep_FormatFloat ep (Value p)) = ep_FormatFloat ep (Value p) /\
        ParseFloat (ep_FormatFloat ep (Value p)) = Some (Value p)) ->
     forall resp, StatusCode resp = rp_code rp -> resp_body resp = body -> resp_error resp = None ->
       read_response (inr resp) = inr (Some <$> m)).
Proof.
  unfold serve. destruct (queryRange v ts rq sched) as [[[v1 res]|p]|] eqn:Hq; [|done..].
  cbn [mbind outcome_bind fst snd]. intros [= -> <-] Hcode.
  assert (exists s timeout m, range_statement rq s timeout /\ engine_Exec ep v s timeout = Ret (v', inr (PromMatrix m)) /\
    res = inr (DQuery (PromMatrix m))) as (s&timeout&m&Hstmt&Hexec&->).
  { revert Hq. unfold queryRange. destruct (range_params rq) as [e|[[start end_] step]] eqn:Hp; [by intros [= _ <-]|].
    destruct (query_timeout rq) as [e|timeout] eqn:Ht; [by intros [= _ <-]|]. cbn [NewRangeQuery engine_api server_engine].
    destruct (engine_NewRangeQuery _ _ _ _ _) as [e|s] eqn:Hn; [by intros [= _ <-]|]. cbn [Exec engine_api server_engine].
    destruct (engine_Exec ep v s timeout) as [[v2 [[]|val]]|p] eqn:Hx; try done; cbn [mbind outcome_bind fst snd query_result];
      intros [= -> <-]; try done.
    exists s, timeout. assert (range_statement rq s timeout) as Hs.
    { unfold engine_NewRangeQuery in Hn. destruct (ep_ParseExpr ep _) as [|x] eqn:Hx'; [done|].
      unfold range_statement. rewrite Hp, Hx'. by destruct (Expr_Type x); try done; injection Hn as <-. }
    enough (exists m, val = PromMatrix m) as [m ->] by by exists m.
    destruct Hs as [(_&_&_&_&Hpos&_)%range_params_correct _]. unfold engine_Exec in Hx.
    destruct (ep_outside ep v timeout) as [env v3]. destruct (exec _ _ _ _) as [x|] eqn:He; [|done].
    injection Hx as _ ->. eapply exec_matrix; [|exact He]. lia. }
  exists s, timeout, m. unfold instr, respond. cbn [rp_body json_Marshal enc_response enc_data rs_data value_json engine_api server_engine].
  eexists. split; [done|]. split; [done|]. split; [done|]. intros Hm resp Hst Hbody Herr.
  apply read_response_spec. exists resp. split; [done|]. split; [unfold status_class; by rewrite Hst|].
  split; [done|]. rewrite Hbody. rewrite json_matrix by (intros st p Hst' Hp; by apply (Hm st Hst')).
  destruct (remote_answer_roundtrip (ep_FormatFloat ep) m) as (answer&Ha&Hr&_).
  { intros st Hst'. destruct (Hm st Hst') as [Hu Hp]. split; [done|]. intros p Hin.
    by destruct (Hp p Hin) as (?&_&?&?). }
  etransitivity; [apply (f_equal (fmap result_matrix)), Ha|]. cbn. by rewrite Hr.
Qed.

End answers.

(** ** Requests that are refused

    [Client.Read] asks for a point every two seconds, and the handler of
    [/query_range] accepts 11000 steps. *)

Section refused.
Context `{RelabelLib, MapOrder, StrconvLib, TimeLib}.
Context {W : Type} `{HTTPLib W}.

(** The remote: its world, its engine and what its requests see. *)
Context {V : Type} `{!ProxyLib V}.
Variable remote_ep : engine_params (W := W) (V := V).

(** A client gets the reply of the handler of [/query_range] of an API to a
    request with the parameters of the URL. *)
Definition answered_by_api (w : W) (c : Client) (u : URL) : Prop :=
  exists w' resp v ts rq sched v' rp,
    http_Do w (client c) (timeout c) (mkRequest "GET" (url_String u) ∅ EmptyString) = (w', inr resp) /\
    rq_form rq = url_Query u /\
    serve (queryRange (APILib0 := engine_api remote_ep)) v ts rq sched = Some (Ret (v', rp)) /\
    StatusCode resp = rp_code rp.

(** The seconds that the client writes into the URL. *)
Definition asked (t : Time) : Z := Z.quot t 1000.

(** The texts that the client writes are read as the numbers they stand for. *)
Definition parses_back (t : Time) : Prop := parseTime (Itoa (asked t)) = inr (1000 * asked t).

Lemma FormValue_single rq k v : rq_form rq !! k = Some [v] -> FormValue rq k = v.
Proof. unfold FormValue. by intros ->. Qed.

Lemma range_params_refused rq (from through : Time) :
  FormValue rq "start" = Itoa (asked from) -> FormValue rq "end" = Itoa (asked through) ->
  FormValue rq "step" = "2" -> parses_back from -> parses_back through -> parseDuration "2" = inr (2 * Second) ->
  22002 <= asked through - asked from <= 9223372036 ->
  exists e, range_params rq = inl e.
Proof.
  intros Hs He Hst Hpf Hpt Hp2 Hlong. destruct (range_params rq) as [e|[[start end_] step]] eqn:Hr; [by exists e|exfalso].
  apply range_params_correct in Hr as (Hs'&He'&Hst'&_&_&Hq).
  rewrite Hs, Hpf in Hs'. rewrite He, Hpt in He'. rewrite Hst, Hp2 in Hst'.
  injection Hs' as <-. injection He' as <-. injection Hst' as <-.
  assert (Sub (1000 * asked through) (1000 * asked from) = (asked through - asked from) * Second) as Hsub.
  { unfold Sub. change minimumTick with 1000000. change Second with 1000000000.
    rewrite (int64_id (1000 * asked through - 1000 * asked from)) by (unfold in_int64, MinInt64, MaxInt64; lia).
    rewrite int64_id by (unfold in_int64, MinInt64, MaxInt64; lia). lia. }
  rewrite Hsub in Hq. change Second with 1000000000 in Hq. rewrite Z.quot_div_nonneg in Hq by lia.
  assert (11001 <= (asked through - asked from) * 1000000000 / (2 * 1000000000)); [|lia].
  apply Z.div_le_lower_bound; lia.
Qed.

(** The reader of the proxy, and the window it asks for. *)
Variable r : Reader (W := W).
Variables (from through : Time) (ms : list LabelMatcher).
Hypothesis Hlong : 22002 <= asked through - asked from <= 9223372036.
Hypothesis Hfrom : parses_back from.
Hypothesis Hthrough : parses_back through.
Hypothesis Htwo : parseDuration "2" = inr (2 * Second).
Hypothesis Hms : Forall known_type ms.

(** The remote of a client is such a server, for whatever selector. *)
Definition api_remote (w : W) (c : Client) : Prop :=
  no_empty_values (url_Query (url c)) /\
  forall s, let u := url_read (url c) from through s in
    url_valid (url_String u) = None /\ answered_by_api w c u.

Lemma api_refuses w c :
  api_remote w c -> exists err, remote_answer r w from through ms c = Ret ([], Some err).
Proof.
  intros [Hq Hu]. unfold remote_answer, Querier_QueryRange, QueryRange, read.
  destruct (addExternalLabels_spec (Read.mkQuerier c (r_externalLabels r)) ms) as (added&->&Hadd).
  cbn [mbind outcome_bind q_client].
  assert (Forall known_type (ms ++ added)) as Hk.
  { apply Forall_app. split; [done|]. clear - Hadd. induction Hadd as [|kv m l added (_&Ht&_) _ IH]; constructor; [|done].
    intros k. by rewrite Ht. }
  destruct (LabelMatchers_String_known _ Hk) as [s Hs]. destruct (Hu s) as [Hv Hans].
  pose proof (Client_Read_exchange c w from through _ s Hk Hs Hv) as Hread. cbv zeta in Hread. rewrite Hread. clear Hread.
  destruct Hans as (w'&resp&v&ts&rq&sched&v'&rp&->&Hform&Hserve&Hcode). cbn [mbind outcome_bind].
  destruct (read_values_lookup (url_Query (url c)) from through s) as (Hst&Hen&_&Hsp&_).
  rewrite <- url_read_Query in Hst, Hen, Hsp by done. rewrite <- Hform in Hst, Hen, Hsp.
  apply FormValue_single in Hst, Hen, Hsp.
  destruct (range_params_refused rq from through Hst Hen Hsp Hfrom Hthrough Htwo Hlong) as [e He].
  assert (StatusCode resp = 400) as H400.
  { unfold serve, queryRange in Hserve. rewrite He in Hserve. by injection Hserve as _ <-. }
  unfold read_response. rewrite H400. cbn. by eexists.
Qed.

End refused.

(** ** What the user of the outer proxy sees *)

Section unanswered.
Context `{RelabelLib, MapOrder, StrconvLib, TimeLib}.
Context {W : Type} `{HTTPLib W}.
Context {V : Type} `{!ProxyLib V}.
Context {V' : Type} `{!ProxyLib V'}.
Variable ep : engine_params (W := W) (V := V).
Variable remote_ep : engine_params (W := W) (V := V').

#[local] Instance outer_engine : APILib V := engine_api ep.

(** C9: A long range query over proxies is answered with nothing. Let the query of
    a request to /query_range, with a step of a millisecond or more, be a selector
    whose window (the range and the staleness delta before it) is of 22002
    seconds or more, a bit over six hours, and at most 9223372036 (292 years), with
    bounds that the remotes parse back. Let its context last: it is free to run at
    once, no interruption or end of it comes before the evaluation is over, and it
    does not restrict the query to local data. If every remote is a server of
    this API, then every one of them refuses the request that the client makes,
    which asks for a point every two seconds, because it exceeds the 11000
    points; the fan-in drops these errors; and the proxy answers 200 with an empty
    matrix, as if there were no series, whatever data the remotes have and however
    few points the user asked for. *)
Theorem long_range_unanswered (v : V) (ts : list Target) (rq : ApiRequest) (sched : list nat) (n : VectorSelector)
    (start end_ : Time) (step : Duration) (timeout : option Duration) :
  let s := mkEvalStmt (EVectorSelector n) start end_ step in
  let env := (ep_outside ep v timeout).1 in
  let w := vector_window (ep_stale ep) s n in
  range_params rq = inr (start, end_, step) -> minimumTick <= step -> query_timeout rq = inr timeout ->
  ep_ParseExpr ep (FormValue rq "query") = inr (EVectorSelector n) -> Forall known_type (vs_LabelMatchers n) ->
  valid_env env -> qe_gate env = None -> (forall i, qe_interrupt env i = None) -> qe_end env = None ->
  (number_of_points s <= qe_budget env)%nat ->
  22002 <= asked w.1.2 - asked w.1.1 <= 9223372036 ->
  parses_back w.1.1 -> parses_back w.1.2 -> parseDuration "2" = inr (2 * Second) ->
  (forall c, c ∈ clients (ep_reader ep) -> api_remote remote_ep w.1.1 w.1.2 (qe_world env 0) c) ->
  queryRange v ts rq sched = Some (Ret ((ep_outside ep v timeout).2, inr (DQuery (PromMatrix [])))).
Proof.
  intros s env w Hrq Hstep Htimeout Hparse Hms Henv Hgate Hint Hend Hbudget Hlong Hfrom Hthrough Htwo Hremotes.
  assert (exec env (ep_stale ep) (ep_reader ep) s = Ret (inr (PromMatrix []))) as Hexec.
  { apply (exec_unanswered ep rq env s n w); try done. intros c Hc.
    apply (api_refuses remote_ep (ep_reader ep) w.1.1 w.1.2 w.2); try done. by apply Hremotes. }
  unfold queryRange. rewrite Hrq, Htimeout. cbn [NewRangeQuery engine_api outer_engine].
  unfold engine_NewRangeQuery. rewrite Hparse. cbn [Expr_Type Exec engine_api outer_engine]. unfold engine_Exec.
  subst env. destruct (ep_outside ep v timeout) as [env v']. cbn [fst snd] in *. fold s. by rewrite Hexec.
Qed.

End unanswered.

(** ** A proxy over a proxy *)

Section examples.
Import LiteralEngine.
#[local] Existing Instance LiteralRegexp.plain_quote.

Definition one_reader : Reader := mkReader [plain_client] ∅.
Definition demo_remote : engine_params := literal_engine one_reader [] 10.
Definition range_request (q start end_ step : string) : ApiRequest :=
  mkApiRequest {["query" := [q]; "start" := [start]; "end" := [end_]; "step" := [step]]} "/api/v1/query_range" EmptyString.

(** The number 1 at three points. *)
Definition ones : Matrix := [mkSampleStream ∅
  [mkSamplePair 1000 (f64_of_Z 1); mkSamplePair 2000 (f64_of_Z 1); mkSamplePair 3000 (f64_of_Z 1)]].
Definition ones_reply : option (outcome (unit * reply)) :=
  serve (queryRange (APILib0 := engine_api demo_remote)) tt [] (range_request "1" "1" "3" "1") [].

Lemma ones_replied : exists rp, ones_reply = Some (Ret (tt, rp)) /\ rp_code rp = 200.
Proof. unfold ones_reply. eexists. split; [vm_compute; reflexivity|reflexivity]. Qed.

Definition ones_statement : EvalStmt := mkEvalStmt (NumberLiteral (f64_of_Z 1)) 1000 3000 Second.

Lemma ones_executed : engine_Exec demo_remote tt ones_statement None = Ret (tt, inr (PromMatrix ones)).
Proof. vm_compute. reflexivity. Qed.

Lemma ones_stated s timeout :
  range_statement demo_remote (range_request "1" "1" "3" "1") s timeout -> s = ones_statement /\ timeout = None.
Proof.
  assert (range_params (range_request "1" "1" "3" "1") = inr (1000, 3000, Second)) as Hp by (vm_compute; reflexivity).
  intros (Hr&He&Ht). rewrite Hp in Hr. injection Hr as Hs Hn Hi. injection Ht as <-.
  change (inr (NumberLiteral (f64_of_Z 1)) = (inr (es_Expr s) : error + Expr)) in He. injection He as He.
  split; [|done]. destruct s. cbn in *. by subst.
Qed.

Lemma ones_printable p :
  p ∈ [mkSamplePair 1000 (f64_of_Z 1); mkSamplePair 2000 (f64_of_Z 1); mkSamplePair 3000 (f64_of_Z 1)] ->
  0 <= Timestamp p <= MaxInt64 /\ ep_FormatTime demo_remote (Timestamp p) = time_text (Timestamp p) /\
  escape (ep_FormatFloat demo_remote (Value p)) = ep_FormatFloat demo_remote (Value p) /\
  ParseFloat (ep_FormatFloat demo_remote (Value p)) = Some (Value p).
Proof.
  intros Hp. assert (0 <= Timestamp p <= MaxInt64 /\ Value p = f64_of_Z 1) as [Ht Hv].
  { rewrite !elem_of_cons in Hp. unfold MaxInt64. destruct Hp as [->|[->|[->|Hp]]]; [cbn; split; [lia|done]..|].
    by apply elem_of_nil in Hp. }
  split_ands; [lia|lia|done|rewrite Hv; vm_compute; reflexivity|rewrite Hv; vm_compute; reflexivity].
Qed.

Lemma range_reply_roundtrip_witness :
  exists body, read_response (inr (mkResponse 200 "200 OK" body None)) = inr (Some <$> ones).
Proof.
  destruct ones_replied as (rp&Hserve&Hcode).
  destruct (range_reply_roundtrip demo_remote tt tt [] (range_request "1" "1" "3" "1") [] rp Hserve Hcode)
    as (s&timeout&m&body&Hstmt&Hexec&_&Hread).
  exists body. destruct (ones_stated s timeout Hstmt) as [-> ->]. rewrite ones_executed in Hexec.
  injection Hexec as <-. apply Hread; [|by rewrite Hcode|reflexivity|reflexivity].
  intros st ->%list_elem_of_singleton. split; [reflexivity|]. intros p Hp. cbn [SSValues] in Hp.
  by apply ones_printable.
Defined.

(** A query over eight hours with a point a minute; the remote answers 400. *)
Definition eight_hours : ApiRequest := range_request "up" "0" "30000" "60".
Definition refusing : list (error + Response) := [answer 400 EmptyString].
Definition outer : engine_params (V := unit) := literal_engine one_reader refusing 1000.

Lemma eight_hours_window :
  vector_window (300 * Second) (mkEvalStmt (EVectorSelector (up_selector 0)) 0 30000000 (60 * Second)) (up_selector 0) =
    (-300000, 30000000, [up_matcher]).
Proof. vm_compute. reflexivity. Qed.

Lemma refusing_remote : api_remote demo_remote (-300000) 30000000 refusing plain_client.
Proof.
  assert (no_empty_values (url_Query (url plain_client))) as Hq by (intros k l Hk; vm_compute in Hk; discriminate).
  split; [exact Hq|]. intros s u. split; [reflexivity|].
  set (rq := mkApiRequest (url_Query u) EmptyString EmptyString).
  destruct (range_params_refused rq (-300000) 30000000) as [e He].
  - apply FormValue_single. unfold rq, u. cbn [rq_form]. rewrite (url_read_Query _ _ _ _ Hq). apply read_values_lookup.
  - apply FormValue_single. unfold rq, u. cbn [rq_form]. rewrite (url_read_Query _ _ _ _ Hq). apply read_values_lookup.
  - apply FormValue_single. unfold rq, u. cbn [rq_form]. rewrite (url_read_Query _ _ _ _ Hq). apply read_values_lookup.
  - vm_compute. reflexivity.
  - vm_compute. reflexivity.
  - vm_compute. reflexivity.
  - vm_compute. split; discriminate.
  - exists [], (mkResponse 400 "status" EmptyString None), tt, [], rq, [], tt, (instr (APILib0 := engine_api demo_remote) (bad_data e)).
    split; [reflexivity|]. split; [reflexivity|]. split; [|reflexivity].
    unfold serve, queryRange. by rewrite He.
Qed.

Lemma long_range_unanswered_witness :
  queryRange (APILib0 := outer_engine outer) tt [] eight_hours [] =
    Some (Ret ((ep_outside outer tt None).2, inr (DQuery (PromMatrix [] : PValue (APILib := outer_engine outer))))).
Proof.
  apply (long_range_unanswered outer demo_remote tt [] eight_hours [] (up_selector 0) 0 30000000 (60 * Second) None).
  - vm_compute. reflexivity.
  - vm_compute. discriminate.
  - reflexivity.
  - reflexivity.
  - repeat constructor; discriminate.
  - apply calm_valid.
  - reflexivity.
  - reflexivity.
  - reflexivity.
  - apply (bool_decide_unpack _). vm_compute. exact I.
  - change (ep_stale outer) with (300 * Second). rewrite eight_hours_window. vm_compute. split; discriminate.
  - vm_compute. reflexivity.
  - vm_compute. reflexivity.
  - vm_compute. reflexivity.
  - intros c ->%list_elem_of_singleton. exact refusing_remote.
Defined.

End examples.
