(* ===== verification/Flags.v ===== *)
(** * Command line flags ([cmd/config.go])

    The flag set and its defaults, the checks of [parse], the two normalised
    paths, the help text, and the comma-separated sets. Flag parsing, the host
    name, URL validation and URL parsing are the class [FlagLib]; the functions
    of [strings] the file uses are written out. *)
From stdpp Require Import pretty.
From S2P Require Import Prelude Model MetricPkg Relabel Storage Target.
Import Matcher.

#[local] Arguments String.append : simpl nomatch.

(** ** The functions of [strings] *)

Definition is_slash (b : ascii) : bool := Ascii.eqb b "/".

(** [strings.TrimRight] and [strings.TrimLeft] with the cutset ["/"]. *)
Fixpoint TrimRight_slash (s : string) : string :=
  match s with
  | EmptyString => EmptyString
  | String.String b s =>
      match TrimRight_slash s with
      | EmptyString => if is_slash b then EmptyString else String.String b EmptyString
      | r => String.String b r
      end
  end.
Fixpoint TrimLeft_slash (s : string) : string :=
  match s with
  | String.String b s' => if is_slash b then TrimLeft_slash s' else s
  | EmptyString => EmptyString
  end.
Definition Trim_slash (s : string) : string := TrimRight_slash (TrimLeft_slash s).

(** [strings.SplitAfter] by one byte: the separators stay at the ends. *)
Fixpoint SplitAfter (sep : ascii) (s : string) : list string :=
  match s with
  | EmptyString => [EmptyString]
  | String.String b s =>
      if Ascii.eqb b sep then String.String b EmptyString :: SplitAfter sep s
      else
        match SplitAfter sep s with
        | [] => [String.String b EmptyString]
        | x :: l => String.String b x :: l
        end
  end.

(** The UTF-8 encodings of the white space of [unicode.IsSpace]. *)
Definition byte (n : nat) : ascii := Ascii.ascii_of_nat n.
Definition white_space : list (list ascii) :=
  ((fun n => [byte n]) <$> [9; 10; 11; 12; 13; 32]%nat) ++
  [[byte 194; byte 133]; [byte 194; byte 160]; [byte 225; byte 154; byte 128];
   [byte 226; byte 128; byte 168]; [byte 226; byte 128; byte 169]; [byte 226; byte 128; byte 175];
   [byte 226; byte 129; byte 159]; [byte 227; byte 128; byte 128]] ++
  ((fun n => [byte 226; byte 128; byte n]) <$> seq 128 11).

Fixpoint drop_prefix (p l : list ascii) : option (list ascii) :=
  match p, l with
  | [], _ => Some l
  | a :: p, b :: l => if Ascii.eqb a b then drop_prefix p l else None
  | _ :: _, [] => None
  end.
Fixpoint drop_one_of (ps : list (list ascii)) (l : list ascii) : option (list ascii) :=
  match ps with
  | [] => None
  | p :: ps => match drop_prefix p l with Some r => Some r | None => drop_one_of ps l end
  end.

(** Every pattern has a byte, so the length is fuel enough. *)
Fixpoint trim_list (fuel : nat) (ps : list (list ascii)) (l : list ascii) : list ascii :=
  match fuel with
  | O => l
  | S fuel => match drop_one_of ps l with Some r => trim_list fuel ps r | None => l end
  end.

Definition trim_bytes (l : list ascii) : list ascii :=
  let l := trim_list (length l) white_space l in
  @rev ascii (trim_list (length l) ((@rev ascii) <$> white_space) (@rev ascii l)).

Definition TrimSpace (s : string) : string :=
  String.string_of_list_ascii (trim_bytes (String.list_ascii_of_string s)).

(** ** The configuration the flags fill in *)

Class FlagLib := {
  ExtURL : Type;
  url_Path : ExtURL -> string;
  set_Path : ExtURL -> string -> ExtURL;
  url_Path_set u path : url_Path (set_Path u path) = path;
  Hostname : error + string;
  IsURL : string -> bool;
  url_Parse : string -> error + ExtURL
}.

Section flags.
Context `{StrconvLib, FlagLib}.

(** The fields of [cfg] and of [cfg.web] that flags set. *)
Record FlagConfig := mkFlagConfig {
  printVersion : bool;
  configFile : string;
  prometheusURL : string;
  localStorageEngine : string;
  StalenessDelta : Duration;
  queryTimeout : Duration;
  MaxConcurrentQueries : Z;
  ListenAddress : string;
  MaxConnections : Z;
  RoutePrefix : string;
  ExternalURL : option ExtURL
}.

(** [init]: the names of the flags and the defaults; [stale] is the default of
    the PromQL package. No flag sets [printVersion]. *)
Definition flag_names : list string := [
  "config.file"; "web.listen-address"; "web.max-connections"; "web.external-url"; "web.route-prefix";
  "storage.local.engine"; "query.staleness-delta"; "query.timeout"; "query.max-concurrency"].
Definition init (stale : Duration) : FlagConfig :=
  mkFlagConfig false "prometheus.yml" EmptyString "remoteprometheus" stale (120 * Second)%Z 20
    ":9090" 512 EmptyString None.

Definition set_urls (c : FlagConfig) (prometheusURL RoutePrefix : string) (u : option ExtURL) : FlagConfig :=
  mkFlagConfig (printVersion c) (configFile c) prometheusURL (localStorageEngine c) (StalenessDelta c)
    (queryTimeout c) (MaxConcurrentQueries c) (ListenAddress c) (MaxConnections c) RoutePrefix u.

(** The default of the external URL, from the host name and the port. *)
Definition default_url (c : FlagConfig) : error + string :=
  if String.eqb (prometheusURL c) EmptyString then
    match Hostname with
    | inl e => inl e
    | inr hostname =>
        match SplitHostPort (ListenAddress c) with
        | inl e => inl e
        | inr (_, port) => inr ("http://" +:+ hostname +:+ ":" +:+ port +:+ "/")
        end
    end
  else inr (prometheusURL c).

(** The path without slashes at its end, and with one at its beginning. *)
Definition external_path (path : string) : string :=
  let ppref := TrimRight_slash path in
  if negb (String.eqb ppref EmptyString) && negb (HasPrefix ppref "/") then "/" +:+ ppref else ppref.

Definition parsePrometheusURL (c : FlagConfig) : FlagConfig * option error :=
  match default_url c with
  | inl e => (c, Some e)
  | inr u =>
      let c := set_urls c u (RoutePrefix c) (ExternalURL c) in
      if negb (IsURL u) then (c, Some ("invalid Prometheus URL: " +:+ u))
      else
        match url_Parse u with
        | inl e => (c, Some e)
        | inr promURL =>
            (set_urls c u (RoutePrefix c) (Some (set_Path promURL (external_path (url_Path promURL)))), None)
        end
  end.

(** [fs_Parse] is what [cfg.fs.Parse] does: the flags it has set, the arguments
    it has left, and its error. *)
Definition parse (fs_Parse : FlagConfig -> list string -> FlagConfig * list string * option error)
    (c : FlagConfig) (args : list string) : FlagConfig * option error :=
  let '(c, rest, err) := fs_Parse c args in
  match err, rest with
  | Some e, _ => (c, Some e)
  | None, arg :: _ => (c, Some ("Non-flag argument on command line: " +:+ Quote arg))
  | None, [] =>
      match parsePrometheusURL c with
      | (c, Some e) => (c, Some e)
      | (c, None) =>
          let path := match ExternalURL c with Some u => url_Path u | None => EmptyString end in
          let prefix := if String.eqb (RoutePrefix c) EmptyString then path else RoutePrefix c in
          (set_urls c (prometheusURL c) ("/" +:+ Trim_slash prefix) (ExternalURL c), None)
      end
  end.

(** ** Flags that are kept but not used *)

Record unusedFlag := mkUnusedFlag { uf_name : string; uf_value : string; uf_help : string }.
Definition unusedFlag_Set (f : unusedFlag) (v : string) : unusedFlag * option error :=
  (mkUnusedFlag (uf_name f) v (uf_help f), None).
Definition unusedFlag_String (f : unusedFlag) : string := uf_value f.
Definition registerUnusedFlags (fs : list unusedFlag) (help : string) (flags : list string) : list unusedFlag :=
  foldl (fun fs name => fs ++ [mkUnusedFlag name EmptyString help]) fs flags.

(** ** The help text *)

(** The loop of [wrap], with its variables [ns] and [length]. *)
Fixpoint wrap_loop (width indent : nat) (words : list string) (ns : string) (len : nat) : string :=
  match words with
  | [] => ns
  | w :: words =>
      let '(ns, len) :=
        if Nat.ltb width (len + String.length w)
        then (ns +:+ String.String (byte 10) (Repeat " " indent), 0%nat) else (ns, len) in
      wrap_loop width indent words (ns +:+ w) (len + String.length w)
  end.

(** [width - indent] stays positive for the arguments of the template. *)
Definition wrap (width indent : nat) (s : string) : string :=
  TrimSpace (wrap_loop (width - indent) indent (SplitAfter " " s) EmptyString indent).

(** [unicode.IsDigit] of the first byte, which as a rune is below 256. *)
Definition quote_default (s : string) : string :=
  match s with
  | EmptyString => s
  | String.String b _ =>
      if String.eqb s "false" || String.eqb s "true" || is_digit b then s else Quote s
  end.

(** The buckets of [usage]: a flag is known by its name. *)
Definition category (name : string) : string :=
  match Split "." name with
  | x :: _ :: _ => x
  | _ => "."
  end.
Definition bucket (names : list string) : gmap string (list string) :=
  foldl (fun groups name =>
    let cat := category name in <[cat := default [] (groups !! cat) ++ [name]]> groups) ∅ names.

(** The second loop visits the categories in the order [l]; a small one is moved
    to the category ["."], which the loop leaves alone. *)
Definition regroup (l : list (string * list string)) (groups : gmap string (list string))
    : gmap string (list string) :=
  foldl (fun groups '(cat, fl) =>
    if Nat.ltb (length fl) 2 && negb (String.eqb cat ".")
    then delete cat (<["." := default [] (groups !! ".") ++ fl]> groups) else groups) groups l.

Definition text_of (l : list string) : string := foldr String.append EmptyString l.
Definition newline : string := String.String (byte 10) EmptyString.

(** [strings.ToUpper] of a category: the names of flags are ASCII. *)
Definition upper_byte (b : ascii) : ascii :=
  let n := Ascii.nat_of_ascii b in if Nat.leb 97 n && Nat.leb n 122 then byte (n - 32) else b.
Fixpoint ToUpper (s : string) : string :=
  match s with EmptyString => s | String.String b s => String.String (upper_byte b) (ToUpper s) end.

Record Flag := mkFlag { fl_Name : string; fl_DefValue : string; fl_Usage : string }.

(** [helpTmpl] for a flag, a group and all the groups; the template visits a map
    in the order of its keys. *)
Definition flag_block (f : Flag) : string :=
  newline +:+ "   -" +:+ fl_Name f +:+ " " +:+ quote_default (fl_DefValue f) +:+
  newline +:+ "      " +:+ wrap 80 6 (fl_Usage f) +:+ newline +:+ "  ".
Definition group_block (cat : string) (flags : list Flag) : string :=
  (if String.eqb cat "." then EmptyString else " == " +:+ ToUpper cat +:+ " ==") +:+
  newline +:+ "  " +:+ text_of (flag_block <$> flags) +:+ newline.

Definition named (flags : list Flag) (names : list string) : list Flag :=
  omap (fun n => List.find (fun f => String.eqb (fl_Name f) n) flags) names.

(** [usage], when its second loop visits the categories in the order [l]. *)
Definition usage (flags : list Flag) (l : list (string * list string)) : string :=
  let groups := regroup l (bucket (fl_Name <$> flags)) in
  "usage: prometheus [<args>]" +:+ newline +:+
  text_of ((fun cat => group_block cat (named flags (default [] (groups !! cat)))) <$>
             sort_strings (map_to_list groups).*1).

(** ** Sets of strings *)

Definition stringset : Type := gset string.

Definition stringset_Set (ss : stringset) (s : string) : stringset * option error :=
  (foldl (fun ss v =>
     let v := TrimSpace v in if String.eqb v EmptyString then ss else {[v]} ∪ ss) ss (Split "," s), None).

Definition stringset_slice (ss : stringset) : list string := merge_sort String.le (elements ss).

Definition stringset_String (ss : stringset) : string := strings_Join (stringset_slice ss) ",".

End flags.

(** ** Slashes *)

Definition no_trailing_slash (s : string) : Prop := forall t, s <> t +:+ "/".
Definition no_leading_slash (s : string) : Prop := HasPrefix s "/" = false.

Lemma TrimRight_slash_spec s :
  no_trailing_slash (TrimRight_slash s) /\ exists k, s = TrimRight_slash s +:+ Repeat "/" k.
Proof.
  induction s as [|b s [IH (k&Hk)]]; cbn [TrimRight_slash].
  { split; [|by exists 0%nat]. intros [|a t]; done. }
  destruct (TrimRight_slash s) as [|a r] eqn:Hr.
  - destruct (Ascii.eqb_spec b "/") as [->|Hb]; unfold is_slash.
    + rewrite Ascii.eqb_refl. split; [intros [|x t]; done|]. exists (S k). cbn [Repeat]. by rewrite Hk.
    + rewrite (proj2 (Ascii.eqb_neq _ _) Hb). split.
      * intros [|x [|y t]]; intros Ht; injection Ht; try done.
      * exists k. cbn [String.append]. by rewrite Hk.
  - split; [|exists k; cbn [String.append] in *; by rewrite Hk].
    intros [|x t] Ht; [done|]. injection Ht as _ Ht. by apply (IH t).
Qed.

Lemma TrimLeft_slash_spec s :
  no_leading_slash (TrimLeft_slash s) /\ exists k, s = Repeat "/" k +:+ TrimLeft_slash s.
Proof.
  induction s as [|b s [IH (k&Hk)]]; cbn [TrimLeft_slash].
  { split; [done|by exists 0%nat]. }
  destruct (Ascii.eqb_spec b "/") as [->|Hb]; unfold is_slash.
  - rewrite Ascii.eqb_refl. split; [done|]. exists (S k). cbn [Repeat]. rewrite string_app_assoc.
    cbn [String.append]. by rewrite <- Hk.
  - rewrite (proj2 (Ascii.eqb_neq _ _) Hb). split; [|by exists 0%nat].
    unfold no_leading_slash, HasPrefix. cbn [String.prefix]. destruct (Ascii.ascii_dec "/" b); [|done].
    congruence.
Qed.

Lemma no_leading_prefix s t : no_leading_slash (s +:+ t) -> no_leading_slash s.
Proof. destruct s as [|b s]; [done|]. unfold no_leading_slash, HasPrefix. cbn. by destruct s, t. Qed.

Lemma TrimRight_slash_id s : no_trailing_slash s -> TrimRight_slash s = s.
Proof.
  intros Hs. destruct (TrimRight_slash_spec s) as [_ ([|k]&Hk)].
  - by rewrite string_app_nil_r in Hk.
  - exfalso. assert (exists t, Repeat "/" (S k) = t +:+ "/") as [t Ht].
    { clear. induction k as [|k [t IH]]; [by exists EmptyString|]. exists ("/" +:+ t).
      cbn [Repeat] in *. by rewrite IH, string_app_assoc. }
    rewrite Ht, <- string_app_assoc in Hk. by apply (Hs (TrimRight_slash s +:+ t)).
Qed.

Lemma TrimLeft_slash_id s : no_leading_slash s -> TrimLeft_slash s = s.
Proof.
  destruct s as [|b s]; [done|]. cbn [TrimLeft_slash]. unfold no_leading_slash, HasPrefix, is_slash.
  cbn [String.prefix]. destruct (Ascii.eqb_spec b "/") as [->|]; [|done].
  destruct (Ascii.ascii_dec "/" "/"); [|done]. by destruct s.
Qed.

Lemma Trim_slash_spec s :
  no_leading_slash (Trim_slash s) /\ no_trailing_slash (Trim_slash s) /\
  exists k1 k2, s = Repeat "/" k1 +:+ Trim_slash s +:+ Repeat "/" k2.
Proof.
  unfold Trim_slash. destruct (TrimLeft_slash_spec s) as [Hl (k1&Hk1)].
  destruct (TrimRight_slash_spec (TrimLeft_slash s)) as [Hr (k2&Hk2)]. split_ands; [|done|].
  - apply no_leading_prefix with (Repeat "/" k2). by rewrite <- Hk2.
  - exists k1, k2. by rewrite <- Hk2.
Qed.

Lemma Trim_slash_id s : no_leading_slash s -> no_trailing_slash s -> Trim_slash s = s.
Proof. intros Hl Hr. unfold Trim_slash. rewrite TrimLeft_slash_id by done. by apply TrimRight_slash_id. Qed.

Lemma TrimLeft_slash_cons s : TrimLeft_slash ("/" +:+ s) = TrimLeft_slash s.
Proof. done. Qed.

Section parse_proofs.
Context `{StrconvLib, FlagLib}.

(** The external path is empty or starts with a slash, and does not end with
    one. *)
Lemma external_path_spec p :
  no_trailing_slash (external_path p) /\
  (external_path p = EmptyString \/ exists r, external_path p = "/" +:+ r) /\
  external_path (external_path p) = external_path p.
Proof.
  assert (forall s, no_trailing_slash s -> s = EmptyString \/ (exists r, s = "/" +:+ r) ->
    external_path s = s) as Hid.
  { intros s Hs Hc. unfold external_path. rewrite TrimRight_slash_id by done.
    destruct Hc as [->|[r ->]]; [done|]. by destruct r. }
  assert (forall s, HasPrefix s "/" = true -> exists r, s = "/" +:+ r) as Hpre.
  { intros [|b s]; unfold HasPrefix; cbn [String.prefix]; [done|]. destruct (Ascii.ascii_dec "/" b) as [<-|]; [|done].
    intros _. by exists s. }
  assert (no_trailing_slash (external_path p) /\
    (external_path p = EmptyString \/ exists r, external_path p = "/" +:+ r)) as [Hn Hc].
  { unfold external_path. destruct (TrimRight_slash_spec p) as [Hr _]. set (q := TrimRight_slash p) in *.
    destruct (String.eqb_spec q EmptyString) as [Hq|Hq]; cbn [negb andb]; [split; [done|by left]|].
    destruct (HasPrefix q "/") eqn:Hp; cbn [negb]; [split; [done|right; by apply Hpre]|].
    split; [|right; by exists q]. intros [|b t] Ht; [by injection Ht|].
    injection Ht as _ Ht. by apply (Hr t). }
  split; [done|]. split; [done|]. by apply Hid.
Qed.

(** Parse. Flag errors, arguments that are not flags, and errors of the
    external URL are returned. Otherwise the configuration is that of the flags
    but for the URLs: the external URL is the parsed one (by default made of the
    host name and the listening port), with a path that is empty or starts with
    a slash, and does not end with one; and the route prefix, by default that
    path, is a slash followed by a text that neither starts nor ends with one.
    Parsing once more what was parsed changes nothing. *)
Theorem parse_correct fs_Parse (c : FlagConfig) (args : list string) :
  let '(c0, rest, err) := fs_Parse c args in
  let '(c', e) := parse fs_Parse c args in
  match err, rest with
  | Some e0, _ => e = Some e0 /\ c' = c0
  | None, arg :: _ => e = Some ("Non-flag argument on command line: " +:+ Quote arg) /\ c' = c0
  | None, [] =>
      (e <> None ->
         (exists e0, default_url c0 = inl e0 /\ e = Some e0) \/
         (exists u, default_url c0 = inr u /\
            (IsURL u = false \/ exists e0, url_Parse u = inl e0 /\ e = Some e0))) /\
      (e = None -> exists u url r,
         default_url c0 = inr u /\ IsURL u = true /\ url_Parse u = inr url /\
         let path := external_path (url_Path url) in
         ExternalURL c' = Some (set_Path url path) /\ no_trailing_slash path /\
         (path = EmptyString \/ exists r, path = "/" +:+ r) /\
         RoutePrefix c' = "/" +:+ r /\ no_leading_slash r /\ no_trailing_slash r /\
         (exists k1 k2, (if String.eqb (RoutePrefix c0) EmptyString then path else RoutePrefix c0) =
            Repeat "/" k1 +:+ r +:+ Repeat "/" k2) /\
         c' = set_urls c0 u ("/" +:+ r) (ExternalURL c') /\
         "/" +:+ Trim_slash (RoutePrefix c') = RoutePrefix c')
  end.
Proof.
  unfold parse. destruct (fs_Parse c args) as [[c0 rest] err].
  destruct err as [e0|]; [done|]. destruct rest as [|arg rest]; [|done].
  unfold parsePrometheusURL. destruct (default_url c0) as [e0|u] eqn:Hu.
  { split; [|done]. intros _. left. by exists e0. }
  destruct (IsURL u) eqn:Hi; cbn [negb].
  2: { split; [|done]. intros _. right. exists u. split; [done|by left]. }
  destruct (url_Parse u) as [e0|url] eqn:Hp.
  { split; [|done]. intros _. right. exists u. split; [done|]. right. by exists e0. }
  split; [done|]. intros _. cbn [RoutePrefix ExternalURL set_urls prometheusURL].
  rewrite url_Path_set. set (path := external_path (url_Path url)).
  set (prefix := if String.eqb (RoutePrefix c0) EmptyString then path else RoutePrefix c0).
  destruct (Trim_slash_spec prefix) as (Hl&Hr&Hk). exists u, url, (Trim_slash prefix).
  destruct (external_path_spec (url_Path url)) as (Hnt&Hpath&_). split_ands; try done.
  unfold Trim_slash at 1. rewrite TrimLeft_slash_cons. fold (Trim_slash (Trim_slash prefix)).
  by rewrite (Trim_slash_id (Trim_slash prefix)).
Qed.

End parse_proofs.

(** ** Trimming white space *)

Lemma drop_prefix_Some p l r : drop_prefix p l = Some r <-> l = p ++ r.
Proof.
  revert l. induction p as [|a p IH]; intros l; cbn [drop_prefix app]; [split; congruence|].
  destruct l as [|b l]; [done|]. destruct (Ascii.eqb_spec a b) as [->|Hab].
  - rewrite IH. split; [by intros ->|by intros [= ->]].
  - split; [done|]. intros [= -> _]. done.
Qed.

Lemma drop_one_of_Some ps l r : drop_one_of ps l = Some r -> exists p, p ∈ ps /\ l = p ++ r.
Proof.
  induction ps as [|p ps IH]; [done|]. cbn [drop_one_of].
  destruct (drop_prefix p l) as [r'|] eqn:Hp.
  - intros [= ->]. exists p. split; [set_solver|]. by apply drop_prefix_Some.
  - intros (q&?&?)%IH. exists q. set_solver.
Qed.

Lemma drop_one_of_None ps l : drop_one_of ps l = None <-> forall p r, p ∈ ps -> l <> p ++ r.
Proof.
  induction ps as [|p ps IH]; cbn [drop_one_of]; [set_solver|].
  destruct (drop_prefix p l) as [r'|] eqn:Hp.
  - split; [done|]. intros Hn. exfalso. apply drop_prefix_Some in Hp. by apply (Hn p r'); [set_solver|].
  - rewrite IH. split.
    + intros Hn q r [->|Hq]%elem_of_cons; [|by apply Hn]. intros Hl%drop_prefix_Some. congruence.
    + intros Hn q r Hq. apply Hn. set_solver.
Qed.

Lemma trim_list_spec fuel ps l :
  (length l <= fuel)%nat -> [] ∉ ps ->
  drop_one_of ps (trim_list fuel ps l) = None /\ exists k, l = k ++ trim_list fuel ps l.
Proof.
  intros Hl Hps. revert l Hl. induction fuel as [|fuel IH]; intros l Hl; cbn [trim_list].
  - destruct l; [|simpl in Hl; lia]. split; [|by exists []].
    apply drop_one_of_None. intros [|a p] r Hp; [done|]. done.
  - destruct (drop_one_of ps l) as [r|] eqn:Hd; [|split; [done|by exists []]].
    apply drop_one_of_Some in Hd as (p&Hp&->). destruct p as [|a p]; [done|].
    rewrite length_app in Hl. simpl in Hl. destruct (IH r) as [Hn [k Hk]]; [lia|].
    split; [done|]. exists ((a :: p) ++ k). by rewrite <- app_assoc, <- Hk.
Qed.

Lemma trim_list_id fuel ps l : drop_one_of ps l = None -> trim_list fuel ps l = l.
Proof. destruct fuel; cbn [trim_list]; [done|]. by intros ->. Qed.

Lemma white_space_nonempty : [] ∉ white_space /\ [] ∉ ((@rev ascii) <$> white_space).
Proof. split; apply (bool_decide_unpack _); vm_compute; exact I. Qed.

Lemma trim_bytes_spec l :
  trim_bytes (trim_bytes l) = trim_bytes l /\ exists k1 k2, l = k1 ++ trim_bytes l ++ k2.
Proof.
  destruct white_space_nonempty as [Hw Hr]. unfold trim_bytes at 3 4.
  destruct (trim_list_spec (length l) white_space l ltac:(lia) Hw) as [Hn1 [k1 Hk1]].
  set (l1 := trim_list (length l) white_space l) in *.
  destruct (trim_list_spec (length l1) _ (rev l1) ltac:(rewrite length_rev; lia) Hr) as [Hn2 [k2 Hk2]].
  set (l2 := trim_list (length l1) _ (rev l1)) in *.
  assert (l1 = rev l2 ++ rev k2) as Hl1 by (rewrite <- rev_app_distr, <- Hk2; by rewrite rev_involutive).
  split; [|exists k1, (rev k2); by rewrite <- Hl1].
  assert (drop_one_of white_space (rev l2) = None) as Hn3.
  { rewrite drop_one_of_None in Hn1 |- *. intros p r Hp He. apply (Hn1 p (r ++ rev k2) Hp).
    by rewrite Hl1, He, app_assoc. }
  assert (trim_bytes l = rev l2) as -> by done.
  unfold trim_bytes. rewrite (trim_list_id _ _ _ Hn3), rev_involutive. by rewrite trim_list_id.
Qed.

Lemma list_ascii_app s t :
  String.list_ascii_of_string (s +:+ t) = String.list_ascii_of_string s ++ String.list_ascii_of_string t.
Proof. induction s as [|b s IH]; [done|]. cbn. by rewrite IH. Qed.

Lemma TrimSpace_idemp s : TrimSpace (TrimSpace s) = TrimSpace s.
Proof.
  unfold TrimSpace. rewrite String.list_ascii_of_string_of_list_ascii.
  by rewrite (proj1 (trim_bytes_spec _)).
Qed.

(** ** Splitting and joining *)

Lemma TrimSpace_has_byte c s : has_byte c (TrimSpace s) -> has_byte c s.
Proof.
  unfold has_byte, TrimSpace. rewrite String.list_ascii_of_string_of_list_ascii.
  destruct (trim_bytes_spec (String.list_ascii_of_string s)) as [_ (k1&k2&Hk)].
  intros Hc. rewrite Hk. set_solver.
Qed.

Lemma Split_Join l :
  l <> [] -> Forall (fun x => ~ has_byte "," x) l -> Split "," (strings_Join l ",") = l.
Proof.
  intros Hne Hl. induction Hl as [|x l Hx Hl IH]; [done|]. destruct l as [|y l]; cbn [strings_Join].
  - by apply Split_no_sep.
  - rewrite Split_sep by done. f_equal. by apply IH.
Qed.

(** ** Sets of strings *)

(** What [Set] can put in a set. *)
Definition element_ok (x : string) : Prop := x <> EmptyString /\ TrimSpace x = x /\ ~ has_byte "," x.

Lemma stringset_Set_elem ss s x :
  x ∈ (stringset_Set ss s).1 <-> x ∈ ss \/ (x <> EmptyString /\ exists v, v ∈ Split "," s /\ x = TrimSpace v).
Proof.
  unfold stringset_Set. cbn [fst]. generalize (Split "," s) as l. intros l. revert ss.
  induction l as [|v l IH]; intros ss; cbn [foldl]; [set_solver|].
  rewrite IH. destruct (String.eqb_spec (TrimSpace v) EmptyString) as [Hv|Hv]; [|set_solver].
  setoid_rewrite elem_of_cons. split; [naive_solver|].
  intros [?|(Hx&w&[->|Hw]&->)]; [by left|done|]. right. split; [done|]. by exists w.
Qed.

Lemma stringset_Set_ok ss s :
  (forall x, x ∈ ss -> element_ok x) -> forall x, x ∈ (stringset_Set ss s).1 -> element_ok x.
Proof.
  intros Hss x [Hx|(Hne&v&Hv&->)]%stringset_Set_elem; [by apply Hss|].
  split; [done|]. split; [apply TrimSpace_idemp|]. intros Hc%TrimSpace_has_byte.
  by apply (Split_pieces _ _ _ Hv).
Qed.

Lemma stringset_slice_elem ss x : x ∈ stringset_slice ss <-> x ∈ ss.
Proof. unfold stringset_slice. by rewrite merge_sort_Permutation, elem_of_elements. Qed.

(** String sets. Set adds the trimmed non-empty parts of its argument. For
    every set that calls of Set build up, String prints its elements in
    increasing order, and setting the empty set to what String printed gives the
    set back: so the text determines the set. *)
Theorem stringset_roundtrip (texts : list string) :
  let ss := foldl (fun ss s => (stringset_Set ss s).1) ∅ texts in
  (forall x, x ∈ ss <-> x <> EmptyString /\ exists s v, s ∈ texts /\ v ∈ Split "," s /\ x = TrimSpace v) /\
  StronglySorted String.le (stringset_slice ss) /\ NoDup (stringset_slice ss) /\
  stringset_Set ∅ (stringset_String ss) = (ss, None).
Proof.
  cbv zeta. set (ss := foldl _ ∅ texts).
  assert (forall x, x ∈ ss <-> x <> EmptyString /\ exists s v, s ∈ texts /\ v ∈ Split "," s /\ x = TrimSpace v)
    as Hel.
  { unfold ss. clear ss. induction texts as [|s texts IH] using rev_ind; intros x; [set_solver|].
    rewrite foldl_app. cbn [foldl]. rewrite stringset_Set_elem, IH.
    setoid_rewrite elem_of_app. setoid_rewrite list_elem_of_singleton. naive_solver. }
  assert (forall x, x ∈ ss -> element_ok x) as Hok.
  { unfold ss. clear. induction texts as [|s texts IH] using rev_ind; [set_solver|].
    rewrite foldl_app. by apply stringset_Set_ok. }
  split; [done|]. split; [apply Sorted_StronglySorted, Sorted_merge_sort; apply _|].
  split; [unfold stringset_slice; rewrite merge_sort_Permutation; apply NoDup_elements|].
  assert ((stringset_Set ∅ (stringset_String ss)).1 = ss) as Heq; [|by rewrite <- Heq at 2].
  apply set_eq. intros x. rewrite stringset_Set_elem. unfold stringset_String.
  destruct (stringset_slice ss) as [|y l] eqn:Hs.
  - assert (x ∉ ss) by (rewrite <- stringset_slice_elem, Hs; set_solver).
    split; [|done]. intros [?%elem_of_empty|(Hx&v&Hv&->)]; [done|]. cbn in Hv.
    apply list_elem_of_singleton in Hv as ->. done.
  - rewrite Split_Join; [|done|].
    2: { apply Forall_forall. intros z Hz. rewrite <- Hs in Hz.
         apply stringset_slice_elem, Hok in Hz. apply Hz. }
    rewrite <- Hs. split.
    + intros [?%elem_of_empty|(_&v&Hv&->)]; [done|]. apply stringset_slice_elem in Hv.
      destruct (Hok v Hv) as (_&->&_). done.
    + intros Hx. right. destruct (Hok x Hx) as (Hne&Ht&_). split; [done|]. exists x.
      by rewrite stringset_slice_elem.
Qed.

(** ** The help text *)

Definition line_break (indent : nat) : string := String.String (byte 10) (Repeat " " indent).

(** A line that fits: all its words, or a single word that is too long. *)
Definition line_fits (width : nat) (l : list string) : Prop :=
  (String.length (text_of l) <= width)%nat \/ exists w, l = [w].

(** [wrap] breaks the words into lines, and loses none of them: the first line
    shares its width with what precedes it ([len] bytes, at first the indent),
    and each other line fits in the width, unless it is a single word that
    does not. *)
Lemma wrap_loop_spec width indent words ns len :
  exists first lines, first ++ concat lines = words /\
    wrap_loop width indent words ns len =
      ns +:+ text_of first +:+ text_of ((fun l => line_break indent +:+ text_of l) <$> lines) /\
    (first = [] \/ len + String.length (text_of first) <= width)%nat /\ Forall (line_fits width) lines.
Proof.
  revert ns len. induction words as [|w words IH]; intros ns len; cbn [wrap_loop].
  { exists [], []. cbn. rewrite !string_app_nil_r. split_ands; try done. by left. }
  destruct (Nat.ltb_spec width (len + String.length w)) as [Hw|Hw].
  - destruct (IH ((ns +:+ line_break indent) +:+ w) (0 + String.length w)%nat) as (f&ls&Hc&Ht&Hf&Hl).
    fold (line_break indent). rewrite Ht. exists [], ((w :: f) :: ls). split_ands.
    + cbn [app concat]. by rewrite Hc.
    + cbn [text_of foldr fmap list_fmap]. fold (text_of f). fold (text_of ((fun l => line_break indent +:+ text_of l) <$> ls)).
      cbn [String.append]. by rewrite !string_app_assoc.
    + by left.
    + constructor; [|done]. destruct Hf as [->|Hf]; [right; by exists w|]. left.
      cbn [text_of foldr]. fold (text_of f). rewrite string_length_app. lia.
  - destruct (IH (ns +:+ w) (len + String.length w)%nat) as (f&ls&Hc&Ht&Hf&Hl).
    rewrite Ht. exists (w :: f), ls. split_ands; [cbn [app]; by rewrite Hc| | |done].
    + cbn [text_of foldr]. fold (text_of f). by rewrite !string_app_assoc.
    + right. cbn [text_of foldr]. fold (text_of f). rewrite string_length_app.
      destruct Hf as [->|Hf]; [cbn; lia|lia].
Qed.

Lemma SplitAfter_text c s : text_of (SplitAfter c s) = s.
Proof.
  induction s as [|b s IH]; cbn [SplitAfter]; [done|].
  destruct (Ascii.eqb b c); [cbn [text_of foldr]; fold (text_of (SplitAfter c s)); by rewrite IH|].
  destruct (SplitAfter c s) as [|x l]; [by rewrite <- IH|]. rewrite <- IH. done.
Qed.

(** The buckets. *)
Definition with_category (cat : string) (names : list string) : list string :=
  filter (fun n => category n = cat) names.

Lemma bucket_lookup names cat :
  bucket names !! cat = match with_category cat names with [] => None | l => Some l end.
Proof.
  unfold bucket, with_category. induction names as [|n names IH] using rev_ind; [done|].
  rewrite foldl_app, filter_app. cbn [foldl]. rewrite filter_cons, filter_nil.
  destruct (decide (category n = cat)) as [<-|Hne].
  - rewrite lookup_insert_eq, IH. destruct (filter _ names); done.
  - rewrite lookup_insert_ne, IH, app_nil_r by done. done.
Qed.

(** Whether a category is dissolved. *)
Definition small (cf : string * list string) : bool :=
  Nat.ltb (length cf.2) 2 && negb (String.eqb cf.1 ".").

Lemma regroup_lookup l (groups : gmap string (list string)) cat :
  let r := regroup l groups in
  (cat <> "." -> r !! cat = if decide (cat ∈ (filter (fun cf => small cf = true) l).*1) then None else groups !! cat) /\
  default [] (r !! ".") = default [] (groups !! ".") ++ concat (filter (fun cf => small cf = true) l).*2.
Proof.
  unfold regroup. revert groups. induction l as [|[c fl] l IH]; intros groups; cbn [foldl].
  { split; [by rewrite decide_False by apply not_elem_of_nil|by rewrite app_nil_r]. }
  change (Nat.ltb (length fl) 2 && negb (String.eqb c ".")) with (small (c, fl)).
  destruct (small (c, fl)) eqn:Hs.
  - rewrite filter_cons_True by done. rewrite !fmap_cons. cbn [fst snd concat].
    assert (c <> ".") as Hc.
    { unfold small in Hs. cbn in Hs. destruct (String.eqb_spec c "."); [|done].
      by rewrite andb_false_r in Hs. }
    destruct (IH (delete c (<["." := default [] (groups !! ".") ++ fl]> groups))) as [IH1 IH2]. split.
    + intros Hcat. rewrite IH1 by done. destruct (decide (cat = c)) as [->|Hne].
      * rewrite lookup_delete_eq, (decide_True (P := c ∈ c :: _)) by set_solver. by case_decide.
      * rewrite lookup_delete_ne, lookup_insert_ne by done. apply decide_ext. set_solver.
    + rewrite IH2, lookup_delete_ne, lookup_insert_eq by done. cbn [from_option id].
      by rewrite app_assoc.
  - rewrite filter_cons_False by congruence. apply IH.
Qed.

(** The groups of the help text. Whatever the order in which the categories
    are visited, a category other than ["."] is kept when it has two flags or
    more, with its flags in order; the flags of the other ones are moved to
    ["."], after the flags that have no category. So every flag is in exactly one
    group. *)
Theorem usage_groups_correct (names : list string) (l : list (string * list string)) :
  map_range (bucket names) l ->
  let groups := regroup l (bucket names) in
  (forall cat, cat <> "." -> groups !! cat =
     if Nat.ltb (length (with_category cat names)) 2 then None else Some (with_category cat names)) /\
  (forall n, n ∈ default [] (groups !! ".") <->
     n ∈ names /\ (category n = "." \/ (length (with_category (category n) names) < 2)%nat)).
Proof.
  intros Hl. cbv zeta.
  assert (forall cat fl, (cat, fl) ∈ filter (fun cf => small cf = true) l <->
    cat <> "." /\ fl = with_category cat names /\ fl <> [] /\ (length fl < 2)%nat) as Hsmall.
  { intros cat fl. rewrite list_elem_of_filter, (map_range_elem_of _ _ _ _ Hl), bucket_lookup.
    unfold small. cbn [fst snd]. rewrite andb_true_iff, Nat.ltb_lt, negb_true_iff, String.eqb_neq.
    destruct (with_category cat names); naive_solver. }
  split.
  - intros cat Hcat. destruct (regroup_lookup l (bucket names) cat) as [Hr _]. rewrite Hr by done.
    rewrite bucket_lookup. destruct (Nat.ltb_spec (length (with_category cat names)) 2) as [Hlt|Hge].
    + case_decide as Hin; [done|]. destruct (with_category cat names) as [|n k] eqn:Hw; [done|].
      destruct Hin. apply list_elem_of_fmap. exists (cat, n :: k). split; [done|]. by apply Hsmall.
    + rewrite decide_False; [by destruct (with_category cat names); [simpl in Hge; lia|]|].
      intros ([c fl]&->&(_&->&_&Hlt)%Hsmall)%list_elem_of_fmap. cbn [fst] in *. lia.
  - intros n. destruct (regroup_lookup l (bucket names) ".") as [_ Hr]. rewrite Hr, bucket_lookup, elem_of_app.
    assert (forall cat, n ∈ with_category cat names <-> category n = cat /\ n ∈ names) as Hw
      by (intros cat; unfold with_category; by rewrite list_elem_of_filter).
    assert (n ∈ default [] (match with_category "." names with [] => None | l => Some l end) <->
      n ∈ with_category "." names) as -> by (by destruct (with_category "." names)).
    rewrite Hw. split.
    + intros [[? ?]|Hin]; [tauto|]. apply list_elem_of_In, in_concat in Hin as (fl&Hfl&Hin).
      apply list_elem_of_In, list_elem_of_fmap in Hfl as ([c fl']&->&(Hc&->&_&Hlt)%Hsmall).
      apply list_elem_of_In, Hw in Hin as [<- Hin]. cbn [snd]. tauto.
    + intros [Hin [?|Hlt]]; [by left|]. destruct (decide (category n = ".")) as [|Hc]; [by left|]. right.
      apply list_elem_of_In, in_concat. exists (with_category (category n) names).
      rewrite <- !list_elem_of_In. assert (n ∈ with_category (category n) names) as Hnw by by apply Hw.
      split; [|done]. apply list_elem_of_fmap. exists (category n, with_category (category n) names).
      split; [done|]. apply Hsmall. split_ands; try done. intros Hnil. rewrite Hnil in Hnw. set_solver.
Qed.

Section usage_proofs.
Context `{StrconvLib}.

(** One text is in another. *)
Definition contains (t x : string) : Prop := exists a b, t = a +:+ x +:+ b.

Lemma contains_app_r a t x : contains t x -> contains (a +:+ t) x.
Proof. intros (b&c&->). exists (a +:+ b), c. by rewrite string_app_assoc. Qed.
Lemma contains_app_l t a x : contains t x -> contains (t +:+ a) x.
Proof. intros (b&c&->). exists b, (c +:+ a). by rewrite !string_app_assoc. Qed.
Lemma contains_trans t x y : contains t x -> contains x y -> contains t y.
Proof. intros (a&b&->) Hy. apply contains_app_r, contains_app_l, Hy. Qed.
Lemma contains_text l x : x ∈ l -> contains (text_of l) x.
Proof.
  induction l as [|y l IH]; [by intros ?%elem_of_nil|]. cbn [text_of foldr]. fold (text_of l).
  intros [->|Hx]%elem_of_cons; [by exists EmptyString, (text_of l)|]. by apply contains_app_r, IH.
Qed.

Lemma named_elem flags names f :
  NoDup (fl_Name <$> flags) -> f ∈ flags -> fl_Name f ∈ names -> f ∈ named flags names.
Proof.
  intros Hnd Hf Hn. apply list_elem_of_omap. exists (fl_Name f). split; [done|].
  revert Hnd Hf. induction flags as [|g flags IH]; [by intros _ ?%elem_of_nil|].
  rewrite fmap_cons, NoDup_cons. intros [Hg Hnd] Hf. cbn [List.find].
  destruct (String.eqb_spec (fl_Name g) (fl_Name f)) as [He|He].
  - apply elem_of_cons in Hf as [->|Hf]; [done|]. destruct Hg. rewrite He. apply list_elem_of_fmap. by exists f.
  - apply elem_of_cons in Hf as [->|Hf]; [done|]. by apply IH.
Qed.

(** The help text has the block of every flag, whatever the order in which the
    categories are visited: the name, the default value and the wrapped text. *)
Theorem usage_lists_every_flag (flags : list Flag) (l : list (string * list string)) (f : Flag) :
  map_range (bucket (fl_Name <$> flags)) l -> NoDup (fl_Name <$> flags) -> f ∈ flags ->
  contains (usage flags l) (flag_block f).
Proof.
  intros Hl Hnd Hf. set (names := fl_Name <$> flags) in *.
  destruct (usage_groups_correct names l Hl) as [Hcat Hdot]. cbv zeta in Hcat, Hdot.
  set (groups := regroup l (bucket names)) in *.
  assert (fl_Name f ∈ names) as Hn by (apply list_elem_of_fmap; by exists f).
  assert (exists cat fl, groups !! cat = Some fl /\ fl_Name f ∈ fl) as (cat&fl&Hg&Hfl).
  { destruct (decide (fl_Name f ∈ default [] (groups !! "."))) as [Hd|Hd].
    - destruct (groups !! ".") as [fl|] eqn:Hg; [by exists ".", fl|by apply elem_of_nil in Hd].
    - exists (category (fl_Name f)), (with_category (category (fl_Name f)) names).
      rewrite Hdot in Hd. rewrite Hcat by tauto.
      destruct (Nat.ltb_spec (length (with_category (category (fl_Name f)) names)) 2); [tauto|].
      split; [done|]. unfold with_category. by rewrite list_elem_of_filter. }
  unfold usage. fold names groups. apply contains_app_r, contains_app_r.
  eapply contains_trans; [apply contains_text, list_elem_of_fmap; exists cat; split; [done|]|].
  - unfold sort_strings. rewrite merge_sort_Permutation. apply list_elem_of_fmap. exists (cat, fl).
    split; [done|]. by apply elem_of_map_to_list.
  - rewrite Hg. cbn [from_option id]. unfold group_block. apply contains_app_r, contains_app_r, contains_app_r, contains_app_l.
    apply contains_text, list_elem_of_fmap. exists f. split; [done|]. by apply named_elem.
Qed.

End usage_proofs.

(** The flags of the program make the groups config, web, query and storage; the
    two with one flag are moved. *)
Example program_groups :
  let groups := regroup (map_to_list (bucket flag_names)) (bucket flag_names) in
  groups !! "query" = Some ["query.staleness-delta"; "query.timeout"; "query.max-concurrency"] /\
  groups !! "config" = None /\
  groups !! "web" = Some ["web.listen-address"; "web.max-connections"; "web.external-url"; "web.route-prefix"].
Proof. vm_compute. done. Qed.

Lemma usage_groups_correct_witness :
  let groups := regroup (map_to_list (bucket flag_names)) (bucket flag_names) in
  groups !! "storage" = None /\ "storage.local.engine" ∈ default [] (groups !! ".").
Proof.
  destruct (usage_groups_correct flag_names (map_to_list (bucket flag_names)) (map_range_refl _)) as [Hc Hd].
  split.
  - rewrite (Hc "storage") by discriminate. vm_compute. reflexivity.
  - apply Hd. split; [apply (bool_decide_unpack _); vm_compute; exact I|]. right. vm_compute. lia.
Defined.
