(* ===== verification/Web.v ===== *)
(** * The web handler ([web/web.go])

    The status state of the handler, [New] with the routes it registers, [Run],
    and what the handlers of [/-/quit] and [/-/reload] answer ([Server] runs them
    against the other goroutines of the process, on the channels of the handler).
    The router and the HTTP server are libraries: a route is a method, a path and
    a handler, and listening and serving are arguments of [Handler_Run]. *)
From S2P Require Import Prelude Model MetricPkg Relabel Queue Target Json ApiParse Types Proxy Api Flags.
Import Matcher.

Open Scope Z_scope.

#[local] Arguments String.append : simpl nomatch.

(** ** The status state *)

Record Handler := mkHandler {
  h_externalLabels : LabelSet;
  h_configString : string
}.

(** [ApplyConfig]: the external labels of the configuration, and its text. *)
Definition Handler_ApplyConfig (h : Handler) (externalLabels : LabelSet) (text : string)
    : Handler * option error :=
  (mkHandler externalLabels text, None).

(** ** Routes *)

Section routes.
Context {W : Type} `{RelabelLib, MapOrder, StrconvLib, TimeLib, !ProxyLib W, !APILib W}.

Inductive route_handler :=
  | RRedirect (target : string)
  | RApi (f : handler (W := W))
  | RQuit
  | RReload
  | RReloadGet.

Definition route : Type := string * string * route_handler.

(** The options that the handler uses; [o_external] is the path of the external
    URL. *)
Record Options := mkOptions {
  o_external : string;
  o_prefix : string;
  EnableQuit : bool;
  ListenAddress : string;
  ReadTimeout : Duration;
  MaxConnections : Z;
  o_flags : gmap string string
}.

(** [path.Clean] of a rooted path, component by component: the dots of the
    parent remove the component before them, if any. *)
Definition clean_components (l : list string) : list string :=
  foldl (fun out c =>
    if String.eqb c EmptyString || String.eqb c "." then out
    else if String.eqb c ".." then removelast out
    else out ++ [c]) [] l.

(** [path.Join] of the external path, which is empty or rooted, and ["/graph"]. *)
Definition graph_path (external : string) : string :=
  "/" +:+ strings_Join (clean_components (Split "/" (external +:+ "/graph"))) "/".

(** [WithPrefix]. *)
Definition with_prefix (prefix : string) (l : list route) : list route :=
  (fun r => (r.1.1, prefix +:+ r.1.2, r.2)) <$> l.

(** The routes below the prefix, and all the routes [New] registers, in order. *)
Definition prefixed_routes (o : Options) : list route :=
  [("GET", "/", RRedirect (graph_path (o_external o)))] ++
  with_prefix "/api/v1" ((fun r => (r.1.1, r.1.2, RApi r.2)) <$> Register) ++
  (if EnableQuit o then [("POST", "/-/quit", RQuit)] else []) ++
  [("POST", "/-/reload", RReload); ("GET", "/-/reload", RReloadGet)].

Definition New_routes (o : Options) : list route :=
  let root := o_prefix o <> "/" in
  let prefix := if decide root then o_prefix o else EmptyString in
  (if decide root then [("GET", "/", RRedirect (o_prefix o))] else []) ++
  with_prefix prefix (prefixed_routes o).

(** Registering a method and a path twice makes the router panic. *)
Definition route_key (r : route) : string * string := (r.1.1, r.1.2).

Definition already_registered (r : route) : error :=
  "a handle is already registered for path '" +:+ r.1.2 +:+ "'".

(** The calls of the router in [New], in order. *)
Fixpoint register_routes (l table : list route) : outcome (list route) :=
  match l with
  | [] => Ret table
  | r :: l =>
      if bool_decide (route_key r ∈ route_key <$> table) then Panic (PanicMsg (already_registered r))
      else register_routes l (table ++ [r])
  end.

(** The handler's own fields. What it shares with the other components, its
    status state, and its channels are with the process ([Server]), the API with
    [Service]. *)
Record WebHandler := mkWebHandler {
  wh_router : list route;
  wh_options : Options;
  wh_birth : Z;
  wh_cwd : string;
  wh_flagsMap : gmap string string
}.

(** [New]; [getwd] is the answer of [os.Getwd], and [birth] the present time. *)
Definition New (o : Options) (getwd : error + string) (birth : Z) : outcome WebHandler :=
  let cwd := match getwd with inl _ => "<error retrieving current working directory>" | inr dir => dir end in
  table ← register_routes (New_routes o) [];
  Ret (mkWebHandler table o birth cwd (o_flags o)).

(** The router finds the handler of a method and a path as they are registered. *)
Definition route_handler_of (h : WebHandler) (m p : string) : option route_handler :=
  match List.find (fun r => bool_decide (route_key r = (m, p))) (wh_router h) with
  | Some r => Some r.2
  | None => None
  end.

(** [Run]: the error that it sends on [listenErrCh]. [listen] is the answer of
    [net.Listen] for an address, and [serve] the error that serving with a read
    timeout and a number of connections at a time ends with. *)
Definition LimitListener (n : Z) : outcome nat :=
  if n <? 0 then Panic PanicMakeLen else Ret (Z.to_nat n).
Definition Handler_Run (h : WebHandler) (listen : string -> option error) (serve : Duration -> nat -> error)
    : outcome error :=
  match listen (ListenAddress (wh_options h)) with
  | Some err => Ret err
  | None =>
      slots ← LimitListener (MaxConnections (wh_options h));
      Ret (serve (ReadTimeout (wh_options h)) slots)
  end.

(** The name of the trace of a request. *)
Definition operationName (method path : string) : string := method +:+ " " +:+ path.

(** What the handlers of the process write: their code and body; that of
    [reload] when an answer arrives. *)
Definition quit_reply : Z * string := (200, "Requesting termination... Goodbye!").
Definition reload_reply (err : option error) : Z * string :=
  match err with
  | None => (200, EmptyString)
  | Some err => (500, "failed to reload config: " +:+ err +:+ newline)
  end.
Definition reload_get_reply : Z * string := (405, "This endpoint requires a POST request." +:+ newline).

Lemma append_inj_l p s t : p +:+ s = p +:+ t -> s = t.
Proof. induction p as [|b p IH]; [done|]. cbn. intros [= Hs]. by apply IH. Qed.

Lemma with_prefix_elem prefix l m p h :
  (m, p, h) ∈ with_prefix prefix l <-> exists p', p = prefix +:+ p' /\ (m, p', h) ∈ l.
Proof.
  unfold with_prefix. rewrite list_elem_of_fmap. split.
  - intros ([[m' p'] h']&[= -> -> ->]&Hin). by exists p'.
  - intros (p'&->&Hin). by exists (m, p', h).
Qed.

Lemma with_prefix_NoDup prefix l : NoDup (route_key <$> l) -> NoDup (route_key <$> with_prefix prefix l).
Proof.
  unfold with_prefix. rewrite <- list_fmap_compose. induction l as [|[[m p] h] l IH]; [constructor|].
  rewrite !fmap_cons, !NoDup_cons. intros [Hn Hl]. split; [|by apply IH].
  intros ([[m' p'] h']&[= -> Hp]&Hin)%list_elem_of_fmap. apply append_inj_l in Hp as <-.
  apply Hn, list_elem_of_fmap. by exists (m', p, h').
Qed.

Lemma prefixed_routes_keys o :
  NoDup (route_key <$> prefixed_routes o).
Proof.
  unfold prefixed_routes. destruct (EnableQuit o); apply (bool_decide_unpack _);
    vm_compute; exact I.
Qed.

(** No method and path are registered twice. *)
Lemma New_routes_NoDup o r : o_prefix o = "/" +:+ r -> NoDup (route_key <$> New_routes o).
Proof.
  intros Ho. unfold New_routes. set (prefix := if decide (o_prefix o <> "/") then o_prefix o else EmptyString).
  rewrite fmap_app. apply NoDup_app. split_ands; [| |apply with_prefix_NoDup, prefixed_routes_keys].
  - destruct (decide _); [apply NoDup_singleton|constructor].
  - intros [m p] Hin. destruct (decide (o_prefix o <> "/")) as [Hn|]; [|by apply elem_of_nil in Hin].
    apply list_elem_of_singleton in Hin as [= -> ->].
    intros ([[m p] h]&[= Hm Hp]&Hin)%list_elem_of_fmap.
    apply with_prefix_elem in Hin as (p'&->&Hin). unfold prefix in Hp. rewrite Ho in Hp. cbn in Hp.
    injection Hp as Hp. destruct r as [|b r]; [by rewrite Ho in Hn|]. done.
Qed.

(** The routes of the server. For every route prefix that [parse] can
    produce, no method and path are registered twice. The API is below the
    prefix and /api/v1, with the method, path and handler of Register; quitting
    is only served when it is enabled; and with a prefix other than a slash, the
    root redirects to it. *)
Theorem New_routes_correct (o : Options) (r : string) :
  o_prefix o = "/" +:+ r ->
  NoDup (route_key <$> New_routes o) /\
  (forall m p f, (m, p, f) ∈ Register ->
     (m, (if decide (r = EmptyString) then EmptyString else o_prefix o) +:+ "/api/v1" +:+ p, RApi f)
       ∈ New_routes o) /\
  (forall m p, (m, p, RQuit) ∈ New_routes o <-> EnableQuit o = true /\ m = "POST" /\
     p = (if decide (r = EmptyString) then EmptyString else o_prefix o) +:+ "/-/quit") /\
  (r <> EmptyString -> ("GET", "/", RRedirect (o_prefix o)) ∈ New_routes o).
Proof.
  intros Ho. assert (o_prefix o = "/" <-> r = EmptyString) as Hroot.
  { rewrite Ho. split; [|by intros ->]. cbn. by intros [= ->]. }
  assert ((if decide (o_prefix o <> "/") then o_prefix o else EmptyString) =
          (if decide (r = EmptyString) then EmptyString else o_prefix o)) as Hprefix.
  { destruct (decide (o_prefix o <> "/")) as [Hn|Hn], (decide (r = EmptyString)) as [He|He]; try done; exfalso.
    - by apply Hn, Hroot.
    - by apply Hn; intros ?%Hroot. }
  unfold New_routes. rewrite Hprefix. set (prefix := if decide (r = EmptyString) then EmptyString else o_prefix o).
  split; [|split; [|split]].
  - pose proof (New_routes_NoDup o r Ho) as Hn. unfold New_routes in Hn. by rewrite Hprefix in Hn.
  - intros m p f Hf. apply elem_of_app. right. apply with_prefix_elem. exists ("/api/v1" +:+ p).
    split; [done|]. unfold prefixed_routes. rewrite !elem_of_app. right. left. apply with_prefix_elem.
    exists p. split; [done|]. apply list_elem_of_fmap. by exists (m, p, f).
  - intros m p. rewrite elem_of_app, with_prefix_elem. unfold prefixed_routes. split.
    + intros [Hin|(p'&->&Hin)].
      { destruct (decide _); [by apply list_elem_of_singleton in Hin|by apply elem_of_nil in Hin]. }
      rewrite !elem_of_app, with_prefix_elem in Hin.
      destruct Hin as [Hin|[(p1&_&Hin)|[Hin|Hin]]].
      * by apply list_elem_of_singleton in Hin.
      * by apply list_elem_of_fmap in Hin as (?&?&_).
      * destruct (EnableQuit o); [|by apply elem_of_nil in Hin].
        apply list_elem_of_singleton in Hin as [= -> ->]. done.
      * rewrite !elem_of_cons, elem_of_nil in Hin. by destruct Hin as [?|[?|[]]].
    + intros (Hq&->&->). right. exists "/-/quit". split; [done|]. rewrite Hq, !elem_of_app. right. right. left.
      by apply list_elem_of_singleton.
  - intros Hne'. rewrite decide_True by by rewrite Hroot. apply elem_of_app. left. set_solver.
Qed.

Lemma register_routes_ok l table :
  NoDup (route_key <$> (table ++ l)) -> register_routes l table = Ret (table ++ l).
Proof.
  revert table. induction l as [|r l IH]; intros table Hnd; cbn [register_routes]; [by rewrite app_nil_r|].
  rewrite bool_decide_eq_false_2.
  - rewrite IH; by rewrite <- app_assoc.
  - rewrite fmap_app, fmap_cons in Hnd. apply NoDup_app in Hnd as (_&Hd&_). intros Hin. by apply (Hd _ Hin); left.
Qed.

Lemma find_unique (l : list route) r k :
  route_key r = k -> NoDup (route_key <$> l) -> r ∈ l -> List.find (fun x => bool_decide (route_key x = k)) l = Some r.
Proof.
  intros <-. induction l as [|x l IH]; [by intros _ ?%elem_of_nil|]. rewrite fmap_cons, NoDup_cons. intros [Hx Hnd] Hr.
  cbn [List.find]. case_bool_decide as He.
  - apply elem_of_cons in Hr as [->|Hr]; [done|]. destruct Hx. rewrite He. apply list_elem_of_fmap. by exists r.
  - apply elem_of_cons in Hr as [->|Hr]; [done|]. by apply IH.
Qed.

(** [New] succeeds for every route prefix that [parse] can produce, and the
    handler serves every route that it registers with its own handler: those of
    the API below the prefix, and no other route for [/-/quit] but the one that
    the option enables. *)
Theorem New_correct (o : Options) (r : string) getwd birth :
  o_prefix o = "/" +:+ r ->
  exists h, New o getwd birth = Ret h /\ wh_options h = o /\ wh_flagsMap h = o_flags o /\
    (forall dir, getwd = inr dir -> wh_cwd h = dir) /\
    (forall m p f, (m, p, f) ∈ New_routes o -> route_handler_of h m p = Some f) /\
    (forall m p f, route_handler_of h m p = Some f -> (m, p, f) ∈ New_routes o).
Proof.
  intros Ho. pose proof (New_routes_NoDup o r Ho) as Hnd.
  exists (mkWebHandler (New_routes o) o birth
    (match getwd with inl _ => "<error retrieving current working directory>" | inr dir => dir end) (o_flags o)).
  split; [unfold New; by rewrite register_routes_ok|]. split_ands; try done.
  - by intros dir ->.
  - intros m p f Hin. unfold route_handler_of. cbn [wh_router].
    by rewrite (find_unique (New_routes o) (m, p, f) (m, p) eq_refl Hnd Hin).
  - intros m p f. unfold route_handler_of. cbn [wh_router].
    destruct (List.find _ _) as [[[m' p'] f']|] eqn:Hf; [|done]. cbn [snd]. intros [= <-].
    apply List.find_some in Hf as [Hin He]. apply bool_decide_eq_true in He as [= <- <-].
    by apply list_elem_of_In.
Qed.

(** [Run] sends the error of the listener, or that of the server once it has
    ended; a negative number of connections panics in its goroutine, after the
    port has been opened. *)
Theorem Handler_Run_correct (h : WebHandler) listen serve :
  (forall err, listen (ListenAddress (wh_options h)) = Some err -> Handler_Run h listen serve = Ret err) /\
  (listen (ListenAddress (wh_options h)) = None ->
     (0 <= MaxConnections (wh_options h) -> exists slots, Z.of_nat slots = MaxConnections (wh_options h) /\
        Handler_Run h listen serve = Ret (serve (ReadTimeout (wh_options h)) slots)) /\
     (MaxConnections (wh_options h) < 0 -> Handler_Run h listen serve = Panic PanicMakeLen)).
Proof.
  unfold Handler_Run, LimitListener. split; [by intros err ->|]. intros ->. split.
  - intros Hn. exists (Z.to_nat (MaxConnections (wh_options h))).
    destruct (Z.ltb_spec (MaxConnections (wh_options h)) 0); [lia|]. split; [lia|done].
  - intros Hn. by destruct (Z.ltb_spec (MaxConnections (wh_options h)) 0); [|lia].
Qed.

End routes.

(** ** A concrete server *)

Section examples.
Import LiteralRelabel LiteralTime.

#[local] Instance echo_proxy : ProxyLib nat.
Proof.
  refine {| new_request_ok _ := true; client_Do n url := (S n, Some url); grow n := (2 * n)%nat |}.
  abstract (intros; lia).
Defined.

#[local] Instance no_engine : APILib nat := {|
  Query := unit;
  PValue := unit;
  NewInstantQuery _ _ := inr tt;
  NewRangeQuery _ _ _ _ := inr tt;
  Exec n q _ := Ret (n, inr tt);
  ParseMetricSelector _ := None;
  now n := 0;
  unmarshal_targetVals _ := [];
  value_type _ := "none";
  value_json _ := None;
  time_json _ := None
|}.

Example graph_paths :
  graph_path EmptyString = "/graph" /\ graph_path "/a" = "/a/graph" /\ graph_path "/a//b/.." = "/a/graph".
Proof. vm_compute. done. Qed.

Definition demo_options : Options := mkOptions "/prom" "/prom" false ":9090" (30 * Second) 512 ∅.

Lemma New_routes_correct_witness :
  NoDup (route_key <$> New_routes (demo_options)) /\
  ("GET", "/prom/api/v1/query", RApi query) ∈ New_routes (demo_options).
Proof.
  destruct (New_routes_correct (demo_options) "prom") as (Hn&Hr&_); [reflexivity|].
  split; [exact Hn|]. apply (Hr "GET" "/query" query). unfold Register. rewrite !elem_of_cons. tauto.
Defined.

End examples.
