(* ===== verification/Server.v ===== *)
(** * The process ([cmd/main.go], and the channels of [web/web.go])

    The components that follow the configuration, [reloadConfig], the start of
    the process, and the process as a system of steps: the main goroutine in its
    select, the one that waits for hang-ups, the target manager and the web
    server, and one goroutine per request to quit or reload. Reading the
    configuration file is a parameter. A panic of a request's goroutine is
    recovered by the HTTP server; one of another goroutine ends the process. *)
From S2P Require Import Prelude Model MetricPkg Relabel Ewma Queue Shards Client Read Write.
From S2P Require Import Target TargetManager Flags Web.

Open Scope Z_scope.

Section server.
Context `{RelabelLib, StrconvLib, MapOrder, ParamsOrder, !URLLib, ScrapeLib, !TargetsOrder, !FlagLib}.
Context {W : Type} `{HTTPLib W}.
Variable oob : float64 -> Z.

(** The parts of a configuration file that the components use. *)
Record Config := mkConfig {
  cf_remote : RemoteStorageConfig;
  cf_scrape : list JobConfig;
  cf_text : string
}.

(** The state of the components; [pr_queues] are the queues that were replaced,
    as they were left. *)
Record program := mkProgram {
  pr_writer : Writer (W := W);
  pr_reader : Reader (W := W);
  pr_targets : TargetManager;
  pr_web : Handler;
  pr_queues : list (remote_queue (W := W))
}.

(** ** [reloadConfig] *)

(** [ApplyConfig] of a component, as a relation on the program's state. *)
Definition Reloadable : Type := program -> Config -> program -> option error -> Prop.

Definition reload_writer (w0 : W) : Reloadable := fun pr conf pr' err =>
  exists olds wr', ApplyConfig oob w0 (pr_writer pr) (cf_remote conf) olds wr' err /\
    pr' = mkProgram wr' (pr_reader pr) (pr_targets pr) (pr_web pr) (pr_queues pr ++ olds).
Definition reload_reader : Reloadable := fun pr conf pr' err =>
  err = (Reader_ApplyConfig (pr_reader pr) (cf_remote conf)).2 /\
  pr' = mkProgram (pr_writer pr) (Reader_ApplyConfig (pr_reader pr) (cf_remote conf)).1
          (pr_targets pr) (pr_web pr) (pr_queues pr).
Definition reload_targets : Reloadable := fun pr conf pr' err =>
  err = (TM_ApplyConfig (pr_targets pr) (cf_scrape conf)).2 /\
  pr' = mkProgram (pr_writer pr) (pr_reader pr) (TM_ApplyConfig (pr_targets pr) (cf_scrape conf)).1
          (pr_web pr) (pr_queues pr).
Definition reload_web : Reloadable := fun pr conf pr' err =>
  err = (Handler_ApplyConfig (pr_web pr) (ExternalLabels (cf_remote conf)) (cf_text conf)).2 /\
  pr' = mkProgram (pr_writer pr) (pr_reader pr) (pr_targets pr)
          (Handler_ApplyConfig (pr_web pr) (ExternalLabels (cf_remote conf)) (cf_text conf)).1
          (pr_queues pr).

(** The slice [reloadables] of [Main]; [w0] is the world the new queues see. *)
Definition reloadables (w0 : W) : list Reloadable :=
  [reload_writer w0; reload_reader; reload_targets; reload_web].

(** The loop over the reloadables: an error is logged and remembered. *)
Inductive reload_loop (conf : Config) : list Reloadable -> program -> bool -> program -> bool -> Prop :=
  | reload_nil pr failed : reload_loop conf [] pr failed pr failed
  | reload_cons (rl : Reloadable) rls pr pr1 err failed pr2 failed2 :
      rl pr conf pr1 err ->
      reload_loop conf rls pr1 (match err with Some _ => true | None => failed end) pr2 failed2 ->
      reload_loop conf (rl :: rls) pr failed pr2 failed2.

(** [config.LoadFile], on the file system of the moment. *)
Variable FS : Type.
Variable LoadFile : FS -> string -> error + Config.

Inductive reloadConfig (fs : FS) (filename : string) (rls : list Reloadable) (pr : program)
    : program -> option error -> Prop :=
  | reload_load_error e :
      LoadFile fs filename = inl e ->
      reloadConfig fs filename rls pr pr
        (Some ("couldn't load configuration (-config.file=" +:+ filename +:+ "): " +:+ e))
  | reload_applied conf pr' failed :
      LoadFile fs filename = inr conf -> reload_loop conf rls pr false pr' failed ->
      reloadConfig fs filename rls pr pr'
        (if failed : bool then
           Some ("one or more errors occurred while applying the new configuration (-config.file=" +:+
                   filename +:+ ")")
         else None).

(** ** The goroutines of the process *)

Inductive main_state := MServing | MExited (code : Z).

(** The goroutine of [Handler.Run]: blocked sending the error of the listener or
    of the server on [listenErrCh], or done. *)
Inductive web_state := WebNotStarted | WebServing | WebError (err : error) | WebDone.

(** A request to [/-/reload]: blocked sending its channel on [reloadCh], waiting
    for an answer on it, or answered. *)
Inductive reload_request := ReloadSending | ReloadWaiting | ReloadAnswered (err : option error).

(** [sv_quitCh] says whether [quitCh] is closed, [sv_aborted] counts the requests
    that panicked, and [sv_run] says whether the goroutine of
    [TargetManager.Run] has got the lock. *)
Record server := mkServer {
  sv_prog : program;
  sv_main : main_state;
  sv_web : web_state;
  sv_run : bool;
  sv_quitCh : bool;
  sv_reloads : list reload_request;
  sv_aborted : nat
}.

Definition set_prog (s : server) (pr : program) : server :=
  mkServer pr (sv_main s) (sv_web s) (sv_run s) (sv_quitCh s) (sv_reloads s) (sv_aborted s).
Definition set_web (s : server) (w : web_state) : server :=
  mkServer (sv_prog s) (sv_main s) w (sv_run s) (sv_quitCh s) (sv_reloads s) (sv_aborted s).
Definition set_targets (pr : program) (tm : TargetManager) : program :=
  mkProgram (pr_writer pr) (pr_reader pr) tm (pr_web pr) (pr_queues pr).
Definition set_writer (pr : program) (wr : Writer) : program :=
  mkProgram wr (pr_reader pr) (pr_targets pr) (pr_web pr) (pr_queues pr).

(** Nothing in this program appends to the writer: the target manager and its
    pools keep the appender they are given and do not use it. *)
Inductive sevent :=
  | EvHangup (fs : FS)
  | EvRunTargets
  | EvProvide (job : string) (tgs : list TargetGroup)
  | EvQueue (i : nat) (e : event)
  | EvListen (err : option error)
  | EvServed (err : error)
  | EvQuit
  | EvReload
  | EvTerm
  | EvQuitReceived
  | EvListenError.

(** The file that a hang-up loads. *)
Definition hup_file : string := "./prometheus.yml".

(** [Main] returns 0 after its deferred calls, the last of which stops the
    target manager. *)
Definition exit_main (s : server) : outcome server :=
  tm ← Stop (pr_targets (sv_prog s));
  Ret (mkServer (set_targets (sv_prog s) tm) (MExited 0) (sv_web s) (sv_run s) (sv_quitCh s)
         (sv_reloads s) (sv_aborted s)).

(** [quit] closes [quitCh]; the second close panics. [enable_quit] is the option
    that registers its route. *)
Definition handle_quit (s : server) : server :=
  if sv_quitCh s then
    mkServer (sv_prog s) (sv_main s) (sv_web s) (sv_run s) true (sv_reloads s) (S (sv_aborted s))
  else mkServer (sv_prog s) (sv_main s) (sv_web s) (sv_run s) true (sv_reloads s) (sv_aborted s).

(** A request to [/-/reload] arrives; no goroutine receives from [reloadCh]. *)
Definition handle_reload (s : server) : server :=
  mkServer (sv_prog s) (sv_main s) (sv_web s) (sv_run s) (sv_quitCh s)
    (sv_reloads s ++ [ReloadSending]) (sv_aborted s).

Variable enable_quit : bool.
Variable w0 : W.

Inductive sstep (s : server) : sevent -> outcome server -> Prop :=
  | step_hangup fs pr err :
      sv_main s = MServing -> reloadConfig fs hup_file (reloadables w0) (sv_prog s) pr err ->
      sstep s (EvHangup fs) (Ret (set_prog s pr))
  | step_run_targets :
      sv_main s = MServing -> sv_run s = false ->
      sstep s EvRunTargets
        (Ret (mkServer (set_targets (sv_prog s) (Run (pr_targets (sv_prog s)))) MServing (sv_web s) true
                (sv_quitCh s) (sv_reloads s) (sv_aborted s)))
  | step_provide job tgs :
      sv_main s = MServing ->
      sstep s (EvProvide job tgs)
        (tm ← provide (pr_targets (sv_prog s)) job tgs; Ret (set_prog s (set_targets (sv_prog s) tm)))
  | step_queue i e q o :
      sv_main s = MServing -> queues (pr_writer (sv_prog s)) !! i = Some q -> own_event e ->
      queue_step oob q e = Some o ->
      sstep s (EvQueue i e)
        (q' ← o;
         Ret (set_prog s (set_writer (sv_prog s)
           (mkWriter (<[i := q']> (queues (pr_writer (sv_prog s))))))))
  | step_listen err :
      sv_main s = MServing -> sv_web s = WebNotStarted ->
      sstep s (EvListen err) (Ret (set_web s (match err with Some e => WebError e | None => WebServing end)))
  | step_served err :
      sv_main s = MServing -> sv_web s = WebServing -> sstep s (EvServed err) (Ret (set_web s (WebError err)))
  | step_quit :
      sv_main s = MServing -> sv_web s = WebServing -> enable_quit = true ->
      sstep s EvQuit (Ret (handle_quit s))
  | step_reload :
      sv_main s = MServing -> sv_web s = WebServing -> sstep s EvReload (Ret (handle_reload s))
  | step_term : sv_main s = MServing -> sstep s EvTerm (exit_main s)
  | step_quit_received :
      sv_main s = MServing -> sv_quitCh s = true -> sstep s EvQuitReceived (exit_main s)
  | step_listen_error err :
      sv_main s = MServing -> sv_web s = WebError err ->
      sstep s EvListenError (exit_main (set_web s WebDone)).

(** ** [Main] *)

Inductive main_result := Exits (code : Z) | Serves (s : server).

Definition first_program : program :=
  mkProgram (mkWriter []) (mkReader [] ∅) NewTargetManager (mkHandler ∅ EmptyString) [].
Definition first_server (pr : program) : server := mkServer pr MServing WebNotStarted false false [] 0.

(** [Main] up to its select. *)
Inductive Main (fs_Parse : FlagConfig -> list string -> FlagConfig * list string * option error)
    (stale : Duration) (fs : FS) (args : list string) : main_result -> Prop :=
  | Main_flags c e : parse fs_Parse (init stale) args = (c, Some e) -> Main fs_Parse stale fs args (Exits 2)
  | Main_version c :
      parse fs_Parse (init stale) args = (c, None) -> printVersion c = true ->
      Main fs_Parse stale fs args (Exits 0)
  | Main_config c pr e :
      parse fs_Parse (init stale) args = (c, None) -> printVersion c = false ->
      reloadConfig fs (configFile c) (reloadables w0) first_program pr (Some e) ->
      Main fs_Parse stale fs args (Exits 1)
  | Main_serves c pr :
      parse fs_Parse (init stale) args = (c, None) -> printVersion c = false ->
      reloadConfig fs (configFile c) (reloadables w0) first_program pr None ->
      Main fs_Parse stale fs args (Serves (first_server pr)).

(** The runs of a process. *)
Inductive sruns (s0 : server) : list sevent -> server -> Prop :=
  | sruns_nil : sruns s0 [] s0
  | sruns_snoc es s e s' : sruns s0 es s -> sstep s e (Ret s') -> sruns s0 (es ++ [e]) s'.

End server.

(** ** Reloading *)

Section server_proofs.
Context `{RelabelLib, StrconvLib, MapOrder, ParamsOrder, !URLLib, ScrapeLib, !TargetsOrder, !FlagLib}.
Context {W : Type} `{HTTPLib W}.
Variable oob : float64 -> Z.
Variable FS : Type.
Variable LoadFile : FS -> string -> error + Config (W := W).
Variable w0 : W.

(** A configuration the loader accepts has valid relabelling rules. *)
Definition valid_conf (conf : Config (W := W)) : Prop :=
  valid_rewrites (cf_remote conf) /\ Forall valid_job (cf_scrape conf).

(** What the components become: the writer keeps its queues on an error, and
    otherwise has new ones, its old ones having sent all they had accepted. *)
Definition reloaded (conf : Config (W := W)) (pr pr' : program (W := W)) (werr : option error) : Prop :=
  ((is_Some werr /\ pr_writer pr' = pr_writer pr /\ pr_queues pr' = pr_queues pr) \/
   (werr = None /\ exists olds, pr_queues pr' = pr_queues pr ++ olds /\
      Forall2 flushed (queues (pr_writer pr)) olds /\ Forall running (queues (pr_writer pr')) /\
      Forall2 (built (ExternalLabels (cf_remote conf))) (RemoteWriteConfigs (cf_remote conf))
        (queues (pr_writer pr')))) /\
  pr_reader pr' = (Reader_ApplyConfig (pr_reader pr) (cf_remote conf)).1 /\
  pr_targets pr' = (TM_ApplyConfig (pr_targets pr) (cf_scrape conf)).1 /\
  pr_web pr' = mkHandler (ExternalLabels (cf_remote conf)) (cf_text conf).

Lemma reload_loop_cons conf rl rls (pr pr' : program (W := W)) failed failed' :
  reload_loop conf (rl :: rls) pr failed pr' failed' <->
  exists pr1 err, rl pr conf pr1 err /\
    reload_loop conf rls pr1 (match err with Some _ => true | None => failed end) pr' failed'.
Proof.
  split.
  - intros Hl. inversion Hl; subst. by eexists _, _.
  - intros (pr1&err&Hrl&Hl). by econstructor.
Qed.

Lemma reload_loop_nil conf (pr pr' : program (W := W)) failed failed' :
  reload_loop conf [] pr failed pr' failed' <-> pr' = pr /\ failed' = failed.
Proof. split; [intros Hl; by inversion Hl|intros [-> ->]; constructor]. Qed.

Lemma reload_loop_spec conf pr pr' failed :
  reload_loop conf (reloadables oob w0) pr false pr' failed <->
  exists werr olds wr', ApplyConfig oob w0 (pr_writer pr) (cf_remote conf) olds wr' werr /\
    pr' = mkProgram wr' (Reader_ApplyConfig (pr_reader pr) (cf_remote conf)).1
      (TM_ApplyConfig (pr_targets pr) (cf_scrape conf)).1
      (mkHandler (ExternalLabels (cf_remote conf)) (cf_text conf)) (pr_queues pr ++ olds) /\
    (failed = false <-> werr = None /\ (Reader_ApplyConfig (pr_reader pr) (cf_remote conf)).2 = None).
Proof.
  assert (forall tm : TargetManager, (TM_ApplyConfig tm (cf_scrape conf)).2 = None) as Htm by done.
  unfold reloadables. rewrite reload_loop_cons. split.
  - intros (pr1&werr&(olds&wr'&HA&->)&Hl). apply reload_loop_cons in Hl as (pr2&rerr&[-> ->]&Hl).
    apply reload_loop_cons in Hl as (pr3&terr&[-> ->]&Hl).
    apply reload_loop_cons in Hl as (pr4&herr&[-> ->]&Hl). apply reload_loop_nil in Hl as [-> ->].
    exists werr, olds, wr'. split; [exact HA|]. split; [done|]. cbn [pr_reader pr_targets pr_web].
    rewrite Htm. simpl. destruct (Reader_ApplyConfig _ _).2, werr; naive_solver.
  - intros (werr&olds&wr'&HA&->&Hf).
    eexists _, werr. split; [eexists _, _; split; [exact HA|done]|].
    apply reload_loop_cons. eexists _, _. split; [split; done|].
    apply reload_loop_cons. eexists _, _. split; [split; done|].
    apply reload_loop_cons. eexists _, _. split; [split; done|].
    apply reload_loop_nil. split; [done|]. cbn [pr_reader pr_targets pr_web]. rewrite Htm. simpl.
    destruct (Reader_ApplyConfig _ _).2, werr, failed; naive_solver.
Qed.

Lemma reloadConfig_total (fs : FS) (filename : string) (pr : program) :
  Forall running (queues (pr_writer pr)) ->
  (forall conf, LoadFile fs filename = inr conf -> valid_conf conf) ->
  Forall sane_reshard (queues (pr_writer pr)) ->
  exists pr' err, reloadConfig FS LoadFile fs filename (reloadables oob w0) pr pr' err.
Proof.
  intros Hrun Hv. intros Hsane. destruct (LoadFile fs filename) as [e|conf] eqn:Hl; [eexists _, _; by econstructor|].
  destruct (ApplyConfig_spec oob w0 _ _ Hrun (proj1 (Hv conf eq_refl))) as [_ Htot].
  destruct (Htot Hsane) as (olds&wr'&werr&HA). eexists _, _. eapply reload_applied; [exact Hl|].
  apply reload_loop_spec. exists werr, olds, wr'. split; [exact HA|]. split; [done|].
  instantiate (1 := match (Reader_ApplyConfig (pr_reader pr) (cf_remote conf)).2 with
    | Some _ => true | None => match werr with Some _ => true | None => false end end).
  destruct (Reader_ApplyConfig _ _).2, werr; naive_solver.
Qed.

(** C21: reloadConfig. A file that cannot be loaded is an error, and nothing
    changes. Otherwise every component is given the configuration, whatever the
    ones before it answer: the call is an error exactly when the writer or the
    reader returned one, and such a component keeps its old state while the
    others have the new one. A writer that accepts it has running queues for
    the new endpoints, its old queues having sent everything. It always gets to
    the end, given that no queue was asked for a negative number of shards. *)
Theorem reloadConfig_correct (fs : FS) (filename : string) (pr : program) :
  Forall running (queues (pr_writer pr)) ->
  (forall conf, LoadFile fs filename = inr conf -> valid_conf conf) ->
  (forall pr' err, reloadConfig FS LoadFile fs filename (reloadables oob w0) pr pr' err ->
     match LoadFile fs filename with
     | inl e => pr' = pr /\ is_Some err
     | inr conf => exists werr, reloaded conf pr pr' werr /\
         (err = None <-> werr = None /\ (Reader_ApplyConfig (pr_reader pr) (cf_remote conf)).2 = None)
     end) /\
  (Forall sane_reshard (queues (pr_writer pr)) ->
     exists pr' err, reloadConfig FS LoadFile fs filename (reloadables oob w0) pr pr' err).
Proof.
  intros Hrun Hv. split.
  - intros pr' err Hr. inversion Hr as [e Hl|conf pr1 failed Hl Hloop]; subst; rewrite Hl; [split; [done|by eexists]|].
    apply reload_loop_spec in Hloop as (werr&olds&wr'&HA&->&Hf). exists werr. split.
    + split; [|done]. cbn [pr_writer pr_queues].
      destruct (ApplyConfig_spec oob w0 _ _ Hrun (proj1 (Hv conf Hl))) as [Hspec _].
      destruct (Hspec _ _ _ HA) as [(He&->&->)|(->&Hfl&Hrun'&Hb)].
      * left. by rewrite app_nil_r.
      * right. split; [done|]. by exists olds.
    + rewrite <- Hf. by destruct failed.
  - by apply reloadConfig_total.
Qed.

(** ** The process *)

Lemma own_running q e q' :
  own_event e -> queue_step oob q e = Some (Ret q') -> running q -> running q'.
Proof.
  intros Hown Hst (Hi&Hu&Hq). split; [by eapply queue_step_inv|].
  apply queue_step_Ret in Hst as [_ Hst]. destruct (own_accepted (H2 := client_storage (rq_client q)) oob _ _ _ Hown Hst) as [_ Hq'].
  split; [|congruence].
  assert ((exists b, e = EUpdate b) \/ forall b, e <> EUpdate b) as [[b ->]|Hup]
    by (destruct e; try (by right); left; by eexists).
  - simpl in Hst. unfold step_update in Hst. destruct (upd (rq_system q)) eqn:Hupd; try done.
    destruct (_ && _); [done|]. destruct (calculateDesiredShards _ _ _) as [t [n|]];
      injection Hst as <-; cbn [upd set_resh set_qm]; by rewrite Hupd.
  - destruct (own_kept (H2 := client_storage (rq_client q)) oob (rq_system q) e (rq_system q') Hown) as (_&_&Hk&_); [done|done|destruct Hk as [-> | ->]; congruence].
Qed.

Lemma reloadConfig_targets fs f pr pr' err :
  reloadConfig FS LoadFile fs f (reloadables oob w0) pr pr' err ->
  pr_targets pr' = pr_targets pr \/
  exists conf, LoadFile fs f = inr conf /\ pr_targets pr' = (TM_ApplyConfig (pr_targets pr) (cf_scrape conf)).1.
Proof.
  intros Hr. inversion Hr as [e Hl|conf pr1 failed Hl Hloop]; subst; [by left|]. right. exists conf.
  split; [done|]. by apply reload_loop_spec in Hloop as (werr&olds&wr'&_&->&_).
Qed.

Lemma reloadConfig_running fs f pr pr' err :
  (forall conf, LoadFile fs f = inr conf -> valid_conf conf) ->
  reloadConfig FS LoadFile fs f (reloadables oob w0) pr pr' err ->
  Forall running (queues (pr_writer pr)) -> Forall running (queues (pr_writer pr')).
Proof.
  intros Hv Hr Hrun. inversion Hr as [e Hl|conf pr1 failed Hl Hloop]; subst; [done|].
  apply reload_loop_spec in Hloop as (werr&olds&wr'&HA&->&_). cbn [pr_writer].
  destruct (ApplyConfig_spec oob w0 _ _ Hrun (proj1 (Hv conf Hl))) as [Hspec _].
  by destruct (Hspec _ _ _ HA) as [(_&->&_)|(_&_&?&_)].
Qed.

(** The configuration files are valid whenever they load. *)
Definition valid_files : Prop := forall fs f conf, LoadFile fs f = inr conf -> valid_conf conf.

(** Between steps: the target manager has been run or not, and stopped when the
    process has exited, with 0; the queues run; no request to reload has got any
    further. *)
Record server_inv (s : server (W := W)) : Prop := mk_server_inv {
  si_targets : tm_inv (pr_targets (sv_prog s));
  si_bases : bases (pr_targets (sv_prog s)) =
    match sv_main s with
    | MServing => if sv_run s then [false] else []
    | MExited _ => [true]
    end;
  si_code code : sv_main s = MExited code -> code = 0 /\ sv_run s = true;
  si_queues : Forall running (queues (pr_writer (sv_prog s)));
  si_reloads : Forall (fun r => r = ReloadSending) (sv_reloads s)
}.

Lemma tm_apply_inv tm cfgs :
  tm_inv tm -> Forall valid_job cfgs ->
  tm_inv (TM_ApplyConfig tm cfgs).1 /\ bases (TM_ApplyConfig tm cfgs).1 = bases tm.
Proof. intros Hi Hv. by apply (tm_step_inv tm (ApplyOp cfgs)). Qed.

Lemma exit_main_spec s :
  server_inv s -> sv_main s = MServing ->
  match exit_main s with
  | Ret s' => sv_run s = true /\ sv_main s' = MExited 0 /\ wg_done (pr_targets (sv_prog s')) /\ server_inv s'
  | Panic p => sv_run s = false /\ p = PanicNilDeref
  end.
Proof.
  intros [Hi Hb _ Hq Hr] Hm. rewrite Hm in Hb. unfold exit_main.
  pose proof (tm_step_inv _ StopOp Hi I ltac:(done)) as Hst. cbn [tm_step] in Hst.
  destruct (Stop (pr_targets (sv_prog s))) as [tm|p] eqn:Hs; cbn [mbind outcome_bind].
  - destruct Hst as [Hi' Hb']. assert (sv_run s = true) as Hrun.
    { unfold Stop in Hs. rewrite Hb in Hs. by destruct (sv_run s). }
    split; [done|]. split; [done|]. cbn [sv_prog set_targets pr_targets]. split.
    + destruct Hi' as [_ _ _ Hset Hret]. split.
      * intros job ts Hts. destruct (Hset job ts Hts) as (_&Hbase&Hc). unfold ts_done.
        by rewrite Hbase, Hc, Hb'.
      * eapply Forall_impl; [exact Hret|]. intros ts Hts. unfold ts_done. by rewrite Hts.
    + split; cbn [sv_prog set_targets pr_targets sv_main pr_writer sv_reloads]; try done. by intros code [= <-].
  - destruct Hst as (->&_&Hn). split; [|done]. rewrite Hb in Hn. by destruct (sv_run s).
Qed.

Lemma set_targets_inv s tm (run : bool) :
  server_inv s -> sv_main s = MServing -> tm_inv tm ->
  bases tm = (if run return list bool then [false] else []) ->
  server_inv (mkServer (set_targets (sv_prog s) tm) MServing (sv_web s) run (sv_quitCh s)
    (sv_reloads s) (sv_aborted s)).
Proof. intros [Hi Hb Hc Hq Hr] Hm Hi' Hb'. by split. Qed.

Lemma set_writer_inv s qs :
  server_inv s -> Forall running qs -> server_inv (set_prog s (set_writer (sv_prog s) (mkWriter qs))).
Proof. intros [Hi Hb Hc Hq Hr] Hqs. by split. Qed.

(** The events that end the process. *)
Definition is_exit (e : sevent FS) : bool :=
  match e with EvTerm _ | EvQuitReceived _ | EvListenError _ => true | _ => false end.

(** The panics that end the process: an exit before the target manager runs, and
    a queue resharded to less than no shards. *)
Definition fatal (s : server (W := W)) (e : sevent FS) (p : go_panic) : Prop :=
  (is_exit e = true /\ sv_run s = false /\ p = PanicNilDeref) \/
  (exists i q n, e = EvQueue _ i EReshard /\ queues (pr_writer (sv_prog s)) !! i = Some q /\
     resh (rq_system q) = RGot n /\ n < 0 /\ p = PanicMakeLen).

Variable enable_quit : bool.

Lemma sstep_serving s e o :
  sstep oob FS LoadFile enable_quit w0 s e o -> sv_main s = MServing.
Proof. by inversion 1. Qed.

Lemma queue_step_Panic q e p :
  running q -> own_event e -> queue_step oob q e = Some (Panic p) ->
  exists n, e = EReshard /\ resh (rq_system q) = RGot n /\ n < 0 /\ p = PanicMakeLen.
Proof.
  intros (Hi&_&_) Hown Hst. unfold queue_step in Hst.
  destruct (qstep oob e (rq_system q)) as [[s|p']|] eqn:Hs; try discriminate Hst.
  injection Hst as <-. apply step_Panic in Hs; [|done|by destruct e].
  inversion Hs; subst; try done. by exists n.
Qed.

Lemma exit_step e s s1 :
  is_exit e = true -> server_inv s1 -> sv_main s1 = MServing -> sv_run s1 = sv_run s ->
  match exit_main s1 with
  | Ret s' => server_inv s' /\
      (is_exit e = true -> sv_run s = true /\ sv_main s' = MExited 0 /\ wg_done (pr_targets (sv_prog s')))
  | Panic p => fatal s e p
  end.
Proof.
  intros He Hi Hm Hr. pose proof (exit_main_spec s1 Hi Hm) as Hx.
  destruct (exit_main s1) as [s'|p]; [|left]; rewrite <- Hr; tauto.
Qed.

(** What a step keeps, and how it fails. *)
Lemma sstep_inv s e o :
  valid_files -> server_inv s -> sstep oob FS LoadFile enable_quit w0 s e o ->
  match o with
  | Ret s' => server_inv s' /\
      (is_exit e = true -> sv_run s = true /\ sv_main s' = MExited 0 /\ wg_done (pr_targets (sv_prog s')))
  | Panic p => fatal s e p
  end.
Proof.
  intros Hv Hs Hst. pose proof (sstep_serving _ _ _ Hst) as Hm.
  inversion Hst as [fs pr err _ Hr|_ Hrun|job tgs _|i e' q o' _ Hq Hown Ho|err _ Hw|err _ Hw|_ Hw Hen|_ Hw|_|_ Hqc|err _ Hw];
    subst; try (split; [|done]).
  - destruct Hs as [Hi Hb Hc Hq Hrl]. destruct (reloadConfig_targets _ _ _ _ _ Hr) as [Ht|(conf&Hl&Ht)].
    + split; cbn [set_prog sv_prog sv_main sv_run sv_reloads]; rewrite ?Ht; try done.
      eapply reloadConfig_running; [intros conf'; apply Hv|exact Hr|exact Hq].
    + destruct (tm_apply_inv (pr_targets (sv_prog s)) (cf_scrape conf) Hi) as [Hi' Hb']; [by eapply Hv|].
      split; cbn [set_prog sv_prog sv_main sv_run sv_reloads]; rewrite ?Ht, ?Hb'; try done.
      eapply reloadConfig_running; [intros conf'; apply Hv|exact Hr|exact Hq].
  - pose proof (si_bases _ Hs) as Hb. rewrite Hm, Hrun in Hb.
    destruct (tm_step_inv _ RunOp (si_targets _ Hs) I (fun _ => Hb)) as [Hi' Hb'].
    by apply set_targets_inv.
  - pose proof (tm_step_inv _ (ProvideOp job tgs) (si_targets _ Hs) I ltac:(done)) as Hp. cbn [tm_step] in Hp.
    destruct (provide (pr_targets (sv_prog s)) job tgs) as [tm|p]; cbn [mbind outcome_bind];
      [|by destruct Hp as (_&?&_)].
    split; [|done]. destruct Hp as [Hi' Hb']. pose proof (set_targets_inv s tm (sv_run s) Hs Hm Hi') as Hset.
    rewrite Hb', (si_bases _ Hs), Hm in Hset. specialize (Hset eq_refl).
    destruct s. cbn [sv_main] in Hm. subst. exact Hset.
  - pose proof (Forall_lookup_1 _ _ _ _ (si_queues _ Hs) Hq) as Hrq.
    destruct o' as [q'|p]; cbn [mbind outcome_bind].
    + split; [|done]. apply set_writer_inv; [done|]. apply Forall_insert; [by apply si_queues|].
      by eapply own_running.
    + right. destruct (queue_step_Panic _ _ _ Hrq Hown Ho) as (n&->&?&?&?). by exists i, q, n.
  - destruct Hs. by split.
  - destruct Hs. by split.
  - destruct Hs. unfold handle_quit. by destruct (sv_quitCh s).
  - destruct Hs. split; try done. cbn [handle_reload sv_reloads]. apply Forall_app. split; [done|by constructor].
  - by apply exit_step.
  - by apply exit_step.
  - apply exit_step; try done. destruct Hs. by split.
Qed.

Lemma sruns_inv s0 es s :
  valid_files -> server_inv s0 -> sruns oob FS LoadFile enable_quit w0 s0 es s -> server_inv s.
Proof.
  intros Hv H0'. induction 1 as [|es s e s' _ IH Hst]; [done|]. by apply (sstep_inv _ _ _ Hv IH Hst).
Qed.

(** A configuration with an endpoint whose client cannot be built. *)
Definition refused (conf : Config (W := W)) : Prop :=
  (exists err, new_queues w0 (ExternalLabels (cf_remote conf)) 0 (RemoteWriteConfigs (cf_remote conf)) =
     Ret (inl err)) \/
  (exists err, new_clients 0 (RemoteReadConfigs (cf_remote conf)) = inl err).

Lemma Reader_ApplyConfig_None (r : Reader (W := W)) conf :
  (Reader_ApplyConfig r conf).2 = None <-> forall err, new_clients 0 (RemoteReadConfigs conf) <> inl err.
Proof. unfold Reader_ApplyConfig. destruct (new_clients 0 _); naive_solver. Qed.

Lemma ApplyConfig_None wr conf olds wr' err :
  ApplyConfig oob w0 wr conf olds wr' err ->
  err = None <-> forall e, new_queues w0 (ExternalLabels conf) 0 (RemoteWriteConfigs conf) <> Ret (inl e).
Proof.
  intros HA. inversion HA as [e Hn|qs ? ? Hn]; subst; rewrite Hn; split; try done.
  intros Hne. by destruct (Hne e).
Qed.

Lemma first_load fs f pr err :
  valid_files -> reloadConfig FS LoadFile fs f (reloadables oob w0) first_program pr err ->
  match LoadFile fs f with
  | inl _ => is_Some err
  | inr conf =>
      (err = None <-> ~ refused conf) /\
      pr_reader pr = (Reader_ApplyConfig (mkReader [] ∅) (cf_remote conf)).1 /\
      pr_web pr = mkHandler (ExternalLabels (cf_remote conf)) (cf_text conf) /\
      pr_targets pr = (TM_ApplyConfig NewTargetManager (cf_scrape conf)).1 /\
      (err = None -> Forall2 (built (ExternalLabels (cf_remote conf)))
         (RemoteWriteConfigs (cf_remote conf)) (queues (pr_writer pr)))
  end.
Proof.
  intros Hv Hr. inversion Hr as [e Hl|conf pr' failed Hl Hloop]; subst; rewrite Hl; [by eexists|].
  apply reload_loop_spec in Hloop as (werr&olds&wr'&HA&->&Hf). rewrite Reader_ApplyConfig_None in Hf.
  pose proof (ApplyConfig_None _ _ _ _ _ HA) as Hnone.
  assert (failed = false <-> ~ refused conf) as Hf' by (unfold refused; rewrite Hf, Hnone; naive_solver).
  split; [by rewrite <- Hf'; destruct failed|]. do 3 (split; [done|]). intros Hn.
  destruct failed; [done|]. destruct (proj1 Hf eq_refl) as [-> _].
  destruct (ApplyConfig_spec oob w0 (mkWriter []) (cf_remote conf)) as [Hs _];
    [constructor|by apply (Hv _ _ _ Hl)|].
  by destruct (Hs _ _ _ HA) as [[[? [=]] _]|(_&_&_&?)].
Qed.

Lemma first_inv fs f pr :
  valid_files -> reloadConfig FS LoadFile fs f (reloadables oob w0) first_program pr None ->
  server_inv (first_server pr).
Proof.
  intros Hv Hrc. pose proof (first_load _ _ _ _ Hv Hrc) as Hl.
  destruct (LoadFile fs f) as [e|conf] eqn:Hlf; [by destruct Hl|]. destruct Hl as (_&_&_&Ht&_).
  destruct (tm_apply_inv NewTargetManager (cf_scrape conf) NewTargetManager_inv) as [Hi Hbs];
    [by apply (Hv _ _ _ Hlf)|].
  split; cbn [first_server sv_prog sv_main sv_run sv_reloads]; rewrite ?Ht, ?Hbs; try done.
  eapply reloadConfig_running; [intros conf'; apply Hv|exact Hrc|constructor].
Qed.

(** The start. [Main] always gets to an end: it exits with 2 when the arguments
    are refused, with 0 when the version is asked for, with 1 when the file cannot
    be loaded or has an endpoint whose client cannot be built, and otherwise it
    serves, with a running queue for each endpoint. *)
Theorem Main_start fs_Parse stale fs args :
  valid_files ->
  (exists r, Main oob FS LoadFile w0 fs_Parse stale fs args r) /\
  forall r, Main oob FS LoadFile w0 fs_Parse stale fs args r ->
    let '(c, e) := parse fs_Parse (init stale) args in
    match e with
    | Some _ => r = Exits 2
    | None =>
        if printVersion c then r = Exits 0
        else match LoadFile fs (configFile c) with
             | inl _ => r = Exits 1
             | inr conf =>
                 (refused conf /\ r = Exits 1) \/
                 (~ refused conf /\ exists s, r = Serves s /\ server_inv s /\
                    Forall2 (built (ExternalLabels (cf_remote conf)))
                      (RemoteWriteConfigs (cf_remote conf)) (queues (pr_writer (sv_prog s))))
             end
    end.
Proof.
  intros Hv. split.
  - destruct (parse fs_Parse (init stale) args) as [c [e|]] eqn:Hp; [eexists; by eapply Main_flags|].
    destruct (printVersion c) eqn:Hpv; [eexists; by eapply Main_version|].
    destruct (reloadConfig_total fs (configFile c) first_program) as (pr&[err|]&Hr);
      [constructor|intros conf; apply Hv|constructor|eexists; by eapply Main_config|eexists; by eapply Main_serves].
  - intros r Hr. inversion Hr as [c e Hp|c Hp Hpv|c pr e Hp Hpv Hrc|c pr Hp Hpv Hrc]; subst; rewrite Hp, ?Hpv; try done;
      pose proof (first_load _ _ _ _ Hv Hrc) as Hl; destruct (LoadFile fs (configFile c)) as [?|conf] eqn:Hlf;
      try done; try (by destruct Hl).
    + left. split; [|done]. destruct Hl as [Hl _]. unfold refused in *.
      destruct (new_queues w0 _ 0 _) as [[err|qs]|p] eqn:Hn; [left; by eexists| |].
      all: destruct (new_clients 0 (RemoteReadConfigs (cf_remote conf))) as [err'|cl] eqn:Hc; [right; by eexists|].
      all: exfalso; discriminate (proj2 Hl ltac:(naive_solver)).
    + right. destruct Hl as (Hn&_&_&Ht&Hb). split; [by apply Hn|]. eexists. split; [done|].
      split; [|by apply Hb].
      by eapply first_inv.
Qed.

(** The configurations that the hang-ups of a run load. *)
Definition hup_configs (es : list (sevent FS)) : list (Config (W := W)) :=
  omap (fun e => match e with
                 | EvHangup _ fs => match LoadFile fs hup_file with inr conf => Some conf | inl _ => None end
                 | _ => None
                 end) es.

Definition is_ev_run (e : sevent FS) : bool := match e with EvRunTargets _ => true | _ => false end.
Definition is_ev_quit (e : sevent FS) : bool := match e with EvQuit _ => true | _ => false end.
Definition is_ev_reload (e : sevent FS) : bool := match e with EvReload _ => true | _ => false end.

(** How often an event of a kind happened. *)
Definition times (f : sevent FS -> bool) (es : list (sevent FS)) : nat :=
  length (filter (fun e => f e = true) es).

Lemma times_snoc f es e : times f (es ++ [e]) = (times f es + (if f e then 1 else 0))%nat.
Proof.
  unfold times. rewrite filter_app, length_app, filter_cons, filter_nil. case_decide; by destruct (f e).
Qed.

(** What the configurations loaded one after the other make of a program. *)
Record configured (confs : list Config) (pr : program (W := W)) : Prop := mk_configured {
  cfd_reader : pr_reader pr =
    foldl (fun r conf => (Reader_ApplyConfig r (cf_remote conf)).1) (mkReader [] ∅) confs;
  cfd_web conf : last confs = Some conf ->
    pr_web pr = mkHandler (ExternalLabels (cf_remote conf)) (cf_text conf);
  cfd_targets conf : last confs = Some conf -> scrapeConfigs (pr_targets pr) = cf_scrape conf
}.

Lemma TM_ApplyConfig_scrapeConfigs tm cfgs : scrapeConfigs (TM_ApplyConfig tm cfgs).1 = cfgs.
Proof.
  unfold TM_ApplyConfig. cbn [bases]. destruct (bases tm) as [|b bs]; [done|].
  apply (reload_spec (mkTargetManager cfgs (b :: bs) (targetSets tm) (retired tm))).
Qed.

Lemma reload_configured fs f confs pr pr' err :
  configured confs pr -> reloadConfig FS LoadFile fs f (reloadables oob w0) pr pr' err ->
  configured (confs ++ match LoadFile fs f with inr conf => [conf] | inl _ => [] end) pr'.
Proof.
  intros [Hr Hw Ht] Hrc. inversion Hrc as [e Hl|conf pr1 failed Hl Hloop]; subst; rewrite Hl; [by rewrite app_nil_r|].
  apply reload_loop_spec in Hloop as (werr&olds&wr'&_&->&_).
  split; cbn [pr_reader pr_web pr_targets]; intros *; rewrite ?foldl_app, ?last_snoc, ?TM_ApplyConfig_scrapeConfigs.
  - by rewrite <- Hr.
  - by intros [= <-].
  - by intros [= <-].
Qed.

Lemma provide_scrapeConfigs tm job tgs tm' :
  provide tm job tgs = Ret tm' -> scrapeConfigs tm' = scrapeConfigs tm.
Proof.
  unfold provide. destruct (targetSets tm !! job); [|by intros [= <-]].
  destruct (Sync _ _) as [[sp tgs']|p]; cbn [mbind outcome_bind]; by intros [= <-].
Qed.

Lemma exit_main_Ret s s' :
  exit_main s = Ret s' -> exists tm, scrapeConfigs tm = scrapeConfigs (pr_targets (sv_prog s)) /\
    s' = mkServer (set_targets (sv_prog s) tm) (MExited 0) (sv_web s) (sv_run s) (sv_quitCh s)
           (sv_reloads s) (sv_aborted s).
Proof.
  unfold exit_main. destruct (Stop (pr_targets (sv_prog s))) as [tm|p] eqn:Hs; cbn [mbind outcome_bind]; [|done].
  intros [= <-]. exists tm. split; [|done]. unfold Stop in Hs. destruct (bases _); [done|]. by injection Hs as <-.
Qed.

(** What a run leaves behind: a function of its events. *)
Record traced (conf0 : Config) (es : list (sevent FS)) (s : server (W := W)) : Prop := mk_traced {
  tr_conf : configured (conf0 :: hup_configs es) (sv_prog s);
  tr_reloads : sv_reloads s = replicate (times is_ev_reload es) ReloadSending;
  tr_quit : sv_quitCh s = negb (times is_ev_quit es =? 0)%nat;
  tr_aborted : sv_aborted s = pred (times is_ev_quit es);
  tr_run : sv_run s = negb (times is_ev_run es =? 0)%nat;
  tr_main : sv_main s = if (times is_exit es =? 0)%nat then MServing else MExited 0
}.

Lemma configured_targets confs pr tm :
  scrapeConfigs tm = scrapeConfigs (pr_targets pr) -> configured confs pr -> configured confs (set_targets pr tm).
Proof. intros He [Hr Hw Ht]. split; try done. intros conf Hl. cbn [set_targets pr_targets]. rewrite He. by apply Ht. Qed.

Lemma configured_writer confs pr wr : configured confs pr -> configured confs (set_writer pr wr).
Proof. intros [Hr Hw Ht]. by split. Qed.

Lemma traced_keeps conf0 es s e pr w :
  traced conf0 es s -> sv_main s = MServing -> hup_configs [e] = [] ->
  is_ev_reload e = false -> is_ev_quit e = false -> is_ev_run e = false -> is_exit e = false ->
  configured (conf0 :: hup_configs es) pr ->
  traced conf0 (es ++ [e]) (set_web (set_prog s pr) w).
Proof.
  intros [Hc Hr Hq Ha Hrun Hm] Hsv Hh He1 He2 He3 He4 Hpr.
  split; unfold hup_configs; rewrite ?omap_app, ?times_snoc, ?He1, ?He2, ?He3, ?He4, ?Nat.add_0_r;
    fold hup_configs; try done.
  unfold hup_configs in Hh. by rewrite Hh, app_nil_r.
Qed.

Lemma traced_exit conf0 es s e s' :
  traced conf0 es s -> is_exit e = true -> exit_main s = Ret s' -> traced conf0 (es ++ [e]) s'.
Proof.
  intros [Hc Hr Hq Ha Hrun _] Hx (tm&Htm&->)%exit_main_Ret.
  assert (hup_configs [e] = [] /\ is_ev_reload e = false /\ is_ev_quit e = false /\ is_ev_run e = false)
    as (Hh&He1&He2&He3) by by destruct e.
  split; unfold hup_configs in *;
    rewrite ?omap_app, ?Hh, ?app_nil_r, ?times_snoc, ?He1, ?He2, ?He3, ?Hx, ?Nat.add_0_r; try done.
  - by apply configured_targets.
  - by rewrite Nat.add_1_r.
Qed.

Lemma traced_quit conf0 es s :
  traced conf0 es s -> sv_main s = MServing -> traced conf0 (es ++ [EvQuit _]) (handle_quit s).
Proof.
  intros [Hc Hrl Hq Ha Hr Hmn] Hm. rewrite Hm in Hmn.
  unfold handle_quit. destruct (sv_quitCh s) eqn:Hqc;
    (split; cbn [sv_prog sv_reloads sv_quitCh sv_aborted sv_run sv_main];
     unfold hup_configs; rewrite ?omap_app, ?app_nil_r, ?times_snoc, ?Nat.add_0_r, ?Hm; try done).
  - by rewrite Nat.add_1_r.
  - rewrite Ha. destruct (times is_ev_quit es); [done|]. simpl. lia.
  - by rewrite Nat.add_1_r.
  - rewrite Ha. by destruct (times is_ev_quit es).
Qed.

Lemma traced_run conf0 es s :
  traced conf0 es s -> sv_main s = MServing ->
  traced conf0 (es ++ [EvRunTargets _])
    (mkServer (set_targets (sv_prog s) (Run (pr_targets (sv_prog s)))) MServing (sv_web s) true
       (sv_quitCh s) (sv_reloads s) (sv_aborted s)).
Proof.
  intros [Hc Hrl Hq Ha Hr Hmn] Hm.
  split; unfold hup_configs; rewrite ?omap_app, ?app_nil_r, ?times_snoc, ?Nat.add_0_r; try done.
  - apply configured_targets; [|done]. unfold Run. etransitivity; [apply reload_spec|done].
  - by rewrite Nat.add_1_r.
  - cbn [sv_main]. by rewrite <- Hmn, Hm.
Qed.

Lemma traced_step conf0 es s e s' :
  traced conf0 es s -> sstep oob FS LoadFile enable_quit w0 s e (Ret s') -> traced conf0 (es ++ [e]) s'.
Proof.
  intros Hs Hst. pose proof (sstep_serving _ _ _ Hst) as Hm.
  assert (forall e pr w, hup_configs [e] = [] -> is_ev_reload e = false -> is_ev_quit e = false ->
    is_ev_run e = false -> is_exit e = false -> configured (conf0 :: hup_configs es) pr ->
    traced conf0 (es ++ [e]) (set_web (set_prog s pr) w)) as Hkeep
    by (intros; by apply traced_keeps).
  pose proof (tr_conf _ _ _ Hs) as Hc. remember (Ret s') as o eqn:Ho.
  destruct Hst as [fs pr err _ Hr|_ Hrun|job tgs _|i e q o' _ Hq Hown Hw|err _ Hw|err _ Hw|_ Hw Hen|_ Hw|_|_ Hqc|err _ Hw];
    try (injection Ho as <-).
  - destruct Hs as [_ Hrl Hq Ha Hrun Hmn]. apply (reload_configured _ _ _ _ _ _ Hc) in Hr.
    split; rewrite ?times_snoc, ?Nat.add_0_r; try done. unfold hup_configs. rewrite omap_app.
    cbn [set_prog sv_prog]. revert Hr. simpl. by destruct (LoadFile fs hup_file).
  - by apply traced_run.
  - destruct (provide (pr_targets (sv_prog s)) job tgs) as [tm|p] eqn:Hp; simpl in Ho; [|done].
    injection Ho as <-. apply (Hkeep _ _ (sv_web s)); try done.
    apply configured_targets; [by eapply provide_scrapeConfigs|done].
  - destruct o' as [q'|p]; simpl in Ho; [|done]. injection Ho as <-.
    apply (Hkeep _ _ (sv_web s)); try done. by apply configured_writer.
  - pose proof (Hkeep (EvListen _ err) (sv_prog s)) as Hk. destruct s. by apply Hk.
  - pose proof (Hkeep (EvServed _ err) (sv_prog s)) as Hk. destruct s. by apply Hk.
  - by apply traced_quit.
  - destruct Hs as [_ Hrl Hq Ha Hr Hmn].
    split; cbn [handle_reload sv_prog sv_reloads sv_quitCh sv_aborted sv_run sv_main];
      unfold hup_configs; rewrite ?omap_app, ?app_nil_r, ?times_snoc, ?Nat.add_0_r; try done.
    by rewrite Hrl, Nat.add_1_r, replicate_S_end.
  - by apply (traced_exit conf0 es s).
  - by apply (traced_exit conf0 es s).
  - apply (traced_exit conf0 es (set_web s WebDone)); try done. destruct Hs. by split.
Qed.

Lemma served_start fs_Parse stale fs args s0 :
  valid_files -> Main oob FS LoadFile w0 fs_Parse stale fs args (Serves s0) ->
  server_inv s0 /\ exists c conf0, parse fs_Parse (init stale) args = (c, None) /\
    LoadFile fs (configFile c) = inr conf0 /\ traced conf0 [] s0.
Proof.
  intros Hv Hm. inversion Hm as [| | |c pr Hp Hpv Hrc]; subst.
  pose proof (first_load _ _ _ _ Hv Hrc) as Hl.
  destruct (LoadFile fs (configFile c)) as [e|conf0] eqn:Hlf; [by destruct Hl|].
  destruct Hl as (_&Hr&Hw&Ht&_). split.
  - by eapply first_inv.
  - exists c, conf0. split; [done|]. split; [done|]. split; try done.
    split; cbn [first_server sv_prog]; intros *; [done|by intros [= <-]|].
    intros [= <-]. rewrite Ht. apply TM_ApplyConfig_scrapeConfigs.
Qed.

(** The clients of the reader after a sequence of configurations: those of the last
    one that had a client for each of its endpoints. *)
Definition reader_of (confs : list (Config (W := W))) : Reader (W := W) :=
  foldl (fun r conf => (Reader_ApplyConfig r (cf_remote conf)).1) (mkReader [] ∅) confs.
Definition read_clients (conf : Config (W := W)) : error + list Client := new_clients 0 (RemoteReadConfigs (cf_remote conf)).

Lemma reader_of_last confs cs0 conf0 :
  read_clients conf0 = inr cs0 ->
  exists pre conf post cs, conf0 :: confs = pre ++ conf :: post /\ read_clients conf = inr cs /\
    (forall conf', conf' ∈ post -> exists err, read_clients conf' = inl err) /\
    reader_of (conf0 :: confs) = mkReader cs (ExternalLabels (cf_remote conf)).
Proof.
  intros Hfirst. induction confs as [|conf confs IH] using rev_ind.
  - exists [], conf0, [], cs0. split_ands; [done|done|by intros ? ?%elem_of_nil|].
    unfold reader_of, read_clients in *. cbn [foldl]. unfold Reader_ApplyConfig. by rewrite Hfirst.
  - destruct IH as (pre&conf1&post&cs&Hl&Hcs&Hpost&Hr). rewrite app_comm_cons.
    unfold reader_of in *. rewrite foldl_app, Hr. cbn [foldl]. unfold Reader_ApplyConfig at 1.
    fold (read_clients conf). destruct (read_clients conf) as [err|cs'] eqn:Hc.
    + exists pre, conf1, (post ++ [conf]), cs. split_ands; [by rewrite Hl, <- app_assoc|done| |done].
      intros conf' [?| ->%list_elem_of_singleton]%elem_of_app; [by apply Hpost|by exists err].
    + exists (conf0 :: confs), conf, [], cs'. split_ands; [done|done|by intros ? ?%elem_of_nil|done].
Qed.

Lemma served_reader fs_Parse stale fs args s0 c conf0 :
  valid_files -> Main oob FS LoadFile w0 fs_Parse stale fs args (Serves s0) ->
  parse fs_Parse (init stale) args = (c, None) -> LoadFile fs (configFile c) = inr conf0 ->
  exists cs, read_clients conf0 = inr cs.
Proof.
  intros Hv Hm Hc Hl. inversion Hm as [| | |c' pr Hp Hpv Hrc]; subst. rewrite Hp in Hc. injection Hc as ->.
  pose proof (first_load _ _ _ _ Hv Hrc) as Hf. rewrite Hl in Hf. destruct Hf as [[Hn _] _].
  unfold read_clients. destruct (new_clients 0 _) as [err|cs] eqn:He; [|by exists cs].
  destruct (Hn eq_refl). right. by exists err.
Qed.

Lemma sruns_traced conf0 s0 es s :
  valid_files -> server_inv s0 -> traced conf0 [] s0 ->
  sruns oob FS LoadFile enable_quit w0 s0 es s -> server_inv s /\ traced conf0 es s.
Proof.
  intros Hv Hi Ht. induction 1 as [|es s e s' _ [IHi IHt] Hst]; [done|].
  split; [by apply (sstep_inv _ _ _ Hv IHi Hst)|by eapply traced_step].
Qed.

(** C19: the process as a function of its events, in any order. The
    configuration in force is the one of the last hang-up whose file loads, and
    that file is ./prometheus.yml whatever -config.file says: the web handler
    shows it and the target manager, once it runs, has the sets of its jobs; the
    reader has seen every configuration since the start. The queues of the
    writer run. A request to reload is never answered: each one made is still
    waiting for a receiver, and reloads nothing. A request to quit closes the
    channel, and every further one panics. The process exits at most once,
    with 0. *)
Theorem server_trace fs_Parse stale fs args s0 es s :
  valid_files -> Main oob FS LoadFile w0 fs_Parse stale fs args (Serves s0) ->
  sruns oob FS LoadFile enable_quit w0 s0 es s ->
  exists c conf0, parse fs_Parse (init stale) args = (c, None) /\
    LoadFile fs (configFile c) = inr conf0 /\
    let confs := conf0 :: hup_configs es in
    pr_reader (sv_prog s) =
      foldl (fun r conf => (Reader_ApplyConfig r (cf_remote conf)).1) (mkReader [] ∅) confs /\
    (forall conf, last confs = Some conf ->
       pr_web (sv_prog s) = mkHandler (ExternalLabels (cf_remote conf)) (cf_text conf) /\
       forall job, is_Some (targetSets (pr_targets (sv_prog s)) !! job) <->
         (0 < times is_ev_run es)%nat /\ job ∈ job_name <$> cf_scrape conf) /\
    Forall running (queues (pr_writer (sv_prog s))) /\
    sv_reloads s = replicate (times is_ev_reload es) ReloadSending /\
    sv_quitCh s = negb (times is_ev_quit es =? 0)%nat /\
    sv_aborted s = pred (times is_ev_quit es) /\
    sv_main s = if (times is_exit es =? 0)%nat then MServing else MExited 0.
Proof.
  intros Hv Hm Hr. destruct (served_start _ _ _ _ _ Hv Hm) as (Hi0&c&conf0&Hp&Hl&Ht0).
  destruct (sruns_traced _ _ _ _ Hv Hi0 Ht0 Hr) as [[Hi Hb Hc Hq _] [[Hrd Hw Hts] Hrl Hqc Hab Hrun Hmn]].
  exists c, conf0. split; [done|]. split; [done|]. cbv zeta. split; [done|]. split; [|by split_ands].
  intros conf Hlast. split; [by apply Hw|]. intros job. rewrite (inv_dom _ Hi), (Hts conf Hlast), Hb.
  assert (match sv_main s return list bool with
    | MServing => if sv_run s then [false] else [] | MExited _ => [true] end <> [] <->
    (0 < times is_ev_run es)%nat) as ->; [|done].
  rewrite <- Nat.neq_0_lt_0. destruct (sv_main s) as [|code].
  - rewrite Hrun. destruct (Nat.eqb_spec (times is_ev_run es) 0); simpl; naive_solver.
  - destruct (Hc code eq_refl) as [_ Hrun']. rewrite Hrun in Hrun'.
    by destruct (Nat.eqb_spec (times is_ev_run es) 0).
Qed.

(** The end of the process without the requests of its API (Process.v has
    those). While it serves, a signal to terminate can
    always be received, a request to quit once one has been made, and the error
    of the listener once there is one; whichever comes, the process exits with 0,
    with every goroutine of the target manager done, and takes no further step.
    The one exception is an exit that comes before the goroutine of the target
    manager's Run has got the lock, which nothing prevents: Stop then calls a
    nil function and panics. Besides that, only a queue that reshards to a
    negative number of shards ends the process with a panic. *)
Theorem server_exits fs_Parse stale fs args s0 es s :
  valid_files -> Main oob FS LoadFile w0 fs_Parse stale fs args (Serves s0) ->
  sruns oob FS LoadFile enable_quit w0 s0 es s ->
  (forall e o, is_exit e = true -> sstep oob FS LoadFile enable_quit w0 s e o ->
     if sv_run s then
       exists s', o = Ret s' /\ sv_main s' = MExited 0 /\ wg_done (pr_targets (sv_prog s')) /\
         forall e' o', ~ sstep oob FS LoadFile enable_quit w0 s' e' o'
     else o = Panic PanicNilDeref) /\
  (forall e p, sstep oob FS LoadFile enable_quit w0 s e (Panic p) -> fatal s e p) /\
  (sv_main s = MServing ->
     (exists o, sstep oob FS LoadFile enable_quit w0 s (EvTerm _) o) /\
     ((0 < times is_ev_quit es)%nat -> exists o, sstep oob FS LoadFile enable_quit w0 s (EvQuitReceived _) o) /\
     (forall err, sv_web s = WebError err -> exists o, sstep oob FS LoadFile enable_quit w0 s (EvListenError _) o) /\
     (sv_run s = false -> exists s', sstep oob FS LoadFile enable_quit w0 s (EvRunTargets _) (Ret s') /\
        sv_run s' = true)).
Proof.
  intros Hv Hm Hr. destruct (served_start _ _ _ _ _ Hv Hm) as (Hi0&c&conf0&_&_&Ht0).
  destruct (sruns_traced _ _ _ _ Hv Hi0 Ht0 Hr) as [Hi Ht]. split_ands.
  - intros e o He Hst. pose proof (sstep_inv _ _ _ Hv Hi Hst) as Hs. destruct o as [s'|p].
    + destruct Hs as [_ Hs]. destruct (Hs He) as (->&Hmn&Hw). exists s'. split_ands; try done.
      intros e' o' Hst'. apply sstep_serving in Hst'. congruence.
    + destruct Hs as [(_&->&->)|(i&q&n&->&_)]; done.
  - intros e p Hst. by apply (sstep_inv _ _ _ Hv Hi Hst).
  - intros Hmn. split_ands.
    + eexists. by apply step_term.
    + intros Hq. eexists. apply step_quit_received; [done|]. rewrite (tr_quit _ _ _ Ht).
      destruct (Nat.eqb_spec (times is_ev_quit es) 0); [lia|done].
    + intros err Hw. eexists. by eapply step_listen_error.
    + intros Hrun. eexists. split; [by apply step_run_targets|done].
Qed.

End server_proofs.

(** ** A concrete process *)

Section examples.
Import ScriptedHTTP.
#[local] Existing Instance TargetManager.params_order.
#[local] Existing Instance TargetManager.targets_order.
#[local] Existing Instance TargetManager.plain_urls.
#[local] Existing Instance TargetManager.file_scrape.

#[local] Instance plain_flags : FlagLib := {|
  ExtURL := string;
  url_Path u := u;
  set_Path _ path := path;
  url_Path_set _ _ := eq_refl;
  Hostname := inr "host";
  IsURL _ := true;
  url_Parse u := inr u
|}.

Notation world := (list (error + Response)).

(** Each file lists the names of its jobs. *)
Definition demo_config (remote : RemoteStorageConfig) (jobs : list string) : Config (W := world) :=
  mkConfig remote (TargetManager.job <$> jobs) (String.concat EmptyString jobs).
Definition files : Type := list (string * list string).
Definition demo_load (remote : RemoteStorageConfig) (fs : files) (f : string) : error + Config (W := world) :=
  match list_find (fun p => p.1 = f) fs with
  | Some (_, (_, jobs)) => inr (demo_config remote jobs)
  | None => inl "no such file"
  end.
Definition no_remote : RemoteStorageConfig (W := world) := mkRemoteStorageConfig ∅ [] [].

Lemma demo_valid remote : valid_rewrites remote -> valid_files files (demo_load remote).
Proof.
  intros Hr fs f conf. unfold demo_load. destruct (list_find _ fs) as [[i [f' jobs]]|]; [|done].
  intros [= <-]. split; [done|]. apply Forall_fmap, Forall_forall. intros j _. constructor.
Qed.

Lemma demo_no_remote_valid : valid_rewrites no_remote.
Proof. constructor. Qed.

Lemma reloadConfig_correct_witness :
  exists pr err, reloadConfig files (demo_load demo_conf) [("f", ["node"])] "f" (reloadables no_oob [])
      (mkProgram demo_writer (mkReader [] ∅) NewTargetManager (mkHandler ∅ EmptyString) []) pr err /\
    pr_web pr = mkHandler site_labels "node".
Proof.
  destruct (reloadConfig_correct no_oob files (demo_load demo_conf) [] [("f", ["node"])] "f"
    (mkProgram demo_writer (mkReader [] ∅) NewTargetManager (mkHandler ∅ EmptyString) [])) as [Hs Ht].
  - exact demo_running.
  - intros conf Hl. apply (demo_valid demo_conf ltac:(repeat constructor) _ _ _ Hl).
  - destruct Ht as (pr&err&Hr); [constructor; [intros n Hn; discriminate Hn|constructor]|].
    exists pr, err. split; [exact Hr|]. destruct (Hs _ _ Hr) as (werr&(_&_&_&Hw)&_). exact Hw.
Defined.

(** The start without endpoints. *)
Definition flags_ok (c : FlagConfig) (args : list string) : FlagConfig * list string * option error :=
  (c, args, None).
Definition started (jobs : list string) (tm : TargetManager) : program (W := world) :=
  mkProgram (mkWriter []) (mkReader [] ∅) (TM_ApplyConfig tm (TargetManager.job <$> jobs)).1
    (mkHandler ∅ (String.concat EmptyString jobs)) [].

Lemma demo_reload fs f jobs tm h :
  demo_load no_remote fs f = inr (demo_config no_remote jobs) ->
  reloadConfig files (demo_load no_remote) fs f (reloadables no_oob [])
    (mkProgram (mkWriter []) (mkReader [] ∅) tm h []) (started jobs tm) None.
Proof.
  intros Hl. apply (reload_applied _ _ _ _ _ _ (demo_config no_remote jobs) _ false Hl).
  apply reload_loop_spec. exists None, [], (mkWriter []). split; [|by split].
  by apply (ApplyConfig_replaces no_oob [] (mkWriter []) _ [] [] []); [|constructor..].
Qed.

Definition demo_files : files := [("prometheus.yml", ["node"]); ("./prometheus.yml", ["web"])].

Lemma demo_main :
  Main no_oob files (demo_load no_remote) [] flags_ok 0 demo_files [] (Serves (first_server (started ["node"] NewTargetManager))).
Proof.
  eapply Main_serves; [reflexivity|reflexivity|]. apply demo_reload. reflexivity.
Qed.

Lemma Main_start_witness :
  Main no_oob files (demo_load no_remote) [] flags_ok 0 [] [] (Exits 1).
Proof.
  destruct (Main_start no_oob files (demo_load no_remote) [] flags_ok 0 [] []) as [[r Hr] Hs];
    [apply demo_valid, demo_no_remote_valid|].
  rewrite <- (Hs r Hr : r = Exits 1). exact Hr.
Defined.

(** The process runs the target manager, is hung up, listens, and is asked to
    reload. *)
Definition demo_run : list (sevent files) :=
  [EvRunTargets _; EvHangup _ demo_files; EvListen _ None; EvReload _].

Lemma demo_runs :
  exists s, sruns no_oob files (demo_load no_remote) false []
    (first_server (started ["node"] NewTargetManager)) demo_run s /\ sv_main s = MServing /\ sv_run s = true.
Proof.
  eexists. split; [|split].
  - unfold demo_run. eapply (sruns_snoc _ _ _ _ _ _ [_; _; _]).
    { eapply (sruns_snoc _ _ _ _ _ _ [_; _]).
      { eapply (sruns_snoc _ _ _ _ _ _ [_]).
        { eapply (sruns_snoc _ _ _ _ _ _ []); [apply sruns_nil|]. by apply step_run_targets. }
        eapply step_hangup; [reflexivity|]. apply demo_reload. reflexivity. }
      by apply step_listen. }
    by apply step_reload.
  - reflexivity.
  - reflexivity.
Qed.

Lemma server_trace_witness :
  exists s, sruns no_oob files (demo_load no_remote) false []
      (first_server (started ["node"] NewTargetManager)) demo_run s /\
    sv_reloads s = [ReloadSending] /\ is_Some (targetSets (pr_targets (sv_prog s)) !! "web") /\
    ~ is_Some (targetSets (pr_targets (sv_prog s)) !! "node").
Proof.
  destruct demo_runs as (s&Hr&_). exists s. split; [exact Hr|].
  destruct (server_trace no_oob files (demo_load no_remote) [] false flags_ok 0 demo_files [] _ _ _
    (demo_valid _ demo_no_remote_valid) demo_main Hr) as (c&conf0&Hp&Hl&_&Hc&_&Hrl&_).
  split; [exact Hrl|]. destruct (Hc (demo_config no_remote ["web"]) eq_refl) as [_ Hd].
  rewrite !Hd. split.
  - split; [apply Nat.lt_0_1|]. apply list_elem_of_singleton. reflexivity.
  - intros [_ Hin]. apply list_elem_of_singleton in Hin. discriminate Hin.
Defined.

Lemma server_exits_witness :
  exists s s', sruns no_oob files (demo_load no_remote) false []
      (first_server (started ["node"] NewTargetManager)) demo_run s /\
    sstep no_oob files (demo_load no_remote) false [] s (EvTerm _) (Ret s') /\ sv_main s' = MExited 0.
Proof.
  destruct demo_runs as (s&Hr&Hm&Hrun). exists s.
  destruct (server_exits no_oob files (demo_load no_remote) [] false flags_ok 0 demo_files [] _ _ _
    (demo_valid _ demo_no_remote_valid) demo_main Hr) as (He&_&Hs).
  destruct (Hs Hm) as ([o Ho]&_). specialize (He (EvTerm _) o eq_refl Ho). rewrite Hrun in He.
  destruct He as (s'&->&Hm'&_). by exists s'.
Defined.

End examples.
