(* ===== verification/Service.v ===== *)
(** * The API in the running process ([web/web.go], [web/api/v1/api.go], [cmd/main.go])

    [web.New] gives the API the target manager of the process as its
    [targetRetriever]. A request that reaches a handler while the process serves
    takes one look at the targets, under the lock of the manager, and then asks
    them. A query runs in the engine over the reader of the process. This file
    composes the process (Server.v), the target manager, the routes (Web.v), the
    handlers (Api.v) and the engine (Engine.v). *)
From S2P Require Import Prelude Model MetricPkg Relabel Queue Shards Target TargetManager Answer Client Read Write Json ApiParse Types Iterator Fanin Querier Proxy Api Federation Engine Flags Web Server.

Open Scope Z_scope.

#[local] Arguments String.append : simpl nomatch.

(** The interface [targetRetriever]: the slices that a call of [Targets] may
    return. *)
Class TargetRetriever (T : Type) := {
  Targets_returns : T -> list Target -> Prop
}.

(** [API] and [NewAPI]; the query engine is the class [APILib], and [now] is the
    clock of the world. *)
Record API (T : Type) := mkAPI { targetRetriever : T }.
Arguments mkAPI {T}.
Arguments targetRetriever {T}.
Definition NewAPI {T} (tr : T) : API T := mkAPI tr.

Section service.
Context `{RelabelLib, StrconvLib, MapOrder, ParamsOrder, !URLLib, ScrapeLib, !TargetsOrder, !FlagLib}.
Context {W : Type} `{HTTPLib W}.
Context {V : Type} `{TimeLib, !ProxyLib V, !APILib V}.

(** The manager visits its sets in some order. *)
#[export] Instance TargetManager_retriever : TargetRetriever TargetManager := {|
  Targets_returns tm ts := exists l, l ≡ₚ map_to_list (targetSets tm) /\ ts = Targets l
|}.

(** [apiV1] of the handler of a process. *)
Definition apiV1 (s : server (W := W)) : API TargetManager := NewAPI (pr_targets (sv_prog s)).

(** A request for a route of the API while the process listens: the targets the
    handler sees, and how it ends. *)
Inductive api_request (o : Options) (s : server (W := W)) (m path : string) (v : V) (r : ApiRequest)
    (sched : list nat) : handler (W := V) -> list Target -> outcome (V * reply) -> Prop :=
  | api_request_intro f ts out :
      sv_main s = MServing -> sv_web s = WebServing -> (m, path, RApi f) ∈ New_routes o ->
      Targets_returns (targetRetriever (apiV1 s)) ts ->
      serve f v ts r sched = Some out ->
      api_request o s m path v r sched f ts out.

(** ** The targets a request sees *)

Lemma Targets_elem (sets : gmap string targetSet) l t :
  l ≡ₚ map_to_list sets ->
  t ∈ Targets l <-> exists job set h, sets !! job = Some set /\ sp_targets (ts_sp set) !! h = Some t.
Proof.
  intros Hl. unfold Targets. rewrite list_elem_of_In, in_concat. setoid_rewrite <- list_elem_of_In.
  setoid_rewrite list_elem_of_fmap. split.
  - intros (ts&([job set]&->&Hset)&Ht). rewrite Hl in Hset. apply elem_of_map_to_list in Hset.
    apply list_elem_of_fmap in Ht as ([h t']&->&Ht).
    apply (map_range_elem_of _ _ _ _ (torder_range _)) in Ht. by exists job, set, h.
  - intros (job&set&h&Hset&Ht). exists ((torder (sp_targets (ts_sp set))).*2). split.
    + exists (job, set). split; [done|]. rewrite Hl. by apply elem_of_map_to_list.
    + apply list_elem_of_fmap. exists (h, t). split; [done|].
      by apply (map_range_elem_of _ _ _ _ (torder_range _)).
Qed.

Lemma getPromTargets_elem (ts : list Target) a :
  a ∈ getPromTargets ts <-> exists t, t ∈ ts /\ label_value (Labels t) "job" = "allprometheus" /\
    a = label_value (Labels t) "instance".
Proof.
  unfold getPromTargets. rewrite list_elem_of_omap. split.
  - intros (t&Ht&Ha). destruct (String.eqb_spec (label_value (Labels t) "job") "allprometheus"); [|done].
    injection Ha as <-. by exists t.
  - intros (t&Ht&Hj&->). exists t. split; [done|]. by rewrite Hj.
Qed.

Lemma New_routes_api (o : Options) m path (f : handler (W := V)) :
  (m, path, RApi f) ∈ New_routes o ->
  exists p, (m, p, f) ∈ Register /\
    path = (if decide (o_prefix o <> "/") then o_prefix o else EmptyString) +:+ "/api/v1" +:+ p.
Proof.
  unfold New_routes. rewrite elem_of_app, with_prefix_elem. intros [Hin|(p'&->&Hin)].
  { destruct (decide _); [by apply list_elem_of_singleton in Hin|by apply elem_of_nil in Hin]. }
  unfold prefixed_routes in Hin. rewrite !elem_of_app, with_prefix_elem in Hin.
  destruct Hin as [Hin|[(p&->&Hin)|[Hin|Hin]]].
  - by apply list_elem_of_singleton in Hin.
  - apply list_elem_of_fmap in Hin as ([[m1 p1] f1]&[= -> -> ->]&Hin). by exists p1.
  - destruct (EnableQuit o); [by apply list_elem_of_singleton in Hin|by apply elem_of_nil in Hin].
  - rewrite !elem_of_cons, elem_of_nil in Hin. by destruct Hin as [?|[?|[]]].
Qed.

Lemma serve_reply m p (f : handler (W := V)) v ts r sched v' rp :
  (m, p, f) ∈ Register -> serve f v ts r sched = Some (Ret (v', rp)) ->
  rp_code rp ∈ [200; 204; 400; 422; 500; 503].
Proof.
  intros Hf. unfold serve. destruct (f v ts r sched) as [[[v1 res]|e]|] eqn:Hr; [|done..].
  cbn [mbind outcome_bind fst snd]. intros [= _ <-].
  destruct (String.eqb_spec m "OPTIONS") as [->|Hm].
  - assert (f = options) as ->.
    { unfold Register in Hf. rewrite !elem_of_cons, elem_of_nil in Hf.
      destruct Hf as [Hf|[Hf|[Hf|[Hf|[Hf|[Hf|[Hf|[Hf|[]]]]]]]]]; by injection Hf. }
    unfold options in Hr. injection Hr as _ <-. set_solver.
  - destruct (instr_proper res) as [Hc _]; [by eapply handlers_proper|]. set_solver.
Qed.

(** ** Requests of a reachable process *)

Variable oob : float64 -> Z.
Variable FS : Type.
Variable LoadFile : FS -> string -> error + Config (W := W).
Variable w0 : W.
Variable enable_quit : bool.

(** C11: What a request of the API asks, in any state the process can reach. The
    route is one of [Register] below the prefix and /api/v1, and the reply, if
    the handler returns, has one of the codes of the API and the CORS headers.
    The remotes it passes the request on to are the instances of the targets
    with the job label allprometheus of the scrape jobs of the configuration in
    force (the one of the last hang-up whose file loaded), for whatever order
    the manager visits its sets in; and before the manager has been run it asks
    nobody, and answers as if there were nothing. *)
Theorem api_of_process fs_Parse stale fs args s0 es s o m path v r sched f ts out :
  valid_files FS LoadFile -> Main oob FS LoadFile w0 fs_Parse stale fs args (Serves s0) ->
  sruns oob FS LoadFile enable_quit w0 s0 es s ->
  api_request o s m path v r sched f ts out ->
  exists c conf0 conf p, parse fs_Parse (init stale) args = (c, None) /\
    LoadFile fs (configFile c) = inr conf0 /\ last (conf0 :: hup_configs FS LoadFile es) = Some conf /\
    (m, p, f) ∈ Register /\
    path = (if decide (o_prefix o <> "/") then o_prefix o else EmptyString) +:+ "/api/v1" +:+ p /\
    (forall v' rp, out = Ret (v', rp) -> rp_code rp ∈ [200; 204; 400; 422; 500; 503] /\
       forall h x, corsHeaders !! h = Some x -> rp_header rp !! h = Some x) /\
    (forall url, url ∈ prom_urls ts r <->
       exists job set h t, job ∈ job_name <$> cf_scrape conf /\
         targetSets (pr_targets (sv_prog s)) !! job = Some set /\ sp_targets (ts_sp set) !! h = Some t /\
         label_value (Labels t) "job" = "allprometheus" /\
         url = "http://" +:+ label_value (Labels t) "instance" +:+ rq_uri r) /\
    (times FS (is_ev_run FS) es = 0%nat -> prom_urls ts r = []).
Proof.
  intros Hv Hm Hr Hreq. destruct (served_start _ _ _ _ _ _ _ _ _ Hv Hm) as (Hi0&c&conf0&Hp&Hl&Ht0).
  destruct (sruns_traced _ _ _ _ _ _ _ _ _ Hv Hi0 Ht0 Hr) as [[Hi Hb _ _ _] [[_ _ Hts] _ _ _ Hrun _]].
  destruct (last (conf0 :: hup_configs FS LoadFile es)) as [conf|] eqn:Hlast; [|by apply last_None in Hlast].
  destruct Hreq as [f ts out Hmain _ Hroute (l&Hperm&->) Hserve].
  destruct (New_routes_api o m path f Hroute) as (p&Hreg&Hpath).
  exists c, conf0, conf, p. split_ands; try done.
  - intros v' rp ->. split; [by eapply serve_reply|]. intros h x. unfold serve in Hserve.
    destruct (f v _ r sched) as [[[v1 res]|e]|]; [|done..]. injection Hserve as _ <-. apply instr_cors.
  - intros url. unfold prom_urls. rewrite list_elem_of_fmap. setoid_rewrite getPromTargets_elem.
    setoid_rewrite (Targets_elem _ _ _ Hperm). split.
    + intros (a&->&t&(job&set&h&Hset&Ht)&Hj&->). exists job, set, h, t. split_ands; try done.
      rewrite <- (Hts conf eq_refl). apply (inv_dom _ Hi job). by eexists.
    + intros (job&set&h&t&_&Hset&Ht&Hj&->). eexists. split; [done|]. exists t. split_ands; [|done|done].
      by exists job, set, h.
  - intros Hz. rewrite Hrun, Hz, Hmain in Hb. cbn in Hb.
    assert (targetSets (pr_targets (sv_prog s)) = ∅) as He.
    { apply map_empty. intros job. apply eq_None_not_Some. intros Hs. by apply (inv_dom _ Hi) in Hs as [Hs _]. }
    change (targetSets (targetRetriever (apiV1 s))) with (targetSets (pr_targets (sv_prog s))) in Hperm.
    rewrite He, map_to_list_empty in Hperm. apply Permutation_nil_r in Hperm as ->. done.
Qed.

(** ** Queries of a reachable process *)

(** C8: An instant query for a selector in the running process, from the request to
    the samples. The route of [/api/v1/query] is the handler of the API. Let the
    request name its time, the staleness window before it begin after
    model.Earliest, the query's context last and not be local-only, and the
    endpoints of the last configuration for all of whose endpoints a client could
    be made answer without a panic of a client, with samples sorted by time, each to its own request and matchers
    (C6 and C40 have those races); one that fails is left out. Then the answer is a vector with at most one
    element for each fingerprint, and its value is that of a sample some endpoint
    returned that is neither after the asked instant (less the offset) nor older
    than the staleness delta. If only one endpoint returned the fingerprint, or
    the goroutines follow each other, there is such an element as soon as there
    is such a sample, with the value of a latest one; otherwise the map of the
    goroutines can lose a series. *)
Theorem query_of_process fs_Parse stale fs args s0 es s o
    (ep : engine_params (W := W) (V := V)) v ts rq sched n t timeout :
  valid_files FS LoadFile -> Main oob FS LoadFile w0 fs_Parse stale fs args (Serves s0) ->
  sruns oob FS LoadFile enable_quit w0 s0 es s -> ep_reader ep = pr_reader (sv_prog s) ->
  let env := (ep_outside ep v timeout).1 in
  let reft := Add t (int64 (- vs_Offset n)) in
  let oldest := Add reft (int64 (- ep_stale ep)) in
  ep_ParseExpr ep (FormValue rq "query") = inr (EVectorSelector n) ->
  parseTime (FormValue rq "time") = inr t -> FormValue rq "time" <> EmptyString ->
  query_timeout rq = inr timeout ->
  valid_env env -> qe_gate env = None -> qe_interrupt env 0 = None ->
  window_answered env (ep_reader ep) 0 (oldest, reft, vs_LabelMatchers n) -> Earliest < oldest ->
  exists c conf0 pre conf post cs, parse fs_Parse (init stale) args = (c, None) /\
    LoadFile fs (configFile c) = inr conf0 /\
    conf0 :: hup_configs FS LoadFile es = pre ++ conf :: post /\
    read_clients conf = inr cs /\ (forall conf', conf' ∈ post -> exists err, read_clients conf' = inl err) /\
    ("GET", (if decide (o_prefix o <> "/") then o_prefix o else EmptyString) +:+ "/api/v1/query",
      RApi (query (APILib0 := engine_api ep))) ∈ New_routes (APILib0 := engine_api ep) o /\
    exists l, query (APILib0 := engine_api ep) v ts rq sched =
        Some (Ret ((ep_outside ep v timeout).2, inr (DQuery (APILib0 := engine_api ep) (PromVector l)))) /\
      selector_vector (window_whole env (mkReader cs (ExternalLabels (cf_remote conf))) 0
          (oldest, reft, vs_LabelMatchers n))
        (window_returned env (mkReader cs (ExternalLabels (cf_remote conf))) 0
        (oldest, reft, vs_LabelMatchers n)) oldest reft t l.
Proof.
  intros Hv Hm Hr Hep env reft oldest Hparse Ht Hne Hto Henv Hgate Hint Hans Hold.
  destruct (served_start _ _ _ _ _ _ _ _ _ Hv Hm) as (Hi0&c&conf0&Hp&Hl&Ht0).
  destruct (served_reader _ _ _ _ _ _ _ _ _ _ _ Hv Hm Hp Hl) as [cs0 Hcs0].
  destruct (sruns_traced _ _ _ _ _ _ _ _ _ Hv Hi0 Ht0 Hr) as [_ [[Hrd _ _] _ _ _ _ _]].
  destruct (reader_of_last (hup_configs FS LoadFile es) cs0 conf0 Hcs0) as (pre&conf&post&cs&Hconfs&Hcs&Hpost&Hreader).
  destruct (instant_query_correct ep v ts rq sched n t timeout Hparse Ht Hne Hto Henv Hgate Hint Hans Hold)
    as (l&Hq&Hspec).
  exists c, conf0, pre, conf, post, cs. split_ands; try done.
  - unfold New_routes. apply elem_of_app. right. apply with_prefix_elem. exists ("/api/v1" +:+ "/query").
    split; [done|]. unfold prefixed_routes. rewrite !elem_of_app. right. left. apply with_prefix_elem.
    exists "/query". split; [done|]. apply list_elem_of_fmap. exists ("GET", "/query", query (APILib0 := engine_api ep)).
    split; [done|]. unfold Register. rewrite !elem_of_cons. tauto.
  - exists l. split; [exact Hq|]. unfold reader_of in Hreader. by rewrite Hep, Hrd, Hreader in Hspec.
Qed.

End service.

(** ** A process with one remote *)

Section examples.
Import ScriptedHTTP LiteralTime.
#[local] Existing Instance TargetManager.params_order.
#[local] Existing Instance TargetManager.targets_order.
#[local] Existing Instance TargetManager.plain_urls.
#[local] Existing Instance TargetManager.file_scrape.
#[local] Existing Instance Server.plain_flags.
#[local] Existing Instance Federation.no_queries.

(** The world holds the bodies of the answers to come. *)
#[local] Instance scripted_proxy : ProxyLib (list string).
Proof.
  refine {| new_request_ok _ := true;
    client_Do w url := match w with [] => ([], None) | b :: w => (w, Some b) end; grow n := n |}.
  abstract (intros; lia).
Defined.

Definition prom_files : Server.files := [("prometheus.yml", ["allprometheus"])].
Definition prom_run : list (sevent Server.files) :=
  [EvRunTargets _; EvProvide _ "allprometheus" [TargetManager.group ["p:9090"]]; EvListen _ None].
Definition prom_start : server (W := list (error + Client.Response)) :=
  first_server (Server.started ["allprometheus"] NewTargetManager).
Definition prom_options : Options := Web.demo_options.
Definition values_request : ApiRequest := mkApiRequest ∅ "/prom/api/v1/label/site/values" "site".

Lemma prom_main :
  Main no_oob Server.files (Server.demo_load Server.no_remote) [] Server.flags_ok 0 prom_files [] (Serves prom_start).
Proof. eapply Main_serves; [reflexivity|reflexivity|]. apply Server.demo_reload. reflexivity. Qed.

(** The manager once it has the target, and the process that listens. *)
Definition prom_provide : outcome TargetManager :=
  provide (Run (pr_targets (sv_prog prom_start))) "allprometheus" [TargetManager.group ["p:9090"]].
Definition prom_manager : TargetManager := match prom_provide with Ret tm => tm | Panic _ => NewTargetManager end.
Definition prom_after_run : server (W := list (error + Client.Response)) :=
  mkServer (set_targets (sv_prog prom_start) (Run (pr_targets (sv_prog prom_start)))) MServing WebNotStarted true
    false [] 0.
Definition prom_end : server (W := list (error + Client.Response)) :=
  set_web (set_prog prom_after_run (set_targets (sv_prog prom_after_run) prom_manager)) WebServing.

Lemma prom_provided : prom_provide = Ret prom_manager.
Proof.
  assert (match prom_provide with Ret _ => true | Panic _ => false end = true) as Ho by (vm_compute; reflexivity).
  unfold prom_manager. by destruct prom_provide.
Qed.

Lemma prom_runs : sruns no_oob Server.files (Server.demo_load Server.no_remote) false [] prom_start prom_run prom_end.
Proof.
  unfold prom_run. eapply (sruns_snoc _ _ _ _ _ _ [_; _]).
  { eapply (sruns_snoc _ _ _ _ _ _ [_] prom_after_run).
    { eapply (sruns_snoc _ _ _ _ _ _ []); [apply sruns_nil|]. apply step_run_targets; reflexivity. }
    pose proof (step_provide no_oob Server.files (Server.demo_load Server.no_remote) false [] prom_after_run
      "allprometheus" [TargetManager.group ["p:9090"]] eq_refl) as Hst.
    change (provide _ _ _) with prom_provide in Hst. rewrite prom_provided in Hst. exact Hst. }
  apply step_listen; reflexivity.
Qed.

Lemma prom_targets : getPromTargets (Targets (map_to_list (targetSets (pr_targets (sv_prog prom_end))))) = ["p:9090"].
Proof. vm_compute. reflexivity. Qed.

Definition seen_targets : list Target := Targets (map_to_list (targetSets (pr_targets (sv_prog prom_end)))).

Lemma api_of_process_witness :
  exists out, api_request prom_options prom_end "GET" "/prom/api/v1/label/:name/values" ["{}"] values_request
      (one_by_one [0]%nat) labelValues seen_targets out /\
    prom_urls seen_targets values_request = ["http://p:9090/prom/api/v1/label/site/values"] /\
    exists job, is_Some (targetSets (pr_targets (sv_prog prom_end)) !! job).
Proof.
  assert (prom_urls seen_targets values_request = ["http://p:9090/prom/api/v1/label/site/values"]) as Hu
    by exact (f_equal (fmap (fun l => "http://" +:+ l +:+ rq_uri values_request)) prom_targets).
  destruct (serve labelValues ["{}"] seen_targets values_request (one_by_one [0]%nat)) as [out|] eqn:Hs.
  2: { unfold serve, labelValues, with_bodys in Hs. rewrite Hu in Hs. vm_compute in Hs. discriminate Hs. }
  assert (api_request prom_options prom_end "GET" "/prom/api/v1/label/:name/values" ["{}"] values_request
      (one_by_one [0]%nat) labelValues seen_targets out) as Hreq.
  { constructor; [reflexivity|reflexivity| | |exact Hs].
    - unfold New_routes, prefixed_routes. rewrite elem_of_app, with_prefix_elem. right.
      exists "/api/v1/label/:name/values". split; [reflexivity|]. rewrite !elem_of_app, with_prefix_elem.
      right. left. exists "/label/:name/values". split; [reflexivity|]. apply list_elem_of_fmap.
      exists ("GET", "/label/:name/values", labelValues). split; [reflexivity|].
      unfold Register. rewrite !elem_of_cons. tauto.
    - exists (map_to_list (targetSets (pr_targets (sv_prog prom_end)))). split; reflexivity. }
  exists out. split; [exact Hreq|]. split; [exact Hu|].
  destruct (api_of_process no_oob Server.files (Server.demo_load Server.no_remote) [] false Server.flags_ok 0
    prom_files [] prom_start prom_run prom_end _ _ _ _ _ _ _ _ _
    (Server.demo_valid _ Server.demo_no_remote_valid) prom_main prom_runs Hreq)
    as (c&conf0&conf&p&Hp&Hl&Hc&_&_&_&Hurls&_).
  destruct (proj1 (Hurls "http://p:9090/prom/api/v1/label/site/values")) as (job&set&h&t&_&Hset&_).
  - rewrite Hu. left.
  - exists job. by exists set.
Defined.

(** A process with one read endpoint, which has listened. *)
Definition read_remote : RemoteStorageConfig :=
  mkRemoteStorageConfig {["site" := "a"]} [] [mkRemoteConfig empty_url (30 * Second) true []].
Definition read_files : Server.files := [("prometheus.yml", ["node"])].
Definition read_program : program (W := list (error + Client.Response)) :=
  mkProgram (mkWriter []) (mkReader [plain_client] {["site" := "a"]})
    (TM_ApplyConfig NewTargetManager (TargetManager.job <$> ["node"])).1 (mkHandler {["site" := "a"]} "node") [].
Definition read_end : server (W := list (error + Client.Response)) := set_web (first_server read_program) WebServing.

Lemma read_remote_valid : valid_rewrites read_remote.
Proof. apply Forall_nil_2. Qed.

Lemma read_main :
  Main no_oob Server.files (Server.demo_load read_remote) [] Server.flags_ok 0 read_files []
    (Serves (first_server read_program)).
Proof.
  eapply Main_serves; [reflexivity|reflexivity|].
  assert (Server.demo_load read_remote read_files "prometheus.yml" = inr (Server.demo_config read_remote ["node"])) as Hl
    by reflexivity.
  apply (reload_applied _ _ _ _ _ _ (Server.demo_config read_remote ["node"]) _ false Hl).
  apply reload_loop_spec. exists None, [], (mkWriter []). split; [|by split].
  by apply (ApplyConfig_replaces no_oob [] (mkWriter []) _ [] [] []); [|constructor..].
Qed.

Lemma read_runs :
  sruns no_oob Server.files (Server.demo_load read_remote) false [] (first_server read_program)
    [EvListen _ None] read_end.
Proof. eapply (sruns_snoc _ _ _ _ _ _ []); [apply sruns_nil|]. apply step_listen; reflexivity. Qed.

Definition read_engine : engine_params (W := list (error + Client.Response)) (V := unit) :=
  LiteralEngine.literal_engine (mkReader [plain_client] {["site" := "a"]}) [answer 200 fixed_body] 0.

#[local] Existing Instance LiteralEngine.no_proxy.

Lemma query_of_process_witness :
  exists l, query (APILib0 := engine_api read_engine) tt [] (LiteralEngine.instant_request "up" "60") [] =
      Some (Ret (tt, inr (DQuery (APILib0 := engine_api read_engine) (PromVector l)))).
Proof.
  destruct (query_of_process no_oob Server.files (Server.demo_load read_remote) [] false Server.flags_ok 0
    read_files [] (first_server read_program) [EvListen _ None] read_end Web.demo_options read_engine tt []
    (LiteralEngine.instant_request "up" "60") [] (LiteralEngine.up_selector 0) 60000 None
    (Server.demo_valid read_remote read_remote_valid) read_main read_runs)
    as (c&conf0&pre&conf&post&cs&_&_&_&_&_&_&l&Hq&_).
  - reflexivity.
  - reflexivity.
  - vm_compute. reflexivity.
  - discriminate.
  - reflexivity.
  - apply LiteralEngine.calm_valid.
  - reflexivity.
  - reflexivity.
  - intros c ->%list_elem_of_singleton. eexists. split; [vm_compute; reflexivity|]. vm_compute. repeat constructor.
  - vm_compute. reflexivity.
  - exists l. exact Hq.
Defined.

End examples.
