(* ===== verification/Process.v ===== *)
(** * The process with the requests of its API ([cmd/main.go], [web/web.go],
      [storage/fanin/fanin.go], [web/api/v1/api.go])

    The system of Server.v has the goroutines that [Main] starts. A request of
    the API starts more: a query one for each read endpoint ([query] of the
    fan-in), a request that is passed on one for each target ([proxyReq]). The
    HTTP server recovers a panic of the goroutine that handles a request, but not
    of those: it ends the process. This file composes the process with any number
    of requests, interleaved access by access, and lists all the ways in which it
    ends. *)
From S2P Require Import Prelude Model MetricPkg Relabel Queue Shards Target TargetManager Json Answer Client Read Write ApiParse Types Iterator Fanin FaninRace FaninQuery Querier QuerySystem Proxy Api Federation Flags Web Server Service.

Import Matcher.

Open Scope Z_scope.

Section process.
Context `{RelabelLib, StrconvLib, MapOrder, ParamsOrder, !URLLib, ScrapeLib, !TargetsOrder, !FlagLib}.
Context {W : Type} `{HTTPLib W}.
Context {V : Type} `{!ProxyLib V}.
Variable oob : float64 -> Z.
Variable FS : Type.
Variable LoadFile : FS -> string -> error + Config (W := W).
Variable w0 : W.

(** The options of the web handler. *)
Variable o : Options.

(** A query of the fan-in: its window, its remotes, and its goroutines. *)
Record live_query := mkLiveQuery {
  lq_from : Time;
  lq_through : Time;
  lq_remotes : list (remote_store (W := W));
  lq_state : query_state
}.

Record process := mkProcess {
  ps_server : server (W := W);
  ps_queries : list live_query;
  ps_requests : list (proxy_state (W := V))
}.

Inductive pevent :=
  (** a step of the process without its requests *)
  | PServer (e : sevent FS)
  (** a query starts its goroutines, or one of them makes a step *)
  | PQuery (from through : Time) (ms : list LabelMatcher) (spare : nat) (remotes : list (remote_store (W := W)))
  | PQueryStep (k i : nat)
  (** a request is passed on to the targets, or one of its goroutines makes a step *)
  | PRequest (v : V) (ts : list Target) (r : ApiRequest)
  | PRequestStep (k i : nat).

(** The panic of the goroutine of a remote that sends its request. *)
Definition ask_panic (from through : Time) (r : remote_store (W := W)) (g : qgoroutine) : go_panic :=
  match g with
  | GMatching added (MSent l) =>
      match mapM id l with
      | Some m => match ask from through r added m with Panic p => p | Ret _ => PanicNilDeref end
      | None => PanicNilDeref
      end
  | _ => PanicNilDeref
  end.

(** A step of goroutine [i] of a query, which may panic. *)
Definition query_outcome (q : live_query) (i : nat) : option (outcome live_query) :=
  r ← lq_remotes q !! i; g ← workers (lq_state q) !! i;
  st ← query_step (lq_from q) (lq_through q) (lq_remotes q) i (lq_state q);
  match workers st !! i with
  | Some GPanicked => Some (Panic (ask_panic (lq_from q) (lq_through q) r g))
  | Some (GMerging GCrashed) => Some (Panic PanicNilDeref)
  | _ => Some (Ret (mkLiveQuery (lq_from q) (lq_through q) (lq_remotes q) st))
  end.

Definition set_server (ps : process) (s : server (W := W)) : process :=
  mkProcess s (ps_queries ps) (ps_requests ps).
Definition set_queries (ps : process) (qs : list live_query) : process :=
  mkProcess (ps_server ps) qs (ps_requests ps).
Definition set_requests (ps : process) (rs : list (proxy_state (W := V))) : process :=
  mkProcess (ps_server ps) (ps_queries ps) rs.

Definition serving (ps : process) : Prop :=
  sv_main (ps_server ps) = MServing /\ sv_web (ps_server ps) = WebServing.

Inductive pstep (ps : process) : pevent -> outcome process -> Prop :=
  | p_server e out :
      sstep oob FS LoadFile (EnableQuit o) w0 (ps_server ps) e out ->
      (e = EvListen _ None -> exists n, LimitListener (MaxConnections o) = Ret n) ->
      pstep ps (PServer e) (s ← out; Ret (set_server ps s))
  (** the listener is there, but its limit on connections is negative *)
  | p_listen_panics p :
      sv_main (ps_server ps) = MServing -> sv_web (ps_server ps) = WebNotStarted ->
      LimitListener (MaxConnections o) = Panic p -> pstep ps (PServer (EvListen _ None)) (Panic p)
  | p_query from through ms spare remotes :
      serving ps -> r_querier <$> remotes = Queriers (pr_reader (sv_prog (ps_server ps))) ->
      pstep ps (PQuery from through ms spare remotes)
        (Ret (set_queries ps (ps_queries ps ++ [mkLiveQuery from through remotes (query_start ms spare [] remotes)])))
  | p_query_step k i q out :
      sv_main (ps_server ps) = MServing -> ps_queries ps !! k = Some q -> query_outcome q i = Some out ->
      pstep ps (PQueryStep k i) (q' ← out; Ret (set_queries ps (<[k := q']> (ps_queries ps))))
  | p_request v ts r :
      serving ps -> Targets_returns (targetRetriever (apiV1 (ps_server ps))) ts ->
      pstep ps (PRequest v ts r) (Ret (set_requests ps (ps_requests ps ++ [proxy_init v (prom_urls ts r)])))
  | p_request_step k i p out :
      sv_main (ps_server ps) = MServing -> ps_requests ps !! k = Some p -> proxy_step i p = Some out ->
      pstep ps (PRequestStep k i) (p' ← out; Ret (set_requests ps (<[k := p']> (ps_requests ps)))).

Inductive pruns (ps0 : process) : list pevent -> process -> Prop :=
  | pruns_nil : pruns ps0 [] ps0
  | pruns_snoc es ps e ps' : pruns ps0 es ps -> pstep ps e (Ret ps') -> pruns ps0 (es ++ [e]) ps'.

(** The events of the process without its requests. *)
Definition server_events (es : list pevent) : list (sevent FS) :=
  omap (fun e => match e with PServer e => Some e | _ => None end) es.

(** ** A query that is interleaved cannot crash by itself

    Whatever the remotes return, no goroutine sends a nil matcher or dereferences
    a nil pointer of the map. *)

(** A slice all of whose elements are written. *)
Definition written (arr : list (option LabelMatcher)) (g : qgoroutine) : Prop :=
  match g with
  | GMatching _ (MAppending _ s) => Forall is_Some (ms_read arr s)
  | GMatching _ (MSent l) => Forall is_Some l
  | _ => True
  end.

(** The goroutine as one of the map: it has nothing to merge before its answer. *)
Definition live_view (g : qgoroutine) : goroutine (I := sampleStreamIterator) :=
  match g with GMerging g => g | _ => GLoop [] end.
Definition live_race (st : query_state) : race_state :=
  mkRace (shared_map st) (shared_heap st) (live_view <$> workers st).
Definition awaits (its : list sampleStreamIterator) (g : qgoroutine) : Prop :=
  match g with GMatching _ _ => its = [] | _ => True end.

Definition query_safe (st : query_state) : Prop :=
  Forall (written (shared_array st)) (workers st) /\
  exists s0 inputs, race_safe s0 inputs (live_race st) /\ Forall2 awaits inputs (workers st).

Lemma written_insert arr n m g : written arr g -> written (<[n := Some m]> arr) g.
Proof.
  destruct g as [added [todo [k|l]|l]|g|]; try done. cbn [written ms_read].
  destruct (decide (k <= n)%nat); [by rewrite take_insert_ge|]. rewrite take_insert_lt by lia.
  intros Hw. by apply Forall_insert; [|by eexists].
Qed.

Lemma append_written arr s m added todo :
  Forall is_Some (ms_read arr s) ->
  (forall g, written arr g -> written (append_matcher arr s m).1 g) /\
  written (append_matcher arr s m).1 (GMatching added (MAppending todo (append_matcher arr s m).2)).
Proof.
  intros Hs. destruct s as [n|l]; cbn [append_matcher].
  - destruct (Nat.ltb_spec n (length arr)) as [Hlt|Hge]; cbn [fst snd written ms_read] in *.
    + split; [intros g; apply written_insert|].
      rewrite (take_S_r _ _ (Some m)) by by apply list_lookup_insert_eq.
      rewrite take_insert_ge by done. apply Forall_app. split; [done|]. repeat constructor. by eexists.
    + split; [done|]. apply Forall_app. split; [done|]. repeat constructor. by eexists.
  - split; [done|]. cbn [fst snd written ms_read] in *. apply Forall_app. split; [done|]. repeat constructor. by eexists.
Qed.

Lemma concat_insert_nil (inputs : list (list sampleStreamIterator)) i its x :
  inputs !! i = Some [] -> x ∈ concat inputs -> x ∈ concat (<[i := its]> inputs).
Proof.
  intros Hi (k&l&Hk&Hx)%concat_elem_of. apply concat_elem_of. exists k, l. split; [|done].
  rewrite list_lookup_insert_ne; [done|]. intros <-. rewrite Hi in Hk. injection Hk as <-. by apply elem_of_nil in Hx.
Qed.

(** A goroutine gets its answer. *)
Lemma race_safe_answer s0 inputs (s : race_state (I := sampleStreamIterator)) i its :
  race_safe s0 inputs s -> inputs !! i = Some [] ->
  race_safe s0 (<[i := its]> inputs) (mkRace (fpToIt s) (heap s) (<[i := GLoop its]> (FaninRace.goroutines s))).
Proof.
  intros (owns&[Hfun Hcell Hmap Hstart Hlocal Hold Hnew Hmet Hdom]&Hsafe&Hc) Hi.
  pose proof (fun x => concat_insert_nil inputs i its x Hi) as Hin.
  assert (forall fp l, genuine inputs fp l -> genuine (<[i := its]> inputs) fp l) as Hgen.
  { intros fp l Hl. eapply Forall_impl; [exact Hl|]. intros x [Hx Hfp]. split; [by apply Hin|done]. }
  assert (i < length inputs)%nat as Hlt by by eapply lookup_lt_Some.
  exists owns. cbn [fpToIt heap FaninRace.goroutines]. split_ands.
  - constructor; try done.
    + intros p fp Ho. destruct (Hcell p fp Ho) as (mit&Hm&Hg). exists mit. auto.
    + intros fp [?|(it&?&?)]%Hdom; [by left|right]. exists it. auto.
  - apply Forall_insert.
    + eapply Forall_impl; [exact Hsafe|]. intros g [Hr Hg]. split.
      * eapply Forall_impl; [exact Hr|]. done.
      * destruct g; try done. destruct Hg as ((?&?&?)&?). split_ands; auto.
    + split; [|done]. apply Forall_forall. intros x Hx. apply concat_elem_of. exists i, its.
      split; [by apply list_lookup_insert_eq|done].
  - apply Forall2_insert; [done|]. by exists [].
Qed.

Lemma Forall2_insert_r {A B} (P : A -> B -> Prop) l k i x y :
  Forall2 P l k -> l !! i = Some x -> P x y -> Forall2 P l (<[i := y]> k).
Proof. intros Hf Hx Hp. rewrite <- (list_insert_id l i x Hx). by apply Forall2_insert. Qed.

(** A step of a query is safe, or the request of the goroutine's remote panics. *)
Lemma query_outcome_safe q i out :
  query_safe (lq_state q) -> query_outcome q i = Some out ->
  match out with
  | Ret q' => query_safe (lq_state q') /\ lq_remotes q' = lq_remotes q
  | Panic p => exists r added m, lq_remotes q !! i = Some r /\ ask (lq_from q) (lq_through q) r added m = Panic p
  end.
Proof.
  destruct q as [from through remotes st]. intros [Hw (s0&inputs&Hs&Ha)]. unfold query_outcome.
  cbn [lq_from lq_through lq_remotes lq_state] in *. unfold query_step.
  destruct (remotes !! i) as [r|] eqn:Hr; [|done]. cbn [mbind option_bind].
  destruct (workers st !! i) as [g|] eqn:Hg; [|done]. cbn [mbind option_bind].
  pose proof (Forall_lookup_1 _ _ _ _ Hw Hg) as Hwg.
  destruct (Forall2_lookup_r _ _ _ _ _ Ha Hg) as (its&Hits&Hai).
  assert (i < length (workers st))%nat as Hlt by by eapply lookup_lt_Some.
  assert (live_view <$> workers st = FaninRace.goroutines (live_race st)) as Hlv by done.
  destruct g as [added [todo sl|l]|g|]; [| | |done].
  - destruct (matcher_step (shared_array st) (MAppending todo sl)) as [[arr g']|] eqn:Hm; [|done].
    cbn [mbind option_bind workers fst snd]. rewrite list_lookup_insert_eq by done. intros [= <-]. split; [|done].
    cbn [lq_state].
    assert ((forall h, written (shared_array st) h -> written arr h) /\ written arr (GMatching added g')) as [Hmono Hnew].
    { destruct todo as [|m todo]; cbn [matcher_step] in Hm.
      - injection Hm as <- <-. by split.
      - pose proof (append_written (shared_array st) sl m added todo Hwg) as Happ.
        destruct (append_matcher (shared_array st) sl m). injection Hm as <- <-. exact Happ. }
    split; cbn [shared_array workers].
    + apply Forall_insert; [|done]. eapply Forall_impl; [exact Hw|]. done.
    + exists s0, inputs. split; [|by eapply Forall2_insert_r]. unfold live_race. cbn [shared_map shared_heap workers].
      rewrite list_fmap_insert. cbn [live_view]. rewrite list_insert_id; [done|].
      by rewrite list_lookup_fmap, Hg.
  - assert (exists m, mapM id l = Some m) as [m Hml].
    { clear -Hwg. cbn [written] in Hwg. induction Hwg as [|x l [y ->] _ [m IH]]; [by exists []|].
      exists (y :: m). cbn. unfold id in *. by rewrite IH. }
    rewrite Hml. cbn [mbind option_bind workers]. rewrite list_lookup_insert_eq by done. unfold ask_panic. rewrite Hml.
    destruct (ask from through r added m) as [answer|p] eqn:Hask.
    + intros [= <-]. split; [|done]. cbn [lq_state]. split; cbn [shared_array workers].
      { by apply Forall_insert. }
      cbn [awaits] in Hai. subst its. exists s0, (<[i := answer]> inputs). split.
      * unfold live_race. cbn [shared_map shared_heap workers]. rewrite list_fmap_insert. cbn [live_view].
        exact (race_safe_answer _ _ _ i answer Hs Hits).
      * by apply Forall2_insert.
    + intros [= <-]. by exists r, added, m.
  - destruct (gstep (shared_map st) (shared_heap st) g) as [[[mp hp] g']|] eqn:Hst; [|done].
    cbn [mbind option_bind workers fst snd]. rewrite list_lookup_insert_eq by done.
    pose proof (race_safe_step _ _ _ i Hs) as Hs'. unfold schedule_step in Hs'.
    cbn [FaninRace.goroutines live_race fpToIt heap] in Hs'. rewrite list_lookup_fmap, Hg in Hs'.
    cbn [fmap option_fmap option_map live_view] in Hs'. rewrite Hst in Hs'.
    assert (g' <> GCrashed) as Hnc
      by (apply (safe_not_crashed _ _ _ i _ Hs'), list_lookup_insert_eq; by rewrite length_fmap).
    assert (query_safe (mkQueryState (shared_array st) mp hp (<[i:=GMerging g']> (workers st)))) as Hsafe.
    { split; cbn [shared_array workers]; [by apply Forall_insert|]. exists s0, inputs.
      split; [|by eapply Forall2_insert_r]. unfold live_race. cbn [shared_map shared_heap workers].
      by rewrite list_fmap_insert. }
    destruct g'; try done; by intros [= <-].
Qed.

Lemma query_start_safe ms spare remotes : query_safe (query_start (W := W) ms spare [] remotes).
Proof.
  unfold query_start. cbn [alloc_locals]. split; cbn [shared_array workers].
  - apply Forall_fmap, Forall_forall. intros r _. unfold compose. rewrite start_worker_todo. cbn [written ms_read].
    rewrite take_app_le, take_ge by (rewrite length_fmap; lia). apply Forall_fmap, Forall_true. intros m. by eexists.
  - exists (race_start [] ((fun _ => []) <$> remotes)), ((fun _ => []) <$> remotes). split.
    + unfold live_race. cbn [shared_map shared_heap workers].
      assert (live_view <$> (start_worker ms <$> remotes) = GLoop <$> ((fun _ => []) <$> remotes)) as ->.
      { rewrite <- !list_fmap_compose. apply list_fmap_ext. intros i r _. unfold compose. by rewrite start_worker_todo. }
      apply (race_safe_initial (race_start [] ((fun _ => []) <$> remotes))), race_start_spec.
    + apply Forall2_fmap_2, Forall_Forall2_diag, Forall_true. intros r. by rewrite start_worker_todo.
Qed.

(** ** How the process ends *)

(** The request of a goroutine panics: the client does, before it is sent, or the
    answer has a null series. *)
Definition ask_fails (from through : Time) (r : remote_store (W := W)) (p : go_panic) : Prop :=
  exists m, Client_Read (q_client (r_querier r)) (r_world r) from through m = Panic p \/
    exists res mat, Client_Read (q_client (r_querier r)) (r_world r) from through m = Ret (res, inr mat) /\
      None ∈ mat /\ p = PanicNilDeref.

Lemma ask_Panic from through r added m p : ask from through r added m = Panic p -> ask_fails from through r p.
Proof.
  unfold ask. intros Hask. exists m. destruct (Client_Read _ _ _ _ _) as [[res [err|mat]]|p']; cbn [mbind outcome_bind snd] in Hask;
    [done| |left; congruence].
  right. exists res, mat. split; [done|]. rewrite removeLabels_spec in Hask. case_decide as Hrem.
  { injection Hask as <-. by destruct Hrem. }
  cbn [mbind outcome_bind MatrixToIterators answer_of] in Hask.
  set (its := option_map mkSampleStreamIterator <$> (option_map (strip_stream added) <$> mat)) in *.
  assert (None ∈ its -> outcome_map deref_iterator its = Panic PanicNilDeref) as Hnil.
  { intros Hn. apply outcome_map_panics.
    - apply Forall_forall. intros [it|] _; [left; by eexists|by right].
    - apply Exists_exists. by exists None. }
  destruct (decide (None ∈ mat)) as [Hn|Hn].
  - split; [done|]. rewrite Hnil in Hask; [cbn in Hask; congruence|].
    unfold its. apply list_elem_of_fmap. exists None. split; [done|]. apply list_elem_of_fmap. by exists None.
  - exfalso. destruct (outcome_map_total deref_iterator its) as [l Hl]; [|by rewrite Hl in Hask].
    apply Forall_forall. intros [it|] Hit; [by eexists|]. exfalso. apply Hn.
    unfold its in Hit. apply list_elem_of_fmap in Hit as ([x|]&Hx&Hit); [done|].
    by apply list_elem_of_fmap in Hit as ([y|]&Hy&Hit).
Qed.

Lemma proxy_step_Panic i (p : proxy_state (W := V)) e :
  proxy_step i p = Some (Panic e) -> e = PanicNilDeref /\ exists url, threads p !! i = Some (url, GStart) /\
    (new_request_ok url = false \/ (client_Do (pworld p) url).2 = None).
Proof.
  unfold proxy_step. destruct (threads p !! i) as [[url g]|]; [|done].
  destruct g; [| |by destruct (append_body _ _ _)| |]; try done. intros Hs. injection Hs as Hs.
  destruct (new_request_ok url) eqn:Hok; [|injection Hs as <-; split; [done|]; exists url; split; [done|by left]].
  destruct (client_Do (pworld p) url) as [w [b|]] eqn:Hdo; [done|]. injection Hs as <-. split; [done|].
  exists url. split; [done|]. right. by rewrite Hdo.
Qed.

(** The panics that end the process. *)
Inductive ends_with (ps : process) : pevent -> go_panic -> Prop :=
  (** an exit before the target manager runs, or a queue resharded to less than
      no shards *)
  | ends_server e p : fatal FS (ps_server ps) e p -> ends_with ps (PServer e) p
  (** the server starts with a negative number of connections *)
  | ends_listen : MaxConnections o < 0 -> ends_with ps (PServer (EvListen _ None)) PanicMakeLen
  (** the request of a goroutine of a query panics *)
  | ends_query k i q r p :
      ps_queries ps !! k = Some q -> lq_remotes q !! i = Some r ->
      ask_fails (lq_from q) (lq_through q) r p -> ends_with ps (PQueryStep k i) p
  (** a request that is passed on makes no request, or gets no response *)
  | ends_request k i st url :
      ps_requests ps !! k = Some st -> threads st !! i = Some (url, GStart) ->
      new_request_ok url = false \/ (client_Do (pworld st) url).2 = None ->
      ends_with ps (PRequestStep k i) PanicNilDeref.

Lemma pstep_ends ps e p :
  valid_files FS LoadFile -> server_inv (ps_server ps) ->
  Forall (fun q => query_safe (lq_state q)) (ps_queries ps) -> pstep ps e (Panic p) -> ends_with ps e p.
Proof.
  intros Hv Hi Hq Hst. inversion Hst as [e' out Hs _ He Ho|p' _ _ Hlim|? ? ? ? ? _ _|k i q out _ Hk Hout He Ho|? ? ? _ _|k i st out _ Hk Hout He Ho];
    subst.
  - destruct out as [s'|p']; cbn [mbind outcome_bind] in Ho; [done|]. injection Ho as ->.
    apply ends_server. exact (sstep_inv _ _ _ _ _ _ _ _ Hv Hi Hs).
  - unfold LimitListener in Hlim. destruct (MaxConnections o <? 0) eqn:Hneg; [|done]. injection Hlim as <-.
    apply ends_listen. lia.
  - destruct out as [q'|p']; cbn [mbind outcome_bind] in Ho; [done|]. injection Ho as ->.
    destruct (query_outcome_safe q i _ (Forall_lookup_1 _ _ _ _ Hq Hk) Hout) as (r&added&m&Hr&Hask).
    eapply ends_query; [done|done|]. by eapply ask_Panic.
  - destruct out as [st'|p']; cbn [mbind outcome_bind] in Ho; [done|]. injection Ho as ->.
    apply proxy_step_Panic in Hout as (->&url&Hth&Hf). by eapply ends_request.
Qed.

(** A step of the process is one of the server, or leaves it alone. *)
Lemma pstep_server ps e ps' :
  pstep ps e (Ret ps') ->
  match e with
  | PServer e => sstep oob FS LoadFile (EnableQuit o) w0 (ps_server ps) e (Ret (ps_server ps'))
  | _ => ps_server ps' = ps_server ps
  end.
Proof.
  intros Hst. inversion Hst as [e' out Hs _ He Ho| |? ? ? ? ? _ _|k i q out _ Hk Hout He Ho|? ? ? _ _|k i st out _ Hk Hout He Ho];
    subst; try done;
    destruct out; cbn [mbind outcome_bind] in Ho; try done; injection Ho as <-; done.
Qed.

Lemma pstep_queries ps e ps' :
  Forall (fun q => query_safe (lq_state q)) (ps_queries ps) -> pstep ps e (Ret ps') ->
  Forall (fun q => query_safe (lq_state q)) (ps_queries ps').
Proof.
  intros Hq Hst. inversion Hst as [e' out Hs _ He Ho| |? ? ? ? ? _ _|k i q out _ Hk Hout He Ho|? ? ? _ _|k i st out _ Hk Hout He Ho];
    subst; try done;
    try (destruct out as [q'|?]; cbn [mbind outcome_bind] in Ho; [injection Ho as <-|done]); try done.
  - apply Forall_app. split; [done|]. constructor; [|constructor]. apply query_start_safe.
  - apply Forall_insert; [done|]. by destruct (query_outcome_safe q i _ (Forall_lookup_1 _ _ _ _ Hq Hk) Hout).
Qed.

Lemma pruns_projection s0 es ps :
  pruns (mkProcess s0 [] []) es ps ->
  sruns oob FS LoadFile (EnableQuit o) w0 s0 (server_events es) (ps_server ps) /\
  Forall (fun q => query_safe (lq_state q)) (ps_queries ps).
Proof.
  induction 1 as [|es ps e ps' _ [IH Hq] Hst]; [split; constructor|]. split; [|by eapply pstep_queries].
  unfold server_events. rewrite omap_app. apply pstep_server in Hst.
  destruct e; cbn [omap list_omap]; try (by rewrite app_nil_r, Hst). by eapply sruns_snoc.
Qed.

Lemma pstep_serving ps e out : pstep ps e out -> sv_main (ps_server ps) = MServing.
Proof.
  inversion 1 as [e' out' Hs|?|? ? ? ? ? [? _]|?|? ? ? [? _]|?]; subst; try done. by apply sstep_serving in Hs.
Qed.

(** C18: the end of the process, with all its requests, when the relabelling rules
    of the configurations that it loads are valid. While it serves, a signal to
    terminate can always be received, a request to quit once one has been made,
    and the error of the listener once there is one; whichever comes, the process
    exits with 0, with every goroutine of the target manager done, and takes no
    further step. The one exception is an exit that comes before the target
    manager's Run has got the lock: Stop then calls a nil function and panics.
    Besides that, and whatever the Go runtime itself aborts, the process ends with a panic only when a queue reshards to a
    negative number of shards, when the server starts with a negative number of
    connections, when a goroutine of a query panics before it sends its request
    or gets an answer with a null series, and when the request to a target cannot
    be made or gets no response. However the goroutines of a query interleave,
    they cannot make each other panic. *)
Theorem process_exits fs_Parse stale fs args s0 es ps :
  valid_files FS LoadFile -> Main oob FS LoadFile w0 fs_Parse stale fs args (Serves s0) ->
  pruns (mkProcess s0 [] []) es ps ->
  (forall e out, is_exit FS e = true -> pstep ps (PServer e) out ->
     if sv_run (ps_server ps) then
       exists ps', out = Ret ps' /\ sv_main (ps_server ps') = MExited 0 /\
         wg_done (pr_targets (sv_prog (ps_server ps'))) /\ forall e' out', ~ pstep ps' e' out'
     else out = Panic PanicNilDeref) /\
  (forall e p, pstep ps e (Panic p) -> ends_with ps e p) /\
  (sv_main (ps_server ps) = MServing ->
     (exists out, pstep ps (PServer (EvTerm _)) out) /\
     ((0 < times FS (is_ev_quit FS) (server_events es))%nat -> exists out, pstep ps (PServer (EvQuitReceived _)) out) /\
     (forall err, sv_web (ps_server ps) = WebError err -> exists out, pstep ps (PServer (EvListenError _)) out) /\
     (sv_run (ps_server ps) = false -> exists ps', pstep ps (PServer (EvRunTargets _)) (Ret ps') /\
        sv_run (ps_server ps') = true)).
Proof.
  intros Hv Hm Hr. apply pruns_projection in Hr as [Hr Hq].
  destruct (server_exits oob FS LoadFile w0 (EnableQuit o) _ _ _ _ _ _ _ Hv Hm Hr) as (Hexit&_&Hlive).
  assert (forall e out, e <> EvListen _ None -> sstep oob FS LoadFile (EnableQuit o) w0 (ps_server ps) e out ->
    pstep ps (PServer e) (s ← out; Ret (set_server ps s))) as Hstep by (intros e out He Hs; by apply p_server).
  split_ands.
  - intros e out He Hst. inversion Hst as [e' out' Hs _ Hee Ho|?| | | |]; subst; [|done].
    specialize (Hexit e out' He Hs). destruct (sv_run (ps_server ps)); [|by rewrite Hexit].
    destruct Hexit as (s'&->&Hex&Hdone&Hno). exists (set_server ps s'). split_ands; [done..|].
    intros e' out2 Hst2. apply pstep_serving in Hst2. cbn [set_server ps_server] in Hst2. congruence.
  - intros e p. apply pstep_ends; [done| |done].
    destruct (served_start _ _ _ _ _ _ _ _ _ Hv Hm) as (Hi0&_). by eapply sruns_inv.
  - intros Hserving. destruct (Hlive Hserving) as (Hterm&Hquit&Herr&Hrun). split_ands.
    + destruct Hterm as [out Hs]. eexists. by apply Hstep.
    + intros Hn. destruct (Hquit Hn) as [out Hs]. eexists. by apply Hstep.
    + intros err Hw. destruct (Herr err Hw) as [out Hs]. eexists. by apply Hstep.
    + intros Hf. destruct (Hrun Hf) as (s'&Hs&Hs'). exists (set_server ps s'). split; [|done].
      exact (Hstep (EvRunTargets _) _ ltac:(discriminate) Hs).
Qed.

End process.

(** ** A process whose target does not answer *)

Section examples.
Import ScriptedHTTP.
#[local] Existing Instance TargetManager.params_order.
#[local] Existing Instance TargetManager.targets_order.
#[local] Existing Instance TargetManager.plain_urls.
#[local] Existing Instance TargetManager.file_scrape.
#[local] Existing Instance Server.plain_flags.

(** Every target refuses the connection. *)
#[local] Instance dead_proxy : ProxyLib unit.
Proof.
  refine {| new_request_ok _ := true; client_Do u _ := (u, None); grow n := n |}.
  abstract (intros; lia).
Defined.

Definition no_quit : Options := mkOptions EmptyString "/prom" false ":9090" 0 512 ∅.

(** The process of Service.v, which has one target; a request for it is passed on. *)
Definition dead_events : list (pevent (W := list (error + Response)) (V := unit) Server.files) :=
  (PServer _ <$> prom_run) ++ [PRequest _ tt seen_targets values_request].
Definition dead_request : proxy_state (W := unit) := proxy_init tt (prom_urls seen_targets values_request).
Definition dead_process : process (W := list (error + Response)) (V := unit) :=
  mkProcess prom_end [] [dead_request].

Lemma lift_runs s0 es s :
  sruns no_oob Server.files (Server.demo_load Server.no_remote) false [] s0 es s ->
  pruns (V := unit) no_oob Server.files (Server.demo_load Server.no_remote) [] no_quit (mkProcess s0 [] [])
    (PServer _ <$> es) (mkProcess s [] []).
Proof.
  induction 1 as [|es s e s' _ IH Hst]; [constructor|]. rewrite fmap_app. eapply pruns_snoc; [exact IH|].
  exact (p_server no_oob Server.files (Server.demo_load Server.no_remote) [] no_quit (mkProcess s [] []) e (Ret s') Hst
    (fun _ => ex_intro _ 512%nat eq_refl)).
Qed.

Lemma dead_runs :
  pruns no_oob Server.files (Server.demo_load Server.no_remote) [] no_quit (mkProcess prom_start [] []) dead_events
    dead_process.
Proof.
  eapply pruns_snoc; [apply lift_runs, prom_runs|].
  apply (p_request no_oob Server.files (Server.demo_load Server.no_remote) [] no_quit (mkProcess prom_end [] [])).
  - by split.
  - exists (map_to_list (targetSets (pr_targets (sv_prog prom_end)))). by split.
Qed.

Lemma dead_threads : threads dead_request = [("http://p:9090/prom/api/v1/label/site/values", GStart)].
Proof.
  unfold dead_request, proxy_init. cbn [threads].
  assert (prom_urls seen_targets values_request = ["http://p:9090/prom/api/v1/label/site/values"]) as ->
    by exact (f_equal (fmap (fun l => "http://" +:+ l +:+ rq_uri values_request)) prom_targets).
  reflexivity.
Qed.

Lemma dead_step :
  pstep no_oob Server.files (Server.demo_load Server.no_remote) [] no_quit dead_process (PRequestStep _ 0 0)
    (Panic PanicNilDeref).
Proof.
  apply (p_request_step no_oob Server.files (Server.demo_load Server.no_remote) [] no_quit dead_process 0 0
    dead_request (Panic PanicNilDeref)); [reflexivity|reflexivity|].
  unfold proxy_step. rewrite dead_threads. reflexivity.
Qed.

Lemma process_exits_witness :
  ends_with Server.files no_quit dead_process (PRequestStep _ 0 0) PanicNilDeref /\
  exists out, pstep no_oob Server.files (Server.demo_load Server.no_remote) [] no_quit dead_process
    (PServer _ (EvTerm _)) out.
Proof.
  destruct (process_exits no_oob Server.files (Server.demo_load Server.no_remote) [] no_quit Server.flags_ok 0
    prom_files [] prom_start dead_events dead_process
    (Server.demo_valid _ Server.demo_no_remote_valid) prom_main dead_runs) as (_&Hends&Hlive).
  split; [exact (Hends _ _ dead_step)|]. destruct (Hlive eq_refl) as [Hterm _]. exact Hterm.
Defined.

End examples.
